(* ===== verification/_CoqProject ===== *)
-Q . S2P
Prelude.v
Float32.v
Float64.v
Bytes.v
Text.v
ShellTypes.v
Shell.v
Retention.v
Watchdog.v
DeviceChange.v
SttTypes.v
CoverageTypes.v
HandoffPolicy.v
Json.v
Replay.v
Coverage.v
Frame.v
Restart.v
Backoff.v
PcmRing.v
SttClock.v
SttStore.v
Dedupe.v
Deepgram.v
DeepgramWire.v
DeepgramStream.v
StreamProofs.v
StreamLedger.v
PostWindows.v
PostMerge.v
PostTurns.v
Consent.v
Detect.v
Ring.v
OpusArchive.v
FileSystem.v
WalTypes.v
SessionDir.v
Wal.v
WalProofs.v
WalCrash.v
WalTranscript.v
WalClose.v
Observe.v
ReplayFile.v
ReplayProofs.v
Dsp.v
OpusWriter.v
Encode.v
EncodeProofs.v
DiscardProofs.v
Promote.v
Calendar.v
PromoteProofs.v
PromoteChain.v
Budget.v
Document.v
Chunk.v
Evidence.v
Adapter.v
AdapterProofs.v
Sha256.v
Prompt.v
Grounding.v
Summary.v
SummaryProofs.v
Template.v
