(* ===== verification/Prelude.v ===== *)
(** * FlyOnTheWall: a verification library

    FlyOnTheWall records meetings on the user's own machine: an audio layer taps
    the system output and the microphone, a pipeline keeps and retires the
    recordings, a transcription layer streams to a cloud provider and falls back
    to a local engine, a helper process runs native models over a pipe, and a
    shell shows the user, at all times, what is being recorded.  This library
    models the cores of those parts that decide something, as executable
    functions translated from the Rust sources under [src/crates], and proves
    what each promises.

    ** How the parts are modelled

    State is explicit: a struct is a record, an enum an inductive type, a method
    taking [&mut self] a function returning the next state, and what it tells
    the rest of the program a list of effects or a [result].  A [uN] is a [Z]
    with its saturating, checked or wrapping arithmetic written out; an operation
    that would panic returns [None], and one whose overflow is let pass in a
    release build wraps.  Floats are the executable IEEE
    model of the standard library.  I/O that can fail is an argument that says
    how it went, so the theorems range over every failure.  Code that is not in
    the repository ([serde_json], the device, the reader of a pipe) is a class or
    a script with its documented behaviour stated, and is instantiated in the
    witnesses.

    What touches files is a computation over a [World]: a disk of files, each with
    how far it is synced, the locks held, the clocks, and a fate for every
    operation to come: it proceeds, it is refused with an error, or the process is
    killed inside it, after any part of its effect.  The theorems about files
    quantify over the world, so over every failure and every kill at every
    operation; [FileSystem.power_cut] adds the loss of what was not synced.

    ** Files

    - [Prelude]: machine integers, durations, [result], step functions with runs
      and reachability, tactics, hint database and the shared lemmas.
    - [Float32], [Float64]: IEEE arithmetic, comparison, clamping and rounding.
    - [Text]: [str] as UTF-8 bytes: decoding, trimming, splitting, joining.
    - [Bytes]: fixed-width big- and little-endian conversions, PCM16 samples.
    - [ShellTypes], [Shell]: [fotw-shell/src/clock.rs], [prompt.rs], [view.rs] and
      the state machine [state.rs].  [ShellCore] is its record; [handle],
      [on_menu] and [toggle] are its entry points, [view] what it renders.
    - [Retention]: [fotw-pipeline/src/retention.rs]: [plan_sweep], [apply] and the
      disk accounting.
    - [Watchdog]: [fotw-audio/src/watchdog.rs]: the stall detector, its counters
      and the [OutputProbe] trait as a class.
    - [DeviceChange]: [fotw-audio/src/device_change.rs]: the change set, the
      lock-free mailbox at the granularity of its atomic operations, the debounce.
    - [SttTypes], [CoverageTypes]: the records of [fotw-stt/src] ([error.rs],
      [stream.rs], [transcript.rs], [capabilities.rs], the endpointing record of
      [local.rs]) and of [fotwd/src/failover/coverage.rs].
    - [HandoffPolicy]: [fotwd/src/failover/policy.rs]: when a cloud leg is handed
      to the local engine.
    - [Json]: what the journals rely on of [serde_json], and a reference codec
      that satisfies it.
    - [Replay]: the append and the reads of [fotw-pipeline/src/replay.rs], and the
      interface [AudioTrack] through which the journal sees them, with the
      instance that discharges it.
    - [Coverage]: the rest of [fotwd/src/failover/coverage.rs]: the durable journal,
      proved against [AudioTrack] and [Serde].
    - [Frame], [Restart]: [fotw-speechd-client/src/frame.rs] and [restart.rs].
    - [Backoff], [PcmRing], [SttClock], [SttStore], [Dedupe]: [fotw-stt/src]
      [backoff.rs], [replay.rs], [clock.rs], [speaker.rs] with [store.rs], and
      [dedupe.rs].
    - [Deepgram], [DeepgramWire], [DeepgramStream]: the provider: the normalizer of
      its frames ([deepgram.rs]), the wire contract ([deepgram_wire.rs]) and the
      transport ([deepgram_stream.rs]), whose driver task is a step function on
      what the socket, the timers and the application do.  [StreamProofs] and
      [StreamLedger] hold the proofs about the transport.
    - [PostWindows], [PostMerge], [PostTurns]: the offline pass of
      [fotwd/src/post_pass]: the window plan and reader over the class [PcmSource],
      the merge of overlapping windows' words, and the turns.
    - [Ring]: [fotw-pipeline/src/ring.rs]: the ring between the audio callback and
      the pump, with its clock mailbox store by store and load by load.
    - [Consent], [Detect]: [fotwd/src/consent.rs]; [fotw-audio/src/activity.rs] with
      [fotwd/src/detect]: what the machine reports, the catalogue, the detector.

    - [OpusArchive]: [fotw-pipeline/src/opus/complete.rs], the reader that accepts an
      archive, over the class [OpusDecoder]; its checksum.
    - [FileSystem]: worlds, the operations of [std::fs] the crate uses, and a crash
      Hoare logic ([triple], [total], [touches], [apart]) over them.
    - [WalTypes], [SessionDir], [Wal]: [fotw-pipeline/src/wal.rs] and
      [capture_clock.rs]: the manifest, the files of a session directory and the
      capture owner, then the recorder's log [SessionWal], its reader and
      [recover].  [WalProofs] carries the logic of the log, [WalCrash],
      [WalTranscript] and [WalClose] the theorems.
    - [Observe]: computations that only look at the disk, and what a disk that
      reports no file missing that is there lets them conclude.
    - [ReplayFile], [ReplayProofs]: the rest of [replay.rs] over the disk: leases,
      header, boundary proofs, resumption, sealing, the retirement guard.
    - [Dsp]: [fotw-dsp/src/archive.rs] and [resample.rs] over the class [Rubato].
    - [OpusWriter]: the streaming writer of [fotw-pipeline/src/opus.rs] over the
      classes [LibOpus] and [OggMuxer].
    - [Encode], [EncodeProofs], [DiscardProofs]: the end of [wal.rs]: transcoding
      both legs, selecting the archives, discarding the raw audio.
    - [Promote], [Calendar], [PromoteProofs], [PromoteChain]:
      [fotw-pipeline/src/promote.rs]: publishing a session into the media tree and
      retiring its directory; the last file composes the steps.

    The summary, [fotw-summarize/src]:

    - [Budget]: the token estimates and budgets of [tokens.rs] and [capabilities.rs].
    - [Document]: [document.rs]: the blocks a model reads, built from the revisions
      of a transcript.
    - [Chunk]: [chunk.rs]: turns, and the plan of overlapping chunks.
    - [Evidence]: [schema.rs] and [validate.rs]: what of an extraction is kept, and
      why the rest is not; the case tables of Unicode are classes.
    - [Adapter], [AdapterProofs]: [adapter.rs], [error.rs] and the readers of answers
      in [pipeline.rs]: requests, citations, the markers of providers without
      citations and the object found in an answer; parsing it is the class [ExtractionParser].
    - [Sha256], [Prompt]: the digest of [hash.rs], and [prompt.rs]: the fixed prompts and the
      quarantine of a template's body; the texts compiled in are a class.
    - [Grounding]: [coverage.rs], [note_context.rs] and [speech_context.rs].
    - [Summary], [SummaryProofs]: [pipeline.rs]: planning, the prose call of each
      chunk, the reduce call, the extractions and the outcome, over any provider of
      the trait [LlmAdapter].
    - [Template]: of [template.rs], the matching of event titles and the suggestion
      for a misspelt key.

    ** What the theorems show

    - Shell: in every reachable state the indicator is up exactly while capture
      is live; only a human request starts a capture, audited as such; a notice
      that must be acknowledged blocks; the host executing the effects stays in
      step; the session clock never runs back.
    - Retention: a sweep spares kept and untranscribed audio, evicts a minimal
      oldest-first prefix, accounts to the byte, warns exactly when it must,
      ignores listing order; its application unlinks exactly the plan.
    - Watchdog: no arithmetic panic on a clock that does not run back; silence is
      only a fault when corroborated, a poll lost to starvation apart; starvation is always caught; arming
      forgives.
    - Device changes: no raise is lost under any interleaving; a take returns
      exactly what was raised since the last; the debounce fires once per settled
      burst and always by its ceiling.
    - Handoff: every decision is exactly what the history calls for within its episode
      of trouble; outages are bounded; the reconnect budget is exact; a demotion is final; errors follow the taxonomy.
    - Coverage: commits are contiguous and belong to their epochs, old epochs are
      fenced, receipts are idempotent, and reopening after any failure recovers
      the journal or the journal with exactly the entry in flight; a snapshot
      agrees with it and touches nothing.
    - Replay: what is appended is what is read, to the sample, torn writes
      included.
    - Framing and restarts: frames survive any chopping of the pipe, hostile
      lengths are refused unread, encodings are canonical, the two readers agree;
      restarts are spaced and bounded.
    - Transcription stream: a live connection has always been sent the leg's audio
      contiguously, across any reconnects, and what outlived the replay ring is
      reported; reconnects and the queue are bounded;
      once the stream says it is closed every partial it published is settled; the
      normalizer panics on exactly one kind of frame; finals carry exactly the
      settled chunks; trimming drops exactly the duplicated tokens; the budget is a
      sliding window; the replay ring gives exact suffixes; the query string reads
      back.
    - Offline pass: the plan covers the track and always comes out; the reader
      hands out exactly the planned windows; what the windows hear of a track's
      speech the merge puts back together exactly, and in general it touches only
      the boundaries; every word is in exactly one well-formed turn, and a turn
      yields where the other channel speaks; joined spans are faithful and a word
      takes its nearest speaker.
    - Ring: under any interleaving the pump never reads a torn observation; every
      sample offered is drained, queued or counted as dropped; tap generations do
      not mix.
    - Consent and detection: the warning blocks exactly when some signal points
      outside the one-party regimes or the home is unknown, more knowledge never
      lowers it, its text is complete, the disclosure mail opens whole; a prompt
      rests on a conjunction held for the dwell, is raised once, respects snoozes
      and suppressions, is withdrawn when the machine cannot be read; and from the
      machine to the recording, a detected meeting under a blocking notice starts
      only on its own acknowledgement.

    - Write-ahead log: after any operations and any crash, with or without a power
      cut, the session reads back unfinished, each leg and the transcript a prefix
      of what was offered, reaching at least as far as the last flush; a checkpoint
      outlives whatever follows; a session that reads back as finalized is complete;
      what is not synced is recent.
    - Canonical audio on disk: an append never leaves a stale proof, a seal is final,
      and the retirement guard is given only for settled sources.
    - Archives: the verifier always returns and accepts only whole archives, its
      checksum is the Ogg CRC, a changed byte is refused.
    - Conversion and encoding: a conversion keeps the duration to the frame and does
      not depend on the blocks; neither does the archive, whose clock ends at the
      tick the verifier expects.
    - From recording to library: encoding spares the recording; the raw audio goes
      only once both archives verify; a published name is never worn by a file that
      is not whole and synced; the session directory goes only once what was
      published verifies and the transcription is settled; so a promotion, however it
      ends, never loses a recording; the month a meeting is filed under is the
      calendar's.
    - Summary: the document is the newest revision of every utterance whatever the
      order of reading; chunks are whole turns within the budget that together show
      every segment once in order; whatever a model answers, an item survives only
      with segments that exist and hold its quote, and its names and dates are found
      there; a citation moved to the document names what was shown, markers read
      back, an object in an answer is found; a template's body cannot close its
      quarantine; the facts about the recording stay in their bound; planning ends
      in chunks that fit or in a refusal, and a summary rests on whole answers only;
      title patterns and the distance of a suggestion are what they stand for.  Two
      behaviours that are not what the documentation says are theorems as well: a
      blank quote survives, and an item said in an overlap is counted twice.

    ** Fuel

    The loops that read ([Frame.fill_loop], [Coverage.load_loop],
    [Replay.write_chunks]) take a number of rounds: one more than the events of
    the script, the bytes left, or the samples.  The plan of windows takes one
    round per sample of the track and the reader one per sample of a window, since
    each round advances by at least one.  Every round but the last uses one up, and
    the theorems state the result the code returns with exactly that fuel, so
    running out is excluded and not assumed away.  The archive verifier takes one
    round per byte and one more, and is proved to return; draining the encoder takes
    one round per pending sample and the read loop of a transcode two more than the
    buffers the file fills; reserving a directory tries 128 names as the code does;
    measuring a directory takes one round per entry of the disk and one more.
    Planning chunks takes one round per turn and one more, shrinking the budget of a
    chunk one per halving and one more, reading markers and replacing a text one per
    character and one more: each round consumes at least one.  The
    rate converter's fuel is quantified: some amount is enough, and any more gives
    the same.

    ** Not modelled

    Platform bindings (audio taps, windows, key stores), the kernels of third-party
    signal processing, SQL, HTTP and sockets.  In [Coverage] and [Replay] reading an
    existing file is taken not to fail and locks are whether they could be taken;
    sockets and timers are the stimuli of the step functions; the Unicode tables are
    classes.  On the disk a path is resolved without links, a write reaches a prefix
    of its bytes, the entries of a directory survive a power cut, and nobody else
    writes in a session directory while its owner does; messages on standard error
    and display-only figures are left out.  Also left out: the reconstruction of a
    lost suffix of canonical audio; the failover worker that composes policy, journal
    and canonical audio, and the checkpointed job of the offline pass, which are
    orchestration of tasks around the modelled cores; the capture supervisor;
    recovery codes; web tokens; of the summary, the wire formats of the providers and
    their command lines, prices and titles, the YAML of templates and the text of the
    JSON schema. *)

From Stdlib Require Export ZArith Lia Ascii.
From stdpp Require Export base option list strings numbers pretty sorting sets gmap.

#[export] Set Default Goal Selector "!".

Declare Scope fotw_scope.
Delimit Scope fotw_scope with fotw.

Create HintDb fotw.

Local Open Scope Z_scope.

(** ** Machine integers

    A Rust [u32]/[u64]/[usize] value is a [Z] kept in its range.  Checked
    (panicking) arithmetic returns an [option]: [None] is the overflow panic. *)

Definition u64_max : Z := 2 ^ 64 - 1.
Definition u32_max : Z := 2 ^ 32 - 1.

Definition in_u64 (z : Z) : Prop := 0 <= z <= u64_max.
Definition in_u32 (z : Z) : Prop := 0 <= z <= u32_max.

Definition sat_sub (a b : Z) : Z := Z.max 0 (a - b).
Definition sat_add64 (a b : Z) : Z := Z.min u64_max (a + b).
Definition sat_mul64 (a b : Z) : Z := Z.min u64_max (a * b).
Definition sat_add32 (a b : Z) : Z := Z.min u32_max (a + b).
Definition checked_add64 (a b : Z) : option Z :=
  if a + b <=? u64_max then Some (a + b) else None.
Definition checked_mul64 (a b : Z) : option Z :=
  if a * b <=? u64_max then Some (a * b) else None.
Definition checked_sub (a b : Z) : option Z :=
  if b <=? a then Some (a - b) else None.

(** [a + b] and [a - b] on [u64] in a release build, where they wrap. *)
Definition wadd (a b : Z) : Z := (a + b) mod 2 ^ 64.
Definition wsub (a b : Z) : Z := (a - b) mod 2 ^ 64.

(** [iter().sum::<u64>()]: the sum, or the overflow panic. *)
Fixpoint sum_from (acc : Z) (l : list Z) : option Z :=
  match l with
  | [] => Some acc
  | x :: l => s ← checked_add64 acc x; sum_from s l
  end.
Definition sum_u64 (l : list Z) : option Z := sum_from 0 l.

(** The unbounded sum, the specification of [sum_u64]. *)
Definition zsum (l : list Z) : Z := foldr Z.add 0 l.

(** [Option::get_or_insert], as the value left in the slot. *)
Definition get_or_insert {A} (o : option A) (x : A) : A := default x o.

(** [Option::is_some_and]. *)
Definition is_some_and {A} (o : option A) (p : A -> bool) : bool :=
  match o with Some x => p x | None => false end.

Definition is_some {A} (o : option A) : bool :=
  match o with Some _ => true | None => false end.

(** ** [std::time::Duration], in whole nanoseconds *)

Definition Duration := Z.
Definition NANOS_PER_SEC : Z := 1000000000.
Definition DURATION_MAX : Z := u64_max * NANOS_PER_SEC + (NANOS_PER_SEC - 1).
Definition dur_from_secs (s : Z) : Duration := s * NANOS_PER_SEC.
Definition dur_from_millis (ms : Z) : Duration := ms * 1000000.
Definition dur_as_secs (d : Duration) : Z := d / NANOS_PER_SEC.
Definition dur_saturating_sub (a b : Duration) : Duration := Z.max 0 (a - b).
Definition dur_saturating_add (a b : Duration) : Duration := Z.min DURATION_MAX (a + b).
(** [d.as_nanos() as u64]: a truncating cast. *)
Definition dur_as_nanos_u64 (d : Duration) : Z := d mod 2 ^ 64.

(** ** Results *)

Inductive result (A E : Type) : Type :=
| Ok (a : A)
| Err (e : E).
Arguments Ok {A E} a.
Arguments Err {A E} e.

Definition result_bind {A B E} (r : result A E) (k : A -> result B E) : result B E :=
  match r with Ok a => k a | Err e => Err e end.

Notation "'let?' x ':=' r 'in' k" := (result_bind r (fun x => k))
  (at level 10, x pattern, r at level 100, k at level 200) : fotw_scope.
Open Scope fotw_scope.

(** ** Step functions, runs and reachability

    A stateful component is a step function from a state and a call to the
    next state and the effects it emits. *)

Section Machine.
Context {S I O : Type} (step : S -> I -> S * list O).

Fixpoint run (s : S) (ins : list I) : S * list O :=
  match ins with
  | [] => (s, [])
  | i :: ins =>
      let '(s1, o1) := step s i in
      let '(s2, o2) := run s1 ins in
      (s2, o1 ++ o2)
  end.

Inductive reachable (s0 : S) : S -> Prop :=
| reach_here : reachable s0 s0
| reach_step s i : reachable s0 s -> reachable s0 (step s i).1.

Lemma run_cons s i ins :
  run s (i :: ins) =
  ((run (step s i).1 ins).1, (step s i).2 ++ (run (step s i).1 ins).2).
Proof. simpl. destruct (step s i) as [s1 o1]. simpl. by destruct (run s1 ins). Qed.

Lemma run_app s ins1 ins2 :
  run s (ins1 ++ ins2) =
  ((run (run s ins1).1 ins2).1, (run s ins1).2 ++ (run (run s ins1).1 ins2).2).
Proof.
  revert s. induction ins1 as [|i ins1 IH]; intros s.
  - simpl. by destruct (run s ins2).
  - rewrite <-app_comm_cons, !run_cons, IH. simpl. by rewrite app_assoc.
Qed.

Lemma reachable_trans s0 s1 s2 : reachable s0 s1 -> reachable s1 s2 -> reachable s0 s2.
Proof. intros H1 H2. induction H2; [done | by constructor]. Qed.

Lemma run_reachable s ins : reachable s (run s ins).1.
Proof.
  revert s. induction ins as [|i ins IH]; intros s; [constructor|].
  rewrite run_cons. simpl.
  apply reachable_trans with (step s i).1; [apply (reach_step s s i); constructor | apply IH].
Qed.

(** An invariant established at the start and kept by every step holds in
    every reachable state. *)
Lemma reachable_invariant (P : S -> Prop) s0 s :
  P s0 -> (forall s i, P s -> P (step s i).1) -> reachable s0 s -> P s.
Proof. intros H0 Hs. induction 1; eauto. Qed.

End Machine.

#[export] Hint Constructors reachable : fotw.

(** ** Automation *)

(** Split every match and boolean test of the goal. *)
Ltac split_match :=
  repeat match goal with
  | |- context [match ?x with _ => _ end] =>
      lazymatch x with
      | context [match _ with _ => _ end] => fail
      | _ => destruct x eqn:?
      end
  end.

(** The same in a hypothesis. *)
Ltac split_match_in H :=
  repeat match type of H with
  | context [match ?x with _ => _ end] =>
      lazymatch x with
      | context [match _ with _ => _ end] => fail
      | _ => destruct x eqn:?
      end
  end.

(** Unfold the machine arithmetic and decide the rest with [lia]. *)
Ltac unfold_machine :=
  unfold sat_sub, sat_add64, sat_mul64, sat_add32, in_u64, in_u32,
    dur_saturating_sub, dur_saturating_add, get_or_insert in *.
Ltac mlia := unfold_machine; lia.

(** ** Shared lemmas *)

Lemma sat_sub_nonneg a b : 0 <= sat_sub a b.
Proof. mlia. Qed.

Lemma sat_sub_le a b : 0 <= a -> 0 <= b -> sat_sub a b <= a.
Proof. mlia. Qed.

Lemma checked_sub_Some a b : b <= a -> checked_sub a b = Some (a - b).
Proof. intros. unfold checked_sub. by rewrite (proj2 (Z.leb_le b a)) by lia. Qed.

Lemma checked_sub_inv a b c : checked_sub a b = Some c -> b <= a /\ c = a - b.
Proof. unfold checked_sub. destruct (Z.leb_spec b a); naive_solver. Qed.

Lemma checked_add64_Some a b : a + b <= u64_max -> checked_add64 a b = Some (a + b).
Proof. intros. unfold checked_add64. by rewrite (proj2 (Z.leb_le _ _)) by lia. Qed.

Lemma wadd_small a b : 0 <= a -> 0 <= b -> a + b <= u64_max -> wadd a b = a + b.
Proof. intros. apply Z.mod_small. unfold u64_max in *. lia. Qed.

Lemma wsub_small a b : 0 <= b <= a -> a <= u64_max -> wsub a b = a - b.
Proof. intros. apply Z.mod_small. unfold u64_max in *. lia. Qed.

Lemma zsum_app l k : zsum (l ++ k) = zsum l + zsum k.
Proof. unfold zsum. induction l as [|x l IH]; simpl; lia. Qed.

Lemma zsum_nonneg l : Forall (Z.le 0) l -> 0 <= zsum l.
Proof. unfold zsum. induction 1; simpl; lia. Qed.

Lemma zsum_perm l k : l ≡ₚ k -> zsum l = zsum k.
Proof. unfold zsum. induction 1; simpl; lia. Qed.

Lemma zsum_submseteq l k : Forall (Z.le 0) k -> l ⊆+ k -> zsum l <= zsum k.
Proof.
  intros Hk [r Hr]%submseteq_Permutation.
  rewrite (zsum_perm _ _ Hr), zsum_app.
  rewrite Hr in Hk. apply Forall_app in Hk as [_ Hr']. pose proof (zsum_nonneg r Hr'). lia.
Qed.

Lemma sum_from_spec acc l :
  Forall (Z.le 0) l -> 0 <= acc -> acc + zsum l <= u64_max -> sum_from acc l = Some (acc + zsum l).
Proof.
  intros Hl. revert acc. induction Hl as [|x l Hx Hl IH]; intros acc Ha Hb.
  - unfold zsum; simpl. f_equal. lia.
  - pose proof (zsum_nonneg l Hl). unfold zsum in *; simpl in *.
    rewrite checked_add64_Some by lia. simpl. rewrite IH by lia. f_equal. lia.
Qed.

(** A sum whose exact value fits in 64 bits never panics. *)
Lemma sum_u64_spec l :
  Forall (Z.le 0) l -> zsum l <= u64_max -> sum_u64 l = Some (zsum l).
Proof. intros. unfold sum_u64. rewrite sum_from_spec; [f_equal; lia | done | lia | lia]. Qed.

#[export] Hint Resolve sat_sub_nonneg zsum_nonneg : fotw.

(** [length] as a [Z], the way Rust's [len()] is compared with limits. *)
Definition zlen {A} (l : list A) : Z := Z.of_nat (length l).

Lemma zlen_app {A} (l k : list A) : zlen (l ++ k) = zlen l + zlen k.
Proof. unfold zlen. rewrite length_app. lia. Qed.

Lemma zlen_nonneg {A} (l : list A) : 0 <= zlen l.
Proof. unfold zlen. lia. Qed.

(** [str::len()]: bytes. *)
Definition slen (s : string) : Z := Z.of_nat (String.length s).

(** Sums of a function over a list, compared summand by summand. *)
Section Sums.
Context {A : Type}.
Implicit Types (f g : A -> Z) (l : list A).

Lemma zsum_cons x (l : list Z) : zsum (x :: l) = x + zsum l.
Proof. done. Qed.

Lemma zsum_map_ext f g l : (forall x, x ∈ l -> f x = g x) -> zsum (f <$> l) = zsum (g <$> l).
Proof.
  induction l as [|x l IH]; intros H; [done|]. rewrite !fmap_cons, !zsum_cons.
  rewrite IH, (H x); set_solver.
Qed.

Lemma zsum_map_le f g l : (forall x, x ∈ l -> f x <= g x) -> zsum (f <$> l) <= zsum (g <$> l).
Proof.
  induction l as [|x l IH]; intros H; [done|]. rewrite !fmap_cons, !zsum_cons.
  assert (f x <= g x) by (apply H; left).
  assert (zsum (f <$> l) <= zsum (g <$> l)); [|lia]. apply IH. intros y Hy. apply H. by right.
Qed.

Lemma zsum_map_add f g l :
  zsum (f <$> l) + zsum (g <$> l) = zsum ((fun x => f x + g x) <$> l).
Proof. induction l as [|x l IH]; [done|]. rewrite !fmap_cons, !zsum_cons. lia. Qed.

Lemma zsum_map_nonneg f l : (forall x, x ∈ l -> 0 <= f x) -> 0 <= zsum (f <$> l).
Proof.
  intros H. apply zsum_nonneg. rewrite Forall_fmap, Forall_forall. exact H.
Qed.

Lemma zsum_filter f (P : A -> Prop) `{!forall x, Decision (P x)} l :
  zsum (f <$> filter P l) = zsum ((fun x => if bool_decide (P x) then f x else 0) <$> l).
Proof.
  induction l as [|x l IH]; [done|]. rewrite filter_cons.
  destruct (decide (P x)) as [Hx|Hx]; rewrite !fmap_cons, !zsum_cons, IH.
  - by rewrite bool_decide_true.
  - by rewrite bool_decide_false by done.
Qed.

Lemma zsum_omap {B} (h : A -> option B) (fb : B -> Z) f l :
  (forall x y, x ∈ l -> h x = Some y -> fb y = f x) ->
  zsum (fb <$> omap h l) = zsum ((fun x => if is_some (h x) then f x else 0) <$> l).
Proof.
  induction l as [|x l IH]; intros H; [done|]. csimpl.
  assert (IH' : zsum (fb <$> omap h l) = zsum ((fun x => if is_some (h x) then f x else 0) <$> l)).
  { apply IH. intros ???. apply H. by right. }
  destruct (h x) as [y|] eqn:E; csimpl; rewrite ?zsum_cons, IH'; [|done].
  f_equal. apply (H x y); [left|done].
Qed.

Lemma zsum_take_le f l k : (forall x, x ∈ l -> 0 <= f x) -> zsum (f <$> take k l) <= zsum (f <$> l).
Proof.
  intros H. rewrite <-(take_drop k l) at 2. rewrite fmap_app, zsum_app.
  assert (0 <= zsum (f <$> drop k l)); [|lia].
  apply zsum_map_nonneg. intros x Hx. apply H. rewrite <-(take_drop k l). set_solver.
Qed.

End Sums.

(** Splits of a list with one more element at its end. *)
Lemma snoc_split {A} (l : list A) (w x : A) pre post :
  l ++ [w] = pre ++ x :: post -> (pre = l /\ x = w /\ post = []) \/ exists post', post = post' ++ [w] /\ l = pre ++ x :: post'.
Proof.
  intros E. destruct post as [|y post _] using rev_ind.
  - left. apply app_inj_tail in E as [-> ->]. done.
  - right. rewrite app_comm_cons, app_assoc in E. apply app_inj_tail in E as [-> ->]. by exists post.
Qed.

(** Filters compared on the elements of one list. *)
Section Filters.
Context {A : Type} (P Q : A -> Prop) `{DecP : !forall x, Decision (P x), DecQ : !forall x, Decision (Q x)}.

Lemma filter_ext_in (l : list A) : (forall x, x ∈ l -> P x <-> Q x) -> filter P l = filter Q l.
Proof.
  induction l as [|x l IH]; intros Hin; [done|]. rewrite !filter_cons.
  rewrite IH by (intros; apply Hin; by right).
  destruct (decide (P x)) as [Hp|Hp], (decide (Q x)) as [Hq|Hq]; try done;
    exfalso; pose proof (Hin x ltac:(left)); tauto.
Qed.

Lemma filter_all (l : list A) : (forall x, x ∈ l -> P x) -> filter P l = l.
Proof.
  induction l as [|x l IH]; intros Hin; [done|]. rewrite filter_cons_True by (apply Hin; left).
  f_equal. apply IH. intros. apply Hin. by right.
Qed.

Lemma filter_all_not (l : list A) : (forall x, x ∈ l -> ~ P x) -> filter P l = [].
Proof.
  induction l as [|x l IH]; intros Hin; [done|]. rewrite filter_cons_False by (apply Hin; left).
  apply IH. intros. apply Hin. by right.
Qed.

Lemma filter_length_mono (l : list A) :
  (forall x, x ∈ l -> P x -> Q x) -> zlen (filter P l) <= zlen (filter Q l).
Proof.
  unfold zlen. induction l as [|x l IH]; intros Hin; [done|]. rewrite !filter_cons.
  assert (IH' : Z.of_nat (length (filter P l)) <= Z.of_nat (length (filter Q l))).
  { apply IH. intros. apply Hin; [by right|done]. }
  destruct (decide (P x)) as [Hp|Hp], (decide (Q x)) as [Hq|Hq]; simpl; try lia.
  exfalso. apply Hq, Hin; [left|done].
Qed.

Lemma StronglySorted_filter (R : relation A) (l : list A) :
  StronglySorted R l -> StronglySorted R (filter P l).
Proof.
  induction 1 as [|x l Hl IH Hx]; [constructor|]. rewrite filter_cons.
  case_decide; [|done]. constructor; [done|].
  apply Forall_forall. intros y [_ Hy]%list_elem_of_filter. by eapply Forall_forall in Hx.
Qed.

End Filters.
