(* ===== verification/Float32.v ===== *)
(** * IEEE 754 single precision, as Rust's [f32] uses it

    A value is a [spec_float] of the standard library's executable model with
    24 bits of precision and [emax = 128].  Only the operations the modelled
    code performs are defined: comparison, [clamp], multiplication, [ceil] and
    the casts between [f32] and [usize]. *)

From Stdlib Require Import SpecFloat.
From S2P Require Import Prelude.

Local Open Scope Z_scope.

Abbreviation f32 := spec_float.

Definition f32_prec : Z := 24.
Definition f32_emax : Z := 128.

Definition f32_zero : f32 := S754_zero false.
Definition f32_one : f32 := S754_finite false 8388608 (-23).

Definition f32_is_nan (x : f32) : bool :=
  match x with S754_nan => true | _ => false end.
Definition f32_is_finite (x : f32) : bool :=
  match x with S754_zero _ | S754_finite _ _ _ => true | _ => false end.

(** Rust's [==], [<] and [<=]: false on NaN, and [-0.0 == 0.0]. *)
Definition f32_eqb : f32 -> f32 -> bool := SFeqb.
Definition f32_ltb : f32 -> f32 -> bool := SFltb.
Definition f32_leb : f32 -> f32 -> bool := SFleb.

Definition f32_mul : f32 -> f32 -> f32 := SFmul f32_prec f32_emax.

(** [n as f32]: round to nearest, ties to even. *)
Definition f32_of_Z (n : Z) : f32 := binary_normalize f32_prec f32_emax n 0 false.

(** [f32::clamp]. *)
Definition f32_clamp (x lo hi : f32) : f32 :=
  let x := if f32_ltb x lo then lo else x in
  if f32_ltb hi x then hi else x.

(** [x.ceil() as usize]: the cast saturates, and sends NaN to zero. *)
Definition f32_ceil_as_usize (x : f32) : Z :=
  match x with
  | S754_nan => 0
  | S754_zero _ => 0
  | S754_infinity true => 0
  | S754_infinity false => u64_max
  | S754_finite true _ _ => 0
  | S754_finite false m e =>
      Z.min u64_max
        (if 0 <=? e then Zpos m * 2 ^ e
         else - ((- Zpos m) / 2 ^ (- e)))
  end.

(** [x as i16]: truncates, saturates, and sends NaN to zero. *)
Definition f32_as_i16 (x : f32) : Z :=
  match x with
  | S754_nan | S754_zero _ => 0
  | S754_infinity true => -32768
  | S754_infinity false => 32767
  | S754_finite s m e =>
      let t := if 0 <=? e then Zpos m * 2 ^ e else Zpos m / 2 ^ (- e) in
      if s then Z.max (-32768) (- t) else Z.min 32767 t
  end.

#[export] Instance spec_float_eq_dec : EqDecision spec_float.
Proof. solve_decision. Defined.

Lemma f32_clamp_not_nan x :
  f32_is_nan x = false -> f32_is_nan (f32_clamp x f32_zero f32_one) = false.
Proof. unfold f32_clamp. intros H. by repeat case_match. Qed.

(** After [clamp(0.0, 1.0)] a number that is not NaN lies in the interval. *)
Lemma f32_clamp_range x :
  f32_is_nan x = false ->
  f32_leb f32_zero (f32_clamp x f32_zero f32_one) = true /\
  f32_leb (f32_clamp x f32_zero f32_one) f32_one = true.
Proof.
  assert (Hle : forall a b, f32_is_nan a = false -> f32_is_nan b = false ->
            f32_ltb b a = false -> f32_leb a b = true).
  { intros a b Ha Hb. unfold f32_ltb, f32_leb, SFltb, SFleb, SFcompare.
    destruct a as [sa|sa| |sa ma ea], b as [sb|sb| |sb mb eb]; try done;
      try (destruct sa); try (destruct sb); try done;
      rewrite (Z.compare_antisym ea eb); change (Pos.compare_cont Eq) with Pos.compare;
      rewrite (Pos.compare_antisym ma mb);
      destruct (Z.compare ea eb); simpl; try done;
      by destruct (Pos.compare ma mb). }
  intros Hx. unfold f32_clamp.
  destruct (f32_ltb x f32_zero) eqn:H1.
  - split; reflexivity.
  - destruct (f32_ltb f32_one x) eqn:H2; [split; reflexivity|].
    split; apply Hle; done.
Qed.

Lemma f32_as_i16_range x : -32768 <= f32_as_i16 x < 32768.
Proof.
  unfold f32_as_i16. destruct x as [s|[]| |s m e]; try lia.
  assert (0 <= if 0 <=? e then Z.pos m * 2 ^ e else Z.pos m / 2 ^ (- e)) by
    (case_match; [apply Z.mul_nonneg_nonneg; lia | apply Z.div_pos; lia]).
  destruct s; lia.
Qed.
