(* ===== verification/Float64.v ===== *)
(** * IEEE 754 double precision, as Rust's [f64] uses it

    The same executable model as [Float32], at 53 bits of precision and
    [emax = 1024]: arithmetic rounds to nearest, ties to even; [round] is half
    away from zero; the cast to [u64] saturates and sends NaN to zero. *)

From Stdlib Require Import SpecFloat.
From S2P Require Import Prelude Float32.

Local Open Scope Z_scope.

Abbreviation f64 := spec_float.

Definition f64_prec : Z := 53.
Definition f64_emax : Z := 1024.

Definition f64_add : f64 -> f64 -> f64 := SFadd f64_prec f64_emax.
Definition f64_sub : f64 -> f64 -> f64 := SFsub f64_prec f64_emax.
Definition f64_mul : f64 -> f64 -> f64 := SFmul f64_prec f64_emax.
Definition f64_div : f64 -> f64 -> f64 := SFdiv f64_prec f64_emax.
Definition f64_eqb : f64 -> f64 -> bool := SFeqb.

(** [n as f64]. *)
Definition f64_of_Z (n : Z) : f64 := binary_normalize f64_prec f64_emax n 0 false.

Definition f64_zero : f64 := S754_zero false.
Definition f64_one : f64 := S754_finite false 4503599627370496 (-52).
Definition f64_two : f64 := S754_finite false 4503599627370496 (-51).

(** [f64::clamp]; the bounds used here are never NaN. *)
Definition f64_clamp : f64 -> f64 -> f64 -> f64 := f32_clamp.

(** The magnitude of a finite number rounded to the nearest integer, halves up. *)
Definition round_magnitude (m : positive) (e : Z) : Z :=
  if 0 <=? e then Zpos m * 2 ^ e else (Zpos m + 2 ^ (- e - 1)) / 2 ^ (- e).

(** [f64::round]: half away from zero; the sign of a zero is kept. *)
Definition f64_round (x : f64) : f64 :=
  match x with
  | S754_finite s m e =>
      match round_magnitude m e with
      | Z0 => S754_zero s
      | n => binary_normalize f64_prec f64_emax (if s then - n else n) 0 s
      end
  | _ => x
  end.

(** [x.round() as u64]. *)
Definition f64_round_as_u64 (x : f64) : Z :=
  match x with
  | S754_nan | S754_zero _ | S754_infinity true | S754_finite true _ _ => 0
  | S754_infinity false => u64_max
  | S754_finite false m e => Z.min u64_max (round_magnitude m e)
  end.

(** A decimal literal [n / d]: the nearest double. *)
Definition f64_dec (n d : Z) : f64 := f64_div (f64_of_Z n) (f64_of_Z d).

(** [f64::ceil]. *)
Definition ceil_value (s : bool) (m : positive) (e : Z) : Z :=
  if 0 <=? e then (if s then - Zpos m else Zpos m) * 2 ^ e
  else - ((if s then Zpos m else - Zpos m) / 2 ^ (- e)).

Definition f64_ceil (x : f64) : f64 :=
  match x with
  | S754_finite s m e =>
      match ceil_value s m e with
      | Z0 => S754_zero s
      | n => binary_normalize f64_prec f64_emax n 0 s
      end
  | _ => x
  end.

(** [f64::max] and [f64::min]: a NaN loses. *)
Definition f64_max (x y : f64) : f64 :=
  match x, y with
  | S754_nan, _ => y
  | _, S754_nan => x
  | _, _ => if SFltb x y then y else x
  end.
Definition f64_min (x y : f64) : f64 :=
  match x, y with
  | S754_nan, _ => y
  | _, S754_nan => x
  | _, _ => if SFltb y x then y else x
  end.

(** [x as u64]: towards zero, saturating, NaN to zero. *)
Definition f64_as_u64 (x : f64) : Z :=
  match x with
  | S754_nan | S754_zero _ | S754_infinity true | S754_finite true _ _ => 0
  | S754_infinity false => u64_max
  | S754_finite false m e => Z.min u64_max (if 0 <=? e then Zpos m * 2 ^ e else Zpos m / 2 ^ (- e))
  end.

Lemma round_magnitude_nonneg m e : 0 <= round_magnitude m e.
Proof.
  unfold round_magnitude. destruct (Z.leb_spec 0 e).
  - apply Z.mul_nonneg_nonneg; [lia|]. by apply Z.pow_nonneg.
  - apply Z.div_pos; [|by apply Z.pow_pos_nonneg; lia].
    pose proof (Z.pow_nonneg 2 (- e - 1)). lia.
Qed.

(** The cast is total: whatever the provider's float, the result is a [u64]. *)
Lemma f64_round_as_u64_range x : in_u64 (f64_round_as_u64 x).
Proof.
  unfold f64_round_as_u64, in_u64, u64_max.
  destruct x as [?|[]| |[] m e]; try lia. pose proof (round_magnitude_nonneg m e). lia.
Qed.

#[export] Hint Resolve f64_round_as_u64_range round_magnitude_nonneg : fotw.
