(* ===== verification/Bytes.v ===== *)
(** * Bytes on the wire and on disk

    A byte is a [Z] in [0, 256).  The fixed-width conversions that the framing
    of the speech helper ([fotw-speechd-client/src/frame.rs]) and the canonical
    audio file ([fotw-pipeline/src/replay.rs]) use, with their round trips, and
    the chopping of a byte string into two-byte samples. *)

From S2P Require Import Prelude.

Local Open Scope Z_scope.

Abbreviation bytes := (list Z).

Definition is_byte (b : Z) : Prop := 0 <= b < 256.
Definition is_i16 (x : Z) : Prop := -32768 <= x < 32768.

#[export] Instance is_byte_dec b : Decision (is_byte b).
Proof. unfold is_byte. apply _. Defined.
#[export] Instance is_i16_dec b : Decision (is_i16 b).
Proof. unfold is_i16. apply _. Defined.

(** [u32::to_be_bytes] and [u32::from_be_bytes]. *)
Definition u32_to_be_bytes (n : Z) : bytes :=
  [Z.land (Z.shiftr n 24) 255; Z.land (Z.shiftr n 16) 255; Z.land (Z.shiftr n 8) 255; Z.land n 255].
Definition u32_from_be_bytes (bs : bytes) : Z := foldl (fun acc b => Z.shiftl acc 8 + b) 0 bs.

(** [u32::to_le_bytes] and [u32::from_le_bytes]. *)
Definition u32_to_le_bytes (n : Z) : bytes := rev (u32_to_be_bytes n).
Definition u32_from_le_bytes (bs : bytes) : Z := u32_from_be_bytes (rev bs).

(** [i16::to_le_bytes] and [i16::from_le_bytes]: two's complement. *)
Definition i16_to_le_bytes (x : Z) : bytes := [Z.land x 255; Z.land (Z.shiftr x 8) 255].
Definition i16_from_le_bytes (lo hi : Z) : Z :=
  let u := lo + Z.shiftl hi 8 in if 32768 <=? u then u - 65536 else u.

(** [chunks_exact(2)] mapped through [i16::from_le_bytes]: a trailing odd byte
    is left out. *)
Fixpoint samples_of_bytes (bs : bytes) : list Z :=
  match bs with
  | lo :: hi :: bs => i16_from_le_bytes lo hi :: samples_of_bytes bs
  | _ => []
  end.

(** The bytes of a run of samples. *)
Definition bytes_of_samples (pcm : list Z) : bytes := pcm ≫= i16_to_le_bytes.

(** ** Round trips *)

Lemma land255_mod x : Z.land x 255 = x mod 256.
Proof. change 255 with (Z.ones 8). by rewrite Z.land_ones by lia. Qed.

Lemma land255_byte x : is_byte (Z.land x 255).
Proof. rewrite land255_mod. unfold is_byte. apply Z.mod_pos_bound. lia. Qed.

#[export] Hint Resolve land255_byte : fotw.

Lemma u32_be_roundtrip n : in_u32 n -> u32_from_be_bytes (u32_to_be_bytes n) = n.
Proof.
  unfold in_u32, u32_max, u32_from_be_bytes, u32_to_be_bytes. intros H. simpl.
  rewrite !land255_mod, !Z.shiftl_mul_pow2, !Z.shiftr_div_pow2 by lia.
  change (2 ^ 8) with 256. change (2 ^ 24) with 16777216. change (2 ^ 16) with 65536.
  Z.div_mod_to_equations. lia.
Qed.

Lemma u32_le_roundtrip n : in_u32 n -> u32_from_le_bytes (u32_to_le_bytes n) = n.
Proof. intros. unfold u32_from_le_bytes, u32_to_le_bytes. by rewrite rev_involutive, u32_be_roundtrip. Qed.

Lemma u32_to_be_bytes_bytes n : Forall is_byte (u32_to_be_bytes n).
Proof. repeat constructor; apply land255_byte. Qed.

Lemma u32_from_be_bound b0 b1 b2 b3 :
  is_byte b0 -> is_byte b1 -> is_byte b2 -> is_byte b3 ->
  in_u32 (u32_from_be_bytes [b0; b1; b2; b3]).
Proof.
  unfold is_byte, in_u32, u32_max, u32_from_be_bytes. intros. simpl.
  rewrite !Z.shiftl_mul_pow2 by lia. lia.
Qed.

(** The encoding of a prefix is the only one with its value. *)
Lemma u32_be_unique b0 b1 b2 b3 :
  is_byte b0 -> is_byte b1 -> is_byte b2 -> is_byte b3 ->
  u32_to_be_bytes (u32_from_be_bytes [b0; b1; b2; b3]) = [b0; b1; b2; b3].
Proof.
  unfold is_byte, u32_to_be_bytes, u32_from_be_bytes. intros. simpl.
  rewrite !land255_mod, !Z.shiftl_mul_pow2, !Z.shiftr_div_pow2 by lia.
  change (2 ^ 8) with 256. change (2 ^ 24) with 16777216. change (2 ^ 16) with 65536.
  repeat f_equal; Z.div_mod_to_equations; lia.
Qed.

Lemma i16_le_roundtrip x :
  is_i16 x -> i16_from_le_bytes (Z.land x 255) (Z.land (Z.shiftr x 8) 255) = x.
Proof.
  unfold is_i16, i16_from_le_bytes. intros H.
  rewrite !land255_mod, !Z.shiftl_mul_pow2, !Z.shiftr_div_pow2 by lia.
  change (2 ^ 8) with 256. cbv zeta.
  assert (Hx : x mod 256 + x / 256 mod 256 * 256 = x mod 65536).
  { Z.div_mod_to_equations. lia. }
  rewrite Hx. destruct (Z.leb_spec 32768 (x mod 65536)); Z.div_mod_to_equations; lia.
Qed.

Lemma samples_roundtrip_app pcm rest :
  Forall is_i16 pcm ->
  samples_of_bytes (bytes_of_samples pcm ++ rest) = pcm ++ samples_of_bytes rest.
Proof.
  intros H. unfold bytes_of_samples. induction H as [|x pcm Hx _ IH]; [done|].
  rewrite bind_cons, <-app_assoc. simpl. by rewrite i16_le_roundtrip, IH.
Qed.

Lemma samples_roundtrip pcm :
  Forall is_i16 pcm -> samples_of_bytes (bytes_of_samples pcm) = pcm.
Proof.
  intros H. pose proof (samples_roundtrip_app pcm [] H) as E.
  by rewrite !app_nil_r in E.
Qed.

(** A prefix of encoded samples, cut anywhere, decodes to a prefix of them. *)
Lemma samples_of_prefix pcm bs :
  Forall is_i16 pcm -> bs `prefix_of` bytes_of_samples pcm -> samples_of_bytes bs `prefix_of` pcm.
Proof.
  intros Hp. revert bs. induction Hp as [|x pcm Hx _ IH]; intros bs Hpre.
  { apply prefix_nil_inv in Hpre as ->. done. }
  destruct bs as [|a [|b bs]]; [apply prefix_nil..|]. unfold bytes_of_samples in Hpre. rewrite bind_cons in Hpre.
  simpl in Hpre. apply prefix_cons_inv_1 in Hpre as Ha. apply prefix_cons_inv_2 in Hpre as Hpre.
  apply prefix_cons_inv_1 in Hpre as Hb. apply prefix_cons_inv_2 in Hpre as Hpre. subst a b.
  cbn [samples_of_bytes]. rewrite i16_le_roundtrip by done. by apply prefix_cons, IH.
Qed.

Lemma bytes_of_samples_length pcm : length (bytes_of_samples pcm) = (2 * length pcm)%nat.
Proof. unfold bytes_of_samples. induction pcm as [|x pcm IH]; [done|]. rewrite bind_cons. simpl. lia. Qed.

Lemma bytes_of_samples_app a b : bytes_of_samples (a ++ b) = bytes_of_samples a ++ bytes_of_samples b.
Proof. apply bind_app. Qed.

Lemma bytes_of_samples_bytes pcm : Forall is_byte (bytes_of_samples pcm).
Proof.
  unfold bytes_of_samples. induction pcm as [|x pcm IH]; [constructor|]. rewrite bind_cons.
  apply Forall_app. split; [|done]. repeat constructor; apply land255_byte.
Qed.

(** Two-step induction on byte strings. *)
Lemma pairs_ind (P : bytes -> Prop) :
  P [] -> (forall b, P [b]) -> (forall lo hi bs, P bs -> P (lo :: hi :: bs)) -> forall bs, P bs.
Proof.
  intros H0 H1 H2 bs. enough (P bs /\ forall b, P (b :: bs)) by tauto.
  induction bs as [|b bs [IH1 IH2]]; [auto|]. split; [apply IH2|]. intros b'. by apply H2.
Qed.

Lemma samples_of_bytes_length bs : Z.of_nat (length (samples_of_bytes bs)) = zlen bs / 2.
Proof.
  unfold zlen. induction bs as [|b|lo hi bs IH] using pairs_ind; [done..|]. simpl length.
  rewrite !Nat2Z.inj_succ, IH. Z.div_mod_to_equations. lia.
Qed.

(** On an even number of bytes nothing is lost. *)
Lemma bytes_of_samples_of_bytes bs :
  Forall is_byte bs -> zlen bs mod 2 = 0 -> bytes_of_samples (samples_of_bytes bs) = bs.
Proof.
  unfold zlen. induction bs as [|b|lo hi bs IH] using pairs_ind; [done | done |].
  intros Hb Heven. inversion Hb as [|? ? Hlo Hb']; subst. inversion Hb' as [|? ? Hhi Hbs]; subst.
  cbn [samples_of_bytes]. unfold bytes_of_samples in *. rewrite bind_cons, IH; [|done|].
  - unfold i16_to_le_bytes, i16_from_le_bytes, is_byte in *. simpl.
    rewrite !land255_mod, Z.shiftl_mul_pow2, Z.shiftr_div_pow2 by lia. change (2 ^ 8) with 256.
    repeat f_equal; case_match; Z.div_mod_to_equations; lia.
  - simpl length in Heven. rewrite !Nat2Z.inj_succ in Heven. Z.div_mod_to_equations. lia.
Qed.

Lemma samples_of_bytes_i16 bs : Forall is_byte bs -> Forall is_i16 (samples_of_bytes bs).
Proof.
  induction bs as [|b|lo hi bs IH] using pairs_ind; intros Hb; [constructor..|].
  inversion Hb as [|? ? Hlo Hb']; subst. inversion Hb' as [|? ? Hhi Hbs]; subst.
  simpl. constructor; [|by apply IH]. unfold is_i16, is_byte, i16_from_le_bytes in *.
  rewrite Z.shiftl_mul_pow2 by lia. change (2 ^ 8) with 256. cbv zeta.
  destruct (Z.leb_spec 32768 (lo + hi * 256)); lia.
Qed.
