(* ===== verification/Text.v ===== *)
(** * Strings as Rust has them

    A Rust [str] is a sequence of bytes that is valid UTF-8, and its methods
    work on the Unicode scalar values the bytes encode.  Here a [str] is a
    [string] of bytes; [chars] decodes it, [utf8] encodes, and [is_str] is the
    type's invariant.  The white-space property is the twenty-five code points
    of the Unicode standard and is written out; the alphanumeric property and
    the lower-case mapping are large tables of the standard library, so they are
    the class [UnicodeTables]. *)

From S2P Require Import Prelude.

Local Open Scope Z_scope.

(** ** UTF-8 *)

Definition byte_val (a : ascii) : Z := Z.of_N (N_of_ascii a).
Definition val_byte (z : Z) : ascii := ascii_of_N (Z.to_N z).

(** A Unicode scalar value: Rust's [char]. *)
Definition is_char (c : Z) : Prop := 0 <= c < 1114112 /\ ~ (55296 <= c < 57344).

#[export] Instance is_char_dec c : Decision (is_char c).
Proof. unfold is_char. apply _. Defined.

Definition utf8_char (c : Z) : string :=
  if c <? 128 then String (val_byte c) EmptyString
  else if c <? 2048 then
    String (val_byte (192 + c / 64)) (String (val_byte (128 + c mod 64)) EmptyString)
  else if c <? 65536 then
    String (val_byte (224 + c / 4096))
      (String (val_byte (128 + c / 64 mod 64)) (String (val_byte (128 + c mod 64)) EmptyString))
  else
    String (val_byte (240 + c / 262144))
      (String (val_byte (128 + c / 4096 mod 64))
         (String (val_byte (128 + c / 64 mod 64))
            (String (val_byte (128 + c mod 64)) EmptyString))).

(** [chars.collect::<String>()]. *)
Fixpoint utf8 (cs : list Z) : string :=
  match cs with [] => EmptyString | c :: cs => utf8_char c +:+ utf8 cs end.

(** [s.chars()].  On bytes that are not UTF-8, which no [str] holds, it stops. *)
Fixpoint chars (s : string) : list Z :=
  match s with
  | EmptyString => []
  | String b0 s1 =>
      let v0 := byte_val b0 in
      if v0 <? 128 then v0 :: chars s1
      else match s1 with
      | EmptyString => []
      | String b1 s2 =>
          let v1 := byte_val b1 - 128 in
          if v0 <? 224 then ((v0 - 192) * 64 + v1) :: chars s2
          else match s2 with
          | EmptyString => []
          | String b2 s3 =>
              let v2 := byte_val b2 - 128 in
              if v0 <? 240 then ((v0 - 224) * 4096 + v1 * 64 + v2) :: chars s3
              else match s3 with
              | EmptyString => []
              | String b3 s4 =>
                  ((v0 - 240) * 262144 + v1 * 4096 + v2 * 64 + (byte_val b3 - 128)) :: chars s4
              end
          end
      end
  end.

(** The invariant of [str]. *)
Definition is_str (s : string) : Prop := exists cs, Forall is_char cs /\ s = utf8 cs.

(** Enough to check for a literal. *)
Definition is_str_check (s : string) : bool :=
  bool_decide (Forall is_char (chars s)) && bool_decide (utf8 (chars s) = s).

(** ** White space, trimming, splitting *)

(** [char::is_whitespace]. *)
Definition is_whitespace (c : Z) : bool :=
  ((9 <=? c) && (c <=? 13)) || (c =? 32) || (c =? 133) || (c =? 160) || (c =? 5760) ||
  ((8192 <=? c) && (c <=? 8202)) || (c =? 8232) || (c =? 8233) || (c =? 8239) ||
  (c =? 8287) || (c =? 12288).

Fixpoint trim_start_chars (p : Z -> bool) (cs : list Z) : list Z :=
  match cs with
  | [] => []
  | c :: cs' => if p c then trim_start_chars p cs' else cs
  end.

Definition trim_chars (p : Z -> bool) (cs : list Z) : list Z :=
  rev (trim_start_chars p (rev (trim_start_chars p cs))).

(** [str::trim] and [str::trim_matches]. *)
Definition trim (s : string) : string := utf8 (trim_chars is_whitespace (chars s)).
Definition trim_matches (p : Z -> bool) (s : string) : string := utf8 (trim_chars p (chars s)).

(** [str::trim_end]. *)
Definition trim_end (s : string) : string :=
  utf8 (rev (trim_start_chars is_whitespace (rev (chars s)))).

(** [str::split] at the characters satisfying a predicate: one piece more than
    there are separators, empty pieces included. *)
Fixpoint split_chars (p : Z -> bool) (acc : list Z) (cs : list Z) : list (list Z) :=
  match cs with
  | [] => [acc]
  | c :: cs => if p c then acc :: split_chars p [] cs else split_chars p (acc ++ [c]) cs
  end.

Definition split (p : Z -> bool) (s : string) : list string := utf8 <$> split_chars p [] (chars s).

(** [str::split_whitespace]: the pieces that are not empty. *)
Definition split_whitespace (s : string) : list string :=
  utf8 <$> filter (fun u => u <> []) (split_chars is_whitespace [] (chars s)).

(** [slice.join(sep)]. *)
Fixpoint join (sep : string) (l : list string) : string :=
  match l with
  | [] => EmptyString
  | [x] => x
  | x :: l => x +:+ (sep +:+ join sep l)
  end.

Definition str_is_empty (s : string) : bool :=
  match s with EmptyString => true | _ => false end.

(** [str::to_ascii_lowercase] and [str::eq_ignore_ascii_case], byte by byte. *)
Definition ascii_lower (a : ascii) : ascii :=
  let v := byte_val a in if (65 <=? v) && (v <=? 90) then val_byte (v + 32) else a.

Fixpoint to_ascii_lowercase (s : string) : string :=
  match s with EmptyString => EmptyString | String a s => String (ascii_lower a) (to_ascii_lowercase s) end.

Definition eq_ignore_ascii_case (a b : string) : bool :=
  bool_decide (to_ascii_lowercase a = to_ascii_lowercase b).

(** [str::contains] with a string pattern. *)
Fixpoint starts_with (pat s : string) : bool :=
  match pat, s with
  | EmptyString, _ => true
  | String a pat, String b s => bool_decide (a = b) && starts_with pat s
  | _, _ => false
  end.

Fixpoint contains (s pat : string) : bool :=
  starts_with pat s || match s with EmptyString => false | String _ s => contains s pat end.

(** [s.find(pat)], as the parts before and after the first occurrence. *)
Fixpoint strip_prefix (pat s : string) : option string :=
  match pat, s with
  | EmptyString, _ => Some s
  | String a pat, String b s => if decide (a = b) then strip_prefix pat s else None
  | _, _ => None
  end.

Fixpoint split_at (pat s : string) : option (string * string) :=
  match strip_prefix pat s with
  | Some after => Some (EmptyString, after)
  | None =>
      match s with
      | EmptyString => None
      | String a s => '(before, after) ← split_at pat s; Some (String a before, after)
      end
  end.

(** [s.lines()]: cut at line feeds, a carriage return before one dropped, and no
    last line when it is empty. *)
Definition strip_return (cs : list Z) : list Z :=
  match rev cs with 13 :: r => rev r | _ => cs end.

Fixpoint lines_chars (acc : list Z) (cs : list Z) : list (list Z) :=
  match cs with
  | [] => match acc with [] => [] | _ => [acc] end
  | c :: cs => if c =? 10 then strip_return acc :: lines_chars [] cs else lines_chars (acc ++ [c]) cs
  end.

Definition str_lines (s : string) : list string := utf8 <$> lines_chars [] (chars s).

(** [s.parse::<u64>()]: an optional plus sign, at least one digit, no overflow. *)
Fixpoint parse_digits (acc : Z) (s : string) : option Z :=
  match s with
  | EmptyString => Some acc
  | String a s =>
      let d := byte_val a - 48 in
      if (0 <=? d) && (d <=? 9) then
        let acc' := acc * 10 + d in
        if acc' <=? u64_max then parse_digits acc' s else None
      else None
  end.

Definition parse_u64 (s : string) : option Z :=
  match s with
  | EmptyString => None
  | String a s' =>
      if byte_val a =? 43 then
        match s' with EmptyString => None | _ => parse_digits 0 s' end
      else parse_digits 0 s
  end.

(** ** The tables *)

Class UnicodeTables := {
  is_alphanumeric : Z -> bool;
  to_lowercase : Z -> list Z;
}.

(** What the tables promise of the characters that matter here: white space is
    not alphanumeric, and the lower case of a character is one or more. *)
Class UnicodeLaws `{UnicodeTables} := {
  whitespace_not_alphanumeric c : is_whitespace c = true -> is_alphanumeric c = false;
  lowercase_not_empty c : to_lowercase c <> [];
}.

(** The tables restricted to ASCII. *)
Definition ascii_alphanumeric (c : Z) : bool :=
  ((48 <=? c) && (c <=? 57)) || ((65 <=? c) && (c <=? 90)) || ((97 <=? c) && (c <=? 122)).
Definition ascii_lowercase (c : Z) : list Z :=
  if (65 <=? c) && (c <=? 90) then [c + 32] else [c].

#[export] Instance ascii_tables : UnicodeTables :=
  {| is_alphanumeric := ascii_alphanumeric; to_lowercase := ascii_lowercase |}.

#[export] Instance ascii_laws : UnicodeLaws.
Proof.
  split.
  - intros c. simpl. unfold is_whitespace, ascii_alphanumeric.
    intros H. repeat rewrite ?orb_true_iff, ?andb_true_iff, ?Z.leb_le, ?Z.eqb_eq in H.
    apply not_true_iff_false.
    repeat rewrite ?orb_true_iff, ?andb_true_iff, ?Z.leb_le. lia.
  - intros c. simpl. unfold ascii_lowercase. by case_match.
Qed.

(** [str::to_lowercase], whose mapping of a final sigma looks beyond one character. *)
Class Lowercase := { str_to_lowercase : string -> string }.

#[export] Instance ascii_lowercase_str : Lowercase := {| str_to_lowercase := to_ascii_lowercase |}.

(** [char::is_uppercase]. *)
Class Uppercase := { is_uppercase : Z -> bool }.

#[export] Instance ascii_uppercase : Uppercase :=
  {| is_uppercase c := (65 <=? c) && (c <=? 90) |}.

(** [{n:0width}] of a number that is not negative. *)
Fixpoint zeros (n : nat) : string := match n with O => EmptyString | S n => String "0" (zeros n) end.
Definition zero_padded (width : nat) (n : Z) : string := zeros (width - String.length (pretty n)) +:+ pretty n.

(** ** Lemmas *)

Lemma byte_val_byte z : 0 <= z < 256 -> byte_val (val_byte z) = z.
Proof. intros. unfold byte_val, val_byte. rewrite N_ascii_embedding; lia. Qed.

Lemma val_byte_val a : val_byte (byte_val a) = a.
Proof. unfold val_byte, byte_val. rewrite N2Z.id. apply ascii_N_embedding. Qed.

Lemma byte_val_range a : 0 <= byte_val a < 256.
Proof. unfold byte_val. pose proof (N_ascii_bounded a). lia. Qed.

Lemma str_app_assoc (a b c : string) : (a +:+ b) +:+ c = a +:+ (b +:+ c).
Proof. induction a as [|x a IH]; [done|]. exact (f_equal (String x) IH). Qed.

Lemma str_app_nil (a : string) : a +:+ EmptyString = a.
Proof. induction a as [|x a IH]; [done|]. exact (f_equal (String x) IH). Qed.

Lemma utf8_app a b : utf8 (a ++ b) = utf8 a +:+ utf8 b.
Proof. induction a as [|c a IH]; [done|]. simpl. by rewrite IH, str_app_assoc. Qed.

Lemma chars_utf8_char c s : is_char c -> chars (utf8_char c +:+ s) = c :: chars s.
Proof.
  intros [Hc _]. unfold utf8_char.
  destruct (Z.ltb_spec c 128); [|destruct (Z.ltb_spec c 2048); [|destruct (Z.ltb_spec c 65536)]];
    simpl; rewrite !byte_val_byte by (Z.to_euclidean_division_equations; lia).
  - by rewrite (proj2 (Z.ltb_lt _ _)) by lia.
  - rewrite (proj2 (Z.ltb_ge (192 + _) 128)), (proj2 (Z.ltb_lt (192 + _) 224))
      by (Z.to_euclidean_division_equations; lia).
    f_equal. Z.to_euclidean_division_equations; lia.
  - rewrite (proj2 (Z.ltb_ge (224 + _) 128)), (proj2 (Z.ltb_ge (224 + _) 224)),
      (proj2 (Z.ltb_lt (224 + _) 240)) by (Z.to_euclidean_division_equations; lia).
    f_equal. Z.to_euclidean_division_equations; lia.
  - rewrite (proj2 (Z.ltb_ge (240 + _) 128)), (proj2 (Z.ltb_ge (240 + _) 224)),
      (proj2 (Z.ltb_ge (240 + _) 240)) by (Z.to_euclidean_division_equations; lia).
    f_equal. Z.to_euclidean_division_equations; lia.
Qed.

Lemma chars_utf8_app cs s : Forall is_char cs -> chars (utf8 cs +:+ s) = cs ++ chars s.
Proof.
  induction 1 as [|c cs Hc _ IH]; [done|]. simpl.
  by rewrite str_app_assoc, chars_utf8_char, IH.
Qed.

(** Decoding undoes encoding. *)
Lemma chars_utf8 cs : Forall is_char cs -> chars (utf8 cs) = cs.
Proof.
  intros H. rewrite <-(str_app_nil (utf8 cs)), chars_utf8_app by done. by rewrite app_nil_r.
Qed.

Lemma is_str_chars s : is_str s -> Forall is_char (chars s) /\ utf8 (chars s) = s.
Proof. intros (cs & Hcs & ->). by rewrite chars_utf8. Qed.

Lemma is_str_check_sound s : is_str_check s = true -> is_str s.
Proof. intros [H1%bool_decide_eq_true H2%bool_decide_eq_true]%andb_true_iff. by exists (chars s). Qed.

Lemma utf8_char_nonempty c : utf8_char c <> EmptyString.
Proof. unfold utf8_char. by repeat case_match. Qed.

Lemma utf8_empty cs : utf8 cs = EmptyString <-> cs = [].
Proof.
  destruct cs as [|c cs]; [done|]. simpl. split; [|done].
  pose proof (utf8_char_nonempty c). by destruct (utf8_char c).
Qed.

Lemma split_chars_app p acc a b :
  Forall (fun c => p c = false) a ->
  split_chars p acc (a ++ b) = split_chars p (acc ++ a) b.
Proof.
  intros H. revert acc. induction H as [|c a Hc _ IH]; intros acc; [by rewrite app_nil_r|].
  simpl. rewrite Hc, IH. by rewrite <-app_assoc.
Qed.

(** No piece holds a separator, and pieces are made of the input's characters. *)
Lemma split_chars_clean p acc cs u :
  Forall (fun c => p c = false) acc ->
  u ∈ split_chars p acc cs -> Forall (fun c => p c = false) u.
Proof.
  revert acc. induction cs as [|c cs IH]; intros acc Ha; simpl.
  - intros ->%list_elem_of_singleton. done.
  - destruct (p c) eqn:E.
    + intros [->|Hu]%elem_of_cons; [done|]. apply (IH []); [constructor|done].
    + apply IH. apply Forall_app. split; [done|]. by constructor.
Qed.

Lemma split_chars_forall (Q : Z -> Prop) p acc cs u :
  Forall Q acc -> Forall Q cs -> u ∈ split_chars p acc cs -> Forall Q u.
Proof.
  intros Ha Hcs. revert acc Ha. induction Hcs as [|c cs Hc Hcs IH]; intros acc Ha; simpl.
  - intros ->%list_elem_of_singleton. done.
  - case_match.
    + intros [->|Hu]%elem_of_cons; [done|]. by apply (IH []).
    + apply IH. apply Forall_app. split; [done|]. by constructor.
Qed.

(** ** Joining units that hold no white space and splitting them again *)

Definition is_unit (u : list Z) : Prop :=
  u <> [] /\ Forall (fun c => is_whitespace c = false) u /\ Forall is_char u.

Lemma split_whitespace_units s :
  is_str s -> exists us, Forall is_unit us /\ split_whitespace s = utf8 <$> us.
Proof.
  intros [Hc _]%is_str_chars. eexists. split; [|done].
  apply Forall_forall. intros u [Hne Hu]%list_elem_of_filter. split_and!; [done| |].
  - apply (split_chars_clean _ [] (chars s)); [constructor|done].
  - apply (split_chars_forall _ is_whitespace [] (chars s)); [constructor|done..].
Qed.

Lemma split_pieces_join us :
  Forall is_unit us ->
  filter (fun u => u <> []) (split_chars is_whitespace [] (chars (join " " (utf8 <$> us)))) = us.
Proof.
  induction 1 as [|u us (Hne & Hclean & Hchar) Hus IH]; [done|].
  destruct us as [|v us].
  - csimpl. rewrite chars_utf8 by done. rewrite <-(app_nil_r u) at 1.
    rewrite split_chars_app by done. simpl. by rewrite filter_cons_True.
  - rewrite !fmap_cons in *. cbn [join]. rewrite chars_utf8_app by done.
    rewrite split_chars_app by done. rewrite app_nil_l.
    change (chars (" " +:+ ?s)) with (32 :: chars s). cbn [split_chars].
    change (is_whitespace 32) with true. cbv iota.
    rewrite filter_cons_True by done. f_equal. exact IH.
Qed.

Lemma split_whitespace_join us :
  Forall is_unit us -> split_whitespace (join " " (utf8 <$> us)) = utf8 <$> us.
Proof. intros. unfold split_whitespace. by rewrite split_pieces_join. Qed.

(** Cutting the first units off a string and splitting what is left. *)
Lemma split_whitespace_drop s k :
  is_str s -> split_whitespace (join " " (drop k (split_whitespace s))) = drop k (split_whitespace s).
Proof.
  intros (us & Hus & ->)%split_whitespace_units. rewrite <-fmap_drop.
  apply split_whitespace_join. by apply Forall_drop.
Qed.
