(* ===== verification/ShellTypes.v ===== *)
(** * fotw-shell: the clock, the prompt and the view types

    Models [crates/fotw-shell/src/clock.rs] (Module [Clock]),
    [crates/fotw-shell/src/prompt.rs] (Module [Prompt]) and
    [crates/fotw-shell/src/view.rs] (Module [View]): the plain data the shell's
    state machine is driven with and renders to.  Strings are Rust's UTF-8 byte
    strings; a [Level] holds an [f32]. *)

From S2P Require Import Prelude Float32.

Local Open Scope Z_scope.

Module Clock.

Record Monotonic := mkMonotonic { since_epoch : Duration }.

#[export] Instance Monotonic_eq_dec : EqDecision Monotonic.
Proof. solve_decision. Defined.

Definition ZERO : Monotonic := mkMonotonic 0.
Definition from_secs (secs : Z) : Monotonic := mkMonotonic (dur_from_secs secs).
Definition from_millis (millis : Z) : Monotonic := mkMonotonic (dur_from_millis millis).
Definition from_duration (d : Duration) : Monotonic := mkMonotonic d.
Definition as_duration (m : Monotonic) : Duration := since_epoch m.

Definition since (self earlier : Monotonic) : Duration :=
  dur_saturating_sub (since_epoch self) (since_epoch earlier).

Definition plus (self : Monotonic) (delta : Duration) : Monotonic :=
  mkMonotonic (dur_saturating_add (since_epoch self) delta).

(** [format!("{n}")] and [format!("{n:02}")] for an unsigned [n]. *)
Definition fmt_dec (n : Z) : string := pretty (Z.to_N n).
Definition fmt_02 (n : Z) : string :=
  let s := fmt_dec n in
  if (String.length s <? 2)%nat then ("0" +:+ s)%string else s.

Definition format_elapsed (elapsed : Duration) : string :=
  let total := dur_as_secs elapsed in
  let hours := total / 3600 in
  let minutes := (total mod 3600) / 60 in
  let seconds := total mod 60 in
  if hours =? 0 then (fmt_02 minutes +:+ ":" +:+ fmt_02 seconds)%string
  else (fmt_dec hours +:+ ":" +:+ fmt_02 minutes +:+ ":" +:+ fmt_02 seconds)%string.

End Clock.

Module Prompt.

Inductive StartOrigin := Menu | Hotkey | WebUi | DetectionPrompt | Cli.

#[export] Instance StartOrigin_eq_dec : EqDecision StartOrigin.
Proof. solve_decision. Defined.

Definition StartOrigin_ALL : list StartOrigin := [Menu; Hotkey; WebUi; DetectionPrompt; Cli].

Definition is_human (o : StartOrigin) : bool :=
  match o with Menu | Hotkey | WebUi | DetectionPrompt | Cli => true end.

Definition origin_label (o : StartOrigin) : string :=
  match o with
  | Menu => "menu"
  | Hotkey => "hotkey"
  | WebUi => "web-ui"
  | DetectionPrompt => "detection-prompt"
  | Cli => "cli"
  end.

Record DetectedMeeting := mkDetectedMeeting {
  app_key : string;
  app_name : string;
  evidence : string;
  title : option string;
  consent_notice : string;
  requires_acknowledgement : bool;
}.

#[export] Instance DetectedMeeting_eq_dec : EqDecision DetectedMeeting.
Proof. solve_decision. Defined.

Definition meeting_new (app_key app_name evidence : string) : DetectedMeeting :=
  mkDetectedMeeting app_key app_name evidence None "" false.

Definition with_title (m : DetectedMeeting) (t : string) : DetectedMeeting :=
  mkDetectedMeeting (app_key m) (app_name m) (evidence m) (Some t)
    (consent_notice m) (requires_acknowledgement m).

Definition with_consent_notice (m : DetectedMeeting) (notice : string) (blocking : bool)
    : DetectedMeeting :=
  mkDetectedMeeting (app_key m) (app_name m) (evidence m) (title m) notice blocking.

Definition headline (m : DetectedMeeting) : string :=
  match title m with
  | Some t => "Meeting detected — " +:+ t +:+ " (" +:+ app_name m +:+ "). Record?"
  | None => app_name m +:+ " meeting detected. Record?"
  end.

Inductive DetectionUpdate :=
| Armed (m : DetectedMeeting)
| Cleared.

Inductive PromptChoice :=
| ChooseStart (acknowledged : bool)
| NotNow
| NeverForThisApp.

End Prompt.

Module View.
Import Prompt.

Record Level := mkLevel { level_value : f32 }.

#[export] Instance Level_eq_dec : EqDecision Level.
Proof. solve_decision. Defined.

Definition SILENT : Level := mkLevel f32_zero.

Definition level_new (value : f32) : Level :=
  if f32_is_nan value then SILENT else mkLevel (f32_clamp value f32_zero f32_one).

Definition level_get (l : Level) : f32 := level_value l.

(** [usize::clamp]. *)
Definition usize_clamp (x lo hi : Z) : Z := if x <? lo then lo else if hi <? x then hi else x.

Definition bars (self : Level) (total : Z) : Z :=
  if (total =? 0) || f32_leb (level_value self) f32_zero then 0
  else usize_clamp (f32_ceil_as_usize (f32_mul (level_value self) (f32_of_Z total))) 1 total.

Definition meter (self : Level) (total : nat) : string :=
  let lit := bars self (Z.of_nat total) in
  foldr (fun i out => (if (Z.of_nat i <? lit)%Z then "▮" else "▯") +:+ out)%string
    ""%string (seq 0 total).

Inductive Tone := Preparing | Live | Finishing | Saved | Fault.

#[export] Instance Tone_eq_dec : EqDecision Tone.
Proof. solve_decision. Defined.

Record PillView := mkPillView {
  pill_elapsed : Duration;
  elapsed_label : string;
  status_label : string;
  pill_level : Level;
  level_available : bool;
  detail : string;
  tone : Tone;
  stop_enabled : bool;
}.

Definition pill_accessibility_label (p : PillView) : string :=
  let label := (status_label p +:+ " — " +:+ elapsed_label p)%string in
  if (String.length (detail p) =? 0)%nat then label
  else (label +:+ ". " +:+ detail p)%string.

Inductive TrayState := TrayPreparing | TrayIdle | TrayRecording | TrayFinishing | TrayFault.

Record TrayView := mkTrayView {
  tray_state : TrayState;
  tray_title : option string;
  tooltip : string;
}.

Record MenuButton := mkMenuButton { label : string; enabled : bool }.

Record MenuModel := mkMenuModel {
  status : string;
  record_button : MenuButton;
  notes : MenuButton;
  disclosure : MenuButton;
  settings : MenuButton;
  about : MenuButton;
  quit : MenuButton;
}.

Definition menu_build (record : MenuButton) (status : string) : MenuModel :=
  mkMenuModel status record
    (mkMenuButton "Open Notes" true)
    (mkMenuButton "Disclosure Kit…" true)
    (mkMenuButton "Settings…" true)
    (mkMenuButton "About FlyOnTheWall" true)
    (mkMenuButton "Quit FlyOnTheWall" true).

Inductive MenuAction := ToggleRecording | OpenNotesRow | DisclosureKitRow | SettingsRow
  | AboutRow | QuitRow.

#[export] Instance MenuAction_eq_dec : EqDecision MenuAction.
Proof. solve_decision. Defined.

Definition button (m : MenuModel) (a : MenuAction) : MenuButton :=
  match a with
  | ToggleRecording => record_button m
  | OpenNotesRow => notes m
  | DisclosureKitRow => disclosure m
  | SettingsRow => settings m
  | AboutRow => about m
  | QuitRow => quit m
  end.

Definition MenuAction_ALL : list MenuAction :=
  [ToggleRecording; OpenNotesRow; DisclosureKitRow; SettingsRow; AboutRow; QuitRow].

Definition action_id (a : MenuAction) : string :=
  match a with
  | ToggleRecording => "fotw.record"
  | OpenNotesRow => "fotw.notes"
  | DisclosureKitRow => "fotw.disclosure"
  | SettingsRow => "fotw.settings"
  | AboutRow => "fotw.about"
  | QuitRow => "fotw.quit"
  end.

Definition action_from_id (id : string) : option MenuAction :=
  List.find (fun a => String.eqb (action_id a) id) MenuAction_ALL.

Record PromptView := mkPromptView {
  pv_app_key : string;
  pv_headline : string;
  pv_evidence : string;
  pv_consent_notice : string;
  pv_requires_acknowledgement : bool;
  pv_acknowledged : bool;
  start_enabled : bool;
  start_label : string;
  not_now_label : string;
  never_label : string;
  acknowledge_label : string;
}.

Definition prompt_accessibility_label (p : PromptView) : string :=
  let out := (pv_headline p +:+ " " +:+ pv_evidence p)%string in
  if (String.length (pv_consent_notice p) =? 0)%nat then out
  else (out +:+ " " +:+ pv_consent_notice p)%string.

Record ShellView := mkShellView {
  pill_of : option PillView;
  tray_of : TrayView;
  menu_of : MenuModel;
  prompt_of : option PromptView;
}.

(** The meter never shows more than [total] segments, an audible level lights
    at least one of them, and a silent one lights none. *)
Lemma bars_range (l : Level) total :
  0 < total ->
  (f32_leb (level_value l) f32_zero = true -> bars l total = 0) /\
  (f32_leb (level_value l) f32_zero = false -> 1 <= bars l total <= total).
Proof.
  intros Ht. unfold bars, usize_clamp.
  rewrite (proj2 (Z.eqb_neq total 0)) by lia. simpl.
  split; intros ->; [done|]. repeat case_match; lia.
Qed.

Lemma action_roundtrip (a : MenuAction) : action_from_id (action_id a) = Some a.
Proof. by destruct a. Qed.

End View.
