(* ===== verification/Shell.v ===== *)
(** * fotw-shell: the state machine

    Models [crates/fotw-shell/src/state.rs].  [ShellCore] is the source's
    struct; [handle], [answer_prompt], [withdraw_prompt], [on_menu], [toggle],
    [next_phase], [transition] and the rendering functions translate the
    methods of the same names, a method on [&mut self] being a function to the
    next core and the effects it returns.  [call] collects the three public
    entry points, so that a run of the shell is a list of calls.

    The theorems state the consent contract: the recording indicator is up
    exactly when it must be (CON-02), only a human action starts a capture and
    the audit record precedes it (CON-01), a blocking notice blocks (CON-05),
    and the effects keep the host's capture and ticker in step with the core. *)

From S2P Require Import Prelude Float32 ShellTypes.
Import Clock Prompt View.

Local Open Scope Z_scope.

Definition FINISHED_LINGER : Duration := dur_from_secs 4.
Definition METER_SEGMENTS : Z := 6.

Inductive Phase :=
| Idle
| Recording (started : Monotonic) (elapsed : Duration)
| PhaseFinishing (elapsed : Duration)
| Finished (elapsed : Duration) (at_ : Monotonic)
| Faulted (elapsed : Duration) (reason : string).

#[export] Instance Phase_eq_dec : EqDecision Phase.
Proof. solve_decision. Defined.

Definition is_idle (p : Phase) : bool := match p with Idle => true | _ => false end.
Definition is_recording (p : Phase) : bool :=
  match p with Recording _ _ => true | _ => false end.
Definition phase_elapsed (p : Phase) : Duration :=
  match p with
  | Idle => 0
  | Recording _ elapsed | PhaseFinishing elapsed | Finished elapsed _ | Faulted elapsed _ => elapsed
  end.

Inductive ShellInput :=
| Start (at_ : Monotonic) (origin : StartOrigin)
| Tick (now : Monotonic)
| LevelInput (level : Level)
| StopRequested
| StopCompleted (at_ : Monotonic)
| CaptureFailed (reason : string)
| Dismiss
| MeetingDetected (at_ : Monotonic) (meeting : DetectedMeeting)
| DetectionCleared
| PromptResponse (at_ : Monotonic) (choice : PromptChoice)
| PromptAcknowledged (acknowledged : bool).

Inductive ShellEffect :=
| AuditStart (origin : StartOrigin)
| StartCapture
| StopCapture
| StartTicking
| StopTicking
| OpenNotes
| OpenDisclosureKit
| OpenSettings
| OpenAbout
| Quit
| SnoozeDetection
| SuppressApp (app : string).

#[export] Instance ShellEffect_eq_dec : EqDecision ShellEffect.
Proof. solve_decision. Defined.

Record ShellCore := mkShellCore {
  phase : Phase;
  level : Level;
  prompt : option DetectedMeeting;
  acknowledged : bool;
  capture : bool;
  ticking : bool;
}.

Definition new : ShellCore := mkShellCore Idle SILENT None false false false.

Definition capture_is_live (self : ShellCore) : bool := capture self.
Definition is_ticking (self : ShellCore) : bool := ticking self.
Definition armed (self : ShellCore) : option DetectedMeeting := prompt self.

Definition withdraw_prompt (self : ShellCore) : ShellCore :=
  mkShellCore (phase self) (level self) None false (capture self) (ticking self).

Definition next_phase (self : ShellCore) (input : ShellInput) : Phase :=
  match phase self, input with
  | (Idle | Finished _ _ | Faulted _ _), Start at_ _ => Recording at_ 0
  | Recording started elapsed, Tick now =>
      Recording started (Z.max elapsed (since now started))
  | Finished elapsed at_, Tick now =>
      if FINISHED_LINGER <=? since now at_ then Idle else Finished elapsed at_
  | Recording _ elapsed, StopRequested => PhaseFinishing elapsed
  | (Recording _ elapsed | PhaseFinishing elapsed), StopCompleted at_ => Finished elapsed at_
  | (Recording _ elapsed | PhaseFinishing elapsed), CaptureFailed reason => Faulted elapsed reason
  | (Finished _ _ | Faulted _ _), Dismiss => Idle
  | phase, _ => phase
  end.

Definition transition (self : ShellCore) (next : Phase) (origin : option StartOrigin)
    : ShellCore * list ShellEffect :=
  let pa := if is_idle next then (prompt self, acknowledged self) else (None, false) in
  let want_capture := is_recording next in
  let '(capture', capture_effects) :=
    if want_capture && negb (capture self) then
      (true, match origin with Some o => [AuditStart o] | None => [] end ++ [StartCapture])
    else if negb want_capture && capture self then
      (false, match next with Finished _ _ => [] | _ => [StopCapture] end)
    else (capture self, []) in
  let want_tick := negb (is_idle next) in
  let '(ticking', tick_effects) :=
    if Bool.eqb want_tick (ticking self) then (ticking self, [])
    else (want_tick, [if want_tick then StartTicking else StopTicking]) in
  let level' := if is_recording next then level self else SILENT in
  (mkShellCore next level' pa.1 pa.2 capture' ticking', capture_effects ++ tick_effects).

Definition answer_prompt (self : ShellCore) (choice : PromptChoice) (at_ : Monotonic)
    : ShellCore * list ShellEffect :=
  match prompt self with
  | None => (self, [])
  | Some meeting =>
      match choice with
      | ChooseStart ack =>
          if requires_acknowledgement meeting && negb (ack || acknowledged self) then (self, [])
          else
            let self := withdraw_prompt self in
            let origin := DetectionPrompt in
            transition self (next_phase self (Start at_ origin)) (Some origin)
      | NotNow => (withdraw_prompt self, [SnoozeDetection])
      | NeverForThisApp => (withdraw_prompt self, [SuppressApp (app_key meeting)])
      end
  end.

(** A [Start] that a blocking, unacknowledged warning must hold back. *)
Definition start_blocked (self : ShellCore) (input : ShellInput) : bool :=
  match input with
  | Start _ _ => is_some_and (prompt self) requires_acknowledgement && negb (acknowledged self)
  | _ => false
  end.

Definition input_origin (input : ShellInput) : option StartOrigin :=
  match input with Start _ origin => Some origin | _ => None end.

Definition handle (self : ShellCore) (input : ShellInput) : ShellCore * list ShellEffect :=
  match input with
  | LevelInput l =>
      (if is_recording (phase self) then
         mkShellCore (phase self) l (prompt self) (acknowledged self) (capture self) (ticking self)
       else self, [])
  | MeetingDetected _ meeting =>
      (if is_idle (phase self) then
         mkShellCore (phase self) (level self) (Some meeting)
           (if bool_decide (prompt self = Some meeting) then acknowledged self else false)
           (capture self) (ticking self)
       else self, [])
  | DetectionCleared => (withdraw_prompt self, [])
  | PromptResponse at_ choice => answer_prompt self choice at_
  | PromptAcknowledged a =>
      (if is_some (prompt self) then
         mkShellCore (phase self) (level self) (prompt self) a (capture self) (ticking self)
       else self, [])
  | _ =>
      if start_blocked self input then (self, [])
      else transition self (next_phase self input) (input_origin input)
  end.

Definition toggle (self : ShellCore) (now : Monotonic) (origin : StartOrigin)
    : ShellCore * list ShellEffect :=
  match phase self with
  | Idle | Finished _ _ | Faulted _ _ => handle self (Start now origin)
  | Recording _ _ => handle self StopRequested
  | PhaseFinishing _ => (self, [])
  end.

(** ** Rendering *)

Definition pill (self : ShellCore) : option PillView :=
  let render status tone stop :=
    Some (mkPillView (phase_elapsed (phase self)) (format_elapsed (phase_elapsed (phase self)))
            status (level self) true "" tone stop) in
  match phase self with
  | Idle => None
  | Recording _ _ => render "Recording"%string Live true
  | PhaseFinishing _ => render "Finishing"%string Finishing false
  | Finished _ _ => render "Saved"%string Saved false
  | Faulted _ _ => render "Recording failed"%string Fault false
  end.

Definition prompt_view (self : ShellCore) : option PromptView :=
  match prompt self with
  | None => None
  | Some meeting =>
      Some (mkPromptView (app_key meeting) (headline meeting) (evidence meeting)
              (consent_notice meeting) (requires_acknowledgement meeting) (acknowledged self)
              (negb (requires_acknowledgement meeting) || acknowledged self)
              "Start recording" "Not now" "Never for this app"
              "Everyone on this call has agreed to be recorded")
  end.

Definition tray (self : ShellCore) : TrayView :=
  let lbl := format_elapsed (phase_elapsed (phase self)) in
  let state :=
    match phase self with
    | Idle | Finished _ _ => TrayIdle
    | Recording _ _ => TrayRecording
    | PhaseFinishing _ => TrayFinishing
    | Faulted _ _ => TrayFault
    end in
  let '(title, tooltip) :=
    match phase self with
    | Idle => (None, "FlyOnTheWall — not recording")
    | Recording _ _ => (Some lbl, "FlyOnTheWall — recording " +:+ lbl)
    | PhaseFinishing _ => (Some lbl, "FlyOnTheWall — saving " +:+ lbl)
    | Finished _ _ => (None, "FlyOnTheWall — saved " +:+ lbl)
    | Faulted _ reason => (None, "FlyOnTheWall — recording failed: " +:+ reason)
    end%string in
  mkTrayView state title tooltip.

Definition menu (self : ShellCore) : MenuModel :=
  let lbl := format_elapsed (phase_elapsed (phase self)) in
  let '(record_label, record_enabled, status) :=
    match phase self with
    | Idle => ("Start Recording", true, "Not recording")
    | Recording _ _ => ("Stop Recording", true, "Recording — " +:+ lbl)
    | PhaseFinishing _ => ("Stop Recording", false, "Saving — " +:+ lbl)
    | Finished _ _ => ("Start Recording", true, "Saved — " +:+ lbl)
    | Faulted _ reason => ("Start Recording", true, "Recording failed: " +:+ reason)
    end%string in
  menu_build (mkMenuButton record_label record_enabled) status.

Definition view (self : ShellCore) : ShellView :=
  mkShellView (pill self) (tray self) (menu self) (prompt_view self).

Definition on_menu (self : ShellCore) (action : MenuAction) (now : Monotonic)
    : ShellCore * list ShellEffect :=
  if negb (enabled (button (menu_of (view self)) action)) then (self, [])
  else
    match action with
    | ToggleRecording => toggle self now Menu
    | OpenNotesRow => (self, [OpenNotes])
    | DisclosureKitRow => (self, [OpenDisclosureKit])
    | SettingsRow => (self, [OpenSettings])
    | AboutRow => (self, [OpenAbout])
    | QuitRow => (self, [Quit])
    end.

(** ** Runs of the shell *)

Inductive ShellCall :=
| CallHandle (input : ShellInput)
| CallMenu (action : MenuAction) (now : Monotonic)
| CallToggle (now : Monotonic) (origin : StartOrigin).

Definition call (self : ShellCore) (c : ShellCall) : ShellCore * list ShellEffect :=
  match c with
  | CallHandle input => handle self input
  | CallMenu action now => on_menu self action now
  | CallToggle now origin => toggle self now origin
  end.

(** ** The invariant *)

(** Capture is live exactly in [Recording], ticks are delivered exactly outside
    [Idle], a prompt is only up while idle, an acknowledgement only exists with
    a prompt, and the meter is silent outside [Recording]. *)
Definition shell_inv (c : ShellCore) : Prop :=
  capture c = is_recording (phase c) /\
  ticking c = negb (is_idle (phase c)) /\
  (is_idle (phase c) = false -> prompt c = None) /\
  (prompt c = None -> acknowledged c = false) /\
  (is_recording (phase c) = false -> level c = SILENT).

Ltac inv_solve :=
  unfold shell_inv in *; simpl in *; destruct_and?;
  repeat split; intros; simplify_eq/=; auto;
  repeat match goal with H : ?P -> _, HP : ?P |- _ => specialize (H HP) end;
  try congruence.

Lemma transition_inv c next o :
  shell_inv c -> shell_inv (transition c next o).1.
Proof.
  destruct c as [ph lv pr ak cp tk]. unfold shell_inv, transition. simpl.
  intros (-> & -> & Hp & Ha & Hl).
  destruct next, ph; inv_solve.
Qed.

Lemma withdraw_inv c : shell_inv c -> shell_inv (withdraw_prompt c).
Proof. intros H. inv_solve. Qed.

#[export] Hint Resolve transition_inv withdraw_inv : fotw.

Lemma answer_inv c choice t : shell_inv c -> shell_inv (answer_prompt c choice t).1.
Proof.
  intros H. unfold answer_prompt. repeat case_match; simpl; auto with fotw.
Qed.

Lemma handle_inv c i : shell_inv c -> shell_inv (handle c i).1.
Proof.
  intros H. destruct i; simpl; auto using answer_inv with fotw.
  - destruct (_ && _); simpl; auto with fotw.
  - destruct (is_recording (phase c)) eqn:?; [inv_solve | done].
  - destruct (is_idle (phase c)) eqn:?; [inv_solve | done].
  - destruct (prompt c) eqn:?; [inv_solve | done].
Qed.

Lemma toggle_inv c t o : shell_inv c -> shell_inv (toggle c t o).1.
Proof. intros H. unfold toggle. case_match; auto using handle_inv. Qed.

Lemma call_inv c k : shell_inv c -> shell_inv (call c k).1.
Proof.
  intros H. destruct k; simpl; [by apply handle_inv | | by apply toggle_inv].
  unfold on_menu. repeat case_match; simpl; auto using toggle_inv.
Qed.

Lemma reachable_shell_inv c : reachable call new c -> shell_inv c.
Proof.
  apply reachable_invariant; [|auto using call_inv].
  inv_solve.
Qed.

(** ** What a call can emit *)

(** The human action a call carries, if it is one that asks for a recording. *)
Definition call_origin (k : ShellCall) : option StartOrigin :=
  match k with
  | CallHandle (Start _ o) => Some o
  | CallHandle (PromptResponse _ (ChooseStart _)) => Some DetectionPrompt
  | CallMenu ToggleRecording _ => Some Menu
  | CallToggle _ o => Some o
  | _ => None
  end.

(** Whether a call may start a capture from this core: the only consent check
    there is, stated without reference to the transition functions. *)
Definition may_start (c : ShellCore) (k : ShellCall) : bool :=
  let acked :=
    match prompt c with
    | Some m => negb (requires_acknowledgement m) || acknowledged c
                || (match k with
                    | CallHandle (PromptResponse _ (ChooseStart a)) => a
                    | _ => false
                    end)
    | None => match k with CallHandle (PromptResponse _ _) => false | _ => true end
    end in
  let fresh := match phase c with Idle | Finished _ _ | Faulted _ _ => true | _ => false end in
  is_some (call_origin k) && fresh && acked.

(** Effects that neither begin a capture nor claim one in the audit log. *)
Definition no_start (es : list ShellEffect) : bool :=
  forallb (fun e => match e with AuditStart _ | StartCapture => false | _ => true end) es.

Definition fresh_phase (p : Phase) : bool :=
  match p with Idle | Finished _ _ | Faulted _ _ => true | _ => false end.

Lemma transition_starts c t o o' :
  shell_inv c -> fresh_phase (phase c) = true ->
  transition c (next_phase c (Start t o')) (Some o) =
  (mkShellCore (Recording t 0) (level c) None false true true,
   AuditStart o :: StartCapture :: (if ticking c then [] else [StartTicking])).
Proof.
  intros (Hc & Ht & _) Hf. unfold transition, next_phase. rewrite Hc, Ht.
  by destruct (phase c).
Qed.

Lemma transition_quiet c i o :
  shell_inv c ->
  match i with Start _ _ => fresh_phase (phase c) | _ => false end = false ->
  no_start (transition c (next_phase c i) o).2 = true.
Proof.
  intros (Hc & Ht & _) Hi. unfold transition, next_phase. rewrite Hc, Ht.
  destruct (phase c), i; try done. by destruct (FINISHED_LINGER <=? _).
Qed.

Lemma handle_start c t o :
  shell_inv c ->
  if fresh_phase (phase c) && negb (start_blocked c (Start t o)) then
    handle c (Start t o) =
    (mkShellCore (Recording t 0) (level c) None false true true,
     AuditStart o :: StartCapture :: (if ticking c then [] else [StartTicking]))
  else no_start (handle c (Start t o)).2 = true.
Proof.
  intros H. unfold handle.
  destruct (start_blocked c (Start t o)); [by rewrite andb_false_r|].
  destruct (fresh_phase (phase c)) eqn:Hf.
  - by apply transition_starts.
  - by apply transition_quiet.
Qed.

Lemma toggle_starts c t o :
  shell_inv c ->
  if fresh_phase (phase c) && negb (start_blocked c (Start t o)) then
    toggle c t o =
    (mkShellCore (Recording t 0) (level c) None false true true,
     AuditStart o :: StartCapture :: (if ticking c then [] else [StartTicking]))
  else no_start (toggle c t o).2 = true.
Proof.
  intros H. pose proof (handle_start c t o H) as Hs. unfold toggle.
  destruct (phase c) eqn:Hp; simpl in *; try done.
  apply transition_quiet; done.
Qed.

(** Every row of the menu is live except Stop while a stop is in flight. *)
Lemma row_enabled c a :
  enabled (button (menu_of (view c)) a) =
  match a, phase c with ToggleRecording, PhaseFinishing _ => false | _, _ => true end.
Proof. unfold view, menu. simpl. by destruct (phase c), a. Qed.

(** A call starts a capture exactly when [may_start] allows it, and then its
    effects are the audit record, the start and at most a ticker start. *)
Lemma call_starts c k :
  shell_inv c ->
  match call_origin k, may_start c k with
  | Some o, true =>
      (call c k).2 = AuditStart o :: StartCapture :: (if ticking c then [] else [StartTicking])
      /\ is_recording (phase (call c k).1) = true
  | _, _ => no_start (call c k).2 = true
  end.
Proof.
  intros H. destruct k as [i|a now|now o].
  - destruct i as [t o| | | | | | | | |t [ack| |]|]; try (simpl; apply transition_quiet; done);
      try done; simpl.
    + pose proof (handle_start c t o H) as Hs. unfold may_start. simpl in *.
      destruct (phase c), (prompt c) as [m|]; simpl in *;
        try destruct (requires_acknowledgement m), (acknowledged c); simpl in *; by rewrite ?Hs.
    + unfold answer_prompt, may_start. simpl. fold (fresh_phase (phase c)).
      pose proof (withdraw_inv c H) as Hw.
      destruct (prompt c) as [m|]; [|by rewrite andb_false_r].
      rewrite <-orb_assoc, (orb_comm (acknowledged c) ack).
      destruct (requires_acknowledgement m), (ack || acknowledged c); simpl;
        rewrite ?andb_false_r, ?andb_true_r; try done;
        (destruct (fresh_phase (phase c)) eqn:Hf;
         [by rewrite (transition_starts (withdraw_prompt c) t DetectionPrompt DetectionPrompt)
         | by apply transition_quiet]).
    + unfold answer_prompt. by case_match.
    + unfold answer_prompt. by case_match.
  - pose proof (toggle_starts c now Menu H) as Hs.
    unfold call, on_menu, may_start. rewrite row_enabled. destruct a; try done. simpl in *.
    destruct (phase c), (prompt c) as [m|]; simpl in *;
      try destruct (requires_acknowledgement m), (acknowledged c); simpl in *; by rewrite ?Hs.
  - pose proof (toggle_starts c now o H) as Hs. unfold may_start. simpl in *.
    destruct (phase c), (prompt c) as [m|]; simpl in *;
      try destruct (requires_acknowledgement m), (acknowledged c); simpl in *; by rewrite ?Hs.
Qed.

Lemma no_start_spec es :
  no_start es = true -> (StartCapture ∉ es) /\ (forall o, AuditStart o ∉ es).
Proof.
  unfold no_start. induction es as [|e es IH]; simpl; [set_solver|].
  destruct e; try done; intros H; destruct (IH H); set_solver.
Qed.

Lemma starts_iff c k :
  shell_inv c -> (StartCapture ∈ (call c k).2 <-> may_start c k = true).
Proof.
  intros H. pose proof (call_starts c k H) as Hs.
  assert (Hm : call_origin k = None -> may_start c k = false).
  { intros Hk. unfold may_start. by rewrite Hk. }
  destruct (call_origin k) as [o|], (may_start c k) eqn:E.
  3: by discriminate (Hm eq_refl).
  2, 3: by destruct (no_start_spec _ Hs).
  destruct Hs as [-> _]. split; [done|]. intros _. right. left.
Qed.

(** ** A tick belongs to the meeting it was given for

    The core instrumented with a ghost: the meeting on screen when the user
    last ticked the acknowledgement, or [None] once it was cleared. *)
Definition tick_ghost (c : ShellCore) (g : option DetectedMeeting) (k : ShellCall)
    : option DetectedMeeting :=
  match k with
  | CallHandle (PromptAcknowledged a) =>
      if is_some (prompt c) then (if a then prompt c else None) else g
  | _ => g
  end.

Definition ghost_call (s : ShellCore * option DetectedMeeting) (k : ShellCall)
    : (ShellCore * option DetectedMeeting) * list ShellEffect :=
  (((call s.1 k).1, tick_ghost s.1 s.2 k), (call s.1 k).2).

Definition ghost_inv (s : ShellCore * option DetectedMeeting) : Prop :=
  shell_inv s.1 /\ (acknowledged s.1 = true -> is_some (prompt s.1) = true /\ s.2 = prompt s.1).

(** A transition keeps the prompt and its acknowledgement, or drops both. *)
Definition keeps_or_drops (c c' : ShellCore) : Prop :=
  acknowledged c' = false \/ (acknowledged c' = acknowledged c /\ prompt c' = prompt c).

Lemma transition_keeps_or_drops c next o : keeps_or_drops c (transition c next o).1.
Proof.
  unfold keeps_or_drops, transition. destruct (is_idle next); simpl; repeat case_match; naive_solver.
Qed.

Lemma handle_start_keeps_or_drops c t o : keeps_or_drops c (handle c (Start t o)).1.
Proof.
  unfold handle. case_match; [right; done | apply transition_keeps_or_drops].
Qed.

Lemma toggle_keeps_or_drops c t o : keeps_or_drops c (toggle c t o).1.
Proof.
  unfold toggle. case_match; try apply handle_start_keeps_or_drops;
    [apply transition_keeps_or_drops | by right].
Qed.

Lemma call_keeps_or_drops c k :
  keeps_or_drops c (call c k).1 \/
  exists a, k = CallHandle (PromptAcknowledged a) /\ is_some (prompt c) = true
            /\ acknowledged (call c k).1 = a /\ prompt (call c k).1 = prompt c.
Proof.
  destruct k as [i|a now|now o]; simpl.
  - destruct i; try (left; apply transition_keeps_or_drops);
      try (left; apply handle_start_keeps_or_drops); simpl.
    + left. right. by case_match.
    + left. case_match; [|by right]. unfold keeps_or_drops. simpl.
      case_bool_decide; naive_solver.
    + left. by left.
    + left. unfold answer_prompt. repeat case_match; try (by right); try (by left); simplify_eq/=.
      destruct (transition_keeps_or_drops (withdraw_prompt c)
        (next_phase (withdraw_prompt c) (Start at_ DetectionPrompt)) (Some DetectionPrompt))
        as [Ha|[Ha _]]; left; by rewrite Ha.
    + destruct (is_some (prompt c)) eqn:E; [right; eauto | left; by right].
  - left. unfold on_menu. repeat case_match; try (by right). apply toggle_keeps_or_drops.
  - left. apply toggle_keeps_or_drops.
Qed.

Lemma ghost_call_inv s k : ghost_inv s -> ghost_inv (ghost_call s k).1.
Proof.
  destruct s as [c g]. intros [Hi Hg]. split; simpl in *; [by apply call_inv|].
  intros Ha. destruct (call_keeps_or_drops c k) as [[Hf|[Hf Hp]]|(a & -> & Hs & Hf & Hp)].
  - congruence.
  - rewrite Hp. rewrite Hf in Ha. destruct (Hg Ha) as [Hs ->]. split; [done|].
    unfold tick_ghost. destruct k as [[]| |]; try done.
    rewrite Hs. simpl in *. rewrite Hs in Hf. simpl in Hf. by rewrite Hf, Ha.
  - simpl in *. rewrite Hs in *. simpl in *. by subst.
Qed.

Lemma ghost_reachable_inv s : reachable ghost_call (new, None) s -> ghost_inv s.
Proof.
  apply reachable_invariant; [|auto using ghost_call_inv].
  split; [|done]. inv_solve.
Qed.

(** ** Phases only move along [next_phase] *)

Lemma transition_phase c n o : phase (transition c n o).1 = n.
Proof. unfold transition. by repeat case_match. Qed.

Lemma next_phase_noop c : next_phase c DetectionCleared = phase c.
Proof. unfold next_phase. by destruct (phase c). Qed.

Lemma next_phase_withdraw c i : next_phase (withdraw_prompt c) i = next_phase c i.
Proof. done. Qed.

Lemma same_phase c c' : phase c' = phase c -> exists i, phase c' = next_phase c i.
Proof. intros ->. exists DetectionCleared. by rewrite next_phase_noop. Qed.

#[export] Hint Resolve same_phase : fotw.

Lemma handle_phase c i : exists j, phase (handle c i).1 = next_phase c j.
Proof.
  unfold handle, answer_prompt.
  destruct i; repeat case_match; rewrite ?transition_phase, ?next_phase_withdraw;
    eauto; apply same_phase; done.
Qed.

Lemma toggle_phase c t o : exists j, phase (toggle c t o).1 = next_phase c j.
Proof. unfold toggle. case_match; try apply handle_phase. by apply same_phase. Qed.

Lemma call_phase c k : exists j, phase (call c k).1 = next_phase c j.
Proof.
  destruct k; simpl; [apply handle_phase | | apply toggle_phase].
  unfold on_menu. repeat case_match; try apply toggle_phase; by apply same_phase.
Qed.

(** ** The host, as the effects drive it

    What the effects promise the host: one capture and one ticker, each edge
    commanded exactly once, an audit entry written before each start.  A
    protocol violation is [None]. *)
Record Host := mkHost {
  host_capturing : bool;
  host_ticking : bool;
  host_audit : list StartOrigin;
  host_starts : nat;
}.

Definition host_new : Host := mkHost false false [] 0.

Definition host_effect (h : Host) (e : ShellEffect) : option Host :=
  let '(mkHost cap tick audit starts) := h in
  match e with
  | AuditStart o => if cap then None else Some (mkHost cap tick (o :: audit) starts)
  | StartCapture =>
      if cap || negb (length audit =? S starts)%nat then None
      else Some (mkHost true tick audit (S starts))
  | StopCapture => if cap then Some (mkHost false tick audit starts) else None
  | StartTicking => if tick then None else Some (mkHost cap true audit starts)
  | StopTicking => if tick then Some (mkHost cap false audit starts) else None
  | _ => Some h
  end.

Fixpoint host_effects (h : Host) (es : list ShellEffect) : option Host :=
  match es with
  | [] => Some h
  | e :: es => h' ← host_effect h e; host_effects h' es
  end.

(** Reporting that the session is written and closed is the host saying its
    capture is over. *)
Definition host_reports (h : Host) (k : ShellCall) : Host :=
  match k with
  | CallHandle (StopCompleted _) =>
      mkHost false (host_ticking h) (host_audit h) (host_starts h)
  | _ => h
  end.

Fixpoint host_run (c : ShellCore) (h : Host) (ks : list ShellCall) : option (ShellCore * Host) :=
  match ks with
  | [] => Some (c, h)
  | k :: ks =>
      let '(c', es) := call c k in
      h' ← host_effects (host_reports h k) es; host_run c' h' ks
  end.

(** The host agrees with the core. *)
Definition in_step (c : ShellCore) (h : Host) : Prop :=
  host_capturing h = capture c /\ host_ticking h = ticking c /\
  length (host_audit h) = host_starts h.

Lemma transition_in_step c h i o :
  shell_inv c -> in_step c h ->
  (is_some (input_origin i) = true -> is_some o = true) ->
  exists h', host_effects (host_reports h (CallHandle i)) (transition c (next_phase c i) o).2
             = Some h' /\ in_step (transition c (next_phase c i) o).1 h'.
Proof.
  intros (Hc & Ht & _) (H1 & H2 & H3) Ho. destruct h as [cap tick audit starts]. simpl in *.
  unfold in_step, transition, next_phase. rewrite Hc, Ht. subst.
  destruct (phase c), i; simpl in *; rewrite ?Hc, ?Ht; simpl; eauto;
    try (destruct o as [o|]; [|by specialize (Ho eq_refl)]; simpl; rewrite Nat.eqb_refl; simpl; eauto).
  destruct (FINISHED_LINGER <=? _); simpl; eauto.
Qed.

Definition steps_with (c : ShellCore) (h : Host) (k : ShellCall)
    (r : ShellCore * list ShellEffect) : Prop :=
  exists h', host_effects (host_reports h k) r.2 = Some h' /\ in_step r.1 h'.

Lemma handle_start_in_step c h t o :
  shell_inv c -> in_step c h ->
  exists h', host_effects h (handle c (Start t o)).2 = Some h' /\ in_step (handle c (Start t o)).1 h'.
Proof.
  intros Hi Hh. unfold handle. case_match; [by eauto|].
  by apply (transition_in_step c h (Start t o)).
Qed.

Lemma toggle_in_step c h t o :
  shell_inv c -> in_step c h ->
  exists h', host_effects h (toggle c t o).2 = Some h' /\ in_step (toggle c t o).1 h'.
Proof.
  intros Hi Hh. unfold toggle. case_match; try by apply handle_start_in_step.
  - by apply (transition_in_step c h StopRequested).
  - eauto.
Qed.

Lemma call_in_step c h k : shell_inv c -> in_step c h -> steps_with c h k (call c k).
Proof.
  intros Hi Hh. unfold steps_with. destruct k as [i|a now|now o]; simpl.
  - destruct i; try (by apply handle_start_in_step);
      try (match goal with |- context [handle c ?i] => by apply (transition_in_step c h i) end).
    + simpl. case_match; eauto.
    + simpl. case_match; eauto.
    + simpl. eauto.
    + simpl. unfold answer_prompt. destruct (prompt c) as [m|]; [|by eauto].
      destruct choice as [ack| |]; simpl; [|by destruct h; eauto..].
      case_match; [by eauto|].
      by apply (transition_in_step (withdraw_prompt c) h (Start at_ DetectionPrompt));
        [apply withdraw_inv|..].
    + simpl. case_match; eauto.
  - unfold on_menu. repeat case_match; simpl; destruct h; eauto using toggle_in_step.
  - by apply toggle_in_step.
Qed.

(** ** Properties *)

(** C1: CON-02, the recording indicator.  In every state the shell can reach,
    the pill is up with the live tone and a working Stop button exactly while
    capture is live, it is absent exactly when the shell is idle, ticks are
    delivered exactly while it is up, and a detection prompt is never shown
    together with it. *)
Theorem indicator_tracks_capture (c : ShellCore) :
  reachable call new c ->
  (capture_is_live c = true <->
     exists p, pill_of (view c) = Some p /\ tone p = Live /\ stop_enabled p = true) /\
  (pill_of (view c) = None <-> phase c = Idle) /\
  is_ticking c = is_some (pill_of (view c)) /\
  (is_some (pill_of (view c)) = true -> prompt_of (view c) = None).
Proof.
  intros (Hc & Ht & Hp & _)%reachable_shell_inv.
  unfold capture_is_live, is_ticking, view, pill, prompt_view. simpl. rewrite Hc, Ht.
  destruct (phase c); simpl in *; try rewrite Hp by done; naive_solver.
Qed.

Lemma indicator_tracks_capture_witness :
  capture_is_live (run call new [CallToggle ZERO Hotkey]).1 = true /\
  exists p, pill_of (view (run call new [CallToggle ZERO Hotkey]).1) = Some p /\
            tone p = Live /\ stop_enabled p = true.
Proof.
  split; [reflexivity|].
  apply (indicator_tracks_capture (run call new [CallToggle ZERO Hotkey]).1);
    [apply run_reachable | reflexivity].
Defined.

(** C2: CON-01, only a person starts a recording.  A call on a reachable core
    commands a capture only if the call is itself a human request (the menu
    row, a toggle with its origin, a Start, or Start on the prompt); the audit
    record naming exactly that origin is emitted immediately before the start,
    in the same batch, and nothing after it starts or audits again. *)
Theorem only_humans_start (c : ShellCore) (k : ShellCall) :
  reachable call new c ->
  StartCapture ∈ (call c k).2 ->
  exists o rest, call_origin k = Some o /\
    (call c k).2 = AuditStart o :: StartCapture :: rest /\ no_start rest = true.
Proof.
  intros H%reachable_shell_inv Hk. pose proof (call_starts c k H) as Hs.
  apply (starts_iff c k H) in Hk. rewrite Hk in Hs.
  destruct (call_origin k) as [o|] eqn:Ho.
  - destruct Hs as [-> _]. do 2 eexists. split; [done|]. split; [done|]. by case_match.
  - unfold may_start in Hk. by rewrite Ho in Hk.
Qed.

Lemma only_humans_start_witness :
  StartCapture ∈ (call new (CallMenu ToggleRecording ZERO)).2 /\
  exists o rest, call_origin (CallMenu ToggleRecording ZERO) = Some o /\
    (call new (CallMenu ToggleRecording ZERO)).2 = AuditStart o :: StartCapture :: rest /\
    no_start rest = true.
Proof.
  assert (H : StartCapture ∈ (call new (CallMenu ToggleRecording ZERO)).2)
    by (simpl; right; left).
  split; [exact H|].
  apply (only_humans_start new); [constructor | exact H].
Defined.

Lemma blocked_start_acknowledged (s : ShellCore * option DetectedMeeting) (k : ShellCall) (m : DetectedMeeting) :
  reachable ghost_call (new, None) s ->
  prompt s.1 = Some m -> requires_acknowledgement m = true ->
  StartCapture ∈ (ghost_call s k).2 ->
  s.2 = Some m \/ exists t, k = CallHandle (PromptResponse t (ChooseStart true)).
Proof.
  intros [Hi Hg]%ghost_reachable_inv Hp Hr Hk. apply (starts_iff _ _ Hi) in Hk.
  destruct s as [c g]. simpl in *. rewrite Hp in Hg.
  destruct (acknowledged c) eqn:Ha; [left; by apply Hg|]. right.
  unfold may_start in Hk. rewrite Hp, Hr, Ha in Hk. simpl in Hk.
  apply andb_prop in Hk as [_ Hk].
  destruct k as [[| | | | | | | | |t [[]| |]|]| |]; try done. eauto.
Qed.

(** C23: CON-05, a blocking notice blocks every path.  Whenever a capture starts
    while a prompt whose notice requires acknowledgement is up, either the user
    ticked the box while exactly that meeting was on screen (and has not
    cleared it since), or the call itself asserts the acknowledgement; a tick
    given for another meeting never counts. *)
Theorem blocking_notice_blocks (s : ShellCore * option DetectedMeeting) (k : ShellCall)
    (m : DetectedMeeting) :
  reachable ghost_call (new, None) s ->
  prompt s.1 = Some m -> requires_acknowledgement m = true ->
  StartCapture ∈ (ghost_call s k).2 ->
  s.2 = Some m \/ exists t, k = CallHandle (PromptResponse t (ChooseStart true)).
Proof. apply blocked_start_acknowledged. Qed.

Definition board : DetectedMeeting :=
  with_consent_notice (meeting_new "us.zoom.xos" "Zoom" "Zoom is holding the microphone")
    "All-party consent" true.

Lemma blocking_notice_blocks_witness :
  let ks := [CallHandle (MeetingDetected ZERO board); CallHandle (PromptAcknowledged true)] in
  StartCapture ∈ (ghost_call (run ghost_call (new, None) ks).1 (CallToggle ZERO Hotkey)).2 /\
  ((run ghost_call (new, None) ks).1.2 = Some board \/
   exists t, CallToggle ZERO Hotkey = CallHandle (PromptResponse t (ChooseStart true))).
Proof.
  intros ks.
  assert (H : StartCapture ∈
            (ghost_call (run ghost_call (new, None) ks).1 (CallToggle ZERO Hotkey)).2)
    by (apply list_elem_of_In; vm_compute; auto).
  split; [exact H|].
  apply (blocking_notice_blocks (run ghost_call (new, None) ks).1 _ board);
    [apply run_reachable | reflexivity | reflexivity | exact H].
Defined.

(** Refinement of the host protocol.  However the shell is driven, the host
    that executes its effects never sees a second start on a live capture, a
    stop of a stopped one, a repeated ticker edge or a start without its own
    audit entry, and it ends with its capture and its ticker in exactly the
    state the core believes them to be in. *)
Theorem host_stays_in_step (ks : list ShellCall) :
  exists h, host_run new host_new ks = Some ((run call new ks).1, h) /\
    in_step (run call new ks).1 h.
Proof.
  assert (Hgen : forall c h, shell_inv c -> in_step c h ->
    exists h', host_run c h ks = Some ((run call c ks).1, h') /\ in_step (run call c ks).1 h').
  { induction ks as [|k ks IH]; intros c h Hi Hh; [by eauto|].
    rewrite run_cons. simpl. destruct (call_in_step c h k Hi Hh) as (h' & He & Hs).
    pose proof (call_inv c k Hi) as Hi'.
    destruct (call c k) as [c' es]. simpl in *. rewrite He. simpl. by apply IH. }
  apply Hgen; [inv_solve | by unfold in_step].
Qed.

(** The clock on the pill.  While a session is live or being written, no
    call makes its elapsed time shrink or takes the indicator down; while
    recording the start of the session never moves, and once capture has
    stopped the length is frozen. *)
Theorem session_clock_is_monotone (c : ShellCore) (k : ShellCall) :
  fresh_phase (phase c) = false ->
  phase_elapsed (phase c) <= phase_elapsed (phase (call c k).1) /\
  is_idle (phase (call c k).1) = false /\
  (forall s0 e0 s1 e1, phase c = Recording s0 e0 -> phase (call c k).1 = Recording s1 e1 -> s1 = s0) /\
  (is_recording (phase c) = false -> is_recording (phase (call c k).1) = false /\
     phase_elapsed (phase (call c k).1) = phase_elapsed (phase c)).
Proof.
  intros Hf.
  assert (Hph : forall i, let p := next_phase c i in
    phase_elapsed (phase c) <= phase_elapsed p /\ is_idle p = false /\
    (forall s0 e0 s1 e1, phase c = Recording s0 e0 -> p = Recording s1 e1 -> s1 = s0) /\
    (is_recording (phase c) = false -> is_recording p = false /\
       phase_elapsed p = phase_elapsed (phase c))).
  { intros i. unfold next_phase.
    destruct (phase c), i; simpl in *; try done; repeat split; try done; try lia; congruence. }
  destruct (call_phase c k) as [i ->]. apply Hph.
Qed.

Lemma session_clock_is_monotone_witness :
  let c := (run call new [CallToggle (from_secs 1) Menu; CallHandle (Tick (from_secs 9))]).1 in
  fresh_phase (phase c) = false /\
  phase_elapsed (phase c) <= phase_elapsed (phase (call c (CallHandle (Tick (from_secs 3)))).1).
Proof.
  intros c. split; [reflexivity|].
  apply (session_clock_is_monotone c (CallHandle (Tick (from_secs 3)))). reflexivity.
Defined.

(** The Start button tells the truth.  On every reachable core with a prompt
    up, the view offers an enabled Start exactly when pressing it (with nothing
    else asserted) starts a capture, and exactly when the hotkey would. *)
Theorem start_button_is_honest (c : ShellCore) (pv : PromptView) (t : Monotonic)
    (o : StartOrigin) :
  reachable call new c ->
  prompt_of (view c) = Some pv ->
  (start_enabled pv = true <->
     StartCapture ∈ (call c (CallHandle (PromptResponse t (ChooseStart false)))).2) /\
  (start_enabled pv = true <-> StartCapture ∈ (call c (CallToggle t o)).2).
Proof.
  intros Hi%reachable_shell_inv Hv.
  rewrite !(starts_iff c _ Hi). destruct Hi as (_ & _ & Hp & _).
  unfold view, prompt_view, may_start in *. simpl in *.
  destruct (prompt c) as [m|]; [|done]. injection Hv as <-. simpl.
  destruct (phase c); simpl in *; try (by discriminate (Hp eq_refl)).
  by rewrite orb_false_r.
Qed.

Lemma start_button_is_honest_witness :
  let c := (run call new [CallHandle (MeetingDetected ZERO board)]).1 in
  exists pv, prompt_of (view c) = Some pv /\
    (start_enabled pv = true <->
       StartCapture ∈ (call c (CallHandle (PromptResponse ZERO (ChooseStart false)))).2).
Proof.
  intros c. eexists. split; [reflexivity|].
  apply (start_button_is_honest c _ ZERO Menu); [apply run_reachable | reflexivity].
Defined.

(** What clears a finished session and what clears a fault.  A fault
    survives every call except an explicit Dismiss and a new start; a saved
    session is cleared by a tick exactly when four seconds have passed, and by
    no earlier tick. *)
Theorem faults_need_acknowledgement (c : ShellCore) (e : Duration) :
  (forall reason k, phase c = Faulted e reason ->
     shell_inv c -> may_start c k = false -> k <> CallHandle Dismiss ->
     phase (call c k).1 = Faulted e reason) /\
  (forall t now, phase c = Finished e t ->
     phase (call c (CallHandle (Tick now))).1 =
       (if dur_from_secs 4 <=? since now t then Idle else Finished e t)).
Proof.
  split.
  - intros reason k Hp Hi Hm Hk.
    assert (Hpr : prompt c = None) by (destruct Hi as (_ & _ & H & _); apply H; by rewrite Hp).
    unfold may_start in Hm. rewrite Hp, Hpr in Hm.
    destruct k as [i|a now|now o]; [| |done].
    + destruct i; try done; unfold call, handle, start_blocked, answer_prompt;
        rewrite ?transition_phase, ?Hpr; unfold next_phase; repeat case_match; try done;
        simpl; congruence.
    + unfold call, on_menu. rewrite row_enabled, Hp. by destruct a.
  - intros t now Hp. unfold call, handle, start_blocked. rewrite transition_phase.
    unfold next_phase. by rewrite Hp.
Qed.

Lemma faults_need_acknowledgement_witness :
  let c := (run call new [CallToggle ZERO Menu; CallHandle (CaptureFailed "disk full")]).1 in
  phase c = Faulted 0 "disk full" /\
  phase (call c (CallHandle (Tick (from_secs 99)))).1 = Faulted 0 "disk full".
Proof.
  intros c. split; [reflexivity|].
  apply (faults_need_acknowledgement c 0);
    [reflexivity | apply reachable_shell_inv, run_reachable | reflexivity | discriminate].
Defined.
