(* ===== verification/Retention.v ===== *)
(** * fotw-pipeline: audio retention and the sweeper

    Models [crates/fotw-pipeline/src/retention.rs].  [plan_sweep] is the
    source's pure planner: a policy pass over the library in order, then, while
    the library is over budget, an oldest-first pass over the meetings that may
    be evicted.  Byte totals are [u64]; every sum and subtraction is checked,
    so a result of [None] is an arithmetic panic and the theorems show there is
    none when the library's total fits in 64 bits.  [apply] unlinks the planned
    files on a file system modelled as a map from paths to files. *)

From S2P Require Import Prelude.

Local Open Scope Z_scope.

Definition MS_PER_DAY : Z := 86400000.
Definition DEFAULT_RETAIN_DAYS : Z := 30.
Definition DEFAULT_BUDGET_BYTES : Z := 20 * 1024 * 1024 * 1024.

Inductive RetentionPolicy :=
| PolicyDefault
| Forever
| UntilTranscribed
| Days (days : Z).

#[export] Instance RetentionPolicy_eq_dec : EqDecision RetentionPolicy.
Proof. solve_decision. Defined.

Definition to_columns (p : RetentionPolicy) : string * option Z :=
  match p with
  | PolicyDefault => ("default", None)
  | Forever => ("forever", None)
  | UntilTranscribed => ("until_transcribed", None)
  | Days days => ("days", Some days)
  end%string.

Definition from_columns (kind : string) (days : option Z) : RetentionPolicy :=
  if String.eqb kind "forever" then Forever
  else if String.eqb kind "until_transcribed" then UntilTranscribed
  else if String.eqb kind "days" then from_option Days PolicyDefault days
  else PolicyDefault.

Definition is_forever (p : RetentionPolicy) : bool :=
  match p with Forever => true | _ => false end.

Inductive TranscriptState := Recording | Transcribing | Ready | Failed.

#[export] Instance TranscriptState_eq_dec : EqDecision TranscriptState.
Proof. solve_decision. Defined.

Definition state_from_column (s : string) : TranscriptState :=
  if String.eqb s "ready" then Ready
  else if String.eqb s "transcribing" then Transcribing
  else if String.eqb s "failed" then Failed
  else Recording.

Definition is_ready (s : TranscriptState) : bool :=
  match s with Ready => true | _ => false end.

Record MeetingAudio := mkMeetingAudio {
  meeting_id : string;
  started_at_ms : Z;
  state : TranscriptState;
  transcript_ready_at_ms : option Z;
  policy : RetentionPolicy;
  audio_bytes : Z;
  transcript_bytes : Z;
  audio_paths : list string;
}.

#[export] Instance MeetingAudio_eq_dec : EqDecision MeetingAudio.
Proof. solve_decision. Defined.

Definition meeting_audio_new (id : string) (started : Z) : MeetingAudio :=
  mkMeetingAudio id started Recording None PolicyDefault 0 0 [].

Definition expires_at_ms (self : MeetingAudio) (default_days : Z) : option Z :=
  ready ← transcript_ready_at_ms self;
  if negb (is_ready (state self)) then None
  else
    days ← match policy self with
           | Forever => None
           | PolicyDefault => Some default_days
           | UntilTranscribed => Some 0
           | Days days => Some days
           end;
    Some (sat_add64 ready (sat_mul64 days MS_PER_DAY)).

Definition is_transcribed (self : MeetingAudio) : bool :=
  is_ready (state self) && is_some (transcript_ready_at_ms self).

Definition is_evictable (self : MeetingAudio) : bool :=
  negb (is_forever (policy self)) && is_transcribed self && (0 <? audio_bytes self).

Record RetentionSettings := mkRetentionSettings { default_days : Z; budget_bytes : Z }.

Definition settings_default : RetentionSettings :=
  mkRetentionSettings DEFAULT_RETAIN_DAYS DEFAULT_BUDGET_BYTES.

Inductive SweepReason :=
| PolicyAge (days : Z)
| Transcribed
| OverBudget.

Record Eviction := mkEviction {
  ev_meeting_id : string;
  ev_audio_bytes : Z;
  ev_reason : SweepReason;
  ev_paths : list string;
}.

Inductive SweepWarning :=
| OnlyForeverRemains (over_by_bytes forever_bytes : Z)
| OnlyUntranscribedRemains (over_by_bytes untranscribed_bytes : Z).

Record SweepPlan := mkSweepPlan {
  evictions : list Eviction;
  warnings : list SweepWarning;
  audio_bytes_before : Z;
  audio_bytes_after : Z;
  plan_budget_bytes : Z;
}.

Definition bytes_reclaimed (self : SweepPlan) : option Z :=
  sum_u64 (ev_audio_bytes <$> evictions self).

Definition within_budget (self : SweepPlan) : bool :=
  audio_bytes_after self <=? plan_budget_bytes self.

(** ** The planner *)

(** The body of the policy loop: the eviction pushed for [m], if any. *)
Definition policy_eviction (now_ms : Z) (settings : RetentionSettings) (m : MeetingAudio)
    : option Eviction :=
  if (audio_bytes m =? 0) && (length (audio_paths m) =? 0)%nat then None
  else
    expires ← expires_at_ms m (default_days settings);
    if now_ms <? expires then None
    else
      let reason :=
        match policy m with
        | UntilTranscribed => Transcribed
        | Days days => PolicyAge days
        | _ => PolicyAge (default_days settings)
        end in
      Some (mkEviction (meeting_id m) (audio_bytes m) reason (audio_paths m)).

Definition policy_pass (now_ms : Z) (settings : RetentionSettings) (meetings : list MeetingAudio)
    : list Eviction :=
  omap (policy_eviction now_ms settings) meetings.

(** The eviction order: oldest first, the id breaking ties. *)
Definition older_leb (a b : MeetingAudio) : bool :=
  match started_at_ms a ?= started_at_ms b with
  | Lt => true
  | Gt => false
  | Eq => String.leb (meeting_id a) (meeting_id b)
  end.
Definition older (a b : MeetingAudio) : Prop := older_leb a b = true.
#[export] Instance older_dec : RelDecision older := fun a b => bool_eq_dec (older_leb a b) true.

Definition candidates (expired : list string) (meetings : list MeetingAudio) : list MeetingAudio :=
  merge_sort older
    (filter (fun m => (meeting_id m ∉ expired) /\ is_evictable m = true) meetings).

Definition budget_eviction (m : MeetingAudio) : Eviction :=
  mkEviction (meeting_id m) (audio_bytes m) OverBudget (audio_paths m).

(** [for m in candidates { if remaining <= budget { break } ... }] *)
Fixpoint evict_oldest (budget remaining : Z) (cs : list MeetingAudio)
    : option (Z * list Eviction) :=
  match cs with
  | [] => Some (remaining, [])
  | m :: cs =>
      if remaining <=? budget then Some (remaining, [])
      else
        remaining ← checked_sub remaining (audio_bytes m);
        '(remaining, evs) ← evict_oldest budget remaining cs;
        Some (remaining, budget_eviction m :: evs)
  end.

(** The two counters of the warning pass, over the surviving meetings. *)
Fixpoint protected_bytes (acc : Z * Z) (ms : list MeetingAudio) : option (Z * Z) :=
  match ms with
  | [] => Some acc
  | m :: ms =>
      acc ← (if is_forever (policy m) then
               f ← checked_add64 acc.1 (audio_bytes m); Some (f, acc.2)
             else if negb (is_transcribed m) then
               u ← checked_add64 acc.2 (audio_bytes m); Some (acc.1, u)
             else Some acc);
      protected_bytes acc ms
  end.

Definition survivors (expired : list string) (evs : list Eviction) (meetings : list MeetingAudio)
    : list MeetingAudio :=
  filter (fun m => (meeting_id m ∉ expired) /\ (meeting_id m ∉ (ev_meeting_id <$> evs))) meetings.

Definition plan_sweep (now_ms : Z) (meetings : list MeetingAudio) (settings : RetentionSettings)
    : option SweepPlan :=
  before ← sum_u64 (audio_bytes <$> meetings);
  let pass1 := policy_pass now_ms settings meetings in
  let expired := ev_meeting_id <$> pass1 in
  reclaimed ← sum_u64 (ev_audio_bytes <$> pass1);
  remaining ← checked_sub before reclaimed;
  '(remaining, pass2) ←
    (if budget_bytes settings <? remaining then
       evict_oldest (budget_bytes settings) remaining (candidates expired meetings)
     else Some (remaining, []));
  let evs := pass1 ++ pass2 in
  warns ←
    (if budget_bytes settings <? remaining then
       over_by ← checked_sub remaining (budget_bytes settings);
       '(forever_bytes, untranscribed_bytes) ←
         protected_bytes (0, 0) (survivors expired evs meetings);
       Some ((if 0 <? forever_bytes then [OnlyForeverRemains over_by forever_bytes] else []) ++
             (if 0 <? untranscribed_bytes then [OnlyUntranscribedRemains over_by untranscribed_bytes]
              else []))
     else Some []);
  Some (mkSweepPlan evs warns before remaining (budget_bytes settings)).

(** ** Applying a plan *)

(** A file: its length as [metadata] reports it ([None] when that call fails)
    and the error [remove_file] fails with, if any. *)
Record File := mkFile { file_len : option Z; unlink_error : option string }.

(** [Path::join] on Unix. *)
Definition path_join (root rel : string) : string :=
  match rel with
  | String "/" _ => rel
  | _ => if String.eqb root "" then rel
         else if bool_decide (String.get (String.length root - 1) root = Some "/"%char)
         then (root +:+ rel)%string
         else (root +:+ "/" +:+ rel)%string
  end.

Fixpoint apply_paths (root : string) (fs : gmap string File) (reclaimed : Z)
    (errors : list (string * string)) (paths : list string)
    : option (gmap string File * Z * list (string * string)) :=
  match paths with
  | [] => Some (fs, reclaimed, errors)
  | rel :: paths =>
      let path := path_join root rel in
      match fs !! path with
      | None => apply_paths root fs reclaimed errors paths
      | Some f =>
          match unlink_error f with
          | Some e => apply_paths root fs reclaimed (errors ++ [(path, e)]) paths
          | None =>
              reclaimed ← checked_add64 reclaimed (default 0 (file_len f));
              apply_paths root (delete path fs) reclaimed errors paths
          end
      end
  end.

Definition apply (self : SweepPlan) (root : string) (fs : gmap string File)
    : option (gmap string File * Z * list (string * string)) :=
  apply_paths root fs 0 [] (evictions self ≫= ev_paths).

(** ** Accounting *)

Record DiskUsage := mkDiskUsage {
  usage_meetings : Z;
  usage_audio_bytes : Z;
  usage_transcript_bytes : Z;
  usage_forever_bytes : Z;
  usage_untranscribed_bytes : Z;
}.

Definition total_bytes (u : DiskUsage) : option Z :=
  checked_add64 (usage_audio_bytes u) (usage_transcript_bytes u).

Definition usage_add (u : DiskUsage) (m : MeetingAudio) : option DiskUsage :=
  a ← checked_add64 (usage_audio_bytes u) (audio_bytes m);
  t ← checked_add64 (usage_transcript_bytes u) (transcript_bytes m);
  f ← (if is_forever (policy m) then checked_add64 (usage_forever_bytes u) (audio_bytes m)
       else Some (usage_forever_bytes u));
  n ← (if negb (is_transcribed m) then checked_add64 (usage_untranscribed_bytes u) (audio_bytes m)
       else Some (usage_untranscribed_bytes u));
  Some (mkDiskUsage (usage_meetings u) a t f n).

Fixpoint usage_fold (u : DiskUsage) (ms : list MeetingAudio) : option DiskUsage :=
  match ms with
  | [] => Some u
  | m :: ms => u ← usage_add u m; usage_fold u ms
  end.

Definition usage (meetings : list MeetingAudio) : option DiskUsage :=
  usage_fold (mkDiskUsage (zlen meetings) 0 0 0 0) meetings.

Record UsageProfile := mkUsageProfile {
  meetings_per_day : Z;
  minutes_per_meeting : Z;
  active_days_per_year : Z;
  tracks : Z;
  bitrate_bps : Z;
}.

Definition HEAVY_USER : UsageProfile := mkUsageProfile 5 45 250 2 24000.

Definition bytes_per_meeting (p : UsageProfile) : option Z :=
  s ← checked_mul64 (minutes_per_meeting p) 60;
  t ← checked_mul64 s (tracks p);
  b ← checked_mul64 t (bitrate_bps p);
  Some (b / 8).
Definition bytes_per_year (p : UsageProfile) : option Z :=
  b ← bytes_per_meeting p;
  d ← checked_mul64 b (meetings_per_day p);
  checked_mul64 d (active_days_per_year p).
Definition steady_state_bytes (p : UsageProfile) (retain_days : Z) : option Z :=
  y ← bytes_per_year p;
  s ← checked_mul64 y retain_days;
  Some (s / 365).

Example heavy_user_year : bytes_per_year HEAVY_USER = Some 20250000000.
Proof. reflexivity. Qed.
Example heavy_user_steady : steady_state_bytes HEAVY_USER DEFAULT_RETAIN_DAYS = Some 1664383561.
Proof. reflexivity. Qed.

(** ** The order of eviction *)

Lemma older_spec a b :
  older a b <->
  started_at_ms a < started_at_ms b \/
  (started_at_ms a = started_at_ms b /\ String.le (meeting_id a) (meeting_id b)).
Proof.
  unfold older, older_leb, String.le.
  destruct (Z.compare_spec (started_at_ms a) (started_at_ms b)) as [->|H|H].
  - rewrite Is_true_true. naive_solver lia.
  - naive_solver.
  - naive_solver lia.
Qed.

#[export] Instance older_trans : Transitive older.
Proof.
  intros a b c. rewrite !older_spec. intros [?|[? H1]] [?|[? H2]]; try (left; lia).
  right. split; [lia|]. by trans (meeting_id b).
Qed.

#[export] Instance older_total : Total older.
Proof.
  intros a b. rewrite !older_spec.
  destruct (total String.le (meeting_id a) (meeting_id b));
    destruct (Z.lt_total (started_at_ms a) (started_at_ms b)) as [?|[?|?]]; auto with lia.
Qed.

(** Two meetings the order cannot tell apart have the same id. *)
Lemma older_antisymm_id a b : older a b -> older b a -> meeting_id a = meeting_id b.
Proof.
  rewrite !older_spec. intros [?|[? H1]] [?|[? H2]]; try lia.
  by apply (anti_symm String.le).
Qed.

Lemma evict_oldest_spec budget rem cs :
  (forall m, m ∈ cs -> 0 <= audio_bytes m) ->
  zsum (audio_bytes <$> cs) <= rem ->
  exists k, evict_oldest budget rem cs =
      Some (rem - zsum (audio_bytes <$> take k cs), budget_eviction <$> take k cs) /\
    (k <= length cs)%nat /\
    (rem - zsum (audio_bytes <$> take k cs) <= budget \/ k = length cs) /\
    (forall j, (j < k)%nat -> budget < rem - zsum (audio_bytes <$> take j cs)).
Proof.
  revert rem. induction cs as [|m cs IH]; intros rem Hnn Hle.
  - exists 0%nat. simpl. unfold zsum. simpl. rewrite Z.sub_0_r.
    repeat split; [lia | by right | lia].
  - rewrite fmap_cons, zsum_cons in Hle. simpl.
    assert (0 <= audio_bytes m) by (apply Hnn; left).
    assert (0 <= zsum (audio_bytes <$> cs)).
    { apply zsum_map_nonneg. intros. apply Hnn. by right. }
    destruct (Z.leb_spec rem budget) as [Hb|Hb].
    + exists 0%nat. simpl. unfold zsum. simpl. rewrite Z.sub_0_r. repeat split; [lia | lia | lia].
    + rewrite checked_sub_Some by lia. simpl.
      destruct (IH (rem - audio_bytes m)) as (k & -> & Hk & Hstop & Hj); [|lia|].
      { intros. apply Hnn. by right. }
      exists (S k). csimpl.
      replace (rem - (audio_bytes m + zsum (audio_bytes <$> take k cs)))
        with (rem - audio_bytes m - zsum (audio_bytes <$> take k cs)) by lia.
      repeat split; [lia | destruct Hstop; [by left | right; lia] |].
      intros [|j] Hlt; [unfold zsum; simpl; lia|].
      csimpl. specialize (Hj j). lia.
Qed.

(** The audio held by each of the two protected sets. *)
Definition forever_sum (ms : list MeetingAudio) : Z :=
  zsum ((fun m => if is_forever (policy m) then audio_bytes m else 0) <$> ms).
Definition untranscribed_sum (ms : list MeetingAudio) : Z :=
  zsum ((fun m => if is_forever (policy m) then 0
                  else if is_transcribed m then 0 else audio_bytes m) <$> ms).

Lemma protected_bytes_spec acc ms :
  (forall m, m ∈ ms -> 0 <= audio_bytes m) -> 0 <= acc.1 -> 0 <= acc.2 ->
  acc.1 + acc.2 + zsum (audio_bytes <$> ms) <= u64_max ->
  protected_bytes acc ms = Some (acc.1 + forever_sum ms, acc.2 + untranscribed_sum ms).
Proof.
  unfold forever_sum, untranscribed_sum.
  revert acc. induction ms as [|m ms IH]; intros [f u] Hnn Hf Hu Hs; csimpl in *.
  - unfold zsum. simpl. by rewrite !Z.add_0_r.
  - assert (0 <= audio_bytes m) by (apply Hnn; left).
    assert (0 <= zsum (audio_bytes <$> ms)).
    { apply zsum_map_nonneg. intros. apply Hnn. by right. }
    destruct (is_forever (policy m)), (is_transcribed m); simpl;
      rewrite ?checked_add64_Some by lia; simpl;
      (rewrite IH; simpl; [f_equal; f_equal; lia | set_solver | lia | lia | lia]).
Qed.

(** ** The shape of a plan *)

(** A library whose byte counts are non-negative and whose total fits [u64]. *)
Definition library_ok (ms : list MeetingAudio) : Prop :=
  (forall m, m ∈ ms -> 0 <= audio_bytes m) /\ zsum (audio_bytes <$> ms) <= u64_max.

Lemma policy_eviction_inv now st m e :
  policy_eviction now st m = Some e ->
  ev_meeting_id e = meeting_id m /\ ev_audio_bytes e = audio_bytes m /\ ev_paths e = audio_paths m /\
  is_transcribed m = true /\ is_forever (policy m) = false /\
  exists x, expires_at_ms m (default_days st) = Some x /\ x <= now.
Proof.
  unfold policy_eviction. destruct (_ && _); [done|].
  intros (x & Hx & He)%bind_Some.
  destruct (Z.ltb_spec now x); [done|]. injection He as <-. simpl.
  unfold is_transcribed. unfold expires_at_ms in Hx.
  apply bind_Some in Hx as (r & Hr & Hx). rewrite Hr.
  destruct (is_ready (state m)) eqn:Hs; [|done]. simpl in *.
  repeat split; try done.
  - by destruct (policy m).
  - exists x. split; [|done]. unfold expires_at_ms. by rewrite Hr, Hs.
Qed.

Lemma policy_pass_bytes now st ms :
  zsum (ev_audio_bytes <$> policy_pass now st ms) =
  zsum ((fun m => if is_some (policy_eviction now st m) then audio_bytes m else 0) <$> ms).
Proof.
  unfold policy_pass. apply zsum_omap. intros m e _ (_ & -> & _)%policy_eviction_inv. done.
Qed.

Lemma expired_elem now st ms m :
  m ∈ ms -> is_some (policy_eviction now st m) = true ->
  meeting_id m ∈ (ev_meeting_id <$> policy_pass now st ms).
Proof.
  intros Hm He. destruct (policy_eviction now st m) as [e|] eqn:E; [|done].
  apply list_elem_of_fmap. exists e.
  split; [by apply policy_eviction_inv in E as (-> & _)|].
  apply list_elem_of_omap. eauto.
Qed.

Lemma candidates_elem expired ms m :
  m ∈ candidates expired ms <-> m ∈ ms /\ (meeting_id m ∉ expired) /\ is_evictable m = true.
Proof.
  unfold candidates. rewrite merge_sort_Permutation, list_elem_of_filter. naive_solver.
Qed.

Lemma candidates_bytes expired ms :
  zsum (audio_bytes <$> candidates expired ms) =
  zsum ((fun m => if bool_decide ((meeting_id m ∉ expired) /\ is_evictable m = true)
                  then audio_bytes m else 0) <$> ms).
Proof.
  unfold candidates. rewrite <-zsum_filter. apply zsum_perm, fmap_Permutation.
  apply merge_sort_Permutation.
Qed.

Section Shape.
Context (now : Z) (ms : list MeetingAudio) (st : RetentionSettings).
Context (Hok : library_ok ms).

Let pass1 := policy_pass now st ms.
Let expired := ev_meeting_id <$> pass1.
Let cs := candidates expired ms.
Let left_over (k : nat) : Z :=
  zsum (audio_bytes <$> ms) - zsum (ev_audio_bytes <$> pass1) - zsum (audio_bytes <$> take k cs).

Lemma passes_fit :
  0 <= zsum (ev_audio_bytes <$> pass1) /\
  zsum (ev_audio_bytes <$> pass1) + zsum (audio_bytes <$> cs) <= zsum (audio_bytes <$> ms).
Proof.
  destruct Hok as [Hnn _]. unfold pass1, cs. rewrite policy_pass_bytes, candidates_bytes.
  split.
  - apply zsum_map_nonneg. intros m Hm. specialize (Hnn m Hm). by case_match.
  - rewrite zsum_map_add. apply zsum_map_le. intros m Hm. specialize (Hnn m Hm).
    destruct (is_some (policy_eviction now st m)) eqn:E; case_bool_decide as Hd; try lia.
    destruct Hd as [Hd _]. destruct Hd. by apply expired_elem.
Qed.

Lemma survivors_fit (evs : list Eviction) :
  zsum (audio_bytes <$> survivors expired evs ms) <= u64_max.
Proof.
  destruct Hok as [Hnn Hf]. etrans; [|exact Hf]. unfold survivors. rewrite zsum_filter.
  apply zsum_map_le. intros m Hm. specialize (Hnn m Hm). by case_bool_decide.
Qed.

Lemma survivors_protected (evs : list Eviction) :
  protected_bytes (0, 0) (survivors expired evs ms) =
  Some (forever_sum (survivors expired evs ms), untranscribed_sum (survivors expired evs ms)).
Proof.
  destruct Hok as [Hnn _]. rewrite protected_bytes_spec; simpl; try done.
  - intros m Hm. apply Hnn. by apply list_elem_of_filter in Hm as [_ ?].
  - apply survivors_fit.
Qed.

Lemma plan_shape :
  exists k,
    let evs := pass1 ++ (budget_eviction <$> take k cs) in
    let keep := survivors expired evs ms in
    let f := forever_sum keep in
    let u := untranscribed_sum keep in
    let over := left_over k - budget_bytes st in
    plan_sweep now ms st = Some (mkSweepPlan evs
      (if budget_bytes st <? left_over k then
         (if 0 <? f then [OnlyForeverRemains over f] else []) ++
         (if 0 <? u then [OnlyUntranscribedRemains over u] else [])
       else [])
      (zsum (audio_bytes <$> ms)) (left_over k) (budget_bytes st)) /\
    (k <= length cs)%nat /\
    (left_over k <= budget_bytes st \/ k = length cs) /\
    (forall j, (j < k)%nat -> budget_bytes st < left_over j).
Proof.
  destruct Hok as [Hnn Hf]. destruct passes_fit as [Hp1 Hp2].
  assert (Hcs : forall m, m ∈ cs -> 0 <= audio_bytes m).
  { intros m Hm. apply Hnn. by apply candidates_elem in Hm as [? _]. }
  assert (Hcs0 : 0 <= zsum (audio_bytes <$> cs)) by (by apply zsum_map_nonneg).
  assert (Hnn' : Forall (Z.le 0) (audio_bytes <$> ms)) by (rewrite Forall_fmap, Forall_forall; auto).
  assert (Hnp : Forall (Z.le 0) (ev_audio_bytes <$> pass1)).
  { rewrite Forall_fmap, Forall_forall. intros e (m & Hm & He)%list_elem_of_omap.
    apply policy_eviction_inv in He as (_ & Hb & _). simpl. rewrite Hb. by apply Hnn. }
  unfold plan_sweep. fold pass1. fold expired. fold cs.
  rewrite (sum_u64_spec (audio_bytes <$> ms)) by done. simpl.
  rewrite sum_u64_spec by (done || lia). simpl.
  rewrite checked_sub_Some by lia. simpl.
  set (rem := zsum (audio_bytes <$> ms) - zsum (ev_audio_bytes <$> pass1)).
  destruct (evict_oldest_spec (budget_bytes st) rem cs Hcs) as (k & Hev & Hk & Hstop & Hmin);
    [unfold rem; lia|].
  exists (if budget_bytes st <? rem then k else 0%nat).
  destruct (Z.ltb_spec (budget_bytes st) rem) as [Hb|Hb].
  - rewrite Hev. simpl. change (rem - zsum (audio_bytes <$> take k cs)) with (left_over k).
    destruct (Z.ltb_spec (budget_bytes st) (left_over k)).
    + rewrite checked_sub_Some by lia. simpl. by rewrite survivors_protected.
    + done.
  - assert (H0 : left_over 0 = rem) by (unfold left_over; rewrite take_0; cbn; unfold rem; lia).
    rewrite H0. simpl. rewrite (proj2 (Z.ltb_ge _ _)) by lia. simpl.
    repeat split; [lia | lia | intros j Hj; lia].
Qed.

End Shape.

(** ** Applying a plan *)

(** The paths whose unlink fails, with the error, in plan order. *)
Definition locked_errors (root : string) (fs : gmap string File) (paths : list string)
    : list (string * string) :=
  omap (fun rel => f ← fs !! path_join root rel; e ← unlink_error f;
                   Some (path_join root rel, e)) paths.

Definition unlinkable (fs : gmap string File) (p : string) : bool :=
  match fs !! p with Some f => negb (is_some (unlink_error f)) | None => false end.

Lemma locked_errors_ext root fs fs' paths :
  (forall p, fs' !! p = fs !! p \/ (fs' !! p = None /\ unlinkable fs p = true)) ->
  locked_errors root fs' paths = locked_errors root fs paths.
Proof.
  intros H. unfold locked_errors. induction paths as [|rel paths IH]; [done|].
  csimpl. rewrite IH. destruct (H (path_join root rel)) as [->|[-> Hu]]; [done|].
  unfold unlinkable in Hu. destruct (fs !! path_join root rel) as [f|]; [|done]. simpl.
  by destruct (unlink_error f).
Qed.

Lemma apply_paths_spec root fs r errs paths fs' r' errs' :
  apply_paths root fs r errs paths = Some (fs', r', errs') ->
  errs' = errs ++ locked_errors root fs paths /\
  (forall p, fs' !! p = if bool_decide (p ∈ (path_join root <$> paths)) && unlinkable fs p
                        then None else fs !! p).
Proof.
  revert fs r errs. induction paths as [|rel paths IH]; intros fs r errs; csimpl.
  - intros [= <- <- <-]. split; [by rewrite app_nil_r|]. done.
  - destruct (fs !! path_join root rel) as [f|] eqn:Hf; simpl.
    + destruct (unlink_error f) as [e|] eqn:Hu; simpl.
      * intros [-> Hl]%IH. split; [by rewrite <-app_assoc|].
        intros p. rewrite Hl. destruct (decide (p = path_join root rel)) as [->|Hne].
        -- unfold unlinkable. rewrite Hf, Hu. simpl. by rewrite !andb_false_r.
        -- erewrite bool_decide_ext; [reflexivity|]. set_solver.
      * destruct (checked_add64 r (default 0 (file_len f))) as [r1|]; [|done]. simpl.
        intros [-> Hl]%IH. split.
        { f_equal. apply locked_errors_ext. intros p.
          destruct (decide (p = path_join root rel)) as [->|Hne].
          - right. rewrite lookup_delete_eq. unfold unlinkable. by rewrite Hf, Hu.
          - left. by rewrite lookup_delete_ne. }
        intros p. rewrite Hl. unfold unlinkable.
        destruct (decide (p = path_join root rel)) as [->|Hne].
        -- rewrite lookup_delete_eq, Hf, Hu. simpl. rewrite andb_false_r.
           by rewrite bool_decide_true by set_solver.
        -- rewrite lookup_delete_ne by done.
           erewrite bool_decide_ext; [reflexivity|]. set_solver.
    + intros [-> Hl]%IH. split; [done|]. intros p. rewrite Hl.
      destruct (decide (p = path_join root rel)) as [->|Hne].
      * unfold unlinkable. rewrite Hf. by rewrite !andb_false_r.
      * erewrite bool_decide_ext; [reflexivity|]. set_solver.
Qed.

(** Once nothing planned can be unlinked, applying reclaims nothing. *)
Lemma apply_paths_stable root fs errs paths :
  (forall rel, rel ∈ paths -> unlinkable fs (path_join root rel) = false) ->
  apply_paths root fs 0 errs paths = Some (fs, 0, errs ++ locked_errors root fs paths).
Proof.
  revert errs. induction paths as [|rel paths IH]; intros errs Hg; csimpl; [by rewrite app_nil_r|].
  assert (Hr : unlinkable fs (path_join root rel) = false) by (apply Hg; left).
  unfold unlinkable in Hr. destruct (fs !! path_join root rel) as [f|]; simpl.
  - destruct (unlink_error f) as [e|]; [|done]. simpl.
    rewrite IH by set_solver. by rewrite <-app_assoc.
  - apply IH. set_solver.
Qed.

(** ** Libraries with distinct ids *)

Lemma same_id_same_meeting ms m1 m2 :
  NoDup (meeting_id <$> ms) -> m1 ∈ ms -> m2 ∈ ms -> meeting_id m1 = meeting_id m2 -> m1 = m2.
Proof.
  induction ms as [|m ms IH]; csimpl; [set_solver|].
  intros [Hn Hd]%NoDup_cons H1 H2 He.
  apply elem_of_cons in H1 as [->|H1]; apply elem_of_cons in H2 as [->|H2]; try done.
  - destruct Hn. rewrite He. by apply list_elem_of_fmap_2.
  - destruct Hn. rewrite <-He. by apply list_elem_of_fmap_2.
  - by apply IH.
Qed.

Lemma expired_iff now st ms m :
  NoDup (meeting_id <$> ms) -> m ∈ ms ->
  (meeting_id m ∈ (ev_meeting_id <$> policy_pass now st ms) <->
     is_some (policy_eviction now st m) = true).
Proof.
  intros Hd Hm. split; [|by apply expired_elem].
  intros (e & He & (m' & Hm' & Hev)%list_elem_of_omap)%list_elem_of_fmap.
  pose proof (policy_eviction_inv _ _ _ _ Hev) as (Hid & _).
  assert (m = m') as -> by (apply (same_id_same_meeting ms); congruence).
  by rewrite Hev.
Qed.

(** When every candidate was evicted, what survives is what the policy pass
    kept and eviction may not touch. *)
Lemma survivor_iff now st ms m :
  let pass1 := policy_pass now st ms in
  let cs := candidates (ev_meeting_id <$> pass1) ms in
  let evs := pass1 ++ (budget_eviction <$> cs) in
  NoDup (meeting_id <$> ms) -> m ∈ ms ->
  ((meeting_id m ∉ (ev_meeting_id <$> pass1)) /\ (meeting_id m ∉ (ev_meeting_id <$> evs)) <->
     is_some (policy_eviction now st m) = false /\ is_evictable m = false).
Proof.
  intros pass1 cs evs Hd Hm. pose proof (expired_iff now st ms m Hd Hm) as Hx. fold pass1 in Hx.
  unfold evs. rewrite fmap_app, <-list_fmap_compose, not_elem_of_app, Hx.
  assert (Hc : meeting_id m ∈ (ev_meeting_id ∘ budget_eviction <$> cs) <->
            is_some (policy_eviction now st m) <> true /\ is_evictable m = true).
  { rewrite <-Hx. split.
    - intros (m' & Hid & Hm')%list_elem_of_fmap. apply candidates_elem in Hm' as (Hm' & Hne & Hev).
      assert (m = m') as -> by by apply (same_id_same_meeting ms). done.
    - intros [Hne Hev]. apply list_elem_of_fmap. exists m. split; [done|].
      apply candidates_elem. done. }
  rewrite Hc. destruct (is_some (policy_eviction now st m)), (is_evictable m); naive_solver.
Qed.

Lemma not_evictable_bytes m :
  0 <= audio_bytes m -> is_evictable m = false -> is_transcribed m = true ->
  is_forever (policy m) = false -> audio_bytes m = 0.
Proof. unfold is_evictable. intros H He Ht Hf. rewrite Ht, Hf in He. simpl in He. lia. Qed.

Lemma protected_not_evicted now st m :
  is_forever (policy m) = true \/ is_transcribed m = false ->
  is_some (policy_eviction now st m) = false /\ is_evictable m = false.
Proof.
  intros H. split.
  - destruct (policy_eviction now st m) as [e|] eqn:E; [|done].
    apply policy_eviction_inv in E as (_ & _ & _ & Ht & Hf & _). destruct H; congruence.
  - unfold is_evictable. destruct H as [->| ->]; simpl; by rewrite ?andb_false_r.
Qed.

Section Survivors.
Context (now : Z) (ms : list MeetingAudio) (st : RetentionSettings).
Context (Hok : library_ok ms) (Hd : NoDup (meeting_id <$> ms)).

Let pass1 := policy_pass now st ms.
Let cs := candidates (ev_meeting_id <$> pass1) ms.
Let keep := survivors (ev_meeting_id <$> pass1) (pass1 ++ (budget_eviction <$> cs)) ms.

Lemma keep_sums : forever_sum keep = forever_sum ms /\ untranscribed_sum keep = untranscribed_sum ms.
Proof.
  unfold forever_sum, untranscribed_sum, keep, survivors. rewrite !zsum_filter.
  split; apply zsum_map_ext; intros m Hm; case_bool_decide as Hb; try done.
  - destruct (is_forever (policy m)) eqn:E; [|done].
    destruct Hb. apply (survivor_iff now st ms m Hd Hm), protected_not_evicted. by left.
  - destruct (is_forever (policy m)) eqn:E; [done|].
    destruct (is_transcribed m) eqn:Ht; [done|].
    destruct Hb. apply (survivor_iff now st ms m Hd Hm), protected_not_evicted. by right.
Qed.

Lemma rest_is_protected :
  zsum (audio_bytes <$> ms) - zsum (ev_audio_bytes <$> pass1) - zsum (audio_bytes <$> cs) =
  forever_sum ms + untranscribed_sum ms.
Proof.
  destruct Hok as [Hnn _]. unfold forever_sum, untranscribed_sum, pass1, cs.
  rewrite policy_pass_bytes, candidates_bytes, zsum_map_add.
  enough (zsum (audio_bytes <$> ms) =
    zsum ((fun m => if is_some (policy_eviction now st m) then audio_bytes m else 0) <$> ms) +
    (zsum ((fun m => if bool_decide ((meeting_id m ∉ (ev_meeting_id <$> pass1)) /\ is_evictable m = true)
                    then audio_bytes m else 0) <$> ms) +
    zsum ((fun m => (if is_forever (policy m) then audio_bytes m else 0) +
                    (if is_forever (policy m) then 0 else if is_transcribed m then 0
                     else audio_bytes m)) <$> ms))) by (unfold pass1 in *; lia).
  rewrite !zsum_map_add. apply zsum_map_ext. intros m Hm. specialize (Hnn m Hm).
  pose proof (expired_iff now st ms m Hd Hm) as Hx. fold pass1 in Hx.
  pose proof (protected_not_evicted now st m) as Hpr.
  pose proof (not_evictable_bytes m Hnn) as Hne.
  case_bool_decide as Hb; rewrite Hx in Hb;
    destruct (is_some (policy_eviction now st m)), (is_evictable m), (is_forever (policy m)),
      (is_transcribed m); simpl; try lia; try (by destruct Hpr; auto); try (by destruct Hb);
    rewrite Hne by done; lia.
Qed.

End Survivors.

(** ** A sample library for the witnesses *)

Definition sample_meeting (id : string) (start : Z) (ready : option Z) (p : RetentionPolicy)
    (bytes : Z) : MeetingAudio :=
  mkMeetingAudio id start (if is_some ready then Ready else Transcribing) ready p bytes 10 [id].

Definition sample_library : list MeetingAudio :=
  [sample_meeting "board" 1 (Some 5) Forever 40;
   sample_meeting "sync" 4 (Some 9) PolicyDefault 30;
   sample_meeting "demo" 3 (Some 7) PolicyDefault 20;
   sample_meeting "text" 2 (Some 3) UntilTranscribed 10;
   sample_meeting "raw" 6 None PolicyDefault 50].

Definition sample_settings : RetentionSettings := mkRetentionSettings 30 60.

Lemma sample_ok : library_ok sample_library.
Proof.
  split; [|vm_compute; discriminate].
  intros m Hm. unfold sample_library in Hm. rewrite !elem_of_cons in Hm.
  destruct Hm as [->|[->|[->|[->|[->|Hm]]]]]; [done..|set_solver].
Qed.

Lemma sample_nodup : NoDup (meeting_id <$> sample_library).
Proof. apply (bool_decide_unpack (NoDup (meeting_id <$> sample_library))). by vm_compute. Qed.

(** ** Properties *)

(** What an eviction for age rests on: the meeting's own window, counted from the
    moment its transcript was ready. *)
Definition window_elapsed (now : Z) (st : RetentionSettings) (m : MeetingAudio) (ready : Z) (r : SweepReason) : Prop :=
  match r with
  | OverBudget => True
  | Transcribed => policy m = UntilTranscribed /\ (ready <= now \/ u64_max <= now)
  | PolicyAge days =>
      (policy m = Days days \/ policy m = PolicyDefault /\ days = default_days st) /\
      (0 <= ready -> ready + days * 86400000 <= now \/ u64_max <= now)
  end.

Lemma policy_eviction_window now st m e :
  policy_eviction now st m = Some e ->
  exists ready, state m = Ready /\ transcript_ready_at_ms m = Some ready /\ window_elapsed now st m ready (ev_reason e).
Proof.
  unfold policy_eviction. destruct (_ && _); [done|]. intros (x & Hx & He)%bind_Some.
  destruct (Z.ltb_spec now x); [done|]. injection He as <-. unfold expires_at_ms in Hx.
  apply bind_Some in Hx as (r & Hr & Hx). exists r. destruct (is_ready (state m)) eqn:Hs; [|done].
  split; [by destruct (state m)|]. split; [done|]. simpl in *.
  destruct (policy m) eqn:Hp; simpl in *; [injection Hx as <-|done|injection Hx as <-..]; simpl;
    rewrite Hp; unfold MS_PER_DAY in *; unfold_machine; unfold u64_max in *; (split; [by eauto|]); try intros; lia.
Qed.

Lemma evictable_inv m :
  is_evictable m = true -> state m = Ready /\ is_some (transcript_ready_at_ms m) = true /\ policy m <> Forever.
Proof.
  unfold is_evictable, is_transcribed. rewrite !andb_true_iff, negb_true_iff. intros [[Hf [Hs Hr]] _].
  split_and!; [by destruct (state m) | done | by intros E; rewrite E in Hf].
Qed.

(** C24: the sweeper never touches a protected recording.  Every eviction of a
    plan is the audio (id, size and paths, nothing else) of a meeting of the
    library that is not marked Keep forever, whose state is ready and of whose
    transcript the time it became ready is known, so that a meeting finished without
    one is spared; when it was evicted for age its own retention window, counted
    from that time, has elapsed. *)
Theorem sweep_spares_protected (now : Z) (ms : list MeetingAudio) (st : RetentionSettings)
    (plan : SweepPlan) (e : Eviction) :
  library_ok ms -> plan_sweep now ms st = Some plan -> e ∈ evictions plan ->
  exists m ready, m ∈ ms /\ ev_meeting_id e = meeting_id m /\ ev_audio_bytes e = audio_bytes m /\
    ev_paths e = audio_paths m /\
    state m = Ready /\ transcript_ready_at_ms m = Some ready /\ policy m <> Forever /\
    is_transcribed m = true /\ is_forever (policy m) = false /\
    window_elapsed now st m ready (ev_reason e) /\
    (ev_reason e <> OverBudget ->
       exists x, expires_at_ms m (default_days st) = Some x /\ x <= now).
Proof.
  intros Hok Hp He. destruct (plan_shape now ms st Hok) as (k & Hs & _).
  rewrite Hs in Hp. injection Hp as <-. simpl in He.
  apply elem_of_app in He as [He|He].
  - apply list_elem_of_omap in He as (m & Hm & Hev). pose proof (policy_eviction_window _ _ _ _ Hev) as (r & Hst & Hr & Hw).
    apply policy_eviction_inv in Hev as (? & ? & ? & ? & Hf & ?). exists m, r. split_and!; try done.
    intros E. by rewrite E in Hf.
  - apply list_elem_of_fmap in He as (m & -> & Hm).
    assert (Hc : m ∈ candidates (ev_meeting_id <$> policy_pass now st ms) ms).
    { rewrite <-(take_drop k (candidates _ _)). set_solver. }
    apply candidates_elem in Hc as (? & _ & Hev). destruct (evictable_inv m Hev) as (Hst & Hr & Hf).
    destruct (transcript_ready_at_ms m) as [r|] eqn:Er; [|done]. exists m, r. unfold is_evictable in Hev.
    destruct (is_forever (policy m)), (is_transcribed m) eqn:Ht; simpl in *; naive_solver.
Qed.

Lemma sweep_spares_protected_witness :
  exists plan e, plan_sweep 20 sample_library sample_settings = Some plan /\ e ∈ evictions plan /\
    exists m ready, m ∈ sample_library /\ ev_meeting_id e = meeting_id m /\
      state m = Ready /\ transcript_ready_at_ms m = Some ready /\ policy m <> Forever /\
      window_elapsed 20 sample_settings m ready (ev_reason e).
Proof.
  eexists _, (mkEviction "text" 10 Transcribed ["text"]).
  split; [vm_compute; reflexivity|]. split; [left|].
  edestruct (sweep_spares_protected 20 sample_library sample_settings)
    as (m & ready & H1 & H2 & _ & _ & H3 & H4 & H5 & _ & _ & H6 & _);
    [exact sample_ok | vm_compute; reflexivity | left |].
  exists m, ready. exact (conj H1 (conj H2 (conj H3 (conj H4 (conj H5 H6))))).
Defined.

(** Exact accounting and no panic.  On any library whose total fits [u64],
    the planner returns a plan: its sums and subtractions do not overflow, the
    bytes after the sweep are the bytes before it less exactly what the listed
    evictions reclaim, and never negative. *)
Theorem sweep_accounts_exactly (now : Z) (ms : list MeetingAudio) (st : RetentionSettings) :
  library_ok ms ->
  exists plan r, plan_sweep now ms st = Some plan /\ bytes_reclaimed plan = Some r /\
    audio_bytes_before plan = zsum (audio_bytes <$> ms) /\
    audio_bytes_after plan = audio_bytes_before plan - r /\ 0 <= audio_bytes_after plan.
Proof.
  intros Hok. destruct (plan_shape now ms st Hok) as (k & Hs & Hk & _). simpl in Hs.
  destruct (passes_fit now ms st Hok) as [Hp1 Hp2]. destruct Hok as [Hnn Hf].
  set (cs := candidates _ ms) in *.
  assert (Hcs : forall m, m ∈ cs -> 0 <= audio_bytes m).
  { intros m Hm. apply Hnn. by apply candidates_elem in Hm as [? _]. }
  pose proof (zsum_take_le audio_bytes cs k Hcs) as Htk.
  assert (Htk0 : 0 <= zsum (audio_bytes <$> take k cs)).
  { apply zsum_map_nonneg. intros m Hm. apply Hcs. rewrite <-(take_drop k cs). set_solver. }
  do 2 eexists. split; [exact Hs|]. unfold bytes_reclaimed. simpl.
  assert (Hb : ev_audio_bytes <$> (budget_eviction <$> take k cs) = audio_bytes <$> take k cs).
  { rewrite <-list_fmap_compose. by apply list_fmap_ext. }
  rewrite fmap_app, Hb. split.
  - apply sum_u64_spec; [|rewrite zsum_app; lia].
    rewrite Forall_app, !Forall_fmap, !Forall_forall. split.
    + intros e (m & Hm & (_ & He & _)%policy_eviction_inv)%list_elem_of_omap. simpl.
      rewrite He. by apply Hnn.
    + intros m Hm. apply Hcs. rewrite <-(take_drop k cs). set_solver.
  - rewrite zsum_app. lia.
Qed.

Lemma sweep_accounts_exactly_witness :
  exists plan r, plan_sweep 20 sample_library sample_settings = Some plan /\
    bytes_reclaimed plan = Some r /\
    audio_bytes_before plan = zsum (audio_bytes <$> sample_library) /\
    audio_bytes_after plan = audio_bytes_before plan - r /\ 0 <= audio_bytes_after plan.
Proof. apply (sweep_accounts_exactly 20 sample_library sample_settings sample_ok). Defined.

(** Minimal, oldest-first eviction.  The plan is the policy pass followed by
    a prefix of the evictable meetings in (start, id) order; the prefix stops
    as soon as the library fits the budget, never earlier than needed and never
    one meeting later, and covers every candidate if the budget cannot be met. *)
Theorem sweep_evicts_minimal_prefix (now : Z) (ms : list MeetingAudio) (st : RetentionSettings) :
  library_ok ms ->
  let pass1 := policy_pass now st ms in
  let cs := candidates (ev_meeting_id <$> pass1) ms in
  let left_over k := zsum (audio_bytes <$> ms) - zsum (ev_audio_bytes <$> pass1)
                     - zsum (audio_bytes <$> take k cs) in
  StronglySorted older cs /\
  exists plan k, plan_sweep now ms st = Some plan /\
    evictions plan = pass1 ++ (budget_eviction <$> take k cs) /\
    audio_bytes_after plan = left_over k /\
    (forall j, (j < k)%nat -> budget_bytes st < left_over j) /\
    (left_over k <= budget_bytes st \/ take k cs = cs).
Proof.
  intros Hok pass1 cs left_over. split.
  { apply StronglySorted_merge_sort; apply _. }
  destruct (plan_shape now ms st Hok) as (k & Hs & Hk & Hstop & Hmin).
  do 2 eexists. split; [exact Hs|]. split; [done|]. split; [done|]. split; [exact Hmin|].
  destruct Hstop as [?| ->]; [by left | right]. by rewrite firstn_all.
Qed.

Lemma sweep_evicts_minimal_prefix_witness :
  StronglySorted older
    (candidates (ev_meeting_id <$> policy_pass 20 sample_settings sample_library) sample_library).
Proof. apply (sweep_evicts_minimal_prefix 20 sample_library sample_settings sample_ok). Defined.

(** An honest warning.  In a library with distinct ids the plan warns
    exactly when it leaves the library over budget; then what remains is
    precisely the audio of the two protected sets (Keep forever, and not yet
    transcribed), and the warnings report those sizes and the exact excess. *)
Theorem over_budget_is_reported (now : Z) (ms : list MeetingAudio) (st : RetentionSettings) :
  library_ok ms -> NoDup (meeting_id <$> ms) -> 0 <= budget_bytes st ->
  exists plan, plan_sweep now ms st = Some plan /\
    (within_budget plan = true <-> warnings plan = []) /\
    (within_budget plan = false ->
       let f := forever_sum ms in let u := untranscribed_sum ms in
       let over := audio_bytes_after plan - budget_bytes st in
       0 < over /\ audio_bytes_after plan = f + u /\
       warnings plan = (if 0 <? f then [OnlyForeverRemains over f] else []) ++
                       (if 0 <? u then [OnlyUntranscribedRemains over u] else [])).
Proof.
  intros Hok Hd Hb. destruct (plan_shape now ms st Hok) as (k & Hs & Hk & Hstop & _).
  eexists. split; [exact Hs|]. unfold within_budget. simpl.
  set (cs := candidates _ ms) in *. set (pass1 := policy_pass now st ms) in *.
  set (lo := _ - _ - zsum (audio_bytes <$> take k cs)) in *.
  destruct (Z.ltb_spec (budget_bytes st) lo) as [Hlt|Hge].
  - rewrite (proj2 (Z.leb_gt _ _)) by lia.
    assert (k = length cs) as -> by (destruct Hstop; [lia|done]).
    rewrite firstn_all in *. unfold cs, pass1 in *.
    destruct (keep_sums now ms st Hd) as [-> ->].
    assert (Hr : lo = forever_sum ms + untranscribed_sum ms).
    { unfold lo. rewrite firstn_all. by apply rest_is_protected. }
    split; [|intros _; split; [lia|]; split; [exact Hr|reflexivity]].
    split; [done|]. intros Hw. exfalso.
    destruct (Z.ltb_spec 0 (forever_sum ms)), (Z.ltb_spec 0 (untranscribed_sum ms)); simpl in Hw;
      try discriminate Hw. lia.
  - rewrite (proj2 (Z.leb_le _ _)) by lia. done.
Qed.

Lemma over_budget_is_reported_witness :
  exists plan, plan_sweep 20 sample_library sample_settings = Some plan /\
    (within_budget plan = true <-> warnings plan = []).
Proof.
  destruct (over_budget_is_reported 20 sample_library sample_settings sample_ok sample_nodup)
    as (plan & H1 & H2 & _); [vm_compute; discriminate|].
  exists plan. split; [exact H1 | exact H2].
Defined.

Lemma survivors_perm expired evs expired' evs' ms ms' :
  ms ≡ₚ ms' -> (forall x, x ∈ expired <-> x ∈ expired') ->
  (forall x, x ∈ (ev_meeting_id <$> evs) <-> x ∈ (ev_meeting_id <$> evs')) ->
  survivors expired evs ms ≡ₚ survivors expired' evs' ms'.
Proof.
  intros Hp Hx He. unfold survivors. rewrite Hp.
  erewrite list_filter_iff; [reflexivity|]. intros m. by rewrite Hx, He.
Qed.

(** The plan does not depend on the order the library is listed in.  With
    distinct ids, reordering the meetings gives the same totals, the same
    warnings and the same budget evictions in the same order; the policy
    evictions are the same up to the listing order. *)
Theorem sweep_ignores_listing_order (now : Z) (ms ms' : list MeetingAudio)
    (st : RetentionSettings) :
  library_ok ms -> NoDup (meeting_id <$> ms) -> ms ≡ₚ ms' ->
  exists pass1 pass1' pass2 warns before after,
    plan_sweep now ms st = Some (mkSweepPlan (pass1 ++ pass2) warns before after (budget_bytes st)) /\
    plan_sweep now ms' st = Some (mkSweepPlan (pass1' ++ pass2) warns before after (budget_bytes st)) /\
    pass1 ≡ₚ pass1'.
Proof.
  intros Hok Hd Hp.
  assert (Hok' : library_ok ms').
  { destruct Hok as [Hnn Hf]. split; [intros m Hm; apply Hnn; by rewrite Hp|].
    by rewrite <-(zsum_perm _ _ (fmap_Permutation audio_bytes _ _ Hp)). }
  destruct (plan_shape now ms st Hok) as (k & Hs & Hk & Hstop & Hmin).
  destruct (plan_shape now ms' st Hok') as (k' & Hs' & Hk' & Hstop' & Hmin').
  assert (Hp1 : policy_pass now st ms ≡ₚ policy_pass now st ms').
  { unfold policy_pass. by rewrite Hp. }
  assert (Hcs : candidates (ev_meeting_id <$> policy_pass now st ms) ms =
                candidates (ev_meeting_id <$> policy_pass now st ms') ms').
  { apply (Sorted_unique_strong older); try apply Sorted_merge_sort; try apply _.
    - intros m1 m2 (H1 & _)%candidates_elem (H2 & _)%candidates_elem Ho1 Ho2.
      apply (same_id_same_meeting ms); [done | done | by rewrite Hp | by apply older_antisymm_id].
    - unfold candidates. rewrite !merge_sort_Permutation, Hp.
      erewrite list_filter_iff; [reflexivity|]. intros m. by rewrite Hp1. }
  assert (Hb : zsum (audio_bytes <$> ms) = zsum (audio_bytes <$> ms'))
    by (apply zsum_perm; by rewrite Hp).
  assert (Hr : zsum (ev_audio_bytes <$> policy_pass now st ms) =
               zsum (ev_audio_bytes <$> policy_pass now st ms')) by (apply zsum_perm; by rewrite Hp1).
  rewrite <-Hcs, <-Hb, <-Hr in *.
  assert (k = k') as <-.
  { destruct (Nat.lt_total k k') as [Hlt|[?|Hlt]]; [exfalso|done|exfalso].
    - specialize (Hmin' k Hlt). destruct Hstop; lia.
    - specialize (Hmin k' Hlt). destruct Hstop'; lia. }
  do 6 eexists. split; [exact Hs|]. split; [|exact Hp1]. rewrite Hs'. do 2 f_equal.
  set (cs := candidates _ ms) in *.
  assert (Hsv : survivors (ev_meeting_id <$> policy_pass now st ms)
                  (policy_pass now st ms ++ (budget_eviction <$> take k cs)) ms
            ≡ₚ survivors (ev_meeting_id <$> policy_pass now st ms')
                  (policy_pass now st ms' ++ (budget_eviction <$> take k cs)) ms').
  { apply survivors_perm; [done | intros x; by rewrite Hp1 | intros x; by rewrite Hp1]. }
  unfold forever_sum, untranscribed_sum.
  by rewrite !(zsum_perm _ _ (fmap_Permutation _ _ _ Hsv)).
Qed.

Lemma sweep_ignores_listing_order_witness :
  exists pass1 pass1' pass2 warns before after,
    plan_sweep 20 sample_library sample_settings =
      Some (mkSweepPlan (pass1 ++ pass2) warns before after 60) /\
    plan_sweep 20 (reverse sample_library) sample_settings =
      Some (mkSweepPlan (pass1' ++ pass2) warns before after 60) /\ pass1 ≡ₚ pass1'.
Proof.
  apply (sweep_ignores_listing_order 20 sample_library (reverse sample_library) sample_settings
           sample_ok sample_nodup).
  symmetry. apply reverse_Permutation.
Defined.

(** Applying a plan.  Unlinking removes exactly the planned files that can
    be unlinked and no other, reports every planned file that cannot, continues
    past failures, and is idempotent: applying the plan again changes nothing,
    reclaims nothing and reports the same failures. *)
Theorem apply_unlinks_exactly_the_plan (plan : SweepPlan) (root : string)
    (fs fs' : gmap string File) (reclaimed : Z) (errors : list (string * string)) :
  apply plan root fs = Some (fs', reclaimed, errors) ->
  let planned := path_join root <$> (evictions plan ≫= ev_paths) in
  (forall p, fs' !! p = if bool_decide (p ∈ planned) && unlinkable fs p then None else fs !! p) /\
  errors = locked_errors root fs (evictions plan ≫= ev_paths) /\
  apply plan root fs' = Some (fs', 0, errors).
Proof.
  intros H planned. unfold apply in *. pose proof (apply_paths_spec _ _ _ _ _ _ _ _ H) as [He Hl].
  simpl in He. split; [exact Hl|]. split; [exact He|].
  assert (Hsame : locked_errors root fs' (evictions plan ≫= ev_paths) = errors).
  { rewrite He. apply locked_errors_ext. intros p. rewrite Hl.
    destruct (bool_decide _), (unlinkable fs p); simpl; auto. }
  rewrite <-Hsame. clear H He Hsame errors.
  assert (Hgone : forall rel, rel ∈ (evictions plan ≫= ev_paths) ->
                    unlinkable fs' (path_join root rel) = false).
  { intros rel Hrel. unfold unlinkable. rewrite Hl.
    rewrite bool_decide_true by (by apply list_elem_of_fmap_2). simpl.
    by destruct (unlinkable fs (path_join root rel)) eqn:E. }
  by apply (apply_paths_stable root fs' []).
Qed.

Definition sample_fs : gmap string File :=
  <["a" := mkFile (Some 10) None]> {["b" := mkFile (Some 20) (Some "denied"%string)]}.

Definition sample_plan : SweepPlan :=
  mkSweepPlan [mkEviction "text" 10 Transcribed ["a"]; mkEviction "demo" 20 OverBudget ["b"; "c"]]
    [] 150 120 60.

Lemma apply_unlinks_exactly_the_plan_witness :
  apply sample_plan "" sample_fs = Some (delete "a"%string sample_fs, 10, [("b", "denied")%string]) /\
  apply sample_plan "" (delete "a"%string sample_fs) =
    Some (delete "a"%string sample_fs, 0, [("b", "denied")%string]).
Proof.
  assert (H : apply sample_plan "" sample_fs =
            Some (delete "a"%string sample_fs, 10, [("b", "denied")%string])) by reflexivity.
  split; [exact H|].
  apply (apply_unlinks_exactly_the_plan sample_plan "" sample_fs _ _ _ H).
Defined.
