(* ===== verification/Watchdog.v ===== *)
(** * fotw-audio: the stall detector

    Models [crates/fotw-audio/src/watchdog.rs]: the activity counters bumped on
    the audio thread, the [OutputProbe] trait (a type class here), the
    thresholds and the [Watchdog] itself.  Host times and counters are [u64];
    the two unguarded subtractions of [poll] are checked, so that a poll
    returning [None] is the arithmetic panic of a clock that ran backwards.

    A run of the detector is a list of events, arms and polls; the theorems are
    about every run whose clock does not go backwards. *)

From S2P Require Import Prelude.

Local Open Scope Z_scope.

Record TapActivity := mkTapActivity { buffers : Z; silent_buffers : Z; frames : Z }.

#[export] Instance TapActivity_eq_dec : EqDecision TapActivity.
Proof. solve_decision. Defined.

Definition activity_new (b s f : Z) : TapActivity := mkTapActivity b s f.

(** The atomics, as the values they hold; [fetch_add] wraps. *)
Record ActivityCounters := mkCounters {
  c_buffers : Z;
  c_silent_buffers : Z;
  c_frames : Z;
}.

Definition counters_new : ActivityCounters := mkCounters 0 0 0.

Definition fetch_add64 (a b : Z) : Z := (a + b) mod 2 ^ 64.

Definition record (self : ActivityCounters) (frames : Z) (silent : bool) : ActivityCounters :=
  mkCounters (fetch_add64 (c_buffers self) 1)
    (if silent then fetch_add64 (c_silent_buffers self) 1 else c_silent_buffers self)
    (fetch_add64 (c_frames self) frames).

Definition snapshot (self : ActivityCounters) : TapActivity :=
  mkTapActivity (c_buffers self) (c_silent_buffers self) (c_frames self).

Inductive OutputActivity := Active | Idle | Unknown.

#[export] Instance OutputActivity_eq_dec : EqDecision OutputActivity.
Proof. solve_decision. Defined.

(** The platform's answer, as an interface: what the detector may ask. *)
Class OutputProbe (P : Type) := output_activity : P -> OutputActivity.

#[export] Instance probe_constant : OutputProbe OutputActivity := fun o => o.

Inductive Fault :=
| NoBuffers (since_ns for_ns : Z)
| SilentWhileOutputRunning (silent_since_ns corroborated_for_ns : Z).

Inductive Verdict :=
| Healthy
| NoAudio (for_ns : Z)
| Faulted (fault : Fault).

Definition fault_since_ns (f : Fault) : Z :=
  match f with
  | NoBuffers since_ns _ => since_ns
  | SilentWhileOutputRunning silent_since_ns _ => silent_since_ns
  end.

Definition fault_as_str (f : Fault) : string :=
  match f with
  | NoBuffers _ _ => "no-buffers"
  | SilentWhileOutputRunning _ _ => "silent-while-output-running"
  end.

Record WatchdogConfig := mkWatchdogConfig {
  no_buffer_timeout : Duration;
  silence_timeout : Duration;
  quiet_notice_after : Duration;
  emits_silence_when_idle : bool;
}.

Definition config_default : WatchdogConfig :=
  mkWatchdogConfig (dur_from_secs 5) (dur_from_secs 30) (dur_from_secs 30) true.

(** [for_caps], given the one capability it reads. *)
Definition config_for_caps (caps_emits_silence_when_idle : bool) : WatchdogConfig :=
  mkWatchdogConfig (no_buffer_timeout config_default) (silence_timeout config_default)
    (quiet_notice_after config_default) caps_emits_silence_when_idle.

Record Watchdog := mkWatchdog {
  config : WatchdogConfig;
  baseline : option TapActivity;
  armed_at_ns : Z;
  last_poll_ns : Z;
  last_frames_ns : Z;
  quiet_since_ns : option Z;
  corroborated_since_ns : option Z;
  audible_since_arm : bool;
}.

Definition watchdog_new (config : WatchdogConfig) : Watchdog :=
  mkWatchdog config None 0 0 0 None None false.

Definition arm (self : Watchdog) (now_ns : Z) : Watchdog :=
  mkWatchdog (config self) None now_ns now_ns now_ns None None false.

Definition starvation_verdict {P} `{OutputProbe P} (self : Watchdog) (now_ns : Z) (probe : P)
    : Verdict :=
  let since_ns := Z.max (last_frames_ns self) (armed_at_ns self) in
  let for_ns := sat_sub now_ns since_ns in
  if for_ns <? dur_as_nanos_u64 (no_buffer_timeout (config self)) then Healthy
  else if negb (emits_silence_when_idle (config self))
          && bool_decide (output_activity probe <> Active) then NoAudio for_ns
  else Faulted (NoBuffers since_ns for_ns).

(** The clocks after the buffers of this poll are counted. *)
Definition note_buffers (self : Watchdog) (now_ns prev_poll_ns : Z)
    (previous activity : TapActivity) : Watchdog :=
  let new_frames := frames activity - frames previous in
  let new_buffers := buffers activity - buffers previous in
  let new_silent := sat_sub (silent_buffers activity) (silent_buffers previous) in
  let last_frames := if 0 <? new_frames then now_ns else last_frames_ns self in
  if 0 <? new_buffers then
    if new_silent =? new_buffers then
      mkWatchdog (config self) (baseline self) (armed_at_ns self) (last_poll_ns self) last_frames
        (Some (get_or_insert (quiet_since_ns self) prev_poll_ns))
        (corroborated_since_ns self) (audible_since_arm self)
    else
      mkWatchdog (config self) (baseline self) (armed_at_ns self) (last_poll_ns self) last_frames
        None None true
  else
    mkWatchdog (config self) (baseline self) (armed_at_ns self) (last_poll_ns self) last_frames
      (quiet_since_ns self) (corroborated_since_ns self) (audible_since_arm self).

Definition set_corroborated (self : Watchdog) (c : option Z) : Watchdog :=
  mkWatchdog (config self) (baseline self) (armed_at_ns self) (last_poll_ns self)
    (last_frames_ns self) (quiet_since_ns self) c (audible_since_arm self).

(** The silence half of [poll], once starvation is ruled out. *)
Definition silence_verdict {P} `{OutputProbe P} (self : Watchdog) (now_ns prev_poll_ns : Z)
    (probe : P) : option (Watchdog * Verdict) :=
  match quiet_since_ns self with
  | None => Some (set_corroborated self None, Healthy)
  | Some quiet_since =>
      let notice (self : Watchdog) :=
        quiet_for ← checked_sub now_ns quiet_since;
        Some (self, if dur_as_nanos_u64 (quiet_notice_after (config self)) <=? quiet_for
                    then NoAudio quiet_for else Healthy) in
      match output_activity probe with
      | Active =>
          let since := get_or_insert (corroborated_since_ns self) prev_poll_ns in
          let self := set_corroborated self (Some since) in
          corroborated_for_ns ← checked_sub now_ns since;
          if dur_as_nanos_u64 (silence_timeout (config self)) <=? corroborated_for_ns then
            Some (self, Faulted (SilentWhileOutputRunning quiet_since corroborated_for_ns))
          else notice self
      | Idle | Unknown => notice (set_corroborated self None)
      end
  end.

Definition poll {P} `{OutputProbe P} (self : Watchdog) (now_ns : Z) (activity : TapActivity)
    (probe : P) : option (Watchdog * Verdict) :=
  let previous := baseline self in
  let prev_poll_ns := last_poll_ns self in
  let self := mkWatchdog (config self) (Some activity) (armed_at_ns self) now_ns
                (last_frames_ns self) (quiet_since_ns self) (corroborated_since_ns self)
                (audible_since_arm self) in
  match previous with
  | None => Some (self, starvation_verdict self now_ns probe)
  | Some p =>
      if (frames p <=? frames activity) && (buffers p <=? buffers activity) then
        let self := note_buffers self now_ns prev_poll_ns p activity in
        match starvation_verdict self now_ns probe with
        | Faulted f => Some (self, Faulted f)
        | _ => silence_verdict self now_ns prev_poll_ns probe
        end
      else
        Some (mkWatchdog (config self) (baseline self) (armed_at_ns self) (last_poll_ns self)
                now_ns None None (audible_since_arm self), Healthy)
  end.

(** ** Runs *)

Inductive WEvent :=
| EArm (now_ns : Z)
| EPoll (now_ns : Z) (activity : TapActivity) (output : OutputActivity).

Definition event_time (e : WEvent) : Z :=
  match e with EArm t => t | EPoll t _ _ => t end.

Definition wstep (w : Watchdog) (e : WEvent) : option (Watchdog * list Verdict) :=
  match e with
  | EArm t => Some (arm w t, [])
  | EPoll t a o => '(w, v) ← poll w t a o; Some (w, [v])
  end.

Fixpoint wrun (w : Watchdog) (es : list WEvent) : option (Watchdog * list Verdict) :=
  match es with
  | [] => Some (w, [])
  | e :: es => '(w, v) ← wstep w e; '(w, vs) ← wrun w es; Some (w, v ++ vs)
  end.

(** A clock that does not run backwards, from [t] on. *)
Fixpoint monotone_from (t : Z) (es : list WEvent) : Prop :=
  match es with
  | [] => True
  | e :: es => t <= event_time e /\ monotone_from (event_time e) es
  end.

(** ** Every clock of the detector lies between a start and the last poll *)

Definition within (lo hi : Z) (o : option Z) : Prop :=
  match o with Some t => lo <= t <= hi | None => True end.

(** [lo] is a lower bound on the times the detector remembers. *)
Definition clocks_ok (lo : Z) (w : Watchdog) : Prop :=
  lo <= armed_at_ns w <= last_poll_ns w /\
  lo <= last_frames_ns w <= last_poll_ns w /\
  within lo (last_poll_ns w) (quiet_since_ns w) /\
  within lo (last_poll_ns w) (corroborated_since_ns w).

Lemma note_buffers_ok lo w now prev p a :
  last_poll_ns w = now -> lo <= prev <= now -> clocks_ok lo w ->
  clocks_ok lo (note_buffers w now prev p a) /\
  last_poll_ns (note_buffers w now prev p a) = now /\
  armed_at_ns (note_buffers w now prev p a) = armed_at_ns w /\
  config (note_buffers w now prev p a) = config w.
Proof.
  unfold clocks_ok, note_buffers, get_or_insert. intros <- Hp (H1 & H2 & H3 & H4).
  destruct (0 <? _), (0 <? _); try destruct (_ =? _); simpl;
    destruct (quiet_since_ns w), (corroborated_since_ns w); simpl in *; repeat split; try done; lia.
Qed.

Lemma silence_verdict_ok {P} `{OutputProbe P} lo w now prev (probe : P) :
  last_poll_ns w = now -> lo <= prev <= now -> clocks_ok lo w ->
  exists w' v, silence_verdict w now prev probe = Some (w', v) /\ clocks_ok lo w' /\
    last_poll_ns w' = now /\ armed_at_ns w' = armed_at_ns w /\ config w' = config w.
Proof.
  intros Hn Hp Hok. pose proof Hok as (H1 & H2 & H3 & H4). unfold silence_verdict.
  destruct (quiet_since_ns w) as [q|] eqn:Hq.
  - simpl in H3. destruct (output_activity probe).
    + assert (Hs : lo <= get_or_insert (corroborated_since_ns w) prev <= now).
      { unfold get_or_insert. destruct (corroborated_since_ns w); simpl in *; lia. }
      rewrite (checked_sub_Some now (get_or_insert _ _)), (checked_sub_Some now q) by lia. simpl.
      unfold clocks_ok in *.
      case_match; (do 2 eexists; split; [reflexivity|]); simpl; rewrite ?Hq; simpl;
        repeat split; try done; lia.
    + rewrite (checked_sub_Some now q) by lia. simpl. do 2 eexists. split; [reflexivity|].
      unfold clocks_ok in *. simpl. rewrite Hq. simpl. repeat split; try done; lia.
    + rewrite (checked_sub_Some now q) by lia. simpl. do 2 eexists. split; [reflexivity|].
      unfold clocks_ok in *. simpl. rewrite Hq. simpl. repeat split; try done; lia.
  - do 2 eexists. split; [reflexivity|]. unfold clocks_ok in *. simpl. rewrite Hq. simpl. repeat split; try done; lia.
Qed.

(** One poll no earlier than the previous event does not panic and keeps every
    clock in range. *)
Lemma poll_ok {P} `{OutputProbe P} lo w now a (probe : P) :
  clocks_ok lo w -> last_poll_ns w <= now ->
  exists w' v, poll w now a probe = Some (w', v) /\ clocks_ok lo w' /\
    last_poll_ns w' = now /\ armed_at_ns w' = armed_at_ns w /\ config w' = config w.
Proof.
  intros Hok Hn. pose proof Hok as (H1 & H2 & H3 & H4).
  unfold poll. set (w0 := mkWatchdog (config w) (Some a) _ _ _ _ _ _).
  assert (Hbump : clocks_ok lo w0).
  { unfold clocks_ok. simpl.
    destruct (quiet_since_ns w), (corroborated_since_ns w); simpl in *; lia. }
  destruct (baseline w) as [p|]; [|by eauto 10].
  case_match.
  - destruct (note_buffers_ok lo w0 now (last_poll_ns w) p a eq_refl ltac:(lia) Hbump)
      as (Hok' & Hl & Ha & Hc). simpl in *.
    set (w1 := note_buffers _ _ _ _ _) in *.
    destruct (silence_verdict_ok lo w1 now (last_poll_ns w) probe Hl ltac:(lia) Hok')
      as (w' & v & Hv & Hok'' & Hl' & Ha' & Hc').
    rewrite Ha in Ha'. rewrite Hc in Hc'. simpl in *.
    destruct (starvation_verdict w1 now probe); eauto 10.
  - do 2 eexists. split; [reflexivity|]. unfold clocks_ok. simpl. repeat split; try done; lia.
Qed.

Lemma wstep_ok lo w e :
  clocks_ok lo w -> last_poll_ns w <= event_time e ->
  exists w' vs, wstep w e = Some (w', vs) /\ clocks_ok lo w' /\ last_poll_ns w' = event_time e.
Proof.
  intros Hok Hn. destruct e as [t|t a o]; simpl in *.
  - do 2 eexists. split; [reflexivity|]. unfold clocks_ok in *. simpl. lia.
  - destruct (poll_ok lo w t a o Hok Hn) as (w' & v & -> & Hok' & Hl & _). simpl. eauto.
Qed.

Lemma wrun_ok lo w es :
  clocks_ok lo w -> monotone_from (last_poll_ns w) es ->
  exists w' vs, wrun w es = Some (w', vs) /\ clocks_ok lo w'.
Proof.
  revert w. induction es as [|e es IH]; intros w Hok Hm; [by eauto|].
  destruct Hm as [Ht Hm]. simpl.
  destruct (wstep_ok lo w e Hok Ht) as (w1 & v1 & -> & Hok1 & Hl). simpl.
  rewrite <-Hl in Hm. destruct (IH w1 Hok1 Hm) as (w2 & v2 & -> & Hok2). simpl. eauto.
Qed.

Lemma wrun_app w es1 es2 :
  wrun w (es1 ++ es2) = ('(w1, v1) ← wrun w es1; '(w2, v2) ← wrun w1 es2; Some (w2, v1 ++ v2)).
Proof.
  revert w. induction es1 as [|e es1 IH]; intros w; simpl.
  - by destruct (wrun w es2) as [[]|].
  - destruct (wstep w e) as [[w1 v1]|]; [|done]. simpl. rewrite IH.
    destruct (wrun w1 es1) as [[w2 v2]|]; [|done]. simpl.
    destruct (wrun w2 es2) as [[w3 v3]|]; [|done]. simpl. by rewrite app_assoc.
Qed.

(** ** One unbroken stretch of silence under running output *)

(** Between two consecutive polls, nothing audible arrived. *)
Definition silent_between (p a : TapActivity) : Prop :=
  frames p <= frames a /\ buffers p <= buffers a /\
  (buffers p < buffers a ->
     sat_sub (silent_buffers a) (silent_buffers p) = buffers a - buffers p).

Definition is_fault (v : Verdict) : bool := match v with Faulted _ => true | _ => false end.

(** The poll reported starvation, which outranks silence. *)
Definition starved (v : Verdict) : Prop := match v with Faulted (NoBuffers _ _) => True | _ => False end.

(** [unbroken hist s]: the newest polls of [hist], each with its verdict, newest
    first, form one stretch that began at the poll of time [s].  No audible buffer
    arrived between one of its polls and the next; the poll after its first saw
    output running, and every later one saw output running or was itself reported
    as starvation. *)
Inductive unbroken : list (WEvent * Verdict) -> Z -> Prop :=
| unbroken_open t a v t' p o' v' rest :
    silent_between p a ->
    unbroken ((EPoll t a Active, v) :: (EPoll t' p o', v') :: rest) t'
| unbroken_more t a o v t' p o' v' rest s :
    silent_between p a -> o = Active \/ starved v ->
    unbroken ((EPoll t' p o', v') :: rest) s ->
    unbroken ((EPoll t a o, v) :: (EPoll t' p o', v') :: rest) s.

(** What the detector's memory says about its history. *)
Definition remembers (hist : list (WEvent * Verdict)) (w : Watchdog) : Prop :=
  (forall a, baseline w = Some a -> exists o v rest, hist = (EPoll (last_poll_ns w) a o, v) :: rest) /\
  (baseline w = None -> corroborated_since_ns w = None) /\
  (forall s, corroborated_since_ns w = Some s -> unbroken hist s).

Lemma note_buffers_corroborated w now prev p a s :
  corroborated_since_ns (note_buffers w now prev p a) = Some s ->
  frames p <= frames a -> buffers p <= buffers a ->
  silent_between p a /\ corroborated_since_ns w = Some s.
Proof.
  unfold note_buffers, silent_between. intros Hq Hf Hb.
  destruct (Z.ltb_spec 0 (buffers a - buffers p)).
  - destruct (Z.eqb_spec (sat_sub (silent_buffers a) (silent_buffers p)) (buffers a - buffers p));
      simpl in *; [|done]. repeat split; auto.
  - simpl in *. repeat split; [lia | lia | lia | done].
Qed.

Lemma note_buffers_quiet w now prev p a q :
  quiet_since_ns (note_buffers w now prev p a) = Some q ->
  frames p <= frames a -> buffers p <= buffers a ->
  silent_between p a /\
  corroborated_since_ns (note_buffers w now prev p a) = corroborated_since_ns w.
Proof.
  unfold note_buffers, silent_between. intros Hq Hf Hb.
  destruct (Z.ltb_spec 0 (buffers a - buffers p)).
  - destruct (Z.eqb_spec (sat_sub (silent_buffers a) (silent_buffers p)) (buffers a - buffers p));
      simpl in *; [|done]. repeat split; auto.
  - simpl. repeat split; [lia | lia | lia].
Qed.

Lemma unbroken_extend hist t a v t' p o' v' rest s :
  hist = (EPoll t' p o', v') :: rest -> silent_between p a ->
  (forall s', s = Some s' -> unbroken hist s') ->
  unbroken ((EPoll t a Active, v) :: hist) (get_or_insert s t').
Proof.
  intros -> Hs Hu. destruct s as [s|]; simpl; [|by constructor]. apply unbroken_more; auto.
Qed.

Lemma starvation_not_silence {P} `{OutputProbe P} w now (probe : P) q c :
  starvation_verdict w now probe <> Faulted (SilentWhileOutputRunning q c).
Proof. unfold starvation_verdict. by repeat case_match. Qed.

Lemma note_buffers_fields w now prev p a :
  config (note_buffers w now prev p a) = config w /\
  baseline (note_buffers w now prev p a) = baseline w /\
  last_poll_ns (note_buffers w now prev p a) = last_poll_ns w.
Proof. unfold note_buffers. by repeat case_match. Qed.

(** The silence half: its memory of an unbroken stretch, and its fault. *)
Lemma silence_verdict_remembers hist w t a o t' p o' v' rest w' v :
  hist = (EPoll t' p o', v') :: rest ->
  (forall q, quiet_since_ns w = Some q -> silent_between p a) ->
  (forall s, corroborated_since_ns w = Some s -> unbroken hist s) ->
  silence_verdict w t t' o = Some (w', v) ->
  config w' = config w /\ baseline w' = baseline w /\ last_poll_ns w' = last_poll_ns w /\
  (forall s, corroborated_since_ns w' = Some s -> unbroken ((EPoll t a o, v) :: hist) s) /\
  (forall q c, v = Faulted (SilentWhileOutputRunning q c) ->
     corroborated_since_ns w' = Some (t - c) /\
     dur_as_nanos_u64 (silence_timeout (config w)) <= c).
Proof.
  intros Hh Hq Hc. unfold silence_verdict.
  destruct (quiet_since_ns w) as [q|] eqn:Eq; [|intros [= <- <-]; naive_solver].
  specialize (Hq q eq_refl).
  destruct o; simpl.
  - pose proof (fun v => unbroken_extend hist t a v t' p o' v' rest _ Hh Hq Hc) as Hu.
    intros (c & (Hle & ->)%checked_sub_inv & Hv)%bind_Some.
    set (since := get_or_insert (corroborated_since_ns w) t') in *.
    destruct (Z.leb_spec (dur_as_nanos_u64 (silence_timeout (config w))) (t - since)).
    + injection Hv as <- <-. simpl. split_and!; try done; [naive_solver|].
      intros q' c [= -> <-]. split; [f_equal; lia | done].
    + apply bind_Some in Hv as (n & _ & Hv). injection Hv as <- <-. simpl.
      split_and!; try done; [naive_solver|]. intros. by case_match.
  - intros (n & _ & [= <- <-])%bind_Some. simpl. split_and!; try done. intros. by case_match.
  - intros (n & _ & [= <- <-])%bind_Some. simpl. split_and!; try done. intros. by case_match.
Qed.

(** A poll keeps the memory truthful, and one that faults for silence does so on
    the evidence of an unbroken stretch. *)
Lemma poll_remembers hist w t a o w' v :
  remembers hist w -> poll w t a o = Some (w', v) ->
  remembers ((EPoll t a o, v) :: hist) w' /\ config w' = config w /\ last_poll_ns w' = t /\
  (forall q c, v = Faulted (SilentWhileOutputRunning q c) ->
     unbroken ((EPoll t a o, v) :: hist) (t - c) /\
     dur_as_nanos_u64 (silence_timeout (config w)) <= c).
Proof.
  intros (Hb & Hn & Hc). unfold poll.
  destruct (baseline w) as [p|] eqn:Hbase; cycle 1.
  { intros [= <- <-]. specialize (Hn eq_refl). unfold remembers. simpl. rewrite Hn.
    split_and!; try done; [by intros a' [= <-]; eauto|].
    intros q c Hv. by apply starvation_not_silence in Hv. }
  destruct (Hb p eq_refl) as (o' & v' & rest & Hh).
  destruct ((frames p <=? frames a) && (buffers p <=? buffers a)) eqn:Hfb; cycle 1.
  { intros [= <- <-]. unfold remembers. simpl. split_and!; try done. by intros a' [= <-]; eauto. }
  set (w0 := mkWatchdog _ _ _ _ _ _ _ _).
  destruct (note_buffers_fields w0 t (last_poll_ns w) p a) as (Hcfg & Hbl & Hlp).
  pose proof (note_buffers_quiet w0 t (last_poll_ns w) p a) as Hquiet.
  pose proof (note_buffers_corroborated w0 t (last_poll_ns w) p a) as Hkept.
  set (w1 := note_buffers w0 t (last_poll_ns w) p a) in *.
  assert (Hcor : forall s, corroborated_since_ns w1 = Some s -> unbroken hist s).
  { intros s Hs. apply Hc. by destruct (Hkept s Hs ltac:(lia) ltac:(lia)). }
  assert (Hq : forall q, quiet_since_ns w1 = Some q -> silent_between p a).
  { intros q Hw1. by destruct (Hquiet q Hw1 ltac:(lia) ltac:(lia)). }
  assert (Hsil : silence_verdict w1 t (last_poll_ns w) o = Some (w', v) ->
    remembers ((EPoll t a o, v) :: hist) w' /\ config w' = config w /\ last_poll_ns w' = t /\
    (forall q c, v = Faulted (SilentWhileOutputRunning q c) ->
       unbroken ((EPoll t a o, v) :: hist) (t - c) /\
       dur_as_nanos_u64 (silence_timeout (config w)) <= c)).
  { intros Hs.
    destruct (silence_verdict_remembers hist w1 t a o (last_poll_ns w) p o' v' rest w' v Hh Hq Hcor Hs)
      as (Hc1 & Hb1 & Hl1 & Hu & Hf).
    rewrite Hcfg in Hc1, Hf. rewrite Hbl in Hb1. rewrite Hlp in Hl1. simpl in *.
    unfold remembers. rewrite Hb1, Hl1. split_and!; try done.
    - intros a' [= <-]. eauto.
    - intros q c Hv. destruct (Hf q c Hv) as [Hs' ?]. split; [by apply Hu | done]. }
  destruct (starvation_verdict w1 t o) as [| |f] eqn:Hstarve; [exact Hsil | exact Hsil |].
  intros [= <- <-]. unfold remembers. rewrite Hcfg, Hlp, Hbl. simpl. split_and!; try done.
  - intros a' [= <-]. eauto.
  - intros s Hs. pose proof (Hcor s Hs) as Hu. destruct (Hkept s Hs ltac:(lia) ltac:(lia)) as [Hsb _].
    rewrite Hh in Hu |- *. apply unbroken_more; [done | right | done].
    destruct f; [done|]. by apply starvation_not_silence in Hstarve.
  - intros q c [= ->]. by apply starvation_not_silence in Hstarve.
Qed.

Definition is_poll (e : WEvent) : Prop := match e with EPoll _ _ _ => True | _ => False end.

Lemma wrun_remembers hist w polls w' vs :
  remembers hist w -> Forall is_poll polls -> wrun w polls = Some (w', vs) ->
  remembers (reverse (zip polls vs) ++ hist) w' /\ config w' = config w.
Proof.
  revert hist w vs. induction polls as [|e polls IH]; intros hist w vs Hr Hp Hrun; simpl in *.
  - by injection Hrun as <- <-.
  - apply Forall_cons in Hp as [He Hp]. destruct e as [|t a o]; [done|]. simpl in Hrun.
    destruct (poll w t a o) as [[w1 v1]|] eqn:Hpoll; [|done]. simpl in Hrun.
    destruct (wrun w1 polls) as [[w2 v2]|] eqn:Hrun'; [|done]. simpl in Hrun.
    injection Hrun as <- <-.
    destruct (poll_remembers hist w t a o w1 v1 Hr Hpoll) as (Hr1 & Hc1 & _).
    destruct (IH ((EPoll t a o, v1) :: hist) w1 v2 Hr1 Hp Hrun') as [Hr2 Hc2].
    simpl. rewrite reverse_cons, <-app_assoc. simpl. by rewrite Hc2, Hc1.
Qed.

(** A fault's clock is bounded below by its threshold and above by the time
    the detector has been watching. *)
Lemma poll_fault_bounds lo w now a o w' f :
  clocks_ok lo w -> last_poll_ns w <= now -> 0 <= lo ->
  poll w now a o = Some (w', Faulted f) ->
  match f with
  | NoBuffers s d => dur_as_nanos_u64 (no_buffer_timeout (config w)) <= d <= now - lo
  | SilentWhileOutputRunning q c =>
      dur_as_nanos_u64 (silence_timeout (config w)) <= c <= now - lo
  end.
Proof.
  intros Hok Hn H0. pose proof Hok as (H1 & H2 & H3 & H4).
  assert (Hst : forall w1 f, lo <= armed_at_ns w1 -> config w1 = config w -> lo <= now ->
    starvation_verdict w1 now o = Faulted f ->
    exists s d, f = NoBuffers s d /\ dur_as_nanos_u64 (no_buffer_timeout (config w)) <= d <= now - lo).
  { intros w1 f1 Ha Hc Hl. unfold starvation_verdict. rewrite Hc.
    destruct (Z.ltb_spec (sat_sub now (Z.max (last_frames_ns w1) (armed_at_ns w1)))
                (dur_as_nanos_u64 (no_buffer_timeout (config w)))); [done|].
    case_match; [done|]. intros [= <-]. do 2 eexists. split; [done|]. mlia. }
  unfold poll. set (w0 := mkWatchdog (config w) (Some a) _ _ _ _ _ _).
  assert (Hbump : clocks_ok lo w0).
  { unfold clocks_ok. simpl. destruct (quiet_since_ns w), (corroborated_since_ns w); simpl in *; lia. }
  destruct (baseline w) as [p|].
  - case_match; [|done].
    destruct (note_buffers_ok lo w0 now (last_poll_ns w) p a eq_refl ltac:(lia) Hbump)
      as ((Ha & _ & _ & Hcor) & Hl & _ & Hc). simpl in *.
    set (w1 := note_buffers _ _ _ _ _) in *.
    assert (Hsil : silence_verdict w1 now (last_poll_ns w) o = Some (w', Faulted f) ->
      exists q c, f = SilentWhileOutputRunning q c /\
        dur_as_nanos_u64 (silence_timeout (config w)) <= c <= now - lo).
    { unfold silence_verdict. rewrite Hl in Hcor.
      destruct (quiet_since_ns w1) as [q|]; [|done].
      destruct o; simpl; intros (c & (Hle & ->)%checked_sub_inv & Hv)%bind_Some;
        [|by case_match..].
      destruct (Z.leb_spec (dur_as_nanos_u64 (silence_timeout (config w1)))
                  (now - get_or_insert (corroborated_since_ns w1) (last_poll_ns w))).
      - injection Hv as _ <-. do 2 eexists. split; [done|]. rewrite Hc in *. simpl in *.
        destruct (corroborated_since_ns w1); simpl in *; lia.
      - apply bind_Some in Hv as (n & _ & Hv). by case_match. }
    destruct (starvation_verdict w1 now o) as [| |f1] eqn:E.
    + intros (q & c & -> & ?)%Hsil. done.
    + intros (q & c & -> & ?)%Hsil. done.
    + intros [= <- ->]. destruct (Hst w1 f) as (s & d & -> & ?); try done; lia.
  - intros [= <- Hv]. destruct (Hst w0 f) as (s & d & -> & ?); try done; simpl; lia.
Qed.

Lemma wrun_snoc w es t a o w' vs v :
  wrun w (es ++ [EPoll t a o]) = Some (w', vs) -> last vs = Some v ->
  exists w1 vs1, wrun w es = Some (w1, vs1) /\ poll w1 t a o = Some (w', v) /\ vs = vs1 ++ [v].
Proof.
  rewrite wrun_app. intros Hrun Hl.
  destruct (wrun w es) as [[w1 vs1]|]; [|done]. simpl in Hrun.
  destruct (poll w1 t a o) as [[w2 v2]|] eqn:Hp; [|done]. simpl in Hrun.
  injection Hrun as <- <-. rewrite last_snoc in Hl. injection Hl as ->. eauto.
Qed.

Lemma wrun_snoc_nonempty w es t a o w' : wrun w (es ++ [EPoll t a o]) <> Some (w', []).
Proof.
  rewrite wrun_app. destruct (wrun w es) as [[w1 vs1]|]; [|done]. simpl.
  destruct (poll w1 t a o) as [[w2 v2]|]; [|done]. simpl. intros [= _ H].
  by destruct vs1.
Qed.

(** Counters as a live tap reports them while no frame arrives: the frame total
    stays at [f] and the buffer total, last [b], never falls. *)
Fixpoint starving (f b : Z) (es : list WEvent) : Prop :=
  match es with
  | [] => True
  | EPoll _ a _ :: es => frames a = f /\ b <= buffers a /\ starving f (buffers a) es
  | EArm _ :: _ => False
  end.

Definition starved_since (t0 f b : Z) (w : Watchdog) : Prop :=
  last_frames_ns w = t0 /\ armed_at_ns w = t0 /\
  match baseline w with Some a => frames a = f /\ buffers a = b | None => True end.

Lemma poll_starved t0 f b w t a o w' v :
  starved_since t0 f b w -> frames a = f -> b <= buffers a ->
  emits_silence_when_idle (config w) = true ->
  poll w t a o = Some (w', v) ->
  starved_since t0 f (buffers a) w' /\ config w' = config w /\
  (dur_as_nanos_u64 (no_buffer_timeout (config w)) <= t - t0 -> t0 <= t ->
     v = Faulted (NoBuffers t0 (t - t0))).
Proof.
  intros (Hl & Ha & Hb) Hf Hle He. unfold poll.
  set (w0 := mkWatchdog (config w) (Some a) _ _ _ _ _ _).
  assert (Hst : forall w1, last_frames_ns w1 = t0 -> armed_at_ns w1 = t0 -> config w1 = config w ->
    dur_as_nanos_u64 (no_buffer_timeout (config w)) <= t - t0 -> t0 <= t ->
    starvation_verdict w1 t o = Faulted (NoBuffers t0 (t - t0))).
  { intros w1 H1 H2 H3 Hd Ht. unfold starvation_verdict. rewrite H1, H2, H3, He.
    rewrite Z.max_id. unfold sat_sub. rewrite Z.max_r by lia.
    by rewrite (proj2 (Z.ltb_ge _ _)) by lia. }
  destruct (baseline w) as [p|].
  - destruct Hb as [Hpf Hpb].
    rewrite (proj2 (Z.leb_le (frames p) _)), (proj2 (Z.leb_le (buffers p) _)) by lia. simpl.
    set (w1 := note_buffers _ _ _ _ _).
    assert (H1 : last_frames_ns w1 = t0 /\ armed_at_ns w1 = t0 /\ config w1 = config w /\
                 baseline w1 = Some a).
    { unfold w1, note_buffers. rewrite Hf, Hpf, Z.sub_diag. simpl. by repeat case_match. }
    destruct H1 as (Hl1 & Ha1 & Hc1 & Hb1).
    assert (Hsil : silence_verdict w1 t (last_poll_ns w) o = Some (w', v) ->
              starved_since t0 f (buffers a) w' /\ config w' = config w).
    { unfold silence_verdict, starved_since. intros Hs.
      destruct (quiet_since_ns w1); [destruct o; simpl in Hs|];
        repeat match goal with
        | H : (_ ≫= _) = Some _ |- _ => apply bind_Some in H as (? & _ & H)
        | H : (if ?b then _ else _) = Some _ |- _ => destruct b
        end; injection Hs as <- <-; simpl; rewrite ?Hb1; done. }
    specialize (Hst w1 Hl1 Ha1 Hc1).
    destruct (starvation_verdict w1 t o) as [| |fl].
    + intros [? ?]%Hsil. split_and!; [done..|]. intros Hd Ht. by specialize (Hst Hd Ht).
    + intros [? ?]%Hsil. split_and!; [done..|]. intros Hd Ht. by specialize (Hst Hd Ht).
    + intros [= <- <-]. unfold starved_since. rewrite Hb1. done.
  - intros [= <- <-]. split_and!; [by repeat split | done | by apply Hst].
Qed.

(** ** Properties *)

(** The detector's arithmetic is safe.  Armed at any time and driven by a
    clock that never runs backwards, no sequence of polls and re-arms, whatever
    the counters and the platform report, makes [poll] underflow. *)
Theorem watchdog_never_underflows (w : Watchdog) (t0 : Z) (es : list WEvent) :
  0 <= t0 -> monotone_from t0 es -> exists w' vs, wrun (arm w t0) es = Some (w', vs).
Proof.
  intros H0 Hm. destruct (wrun_ok t0 (arm w t0) es) as (w' & vs & Hr & _); eauto.
  unfold clocks_ok. simpl. lia.
Qed.

Definition quiet_tap (n : Z) : TapActivity := mkTapActivity n n (480 * n).

Lemma watchdog_never_underflows_witness :
  exists w' vs, wrun (arm (watchdog_new config_default) 7)
    [EPoll 9 (quiet_tap 3) Active; EPoll 9 (quiet_tap 1) Idle; EArm 12] = Some (w', vs).
Proof. apply watchdog_never_underflows; simpl; lia. Defined.

(** C38: silence alone never condemns a tap.  Whatever the polls since the last
    arm, and whatever they reported, a poll that reports the silence fault ends one
    stretch of polls, at least the silence threshold long, in which no audible
    buffer arrived between consecutive polls, the first interval of which saw some
    process rendering output and every later poll either saw it too or was itself
    reported as starvation. *)
Theorem silence_fault_is_corroborated (w : Watchdog) (t0 : Z) (polls : list WEvent)
    (t : Z) (a : TapActivity) (o : OutputActivity) (w' : Watchdog) (vs : list Verdict) (q c : Z) :
  Forall is_poll polls ->
  wrun (arm w t0) (polls ++ [EPoll t a o]) =
    Some (w', vs ++ [Faulted (SilentWhileOutputRunning q c)]) ->
  unbroken ((EPoll t a o, Faulted (SilentWhileOutputRunning q c)) :: reverse (zip polls vs)) (t - c) /\
  dur_as_nanos_u64 (silence_timeout (config w)) <= c.
Proof.
  intros Hp Hrun.
  destruct (wrun_snoc _ _ _ _ _ _ _ (Faulted (SilentWhileOutputRunning q c)) Hrun)
    as (w1 & vs1 & Hrun1 & Hpoll & Hvs); [by rewrite last_snoc|].
  apply app_inj_tail in Hvs as [<- _].
  destruct (wrun_remembers [] (arm w t0) polls w1 vs) as [Hr Hc]; try done.
  rewrite app_nil_r in Hr. simpl in Hc.
  destruct (poll_remembers _ _ _ _ _ _ _ Hr Hpoll) as (_ & _ & _ & Hf).
  rewrite Hc in Hf. by apply (Hf q c).
Qed.

(** The state a run ends in. *)
Definition run_end (w : Watchdog) (es : list WEvent) : Watchdog := default w (fst <$> wrun w es).

Definition short_config : WatchdogConfig := mkWatchdogConfig 50 20 30 true.

Lemma silence_fault_is_corroborated_witness :
  unbroken [(EPoll 32 (quiet_tap 3) Active, Faulted (SilentWhileOutputRunning 10 22));
            (EPoll 20 (quiet_tap 2) Active, Healthy); (EPoll 10 (quiet_tap 1) Idle, Healthy)] (32 - 22) /\
  dur_as_nanos_u64 (silence_timeout (config (watchdog_new short_config))) <= 22.
Proof.
  apply (silence_fault_is_corroborated (watchdog_new short_config) 5
           [EPoll 10 (quiet_tap 1) Idle; EPoll 20 (quiet_tap 2) Active] 32 (quiet_tap 3) Active
           (run_end (arm (watchdog_new short_config) 5)
              [EPoll 10 (quiet_tap 1) Idle; EPoll 20 (quiet_tap 2) Active; EPoll 32 (quiet_tap 3) Active])
           [Healthy; Healthy] 10 22);
    [repeat constructor | vm_compute; reflexivity].
Defined.

(** The exception is real: a poll that reports starvation returns before it looks at
    the output, so one that finds it idle does not restart the corroborated run.
    Polled on without a new arm, the detector condemns the tap for a stretch across
    which the output was not running throughout. *)
Lemma starvation_keeps_corroboration :
  let t n f := mkTapActivity n n f in
  let polls := [EPoll 10 (t 1 480) Active; EPoll 20 (t 2 960) Active; EPoll 71 (t 2 960) Idle; EPoll 73 (t 3 1440) Active] in
  exists w vs, wrun (arm (watchdog_new (mkWatchdogConfig 50 60 30 true)) 5) polls = Some (w, vs) /\
    last vs = Some (Faulted (SilentWhileOutputRunning 10 63)).
Proof. eexists _, _. split; [vm_compute; reflexivity | reflexivity]. Qed.

(** A freshly built tap is not blamed for its predecessor.  Whatever state
    the detector was in, after an arm at [t0] no poll before both thresholds
    have elapsed since [t0] reports a fault. *)
Theorem arm_forgives (w : Watchdog) (t0 : Z) (polls : list WEvent) (w' : Watchdog)
    (vs : list Verdict) :
  0 <= t0 -> Forall is_poll polls -> monotone_from t0 polls ->
  (forall e, e ∈ polls -> event_time e - t0 < dur_as_nanos_u64 (no_buffer_timeout (config w))) ->
  (forall e, e ∈ polls -> event_time e - t0 < dur_as_nanos_u64 (silence_timeout (config w))) ->
  wrun (arm w t0) polls = Some (w', vs) ->
  Forall (fun v => is_fault v = false) vs.
Proof.
  intros H0 Hp Hm Hb Hs Hrun.
  assert (Hgen : forall w1 vs1, clocks_ok t0 w1 -> config w1 = config w ->
    monotone_from (last_poll_ns w1) polls -> wrun w1 polls = Some (w', vs1) ->
    Forall (fun v => is_fault v = false) vs1).
  { clear Hrun Hm vs. induction polls as [|e polls IH]; intros w1 vs1 Hok Hc Hm Hr; simpl in Hr.
    - by injection Hr as <- <-.
    - apply Forall_cons in Hp as [He Hp]. destruct e as [|t a o]; [done|]. destruct Hm as [Ht Hm].
      destruct (poll_ok t0 w1 t a o Hok Ht) as (w2 & v & Hpoll & Hok2 & Hl2 & _ & Hc2).
      simpl in Hr. rewrite Hpoll in Hr. simpl in Hr.
      destruct (wrun w2 polls) as [[w3 vs3]|] eqn:Hr'; [|done]. injection Hr as <- <-.
      constructor.
      + destruct v as [| |f]; [done..|].
        pose proof (poll_fault_bounds t0 w1 t a o w2 f Hok Ht H0 Hpoll) as Hbd.
        specialize (Hb (EPoll t a o) ltac:(left)). specialize (Hs (EPoll t a o) ltac:(left)).
        simpl in *. rewrite Hc in Hbd. destruct f; lia.
      + simpl in Hm. apply (IH Hp) with w2; try done.
        * intros e He'. apply Hb. by right.
        * intros e He'. apply Hs. by right.
        * by rewrite Hc2.
        * by rewrite Hl2. }
  apply (Hgen (arm w t0) vs); [unfold clocks_ok; simpl; lia | done..].
Qed.

Lemma arm_forgives_witness :
  Forall (fun v => is_fault v = false) [Healthy; Healthy].
Proof.
  apply (arm_forgives (watchdog_new short_config) 100
           [EPoll 105 (quiet_tap 1) Active; EPoll 119 (quiet_tap 2) Active]
           (run_end (arm (watchdog_new short_config) 100)
              [EPoll 105 (quiet_tap 1) Active; EPoll 119 (quiet_tap 2) Active]));
    [lia | repeat constructor | simpl; lia | | | vm_compute; reflexivity];
    intros e He; apply list_elem_of_In in He; simpl in He;
    destruct He as [<-|[<-|[]]]; vm_compute; reflexivity.
Defined.

(** A dead tap is caught.  On a platform that always delivers callbacks, if
    no frame arrives after an arm at [t0], then every poll at or past the
    timeout reports starvation, dating the hole from [t0] exactly. *)
Theorem starvation_is_caught (w : Watchdog) (t0 f b : Z) (polls : list WEvent)
    (t : Z) (a : TapActivity) (o : OutputActivity) (w' : Watchdog) (vs : list Verdict) (v : Verdict) :
  emits_silence_when_idle (config w) = true ->
  starving f b (polls ++ [EPoll t a o]) ->
  dur_as_nanos_u64 (no_buffer_timeout (config w)) <= t - t0 -> t0 <= t ->
  wrun (arm w t0) (polls ++ [EPoll t a o]) = Some (w', vs) -> last vs = Some v ->
  v = Faulted (NoBuffers t0 (t - t0)).
Proof.
  intros He Hst Hd Ht Hrun Hl.
  assert (Hgen : forall w1 b1 vs1, config w1 = config w -> starved_since t0 f b1 w1 ->
    starving f b1 (polls ++ [EPoll t a o]) -> wrun w1 (polls ++ [EPoll t a o]) = Some (w', vs1) ->
    last vs1 = Some v -> v = Faulted (NoBuffers t0 (t - t0))).
  { clear Hst Hrun Hl b vs. induction polls as [|e polls IH]; intros w1 b1 vs1 Hc Hs Hst Hr Hl.
    - simpl in *. destruct Hst as (Hf & Hb & _).
      destruct (poll w1 t a o) as [[w2 v2]|] eqn:Hp; [|done]. simpl in Hr.
      injection Hr as <- <-. injection Hl as ->.
      destruct (poll_starved t0 f b1 w1 t a o w2 v) as (_ & _ & Hv); try done; [by rewrite Hc|].
      rewrite Hc in Hv. by apply Hv.
    - destruct e as [|t1 a1 o1]; [done|]. destruct Hst as (Hf & Hb & Hst). simpl in Hr.
      destruct (poll w1 t1 a1 o1) as [[w2 v2]|] eqn:Hp; [|done]. simpl in Hr.
      destruct (wrun w2 (polls ++ [EPoll t a o])) as [[w3 v3]|] eqn:Hr'; [|done].
      simpl in Hr. injection Hr as <- <-.
      destruct (poll_starved t0 f b1 w1 t1 a1 o1 w2 v2) as (Hs2 & Hc2 & _); try done; [by rewrite Hc|].
      apply (IH w2 (buffers a1) v3); try done; [by rewrite Hc2|].
      destruct v3; [|done]. by apply wrun_snoc_nonempty in Hr'. }
  apply (Hgen (arm w t0) b vs); try done.
Qed.

Lemma starvation_is_caught_witness :
  Faulted (NoBuffers 100 55) = Faulted (NoBuffers 100 (155 - 100)).
Proof.
  apply (starvation_is_caught (watchdog_new short_config) 100 0 0
           [EPoll 110 (mkTapActivity 1 1 0) Idle] 155 (mkTapActivity 1 1 0) Idle
           (run_end (arm (watchdog_new short_config) 100)
              [EPoll 110 (mkTapActivity 1 1 0) Idle; EPoll 155 (mkTapActivity 1 1 0) Idle])
           [Healthy; Faulted (NoBuffers 100 55)]);
    [reflexivity | simpl; lia | vm_compute; discriminate | lia | vm_compute; reflexivity | reflexivity].
Defined.
