(* ===== verification/DeviceChange.v ===== *)
(** * fotw-audio: device changes

    Models [crates/fotw-audio/src/device_change.rs]: the kinds of change and
    their bit set, the lock-free mailbox [DeviceChangeSignal] between a platform
    listener and the supervisor, and the trailing-edge [Debounce] with its
    ceiling.

    The mailbox is two atomics.  A listener's [raise] is two atomic
    read-modify-writes, so its program is a list of two atomic operations, and
    the theorems quantify over every interleaving of any number of listener
    programs with the supervisor's takes.  Each claim concerns one of the two
    atomics, whose operations Rust orders totally whatever the [Ordering]. *)

From S2P Require Import Prelude.

Local Open Scope Z_scope.

Inductive DeviceChangeKind :=
| DefaultOutput
| DefaultInput
| DeviceList
| StreamFormat
| WillSleep
| DidWake.

#[export] Instance DeviceChangeKind_eq_dec : EqDecision DeviceChangeKind.
Proof. solve_decision. Defined.

Definition ALL : list DeviceChangeKind :=
  [DefaultOutput; DefaultInput; DeviceList; StreamFormat; WillSleep; DidWake].

Definition bit (k : DeviceChangeKind) : Z :=
  match k with
  | DefaultOutput => 1
  | DefaultInput => 2
  | DeviceList => 4
  | StreamFormat => 8
  | WillSleep => 16
  | DidWake => 32
  end.

Definition kind_as_str (k : DeviceChangeKind) : string :=
  match k with
  | DefaultOutput => "default-output"
  | DefaultInput => "default-input"
  | DeviceList => "device-list"
  | StreamFormat => "stream-format"
  | WillSleep => "will-sleep"
  | DidWake => "did-wake"
  end.

(** ** The set of pending changes, a [u32] mask *)

Definition DeviceChanges := Z.

Definition empty : DeviceChanges := 0.
Definition is_empty (self : DeviceChanges) : bool := self =? 0.
Definition contains (self : DeviceChanges) (kind : DeviceChangeKind) : bool :=
  negb (Z.land self (bit kind) =? 0).
Definition with_kind (self : DeviceChanges) (kind : DeviceChangeKind) : DeviceChanges :=
  Z.lor self (bit kind).
Definition of_kinds (kinds : list DeviceChangeKind) : DeviceChanges :=
  foldl with_kind empty kinds.
Definition intersects (self other : DeviceChanges) : bool :=
  negb (Z.land self other =? 0).
Definition kinds (self : DeviceChanges) : list DeviceChangeKind :=
  filter (fun k => contains self k = true) ALL.

(** [names.join("+")]. *)
Definition changes_to_string (self : DeviceChanges) : string :=
  String.concat "+" (kind_as_str <$> kinds self).

Example a_set_renders_its_members :
  changes_to_string (with_kind (with_kind empty DeviceList) DefaultOutput)
  = "default-output+device-list"%string.
Proof. reflexivity. Qed.

(** ** The mailbox *)

Record DeviceChangeSignal := mkSignal { pending : Z; raises : Z }.

Definition signal_new : DeviceChangeSignal := mkSignal 0 0.

(** The atomic operations a thread may perform on the mailbox. *)
Inductive Atomic :=
| FetchOr (bits : Z)
| FetchAdd (n : Z)
| SwapZero.

(** One atomic operation; [SwapZero] hands the old mask to its caller. *)
Definition atomic (self : DeviceChangeSignal) (op : Atomic) : DeviceChangeSignal * list DeviceChanges :=
  match op with
  | FetchOr bits => (mkSignal (Z.lor (pending self) bits) (raises self), [])
  | FetchAdd n => (mkSignal (pending self) ((raises self + n) mod 2 ^ 64), [])
  | SwapZero => (mkSignal 0 (raises self), [pending self])
  end.

Definition raise (kind : DeviceChangeKind) : list Atomic := [FetchOr (bit kind); FetchAdd 1].
Definition take_changes : list Atomic := [SwapZero].
Definition peek (self : DeviceChangeSignal) : DeviceChanges := pending self.
Definition raises_total (self : DeviceChangeSignal) : Z := raises self.

(** A listener thread raises its changes one after the other. *)
Definition listener (ks : list DeviceChangeKind) : list Atomic := ks ≫= raise.
(** The supervisor takes [n] times. *)
Definition supervisor (n : nat) : list Atomic := concat (replicate n take_changes).

(** Every schedule of a set of threads: at each step some thread that has an
    operation left performs it. *)
Inductive interleave {A} : list (list A) -> list A -> Prop :=
| interleave_done ps : Forall (fun p => p = []) ps -> interleave ps []
| interleave_step ps qs op p evs :
    interleave (ps ++ p :: qs) evs -> interleave (ps ++ (op :: p) :: qs) (op :: evs).

(** ** The debounce *)

Record Debounce := mkDebounce {
  quiet : Duration;
  ceiling : Duration;
  first_ns : option Z;
  last_ns : Z;
}.

Definition debounce_new (quiet ceiling : Duration) : Debounce := mkDebounce quiet ceiling None 0.

Definition signal (self : Debounce) (now_ns : Z) : Debounce :=
  mkDebounce (quiet self) (ceiling self)
    (if is_some (first_ns self) then first_ns self else Some now_ns) now_ns.

Definition is_pending (self : Debounce) : bool := is_some (first_ns self).

Definition clear (self : Debounce) : Debounce :=
  mkDebounce (quiet self) (ceiling self) None (last_ns self).

Definition poll (self : Debounce) (now_ns : Z) : Debounce * bool :=
  match first_ns self with
  | None => (self, false)
  | Some first =>
      let quiet_enough := dur_as_nanos_u64 (quiet self) <=? sat_sub now_ns (last_ns self) in
      let waited_enough := dur_as_nanos_u64 (ceiling self) <=? sat_sub now_ns first in
      if quiet_enough || waited_enough then (clear self, true) else (self, false)
  end.

(** A use of the debounce: the calls made on it, in order.  The output is the
    list of times at which a poll answered [true]. *)
Inductive Call :=
| Signal (now_ns : Z)
| Poll (now_ns : Z)
| Clear.

Definition call (self : Debounce) (c : Call) : Debounce * list Z :=
  match c with
  | Signal now_ns => (signal self now_ns, [])
  | Poll now_ns => let '(d, fired) := poll self now_ns in (d, if fired then [now_ns] else [])
  | Clear => (clear self, [])
  end.

#[export] Instance Call_eq_dec : EqDecision Call.
Proof. solve_decision. Defined.

(** The times signalled in a list of calls. *)
Definition signals (calls : list Call) : list Z :=
  omap (fun c => match c with Signal t => Some t | _ => None end) calls.

(** ** The set laws *)

(** Membership is a test of the kind's own bit. *)
Definition index (k : DeviceChangeKind) : Z :=
  match k with
  | DefaultOutput => 0 | DefaultInput => 1 | DeviceList => 2
  | StreamFormat => 3 | WillSleep => 4 | DidWake => 5
  end.

Lemma bit_pow2 k : bit k = 2 ^ index k.
Proof. by destruct k. Qed.

Lemma index_range k : 0 <= index k < 6.
Proof. destruct k; simpl; lia. Qed.

Lemma index_inj k k' : index k = index k' -> k = k'.
Proof. destruct k, k'; simpl; (done || lia). Qed.

Lemma contains_testbit m k : contains m k = Z.testbit m (index k).
Proof.
  unfold contains. rewrite bit_pow2. pose proof (index_range k) as Hk.
  destruct (Z.eqb_spec (Z.land m (2 ^ index k)) 0) as [E|E]; simpl.
  - apply (f_equal (fun z => Z.testbit z (index k))) in E.
    rewrite Z.land_spec, Z.pow2_bits_true, Z.bits_0, andb_true_r in E by lia. done.
  - destruct (Z.testbit m (index k)) eqn:Hb; [done|]. destruct E.
    apply Z.bits_inj'. intros n Hn. rewrite Z.land_spec, Z.pow2_bits_eqb, Z.bits_0 by lia.
    destruct (Z.eqb_spec (index k) n) as [<-|]; [by rewrite Hb | apply andb_false_r].
Qed.

Lemma contains_bit k' k : contains (bit k') k = bool_decide (k = k').
Proof. by destruct k', k. Qed.

Lemma contains_lor m m' k : contains (Z.lor m m') k = contains m k || contains m' k.
Proof. rewrite !contains_testbit. apply Z.lor_spec. Qed.

Lemma contains_foldl ks m k :
  contains (foldl with_kind m ks) k = contains m k || bool_decide (k ∈ ks).
Proof.
  revert m. induction ks as [|k' ks IH]; intros m; cbn [foldl].
  - by rewrite (bool_decide_eq_false_2 (k ∈ [])), orb_false_r by apply not_elem_of_nil.
  - rewrite IH. unfold with_kind. rewrite contains_lor, contains_bit, <-orb_assoc. f_equal.
    rewrite <-bool_decide_or. apply bool_decide_ext. by rewrite elem_of_cons.
Qed.

Lemma elem_of_kinds m k : k ∈ kinds m <-> contains m k = true.
Proof.
  unfold kinds. rewrite list_elem_of_filter. split; [tauto|]. intros H. split; [done|].
  apply list_elem_of_In. destruct k; simpl; tauto.
Qed.

(** A mask below [2^6] is determined by the kinds it contains. *)
Lemma changes_ext m m' :
  0 <= m < 64 -> 0 <= m' < 64 -> (forall k, contains m k = contains m' k) -> m = m'.
Proof.
  intros Hm Hm' H. apply Z.bits_inj'. intros n Hn.
  destruct (decide (n < 6)) as [Hlt|Hge].
  - assert (exists k, index k = n) as [k <-].
    { assert (n = 0 \/ n = 1 \/ n = 2 \/ n = 3 \/ n = 4 \/ n = 5) as Hcase by lia.
      destruct Hcase as [->|[->|[->|[->|[->| ->]]]]];
        [by exists DefaultOutput | by exists DefaultInput | by exists DeviceList
        | by exists StreamFormat | by exists WillSleep | by exists DidWake]. }
    rewrite <-!contains_testbit. apply H.
  - rewrite <-(Z.mod_small m (2 ^ 6)), <-(Z.mod_small m' (2 ^ 6)) by (simpl; lia).
    by rewrite !Z.mod_pow2_bits_high by lia.
Qed.

Lemma lor_bound a b : 0 <= a < 64 -> 0 <= b < 64 -> 0 <= Z.lor a b < 64.
Proof.
  intros Ha Hb. assert (Hnn : 0 <= Z.lor a b) by (apply Z.lor_nonneg; lia). split; [done|].
  rewrite <-(Z.mod_small a (2 ^ 6)), <-(Z.mod_small b (2 ^ 6)) by (simpl; lia).
  rewrite <-!Z.land_ones, <-Z.land_lor_distr_l, Z.land_ones by lia.
  apply (Z.mod_pos_bound _ (2 ^ 6)). lia.
Qed.

Lemma bit_bound k : 0 <= bit k < 64.
Proof. destruct k; simpl; lia. Qed.

Lemma foldl_with_bound ks m : 0 <= m < 64 -> 0 <= foldl with_kind m ks < 64.
Proof.
  revert m. induction ks as [|k ks IH]; intros m Hm; [done|].
  apply IH, lor_bound; [done | apply bit_bound].
Qed.

#[export] Hint Resolve bit_bound lor_bound foldl_with_bound : fotw.

(** A [DeviceChanges] mask is exactly a finite set of kinds.  [of] contains
    precisely the kinds it was given, whatever their order and repetition, and
    stays inside the six bits; [kinds] lists precisely the members, each once,
    so rebuilding a six-bit mask from its listing gives the same mask; and two
    masks intersect exactly when some kind is in both. *)
Theorem changes_are_sets (ks : list DeviceChangeKind) (m m' : DeviceChanges) :
  0 <= m < 64 -> 0 <= m' < 64 ->
  (forall k, contains (of_kinds ks) k = bool_decide (k ∈ ks)) /\
  0 <= of_kinds ks < 64 /\
  of_kinds (kinds m) = m /\ NoDup (kinds m) /\
  (is_empty m = true <-> kinds m = []) /\
  (intersects m m' = true <-> exists k, contains m k = true /\ contains m' k = true).
Proof.
  intros Hm Hm'. assert (Hof : forall ks k, contains (of_kinds ks) k = bool_decide (k ∈ ks)).
  { intros ks' k. unfold of_kinds. by rewrite contains_foldl. }
  assert (Hrt : of_kinds (kinds m) = m).
  { apply changes_ext; [apply foldl_with_bound; unfold empty; lia | done|]. intros k.
    rewrite Hof. apply Bool.eq_true_iff_eq. rewrite bool_decide_eq_true. apply elem_of_kinds. }
  split_and!; auto; try (apply foldl_with_bound; unfold empty; lia).
  - apply NoDup_filter. apply (bool_decide_unpack _). reflexivity.
  - unfold is_empty. rewrite Z.eqb_eq. split; [by intros ->|]. intros E. by rewrite <-Hrt, E.
  - assert (Hx : forall k, contains (Z.land m m') k = contains m k && contains m' k).
    { intros k. rewrite !contains_testbit. apply Z.land_spec. }
    unfold intersects. rewrite negb_true_iff, Z.eqb_neq. split.
    + intros Hne. destruct (kinds (Z.land m m')) as [|k l] eqn:E.
      * destruct Hne. apply changes_ext; [|lia|].
        { rewrite <-(Z.mod_small m' (2 ^ 6)) by (simpl; lia).
          rewrite <-Z.land_ones, Z.land_assoc, Z.land_ones by lia.
          apply (Z.mod_pos_bound _ (2 ^ 6)). lia. }
        intros k. destruct (contains (Z.land m m') k) eqn:Hk; [|by destruct k].
        apply elem_of_kinds in Hk. rewrite E in Hk. by apply not_elem_of_nil in Hk.
      * exists k. apply andb_true_iff. rewrite <-Hx. apply elem_of_kinds. rewrite E. left.
    + intros [k Hk] E. apply andb_true_iff in Hk. rewrite <-Hx, E in Hk. by destruct k.
Qed.

Lemma changes_are_sets_witness :
  0 <= 5 < 64 /\ of_kinds (kinds 5) = 5 /\
  (intersects 5 4 = true <-> exists k, contains 5 k = true /\ contains 4 k = true).
Proof. split; [lia|]. split; apply (changes_are_sets [DefaultOutput] 5 4); lia. Defined.

(** ** The mailbox *)

Lemma interleave_Permutation {A} (ps : list (list A)) evs :
  interleave ps evs -> evs ≡ₚ concat ps.
Proof.
  induction 1 as [ps Hps|ps qs op p evs _ IH].
  - induction Hps as [|p ps -> _ IH]; [done | exact IH].
  - rewrite IH, !concat_app. simpl. by rewrite <-Permutation_middle.
Qed.

Lemma elem_of_concat {A} (x : A) ll : x ∈ concat ll <-> exists l, x ∈ l /\ l ∈ ll.
Proof.
  rewrite list_elem_of_In, in_concat. setoid_rewrite list_elem_of_In. firstorder.
Qed.

(** An operation puts a kind in the mailbox. *)
Definition puts (k : DeviceChangeKind) (op : Atomic) : Prop :=
  match op with FetchOr bits => contains bits k = true | _ => False end.

(** Nothing enters or leaves the mailbox and the taken masks together but by a
    [FetchOr]. *)
Lemma run_atomic_conserves evs s k :
  (contains (peek (run atomic s evs).1) k = true \/
     exists m, m ∈ (run atomic s evs).2 /\ contains m k = true)
  <-> contains (peek s) k = true \/ exists op, op ∈ evs /\ puts k op.
Proof.
  revert s. induction evs as [|op evs IH]; intros s.
  - simpl. split; (intros [?|(?&[]%not_elem_of_nil&_)]; by left).
  - rewrite run_cons. cbn [fst snd]. setoid_rewrite elem_of_app. setoid_rewrite elem_of_cons.
    specialize (IH (atomic s op).1).
    assert (Hop : contains (peek (atomic s op).1) k = true \/
        (exists m, m ∈ (atomic s op).2 /\ contains m k = true)
      <-> contains (peek s) k = true \/ puts k op).
    { unfold peek. destruct op; cbn [atomic fst snd pending puts].
      - rewrite contains_lor, orb_true_iff. split; [|tauto].
        intros [?|(?&[]%not_elem_of_nil&_)]; tauto.
      - split; [|tauto]. intros [?|(?&[]%not_elem_of_nil&_)]; tauto.
      - setoid_rewrite list_elem_of_singleton. split.
        + intros [H|(?&->&?)]; [by destruct k | by left].
        + intros [H|[]]. right. by eexists. }
    split.
    + intros [H|(m&[Hm|Hm]&Hk)].
      * destruct (proj1 IH (or_introl H)) as [H'|(o&?&?)]; [|right; exists o; tauto].
        destruct (proj1 Hop (or_introl H')); [by left | right; by exists op; tauto].
      * destruct (proj1 Hop (or_intror (ex_intro _ m (conj Hm Hk)))); [by left|].
        right. exists op. tauto.
      * destruct (proj1 IH (or_intror (ex_intro _ m (conj Hm Hk)))) as [H'|(o&?&?)];
          [|right; exists o; tauto].
        destruct (proj1 Hop (or_introl H')); [by left | right; by exists op; tauto].
    + intros H. assert (Hsplit : (contains (peek s) k = true \/ puts k op) \/
        exists o, o ∈ evs /\ puts k o).
      { destruct H as [?|(o&[->|?]&?)]; [tauto | tauto | right; by exists o]. }
      destruct Hsplit as [H1|H1].
      * apply Hop in H1 as [H1|(m&?&?)]; [|right; exists m; tauto].
        destruct (proj2 IH (or_introl H1)) as [?|(m&?&?)]; [by left | right; exists m; tauto].
      * destruct (proj2 IH (or_intror H1)) as [?|(m&?&?)]; [by left | right; exists m; tauto].
Qed.

(** What an operation adds to the counter, and whether it takes. *)
Definition adds (op : Atomic) : Z := match op with FetchAdd n => n | _ => 0 end.
Definition takes (op : Atomic) : bool := match op with SwapZero => true | _ => false end.

Lemma run_atomic_counts evs s :
  0 <= raises s < 2 ^ 64 ->
  raises (run atomic s evs).1 = (raises s + zsum (adds <$> evs)) mod 2 ^ 64 /\
  length (run atomic s evs).2 = length (filter (fun op => takes op = true) evs).
Proof.
  revert s. induction evs as [|op evs IH]; intros s Hs.
  - simpl. rewrite Z.add_0_r, Z.mod_small by lia. done.
  - rewrite run_cons, fmap_cons, zsum_cons, filter_cons. cbn [fst snd]. rewrite length_app.
    destruct (IH (atomic s op).1) as [IH1 IH2].
    { destruct op; simpl; try lia. apply Z.mod_pos_bound. lia. }
    rewrite IH1, IH2. destruct op; simpl; split; try done.
    rewrite Zplus_mod_idemp_l. f_equal. lia.
Qed.

Lemma elem_of_listener op ks :
  op ∈ listener ks <-> exists k, k ∈ ks /\ (op = FetchOr (bit k) \/ op = FetchAdd 1).
Proof.
  unfold listener. rewrite list_elem_of_bind. unfold raise.
  setoid_rewrite elem_of_cons. setoid_rewrite list_elem_of_singleton. naive_solver.
Qed.

Lemma supervisor_replicate n : supervisor n = replicate n SwapZero.
Proof. unfold supervisor. induction n as [|n IH]; [done|]. simpl. by rewrite IH. Qed.

Lemma listener_counts ks :
  zsum (adds <$> listener ks) = zlen ks /\
  filter (fun op => takes op = true) (listener ks) = [].
Proof.
  unfold listener, zlen. induction ks as [|k ks [IH1 IH2]]; [done|].
  rewrite bind_cons. csimpl. rewrite IH1, !filter_cons. simpl. split; [lia | done].
Qed.

Lemma listeners_count ls :
  zsum (adds <$> concat (listener <$> ls)) = zlen (concat ls) /\
  filter (fun op => takes op = true) (concat (listener <$> ls)) = [].
Proof.
  induction ls as [|ks ls [IH1 IH2]]; [done|]. csimpl.
  destruct (listener_counts ks) as [H1 H2].
  by rewrite fmap_app, zsum_app, filter_app, zlen_app, H1, H2, IH1, IH2.
Qed.

Lemma supervisor_counts n :
  zsum (adds <$> supervisor n) = 0 /\
  length (filter (fun op => takes op = true) (supervisor n)) = n.
Proof.
  rewrite supervisor_replicate. induction n as [|n [IH1 IH2]]; [done|].
  cbn [replicate]. rewrite fmap_cons, zsum_cons, filter_cons. simpl. by rewrite IH1, IH2.
Qed.

(** However any number of listener threads are scheduled against the
    supervisor's takes, at the granularity of single atomic operations, no
    raised change is lost and none is invented: a kind was raised by some
    listener exactly when it is in one of the masks the supervisor took or still
    pending.  The counter ends at the exact number of notifications (modulo
    [2^64]), and every take returned one mask. *)
Theorem no_raise_is_lost (ls : list (list DeviceChangeKind)) (n : nat) evs :
  interleave (supervisor n :: (listener <$> ls)) evs ->
  let s := (run atomic signal_new evs).1 in
  let taken := (run atomic signal_new evs).2 in
  (forall k, k ∈ concat ls <->
     contains (peek s) k = true \/ exists m, m ∈ taken /\ contains m k = true) /\
  raises_total s = zlen (concat ls) mod 2 ^ 64 /\ length taken = n.
Proof.
  intros Hp%interleave_Permutation s taken. simpl in Hp.
  destruct (run_atomic_counts evs signal_new) as [Hr Ht]; [simpl; lia|].
  destruct (supervisor_counts n) as [Hs1 Hs2], (listeners_count ls) as [Hl1 Hl2].
  split_and!.
  - intros k. unfold s, taken. rewrite run_atomic_conserves. split.
    + intros Hk. right. exists (FetchOr (bit k)). split; [|simpl; by destruct k].
      rewrite Hp. apply elem_of_app. right. apply elem_of_concat in Hk as (ks&Hk&Hks).
      apply elem_of_concat. exists (listener ks).
      rewrite elem_of_listener. split; [by exists k; auto|]. by apply list_elem_of_fmap_2.
    + intros [H|(op&Hop&Hk)]; [by destruct k|]. rewrite Hp in Hop.
      apply elem_of_app in Hop as [Hop|Hop].
      * rewrite supervisor_replicate in Hop. apply elem_of_replicate in Hop as [-> _]. done.
      * apply elem_of_concat in Hop as (p&Hop&(ks&->&Hks)%list_elem_of_fmap).
        apply elem_of_listener in Hop as (k'&Hk'&[->| ->]); [|done]. simpl in Hk.
        rewrite contains_bit, bool_decide_eq_true in Hk. subst k'.
        apply elem_of_concat. by exists ks.
  - unfold raises_total, s. rewrite Hr. cbn [raises signal_new]. f_equal.
    rewrite (zsum_perm _ _ (fmap_Permutation adds _ _ Hp)), fmap_app, zsum_app. lia.
  - unfold taken. rewrite Ht, (Permutation_length (filter_Permutation _ _ _ Hp)).
    rewrite filter_app, length_app, Hl2, Hs2. simpl. lia.
Qed.

Lemma no_raise_is_lost_witness :
  let evs := [FetchOr (bit DeviceList); FetchOr (bit DefaultOutput); SwapZero;
              FetchAdd 1; FetchAdd 1] in
  interleave (supervisor 1 :: (listener <$> [[DefaultOutput]; [DeviceList]])) evs /\
  raises_total (run atomic signal_new evs).1 = 2.
Proof.
  intros evs.
  assert (H : interleave (supervisor 1 :: (listener <$> [[DefaultOutput]; [DeviceList]])) evs).
  { apply (interleave_step [_; _] [] _ [_]), (interleave_step [_] [_] _ [_]),
      (interleave_step [] [_; _] _ []), (interleave_step [_] [_] _ []),
      (interleave_step [_; _] [] _ []). constructor. repeat constructor. }
  split; [exact H|].
  exact (proj1 (proj2 (no_raise_is_lost [[DefaultOutput]; [DeviceList]] 1 evs H))).
Defined.

(** What a listener may do to the mailbox. *)
Definition listener_op (op : Atomic) : Prop :=
  (exists k, op = FetchOr (bit k)) \/ op = FetchAdd 1.

Lemma run_listener_ops mid s :
  Forall listener_op mid -> (run atomic s mid).2 = [].
Proof.
  intros H. revert s. induction H as [|op mid Hop _ IH]; intros s; [done|].
  rewrite run_cons. cbn [snd]. rewrite IH. destruct Hop as [[k ->]| ->]; done.
Qed.

(** One physical event is one rebuild.  Whatever listeners do between two
    takes, the second returns exactly the kinds raised since the first: nothing
    raised in between is missing, and nothing already taken comes back. *)
Theorem take_returns_what_was_raised (s : DeviceChangeSignal) (mid : list Atomic) :
  Forall listener_op mid ->
  exists m, (run atomic s (take_changes ++ mid ++ take_changes)).2 = [peek s; m] /\
    forall k, contains m k = true <-> FetchOr (bit k) ∈ mid.
Proof.
  intros Hmid. set (s0 := (run atomic s take_changes).1).
  exists (peek (run atomic s0 mid).1). split.
  - rewrite run_app. cbn [snd]. fold s0. rewrite run_app. cbn [snd].
    by rewrite (run_listener_ops mid s0 Hmid).
  - intros k. pose proof (run_atomic_conserves mid s0 k) as Hc.
    rewrite run_listener_ops in Hc by done. split.
    + intros Hk. destruct (proj1 Hc (or_introl Hk)) as [H|(op&Hop&Hputs)]; [by destruct k|].
      rewrite Forall_forall in Hmid. destruct (Hmid op Hop) as [[k' ->]| ->]; [|done].
      simpl in Hputs. rewrite contains_bit, bool_decide_eq_true in Hputs. by subst.
    + intros Hk. destruct (proj2 Hc) as [H|(m&[]%not_elem_of_nil&_)]; [|done].
      right. exists (FetchOr (bit k)). split; [done|]. simpl. by destruct k.
Qed.

Lemma take_returns_what_was_raised_witness :
  exists m, (run atomic (mkSignal 1 7)
     (take_changes ++ [FetchOr (bit DidWake); FetchAdd 1] ++ take_changes)).2 = [1; m] /\
    forall k, contains m k = true <-> FetchOr (bit k) ∈ [FetchOr (bit DidWake); FetchAdd 1].
Proof.
  apply (take_returns_what_was_raised (mkSignal 1 7) [FetchOr (bit DidWake); FetchAdd 1]).
  constructor; [left; by exists DidWake | constructor; [by right | constructor]].
Defined.

(** ** The debounce *)

Lemma signals_app a b : signals (a ++ b) = signals a ++ signals b.
Proof. apply omap_app. Qed.

Lemma poll_cases d t : poll d t = (d, false) \/ poll d t = (clear d, true).
Proof. unfold poll. destruct (first_ns d); [destruct (_ || _)|]; auto. Qed.

Lemma run_call_config calls d :
  ceiling (run call d calls).1 = ceiling d.
Proof.
  revert d. induction calls as [|e calls IH]; intros d; [done|].
  rewrite run_cons. cbn [fst]. rewrite IH. destruct e as [t|t|]; [done| |done].
  cbn [call]. by destruct (poll_cases d t) as [-> | ->].
Qed.

(** The debounce's memory is the pending burst: the signals since it last was
    idle, none of which has been acted on. *)
Definition burst_of (q c : Duration) (calls : list Call) (d : Debounce) : Prop :=
  quiet d = q /\ ceiling d = c /\
  exists pre mid, calls = pre ++ mid /\
    first_ns (run call (debounce_new q c) pre).1 = None /\
    (Clear ∉ mid) /\ (run call (run call (debounce_new q c) pre).1 mid).2 = [] /\
    first_ns d = head (signals mid) /\
    (first_ns d = None -> mid = []) /\
    (forall t, last (signals mid) = Some t -> last_ns d = t).

Lemma debounce_burst q c calls :
  burst_of q c calls (run call (debounce_new q c) calls).1.
Proof.
  induction calls as [|e calls IH] using rev_ind.
  { unfold burst_of. simpl. split_and!; try done. exists [], []. split_and!; try done.
    apply not_elem_of_nil. }
  destruct IH as (Hq&Hc&pre&mid&Heq&Hpre&Hnc&Hquiet&Hfirst&Hnone&Hlast).
  rewrite run_app. cbn [fst]. set (d := (run call (debounce_new q c) calls).1) in *.
  assert (Hd : (run call (run call (debounce_new q c) pre).1 mid).1 = d).
  { unfold d. rewrite Heq, run_app. done. }
  rewrite run_cons. cbn [run fst snd].
  assert (Hreset : first_ns (call d e).1 = None -> quiet (call d e).1 = q ->
    ceiling (call d e).1 = c -> burst_of q c (calls ++ [e]) (call d e).1).
  { intros Hn Hq' Hc'. split_and!; [done..|]. exists (calls ++ [e]), [].
    rewrite app_nil_r. split_and!; try done.
    - rewrite run_app. cbn [fst]. rewrite run_cons. exact Hn.
    - apply not_elem_of_nil. }
  destruct e as [t|t|].
  - split_and!; [done..|]. exists pre, (mid ++ [Signal t]).
    rewrite app_assoc, <-Heq, signals_app. cbn [call fst signal first_ns last_ns is_some].
    split_and!; try done.
    + rewrite not_elem_of_app, list_elem_of_singleton. done.
    + rewrite run_app. cbn [snd]. rewrite Hquiet, run_cons. done.
    + rewrite Hfirst. destruct (signals mid); done.
    + destruct (first_ns d); done.
    + intros t'. rewrite last_app. simpl. congruence.
  - destruct (poll_cases d t) as [Hp|Hp].
    + destruct (first_ns d) as [f|] eqn:Hf.
      * cbn [call]. rewrite Hp. cbn [fst]. split_and!; [done..|]. exists pre, (mid ++ [Poll t]).
        rewrite app_assoc, <-Heq, signals_app, app_nil_r. split_and!; try done.
        -- rewrite not_elem_of_app, list_elem_of_singleton. done.
        -- rewrite run_app. cbn [snd]. rewrite Hquiet, Hd, run_cons. cbn [call]. by rewrite Hp.
        -- congruence.
        -- congruence.
      * apply Hreset; cbn [call]; rewrite Hp; done.
    + apply Hreset; cbn [call]; rewrite Hp; done.
  - apply Hreset; done.
Qed.

(** Through calls that neither clear nor fire, the first signal is kept and the
    last one tracked. *)
Lemma quiet_run_keeps mid d f :
  first_ns d = Some f -> Clear ∉ mid -> (run call d mid).2 = [] ->
  first_ns (run call d mid).1 = Some f /\
  last_ns (run call d mid).1 = default (last_ns d) (last (signals mid)).
Proof.
  revert d. induction mid as [|e mid IH]; intros d Hf Hnc Hq; [done|].
  rewrite run_cons in *. cbn [fst snd] in *. apply app_eq_nil in Hq as [He Hq].
  apply not_elem_of_cons in Hnc as [Hne Hnc].
  destruct (IH (call d e).1) as [H1 H2]; [| done | done |].
  - destruct e as [t|t|]; [by simpl; rewrite Hf | | done]. revert He. cbn [call].
    unfold poll. rewrite Hf. by destruct (_ || _).
  - rewrite H1, H2. split; [done|]. destruct e as [t|t|]; [| |done].
    + cbn [call fst signal last_ns]. change (signals (Signal t :: mid)) with ([t] ++ signals mid).
      rewrite last_app. by destruct (last (signals mid)).
    + revert He. change (signals (Poll t :: mid)) with (signals mid). cbn [call].
      unfold poll. rewrite Hf. by destruct (_ || _).
Qed.

Lemma quiet_run_remembers mid d f l :
  first_ns d = None -> Clear ∉ mid -> (run call d mid).2 = [] ->
  head (signals mid) = Some f -> last (signals mid) = Some l ->
  first_ns (run call d mid).1 = Some f /\ last_ns (run call d mid).1 = l.
Proof.
  revert d. induction mid as [|e mid IH]; intros d Hf Hnc Hq Hh Hl; [done|].
  rewrite run_cons in *. cbn [fst snd] in *. apply app_eq_nil in Hq as [He Hq].
  apply not_elem_of_cons in Hnc as [Hne Hnc].
  destruct e as [t|t|]; [| |done].
  - change (signals (Signal t :: mid)) with ([t] ++ signals mid) in Hh, Hl. simplify_eq/=.
    assert (Hf' : first_ns (signal d f) = Some f) by (simpl; by rewrite Hf).
    destruct (quiet_run_keeps mid (signal d f) f) as [H1 H2]; [done..|].
    rewrite H1, H2. split; [done|]. change (f :: signals mid) with ([f] ++ signals mid) in Hl.
    rewrite last_app in Hl. destruct (last (signals mid)); simplify_eq/=; done.
  - change (signals (Poll t :: mid)) with (signals mid) in Hh, Hl.
    apply IH; try done. cbn [call]. unfold poll. by rewrite Hf.
Qed.

(** A rebuild is never hasty and never repeated.  When a poll at [t] fires,
    the calls before it end in a burst [mid] that starts from an idle debounce,
    was neither cleared nor acted on, and contains at least one signal; and
    either the last signal of the burst is at least the quiet window old or its
    first is at least the ceiling old.  Conversely a poll after such a burst
    does fire. *)
Theorem debounce_fires_for_one_settled_burst (q c : Duration) (calls : list Call) (t : Z) :
  (call (run call (debounce_new q c) calls).1 (Poll t)).2 = [t] <->
  exists pre mid first lst,
    calls = pre ++ mid /\
    is_pending (run call (debounce_new q c) pre).1 = false /\
    (Clear ∉ mid) /\ (run call (run call (debounce_new q c) pre).1 mid).2 = [] /\
    head (signals mid) = Some first /\ last (signals mid) = Some lst /\
    (dur_as_nanos_u64 q <= sat_sub t lst \/ dur_as_nanos_u64 c <= sat_sub t first).
Proof.
  destruct (debounce_burst q c calls) as (Hq&Hc&pre&mid&Heq&Hpre&Hnc&Hquiet&Hfirst&Hnone&Hlast).
  set (d := (run call (debounce_new q c) calls).1) in *.
  cbn [call]. unfold poll. rewrite Hq, Hc. split.
  - destruct (first_ns d) as [f|] eqn:Hf; [|done].
    destruct (_ || _) eqn:Hfire; [|done]. intros _. apply orb_true_iff in Hfire.
    rewrite !Z.leb_le in Hfire.
    destruct (last (signals mid)) as [l|] eqn:Hl.
    + exists pre, mid, f, l. rewrite (Hlast l eq_refl) in Hfire.
      unfold is_pending. by rewrite Hpre.
    + apply last_None in Hl. by rewrite Hl in Hfirst.
  - intros (pre'&mid'&f&l&Heq'&Hpre'&Hnc'&Hquiet'&Hf'&Hl'&Hdue).
    assert (Hd : d = (run call (run call (debounce_new q c) pre').1 mid').1).
    { unfold d. by rewrite Heq', run_app. }
    destruct (quiet_run_remembers mid' (run call (debounce_new q c) pre').1 f l) as [Hf2 Hl2];
      [unfold is_pending in Hpre'; by destruct (first_ns (run _ _ pre').1) | done..|].
    rewrite <-Hd in Hf2, Hl2. rewrite Hf2, Hl2.
    rewrite (proj2 (orb_true_iff _ _)); [done|]. rewrite !Z.leb_le. exact Hdue.
Qed.

(** C40: A chattering device cannot postpone the rebuild forever.  Once a signal
    at [t0] has opened a burst, whatever further signals and polls follow at
    whatever times, a poll at or after [t0] plus the ceiling, or some poll
    before it, fires. *)
Theorem debounce_meets_its_ceiling (d : Debounce) (t0 t : Z) (calls : list Call) :
  is_pending d = false -> Clear ∉ calls ->
  t0 + dur_as_nanos_u64 (ceiling d) <= t ->
  exists t', t' ∈ (run call d (Signal t0 :: calls ++ [Poll t])).2.
Proof.
  intros Hd Hnc Ht. rewrite run_cons, run_app. cbn [snd call fst app].
  set (d0 := signal d t0). rewrite run_cons. cbn [run snd fst]. rewrite app_nil_r.
  destruct (run call d0 calls).2 as [|t' out] eqn:Hout; [|exists t'; left].
  exists t. unfold is_pending in Hd.
  destruct (quiet_run_keeps calls d0 t0) as [Hf _]; [|done..|].
  { unfold d0. simpl. by rewrite Hd. }
  cbn [call app]. unfold poll. rewrite Hf.
  assert (Hc : ceiling (run call d0 calls).1 = ceiling d) by apply (run_call_config calls d0).
  rewrite Hc. rewrite (proj2 (Z.leb_le (dur_as_nanos_u64 (ceiling d)) (sat_sub t t0))).
  - rewrite orb_true_r. left.
  - mlia.
Qed.

Lemma debounce_meets_its_ceiling_witness :
  exists t', t' ∈ (run call (debounce_new (dur_from_millis 300) (dur_from_secs 1))
    (Signal 0 :: [Signal 400000000; Poll 500000000; Signal 900000000] ++ [Poll 1000000000])).2.
Proof.
  apply (debounce_meets_its_ceiling (debounce_new (dur_from_millis 300) (dur_from_secs 1)) 0).
  - reflexivity.
  - apply (bool_decide_unpack _). reflexivity.
  - apply (bool_decide_unpack _). reflexivity.
Defined.
