(* ===== verification/SttTypes.v ===== *)
(** * fotw-stt: the types every provider speaks

    Models the provider-neutral vocabulary of [crates/fotw-stt/src]:
    [error.rs] (the ten error classes and what a supervisor does about each),
    [stream.rs] (the stream's life cycle), [transcript.rs] (words and
    segments), [capabilities.rs] and the endpointing record of [local.rs].

    Rust's derived [PartialEq] on a record with a float in it is IEEE equality
    on that field, so those records get boolean equality functions here and not
    a decidable [=]. *)

From S2P Require Import Prelude Float32.

Local Open Scope Z_scope.

(** ** error.rs *)

Inductive FailoverPolicy := Failover | Backoff | Reconnect | SurfacePolicy.

Inductive SttErrorClass :=
| Auth
| Quota
| RateLimit
| Concurrency
| BadRequest
| Unsupported
| Network
| Server
| AudioFormat
| SessionLimit.

#[export] Instance FailoverPolicy_eq_dec : EqDecision FailoverPolicy.
Proof. solve_decision. Defined.
#[export] Instance SttErrorClass_eq_dec : EqDecision SttErrorClass.
Proof. solve_decision. Defined.

Definition failover_policy (self : SttErrorClass) : FailoverPolicy :=
  match self with
  | Auth | Quota => Failover
  | RateLimit | Concurrency | Network | Server => Backoff
  | SessionLimit => Reconnect
  | BadRequest | Unsupported | AudioFormat => SurfacePolicy
  end.

Definition is_retryable (self : SttErrorClass) : bool :=
  match self with
  | RateLimit | Concurrency | Network | Server | SessionLimit => true
  | Auth | Quota | BadRequest | Unsupported | AudioFormat => false
  end.

Definition counts_against_failure_budget (self : SttErrorClass) : bool :=
  match self with SessionLimit => false | _ => true end.

Definition user_hint (self : SttErrorClass) : string :=
  match self with
  | Auth => "The API key was rejected. Check it in Settings."
  | Quota => "This account is out of transcription credit."
  | RateLimit => "The provider is rate-limiting us. Retrying shortly."
  | Concurrency => "Too many transcriptions running at once on this account. Retrying shortly."
  | BadRequest => "The transcription request was rejected. This is a bug in the app."
  | Unsupported => "This provider does not support that."
  | Network => "Could not reach the transcription provider."
  | Server => "The transcription provider had an internal error."
  | AudioFormat => "The provider rejected the audio format."
  | SessionLimit => "The provider's session length limit was reached. Reconnecting."
  end.

Record SttError := mkSttError {
  class : SttErrorClass;
  err_provider : string;
  message : string;
  retryable : bool;
  retry_after_ms : option Z;
  detail : option string;
}.

Definition stt_error_new (class : SttErrorClass) (provider message : string) : SttError :=
  mkSttError class provider message (is_retryable class) None None.

Definition with_retry_after_ms (self : SttError) (retry_after_ms : Z) : SttError :=
  mkSttError (class self) (err_provider self) (message self) (retryable self)
    (Some retry_after_ms) (detail self).

Definition with_detail (self : SttError) (d : string) : SttError :=
  mkSttError (class self) (err_provider self) (message self) (retryable self)
    (retry_after_ms self) (Some d).

Definition not_retryable (self : SttError) (d : string) : SttError :=
  mkSttError (class self) (err_provider self) (message self) false
    (retry_after_ms self) (Some d).

(** ** stream.rs *)

Inductive StreamState := Connecting | Open | Reconnecting | Closed.

#[export] Instance StreamState_eq_dec : EqDecision StreamState.
Proof. solve_decision. Defined.

Definition is_terminal (self : StreamState) : bool :=
  match self with Closed => true | _ => false end.

Definition state_as_str (self : StreamState) : string :=
  match self with
  | Connecting => "connecting"
  | Open => "open"
  | Reconnecting => "reconnecting"
  | Closed => "closed"
  end.

(** ** transcript.rs *)

Inductive Source := Mic | System.

#[export] Instance Source_eq_dec : EqDecision Source.
Proof. solve_decision. Defined.

Inductive TimestampSource := Provider | Estimated.

#[export] Instance TimestampSource_eq_dec : EqDecision TimestampSource.
Proof. solve_decision. Defined.

(** A 64-bit float; only finiteness and [==] are asked of it. *)
Abbreviation f64 := f32.

Record Word := mkWord {
  w_text : string;
  w_start_ms : Z;
  w_end_ms : Z;
  w_confidence : option f64;
  w_speaker : option string;
}.

Definition word_duration_ms (self : Word) : Z := sat_sub (w_end_ms self) (w_start_ms self).

Record TranscriptSegment := mkSegment {
  id : string;
  seg_session_id : string;
  seg_source : Source;
  speaker : option string;
  text : string;
  start_ms : Z;
  end_ms : Z;
  words : list Word;
  confidence : option f64;
  seg_language : option string;
  is_final : bool;
  seg_revision : Z;
  seg_provider : string;
  seg_model : string;
  timestamp_source : TimestampSource;
}.

Definition duration_ms (self : TranscriptSegment) : Z := sat_sub (end_ms self) (start_ms self).

Definition supersedes (self other : TranscriptSegment) : bool :=
  bool_decide (id self = id other) && (seg_revision other <? seg_revision self).

(** [Option<f64> == Option<f64>], and the derived equalities above it. *)
Definition option_f64_eqb (a b : option f64) : bool :=
  match a, b with
  | Some x, Some y => f32_eqb x y
  | None, None => true
  | _, _ => false
  end.

Definition word_eqb (a b : Word) : bool :=
  bool_decide (w_text a = w_text b) && (w_start_ms a =? w_start_ms b)
  && (w_end_ms a =? w_end_ms b) && option_f64_eqb (w_confidence a) (w_confidence b)
  && bool_decide (w_speaker a = w_speaker b).

(** Slice equality: same length, equal element by element. *)
Fixpoint list_eqb {A} (eqb : A -> A -> bool) (l k : list A) : bool :=
  match l, k with
  | [], [] => true
  | x :: l, y :: k => eqb x y && list_eqb eqb l k
  | _, _ => false
  end.

Definition segment_eqb (a b : TranscriptSegment) : bool :=
  bool_decide (id a = id b) && bool_decide (seg_session_id a = seg_session_id b)
  && bool_decide (seg_source a = seg_source b) && bool_decide (speaker a = speaker b)
  && bool_decide (text a = text b) && (start_ms a =? start_ms b) && (end_ms a =? end_ms b)
  && list_eqb word_eqb (words a) (words b) && option_f64_eqb (confidence a) (confidence b)
  && bool_decide (seg_language a = seg_language b) && Bool.eqb (is_final a) (is_final b)
  && (seg_revision a =? seg_revision b) && bool_decide (seg_provider a = seg_provider b)
  && bool_decide (seg_model a = seg_model b)
  && bool_decide (timestamp_source a = timestamp_source b).

(** ** capabilities.rs *)

Inductive FeatureAvailability := Both | Streaming | Batch | NoFeature.
Inductive CustomVocabulary := Keyterm | Keywords | Prompt | NoVocabulary.
Inductive RetentionControl := Param | HeaderControl | Contract | NoControl.

#[export] Instance FeatureAvailability_eq_dec : EqDecision FeatureAvailability.
Proof. solve_decision. Defined.
#[export] Instance CustomVocabulary_eq_dec : EqDecision CustomVocabulary.
Proof. solve_decision. Defined.
#[export] Instance RetentionControl_eq_dec : EqDecision RetentionControl.
Proof. solve_decision. Defined.

Definition in_streaming (self : FeatureAvailability) : bool :=
  match self with Both | Streaming => true | _ => false end.
Definition in_batch (self : FeatureAvailability) : bool :=
  match self with Both | Batch => true | _ => false end.

Record SttCapabilities := mkCapabilities {
  streaming : bool;
  batch : bool;
  word_timestamps : FeatureAvailability;
  diarization : FeatureAvailability;
  language_detection : bool;
  custom_vocabulary : CustomVocabulary;
  max_file_bytes : Z;
  max_file_seconds : Z;
  native_rates : list Z;
  retention_control : RetentionControl;
  supports_replay_faster_than_realtime : bool;
}.

#[export] Instance SttCapabilities_eq_dec : EqDecision SttCapabilities.
Proof. solve_decision. Defined.

Definition can_replay_to_catch_up (self : SttCapabilities) : bool :=
  streaming self && supports_replay_faster_than_realtime self.

Definition caps_deepgram : SttCapabilities :=
  mkCapabilities true true Both Both true Keyterm 2000000000 62500
    [8000; 16000; 24000; 48000] Param true.

(** ** local.rs: where the endpointer cuts *)

Record EndpointConfig := mkEndpointConfig {
  frame_ms : Z;
  preroll_ms : Z;
  hangover_ms : Z;
  min_speech_ms : Z;
  soft_max_ms : Z;
  hard_max_ms : Z;
  margin_db : f32;
  speech_floor_db : f32;
  floor_window_ms : Z;
  min_range_db : f32;
}.

Definition endpoint_default : EndpointConfig :=
  mkEndpointConfig 30 300 700 250 20000 28000 (f32_of_Z 10) (f32_of_Z (-50)) 2000 (f32_of_Z 6).

(** ** Facts *)

Lemma list_eqb_refl {A} (eqb : A -> A -> bool) (l : list A) :
  Forall (fun x => eqb x x = true) l -> list_eqb eqb l l = true.
Proof. induction 1 as [|x l Hx _ IH]; simpl; [done|]. by rewrite Hx, IH. Qed.

(** A float equals itself unless it is NaN. *)
Lemma f32_eqb_refl x : f32_is_nan x = false -> f32_eqb x x = true.
Proof.
  unfold f32_eqb, SpecFloat.SFeqb. destruct x as [s|[]| |s m e]; try done. intros _. simpl.
  rewrite Z.compare_refl. change (Pos.compare_cont Eq) with Pos.compare.
  rewrite Pos.compare_refl. by destruct s.
Qed.

Lemma f32_finite_not_nan x : f32_is_finite x = true -> f32_is_nan x = false.
Proof. by destruct x. Qed.

(** ** stream.rs: the event surface *)

Inductive StreamEvent :=
| Partial (segment : TranscriptSegment)
| Final (segment : TranscriptSegment)
| ErrorEvent (error : SttError)
| StateEvent (state : StreamState).

Definition event_segment (self : StreamEvent) : option TranscriptSegment :=
  match self with Partial s | Final s => Some s | _ => None end.

Definition final_segment (self : StreamEvent) : option TranscriptSegment :=
  match self with Final s => Some s | _ => None end.

Definition event_error (self : StreamEvent) : option SttError :=
  match self with ErrorEvent e => Some e | _ => None end.

Definition event_state (self : StreamEvent) : option StreamState :=
  match self with StateEvent s => Some s | _ => None end.
