(* ===== verification/CoverageTypes.v ===== *)
(** * fotwd failover: the records of the coverage journal

    Models the data of [crates/fotwd/src/failover/coverage.rs]: engines, the
    saved local plan and its validation, why a session switched, provider
    epochs, committed intervals, the journal's header and its three kinds of
    entry. *)

From S2P Require Import Prelude Float32 SttTypes.

Local Open Scope Z_scope.

Record EngineDescriptor := mkEngine {
  provider : string;
  model : string;
  revision : option string;
  capabilities : SttCapabilities;
}.

#[export] Instance EngineDescriptor_eq_dec : EqDecision EngineDescriptor.
Proof. solve_decision. Defined.

Record LocalPlan := mkLocalPlan {
  plan_engine : EngineDescriptor;
  language : option string;
  endpoint : EndpointConfig;
}.

Inductive SwitchReason :=
| ReasonAuth
| ReasonQuota
| TransportBudget
| RateLimitBudget
| SpeechStall
| Manual
| ResumePending
| FinishingTail.

#[export] Instance SwitchReason_eq_dec : EqDecision SwitchReason.
Proof. solve_decision. Defined.

Record ProviderEpoch := mkEpoch {
  number : Z;
  ep_from_sample : Z;
  reason : option SwitchReason;
  ep_engine : EngineDescriptor;
}.

#[export] Instance ProviderEpoch_eq_dec : EqDecision ProviderEpoch.
Proof. solve_decision. Defined.

Record CommittedAudio := mkCommitted {
  epoch : Z;
  from_sample : Z;
  through_sample : Z;
  segments : list TranscriptSegment;
  gap : option string;
}.

(** The derived [PartialEq] of a commit. *)
Definition commit_eqb (a b : CommittedAudio) : bool :=
  (epoch a =? epoch b) && (from_sample a =? from_sample b)
  && (through_sample a =? through_sample b)
  && list_eqb segment_eqb (segments a) (segments b) && bool_decide (gap a = gap b).

Inductive CommitOutcome := New | AlreadyCommitted.

Record Header := mkHeader {
  schema : Z;
  session_id : string;
  source : Source;
  first_sample : Z;
  initial : EngineDescriptor;
  fallback : option LocalPlan;
}.

Inductive Entry :=
| Opened (header : Header)
| Switched (e : ProviderEpoch)
| Committed (commit : CommittedAudio).

(** An [io::Error], as the failure it reports. *)
Inductive IoError :=
| Invalid (message : string)
| OsError (what : string).

Definition MAX_RECORD_BYTES : Z := 1048576.

Definition validate_engine (engine : EngineDescriptor) : result unit IoError :=
  if (slen (provider engine) =? 0)
     || (128 <? slen (provider engine))
     || (slen (model engine) =? 0)
     || (512 <? slen (model engine))
     || is_some_and (revision engine) (fun r => 512 <? slen r)
  then Err (Invalid "invalid provider identity")
  else Ok tt.

(** [fotw_stt::local::PROVIDER] and [fotw_stt::speechd::PROVIDER]. *)
Definition LOCAL_PROVIDER : string := "whispercpp".
Definition SPEECHD_PROVIDER : string := "fotw-speechd".

Definition is_ascii_alphanumeric (b : ascii) : bool :=
  let n := Z.of_nat (nat_of_ascii b) in
  ((48 <=? n) && (n <=? 57)) || ((65 <=? n) && (n <=? 90)) || ((97 <=? n) && (n <=? 122)).

Definition language_ok (l : string) : bool :=
  negb ((slen l =? 0) || (32 <? slen l)
        || negb (forallb (fun b => is_ascii_alphanumeric b || bool_decide (b = "-"%char))
                   (String.list_ascii_of_string l))).

(** [(lo..=hi).contains(&x)]. *)
Definition f32_in (lo hi : Z) (x : f32) : bool :=
  f32_leb (f32_of_Z lo) x && f32_leb x (f32_of_Z hi).

Definition validate_plan (self : LocalPlan) : result unit IoError :=
  let? _ := validate_engine (plan_engine self) in
  let e := endpoint self in
  let local := [LOCAL_PROVIDER; SPEECHD_PROVIDER] in
  if negb (bool_decide (provider (plan_engine self) ∈ local))
     || is_some_and (language self) (fun l => negb (language_ok l))
     || negb ((1 <=? frame_ms e) && (frame_ms e <=? 1000))
     || (5000 <? preroll_ms e)
     || (30000 <? hangover_ms e)
     || (hard_max_ms e =? 0)
     || (30000 <? hard_max_ms e)
     || (30000 <? soft_max_ms e)
     || (hard_max_ms e <? min_speech_ms e)
     || (floor_window_ms e <? frame_ms e)
     || (60000 <? floor_window_ms e)
     || negb (f32_is_finite (margin_db e))
     || negb (f32_in 0 120 (margin_db e))
     || negb (f32_is_finite (speech_floor_db e))
     || negb (f32_in (-160) 0 (speech_floor_db e))
     || negb (f32_is_finite (min_range_db e))
     || negb (f32_in 0 120 (min_range_db e))
  then Err (Invalid "invalid saved local inference plan")
  else Ok tt.

Example default_endpoint_is_a_valid_plan :
  validate_plan (mkLocalPlan (mkEngine LOCAL_PROVIDER "base.en" None caps_deepgram)
                   (Some "en-US"%string) endpoint_default) = Ok tt.
Proof. vm_compute. reflexivity. Qed.
