(* ===== verification/HandoffPolicy.v ===== *)
(** * fotwd failover: when a cloud leg is handed to the local engine

    Models [crates/fotwd/src/failover/policy.rs]: the per-source health policy
    driven by provider errors, stream states, confirmed finals and ticks of an
    injected monotonic clock.  Times are [u64] milliseconds, the speech counter
    is [u64] samples; every difference the code takes saturates.

    Each method is the policy it leaves behind; the [Decision] that [error] and
    [tick] also return is, on every path, the [decision] field of that policy.
    A history is the list of calls the handoff worker makes on the policy; the
    theorems range over every history. *)

From S2P Require Import Prelude SttTypes CoverageTypes.

Local Open Scope Z_scope.

Record HandoffLimits := mkLimits {
  max_failed_cycles : Z;
  retry_budget_ms : Z;
  speech_samples_without_final : Z;
  healthy_open_ms : Z;
  rate_pressure_budget_ms : Z;
}.

Definition limits_default : HandoffLimits := mkLimits 3 15000 (45 * 16000) 3000 15000.

Inductive Decision :=
| KeepCloud
| Switch (reason : SwitchReason)
| Surface.

#[export] Instance Decision_eq_dec : EqDecision Decision.
Proof. solve_decision. Defined.

Record HandoffPolicy := mkPolicy {
  limits : HandoffLimits;
  decision : Decision;
  transport_since : option Z;
  pressure_since : option Z;
  recovering : bool;
  cycle_armed : bool;
  last_state : option StreamState;
  failed_cycles : Z;
  opened_since : option Z;
  speech_at_final : Z;
}.

Definition policy_new (limits : HandoffLimits) : HandoffPolicy :=
  mkPolicy limits KeepCloud None None false false None 0 None 0.

Definition decide_to (p : HandoffPolicy) (d : Decision) : HandoffPolicy :=
  mkPolicy (limits p) d (transport_since p) (pressure_since p) (recovering p) (cycle_armed p)
    (last_state p) (failed_cycles p) (opened_since p) (speech_at_final p).

Definition set_opened (p : HandoffPolicy) (o : option Z) : HandoffPolicy :=
  mkPolicy (limits p) (decision p) (transport_since p) (pressure_since p) (recovering p)
    (cycle_armed p) (last_state p) (failed_cycles p) o (speech_at_final p).

(** [self.transport_since.get_or_insert(now_ms)]. *)
Definition start_transport (p : HandoffPolicy) (now_ms : Z) : HandoffPolicy :=
  mkPolicy (limits p) (decision p) (Some (get_or_insert (transport_since p) now_ms))
    (pressure_since p) (recovering p) (cycle_armed p) (last_state p) (failed_cycles p)
    (opened_since p) (speech_at_final p).

(** [self.pressure_since.get_or_insert(now_ms)]. *)
Definition start_pressure (p : HandoffPolicy) (now_ms : Z) : HandoffPolicy :=
  mkPolicy (limits p) (decision p) (transport_since p)
    (Some (get_or_insert (pressure_since p) now_ms)) (recovering p) (cycle_armed p)
    (last_state p) (failed_cycles p) (opened_since p) (speech_at_final p).

Definition recovered (p : HandoffPolicy) : HandoffPolicy :=
  mkPolicy (limits p) (decision p) None None false false (last_state p) 0 None
    (speech_at_final p).

Definition pressure_remaining (self : HandoffPolicy) (now_ms : Z) : Z :=
  let budget := Z.min (rate_pressure_budget_ms (limits self)) (retry_budget_ms (limits self)) in
  let elapsed o := match o with Some start => sat_sub now_ms start | None => 0 end in
  let pressure := sat_sub budget (elapsed (pressure_since self)) in
  let transport := sat_sub (retry_budget_ms (limits self)) (elapsed (transport_since self)) in
  Z.min pressure transport.

Definition tick (self : HandoffPolicy) (now_ms voiced_samples : Z) : HandoffPolicy :=
  if bool_decide (decision self <> KeepCloud) then self
  else
    let p :=
      if is_some_and (opened_since self)
           (fun opened => healthy_open_ms (limits self) <=? sat_sub now_ms opened)
      then recovered self else self in
    let transport_expired := is_some_and (transport_since p)
      (fun start => retry_budget_ms (limits p) <=? sat_sub now_ms start) in
    let pressure_expired := is_some_and (pressure_since p)
      (fun start => Z.min (rate_pressure_budget_ms (limits p)) (retry_budget_ms (limits p))
                    <=? sat_sub now_ms start) in
    if is_some (pressure_since p) && (pressure_expired || transport_expired)
    then decide_to p (Switch RateLimitBudget)
    else if transport_expired then decide_to p (Switch TransportBudget)
    else if speech_samples_without_final (limits p) <=? sat_sub voiced_samples (speech_at_final p)
    then decide_to p (Switch SpeechStall)
    else p.

(** A reconnect cycle that was armed ends in failure. *)
Definition fail_cycle (p : HandoffPolicy) : HandoffPolicy :=
  if cycle_armed p then
    let n := sat_add32 (failed_cycles p) 1 in
    let p := mkPolicy (limits p) (decision p) (transport_since p) (pressure_since p)
               (recovering p) false (last_state p) n (opened_since p) (speech_at_final p) in
    if max_failed_cycles (limits p) <=? n then decide_to p (Switch TransportBudget) else p
  else p.

Definition classify (self : HandoffPolicy) (now_ms : Z) (error : SttError) : HandoffPolicy :=
  match class error with
  | Auth => decide_to self (Switch ReasonAuth)
  | Quota => decide_to self (Switch ReasonQuota)
  | SessionLimit => self
  | BadRequest | Unsupported | AudioFormat => decide_to self Surface
  | Network | Server =>
      let opened :=
        if bool_decide (class error = Server) && bool_decide (last_state self = Some Open)
        then Some now_ms else None in
      fail_cycle (start_transport (set_opened self opened) now_ms)
  | RateLimit | Concurrency =>
      let p := start_pressure (set_opened self None) now_ms in
      if is_some_and (retry_after_ms error) (fun wait => pressure_remaining p now_ms <? wait)
      then decide_to p (Switch RateLimitBudget) else p
  end.

Definition on_error (self : HandoffPolicy) (now_ms : Z) (error : SttError) : HandoffPolicy :=
  if bool_decide (decision self <> KeepCloud) then self
  else
    let p := classify self now_ms error in
    tick p now_ms (speech_at_final p).

Definition on_state (self : HandoffPolicy) (now_ms : Z) (state : StreamState) : HandoffPolicy :=
  if bool_decide (decision self <> KeepCloud) then self
  else
    let p := mkPolicy (limits self) (decision self) (transport_since self) (pressure_since self)
               (recovering self) (cycle_armed self) (Some state) (failed_cycles self)
               (opened_since self) (speech_at_final self) in
    match state with
    | Reconnecting =>
        mkPolicy (limits p) (decision p) (transport_since p) (pressure_since p) true true
          (last_state p) (failed_cycles p) None (speech_at_final p)
    | Open => if recovering p || is_some (transport_since p) then set_opened p (Some now_ms) else p
    | Connecting => start_transport p now_ms
    | Closed => set_opened p None
    end.

Definition confirmed_final (self : HandoffPolicy) (voiced_samples : Z) : HandoffPolicy :=
  if bool_decide (decision self <> KeepCloud) then self
  else recovered
    (mkPolicy (limits self) (decision self) (transport_since self) (pressure_since self)
       (recovering self) (cycle_armed self) (last_state self) (failed_cycles self)
       (opened_since self) voiced_samples).

(** What the handoff worker reports to the policy. *)
Inductive Observation :=
| ObsError (now_ms : Z) (error : SttError)
| ObsState (now_ms : Z) (state : StreamState)
| ObsFinal (voiced_samples : Z)
| ObsTick (now_ms voiced_samples : Z).

Definition observe (p : HandoffPolicy) (o : Observation) : HandoffPolicy :=
  match o with
  | ObsError now e => on_error p now e
  | ObsState now s => on_state p now s
  | ObsFinal v => confirmed_final p v
  | ObsTick now v => tick p now v
  end.

Definition observes (p : HandoffPolicy) (h : list Observation) : HandoffPolicy :=
  foldl observe p h.

(** Enter the branch of a method taken while the cloud is kept. *)
Ltac keeping H := rewrite bool_decide_false by (rewrite H; tauto).

(** ** Stickiness *)

Lemma observe_decided p o : decision p <> KeepCloud -> observe p o = p.
Proof.
  intros H. destruct o; unfold observe, on_error, on_state, confirmed_final, tick;
    by rewrite bool_decide_true.
Qed.

Lemma observes_decided p h : decision p <> KeepCloud -> observes p h = p.
Proof.
  intros H. unfold observes. induction h as [|o h IH]; [done|]. simpl. by rewrite observe_decided.
Qed.

Lemma observes_app p h1 h2 : observes p (h1 ++ h2) = observes (observes p h1) h2.
Proof. apply foldl_app. Qed.

Lemma tick_limits p now v : limits (tick p now v) = limits p.
Proof. unfold tick. repeat case_match; done. Qed.

Lemma observe_limits p o : limits (observe p o) = limits p.
Proof.
  destruct o; simpl; [|unfold on_state|unfold confirmed_final|apply tick_limits].
  - unfold on_error. case_bool_decide; [done|]. rewrite tick_limits.
    unfold classify, fail_cycle. repeat case_match; done.
  - repeat case_match; done.
  - case_match; done.
Qed.

Lemma observes_limits p h : limits (observes p h) = limits p.
Proof.
  unfold observes. revert p. induction h as [|o h IH]; intros p; [done|]. simpl.
  by rewrite IH, observe_limits.
Qed.

(** A demotion is for the rest of the meeting.  Once the policy has
    decided anything but to keep the cloud, no later history, whatever errors,
    states, finals and ticks it holds, changes the policy in any field. *)
Theorem demotion_is_sticky (l : HandoffLimits) (h h' : list Observation) :
  decision (observes (policy_new l) h) <> KeepCloud ->
  observes (policy_new l) (h ++ h') = observes (policy_new l) h.
Proof. intros H. by rewrite observes_app, observes_decided. Qed.

Lemma demotion_is_sticky_witness :
  let h := [ObsError 5 (stt_error_new Auth "deepgram" "no")] in
  decision (observes (policy_new limits_default) h) = Switch ReasonAuth /\
  observes (policy_new limits_default) (h ++ [ObsFinal 900; ObsState 9 Open]) =
  observes (policy_new limits_default) h.
Proof.
  intros h. split; [reflexivity|]. apply (demotion_is_sticky limits_default h). vm_compute. done.
Defined.

(** ** The taxonomy of errors *)

Lemma tick_never_surfaces p now v : decision p <> Surface -> decision (tick p now v) <> Surface.
Proof. intros H. unfold tick. repeat case_match; simpl; done. Qed.

(** The policy obeys the error taxonomy.  While the cloud is kept, a class
    whose [failover_policy] is to fail over (credentials, quota) demotes at once
    and says which; a class to surface (our own request or audio) is surfaced
    and never masked by a switch; a session limit alone starts no budget.  And
    an error whose class is retryable never surfaces. *)
Theorem errors_follow_taxonomy (p : HandoffPolicy) (now : Z) (e : SttError) :
  decision p = KeepCloud ->
  match failover_policy (class e) with
  | Failover => decision (on_error p now e) =
                  Switch (if bool_decide (class e = Auth) then ReasonAuth else ReasonQuota)
  | SurfacePolicy => decision (on_error p now e) = Surface
  | Reconnect => on_error p now e = tick p now (speech_at_final p)
  | Backoff => is_retryable (class e) = true /\ decision (on_error p now e) <> Surface
  end.
Proof.
  intros Hp. unfold on_error, classify. keeping Hp.
  destruct (class e) eqn:Hc; simpl; try reflexivity; split; try done;
    apply tick_never_surfaces; unfold fail_cycle; repeat case_match; simpl; by rewrite ?Hp.
Qed.

Lemma errors_follow_taxonomy_witness :
  decision (policy_new limits_default) = KeepCloud /\
  decision (on_error (policy_new limits_default) 7 (stt_error_new Quota "deepgram" "no credit"))
    = Switch ReasonQuota.
Proof.
  split; [reflexivity|].
  exact (errors_follow_taxonomy (policy_new limits_default) 7
           (stt_error_new Quota "deepgram" "no credit") eq_refl).
Defined.

(** ** What the history calls for

    The policy keeps six running fields.  The reference below keeps none: it reads
    the observations themselves, cut into episodes of trouble. *)

Definition obs_time (o : Observation) : option Z :=
  match o with
  | ObsError t _ | ObsState t _ | ObsTick t _ => Some t
  | ObsFinal _ => None
  end.

Definition is_transport (c : SttErrorClass) : bool :=
  match c with Network | Server => true | _ => false end.
Definition is_pressure (c : SttErrorClass) : bool :=
  match c with RateLimit | Concurrency => true | _ => false end.

(** Evidence of transport trouble: a transport error, or a connect that had not
    completed. *)
Definition trouble_at (o : Observation) : option Z :=
  match o with
  | ObsError t e => if is_transport (class e) then Some t else None
  | ObsState t Connecting => Some t
  | _ => None
  end.

Definition pressure_at (o : Observation) : option Z :=
  match o with
  | ObsError t e => if is_pressure (class e) then Some t else None
  | _ => None
  end.

Definition announces_reconnect (o : Observation) : bool :=
  match o with ObsState _ Reconnecting => true | _ => false end.

(** When the observations first tell of something. *)
Definition first_of (f : Observation -> option Z) (l : list Observation) : option Z := head (omap f l).

(** Failed cycles: an announced reconnect that a transport error follows, several
    announcements before one error being one cycle.  The flag says that one is
    announced and has not failed yet. *)
Definition cycle_step (s : Z * bool) (o : Observation) : Z * bool :=
  match o with
  | ObsState _ Reconnecting => (s.1, true)
  | ObsError _ e => if is_transport (class e) then (s.1 + (if s.2 then 1 else 0), false) else s
  | _ => s
  end.
Definition cycles (l : list Observation) : Z * bool := foldl cycle_step (0, false) l.

(** An episode: the link and the speech counter at its start, and what was observed
    since. *)
Record Episode := mkEpisode {
  ep_link : option StreamState;
  ep_final : Z;
  ep_obs : list Observation;
}.

Definition calm_start : Episode := mkEpisode None 0 [].
Definition ep_add (ep : Episode) (o : Observation) : Episode :=
  mkEpisode (ep_link ep) (ep_final ep) (ep_obs ep ++ [o]).

(** The last link state reported. *)
Definition link_now (link : option StreamState) (l : list Observation) : option StreamState :=
  foldl (fun s o => match o with ObsState _ s' => Some s' | _ => s end) link l.

(** There is something to recover from: a reconnect or transport trouble. *)
Definition in_doubt (l : list Observation) : bool :=
  existsb announces_reconnect l || is_some (first_of trouble_at l).

(** Since when the socket is open with nothing against it, newest observation
    first: since it opened during an episode of doubt, or since a server error that
    left it open; a reconnect, a close, and a network or pressure error end it. *)
Fixpoint quiet_since (link : option StreamState) (newest_first : list Observation) : option Z :=
  match newest_first with
  | [] => None
  | ObsState t Open :: older => if in_doubt (rev older) then Some t else quiet_since link older
  | ObsState _ Connecting :: older => quiet_since link older
  | ObsState _ (Reconnecting | Closed) :: _ => None
  | ObsError t e :: older =>
      match class e with
      | Server => if bool_decide (link_now link (rev older) = Some Open) then Some t else None
      | Network | RateLimit | Concurrency => None
      | _ => quiet_since link older
      end
  | (ObsFinal _ | ObsTick _ _) :: older => quiet_since link older
  end.

(** An observation ends the episode: a confirmed final, or a look at the clock when
    the socket has been quietly open long enough. *)
Definition ends_episode (l : HandoffLimits) (ep : Episode) (o : Observation) : bool :=
  match o with
  | ObsFinal _ => true
  | ObsState _ _ => false
  | ObsError t _ | ObsTick t _ =>
      is_some_and (quiet_since (ep_link ep) (rev (ep_obs (ep_add ep o))))
        (fun t0 => healthy_open_ms l <=? sat_sub t t0)
  end.

Definition advance (l : HandoffLimits) (ep : Episode) (o : Observation) : Episode :=
  if ends_episode l ep o then
    mkEpisode (link_now (ep_link ep) (ep_obs (ep_add ep o)))
      (match o with ObsFinal v => v | _ => ep_final ep end) []
  else ep_add ep o.

(** [budget] has run out at [t] for what was first told of at [since]. *)
Definition spent (budget t : Z) (since : option Z) : bool :=
  is_some_and since (fun t0 => budget <=? sat_sub t t0).

(** What is left of it. *)
Definition remains (budget t : Z) (since : option Z) : Z :=
  sat_sub budget (match since with Some t0 => sat_sub t t0 | None => 0 end).

Definition pressure_budget (l : HandoffLimits) : Z := Z.min (rate_pressure_budget_ms l) (retry_budget_ms l).

(** The budget an episode has overrun at [t]. *)
Definition overrun (l : HandoffLimits) (ep : list Observation) (t : Z) : option SwitchReason :=
  let transport := spent (retry_budget_ms l) t (first_of trouble_at ep) in
  match first_of pressure_at ep with
  | Some t0 => if (pressure_budget l <=? sat_sub t t0) || transport then Some RateLimitBudget else None
  | None => if transport then Some TransportBudget else None
  end.

(** What an observation calls for in an episode. *)
Definition called_for (l : HandoffLimits) (ep : Episode) (o : Observation) : Decision :=
  let now := ep_obs (ep_add ep o) in
  let by_clock t := match overrun l (ep_obs (advance l ep o)) t with Some r => Switch r | None => KeepCloud end in
  match o with
  | ObsState _ _ | ObsFinal _ => KeepCloud
  | ObsTick t v =>
      if bool_decide (by_clock t = KeepCloud) && (speech_samples_without_final l <=? sat_sub v (ep_final ep))
      then Switch SpeechStall else by_clock t
  | ObsError t e =>
      match failover_policy (class e) with
      | Failover => Switch (if bool_decide (class e = Auth) then ReasonAuth else ReasonQuota)
      | SurfacePolicy => Surface
      | Reconnect | Backoff =>
          if ((cycles (ep_obs ep)).1 <? (cycles now).1) && (max_failed_cycles l <=? (cycles now).1)
          then Switch TransportBudget
          else if is_pressure (class e) && is_some_and (retry_after_ms e) (fun wait =>
                    Z.min (remains (pressure_budget l) t (first_of pressure_at now))
                          (remains (retry_budget_ms l) t (first_of trouble_at now)) <? wait)
          then Switch RateLimitBudget
          else by_clock t
      end
  end.

(** The first decision a history calls for. *)
Fixpoint judged (l : HandoffLimits) (ep : Episode) (h : list Observation) : Decision :=
  match h with
  | [] => KeepCloud
  | o :: h => if decide (called_for l ep o = KeepCloud) then judged l (advance l ep o) h else called_for l ep o
  end.

(** ** The policy keeps what the history says *)

Lemma first_of_snoc f l o : first_of f (l ++ [o]) = match first_of f l with Some t => Some t | None => f o end.
Proof.
  unfold first_of. rewrite omap_app. destruct (omap f l); [|done]. simpl. by destruct (f o).
Qed.

Lemma cycles_snoc l o : cycles (l ++ [o]) = cycle_step (cycles l) o.
Proof. unfold cycles. by rewrite foldl_app. Qed.

Lemma link_now_snoc link l o :
  link_now link (l ++ [o]) = match o with ObsState _ s => Some s | _ => link_now link l end.
Proof. unfold link_now. by rewrite foldl_app. Qed.

Lemma reconnect_snoc l o : existsb announces_reconnect (l ++ [o]) = existsb announces_reconnect l || announces_reconnect o.
Proof. rewrite existsb_app. simpl. by rewrite orb_false_r. Qed.

(** The six fields, read off the episode. *)
Record mirrors (l : HandoffLimits) (ep : Episode) (p : HandoffPolicy) : Prop := {
  mi_limits : limits p = l;
  mi_keep : decision p = KeepCloud;
  mi_transport : transport_since p = first_of trouble_at (ep_obs ep);
  mi_pressure : pressure_since p = first_of pressure_at (ep_obs ep);
  mi_recovering : recovering p = existsb announces_reconnect (ep_obs ep);
  mi_armed : cycle_armed p = (cycles (ep_obs ep)).2;
  mi_failed : failed_cycles p = (cycles (ep_obs ep)).1;
  mi_link : last_state p = link_now (ep_link ep) (ep_obs ep);
  mi_opened : opened_since p = quiet_since (ep_link ep) (rev (ep_obs ep));
  mi_final : speech_at_final p = ep_final ep;
  mi_budget : failed_cycles p = 0 \/ 0 < failed_cycles p < max_failed_cycles l;
}.

Lemma mirrors_start l : mirrors l calm_start (policy_new l).
Proof. constructor; try done. by left. Qed.

(** A look at the clock: the episode may end, then its budgets are weighed. *)
Definition settle (l : HandoffLimits) (ep : Episode) (t : Z) : Episode :=
  if is_some_and (quiet_since (ep_link ep) (rev (ep_obs ep))) (fun t0 => healthy_open_ms l <=? sat_sub t t0)
  then mkEpisode (link_now (ep_link ep) (ep_obs ep)) (ep_final ep) [] else ep.

Lemma mirrors_recovered l ep p : mirrors l ep p ->
  mirrors l (mkEpisode (link_now (ep_link ep) (ep_obs ep)) (ep_final ep) []) (recovered p).
Proof. intros []. constructor; simpl; try done. by left. Qed.

Lemma mirrors_tick l ep p t v : mirrors l ep p ->
  let weighed := match overrun l (ep_obs (settle l ep t)) t with
                 | Some r => Switch r
                 | None => if speech_samples_without_final l <=? sat_sub v (ep_final ep) then Switch SpeechStall
                           else KeepCloud
                 end in
  decision (tick p t v) = weighed /\ (weighed = KeepCloud -> mirrors l (settle l ep t) (tick p t v)).
Proof.
  intros M weighed. pose proof (mi_keep _ _ _ M) as Hd. unfold tick. keeping Hd.
  rewrite (mi_opened _ _ _ M), (mi_limits _ _ _ M).
  set (q := if is_some_and _ _ then recovered p else p).
  assert (Q : mirrors l (settle l ep t) q).
  { unfold q, settle. case_match; [by apply mirrors_recovered | done]. }
  assert (ep_final (settle l ep t) = ep_final ep) as Hf by (unfold settle; by case_match).
  unfold weighed. clearbody q. clear weighed. rewrite <-Hf. generalize dependent (settle l ep t). intros ep' Q _.
  pose proof (mi_keep _ _ _ Q) as Hq. unfold overrun, spent, pressure_budget.
  rewrite (mi_transport _ _ _ Q), (mi_pressure _ _ _ Q), (mi_limits _ _ _ Q), (mi_final _ _ _ Q).
  destruct (first_of pressure_at _), (is_some_and (first_of trouble_at _) _); simpl; rewrite ?orb_true_r, ?orb_false_r;
    repeat case_match; simplify_eq/=; done.
Qed.

(** An observation that changes no field is one the episode says nothing by. *)
Lemma mirrors_add_tick l ep p t v : mirrors l ep p -> mirrors l (ep_add ep (ObsTick t v)) p.
Proof.
  intros []. constructor; simpl;
    rewrite ?first_of_snoc, ?reconnect_snoc, ?cycles_snoc, ?link_now_snoc, ?rev_unit, ?orb_false_r; simpl; try done.
  - by case_match.
  - by case_match.
Qed.

Lemma mirrors_state l ep p t s : mirrors l ep p -> mirrors l (ep_add ep (ObsState t s)) (on_state p t s).
Proof.
  intros M. pose proof (mi_keep _ _ _ M) as Hd. unfold on_state. keeping Hd. destruct M.
  assert (recovering p || is_some (transport_since p) = in_doubt (rev (rev (ep_obs ep)))) as Hdoubt.
  { rewrite rev_involutive. unfold in_doubt. congruence. }
  destruct s; try (case_match; simpl in *); constructor; simpl;
    rewrite ?first_of_snoc, ?reconnect_snoc, ?cycles_snoc, ?link_now_snoc, ?rev_unit, ?orb_false_r, ?orb_true_r;
    simpl; rewrite <-?Hdoubt; unfold get_or_insert; repeat case_match; simplify_eq/=; try congruence;
    rewrite mi_transport0; by simplify_option_eq.
Qed.

(** Rewrite the summaries of an episode that one more observation extends. *)
Ltac episode_snoc :=
  rewrite ?first_of_snoc, ?reconnect_snoc, ?cycles_snoc, ?link_now_snoc, ?rev_unit, ?orb_false_r, ?orb_true_r.

Lemma mirrors_session_limit l ep p t e :
  class e = SessionLimit -> mirrors l ep p -> mirrors l (ep_add ep (ObsError t e)) p.
Proof.
  intros Hc []. constructor; simpl; episode_snoc; simpl; rewrite ?Hc; simpl; try done; by case_match.
Qed.

Lemma mirrors_pressure l ep p t e :
  is_pressure (class e) = true -> mirrors l ep p ->
  mirrors l (ep_add ep (ObsError t e)) (start_pressure (set_opened p None) t).
Proof.
  intros Hc []. constructor; simpl; episode_snoc; simpl; rewrite ?Hc; simpl; try done;
    try (rewrite mi_pressure0; unfold get_or_insert; by case_match); destruct (class e); simpl; try done; by case_match.
Qed.

(** A transport error, whether or not it ends a cycle. *)
Lemma mirrors_transport l ep p t e :
  in_u32 (max_failed_cycles l) -> is_transport (class e) = true -> mirrors l ep p ->
  let opened := if bool_decide (class e = Server) && bool_decide (last_state p = Some Open) then Some t else None in
  let q := fail_cycle (start_transport (set_opened p opened) t) in
  let n := (cycles (ep_obs (ep_add ep (ObsError t e)))).1 in
  if ((cycles (ep_obs ep)).1 <? n) && (max_failed_cycles l <=? n) then decision q = Switch TransportBudget
  else mirrors l (ep_add ep (ObsError t e)) q.
Proof.
  intros [_ Hmax] Hc M opened q n.
  assert (Hn : n = failed_cycles p + (if cycle_armed p then 1 else 0)).
  { unfold n. simpl. rewrite cycles_snoc. simpl. rewrite Hc. by rewrite (mi_failed _ _ _ M), (mi_armed _ _ _ M). }
  assert (Hadd : forall k, k = n -> (k = 0 \/ 0 < k < max_failed_cycles l) ->
    mirrors l (ep_add ep (ObsError t e))
      (mkPolicy l (decision p) (Some (get_or_insert (transport_since p) t)) (pressure_since p)
         (recovering p) false (last_state p) k opened (speech_at_final p))).
  { intros k Hk Hb. destruct M. constructor; simpl; try done; episode_snoc; simpl; rewrite ?Hc; simpl; try done.
    - rewrite mi_transport0. by destruct (first_of trouble_at _).
    - rewrite mi_pressure0. by destruct (first_of pressure_at _), (class e).
    - unfold opened. rewrite rev_involutive, mi_link0. destruct (class e); simplify_eq/=; by repeat case_match. }
  rewrite <-(mi_failed _ _ _ M). pose proof (mi_budget _ _ _ M) as Hb. unfold q, fail_cycle. simpl.
  destruct (cycle_armed p) eqn:Harm.
  - rewrite (mi_limits _ _ _ M). assert (sat_add32 (failed_cycles p) 1 = n \/ max_failed_cycles l <= 0) as Hsat by mlia.
    rewrite (proj2 (Z.ltb_lt _ _)) by lia. simpl.
    destruct (Z.leb_spec (max_failed_cycles l) n) as [Hle|Hlt].
    + rewrite (proj2 (Z.leb_le _ _)) by mlia. done.
    + assert (sat_add32 (failed_cycles p) 1 = n) as Hs by mlia. rewrite Hs, (proj2 (Z.leb_gt _ _)) by lia.
      apply Hadd; [done | right; lia].
  - rewrite Z.add_0_r in Hn. rewrite Hn, Z.ltb_irrefl. simpl. pose proof (Hadd n eq_refl ltac:(lia)) as Ha.
    rewrite Hn, <-Harm, <-(mi_limits _ _ _ M) in Ha. by rewrite (mi_limits _ _ _ M) in Ha at 1.
Qed.

Lemma tick_decided p t v : decision p <> KeepCloud -> tick p t v = p.
Proof. intros H. unfold tick. by rewrite bool_decide_true. Qed.

(** What a retryable error leaves before the clock is looked at. *)
Lemma mirrors_classify l ep p t e :
  in_u32 (max_failed_cycles l) -> mirrors l ep p -> is_retryable (class e) = true ->
  let now := ep_obs (ep_add ep (ObsError t e)) in
  if ((cycles (ep_obs ep)).1 <? (cycles now).1) && (max_failed_cycles l <=? (cycles now).1)
  then decision (classify p t e) = Switch TransportBudget
  else if is_pressure (class e) && is_some_and (retry_after_ms e) (fun wait =>
            Z.min (remains (pressure_budget l) t (first_of pressure_at now))
                  (remains (retry_budget_ms l) t (first_of trouble_at now)) <? wait)
  then decision (classify p t e) = Switch RateLimitBudget
  else mirrors l (ep_add ep (ObsError t e)) (classify p t e).
Proof.
  intros Hmax M Hc now.
  assert (is_transport (class e) = false -> (cycles now).1 = (cycles (ep_obs ep)).1) as Hsame.
  { intros Ht. unfold now. simpl. rewrite cycles_snoc. simpl. by rewrite Ht. }
  destruct (is_transport (class e)) eqn:Ht.
  - pose proof (mirrors_transport l ep p t e Hmax Ht M) as Hm. cbv zeta in Hm. fold now in Hm.
    assert (is_pressure (class e) = false) as -> by (by destruct (class e)). simpl.
    assert (forall q, classify p t e = q -> q = fail_cycle (start_transport (set_opened p
      (if bool_decide (class e = Server) && bool_decide (last_state p = Some Open) then Some t else None)) t)) as Hq.
    { intros q <-. unfold classify. by destruct (class e). }
    rewrite (Hq _ eq_refl). exact Hm.
  - rewrite Hsame, Z.ltb_irrefl by done. simpl. destruct (is_pressure (class e)) eqn:Hp; simpl.
    + pose proof (mirrors_pressure l ep p t e Hp M) as Hm.
      assert (pressure_remaining (start_pressure (set_opened p None) t) t =
        Z.min (remains (pressure_budget l) t (first_of pressure_at now))
              (remains (retry_budget_ms l) t (first_of trouble_at now))) as Hr.
      { unfold pressure_remaining, remains, pressure_budget, now. by destruct Hm as [-> _ -> -> _ _ _ _ _ _ _]. }
      rewrite <-Hr. unfold classify. destruct (class e); try done; by destruct (is_some_and _ _).
    + assert (class e = SessionLimit) as Hs by (by destruct (class e)).
      unfold classify. rewrite Hs. by apply mirrors_session_limit.
Qed.

Lemma advance_settles l ep o t :
  (exists e, o = ObsError t e) \/ (exists v, o = ObsTick t v) -> advance l ep o = settle l (ep_add ep o) t.
Proof. by intros [[e ->]|[v ->]]. Qed.

(** One observation: the policy decides what is called for, and otherwise follows
    the episode. *)
Lemma observe_called_for l ep p o :
  in_u32 (max_failed_cycles l) -> 0 < speech_samples_without_final l -> mirrors l ep p ->
  decision (observe p o) = called_for l ep o /\
  (called_for l ep o = KeepCloud -> mirrors l (advance l ep o) (observe p o)).
Proof.
  intros Hmax Hsp M. pose proof (mi_keep _ _ _ M) as Hd. destruct o as [t e|t s|v|t v]; simpl observe.
  - unfold on_error. keeping Hd. unfold called_for. rewrite (advance_settles l ep _ t) by eauto.
    destruct (is_retryable (class e)) eqn:Hc.
    + pose proof (mirrors_classify l ep p t e Hmax M Hc) as Hm. cbv zeta in Hm.
      assert (forall a b c : Decision, match failover_policy (class e) with
                Failover => a | SurfacePolicy => b | Reconnect | Backoff => c end = c) as ->.
      { intros a b c. by destruct (class e). }
      destruct (_ && _); [by rewrite tick_decided, Hm by (by rewrite Hm)|].
      destruct (_ && _); [by rewrite tick_decided, Hm by (by rewrite Hm)|].
      destruct (mirrors_tick _ _ _ t (speech_at_final (classify p t e)) Hm) as [Hw Hk].
      assert ((speech_samples_without_final l <=?
                 sat_sub (speech_at_final (classify p t e)) (ep_final (ep_add ep (ObsError t e)))) = false) as Hz.
      { rewrite (mi_final _ _ _ Hm). apply Z.leb_gt. mlia. }
      rewrite Hz in Hw, Hk. split; done.
    + assert (decision (classify p t e) <> KeepCloud) as Hdec.
      { unfold classify. by destruct (class e). }
      rewrite tick_decided by done. unfold classify in *. destruct (class e); done.
  - pose proof (mirrors_state l ep p t s M) as Hm. split; [apply (mi_keep _ _ _ Hm) | done].
  - unfold confirmed_final. keeping Hd. split; [done|]. intros _. destruct M. constructor; simpl; try done; [|by left].
    rewrite link_now_snoc. done.
  - pose proof (mirrors_add_tick l ep p t v M) as Hm. unfold called_for.
    rewrite (advance_settles l ep _ t) by eauto.
    destruct (mirrors_tick _ _ _ t v Hm) as [Hw Hk]. simpl ep_final in *.
    destruct (overrun l _ t) as [r|]; [rewrite bool_decide_false by done; done|].
    rewrite bool_decide_true by done. simpl. by destruct (_ <=? _).
Qed.

Lemma observes_judged l ep p h :
  in_u32 (max_failed_cycles l) -> 0 < speech_samples_without_final l -> mirrors l ep p ->
  decision (observes p h) = judged l ep h.
Proof.
  intros Hmax Hsp. revert ep p. induction h as [|o h IH]; intros ep p M; [apply (mi_keep _ _ _ M)|].
  simpl. destruct (observe_called_for l ep p o Hmax Hsp M) as [Hd Hk].
  destruct (decide (called_for l ep o = KeepCloud)) as [E|E]; [by apply IH, Hk|].
  change (foldl observe (observe p o) h) with (observes (observe p o) h).
  rewrite observes_decided by congruence. exact Hd.
Qed.

(** C26: Every switch is earned, and every one earned is made.  Whatever the worker
    observed, the policy decides exactly what the history calls for, and when it
    first does.  The history is cut into episodes of trouble: a confirmed final ends
    one, and so does a socket found quietly open for the healthy time.  Within the
    current episode alone, credentials and quota switch at once and our own errors
    surface; transport switches when as many announced reconnects have failed as the
    cycle budget or the first trouble is older than the retry budget; rate pressure
    when the first of it, or the trouble, has outlasted its budget or the server asks
    for a longer wait than is left; and a tick when that much speech was confirmed
    since the last final, so silence, however long, never switches.  Nothing of an
    episode that ended counts. *)
Theorem every_switch_is_earned (l : HandoffLimits) (h : list Observation) :
  in_u32 (max_failed_cycles l) -> 0 < speech_samples_without_final l ->
  decision (observes (policy_new l) h) = judged l calm_start h.
Proof. intros Hmax Hsp. by apply observes_judged, mirrors_start. Qed.

(** Two reconnects fail, a final ends the episode, and two more do not switch; the
    third in the new episode does. *)
Lemma every_switch_is_earned_witness :
  let down t := [ObsState t Reconnecting; ObsError (t + 10) (stt_error_new Network "deepgram" "reset")] in
  let h := down 100 ++ down 200 ++ [ObsFinal (12 * 16000)] ++ down 300 ++ down 400 in
  decision (observes (policy_new limits_default) h) = KeepCloud /\
  decision (observes (policy_new limits_default) (h ++ down 500)) = Switch TransportBudget.
Proof.
  intros down h. rewrite !(every_switch_is_earned limits_default) by (vm_compute; split; done || reflexivity).
  split; vm_compute; reflexivity.
Defined.

(** ** Deadlines *)

(** An observation of an outage: neither a final nor an open socket. *)
Definition outage_obs (o : Observation) : Prop :=
  match o with ObsFinal _ => False | ObsState _ Open => False | _ => True end.

(** The cloud has been given up, or nothing is forgiving the episode that
    started by [t0]. *)
Definition outage_since (t0 : Z) (p : HandoffPolicy) : Prop :=
  decision p <> KeepCloud \/
  (opened_since p = None /\ last_state p <> Some Open /\
   exists t, transport_since p = Some t /\ t <= t0).

Lemma tick_outage t0 p now v : outage_since t0 p -> outage_since t0 (tick p now v).
Proof.
  intros [H|(Ho&Hs&t&Ht&Hle)].
  - left. unfold tick. by rewrite bool_decide_true.
  - destruct (decide (decision p = KeepCloud)) as [Hd|Hd];
      [|left; unfold tick; by rewrite bool_decide_true].
    unfold tick. keeping Hd. rewrite Ho. simpl.
    repeat (case_match; [left; simpl; done|]). right. eauto.
Qed.

Lemma observe_outage t0 p o : outage_obs o -> outage_since t0 p -> outage_since t0 (observe p o).
Proof.
  intros Ho Hp.
  destruct (decide (decision p = KeepCloud)) as [Hd|Hd]; [|rewrite observe_decided by done; by left].
  destruct Hp as [Hp|(Hopen&Hs&t&Ht&Hle)]; [done|].
  assert (Hk : outage_since t0 p) by (right; eauto).
  destruct o as [now e|now st|v|now v]; simpl in *; [| |done|by apply tick_outage].
  - unfold on_error. keeping Hd. apply tick_outage.
    unfold classify. rewrite (bool_decide_eq_false_2 (last_state p = Some Open)) by done.
    rewrite andb_false_r. unfold fail_cycle.
    repeat case_match; try (left; simpl; done); try exact Hk;
      right; simpl; rewrite Ht; simpl; eauto 10.
  - unfold on_state. keeping Hd.
    destruct st; try done; right; simpl; rewrite ?Ht; simpl; split_and!; eauto.
Qed.

Lemma observes_outage t0 p h :
  Forall outage_obs h -> outage_since t0 p -> outage_since t0 (observes p h).
Proof.
  intros H. revert p. induction H as [|o h Ho _ IH]; intros p Hp; [done|].
  apply IH. by apply observe_outage.
Qed.

(** The time an episode is dated from was observed. *)
Lemma transport_since_tick p now v t :
  transport_since (tick p now v) = Some t -> transport_since p = Some t.
Proof. unfold tick. by repeat case_match. Qed.

Lemma transport_since_observe p o t :
  transport_since (observe p o) = Some t -> transport_since p = Some t \/ obs_time o = Some t.
Proof.
  assert (Hstart : forall q now, transport_since (start_transport q now) = Some t ->
    transport_since q = Some t \/ Some now = Some t).
  { intros q now. simpl. unfold get_or_insert. destruct (transport_since q); simpl; auto. }
  destruct o as [now e|now s|v|now v]; simpl; [|unfold on_state|unfold confirmed_final|intros H; left; by eapply transport_since_tick].
  - unfold on_error. case_bool_decide; [by left|]. intros Ht%transport_since_tick. revert Ht.
    unfold classify, fail_cycle. destruct (class e); repeat case_match; simpl; auto; apply Hstart.
  - case_bool_decide; [by left|]. destruct s; repeat case_match; simpl; auto.
  - case_bool_decide; [by left | done].
Qed.

Lemma transport_since_observed l h t :
  transport_since (observes (policy_new l) h) = Some t -> exists o, o ∈ h /\ obs_time o = Some t.
Proof.
  induction h as [|o h IH] using rev_ind; [done|]. rewrite observes_app. simpl.
  intros [H|H]%transport_since_observe.
  - destruct (IH H) as (x&?&?). exists x. rewrite elem_of_app. auto.
  - exists o. rewrite elem_of_app, list_elem_of_singleton. auto.
Qed.

(** An outage cannot outlast the retry budget.  After a network error at
    [t0] on a socket not reported open, whatever happens next short of a
    confirmed final or an open socket, a tick at or after [t0] plus the budget
    finds the policy no longer keeping the cloud, provided the clock did not run
    backwards before [t0]. *)
Theorem outage_is_bounded (l : HandoffLimits) (h mid : list Observation) (t0 t v : Z) (e : SttError) :
  0 < speech_samples_without_final l ->
  (forall o t', o ∈ h -> obs_time o = Some t' -> t' <= t0) ->
  last_state (observes (policy_new l) h) <> Some Open ->
  class e = Network -> Forall outage_obs mid -> t0 + retry_budget_ms l <= t ->
  decision (observes (policy_new l) (h ++ ObsError t0 e :: mid ++ [ObsTick t v])) <> KeepCloud.
Proof.
  intros Hl Hclock Hs He Hmid Ht. rewrite observes_app.
  set (p := observes (policy_new l) h) in *. simpl. fold (observes (on_error p t0 e) (mid ++ [ObsTick t v])).
  rewrite observes_app.
  assert (Hout : outage_since t0 (on_error p t0 e)).
  { destruct (decide (decision p = KeepCloud)) as [Hd|Hd];
      [|left; unfold on_error; by rewrite bool_decide_true].
    unfold on_error. keeping Hd. apply tick_outage.
    unfold classify. rewrite He. simpl. unfold fail_cycle.
    assert (Hst : exists t, transport_since (start_transport (set_opened p None) t0) = Some t /\ t <= t0).
    { simpl. unfold get_or_insert. destruct (transport_since p) as [t'|] eqn:E; simpl; [|by exists t0].
      destruct (transport_since_observed l h t' E) as (o&?&?). exists t'. split; [done|].
      by apply (Hclock o). }
    repeat case_match; try (left; simpl; done); right; simpl; split_and!; done. }
  pose proof (observes_outage t0 _ mid Hmid Hout) as Hq.
  assert (Hlim : limits (observes (on_error p t0 e) mid) = l).
  { rewrite observes_limits. change (on_error p t0 e) with (observe p (ObsError t0 e)).
    by rewrite observe_limits; unfold p; rewrite observes_limits. }
  set (q := observes _ mid) in *. change (observes q [ObsTick t v]) with (tick q t v).
  destruct (decide (decision q = KeepCloud)) as [Hd|Hd];
    [|unfold tick; by rewrite bool_decide_true].
  destruct Hq as [?|(Ho&_&t1&Ht1&Hle)]; [done|].
  unfold tick. keeping Hd. rewrite Ho. simpl. rewrite Ht1. simpl.
  rewrite Hlim, (proj2 (Z.leb_le (retry_budget_ms l) (sat_sub t t1))) by mlia.
  by repeat case_match.
Qed.

Lemma outage_is_bounded_witness :
  decision (observes (policy_new limits_default)
    ([ObsState 0 Connecting; ObsState 50 Open; ObsState 900 Reconnecting] ++
     ObsError 1000 (stt_error_new Network "deepgram" "reset") ::
     [ObsTick 5000 100; ObsState 6000 Reconnecting] ++ [ObsTick 16000 100])) <> KeepCloud.
Proof.
  apply (outage_is_bounded limits_default).
  - reflexivity.
  - intros o t' Ho Ht. repeat (apply elem_of_cons in Ho as [->|Ho]; [simplify_eq/=; lia|]).
    by apply not_elem_of_nil in Ho.
  - vm_compute. done.
  - reflexivity.
  - repeat constructor.
  - vm_compute. done.
Defined.

(** ** The cycle budget *)

(** One failed reconnect: the stream says it is reconnecting, perhaps opens,
    and dies again with a transport error. *)
Record FailedCycle := mkCycle {
  cy_reconnect : Z;
  cy_open : option Z;
  cy_error : Z;
  cy_what : SttError;
}.

Definition cycle_observations (c : FailedCycle) : list Observation :=
  ObsState (cy_reconnect c) Reconnecting ::
  match cy_open c with Some t => [ObsState t Open] | None => [] end ++
  [ObsError (cy_error c) (cy_what c)].

Definition transport_class (e : SttError) : Prop := class e = Network \/ class e = Server.

(** Mid-episode, after [n] failed cycles since the first error at [t0]. *)
Definition episode (l : HandoffLimits) (t0 n : Z) (p : HandoffPolicy) : Prop :=
  limits p = l /\ decision p = KeepCloud /\ transport_since p = Some t0 /\
  pressure_since p = None /\ failed_cycles p = n /\ cycle_armed p = false.

Lemma episode_tick l t0 n p now :
  episode l t0 n p -> 0 < healthy_open_ms l -> 0 < speech_samples_without_final l ->
  (opened_since p = None \/ opened_since p = Some now) ->
  now < t0 + retry_budget_ms l -> t0 <= now ->
  tick p now (speech_at_final p) = p.
Proof.
  intros (Hl&Hd&Ht&Hp&Hf&Ha) Hh Hs Ho Hb Hle. unfold tick.
  keeping Hd.
  assert (Hopen : is_some_and (opened_since p)
    (fun opened => healthy_open_ms (limits p) <=? sat_sub now opened) = false).
  { destruct Ho as [-> | ->]; [done|]. simpl. apply Z.leb_gt. rewrite Hl. mlia. }
  rewrite Hopen, Ht, Hp, Hl. simpl.
  rewrite (proj2 (Z.leb_gt (retry_budget_ms l) (sat_sub now t0))) by mlia.
  rewrite (proj2 (Z.leb_gt (speech_samples_without_final l) _)); [done|]. mlia.
Qed.

Lemma episode_cycle l t0 n p c :
  episode l t0 n p -> 0 < healthy_open_ms l -> 0 < speech_samples_without_final l ->
  0 <= n < u32_max -> transport_class (cy_what c) ->
  t0 <= cy_error c < t0 + retry_budget_ms l ->
  if max_failed_cycles l <=? n + 1
  then decision (observes p (cycle_observations c)) = Switch TransportBudget
  else episode l t0 (n + 1) (observes p (cycle_observations c)).
Proof.
  intros Hep Hh Hs Hn Hc Ht. pose proof Hep as (Hl&Hd&Htr&Hp&Hf&Ha).
  assert (Hpre : exists q, observes p (cycle_observations c) = on_error q (cy_error c) (cy_what c) /\
    limits q = l /\ decision q = KeepCloud /\ transport_since q = Some t0 /\
    pressure_since q = None /\ failed_cycles q = n /\ cycle_armed q = true).
  { unfold cycle_observations. destruct (cy_open c) as [t|]; cbn [app observes foldl observe].
    - eexists. split; [reflexivity|]. unfold on_state.
      repeat (rewrite bool_decide_false by (simpl; rewrite Hd; tauto)). simpl. done.
    - eexists. split; [reflexivity|]. unfold on_state.
      keeping Hd. simpl. done. }
  destruct Hpre as (q&->&Hl'&Hd'&Ht'&Hp'&Hf'&Ha'). unfold on_error.
  keeping Hd'.
  assert (Hcl : exists o, (o = None \/ o = Some (cy_error c)) /\
    classify q (cy_error c) (cy_what c) =
    fail_cycle (start_transport (set_opened q o) (cy_error c))).
  { unfold classify. destruct Hc as [-> | ->]; simpl; [eexists; split; [|reflexivity]; auto|].
    case_bool_decide; eexists; (split; [|reflexivity]); auto. }
  destruct Hcl as (o&Ho&->). unfold fail_cycle. simpl. rewrite Ha', Hf', Hl', Ht'. simpl.
  assert (Hsat : sat_add32 n 1 = n + 1) by mlia. rewrite Hsat.
  destruct (Z.leb_spec (max_failed_cycles l) (n + 1)).
  - unfold tick. by rewrite bool_decide_true.
  - set (r := mkPolicy _ _ _ _ _ _ _ _ _ _).
    assert (Hr : episode l t0 (n + 1) r) by (unfold episode, r; simpl; by rewrite Hd').
    change (speech_at_final q) with (speech_at_final r).
    rewrite (episode_tick l t0 (n + 1)); try done; lia.
Qed.

Lemma episode_cycles l t0 cs n p :
  episode l t0 n p -> 0 < healthy_open_ms l -> 0 < speech_samples_without_final l ->
  0 <= n -> n < max_failed_cycles l <= u32_max ->
  Forall (fun c => transport_class (cy_what c) /\ t0 <= cy_error c < t0 + retry_budget_ms l) cs ->
  decision (observes p (cs ≫= cycle_observations)) =
  if max_failed_cycles l <=? n + zlen cs then Switch TransportBudget else KeepCloud.
Proof.
  intros Hep Hh Hs Hn Hmax Hcs. revert n p Hep Hn Hmax.
  induction Hcs as [|c cs [Hc Ht] _ IH]; intros n p Hep Hn Hmax.
  - unfold zlen. simpl. rewrite (proj2 (Z.leb_gt _ _)) by lia. apply Hep.
  - rewrite bind_cons, observes_app. unfold zlen. simpl length.
    pose proof (episode_cycle l t0 n p c Hep Hh Hs ltac:(lia) Hc Ht) as Hone.
    destruct (Z.leb_spec (max_failed_cycles l) (n + 1)) as [E|E].
    + rewrite observes_decided by (by rewrite Hone). rewrite Hone.
      by rewrite (proj2 (Z.leb_le _ _)) by lia.
    + rewrite (IH (n + 1)) by (done || lia). unfold zlen.
      by replace (n + 1 + Z.of_nat (length cs)) with (n + Z.of_nat (S (length cs))) by lia.
Qed.

(** The reconnect budget is exact.  From a healthy start, a first network
    error and then any number of failed reconnect cycles inside the retry
    budget, whether or not the socket opened in between, switch exactly when
    their number reaches the limit; the initial disconnect does not count. *)
Theorem failed_cycles_budget_is_exact (l : HandoffLimits) (t0 : Z) (e0 : SttError) (cs : list FailedCycle) :
  0 < healthy_open_ms l -> 0 < speech_samples_without_final l -> 0 < retry_budget_ms l ->
  0 < max_failed_cycles l <= u32_max -> class e0 = Network ->
  Forall (fun c => transport_class (cy_what c) /\ t0 <= cy_error c < t0 + retry_budget_ms l) cs ->
  decision (observes (policy_new l) (ObsError t0 e0 :: cs ≫= cycle_observations)) =
  if max_failed_cycles l <=? zlen cs then Switch TransportBudget else KeepCloud.
Proof.
  intros Hh Hs Hb Hm He Hcs. simpl.
  set (q := start_transport (set_opened (policy_new l) None) t0).
  assert (Hq : episode l t0 0 q) by done.
  assert (Hfirst : on_error (policy_new l) t0 e0 = q).
  { unfold on_error, classify. rewrite bool_decide_false by tauto. rewrite He. simpl.
    apply (episode_tick l t0 0); try done; try lia. by left. }
  rewrite Hfirst. rewrite (episode_cycles l t0 cs 0 q) by (done || lia). done.
Qed.

Lemma failed_cycles_budget_is_exact_witness :
  let net := stt_error_new Network "deepgram" "reset" in
  let cs := [mkCycle 200 (Some 400) 500 net; mkCycle 700 None 900 net; mkCycle 1100 (Some 1200) 1300 net] in
  decision (observes (policy_new limits_default) (ObsError 100 net :: cs ≫= cycle_observations))
  = Switch TransportBudget.
Proof.
  intros net cs. apply (failed_cycles_budget_is_exact limits_default 100 net cs); try done.
  repeat (constructor; [split; [by left | simpl; lia]|]). constructor.
Defined.

(** ** Rate pressure *)

(** A server's [Retry-After] is never cut short, and never waited for past
    the budget.  A rate-limit or concurrency error on an otherwise healthy leg
    switches at once exactly when the wait it asks for exceeds the pressure
    budget (or that budget is nil); otherwise the cloud is kept, and a tick with
    no recovery switches exactly when the budget has elapsed since the error. *)
Theorem retry_after_is_honoured (l : HandoffLimits) (t0 t v : Z) (e : SttError) :
  let budget := Z.min (rate_pressure_budget_ms l) (retry_budget_ms l) in
  let p := on_error (policy_new l) t0 e in
  class e = RateLimit \/ class e = Concurrency ->
  0 < budget -> 0 < speech_samples_without_final l -> t0 <= t ->
  v < speech_samples_without_final l ->
  (decision p = if is_some_and (retry_after_ms e) (fun wait => budget <? wait)
                then Switch RateLimitBudget else KeepCloud) /\
  (decision p = KeepCloud ->
   decision (tick p t v) = if budget <=? t - t0 then Switch RateLimitBudget else KeepCloud).
Proof.
  intros budget p Hc Hb Hs Ht Hv.
  assert (Hcl : classify (policy_new l) t0 e =
    let q := start_pressure (set_opened (policy_new l) None) t0 in
    if is_some_and (retry_after_ms e) (fun wait => pressure_remaining q t0 <? wait)
    then decide_to q (Switch RateLimitBudget) else q).
  { unfold classify. by destruct Hc as [-> | ->]. }
  set (q := start_pressure (set_opened (policy_new l) None) t0) in *. cbv zeta in Hcl.
  assert (Hrem : pressure_remaining q t0 = budget).
  { unfold pressure_remaining, q, budget. simpl. mlia. }
  assert (Htick : forall now, t0 <= now -> forall v', v' < speech_samples_without_final l ->
    decision (tick q now v') = (if budget <=? now - t0 then Switch RateLimitBudget else KeepCloud) /\
    (now - t0 < budget -> tick q now v' = q)).
  { intros now Hnow v' Hv'. unfold tick. simpl. fold budget.
    replace (sat_sub now t0) with (now - t0) by mlia. rewrite orb_false_r.
    destruct (Z.leb_spec budget (now - t0)) as [E|E]; [split; [done | lia]|].
    rewrite (proj2 (Z.leb_gt (speech_samples_without_final l) (sat_sub v' 0))) by mlia. done. }
  assert (Hp : p = if is_some_and (retry_after_ms e) (fun wait => budget <? wait)
                   then decide_to q (Switch RateLimitBudget) else q).
  { unfold p, on_error. rewrite bool_decide_false by tauto. rewrite Hcl, Hrem.
    generalize (is_some_and (retry_after_ms e) (fun wait => budget <? wait)) as b.
    intros []; [done|]. apply (Htick t0); simpl; lia. }
  rewrite Hp. generalize (is_some_and (retry_after_ms e) (fun wait => budget <? wait)) as b.
  intros []; [split; [done | discriminate]|]. split; [done|].
  intros _. exact (proj1 (Htick t Ht v Hv)).
Qed.

Lemma retry_after_is_honoured_witness :
  let e := with_retry_after_ms (stt_error_new RateLimit "deepgram" "slow down") 60000 in
  decision (on_error (policy_new limits_default) 10 e) = Switch RateLimitBudget.
Proof.
  intros e.
  exact (proj1 (retry_after_is_honoured limits_default 10 20 0 e (or_introl eq_refl)
                  eq_refl eq_refl ltac:(lia) eq_refl)).
Defined.
