(* ===== verification/Json.v ===== *)
(** * What the journals ask of [serde_json]

    The sources serialize records with [serde_json] and read them back line by
    line.  The library itself is not modelled: it is the class [Serde], whose
    [to_chunks] is the sequence of writes [serde_json::to_writer] makes and whose
    [from_slice] is its parser, and the class [JsonLines] states the documented
    behaviour the journals rely on: the compact form of a value contains no raw
    line feed, and a line made of it parses back to the same value (exact for
    finite floats too, since the build enables [float_roundtrip]).

    A reference codec with both properties, for any type assembled from
    countable leaves, shows the class is inhabited; the theorems of its clients
    are instantiated with it in their witnesses. *)

From stdpp Require Import countable.
From S2P Require Import Prelude Bytes Float32 SttTypes CoverageTypes.

Local Open Scope Z_scope.

Definition LF : Z := 10.

Class Serde (A : Type) := {
  to_chunks : A -> list bytes;
  from_slice : bytes -> option A;
}.

Definition to_vec {A} `{Serde A} (a : A) : bytes := concat (to_chunks a).

Class JsonLines (A : Type) `{Serde A} (good : A -> Prop) := {
  json_no_newline a : Forall (fun b => b <> LF) (to_vec a);
  json_roundtrip a : good a -> from_slice (to_vec a ++ [LF]) = Some a;
}.

(** ** The reference codec *)

(** Its bytes are neither a line terminator nor the closing brace a document ends
    with. *)
Definition BRACE : Z := 125.
Definition CR : Z := 13.
Definition clean_byte (b : Z) : Prop := b <> LF /\ b <> CR /\ b <> BRACE.

Class Codec (A : Type) := {
  put : A -> bytes;
  get : bytes -> option (A * bytes);
  get_put a rest : get (put a ++ rest) = Some (a, rest);
  put_clean a : Forall clean_byte (put a);
}.

Fixpoint put_bits (p : positive) : bytes :=
  match p with
  | xH => [44]
  | xO p => 48 :: put_bits p
  | xI p => 49 :: put_bits p
  end.

Fixpoint get_bits (bs : bytes) : option (positive * bytes) :=
  match bs with
  | [] => None
  | b :: bs =>
      if b =? 44 then Some (xH, bs)
      else '(p, rest) ← get_bits bs;
           Some (if b =? 48 then xO p else xI p, rest)
  end.

Lemma get_put_bits p rest : get_bits (put_bits p ++ rest) = Some (p, rest).
Proof. induction p as [p IH|p IH|]; simpl; rewrite ?IH; done. Qed.

Lemma put_bits_clean p : Forall clean_byte (put_bits p).
Proof. induction p; simpl; constructor; (done || constructor). Qed.

(** A countable leaf. *)
Program Definition codec_leaf {A} `{Countable A} : Codec A := {|
  put a := put_bits (encode a);
  get bs := '(p, rest) ← get_bits bs; a ← decode p; Some (a, rest);
|}.
Next Obligation. intros A ? ? a rest. simpl. rewrite get_put_bits. simpl. by rewrite decode_encode. Qed.
Next Obligation. intros A ? ? a. apply put_bits_clean. Qed.

Program Definition codec_pair {A B} `{Codec A, Codec B} : Codec (A * B) := {|
  put '(a, b) := put a ++ put b;
  get bs := '(a, bs) ← get bs; '(b, bs) ← get bs; Some ((a, b), bs);
|}.
Next Obligation. intros A B ? ? [a b] rest. simpl. rewrite <-app_assoc, get_put. simpl. by rewrite get_put. Qed.
Next Obligation. intros A B ? ? [a b]. apply Forall_app. split; apply put_clean. Qed.

(** A type that embeds in another. *)
Program Definition codec_iso {A B} `{Codec B} (f : A -> B) (g : B -> A) (gf : forall a, g (f a) = a) : Codec A := {|
  put a := put (f a);
  get bs := '(b, bs) ← get bs; Some (g b, bs);
|}.
Next Obligation. intros A B ? f g gf a rest. simpl. rewrite get_put. simpl. by rewrite gf. Qed.
Next Obligation. intros A B ? f g gf a. apply put_clean. Qed.

Program Definition codec_sum {A B} `{Codec A, Codec B} : Codec (A + B) := {|
  put s := match s with inl a => 60 :: put a | inr b => 62 :: put b end;
  get bs := match bs with
            | [] => None
            | b :: bs => if b =? 60 then '(a, bs) ← get bs; Some (inl a, bs)
                         else '(b, bs) ← get bs; Some (inr b, bs)
            end;
|}.
Next Obligation. intros A B ? ? [a|b] rest; simpl; by rewrite get_put. Qed.
Next Obligation. intros A B ? ? [a|b]; constructor; (done || apply put_clean). Qed.

(** Lists, behind their length in unary so that parsing is structural. *)
Fixpoint put_list {A} `{Codec A} (l : list A) : bytes :=
  match l with [] => [93] | a :: l => 91 :: put a ++ put_list l end.

Fixpoint get_list {A} `{Codec A} (fuel : nat) (bs : bytes) : option (list A * bytes) :=
  match fuel, bs with
  | S fuel, b :: bs =>
      if b =? 93 then Some ([], bs)
      else '(a, bs) ← get bs; '(l, bs) ← get_list fuel bs; Some (a :: l, bs)
  | _, _ => None
  end.

Lemma get_put_list {A} `{Codec A} (l : list A) fuel rest :
  (length (put_list l) <= fuel)%nat -> get_list fuel (put_list l ++ rest) = Some (l, rest).
Proof.
  revert fuel. induction l as [|a l IH]; intros [|fuel] Hf; simpl in Hf; try lia; [done|].
  simpl. rewrite <-app_assoc, get_put. simpl. rewrite length_app in Hf. by rewrite IH by lia.
Qed.

Program Definition codec_list {A} `{Codec A} : Codec (list A) := {|
  put := put_list;
  get bs := get_list (length bs) bs;
|}.
Next Obligation. intros A ? l rest. apply get_put_list. rewrite length_app. lia. Qed.
Next Obligation.
  intros A ? l. induction l as [|a l IH]; simpl; [repeat constructor; done|].
  constructor; [done|]. apply Forall_app. split; [apply put_clean | done].
Qed.

Definition codec_option {A} `{Codec A} : Codec (option A).
Proof.
  pose (c := codec_sum (A := A) (B := unit) (H0 := codec_leaf)).
  refine (codec_iso (B := A + unit) (fun o => match o with Some a => inl a | None => inr tt end)
            (fun s => match s with inl a => Some a | inr _ => None end) _).
  by intros [].
Defined.

(** A codec is a serializer whose one write is the whole record. *)
Definition serde_of_codec {A} `{Codec A} : Serde A := {|
  to_chunks a := [put a];
  from_slice bs := match get bs with
                   | Some (a, rest) => if bool_decide (rest = [LF]) then Some a else None
                   | None => None
                   end;
|}.

Lemma json_lines_of_codec {A} `{Codec A} (good : A -> Prop) :
  @JsonLines A serde_of_codec good.
Proof.
  split.
  - intros a. unfold to_vec. simpl. rewrite app_nil_r.
    eapply Forall_impl; [apply put_clean|]. by intros b [? _].
  - intros a _. unfold to_vec. simpl. rewrite app_nil_r, get_put. simpl. done.
Qed.

(** ** The codec of a coverage entry *)

Module EntryCodec.

#[local] Existing Instances codec_pair codec_sum codec_list codec_option.
#[local] Instance c_Z : Codec Z := codec_leaf.
#[local] Instance c_bool : Codec bool := codec_leaf.
#[local] Instance c_string : Codec string := codec_leaf.
#[local] Instance c_unit : Codec unit := codec_leaf.
#[local] Instance c_positive : Codec positive := codec_leaf.

#[local] Instance c_float : Codec SpecFloat.spec_float.
Proof.
  refine (codec_iso (B := (bool + bool) + (unit + bool * positive * Z))
    (fun x => match x with
              | SpecFloat.S754_zero s => inl (inl s)
              | SpecFloat.S754_infinity s => inl (inr s)
              | SpecFloat.S754_nan => inr (inl tt)
              | SpecFloat.S754_finite s m e => inr (inr (s, m, e))
              end)
    (fun y => match y with
              | inl (inl s) => SpecFloat.S754_zero s
              | inl (inr s) => SpecFloat.S754_infinity s
              | inr (inl _) => SpecFloat.S754_nan
              | inr (inr (s, m, e)) => SpecFloat.S754_finite s m e
              end) _).
  intros []; done.
Defined.

(** An enumeration, as the index of its constructor in a list. *)
Definition index_of {A} `{EqDecision A} (x : A) : list A -> Z :=
  fix go l := match l with
              | [] => 0
              | y :: l => if decide (x = y) then 0 else 1 + go l
              end.

#[local] Instance c_feature : Codec FeatureAvailability.
Proof.
  refine (codec_iso (fun x => index_of x [Both; Streaming; Batch])
    (fun z => if z =? 0 then Both else if z =? 1 then Streaming else if z =? 2 then Batch else NoFeature) _).
  intros []; done.
Defined.

#[local] Instance c_vocabulary : Codec CustomVocabulary.
Proof.
  refine (codec_iso (fun x => index_of x [Keyterm; Keywords; Prompt])
    (fun z => if z =? 0 then Keyterm else if z =? 1 then Keywords else if z =? 2 then Prompt else NoVocabulary) _).
  intros []; done.
Defined.

#[local] Instance c_retention : Codec RetentionControl.
Proof.
  refine (codec_iso (fun x => index_of x [Param; HeaderControl; Contract])
    (fun z => if z =? 0 then Param else if z =? 1 then HeaderControl else if z =? 2 then Contract else NoControl) _).
  intros []; done.
Defined.

#[local] Instance c_source : Codec Source.
Proof.
  refine (codec_iso (fun x => match x with Mic => true | System => false end)
    (fun b : bool => if b then Mic else System) _). intros []; done.
Defined.

#[local] Instance c_timestamps : Codec TimestampSource.
Proof.
  refine (codec_iso (fun x => match x with Provider => true | Estimated => false end)
    (fun b : bool => if b then Provider else Estimated) _). intros []; done.
Defined.

#[local] Instance c_reason : Codec SwitchReason.
Proof.
  refine (codec_iso
    (fun x => index_of x [ReasonAuth; ReasonQuota; TransportBudget; RateLimitBudget; SpeechStall;
                          Manual; ResumePending])
    (fun z => if z =? 0 then ReasonAuth else if z =? 1 then ReasonQuota
              else if z =? 2 then TransportBudget else if z =? 3 then RateLimitBudget
              else if z =? 4 then SpeechStall else if z =? 5 then Manual
              else if z =? 6 then ResumePending else FinishingTail) _).
  intros []; done.
Defined.

#[local] Instance c_capabilities : Codec SttCapabilities.
Proof.
  refine (codec_iso
    (fun c => (streaming c, batch c, word_timestamps c, diarization c, language_detection c,
               custom_vocabulary c, max_file_bytes c, max_file_seconds c, native_rates c,
               retention_control c, supports_replay_faster_than_realtime c))
    (fun '(a, b, c, d, e, f, g, h, i, j, k) => mkCapabilities a b c d e f g h i j k) _).
  intros []; done.
Defined.

#[local] Instance c_engine : Codec EngineDescriptor.
Proof.
  refine (codec_iso (fun e => (provider e, model e, revision e, capabilities e))
    (fun '(a, b, c, d) => mkEngine a b c d) _). intros []; done.
Defined.

#[local] Instance c_endpoint : Codec EndpointConfig.
Proof.
  refine (codec_iso
    (fun e => (frame_ms e, preroll_ms e, hangover_ms e, min_speech_ms e, soft_max_ms e,
               hard_max_ms e, margin_db e, speech_floor_db e, floor_window_ms e, min_range_db e))
    (fun '(a, b, c, d, e, f, g, h, i, j) => mkEndpointConfig a b c d e f g h i j) _).
  intros []; done.
Defined.

#[local] Instance c_plan : Codec LocalPlan.
Proof.
  refine (codec_iso (fun p => (plan_engine p, language p, endpoint p))
    (fun '(a, b, c) => mkLocalPlan a b c) _). intros []; done.
Defined.

#[local] Instance c_epoch : Codec ProviderEpoch.
Proof.
  refine (codec_iso (fun e => (number e, ep_from_sample e, reason e, ep_engine e))
    (fun '(a, b, c, d) => mkEpoch a b c d) _). intros []; done.
Defined.

#[local] Instance c_word : Codec Word.
Proof.
  refine (codec_iso (fun w => (w_text w, w_start_ms w, w_end_ms w, w_confidence w, w_speaker w))
    (fun '(a, b, c, d, e) => mkWord a b c d e) _). intros []; done.
Defined.

#[local] Instance c_segment : Codec TranscriptSegment.
Proof.
  refine (codec_iso
    (fun s => (id s, seg_session_id s, seg_source s, speaker s, text s, start_ms s, end_ms s,
               words s, confidence s, seg_language s, is_final s, seg_revision s,
               seg_provider s, seg_model s, timestamp_source s))
    (fun '(a, b, c, d, e, f, g, h, i, j, k, l, m, n, o) =>
       mkSegment a b c d e f g h i j k l m n o) _).
  intros []; done.
Defined.

#[local] Instance c_commit : Codec CommittedAudio.
Proof.
  refine (codec_iso (fun c => (epoch c, from_sample c, through_sample c, segments c, gap c))
    (fun '(a, b, c, d, e) => mkCommitted a b c d e) _). intros []; done.
Defined.

#[local] Instance c_header : Codec Header.
Proof.
  refine (codec_iso
    (fun h => (schema h, session_id h, source h, first_sample h, initial h, fallback h))
    (fun '(a, b, c, d, e, f) => mkHeader a b c d e f) _). intros []; done.
Defined.

Definition c_entry : Codec Entry.
Proof.
  refine (codec_iso
    (fun e => match e with Opened h => inl h | Switched p => inr (inl p) | Committed c => inr (inr c) end)
    (fun s => match s with inl h => Opened h | inr (inl p) => Switched p | inr (inr c) => Committed c end) _).
  intros []; done.
Defined.

(** The reference serializer of journal entries. *)
Definition entry_serde : Serde Entry := @serde_of_codec Entry c_entry.

Definition entry_lines (good : Entry -> Prop) : @JsonLines Entry entry_serde good :=
  @json_lines_of_codec Entry c_entry good.

End EntryCodec.
