(* ===== verification/Replay.v ===== *)
(** * fotw-pipeline: the canonical audio file

    Models the core of [crates/fotw-pipeline/src/replay.rs]: the writer that
    appends mono 16 kHz PCM16 behind a header, and the independent reader that
    hands bounded slices of it to transcription.  A file is its bytes.  A write
    may stop short: the disk accepts [room] more bytes ([None]: all of them) and
    then fails, leaving what it accepted.  The offsets are [u64] with the checked
    arithmetic of the source.

    Reading, opening, locking and the JSON of the header are not modelled here
    (the header is [audio_offset] opaque bytes); nor are the completion and
    projection markers. *)

From S2P Require Import Prelude Bytes SttTypes CoverageTypes.

Local Open Scope Z_scope.

Definition SAMPLE_RATE : Z := 16000.
Definition MAX_READ_SAMPLES : Z := SAMPLE_RATE.

Inductive ReplaySource := ReplaySystem | ReplayMic.

#[export] Instance ReplaySource_eq_dec : EqDecision ReplaySource.
Proof. solve_decision. Defined.

Record ReplayHeader := mkReplayHeader {
  rp_session_id : string;
  rp_source : ReplaySource;
  sample_rate : Z;
  rp_first_sample : Z;
  processing_id : option string;
}.

(** The reader, with the bytes its file currently has. *)
Record ReplayReader := mkReader {
  r_file : bytes;
  r_header : ReplayHeader;
  audio_offset : Z;
}.

Definition has_identity (self : ReplayReader) (session : string) (src : ReplaySource) : bool :=
  bool_decide (rp_session_id (r_header self) = session)
  && bool_decide (rp_source (r_header self) = src).

Definition reader_first_sample (self : ReplayReader) : Z := rp_first_sample (r_header self).

(** [metadata()?.len().checked_sub(self.audio_offset)]. *)
Definition audio_bytes (self : ReplayReader) : result Z IoError :=
  match checked_sub (zlen (r_file self)) (audio_offset self) with
  | Some length => Ok length
  | None => Err (Invalid "replay header truncated")
  end.

Definition aligned (self : ReplayReader) : result bool IoError :=
  let? length := audio_bytes self in Ok (length mod 2 =? 0).

Definition available_end (self : ReplayReader) : result Z IoError :=
  let? length := audio_bytes self in
  match checked_add64 (reader_first_sample self) (length / 2) with
  | Some e => Ok e
  | None => Err (Invalid "replay sample clock overflow")
  end.

Definition complete_prefix_end (self : ReplayReader) : result Z IoError := available_end self.

Definition saved_end (self : ReplayReader) : result Z IoError :=
  let? a := aligned self in
  if a then available_end self else Err (Invalid "replay ends in a torn sample").

(** [synced] is what the device answers to [sync_data]. *)
Definition sync_through (self : ReplayReader) (through_sample : Z) (synced : result unit IoError)
  : result unit IoError :=
  if through_sample <? reader_first_sample self
  then Err (Invalid "checkpoint is outside saved replay audio")
  else
    let? e := available_end self in
    if e <? through_sample then Err (Invalid "checkpoint is outside saved replay audio") else synced.

Definition read_from (self : ReplayReader) (absolute_sample maximum : Z) : result (list Z) IoError :=
  if (maximum =? 0) || (MAX_READ_SAMPLES <? maximum)
  then Err (Invalid "replay reads must contain 1..=16000 samples")
  else
    match checked_sub absolute_sample (reader_first_sample self) with
    | None => Err (Invalid "replay cursor precedes source anchor")
    | Some relative =>
        let? e := available_end self in
        let samples := e - reader_first_sample self in
        match checked_sub samples relative with
        | None => Err (Invalid "replay cursor exceeds available audio")
        | Some remaining =>
            let count := Z.min remaining maximum in
            match n ← checked_mul64 relative 2; checked_add64 n (audio_offset self) with
            | None => Err (Invalid "replay byte offset overflow")
            | Some offset =>
                Ok (samples_of_bytes
                      (take (Z.to_nat (count * 2)) (drop (Z.to_nat offset) (r_file self))))
            end
        end
    end.

(** ** The writer *)

Record ReplayWriter := mkWriter {
  w_file : bytes;
  end_sample : Z;
  w_failed : bool;
  sealed : bool;
  prefix_only : bool;
}.

Definition check_healthy (self : ReplayWriter) : result unit IoError :=
  if w_failed self then Err (Invalid "replay writer failed; recovery required") else Ok tt.

(** [write_all]: the file after it, what room is left, and whether it failed. *)
Definition write_all (file : bytes) (room : option Z) (bs : bytes) : bytes * option Z * bool :=
  match room with
  | None => (file ++ bs, None, false)
  | Some n =>
      if zlen bs <=? n then (file ++ bs, Some (n - zlen bs), false)
      else (file ++ take (Z.to_nat n) bs, Some 0, true)
  end.

(** What the removal of a stale proof may answer. *)
Inductive Removal := Removed (directory_synced : bool) | Missing | RemovalFailed.

Definition removal_ok (r : Removal) : bool :=
  match r with Removed synced => synced | Missing => true | RemovalFailed => false end.

(** The loop over [pcm.chunks(1024)], each chunk one [write_all]. *)
Fixpoint write_chunks (rounds : nat) (file : bytes) (room : option Z) (pcm : list Z) : bytes * bool :=
  match rounds, pcm with
  | S rounds, _ :: _ =>
      let '(file, room, failed) := write_all file room (bytes_of_samples (take 1024 pcm)) in
      if failed then (file, true) else write_chunks rounds file room (drop 1024 pcm)
  | _, _ => (file, false)
  end.

Definition append_pcm (self : ReplayWriter) (pcm : list Z) (proofs : list Removal) (room : option Z)
  : ReplayWriter * result unit IoError :=
  match check_healthy self with
  | Err e => (self, Err e)
  | Ok _ =>
      if sealed self || prefix_only self
      then (self, Err (Invalid "replay input is permanently sealed"))
      else if zlen pcm =? 0 then (self, Ok tt)
      else
        match checked_add64 (end_sample self) (zlen pcm) with
        | None => (self, Err (Invalid "replay sample clock overflow"))
        | Some next =>
            let poisoned file :=
              mkWriter file (end_sample self) true (sealed self) (prefix_only self) in
            if negb (forallb removal_ok proofs)
            then (poisoned (w_file self), Err (OsError "stale proof"))
            else
              let '(file, failed) := write_chunks (length pcm) (w_file self) room pcm in
              if failed then (poisoned file, Err (OsError "write"))
              else (mkWriter file next (w_failed self) (sealed self) (prefix_only self), Ok tt)
        end
  end.

(** ** What was written is what is read *)

Lemma write_chunks_ok rounds file pcm :
  (length pcm <= rounds)%nat -> write_chunks rounds file None pcm = (file ++ bytes_of_samples pcm, false).
Proof.
  revert file pcm. induction rounds as [|rounds IH]; intros file pcm Hl.
  { destruct pcm; [|simpl in Hl; lia]. simpl. by rewrite app_nil_r. }
  destruct pcm as [|x pcm']; [simpl; by rewrite app_nil_r|]. set (pcm := x :: pcm') in *.
  change (write_chunks (S rounds) file None pcm) with
    (write_chunks rounds (file ++ bytes_of_samples (take 1024 pcm)) None (drop 1024 pcm)).
  rewrite IH by (rewrite length_drop; unfold pcm in *; simpl in *; lia).
  by rewrite <-app_assoc, <-bytes_of_samples_app, take_drop.
Qed.

(** Whatever the disk does, the file ends up as the old one and a prefix of the
    samples' bytes, the whole of them unless the write failed. *)
Lemma write_chunks_prefix rounds file room pcm :
  (length pcm <= rounds)%nat ->
  exists n, (write_chunks rounds file room pcm).1 = file ++ take n (bytes_of_samples pcm) /\
    ((write_chunks rounds file room pcm).2 = false -> take n (bytes_of_samples pcm) = bytes_of_samples pcm).
Proof.
  revert file room pcm. induction rounds as [|rounds IH]; intros file room pcm Hl.
  { destruct pcm; [|simpl in Hl; lia]. exists 0%nat. by rewrite app_nil_r. }
  destruct pcm as [|x pcm']; [exists 0%nat; by rewrite app_nil_r|]. set (pcm := x :: pcm') in *.
  set (a := bytes_of_samples (take 1024 pcm)).
  assert (Hsplit : bytes_of_samples pcm = a ++ bytes_of_samples (drop 1024 pcm)).
  { unfold a. by rewrite <-bytes_of_samples_app, take_drop. }
  assert (Hstep : write_chunks (S rounds) file room pcm =
    let '(file', room', failed) := write_all file room a in
    if failed then (file', true) else write_chunks rounds file' room' (drop 1024 pcm)) by done.
  rewrite Hstep. unfold write_all.
  assert (Hgo : forall room', exists n,
    (write_chunks rounds (file ++ a) room' (drop 1024 pcm)).1 = file ++ take n (bytes_of_samples pcm) /\
    ((write_chunks rounds (file ++ a) room' (drop 1024 pcm)).2 = false ->
     take n (bytes_of_samples pcm) = bytes_of_samples pcm)).
  { intros room'. destruct (IH (file ++ a) room' (drop 1024 pcm)) as (n&H1&H2).
    { rewrite length_drop. unfold pcm in *. simpl in *. lia. }
    exists (length a + n)%nat. rewrite H1, Hsplit, <-app_assoc.
    rewrite take_app_add. split; [done|]. intros H. by rewrite H2. }
  destruct room as [m|]; [|apply Hgo]. destruct (Z.leb_spec (zlen a) m); [apply Hgo|].
  exists (Z.to_nat m). split; [|done]. cbn [fst]. rewrite Hsplit, take_app_le; [done|].
  unfold zlen in *. lia.
Qed.

(** A file of [hdr] header bytes followed by the samples [pcm] and perhaps half
    of another sample, read on the clock that starts at [first]. *)
Definition reader_over (r : ReplayReader) (hdr : bytes) (pcm : list Z) (tail : bytes) : Prop :=
  r_file r = hdr ++ bytes_of_samples pcm ++ tail /\ zlen hdr = audio_offset r /\
  Forall is_i16 pcm /\ (length tail <= 1)%nat.

Lemma available_end_over r hdr pcm tail :
  reader_over r hdr pcm tail -> reader_first_sample r + zlen pcm <= u64_max ->
  available_end r = Ok (reader_first_sample r + zlen pcm).
Proof.
  intros (Hf&Ho&_&Ht) Hmax. unfold available_end, audio_bytes.
  assert (Hlen : zlen (r_file r) = audio_offset r + (2 * zlen pcm + Z.of_nat (length tail))).
  { rewrite Hf, !zlen_app, Ho. unfold zlen. rewrite bytes_of_samples_length. lia. }
  pose proof (zlen_nonneg pcm). rewrite Hlen, checked_sub_Some by lia. simpl.
  replace (audio_offset r + (2 * zlen pcm + Z.of_nat (length tail)) - audio_offset r)
    with (zlen pcm * 2 + Z.of_nat (length tail)) by lia.
  rewrite Z.div_add_l, (Z.div_small (Z.of_nat (length tail))), Z.add_0_r by lia.
  by rewrite checked_add64_Some.
Qed.

Lemma read_from_over r hdr pcm tail off n :
  reader_over r hdr pcm tail -> 0 <= reader_first_sample r ->
  reader_first_sample r + zlen pcm <= u64_max -> zlen (r_file r) <= u64_max ->
  0 <= off <= zlen pcm -> 1 <= n <= MAX_READ_SAMPLES ->
  read_from r (reader_first_sample r + off) n = Ok (take (Z.to_nat n) (drop (Z.to_nat off) pcm)).
Proof.
  intros Hr H0 Hmax Hfile Hoff Hn. unfold read_from.
  rewrite (proj2 (Z.eqb_neq n 0)), (proj2 (Z.ltb_ge MAX_READ_SAMPLES n)) by lia. simpl.
  rewrite checked_sub_Some by lia. rewrite (available_end_over r hdr pcm tail) by done. simpl.
  replace (reader_first_sample r + off - reader_first_sample r) with off by lia.
  replace (reader_first_sample r + zlen pcm - reader_first_sample r) with (zlen pcm) by lia.
  rewrite checked_sub_Some by lia. destruct Hr as (Hf&Ho&Hi&Ht).
  assert (Hlen : zlen (r_file r) = audio_offset r + (2 * zlen pcm + Z.of_nat (length tail))).
  { rewrite Hf, !zlen_app, Ho. unfold zlen. rewrite bytes_of_samples_length. lia. }
  pose proof (zlen_nonneg hdr).
  unfold checked_mul64. rewrite (proj2 (Z.leb_le (off * 2) u64_max)) by lia. simpl.
  rewrite checked_add64_Some by lia. f_equal. rewrite Hf.
  assert (Hdrop : drop (Z.to_nat (off * 2 + audio_offset r)) (hdr ++ bytes_of_samples pcm ++ tail) =
    bytes_of_samples (drop (Z.to_nat off) pcm) ++ tail).
  { rewrite <-Ho. rewrite drop_app_ge by (unfold zlen; lia).
    rewrite <-(take_drop (Z.to_nat off) pcm) at 1. rewrite bytes_of_samples_app, <-app_assoc.
    rewrite drop_app_length'; [done|]. rewrite bytes_of_samples_length, length_take.
    unfold zlen in *. lia. }
  rewrite Hdrop. set (rest := drop (Z.to_nat off) pcm) in *.
  assert (Hrest : length rest = Z.to_nat (zlen pcm - off)).
  { unfold rest. rewrite length_drop. unfold zlen. lia. }
  rewrite take_app_le by (rewrite bytes_of_samples_length, Hrest; lia).
  rewrite <-(take_drop (Z.to_nat n) rest) at 1. rewrite bytes_of_samples_app.
  rewrite take_app_length'.
  - apply samples_roundtrip. apply Forall_take. unfold rest. by apply Forall_drop.
  - rewrite bytes_of_samples_length, length_take, Hrest. lia.
Qed.

(** The bytes of a prefix of some samples are whole samples and at most half of
    another. *)
Lemma take_bytes_of_samples n pcm :
  exists k tail, take n (bytes_of_samples pcm) = bytes_of_samples (take k pcm) ++ tail /\
    (length tail <= 1)%nat.
Proof.
  revert n. induction pcm as [|x pcm IH]; intros n.
  { exists 0%nat, []. split; [by destruct n | simpl; lia]. }
  destruct n as [|[|n]].
  - exists 0%nat, []. split; [done | simpl; lia].
  - exists 0%nat, [Z.land x 255]. split; [done | simpl; lia].
  - destruct (IH n) as (k&tail&Hk&Ht). exists (S k), tail. split; [|done].
    unfold bytes_of_samples in *. rewrite firstn_cons, !bind_cons, <-app_assoc, <-Hk. done.
Qed.

(** A writer's file: header and every sample it has accepted. *)
Definition writer_holds (w : ReplayWriter) (hdr : bytes) (first : Z) (pcm : list Z) : Prop :=
  w_file w = hdr ++ bytes_of_samples pcm /\ end_sample w = first + zlen pcm /\
  w_failed w = false /\ sealed w = false /\ prefix_only w = false.

(** The reader finds exactly these samples: its end is theirs, and every bounded
    read anywhere in them returns the slice at that absolute clock. *)
Definition reads_back (r : ReplayReader) (pcm : list Z) : Prop :=
  complete_prefix_end r = Ok (reader_first_sample r + zlen pcm) /\
  forall off n, 0 <= off <= zlen pcm -> 1 <= n <= MAX_READ_SAMPLES ->
    read_from r (reader_first_sample r + off) n = Ok (take (Z.to_nat n) (drop (Z.to_nat off) pcm)).

Lemma reads_back_over hdr hd pcm tail :
  Forall is_i16 pcm -> (length tail <= 1)%nat -> 0 <= rp_first_sample hd ->
  rp_first_sample hd + zlen pcm <= u64_max -> zlen hdr + 2 * zlen pcm + 1 <= u64_max ->
  reads_back (mkReader (hdr ++ bytes_of_samples pcm ++ tail) hd (zlen hdr)) pcm.
Proof.
  intros Hi Ht H0 Hmax Hsz. set (r := mkReader _ hd (zlen hdr)).
  assert (Hover : reader_over r hdr pcm tail) by done.
  assert (Hfile : zlen (r_file r) <= u64_max).
  { unfold r. cbn [r_file]. rewrite !zlen_app. unfold zlen in *. rewrite bytes_of_samples_length. lia. }
  split; [by apply (available_end_over r hdr pcm tail)|].
  intros off n Hoff Hn. by apply (read_from_over r hdr pcm tail).
Qed.

(** The recording is what was captured, to the sample.  A healthy writer
    that accepts an append then holds exactly the old samples followed by the new
    ones, and one whose append fails keeps every old sample, perhaps some whole
    samples of the new and at most half of one more, and refuses every later
    append.  In both cases an independent reader of the file finds the samples
    held at their absolute clock, in reads of up to one second anywhere in them,
    and never sees the torn half. *)
Theorem replay_reads_what_was_written (w : ReplayWriter) (hdr : bytes) (hd : ReplayHeader)
    (pcm new : list Z) (proofs : list Removal) (room : option Z) :
  let first := rp_first_sample hd in
  writer_holds w hdr first pcm -> Forall is_i16 pcm -> Forall is_i16 new ->
  0 <= first -> first + zlen pcm + zlen new <= u64_max ->
  zlen hdr + 2 * (zlen pcm + zlen new) + 1 <= u64_max ->
  let '(w', res) := append_pcm w new proofs room in
  (res = Ok tt -> writer_holds w' hdr first (pcm ++ new)) /\
  (forall e, res = Err e -> w_failed w' = true /\
     forall more proofs' room', exists e', append_pcm w' more proofs' room' = (w', Err e')) /\
  exists k, (res = Ok tt -> take k new = new) /\
    reads_back (mkReader (w_file w') hd (zlen hdr)) (pcm ++ take k new).
Proof.
  intros first (Hwf&Hend&Hfail&Hseal&Hpre) Hpcm Hnew H0 Hmax Hfile.
  assert (Hreader : forall k tail file, (length tail <= 1)%nat ->
    file = hdr ++ bytes_of_samples (pcm ++ take k new) ++ tail ->
    reads_back (mkReader file hd (zlen hdr)) (pcm ++ take k new)).
  { intros k tail file Htail ->. apply (reads_back_over hdr hd _ tail); try done.
    - apply Forall_app. split; [done | by apply Forall_take].
    - rewrite zlen_app. unfold zlen in *. rewrite length_take. fold first. lia.
    - rewrite zlen_app. unfold zlen in *. rewrite length_take. lia. }
  unfold append_pcm, check_healthy. rewrite Hfail, Hseal, Hpre. simpl.
  assert (Hrefuse : forall file, forall more proofs' room', exists e',
    append_pcm (mkWriter file (end_sample w) true false false) more proofs' room' =
    (mkWriter file (end_sample w) true false false, Err e')) by (intros; by eexists).
  destruct (Z.eqb_spec (zlen new) 0) as [E|E].
  { assert (new = []) as -> by (destruct new; [done | unfold zlen in E; simpl in E; lia]).
    rewrite app_nil_r. split_and!; [done | done |]. exists 0%nat. split; [done|].
    apply (Hreader 0%nat []); [simpl; lia|]. by rewrite !app_nil_r. }
  rewrite Hend, checked_add64_Some by lia.
  destruct (forallb removal_ok proofs); simpl.
  2: { split; [done|]. split; [intros e _; split; [done|]; rewrite <-Hend; apply Hrefuse|].
       exists 0%nat. split; [done|]. apply (Hreader 0%nat []); [simpl; lia|]. by rewrite !app_nil_r. }
  destruct (write_chunks_prefix (length new) (w_file w) room new ltac:(done)) as (n&Hn&Hall).
  destruct (write_chunks (length new) (w_file w) room new) as [file failed]. simpl in Hn, Hall.
  destruct (take_bytes_of_samples n new) as (k&tail&Hk&Htail).
  assert (Hf : file = hdr ++ bytes_of_samples (pcm ++ take k new) ++ tail).
  { rewrite Hn, Hwf, Hk, bytes_of_samples_app, <-!app_assoc. done. }
  destruct failed.
  - split; [done|]. split; [intros e _; split; [done|]; rewrite <-Hend; apply Hrefuse|].
    exists k. split; [done|]. by apply (Hreader k tail).
  - specialize (Hall eq_refl). split; [|split; [done|]].
    + intros _. split_and!; try done; cbn [w_file end_sample].
      * by rewrite Hn, Hall, Hwf, bytes_of_samples_app, app_assoc.
      * rewrite zlen_app. lia.
    + exists (length new). rewrite firstn_all. split; [done|].
      pose proof (Hreader (length new) [] file ltac:(simpl; lia)) as Hr. rewrite firstn_all in Hr.
      apply Hr. by rewrite Hn, Hall, Hwf, bytes_of_samples_app, app_nil_r, app_assoc.
Qed.

Lemma replay_reads_what_was_written_witness :
  let hd := mkReplayHeader "s" ReplayMic 16000 1000 None in
  let w := mkWriter [1; 2; 3; 5; 0] 1001 false false false in
  let '(w', res) := append_pcm w [6; 7] [] (Some 3) in
  res = Err (OsError "write") /\ w_file w' = [1; 2; 3; 5; 0; 6; 0; 7] /\
  exists k, complete_prefix_end (mkReader (w_file w') hd (zlen [1; 2; 3])) =
            Ok (1000 + zlen ([5] ++ take k [6; 7])).
Proof.
  intros hd w.
  pose proof (replay_reads_what_was_written w [1; 2; 3] hd [5] [6; 7] [] (Some 3)
    ltac:(split_and!; reflexivity) ltac:(apply (bool_decide_unpack _); reflexivity)
    ltac:(apply (bool_decide_unpack _); reflexivity) ltac:(vm_compute; done)
    ltac:(vm_compute; done) ltac:(vm_compute; done)) as H.
  change (append_pcm w [6; 7] [] (Some 3)) with
    (mkWriter [1; 2; 3; 5; 0; 6; 0; 7] 1001 true false false,
     @Err unit IoError (OsError "write")) in *.
  split; [reflexivity|]. split; [reflexivity|].
  destruct H as (_&_&k&_&Hk&_). exists k. exact Hk.
Defined.

(** ** What the coverage journal may ask of its audio *)

(** The interface the journal uses: where the track starts, whose it is, a
    bounded read and a sync. *)
Class AudioTrack (R : Type) := {
  track_first : R -> Z;
  track_identity : R -> string -> ReplaySource -> bool;
  track_read : R -> Z -> Z -> result (list Z) IoError;
  track_sync : R -> Z -> result unit IoError -> result unit IoError;
}.

#[export] Instance replay_track : AudioTrack ReplayReader := {|
  track_first := reader_first_sample;
  track_identity := has_identity;
  track_read := read_from;
  track_sync := sync_through;
|}.

(** What it may rely on.  [reaches r t] says that the track holds audio from its
    start up to [t]: then it does up to anything in between, and a one-sample
    probe there succeeds.  A sync succeeds only inside the track and only if the
    device synced. *)
Class AudioTrackLaws (R : Type) `{AudioTrack R} (reaches : R -> Z -> Prop) := {
  track_reaches_down r t t' : reaches r t -> track_first r <= t' <= t -> reaches r t';
  track_read_reaches r t : reaches r t -> exists pcm, track_read r t 1 = Ok pcm;
  track_read_starts r t pcm : track_read r t 1 = Ok pcm -> track_first r <= t;
  track_sync_durable r t synced : track_sync r t synced = Ok tt -> synced = Ok tt /\ track_first r <= t;
}.

(** The canonical file holds whole samples up to [t], at offsets that fit. *)
Definition replay_reaches (r : ReplayReader) (t : Z) : Prop :=
  zlen (r_file r) <= u64_max /\ 0 <= audio_offset r /\
  exists e, available_end r = Ok e /\ reader_first_sample r <= t <= e.

#[export] Instance replay_track_laws : AudioTrackLaws ReplayReader replay_reaches.
Proof.
  split; simpl.
  - intros r t t' (?&?&e&?&?) ?. split_and!; [done..|]. exists e. split; [done | lia].
  - intros r t (Hsz&Hoff&e&He&Ht). unfold read_from. change (1 =? 0) with false.
    change (MAX_READ_SAMPLES <? 1) with false. simpl. rewrite checked_sub_Some, He by lia. simpl.
    rewrite checked_sub_Some by lia.
    assert (Hb : e - reader_first_sample r <= (zlen (r_file r) - audio_offset r) / 2).
    { revert He. unfold available_end, audio_bytes, checked_add64.
      destruct (checked_sub _ _) as [n|] eqn:E; [|done]. apply checked_sub_inv in E as [? ->].
      cbn [result_bind]. destruct (_ <=? u64_max); intros [= <-]. lia. }
    assert (Hn : (t - reader_first_sample r) * 2 + audio_offset r <= u64_max).
    { Z.div_mod_to_equations. lia. }
    unfold checked_mul64. rewrite (proj2 (Z.leb_le _ u64_max)) by lia. simpl.
    rewrite checked_add64_Some by lia. by eexists.
  - intros r t pcm. unfold read_from. simpl.
    destruct (checked_sub t _) eqn:E; [|done]. by apply checked_sub_inv in E as [? _].
  - intros r t synced. unfold sync_through.
    destruct (Z.ltb_spec t (reader_first_sample r)); [done|].
    destruct (available_end r) as [e|]; simpl; [|done]. case_match; [done|]. done.
Qed.
