(* ===== verification/Coverage.v ===== *)
(** * fotwd failover: the durable coverage journal

    Models [crates/fotwd/src/failover/coverage.rs]: the append-only journal of
    one source's transcript coverage, with its creation, its three mutating
    operations ([commit], [skip], [switch]), its recovery ([open]) and its
    read-only [snapshot].

    - The journal's file is its bytes.  A write or sync may fail
      ([WriteOutcome]): a short write leaves a prefix of the record, and either
      failure poisons the owner.
    - The canonical audio is the interface [AudioTrack] of Replay.v; it may have
      grown between two operations, so every operation takes the track as it is
      at that moment.
    - [serde_json] is the class [Serde] of Json.v.
    - The sidecar lock is whether it could be taken; reads of an existing file
      do not fail. *)

From S2P Require Import Prelude Bytes Float32 SttTypes CoverageTypes Json Replay.

Local Open Scope Z_scope.

Definition invalid (message : string) : IoError := Invalid message.

Definition replay_source (s : Source) : ReplaySource :=
  match s with System => ReplaySystem | Mic => ReplayMic end.

Definition journal_name (s : Source) : string :=
  match s with System => "system.stt-coverage.jsonl" | Mic => "mic.stt-coverage.jsonl" end.

(** ** Records on disk *)

(** [RecordBuffer::write]. *)
Definition record_write (buf bs : bytes) : result bytes IoError :=
  if sat_sub (MAX_RECORD_BYTES - 1) (zlen buf) <? zlen bs
  then Err (invalid "coverage record exceeds size limit")
  else Ok (buf ++ bs).

(** The serializer's writes, one after the other. *)
Fixpoint write_records (buf : bytes) (chunks : list bytes) : result bytes IoError :=
  match chunks with
  | [] => Ok buf
  | c :: chunks => let? buf := record_write buf c in write_records buf chunks
  end.

Definition encode_entry `{Serde Entry} (e : Entry) : result bytes IoError :=
  let? buf := write_records [] (to_chunks e) in Ok (buf ++ [LF]).

(** [take(limit).read_until(b'\n')]: the line with its line feed, and the rest. *)
Fixpoint read_until (limit : Z) (bs : bytes) : bytes * bytes :=
  match bs with
  | [] => ([], [])
  | b :: bs' =>
      if limit <=? 0 then ([], bs)
      else if b =? LF then ([b], bs')
      else let '(line, rest) := read_until (limit - 1) bs' in (b :: line, rest)
  end.

Definition read_line (bs : bytes) : result (bytes * bytes) IoError :=
  let '(line, rest) := read_until (MAX_RECORD_BYTES + 1) bs in
  if MAX_RECORD_BYTES <? zlen line then Err (invalid "coverage record exceeds size limit")
  else Ok (line, rest).

(** ** The journal *)

Record CoverageJournal := mkJournal {
  file : bytes;
  j_header : Header;
  cur_epoch : ProviderEpoch;
  epochs : list ProviderEpoch;
  commits : list CommittedAudio;
  ids : gset string;
  committed : Z;
  failed : bool;
  valid_bytes : Z;
}.

(** The journal with its file, its health and its validated length replaced. *)
Definition with_io (j : CoverageJournal) (f : bytes) (b : bool) (v : Z) : CoverageJournal :=
  mkJournal f (j_header j) (cur_epoch j) (epochs j) (commits j) (ids j) (committed j) b v.

Definition initial_epoch (h : Header) : ProviderEpoch :=
  mkEpoch 0 (first_sample h) None (initial h).

Definition from_header (file : bytes) (h : Header) : CoverageJournal :=
  mkJournal file h (initial_epoch h) [initial_epoch h] [] ∅ (first_sample h) false 0.

Definition healthy (self : CoverageJournal) : result unit IoError :=
  if failed self then Err (invalid "coverage journal failed; recovery required") else Ok tt.

Definition fallback_plan (self : CoverageJournal) : option LocalPlan := fallback (j_header self).
Definition committed_through (self : CoverageJournal) : Z := committed self.
Definition current_epoch (self : CoverageJournal) : ProviderEpoch := cur_epoch self.

Definition accept (self : CoverageJournal) (commit : CommittedAudio) : CoverageJournal :=
  mkJournal (file self) (j_header self) (cur_epoch self) (epochs self)
    (commits self ++ [commit]) (ids self ∪ list_to_set (id <$> segments commit))
    (through_sample commit) (failed self) (valid_bytes self).

(** [epochs.push(epoch.clone()); self.epoch = epoch]. *)
Definition enter_epoch (self : CoverageJournal) (e : ProviderEpoch) : CoverageJournal :=
  mkJournal (file self) (j_header self) e (epochs self ++ [e]) (commits self) (ids self)
    (committed self) (failed self) (valid_bytes self).

Definition validate_switch (self : CoverageJournal) (e : ProviderEpoch) : result unit IoError :=
  let? _ := validate_engine (ep_engine e) in
  if bool_decide (checked_add64 (number (cur_epoch self)) 1 <> Some (number e))
     || negb (ep_from_sample e =? committed self)
     || negb (is_some (reason e))
  then Err (invalid "invalid provider epoch transition")
  else Ok tt.

Definition word_ok (s : TranscriptSegment) (w : Word) : bool :=
  negb ((w_start_ms w <? start_ms s) || (end_ms s <? w_end_ms w) || (w_end_ms w <? w_start_ms w)
        || is_some_and (w_confidence w) (fun c => negb (f32_is_finite c))).

(** The condition a segment must not meet, with the ids already seen in this
    commit. *)
Definition segment_ok (self : CoverageJournal) (commit : CommittedAudio) (seen : gset string)
    (s : TranscriptSegment) : bool :=
  negb ((slen (id s) =? 0)
        || bool_decide (id s ∈ seen)
        || bool_decide (id s ∈ ids self)
        || negb (is_final s)
        || bool_decide (seg_session_id s <> session_id (j_header self))
        || bool_decide (seg_source s <> source (j_header self))
        || bool_decide (seg_provider s <> provider (ep_engine (cur_epoch self)))
        || bool_decide (seg_model s <> model (ep_engine (cur_epoch self)))
        || (start_ms s <? from_sample commit / 16)
        || (end_ms s <? start_ms s)
        || (through_sample commit / 16 <? end_ms s)
        || is_some_and (confidence s) (fun c => negb (f32_is_finite c))
        || negb (forallb (word_ok s) (words s))).

Fixpoint validate_segments (self : CoverageJournal) (commit : CommittedAudio) (seen : gset string)
    (segs : list TranscriptSegment) : result unit IoError :=
  match segs with
  | [] => Ok tt
  | s :: segs =>
      if segment_ok self commit seen s
      then validate_segments self commit ({[id s]} ∪ seen) segs
      else Err (invalid "segment identity or interval does not match its coverage")
  end.

Definition gap_ok (commit : CommittedAudio) : bool :=
  negb (is_some_and (gap commit)
          (fun reason => (slen reason =? 0) || (512 <? slen reason)
                         || negb (zlen (segments commit) =? 0))).

(** What a write and the sync after it may do. *)
Inductive WriteOutcome :=
| Wrote
| Stopped (n : nat)
| NotSynced.

(** What truncating a torn file and syncing it may do. *)
Inductive RepairOutcome :=
| Repaired
| TruncateFailed
| RepairNotSynced.

Section Journal.
Context {R : Type} `{AudioTrack R} `{Serde Entry}.

Definition validate_commit (self : CoverageJournal) (audio : R) (commit : CommittedAudio)
  : result unit IoError :=
  if negb (epoch commit =? number (cur_epoch self))
     || negb (from_sample commit =? committed self)
     || (through_sample commit <=? from_sample commit)
     || negb (gap_ok commit)
  then Err (invalid "coverage must extend the current epoch contiguously")
  else
    let? _ := track_read audio (through_sample commit) 1 in
    validate_segments self commit ∅ (segments commit).

Definition append (self : CoverageJournal) (e : Entry) (io : WriteOutcome)
  : CoverageJournal * result unit IoError :=
  match (let? _ := healthy self in encode_entry e) with
  | Err err => (self, Err err)
  | Ok bs =>
      match io with
      | Stopped n => (with_io self (file self ++ take n bs) true (valid_bytes self), Err (OsError "write"))
      | NotSynced => (with_io self (file self ++ bs) true (valid_bytes self), Err (OsError "sync"))
      | Wrote =>
          match checked_add64 (valid_bytes self) (zlen bs) with
          | None => (with_io self (file self ++ bs) (failed self) (valid_bytes self),
                     Err (invalid "journal length overflow"))
          | Some v => (with_io self (file self ++ bs) (failed self) v, Ok tt)
          end
      end
  end.

(** [commit] and [skip] are this with a transcript or with a reason. *)
Definition record_audio (self : CoverageJournal) (audio : R) (synced : result unit IoError)
    (io : WriteOutcome) (ep from through : Z) (segs : list TranscriptSegment) (g : option string)
  : CoverageJournal * result CommitOutcome IoError :=
  match healthy self with
  | Err err => (self, Err err)
  | Ok _ =>
      if negb (ep =? number (cur_epoch self)) then (self, Err (invalid "stale provider epoch"))
      else
        let commit := mkCommitted ep from through segs g in
        match List.find (fun c => (from_sample c =? from) && (through_sample c =? through)) (commits self) with
        | Some prior =>
            (self, if commit_eqb prior commit then Ok AlreadyCommitted
                   else Err (invalid "conflicting committed interval"))
        | None =>
            match (let? _ := validate_commit self audio commit in track_sync audio through synced) with
            | Err err => (self, Err err)
            | Ok _ =>
                match append self (Committed commit) io with
                | (self, Err err) => (self, Err err)
                | (self, Ok _) => (accept self commit, Ok New)
                end
            end
        end
  end.

Definition commit_audio self audio synced io ep from through segs :=
  record_audio self audio synced io ep from through segs None.

Definition skip_audio self audio synced io ep from through (why : string) :=
  record_audio self audio synced io ep from through [] (Some why).

Definition switch (self : CoverageJournal) (io : WriteOutcome) (engine : EngineDescriptor) (why : SwitchReason)
  : CoverageJournal * result ProviderEpoch IoError :=
  match (let? _ := healthy self in
         match checked_add64 (number (cur_epoch self)) 1 with
         | None => Err (invalid "provider epoch overflow")
         | Some n =>
             let e := mkEpoch n (committed self) (Some why) engine in
             let? _ := validate_switch self e in Ok e
         end) with
  | Err err => (self, Err err)
  | Ok e =>
      match append self (Switched e) io with
      | (self, Err err) => (self, Err err)
      | (self, Ok _) => (enter_epoch self e, Ok e)
      end
  end.

(** ** Creation *)

(** The file left behind, and the journal.  [existing] is what the path held;
    [dir_synced] is what syncing the directory answers. *)
Definition create_with_fallback (existing : option bytes) (lock_free : bool) (audio : R)
    (session : string) (src : Source) (init : EngineDescriptor) (fb : option LocalPlan)
    (io : WriteOutcome) (dir_synced : bool) : option bytes * result CoverageJournal IoError :=
  match (let? _ := match fb with Some plan => validate_plan plan | None => Ok tt end in
         let? _ := validate_engine init in
         if negb lock_free then Err (OsError "locked")
         else match existing with Some _ => Err (OsError "exists") | None => Ok tt end) with
  | Err err => (existing, Err err)
  | Ok _ =>
      let h := mkHeader 1 session src (track_first audio) init fb in
      match append (from_header [] h) (Opened h) io with
      | (j, Ok _) => if dir_synced then (Some (file j), Ok j) else (None, Err (OsError "directory"))
      | (_, Err err) => (None, Err err)
      end
  end.

(** ** Recovery *)

Definition load_entry (j : CoverageJournal) (audio : R) (e : Entry) : result CoverageJournal IoError :=
  match e with
  | Opened _ => Err (invalid "duplicate coverage header")
  | Switched ep => let? _ := validate_switch j ep in Ok (enter_epoch j ep)
  | Committed c => let? _ := validate_commit j audio c in Ok (accept j c)
  end.

Definition parse_line (line : bytes) : result Entry IoError :=
  match from_slice line with Some e => Ok e | None => Err (invalid "json") end.

(** The loop over the lines after the header: the journal, the end of the
    validated prefix and whether a torn line follows it.  Each round consumes at
    least one byte; [None] is running out of rounds. *)
Fixpoint load_loop (rounds : nat) (j : CoverageJournal) (audio : R) (bs : bytes) (valid : Z)
  : option (result (CoverageJournal * Z * bool) IoError) :=
  match rounds with
  | O => None
  | S rounds =>
      match read_line bs with
      | Err err => Some (Err err)
      | Ok (line, rest) =>
          if zlen line =? 0 then Some (Ok (j, valid, false))
          else if negb (bool_decide (last line = Some LF)) then Some (Ok (j, valid, true))
          else match (let? e := parse_line line in load_entry j audio e) with
               | Err err => Some (Err err)
               | Ok j => load_loop rounds j audio rest (valid + zlen line)
               end
      end
  end.

(** The checks of the header line, up to the journal it starts. *)
Definition load_header (bs : bytes) (session : string) (src : Source) (audio : R)
  : result (CoverageJournal * bytes * Z) IoError :=
  let? (first, rest) := read_line bs in
  if negb (bool_decide (last first = Some LF)) then Err (invalid "missing coverage header")
  else
    let? e := parse_line first in
    match e with
    | Opened h =>
        if negb (schema h =? 1) || bool_decide (session_id h <> session)
           || bool_decide (source h <> src) || negb (first_sample h =? track_first audio)
        then Err (invalid "coverage identity mismatch")
        else
          let? _ := validate_engine (initial h) in
          let? _ := match fallback h with Some plan => validate_plan plan | None => Ok tt end in
          Ok (from_header bs h, rest, zlen first)
    | _ => Err (invalid "missing coverage header")
    end.

(** The file afterwards and the journal. *)
Definition load_with_audio (existing : option bytes) (lock_free : bool) (session : string)
    (src : Source) (repair : bool) (audio : R) (repair_io : RepairOutcome)
  : option (option bytes * result CoverageJournal IoError) :=
  if negb (track_identity audio session (replay_source src))
  then Some (existing, Err (invalid "candidate audio identity mismatch"))
  else if repair && negb lock_free then Some (existing, Err (OsError "locked"))
  else match existing with
  | None => Some (existing, Err (OsError "not found"))
  | Some bs =>
      match load_header bs session src audio with
      | Err err => Some (existing, Err err)
      | Ok (j, rest, first_len) =>
          r ← load_loop (S (length rest)) j audio rest first_len;
          match r with
          | Err err => Some (existing, Err err)
          | Ok (j, valid, torn) =>
              let finish f := with_io j f (failed j) valid in
              if torn && repair then
                let f := take (Z.to_nat valid) bs in
                match repair_io with
                | Repaired => Some (Some f, Ok (finish f))
                | TruncateFailed => Some (existing, Err (OsError "truncate"))
                | RepairNotSynced => Some (Some f, Err (OsError "sync"))
                end
              else Some (existing, Ok (finish bs))
          end
      end
  end.

Definition open existing lock_free session src audio repair_io :=
  load_with_audio existing lock_free session src true audio repair_io.

(** ** The snapshot *)

Record CoverageSnapshot := mkSnapshot {
  snap_epochs : list ProviderEpoch;
  snap_fallback : option LocalPlan;
  snap_valid_bytes : Z;
  snap_commits : list CommittedAudio;
}.

Definition snapshot (existing : option bytes) (session : string) (src : Source) (audio : R)
    (synced : result unit IoError) : option (option bytes * result CoverageSnapshot IoError) :=
  '(f, r) ← load_with_audio existing true session src false audio Repaired;
  Some (f, let? j := r in
           let? _ := synced in
           Ok (mkSnapshot (epochs j) (fallback (j_header j)) (valid_bytes j) (commits j))).

End Journal.

(** ** Coverage: the invariant *)

(** Commits laid end to end, none empty. *)
Fixpoint contiguous (from : Z) (cs : list CommittedAudio) (through : Z) : Prop :=
  match cs with
  | [] => from = through
  | c :: cs => from_sample c = from /\ from < through_sample c /\
               contiguous (through_sample c) cs through
  end.

Definition all_ids (cs : list CommittedAudio) : list string := cs ≫= fun c => id <$> segments c.

(** A saved segment is a final of this session and source, produced by the
    epoch's engine, inside its commit's interval (16 samples to a millisecond). *)
Definition segment_fits (h : Header) (e : ProviderEpoch) (c : CommittedAudio) (s : TranscriptSegment) : Prop :=
  is_final s = true /\ seg_session_id s = session_id h /\ seg_source s = source h /\
  seg_provider s = provider (ep_engine e) /\ seg_model s = model (ep_engine e) /\
  from_sample c / 16 <= start_ms s <= end_ms s /\ end_ms s <= through_sample c / 16.

(** A commit belongs to a recorded epoch that began no later. *)
Definition commit_fits (h : Header) (eps : list ProviderEpoch) (c : CommittedAudio) : Prop :=
  exists e, 0 <= epoch c /\ eps !! Z.to_nat (epoch c) = Some e /\ ep_from_sample e <= from_sample c /\
    Forall (segment_fits h e c) (segments c) /\ (gap c <> None -> segments c = []).

Record Covered (j : CoverageJournal) : Prop := {
  cov_chain : contiguous (first_sample (j_header j)) (commits j) (committed j);
  cov_nodup : NoDup (all_ids (commits j));
  cov_ids : ids j = list_to_set (all_ids (commits j));
  cov_numbers : forall i e, epochs j !! i = Some e -> number e = Z.of_nat i;
  cov_current : last (epochs j) = Some (cur_epoch j);
  cov_starts : Forall (fun e => ep_from_sample e <= committed j) (epochs j);
  cov_commits : Forall (commit_fits (j_header j) (epochs j)) (commits j);
}.

Lemma covered_with_io j f b v : Covered j -> Covered (with_io j f b v).
Proof. intros []. by split. Qed.

Lemma covered_from_header f h : Covered (from_header f h).
Proof.
  split; simpl; try done.
  - constructor.
  - intros [|i] e; simpl; [by intros [= <-] | by rewrite lookup_nil].
  - repeat constructor; simpl; lia.
Qed.

Lemma contiguous_snoc from cs through c :
  contiguous from cs through -> from_sample c = through -> through < through_sample c ->
  contiguous from (cs ++ [c]) (through_sample c).
Proof.
  revert from. induction cs as [|c' cs IH]; intros from; simpl.
  - intros -> ? ?. auto.
  - intros (?&?&?) ? ?. auto.
Qed.

Lemma contiguous_le from cs through : contiguous from cs through -> from <= through.
Proof.
  revert from. induction cs as [|c cs IH]; intros from; simpl; [lia|].
  intros (?&?&Hc%IH). lia.
Qed.

(** The current epoch is numbered by its position. *)
Lemma covered_number j : Covered j -> epochs j !! Z.to_nat (number (cur_epoch j)) = Some (cur_epoch j) /\
  number (cur_epoch j) = Z.of_nat (length (epochs j)) - 1.
Proof.
  intros Hj. pose proof (cov_current j Hj) as Hl. rewrite last_lookup in Hl.
  pose proof (cov_numbers j Hj _ _ Hl) as Hn.
  destruct (epochs j) as [|e es] eqn:E; [done|]. rewrite Hn, Nat2Z.id. split; [done|].
  simpl. lia.
Qed.

Lemma validate_segments_spec j c seen segs :
  validate_segments j c seen segs = Ok tt ->
  Forall (segment_fits (j_header j) (cur_epoch j) c) segs /\
  NoDup (id <$> segs) /\ (forall x, x ∈ id <$> segs -> (x ∉ seen) /\ (x ∉ ids j)).
Proof.
  revert seen. induction segs as [|s segs IH]; intros seen; simpl.
  - intros _. split_and!; [constructor | constructor | intros x Hx; by apply not_elem_of_nil in Hx].
  - destruct (segment_ok j c seen s) eqn:Hs; [|done]. intros Hrest.
    destruct (IH _ Hrest) as (H1&H2&H3). unfold segment_ok in Hs.
    rewrite negb_true_iff, !orb_false_iff in Hs.
    destruct Hs as ((((((((((((_&Hseen)&Hids)&Hfin)&Hses)&Hsrc)&Hprov)&Hmod)&Hst)&Hen)&Hth)&_)&_).
    rewrite bool_decide_eq_false in Hseen, Hids, Hses, Hsrc, Hprov, Hmod.
    apply dec_stable in Hses, Hsrc, Hprov, Hmod. rewrite negb_false_iff in Hfin.
    rewrite Z.ltb_ge in Hst, Hen, Hth.
    split_and!.
    + constructor; [|done]. unfold segment_fits. split_and!; auto.
    + constructor; [|done]. intros Hin. destruct (H3 _ Hin) as [Hx _]. set_solver.
    + intros x Hx. apply elem_of_cons in Hx as [->|Hx]; [done|].
      destruct (H3 _ Hx) as [Ha Hb]. split; [|done]. set_solver.
Qed.

Section Invariant.
Context {R : Type} `{AudioTrack R} `{Serde Entry}.

Lemma validate_commit_inv j (a : R) c :
  validate_commit j a c = Ok tt ->
  epoch c = number (cur_epoch j) /\ from_sample c = committed j /\
  from_sample c < through_sample c /\ gap_ok c = true /\
  (exists pcm, track_read a (through_sample c) 1 = Ok pcm) /\
  validate_segments j c ∅ (segments c) = Ok tt.
Proof.
  unfold validate_commit.
  destruct (Z.eqb_spec (epoch c) (number (cur_epoch j))); simpl; [|done].
  destruct (Z.eqb_spec (from_sample c) (committed j)); simpl; [|done].
  destruct (Z.leb_spec (through_sample c) (from_sample c)); simpl; [done|].
  destruct (gap_ok c); simpl; [|done].
  destruct (track_read a (through_sample c) 1) as [pcm|]; simpl; [|done]. eauto 10.
Qed.

Lemma accept_covered j (a : R) c :
  Covered j -> validate_commit j a c = Ok tt -> Covered (accept j c).
Proof.
  intros Hj Hv. destruct (validate_commit_inv _ _ _ Hv) as (He&Hf&Hlt&Hg&_&Hs).
  apply validate_segments_spec in Hs as (Hfit&Hnd&Hfresh).
  destruct (covered_number j Hj) as [Hcur Hnum].
  assert (Hids : all_ids (commits j ++ [c]) = all_ids (commits j) ++ (id <$> segments c)).
  { unfold all_ids. by rewrite bind_app, bind_cons, app_nil_r. }
  split; simpl; try apply Hj.
  - apply contiguous_snoc with (committed j); [apply Hj | done | lia].
  - rewrite Hids. apply NoDup_app. split_and!; [apply Hj| |done].
    intros x Hx Hx'. destruct (Hfresh x Hx') as [_ Hn]. apply Hn. rewrite (cov_ids j Hj).
    by apply elem_of_list_to_set.
  - rewrite Hids, list_to_set_app_L, (cov_ids j Hj). done.
  - apply (Forall_impl _ _ _ (cov_starts j Hj)). intros e' ?. lia.
  - apply Forall_app. split; [apply Hj|]. constructor; [|constructor].
    exists (cur_epoch j). pose proof (cov_starts j Hj) as Hst. rewrite Forall_lookup in Hst.
    assert (Hne : epochs j <> []) by (intros E; pose proof (cov_current j Hj) as Hl; by rewrite E in Hl).
    split_and!; [| by rewrite He | specialize (Hst _ _ Hcur); lia | done |].
    + destruct (epochs j); [done|]. simpl in Hnum. lia.
    + intros Hgap. unfold gap_ok in Hg. destruct (gap c) as [g|]; [|done]. simpl in Hg.
      rewrite negb_true_iff, !orb_false_iff, negb_false_iff in Hg. destruct Hg as [_ Hz].
      apply Z.eqb_eq in Hz. destruct (segments c); [done|]. unfold zlen in Hz. simpl in Hz. lia.
Qed.

Lemma enter_epoch_covered j e :
  Covered j -> validate_switch j e = Ok tt -> Covered (enter_epoch j e).
Proof.
  intros Hj. unfold validate_switch. destruct (validate_engine _); simpl; [|done].
  case_bool_decide as Hn; simpl; [done|].
  destruct (Z.eqb_spec (ep_from_sample e) (committed j)) as [Hf|]; simpl; [|done]. intros _.
  destruct (covered_number j Hj) as [_ Hnum].
  assert (Hen : number e = Z.of_nat (length (epochs j))).
  { unfold checked_add64 in Hn. case_match; simplify_eq. lia. }
  split; simpl; try apply Hj.
  - intros i x Hx. apply lookup_app_Some in Hx as [Hx|[Hge Hx]]; [by apply Hj in Hx|].
    apply list_lookup_singleton_Some in Hx as [Hi <-]. lia.
  - by rewrite last_app.
  - apply Forall_app. split; [apply Hj|]. repeat constructor. lia.
  - apply (Forall_impl _ _ _ (cov_commits j Hj)). intros c (x&?&Hx&?).
    exists x. split_and!; try tauto. by apply lookup_app_l_Some.
Qed.

(** What the owner of a journal may do with it, in any environment. *)
Inductive Op :=
| OpRecord (a : R) (synced : result unit IoError) (io : WriteOutcome)
    (ep from through : Z) (segs : list TranscriptSegment) (g : option string)
| OpSwitch (io : WriteOutcome) (engine : EngineDescriptor) (why : SwitchReason).

Definition op_step (j : CoverageJournal) (o : Op) : CoverageJournal :=
  match o with
  | OpRecord a synced io ep from through segs g =>
      (record_audio j a synced io ep from through segs g).1
  | OpSwitch io engine why => (switch j io engine why).1
  end.

Definition journal_after (j : CoverageJournal) (ops : list Op) : CoverageJournal := foldl op_step j ops.

(** *** Writing *)

Lemma write_records_spec buf chunks :
  zlen buf <= MAX_RECORD_BYTES - 1 ->
  write_records buf chunks =
  if zlen (buf ++ concat chunks) <=? MAX_RECORD_BYTES - 1 then Ok (buf ++ concat chunks)
  else Err (invalid "coverage record exceeds size limit").
Proof.
  revert buf. induction chunks as [|c chunks IH]; intros buf Hb; simpl.
  - rewrite app_nil_r. by rewrite (proj2 (Z.leb_le _ _)) by lia.
  - unfold record_write. pose proof (zlen_nonneg (concat chunks)).
    destruct (Z.ltb_spec (sat_sub (MAX_RECORD_BYTES - 1) (zlen buf)) (zlen c)); simpl.
    + rewrite (proj2 (Z.leb_gt _ _)); [done|]. rewrite !zlen_app. mlia.
    + rewrite IH; [by rewrite <-app_assoc|]. rewrite zlen_app. mlia.
Qed.

(** However the serializer splits its writes, a record is accepted exactly when
    the whole of it fits, and it is then one line. *)
Lemma encode_entry_spec e :
  encode_entry e =
  if zlen (to_vec e) <=? MAX_RECORD_BYTES - 1 then Ok (to_vec e ++ [LF])
  else Err (invalid "coverage record exceeds size limit").
Proof.
  unfold encode_entry. rewrite write_records_spec by (by vm_compute). simpl. unfold to_vec.
  by case_match.
Qed.

Definition encodable (e : Entry) : Prop := zlen (to_vec e) <= MAX_RECORD_BYTES - 1.
Definition line_of (e : Entry) : bytes := to_vec e ++ [LF].

(** What an append leaves: nothing changed, a file that grew by part of the
    record, or one that grew by all of it. *)
Lemma append_cases j e io :
  let '(j', r) := append j e io in
  match r with
  | Ok _ => failed j = false /\ encodable e /\
            j' = with_io j (file j ++ line_of e) false (valid_bytes j + zlen (line_of e))
  | Err _ =>
      j' = j \/
      (failed j = false /\ encodable e /\
       ((exists n, j' = with_io j (file j ++ take n (line_of e)) true (valid_bytes j)) \/
        (u64_max < valid_bytes j + zlen (line_of e) /\
         j' = with_io j (file j ++ line_of e) false (valid_bytes j))))
  end.
Proof.
  unfold append, healthy. destruct (failed j) eqn:Hf; simpl; [by left|].
  rewrite encode_entry_spec. fold (line_of e).
  destruct (Z.leb_spec (zlen (to_vec e)) (MAX_RECORD_BYTES - 1)) as [He|He]; [|by left].
  destruct io as [|n|].
  - unfold checked_add64. destruct (Z.leb_spec (valid_bytes j + zlen (line_of e)) u64_max).
    + done.
    + right. split_and!; [done..|]. by right.
  - right. split_and!; [done..|]. left. by exists n.
  - right. split_and!; [done..|]. left. exists (length (line_of e)). by rewrite firstn_all.
Qed.

(** *** Operations *)

Definition apply_entry (j : CoverageJournal) (e : Entry) : CoverageJournal :=
  match e with
  | Opened _ => j
  | Switched ep => enter_epoch j ep
  | Committed c => accept j c
  end.

(** The entry an operation has validated, and for audio synced, before writing
    it. *)
Definition vetted (j : CoverageJournal) (o : Op) (e : Entry) : Prop :=
  match o, e with
  | OpRecord a synced _ _ _ through _ _, Committed c =>
      validate_commit j a c = Ok tt /\ through_sample c = through /\
      track_sync a through synced = Ok tt
  | OpSwitch _ _ _, Switched ep => validate_switch j ep = Ok tt
  | _, _ => False
  end.

(** The three ways an operation can end. *)
Inductive Step (j : CoverageJournal) (o : Op) : CoverageJournal -> Prop :=
| StepNothing : Step j o j
| StepCut e n :
    failed j = false -> vetted j o e -> encodable e ->
    Step j o (with_io j (file j ++ take n (line_of e)) true (valid_bytes j))
| StepOverflow e :
    failed j = false -> vetted j o e -> encodable e ->
    u64_max < valid_bytes j + zlen (line_of e) ->
    Step j o (with_io j (file j ++ line_of e) false (valid_bytes j))
| StepDone e :
    failed j = false -> vetted j o e -> encodable e ->
    Step j o (with_io (apply_entry j e) (file j ++ line_of e) false (valid_bytes j + zlen (line_of e))).

Lemma op_step_cases j o : Step j o (op_step j o).
Proof.
  destruct o as [a synced io ep from through segs g|io engine why]; simpl.
  - unfold record_audio. destruct (healthy j); [|constructor].
    destruct (negb _); [constructor|].
    destruct (List.find _ _); [constructor|].
    set (c := mkCommitted ep from through segs g).
    destruct (validate_commit j a c) as [[]|err] eqn:Hv; simpl; [|constructor].
    destruct (track_sync a through synced) as [[]|err] eqn:Hs; [|constructor].
    pose proof (append_cases j (Committed c) io) as Hap.
    destruct (append j (Committed c) io) as [j' [u|err]]; simpl.
    + destruct Hap as (Hf&He&->).
      apply (StepDone j (OpRecord a synced io ep from through segs g) (Committed c)); done.
    + destruct Hap as [->|(Hf&He&[(n&->)|(Ho&->)])]; [constructor | |];
        [eapply StepCut | eapply StepOverflow]; done.
  - unfold switch. destruct (healthy j); simpl; [|constructor].
    destruct (checked_add64 _ _) as [n|]; [|constructor].
    set (e := mkEpoch n (committed j) (Some why) engine).
    destruct (validate_switch j e) as [[]|err] eqn:Hv; simpl; [|constructor].
    pose proof (append_cases j (Switched e) io) as Hap.
    destruct (append j (Switched e) io) as [j' [u|err]]; simpl.
    + destruct Hap as (Hf&He&->). apply (StepDone j (OpSwitch io engine why) (Switched e)); done.
    + destruct Hap as [->|(Hf&He&[(m&->)|(Ho&->)])]; [constructor | |];
        [eapply StepCut | eapply StepOverflow]; done.
Qed.

Lemma apply_vetted_covered j o e : Covered j -> vetted j o e -> Covered (apply_entry j e).
Proof.
  intros Hj Hv. destruct o, e; simpl in *; try done.
  - destruct Hv as (Hv&_). by eapply accept_covered.
  - by apply enter_epoch_covered.
Qed.

Lemma op_step_covered j o : Covered j -> Covered (op_step j o).
Proof.
  intros Hj. destruct (op_step_cases j o); try done; apply covered_with_io; try done.
  by eapply apply_vetted_covered.
Qed.

Lemma journal_after_covered j ops : Covered j -> Covered (journal_after j ops).
Proof.
  revert j. induction ops as [|o ops IH]; intros j Hj; [done|]. by apply IH, op_step_covered.
Qed.

Lemma create_from_header existing lock_free (audio : R) session src init fb io dir_synced f j :
  create_with_fallback existing lock_free audio session src init fb io dir_synced = (f, Ok j) ->
  let h := mkHeader 1 session src (track_first audio) init fb in
  f = Some (file j) /\ encodable (Opened h) /\ validate_engine init = Ok tt /\
  match fb with Some plan => validate_plan plan | None => Ok tt end = Ok tt /\
  j = with_io (from_header [] h) (line_of (Opened h)) false (zlen (line_of (Opened h))).
Proof.
  intros Hc h. revert Hc. unfold create_with_fallback. fold h.
  destruct (match fb with Some plan => _ | None => _ end) as [[]|] eqn:Hfb; simpl; [|done].
  destruct (validate_engine init) as [[]|] eqn:Hi; simpl; [|done].
  destruct lock_free; simpl; [|done]. destruct existing; [done|]. fold h.
  pose proof (append_cases (from_header [] h) (Opened h) io) as Hap.
  destruct (append _ _ _) as [j' [u|err]]; [|done]. destruct dir_synced; [|done].
  intros [= <- <-]. destruct Hap as (_&He&->). done.
Qed.

Lemma op_step_header j o : j_header (op_step j o) = j_header j.
Proof. destruct (op_step_cases j o) as [|e n|e|e]; try done. by destruct e. Qed.

Lemma journal_after_header j ops : j_header (journal_after j ops) = j_header j.
Proof.
  unfold journal_after. revert j. induction ops as [|o ops IH]; intros j; simpl; [done|].
  by rewrite IH, op_step_header.
Qed.

Lemma journal_after_failed j ops : failed j = true -> journal_after j ops = j.
Proof.
  intros Hf. unfold journal_after. induction ops as [|o ops IH]; simpl; [done|].
  assert (op_step j o = j) as ->; [|done].
  destruct o; simpl; unfold record_audio, switch, healthy; by rewrite Hf.
Qed.

(** C9: The journal covers its audio without gap, overlap or impostor.  From
    creation on, whatever commits, skips and switches are asked for, in whatever
    order, with whatever arguments, and whatever the disk does, the committed
    intervals are non-empty and laid end to end from the first sample of the
    track to the committed boundary; no segment id occurs twice; epochs are
    numbered 0, 1, 2, ... and the current one is the last; and every commit
    belongs to a recorded epoch, with segments that are finals of this session
    and source, made by that epoch's engine, inside the interval, and none where
    a gap is recorded. *)
Theorem journal_covers_contiguously existing lock_free (audio : R) session src init fb io dir_synced f j ops :
  create_with_fallback existing lock_free audio session src init fb io dir_synced = (f, Ok j) ->
  Covered (journal_after j ops) /\ first_sample (j_header (journal_after j ops)) = track_first audio.
Proof.
  intros Hc. apply create_from_header in Hc as (_&_&_&_&->). split.
  - apply journal_after_covered, covered_with_io, covered_from_header.
  - rewrite journal_after_header. done.
Qed.

(** *** Fencing *)

Lemma op_step_number j o : number (cur_epoch j) <= number (cur_epoch (op_step j o)).
Proof.
  destruct (op_step_cases j o) as [|e n|e|e Hf Hv He]; simpl; try lia.
  destruct o, e as [h0|ep0|c0]; simpl in *; try done; try lia.
  revert Hv. unfold validate_switch. destruct (validate_engine _); simpl; [|done].
  case_bool_decide as Hn; [done|]. unfold checked_add64 in Hn. case_match; [|done].
  simplify_eq. lia.
Qed.

Lemma journal_after_number j ops : number (cur_epoch j) <= number (cur_epoch (journal_after j ops)).
Proof.
  unfold journal_after. revert j. induction ops as [|o ops IH]; intros j; simpl; [lia|].
  pose proof (op_step_number j o). specialize (IH (op_step j o)). lia.
Qed.

(** An old provider can never write again.  A successful switch appends its
    record to the file before the new epoch takes effect, one above the current
    number and starting at the committed boundary; and from then on, after any
    further operations, a commit or skip that carries the old epoch, or any
    earlier one, is refused without changing the journal or its file.  A journal
    whose write failed refuses everything, likewise unchanged. *)
Theorem old_epochs_are_fenced j io engine why j1 e :
  switch j io engine why = (j1, Ok e) ->
  file j1 = file j ++ line_of (Switched e) /\
  number e = number (cur_epoch j) + 1 /\ ep_from_sample e = committed j /\ current_epoch j1 = e /\
  (forall ops (a : R) synced io' ep from through segs g,
     ep <= number (cur_epoch j) ->
     exists err, record_audio (journal_after j1 ops) a synced io' ep from through segs g =
                 (journal_after j1 ops, Err err)) /\
  (forall ops, failed (journal_after j1 ops) = true ->
     forall more, journal_after (journal_after j1 ops) more = journal_after j1 ops).
Proof.
  unfold switch. destruct (healthy j) as [[]|]; simpl; [|done].
  destruct (checked_add64 _ 1) as [n0|] eqn:Hadd; [|done].
  assert (n0 = number (cur_epoch j) + 1) as ->.
  { unfold checked_add64 in Hadd. case_match; by simplify_eq. }
  set (ep := mkEpoch _ (committed j) (Some why) engine). destruct (validate_switch j ep) as [[]|]; simpl; [|done].
  pose proof (append_cases j (Switched ep) io) as Hap.
  destruct (append j (Switched ep) io) as [j' [u|err]]; [|done]. intros [= <- <-].
  destruct Hap as (Hf&He&->). split_and!; try done.
  - intros ops a synced io' n from through segs g Hn. unfold record_audio.
    destruct (healthy _) as [?|err] eqn:Hh; [|by exists err].
    rewrite (proj2 (Z.eqb_neq _ _)); [by eexists|].
    match goal with |- _ <> number (cur_epoch (journal_after ?j1 ops)) =>
      pose proof (journal_after_number j1 ops) as Hm end.
    simpl in Hm. lia.
  - intros ops Hfail more. by apply journal_after_failed.
Qed.

(** *** Receipts *)

Lemma contiguous_later from cs through c : contiguous from cs through -> c ∈ cs -> from <= from_sample c.
Proof.
  revert from. induction cs as [|x cs IH]; intros from; [by intros _ []%not_elem_of_nil|].
  simpl. intros (Hf&Hlt&Hc) [->|Hin]%elem_of_cons; [lia|]. specialize (IH _ Hc Hin). lia.
Qed.

Lemma option_f64_eqb_refl o : is_some_and o (fun c => negb (f32_is_finite c)) = false -> option_f64_eqb o o = true.
Proof.
  destruct o as [c|]; simpl; [|done]. intros Hc%negb_false_iff.
  by apply f32_eqb_refl, f32_finite_not_nan.
Qed.

(** A validated commit has no float that differs from itself. *)
Lemma segment_eqb_refl j c seen s : segment_ok j c seen s = true -> segment_eqb s s = true.
Proof.
  unfold segment_ok. rewrite negb_true_iff, !orb_false_iff. intros [[_ Hc] Hw].
  unfold segment_eqb. rewrite option_f64_eqb_refl by done.
  assert (Hwords : list_eqb word_eqb (words s) (words s) = true).
  { apply list_eqb_refl. rewrite negb_false_iff, forallb_forall in Hw.
    apply Forall_forall. intros w Hin%list_elem_of_In. specialize (Hw w Hin).
    unfold word_ok in Hw. rewrite negb_true_iff, !orb_false_iff in Hw. destruct Hw as [_ Hw].
    unfold word_eqb. rewrite option_f64_eqb_refl, !Z.eqb_refl, !bool_decide_true by done. done. }
  rewrite Hwords, !Z.eqb_refl, !bool_decide_true, Bool.eqb_reflx by done. done.
Qed.

Lemma commit_eqb_refl j (a : R) c : validate_commit j a c = Ok tt -> commit_eqb c c = true.
Proof.
  intros Hv. destruct (validate_commit_inv _ _ _ Hv) as (_&_&_&_&_&Hs).
  unfold commit_eqb. rewrite !Z.eqb_refl, bool_decide_true by done. simpl. rewrite andb_true_r.
  apply list_eqb_refl. revert Hs. generalize (∅ : gset string) as seen.
  induction (segments c) as [|s segs IH]; intros seen; simpl; [constructor|].
  destruct (segment_ok j c seen s) eqn:Hok; [|done]. intros Hs.
  constructor; [by eapply segment_eqb_refl | by eapply IH].
Qed.

Lemma contiguous_from_unique from cs through c c' :
  contiguous from cs through -> c ∈ cs -> c' ∈ cs -> from_sample c = from_sample c' -> c = c'.
Proof.
  revert from. induction cs as [|x cs IH]; intros from; [by intros _ []%not_elem_of_nil|].
  simpl. intros (Hf&Hlt&Hc). assert (Hlater : forall y, y ∈ cs -> through_sample x <= from_sample y).
  { intros y Hy. by apply (contiguous_later _ _ _ _ Hc). }
  rewrite !elem_of_cons. intros [->|Hin] [->|Hin'] Heq; [done | | |by eapply IH].
  - specialize (Hlater _ Hin'). lia.
  - specialize (Hlater _ Hin). lia.
Qed.

Lemma op_step_commits j o : commits j `prefix_of` commits (op_step j o).
Proof.
  destruct (op_step_cases j o) as [|e n|e|e Hf Hv He]; simpl; try done.
  destruct e; simpl; try done. by eexists.
Qed.

Lemma journal_after_commits j ops : commits j `prefix_of` commits (journal_after j ops).
Proof.
  unfold journal_after. revert j. induction ops as [|o ops IH]; intros j; simpl; [done|].
  transitivity (commits (op_step j o)); [apply op_step_commits | apply IH].
Qed.

(** A receipt is idempotent.  Once an interval has been newly committed, then
    after any further operations, as long as the journal is healthy and the
    epoch current, reporting that interval again answers that it was already
    committed when the payload is the same, and is refused as a conflict when it
    is not; either way nothing is written, so nothing is published twice.  The
    same payload does compare equal to itself. *)
Theorem receipts_are_idempotent j (a : R) synced io ep from through segs g j1 ops :
  Covered j ->
  record_audio j a synced io ep from through segs g = (j1, Ok New) ->
  let j2 := journal_after j1 ops in
  let receipt := mkCommitted ep from through segs g in
  failed j2 = false -> number (cur_epoch j2) = ep ->
  commit_eqb receipt receipt = true /\
  forall (a' : R) synced' io' segs' g',
    record_audio j2 a' synced' io' ep from through segs' g' =
    (j2, if commit_eqb receipt (mkCommitted ep from through segs' g')
         then Ok AlreadyCommitted else Err (invalid "conflicting committed interval")).
Proof.
  intros Hj Hrec j2 receipt Hfail Hep.
  assert (Hnew : validate_commit j a receipt = Ok tt /\ receipt ∈ commits j1 /\ Covered j1).
  { assert (Hcov : Covered (op_step j (OpRecord a synced io ep from through segs g)))
      by by apply op_step_covered.
    simpl in Hcov. rewrite Hrec in Hcov. simpl in Hcov. revert Hrec. unfold record_audio.
    destruct (healthy j); [|done]. destruct (negb _); [done|].
    destruct (List.find _ _); [by case_match|]. fold receipt.
    destruct (validate_commit j a receipt) as [[]|]; simpl; [|done].
    destruct (track_sync a through synced); [|done].
    destruct (append j (Committed receipt) io) as [j' []]; [|done]. intros [= <-].
    split_and!; try done. simpl. apply elem_of_app. right. left. }
  destruct Hnew as (Hv&Hin&Hcov1). split; [by eapply commit_eqb_refl|].
  assert (Hin2 : receipt ∈ commits j2).
  { destruct (journal_after_commits j1 ops) as [k Hk]. unfold j2. rewrite Hk. apply elem_of_app. by left. }
  assert (Hcov2 : Covered j2) by by apply journal_after_covered.
  intros a' synced' io' segs' g'. unfold record_audio, healthy. rewrite Hfail.
  rewrite (proj2 (Z.eqb_eq ep _)) by done. simpl.
  destruct (List.find _ (commits j2)) as [c|] eqn:Hfind.
  - apply find_some in Hfind as [Hc Hb]. apply list_elem_of_In in Hc.
    apply andb_true_iff in Hb as [Hb1 Hb2]. apply Z.eqb_eq in Hb1, Hb2.
    rewrite (contiguous_from_unique _ _ _ c receipt (cov_chain j2 Hcov2) Hc Hin2) by done. done.
  - apply list_elem_of_In in Hin2. pose proof (find_none _ _ Hfind _ Hin2) as Hno.
    simpl in Hno. by rewrite !Z.eqb_refl in Hno.
Qed.

End Invariant.

(** ** Recovery *)

(** The floats of an entry are numbers JSON can write. *)
Definition plan_finite (p : LocalPlan) : Prop :=
  f32_is_finite (margin_db (endpoint p)) = true /\
  f32_is_finite (speech_floor_db (endpoint p)) = true /\
  f32_is_finite (min_range_db (endpoint p)) = true.

Definition opt_finite (o : option f64) : Prop := is_some_and o (fun c => negb (f32_is_finite c)) = false.

Definition segment_finite (s : TranscriptSegment) : Prop :=
  opt_finite (confidence s) /\ Forall (fun w => opt_finite (w_confidence w)) (words s).

Definition finite_floats (e : Entry) : Prop :=
  match e with
  | Opened h => match fallback h with Some p => plan_finite p | None => True end
  | Switched _ => True
  | Committed c => Forall segment_finite (segments c)
  end.

Lemma validate_plan_finite p : validate_plan p = Ok tt -> plan_finite p.
Proof.
  unfold validate_plan. destruct (validate_engine _); cbn [result_bind]; [|done].
  case_match eqn:Hb; [done|]. intros _. rewrite !orb_false_iff in Hb.
  destruct Hb as ((((((_&H1)&_)&H2)&_)&H3)&_).
  rewrite negb_false_iff in H1, H2, H3. done.
Qed.

Lemma validate_segments_finite j c seen segs :
  validate_segments j c seen segs = Ok tt -> Forall segment_finite segs.
Proof.
  revert seen. induction segs as [|s segs IH]; intros seen; simpl; [constructor|].
  destruct (segment_ok j c seen s) eqn:Hok; [|done]. intros Hs. constructor; [|by eapply IH].
  unfold segment_ok in Hok. rewrite negb_true_iff, !orb_false_iff in Hok.
  destruct Hok as [[_ Hc] Hw]. split; [done|]. rewrite negb_false_iff, forallb_forall in Hw.
  apply Forall_forall. intros w Hin%list_elem_of_In. specialize (Hw w Hin). unfold word_ok in Hw.
  rewrite negb_true_iff, !orb_false_iff in Hw. tauto.
Qed.

Lemma validate_segments_with_io j f b v c seen segs :
  validate_segments (with_io j f b v) c seen segs = validate_segments j c seen segs.
Proof.
  revert seen. induction segs as [|s segs IH]; intros seen; [done|]. cbn [validate_segments].
  rewrite IH. done.
Qed.

(** Lines. *)
Lemma read_until_line limit l rest :
  Forall (fun b => b <> LF) l -> zlen l < limit -> read_until limit (l ++ LF :: rest) = (l ++ [LF], rest).
Proof.
  intros Hl. revert limit. induction Hl as [|b l Hb _ IH]; intros limit Hlt; simpl.
  - change (zlen []) with 0 in Hlt. by rewrite (proj2 (Z.leb_gt limit 0)) by lia.
  - replace (zlen (b :: l)) with (1 + zlen l) in Hlt by (unfold zlen; simpl length; lia).
    pose proof (zlen_nonneg l). rewrite (proj2 (Z.leb_gt limit 0)) by lia.
    rewrite (proj2 (Z.eqb_neq b LF)) by done. by rewrite IH by lia.
Qed.

Lemma read_until_torn limit l :
  Forall (fun b => b <> LF) l -> zlen l <= limit -> read_until limit l = (l, []).
Proof.
  intros Hl. revert limit. induction Hl as [|b l Hb _ IH]; intros limit Hlt; simpl; [done|].
  replace (zlen (b :: l)) with (1 + zlen l) in Hlt by (unfold zlen; simpl length; lia).
  pose proof (zlen_nonneg l). rewrite (proj2 (Z.leb_gt limit 0)) by lia.
  rewrite (proj2 (Z.eqb_neq b LF)) by done. by rewrite IH by lia.
Qed.

Section Recovery.
Context {R : Type} `{AudioTrack R} {reaches : R -> Z -> Prop} `{!AudioTrackLaws R reaches}.
Context `{Serde Entry} `{!JsonLines Entry finite_floats}.

Lemma read_line_of e rest : encodable e -> read_line (line_of e ++ rest) = Ok (line_of e, rest).
Proof.
  intros He. unfold encodable, line_of in *. pose proof (json_no_newline e) as Hn.
  unfold read_line. rewrite <-app_assoc. simpl. rewrite read_until_line by (done || lia).
  rewrite (proj2 (Z.ltb_ge _ _)); [done|]. rewrite zlen_app. change (zlen [LF]) with 1. lia.
Qed.

Lemma read_line_torn l :
  Forall (fun b => b <> LF) l -> zlen l <= MAX_RECORD_BYTES -> read_line l = Ok (l, []).
Proof.
  intros Hl Hz. unfold read_line. rewrite read_until_torn by (done || lia).
  by rewrite (proj2 (Z.ltb_ge _ _)).
Qed.

Lemma line_of_shape e : last (line_of e) = Some LF /\ 1 <= zlen (line_of e).
Proof.
  unfold line_of. split; [by rewrite last_app|]. rewrite zlen_app. pose proof (zlen_nonneg (to_vec e)).
  change (zlen [LF]) with 1. lia.
Qed.

Lemma parse_line_of e : finite_floats e -> parse_line (line_of e) = Ok e.
Proof. intros He. unfold parse_line, line_of. by rewrite json_roundtrip. Qed.

(** The entries of a journal, loaded one by one. *)
Fixpoint load_entries (j : CoverageJournal) (a : R) (es : list Entry) : result CoverageJournal IoError :=
  match es with
  | [] => Ok j
  | e :: es => let? j := load_entry j a e in load_entries j a es
  end.

Lemma load_entries_snoc j a es e :
  load_entries j a (es ++ [e]) = (let? j := load_entries j a es in load_entry j a e).
Proof.
  revert j. induction es as [|e' es IH]; intros j; simpl.
  - by destruct (load_entry j a e).
  - destruct (load_entry j a e'); simpl; [apply IH | done].
Qed.

(** Loading never looks at the file, the health or the length. *)
Lemma load_entry_with_io j a e f b v :
  load_entry (with_io j f b v) a e = (let? j' := load_entry j a e in Ok (with_io j' f b v)).
Proof.
  destruct e as [h|ep|c]; [done| |]; simpl.
  - change (validate_switch (with_io j f b v) ep) with (validate_switch j ep).
    by destruct (validate_switch j ep).
  - assert (Hc : validate_commit (with_io j f b v) a c = validate_commit j a c).
    { unfold validate_commit. by rewrite validate_segments_with_io. }
    rewrite Hc. by destruct (validate_commit j a c).
Qed.

Lemma load_entries_with_io j a es f b v :
  load_entries (with_io j f b v) a es = (let? j' := load_entries j a es in Ok (with_io j' f b v)).
Proof.
  revert j. induction es as [|e es IH]; intros j; simpl; [done|].
  rewrite load_entry_with_io. destruct (load_entry j a e); simpl; [apply IH | done].
Qed.

(** The loop reads whole lines back as the entries they were, and stops at the
    end or at a torn line. *)
Lemma load_loop_lines rounds j a es tail valid j' :
  (length (concat (line_of <$> es) ++ tail) < rounds)%nat ->
  Forall finite_floats es -> Forall encodable es -> load_entries j a es = Ok j' ->
  Forall (fun b => b <> LF) tail -> zlen tail <= MAX_RECORD_BYTES ->
  load_loop rounds j a (concat (line_of <$> es) ++ tail) valid =
  Some (Ok (j', valid + zlen (concat (line_of <$> es)), negb (zlen tail =? 0))).
Proof.
  intros Hr Hgood Henc Hload Htail Hsz. revert rounds j valid Hr Hload.
  induction es as [|e es IH]; intros rounds j valid Hr Hload.
  - simpl in *. simplify_eq. destruct rounds as [|rounds]; [lia|]. cbn [load_loop].
    rewrite read_line_torn by done. rewrite Z.add_0_r.
    destruct (Z.eqb_spec (zlen tail) 0) as [Hz|Hz]; [done|].
    rewrite bool_decide_false; [done|]. intros Hl.
    apply last_Some in Hl as [l' Hl]. rewrite Hl in Htail. apply Forall_app in Htail as [_ Ht].
    by apply Forall_cons in Ht as [Ht _].
  - apply Forall_cons in Hgood as [Hg Hgood]. apply Forall_cons in Henc as [He Henc].
    rewrite fmap_cons in *. cbn [concat] in *. rewrite <-app_assoc in *.
    destruct (line_of_shape e) as [Hlast Hlen]. destruct rounds as [|rounds]; [lia|].
    cbn [load_loop]. rewrite read_line_of by done.
    rewrite (proj2 (Z.eqb_neq (zlen (line_of e)) 0)) by lia.
    rewrite bool_decide_true by done. cbn [negb]. rewrite parse_line_of by done.
    cbn [result_bind]. simpl in Hload. destruct (load_entry j a e) as [j1|]; [|done]. simpl in Hload.
    rewrite IH; try done.
    + rewrite zlen_app. do 3 f_equal. f_equal. lia.
    + rewrite length_app in Hr. unfold zlen in Hlen. lia.
Qed.

(** *** What is always on disk *)

Definition records (j : CoverageJournal) : CoverageJournal := with_io j [] false 0.

(** The file is the header line and the lines of entries that load to the
    journal's own records, then nothing, or in a failed journal part of the line
    of one more entry that would load. *)
Definition Recoverable (a : R) (j : CoverageJournal) : Prop :=
  exists es tail,
    file j = line_of (Opened (j_header j)) ++ concat (line_of <$> es) ++ tail /\
    valid_bytes j = zlen (line_of (Opened (j_header j)) ++ concat (line_of <$> es)) /\
    Forall finite_floats es /\ Forall encodable es /\
    load_entries (from_header [] (j_header j)) a es = Ok (records j) /\
    (tail = [] \/
     failed j = true /\ exists e n j', tail = take n (line_of e) /\ finite_floats e /\
       encodable e /\ load_entry (records j) a e = Ok j').

(** The file is whole lines that load to the journal's records, and no more. *)
Definition whole_lines (a : R) (j : CoverageJournal) : Prop :=
  exists es, file j = line_of (Opened (j_header j)) ++ concat (line_of <$> es) /\
    load_entries (from_header [] (j_header j)) a es = Ok (records j).

(** The audio of every successful sync is still there. *)
Definition durable (a : R) (o : Op (R := R)) : Prop :=
  match o with
  | OpRecord a' synced _ _ _ through _ _ => track_sync a' through synced = Ok tt -> reaches a through
  | OpSwitch _ _ _ => True
  end.

Lemma vetted_loads a j o e :
  durable a o -> vetted j o e ->
  finite_floats e /\ load_entry (records j) a e = Ok (records (apply_entry j e)).
Proof.
  intros Hd Hv. unfold records. rewrite load_entry_with_io.
  destruct o as [a' synced io ep from through segs g|io engine why], e as [h|e|c]; simpl in *; try done.
  - destruct Hv as (Hv&Ht&Hs). destruct (validate_commit_inv _ _ _ Hv) as (E1&E2&E3&E4&_&E5).
    split; [by eapply validate_segments_finite|].
    assert (Hva : validate_commit j a c = Ok tt).
    { unfold validate_commit. rewrite E1, E2, !Z.eqb_refl, E4. simpl.
      rewrite <-E2, (proj2 (Z.leb_gt _ _)) by lia. simpl.
      destruct (track_read_reaches a (through_sample c)) as [pcm ->]; [|done].
      rewrite Ht. by apply Hd. }
    by rewrite Hva.
  - split; [done|]. by rewrite Hv.
Qed.

Lemma op_step_file j o : zlen (file j) <= zlen (file (op_step j o)).
Proof.
  destruct (op_step_cases j o) as [|e n|e|e]; simpl; rewrite ?zlen_app; try lia;
    match goal with |- _ <= _ + zlen ?l => pose proof (zlen_nonneg l); lia end.
Qed.

Lemma op_step_recoverable a j o :
  durable a o -> Recoverable a j -> zlen (file (op_step j o)) <= u64_max ->
  Recoverable a (op_step j o).
Proof.
  intros Hd Hj. destruct (op_step_cases j o) as [|e n Hf Hv He|e Hf Hv He Ho|e Hf Hv He]; intros Hsz;
    [done| | |];
    destruct Hj as (es&tail&Hfile&Hvalid&Hgood&Henc&Hload&Htail);
    (destruct Htail as [->|[Hbad _]]; [|congruence]);
    rewrite app_nil_r in Hfile;
    destruct (vetted_loads a j o e Hd Hv) as [Hfin Hstep].
  - exists es, (take n (line_of e)). simpl. split_and!; try done.
    + by rewrite Hfile, <-app_assoc.
    + right. split; [done|]. by exists e, n, (records (apply_entry j e)).
  - exfalso. simpl in Hsz. rewrite Hfile, zlen_app, <-Hvalid in Hsz. lia.
  - assert (Hhdr : j_header (apply_entry j e) = j_header j) by by destruct e.
    exists (es ++ [e]), []. simpl. rewrite Hhdr, app_nil_r, fmap_app, concat_app. simpl.
    rewrite app_nil_r. split_and!.
    + by rewrite Hfile, <-app_assoc.
    + rewrite Hvalid, !zlen_app. lia.
    + apply Forall_app. auto.
    + apply Forall_app. auto.
    + rewrite load_entries_snoc, Hload. simpl. exact Hstep.
    + by left.
Qed.

Lemma journal_after_recoverable a j ops :
  Forall (durable a) ops -> Recoverable a j -> zlen (file (journal_after j ops)) <= u64_max ->
  Recoverable a (journal_after j ops).
Proof.
  intros Hd Hj. induction ops as [|o ops IH] using rev_ind; [done|].
  apply Forall_app in Hd as [Hd Ho]. apply Forall_cons in Ho as [Ho _].
  unfold journal_after in *. rewrite foldl_app. simpl. intros Hsz.
  apply op_step_recoverable; [done | | done]. apply IH; [done|].
  pose proof (op_step_file (foldl op_step j ops) o). lia.
Qed.

(** *** Reopening *)

(** The header of a created journal passes the checks of [load]. *)
Definition header_ok (h : Header) (session : string) (src : Source) (a : R) : Prop :=
  schema h = 1 /\ session_id h = session /\ source h = src /\ first_sample h = track_first a /\
  validate_engine (initial h) = Ok tt /\
  match fallback h with Some plan => validate_plan plan | None => Ok tt end = Ok tt /\
  encodable (Opened h).

Lemma load_header_of h session src a rest :
  header_ok h session src a ->
  load_header (line_of (Opened h) ++ rest) session src a =
  Ok (from_header (line_of (Opened h) ++ rest) h, rest, zlen (line_of (Opened h))).
Proof.
  intros (H1&H2&H3&H4&H5&H6&H7). unfold load_header. rewrite read_line_of by done. cbn [result_bind].
  destruct (line_of_shape (Opened h)) as [Hlast _]. rewrite bool_decide_true by done. cbn [negb].
  rewrite parse_line_of.
  - cbn [result_bind]. rewrite H1, H4, !Z.eqb_refl, !bool_decide_false by tauto. cbn [negb orb].
    by rewrite H5, H6.
  - simpl. destruct (fallback h); [|done]. by apply validate_plan_finite.
Qed.

(** A file of whole lines and at most a torn one loads as its whole lines, and
    repair leaves exactly those. *)
Lemma load_clean session src a (repair : bool) h es tail jx :
  let body := line_of (Opened h) ++ concat (line_of <$> es) in
  header_ok h session src a -> track_identity a session (replay_source src) = true ->
  Forall finite_floats es -> Forall encodable es ->
  load_entries (from_header [] h) a es = Ok (records jx) ->
  Forall (fun b => b <> LF) tail -> zlen tail <= MAX_RECORD_BYTES ->
  let f := if repair then body else body ++ tail in
  load_with_audio (Some (body ++ tail)) true session src repair a Repaired =
  Some (Some f, Ok (with_io jx f false (zlen body))).
Proof.
  intros body Hh Hid Hgood Henc Hload Htail Hsz f. unfold load_with_audio. rewrite Hid.
  cbn [negb]. rewrite andb_false_r. unfold body at 1. rewrite <-app_assoc, load_header_of by done.
  change (from_header (line_of (Opened h) ++ concat (line_of <$> es) ++ tail) h) with
    (with_io (from_header [] h) (line_of (Opened h) ++ concat (line_of <$> es) ++ tail) false 0).
  rewrite (load_loop_lines _ _ a es tail _
    (with_io (records jx) (line_of (Opened h) ++ concat (line_of <$> es) ++ tail) false 0)); try done.
  - cbn [mbind option_bind]. rewrite <-zlen_app. fold body.
    assert (Htake : take (Z.to_nat (zlen body)) (body ++ tail) = body).
    { apply take_app_length'. unfold zlen. lia. }
    destruct (Z.eqb_spec (zlen tail) 0) as [Hz|Hz]; simpl.
    + assert (tail = []) as Hnil by (destruct tail; [done | unfold zlen in Hz; simpl in Hz; lia]).
      subst tail. unfold f. rewrite !app_nil_r. by destruct repair.
    + rewrite app_assoc. fold body. destruct repair; simpl; [by rewrite Htake | done].
  - lia.
  - by rewrite load_entries_with_io, Hload.
Qed.

Lemma create_recoverable existing lock_free (audio : R) session src init fb io dir_synced f j (a : R) :
  create_with_fallback existing lock_free audio session src init fb io dir_synced = (f, Ok j) ->
  track_first a = track_first audio ->
  Recoverable a j /\ header_ok (j_header j) session src a.
Proof.
  intros Hc Hfirst. apply create_from_header in Hc as (_&He&Hi&Hfb&->). split.
  - exists [], []. simpl. rewrite !app_nil_r. split_and!; try done; constructor; done.
  - by split_and!.
Qed.

Lemma load_entry_records j a e j2 :
  load_entry (records j) a e = Ok j2 -> j2 = records j2 /\ j_header j2 = j_header j.
Proof.
  unfold records. rewrite load_entry_with_io. destruct e as [h|ep|c]; simpl; [done| |].
  - destruct (validate_switch j ep); simpl; [|done]. by intros [= <-].
  - destruct (validate_commit j a c); simpl; [|done]. by intros [= <-].
Qed.

(** The recovery of a recoverable journal: its own records, or one entry more
    when its last write failed. *)
Lemma recoverable_opens a j session src :
  Recoverable a j -> header_ok (j_header j) session src a ->
  track_identity a session (replay_source src) = true ->
  exists j', open (Some (file j)) true session src a Repaired = Some (Some (file j'), Ok j') /\
    failed j' = false /\ valid_bytes j' = zlen (file j') /\ whole_lines a j' /\
    (failed j = false -> j' = j) /\
    (records j' = records j \/
     failed j = true /\ exists e, load_entry (records j) a e = Ok (records j')).
Proof.
  intros (es&tail&Hfile&Hvalid&Hgood&Henc&Hload&Htail) Hh Hid. unfold open.
  set (body := line_of (Opened (j_header j)) ++ concat (line_of <$> es)) in *.
  assert (Htorn : Forall (fun b => b <> LF) tail -> zlen tail <= MAX_RECORD_BYTES ->
    load_with_audio (Some (file j)) true session src true a Repaired =
    Some (Some body, Ok (with_io j body false (zlen body)))).
  { intros Hlf Hsz. rewrite Hfile, app_assoc. fold body.
    by apply (load_clean session src a true (j_header j) es tail j). }
  set (j1 := with_io j body false (zlen body)).
  assert (Hown : (failed j = false -> file j = body) ->
    Forall (fun b => b <> LF) tail -> zlen tail <= MAX_RECORD_BYTES ->
    exists j', load_with_audio (Some (file j)) true session src true a Repaired = Some (Some (file j'), Ok j') /\
      failed j' = false /\ valid_bytes j' = zlen (file j') /\ whole_lines a j' /\
      (failed j = false -> j' = j) /\
      (records j' = records j \/ failed j = true /\ exists e, load_entry (records j) a e = Ok (records j'))).
  { intros Hsame Hlf Hsz. exists j1. rewrite Htorn by done. split_and!; try done; [by exists es| |by left].
    intros Hf. unfold j1. rewrite <-Hvalid, <-(Hsame Hf), <-Hf. by destruct j. }
  destruct Htail as [->|(Hfail&e&n&j2&->&Hfin&Hee&Hnext)].
  { apply Hown; [intros _; by rewrite Hfile, app_nil_r | constructor | by vm_compute]. }
  destruct (decide (n <= length (to_vec e))%nat) as [Hn|Hn].
  { apply Hown; [congruence| |].
    - unfold line_of. rewrite take_app_le by done. apply Forall_take, json_no_newline.
    - unfold encodable, zlen in *. rewrite length_take. unfold line_of. rewrite length_app. simpl. lia. }
  rewrite take_ge in Hfile, Htorn by (unfold line_of; rewrite length_app; simpl; lia).
  destruct (load_entry_records _ _ _ _ Hnext) as [Hrec Hhdr].
  set (f := body ++ line_of e). exists (with_io j2 f false (zlen f)).
  assert (Hf : f = line_of (Opened (j_header j)) ++ concat (line_of <$> es ++ [e])).
  { unfold f, body. rewrite fmap_app, concat_app. simpl. by rewrite app_nil_r, <-app_assoc. }
  assert (Hall : load_entries (from_header [] (j_header j)) a (es ++ [e]) = Ok (records j2)).
  { rewrite load_entries_snoc, Hload. simpl. by rewrite Hnext, <-Hrec. }
  split_and!; try done; [|by exists (es ++ [e]); simpl; rewrite Hhdr|congruence|].
  - pose proof (load_clean session src a true (j_header j) (es ++ [e]) [] j2 Hh Hid
      ltac:(apply Forall_app; auto) ltac:(apply Forall_app; auto) Hall
      ltac:(constructor) ltac:(by vm_compute)) as Hl.
    cbv zeta in Hl. rewrite app_nil_r, <-Hf in Hl. by rewrite Hfile, app_assoc.
  - right. split; [done|]. exists e. rewrite Hnext. by rewrite Hrec at 1.
Qed.

Lemma covered_records j : Covered (records j) -> Covered j.
Proof.
  intros Hj. apply (covered_with_io _ (file j) (failed j) (valid_bytes j)) in Hj. by destruct j.
Qed.

Lemma load_entry_covered j a e j' : Covered j -> load_entry j a e = Ok j' -> Covered j'.
Proof.
  intros Hj. destruct e as [h|ep|c]; simpl; [done| |].
  - destruct (validate_switch j ep) as [[]|] eqn:E; simpl; [|done]. intros [= <-].
    by apply enter_epoch_covered.
  - destruct (validate_commit j a c) as [[]|] eqn:E; simpl; [|done]. intros [= <-].
    by eapply accept_covered.
Qed.

(** C4: A crash loses nothing that was acknowledged.  Take any journal the
    program can have reached since it created it, whatever it was asked and
    however writes and syncs failed, and reopen its file with the audio of every
    successful sync still there.  Reopening succeeds and gives a healthy journal
    that covers as before, whose file is whole lines that load to its records,
    of the validated length.  If no write had
    failed it is the very journal that was running, field by field.  If one had,
    its records are those in memory, with the torn line cut off, or those and
    exactly the one entry that was being written, when all of it had reached the
    file. *)
Theorem reopening_recovers existing lock_free (audio a : R) session src init fb io dir_synced f j0 ops :
  create_with_fallback existing lock_free audio session src init fb io dir_synced = (f, Ok j0) ->
  track_first a = track_first audio -> track_identity a session (replay_source src) = true ->
  Forall (durable a) ops ->
  let j := journal_after j0 ops in
  zlen (file j) <= u64_max ->
  exists j', open (Some (file j)) true session src a Repaired = Some (Some (file j'), Ok j') /\
    Covered j' /\ failed j' = false /\ valid_bytes j' = zlen (file j') /\ whole_lines a j' /\
    (failed j = false -> j' = j) /\
    (records j' = records j \/
     failed j = true /\ exists e, load_entry (records j) a e = Ok (records j')).
Proof.
  intros Hc Hfirst Hid Hd j Hsz.
  destruct (create_recoverable _ _ _ _ _ _ _ _ _ _ _ a Hc Hfirst) as [Hr Hh].
  assert (Hcov : Covered (records j)).
  { apply covered_with_io, journal_after_covered. apply create_from_header in Hc as (_&_&_&_&->).
    apply covered_with_io, covered_from_header. }
  destruct (recoverable_opens a j session src) as (j'&Hopen&Hf&Hv&Hw&Hsame&Hrec).
  - by apply journal_after_recoverable.
  - unfold j. by rewrite journal_after_header.
  - done.
  - exists j'. split_and!; try done. apply covered_records.
    destruct Hrec as [->|(_&e&He)]; [done|]. by eapply load_entry_covered.
Qed.

(** A snapshot reads what recovery would, and touches nothing.  Whatever the
    file holds, taking a snapshot leaves it as it was, even when its last line is
    torn; and whenever opening it would succeed, the snapshot reports the same
    epochs, commits, fallback plan and validated length. *)
Theorem snapshot_agrees_with_open existing session src (a : R) synced :
  (forall f r, snapshot existing session src a synced = Some (f, r) -> f = existing) /\
  (forall f j, open existing true session src a Repaired = Some (f, Ok j) ->
     snapshot existing session src a (Ok tt) =
     Some (existing, Ok (mkSnapshot (epochs j) (fallback_plan j) (valid_bytes j) (commits j)))).
Proof.
  unfold snapshot, open, load_with_audio. rewrite !andb_false_r. split.
  - destruct (track_identity _ _ _); cbn [negb]; [|by intros f r [= <- _]].
    destruct existing as [bs|]; [|by intros f r [= <- _]].
    destruct (load_header bs session src a) as [[[j rest] n]|]; [|by intros f r [= <- _]].
    destruct (load_loop (S (length rest)) j a rest n) as [[[[j' v] torn]|]|];
      cbn [mbind option_bind]; [| |done].
    + rewrite andb_false_r. by intros f r [= <- _].
    + by intros f r [= <- _].
  - intros f j. destruct (track_identity _ _ _); cbn [negb]; [|done].
    destruct existing as [bs|]; [|done].
    destruct (load_header bs session src a) as [[[j1 rest] n]|]; [|done].
    destruct (load_loop (S (length rest)) j1 a rest n) as [[[[j' v] torn]|]|];
      cbn [mbind option_bind]; [|done..].
    rewrite andb_false_r, andb_true_r. destruct torn; by intros [= _ <-].
Qed.

End Recovery.

(** ** Witnesses *)

Module Sample.

#[local] Existing Instance EntryCodec.entry_serde.

Definition engine : EngineDescriptor := mkEngine "deepgram" "nova-3" None caps_deepgram.
Definition local_engine : EngineDescriptor := mkEngine LOCAL_PROVIDER "base.en" None caps_deepgram.

Definition segment : TranscriptSegment :=
  mkSegment "01A" "s" System None "hello" 0 1 [] (Some f32_one) None true 0 "deepgram" "nova-3" Provider.

(** A track of thirty-two samples from sample zero. *)
Definition track : ReplayReader :=
  mkReader ([7] ++ replicate 64 0) (mkReplayHeader "s" ReplaySystem 16000 0 None) 1.

Definition created : option bytes * result CoverageJournal IoError :=
  create_with_fallback None true track "s" System engine None Wrote true.

Definition journal : CoverageJournal :=
  match created.2 with
  | Ok j => j
  | Err _ => from_header [] (mkHeader 1 "s" System 0 engine None)
  end.

(** One commit, a switch, and a skip whose write stops after five bytes. *)
Definition history : list (Op (R := ReplayReader)) :=
  [OpRecord track (Ok tt) Wrote 0 0 16 [segment] None;
   OpSwitch Wrote local_engine TransportBudget;
   OpRecord track (Ok tt) (Stopped 5) 1 16 32 [] (Some "helper failed"%string)].

Lemma created_ok : created = (Some (file journal), Ok journal).
Proof. vm_compute. reflexivity. Qed.

Lemma journal_covers_contiguously_witness :
  committed (journal_after journal history) = 16 /\
  Covered (journal_after journal history) /\
  first_sample (j_header (journal_after journal history)) = track_first track.
Proof.
  split; [vm_compute; reflexivity|].
  exact (journal_covers_contiguously None true track "s" System engine None Wrote true
           (Some (file journal)) journal history created_ok).
Defined.

Lemma old_epochs_are_fenced_witness :
  let j := journal_after journal [OpRecord track (Ok tt) Wrote 0 0 16 [segment] None] in
  exists j1 e, switch j Wrote local_engine SpeechStall = (j1, Ok e) /\
    number e = 1 /\ ep_from_sample e = 16 /\
    forall segs, exists err, record_audio j1 track (Ok tt) Wrote 0 16 32 segs None = (j1, Err err).
Proof.
  intros j.
  set (e := mkEpoch 1 16 (Some SpeechStall) local_engine).
  set (j1 := (switch j Wrote local_engine SpeechStall).1).
  assert (Hs : switch j Wrote local_engine SpeechStall = (j1, Ok e)) by (vm_compute; reflexivity).
  exists j1, e. split; [exact Hs|].
  destruct (old_epochs_are_fenced (R := ReplayReader) j Wrote local_engine SpeechStall j1 e Hs)
    as (_&_&_&_&Hfence&_).
  split; [reflexivity|]. split; [reflexivity|]. intros segs.
  apply (Hfence [] track (Ok tt) Wrote 0 16 32 segs None). vm_compute. done.
Defined.

Lemma receipts_are_idempotent_witness :
  let j1 := journal_after journal [OpRecord track (Ok tt) Wrote 0 0 16 [segment] None] in
  commit_eqb (mkCommitted 0 0 16 [segment] None) (mkCommitted 0 0 16 [segment] None) = true /\
  record_audio j1 track (Ok tt) Wrote 0 0 16 [] None =
  (j1, Err (invalid "conflicting committed interval")).
Proof.
  intros j1.
  assert (Hcov : Covered journal).
  { apply covered_with_io, covered_from_header. }
  assert (Hrec : record_audio journal track (Ok tt) Wrote 0 0 16 [segment] None = (j1, Ok New))
    by (vm_compute; reflexivity).
  destruct (receipts_are_idempotent journal track (Ok tt) Wrote 0 0 16 [segment] None j1 [] Hcov Hrec)
    as [Heq Hagain]; [vm_compute; reflexivity | vm_compute; reflexivity |].
  split; [exact Heq|]. exact (Hagain track (Ok tt) Wrote [] None).
Defined.

Lemma track_durable : Forall (durable (reaches := replay_reaches) track) history.
Proof.
  assert (Hr : forall t, 0 <= t <= 32 -> replay_reaches track t).
  { intros t Ht. split; [vm_compute; done|]. split; [vm_compute; done|]. exists 32.
    split; [vm_compute; reflexivity | exact Ht]. }
  unfold history. apply Forall_cons; split; [intros _; apply Hr; lia|].
  apply Forall_cons; split; [exact I|].
  apply Forall_cons; split; [intros _; apply Hr; lia | constructor].
Qed.

(** The instances the recovery theorem is used at: the canonical audio file and
    the reference codec. *)
Definition lines : JsonLines Entry finite_floats := EntryCodec.entry_lines finite_floats.

Lemma reopening_recovers_witness :
  let j := journal_after journal history in
  failed j = true /\
  exists j', open (Some (file j)) true "s" System track Repaired = Some (Some (file j'), Ok j') /\
    failed j' = false /\ valid_bytes j' = zlen (file j').
Proof.
  intros j. split; [vm_compute; reflexivity|].
  destruct (reopening_recovers (reaches := replay_reaches) (JsonLines0 := lines) None true track track
    "s" System engine None Wrote true (Some (file journal)) journal history created_ok)
    as (j'&Hopen&_&Hf&Hv&_).
  - reflexivity.
  - vm_compute. reflexivity.
  - exact track_durable.
  - vm_compute. done.
  - exists j'. split; [exact Hopen|]. split; [exact Hf | exact Hv].
Defined.

End Sample.
