(* ===== verification/Frame.v ===== *)
(** * fotw-speechd-client: length-prefixed frames

    Models [crates/fotw-speechd-client/src/frame.rs]: encoding of control and
    audio frames, validation of the length prefix, decoding of a body, and the
    two readers, blocking and asynchronous.

    A reader is a script of what its successive [read] calls will find: some
    bytes, an interruption or a failure; the end of the script is the end of the
    stream.  A [read] takes at most what its buffer holds, so one chunk may
    serve several calls, and the theorems quantify over every way the bytes of
    a stream can be chopped up and interrupted.  [with_header] has the one
    [expect] of the module: [None] is that panic.  [serde_json] is a parameter
    of [encode_control]. *)

From S2P Require Import Prelude Bytes.

Local Open Scope Z_scope.

Definition MAX_FRAME : Z := Z.shiftl 1 20.
Definition MAX_CONTROL : Z := Z.shiftl 64 10.
Definition KIND_CONTROL : Z := 1.
Definition KIND_AUDIO : Z := 2.
Definition MAX_SAMPLES_PER_FRAME : Z := (MAX_FRAME - 1 - 4) / 2.

Inductive Frame :=
| Control (payload : bytes)
| Audio (stream : Z) (pcm : list Z).

Inductive FrameError :=
| Empty
| TooLarge (len : Z)
| ControlTooLarge (len : Z)
| UnknownKind (kind : Z)
| BadAudio (why : string)
| BadControl (why : string)
| Truncated
| Io (why : string).

Definition with_header (kind : Z) (payload : bytes) : option bytes :=
  let len := zlen payload + 1 in
  if len <=? u32_max then Some (u32_to_be_bytes len ++ kind :: payload) else None.

Definition encode_control {T} (to_vec : T -> result bytes string) (message : T)
  : option (result bytes FrameError) :=
  match to_vec message with
  | Err e => Some (Err (BadControl e))
  | Ok json =>
      if MAX_CONTROL <? zlen json then Some (Err (ControlTooLarge (zlen json)))
      else Ok <$> with_header KIND_CONTROL json
  end.

Definition encode_audio (stream : Z) (pcm : list Z) : option (result bytes FrameError) :=
  if zlen pcm =? 0 then Some (Err (BadAudio "no samples"))
  else if MAX_SAMPLES_PER_FRAME <? zlen pcm
  then Some (Err (BadAudio "too many samples for one frame"))
  else Ok <$> with_header KIND_AUDIO (u32_to_be_bytes stream ++ bytes_of_samples pcm).

Definition check_length (prefix : bytes) : result Z FrameError :=
  let len := u32_from_be_bytes prefix in
  if len =? 0 then Err Empty
  else if MAX_FRAME <? len then Err (TooLarge len)
  else Ok len.

Definition decode_body (body : bytes) : result Frame FrameError :=
  match body with
  | [] => Err Empty
  | kind :: payload =>
      if kind =? KIND_CONTROL then
        if MAX_CONTROL <? zlen payload then Err (ControlTooLarge (zlen payload))
        else Ok (Control payload)
      else if kind =? KIND_AUDIO then
        if zlen payload <? 4 then Err (BadAudio "no stream id")
        else
          let id := take 4 payload in
          let samples := drop 4 payload in
          if zlen samples =? 0 then Err (BadAudio "no samples")
          else if negb (zlen samples mod 2 =? 0) then Err (BadAudio "odd byte count")
          else Ok (Audio (u32_from_be_bytes id) (samples_of_bytes samples))
      else Err (UnknownKind kind)
  end.

(** ** The reader *)

Inductive ReadEvent :=
| Chunk (bs : bytes)
| Interrupted
| Failed (why : string).

Definition Reader := list ReadEvent.

Inductive ReadResult :=
| ReadBytes (bs : bytes)
| ReadInterrupted
| ReadFailed (why : string).

(** One [read] into a buffer of [room] bytes; no bytes is the end of stream. *)
Definition read (r : Reader) (room : Z) : ReadResult * Reader :=
  match r with
  | [] => (ReadBytes [], [])
  | Chunk bs :: r =>
      if zlen bs <=? room then (ReadBytes bs, r)
      else (ReadBytes (take (Z.to_nat room) bs), Chunk (drop (Z.to_nat room) bs) :: r)
  | Interrupted :: r => (ReadInterrupted, r)
  | Failed why :: r => (ReadFailed why, r)
  end.

Inductive Filled :=
| Full (buf : bytes)
| NothingRead.

(** The loop of [fill]: [got] is what is already in the buffer, [want] its
    length.  Each round finishes or uses up an event of the script, so one more
    round than there are events is enough; [None] is running out of rounds. *)
Fixpoint fill_loop (rounds : nat) (r : Reader) (got : bytes) (want : Z) (eof_ok : bool)
  : option (result Filled FrameError * Reader) :=
  if want <=? zlen got then Some (Ok (Full got), r)
  else match rounds with
  | O => None
  | S rounds =>
      match read r (want - zlen got) with
      | (ReadBytes bs, r') =>
          if zlen bs =? 0
          then Some (if (zlen got =? 0) && eof_ok then Ok NothingRead else Err Truncated, r')
          else fill_loop rounds r' (got ++ bs) want eof_ok
      | (ReadInterrupted, r') => fill_loop rounds r' got want eof_ok
      | (ReadFailed why, r') => Some (Err (Io why), r')
      end
  end.

Definition fill (r : Reader) (want : Z) (eof_ok : bool) : option (result Filled FrameError * Reader) :=
  fill_loop (S (length r)) r [] want eof_ok.

Definition read_frame (r : Reader) : option (result (option Frame) FrameError * Reader) :=
  '(prefix, r) ← fill r 4 true;
  match prefix with
  | Err e => Some (Err e, r)
  | Ok NothingRead => Some (Ok None, r)
  | Ok (Full prefix) =>
      match check_length prefix with
      | Err e => Some (Err e, r)
      | Ok len =>
          '(body, r) ← fill r len false;
          match body with
          | Err e => Some (Err e, r)
          | Ok filled =>
              let body := match filled with
                          | Full body => body
                          | NothingRead => replicate (Z.to_nat len) 0
                          end in
              match decode_body body with
              | Err e => Some (Err e, r)
              | Ok f => Some (Ok (Some f), r)
              end
          end
      end
  end.

(** ** The asynchronous reader *)

(** Tokio's [read] loop, for the prefix here and inside [read_exact]: any error
    ends it. *)
Fixpoint async_loop (rounds : nat) (r : Reader) (got : bytes) (want : Z) (eof_ok : bool)
  : option (result Filled FrameError * Reader) :=
  if want <=? zlen got then Some (Ok (Full got), r)
  else match rounds with
  | O => None
  | S rounds =>
      match read r (want - zlen got) with
      | (ReadBytes bs, r') =>
          if zlen bs =? 0
          then Some (if (zlen got =? 0) && eof_ok then Ok NothingRead else Err Truncated, r')
          else async_loop rounds r' (got ++ bs) want eof_ok
      | (ReadInterrupted, r') => Some (Err (Io "interrupted"), r')
      | (ReadFailed why, r') => Some (Err (Io why), r')
      end
  end.

Definition read_frame_async (r : Reader) : option (result (option Frame) FrameError * Reader) :=
  '(prefix, r) ← async_loop (S (length r)) r [] 4 true;
  match prefix with
  | Err e => Some (Err e, r)
  | Ok NothingRead => Some (Ok None, r)
  | Ok (Full prefix) =>
      match check_length prefix with
      | Err e => Some (Err e, r)
      | Ok len =>
          '(body, r) ← async_loop (S (length r)) r [] len false;
          match body with
          | Err e => Some (Err e, r)
          | Ok NothingRead => Some (Err Truncated, r)
          | Ok (Full body) =>
              match decode_body body with
              | Err e => Some (Err e, r)
              | Ok f => Some (Ok (Some f), r)
              end
          end
      end
  end.

(** Reading until the stream ends or a frame is refused, as the callers of
    [read_frame] do: the frames read, and the refusal if there was one. *)
Fixpoint read_frames (rounds : nat) (r : Reader) : option (list Frame * option FrameError) :=
  match rounds with
  | O => None
  | S rounds =>
      '(f, r) ← read_frame r;
      match f with
      | Err e => Some ([], Some e)
      | Ok None => Some ([], None)
      | Ok (Some f) => '(fs, e) ← read_frames rounds r; Some (f :: fs, e)
      end
  end.

(** ** Deliveries *)

(** The bytes a script still delivers. *)
Definition payload_of (r : Reader) : bytes :=
  r ≫= fun e => match e with Chunk bs => bs | _ => [] end.

(** A script that may chop and interrupt but neither fails nor ends early. *)
Definition benign (r : Reader) : Prop :=
  Forall (fun e => match e with Chunk bs => bs <> [] | Interrupted => True | Failed _ => False end) r.

Lemma zlen_zero {A} (l : list A) : zlen l = 0 <-> l = [].
Proof. unfold zlen. destruct l; simpl; split; (done || lia). Qed.

(** One read of a benign script. *)
Lemma read_benign r room :
  benign r -> 0 < room ->
  let '(res, r') := read r room in
  benign r' /\
  match res with
  | ReadBytes bs => payload_of r = bs ++ payload_of r' /\ zlen bs <= room /\
      (bs = [] -> r = []) /\ ((length r' < length r)%nat \/ zlen bs = room \/ r = [])
  | ReadInterrupted => payload_of r = payload_of r' /\ (length r' < length r)%nat
  | ReadFailed _ => False
  end.
Proof.
  intros Hb Hroom. destruct r as [|[bs| |why] r]; simpl.
  - split; [constructor|]. split_and!; auto. unfold zlen; simpl; lia.
  - inversion Hb as [|? ? Hne Hr]; subst. destruct (Z.leb_spec (zlen bs) room).
    + split_and!; auto; done.
    + assert (Hn : (Z.to_nat room < length bs)%nat) by (unfold zlen in *; lia).
      assert (Ht : zlen (take (Z.to_nat room) bs) = room).
      { unfold zlen. rewrite length_take. lia. }
      split_and!.
      * constructor; [|done]. intros E. apply (f_equal length) in E. rewrite length_drop in E.
        simpl in E. lia.
      * unfold payload_of. csimpl. by rewrite app_assoc, take_drop.
      * lia.
      * intros E. rewrite E in Ht. unfold zlen in Ht. simpl in Ht. lia.
      * auto.
  - inversion Hb; subst. split_and!; auto.
  - inversion Hb; subst. done.
Qed.

(** The loop fills its buffer exactly when the script still has the bytes. *)
Lemma fill_loop_enough rounds r got want eof_ok a rest :
  benign r -> (length r < rounds)%nat -> payload_of r = a ++ rest -> zlen got + zlen a = want ->
  exists r', fill_loop rounds r got want eof_ok = Some (Ok (Full (got ++ a)), r') /\
    benign r' /\ payload_of r' = rest /\ (length r' <= length r)%nat.
Proof.
  revert r got a. induction rounds as [|rounds IH]; intros r got a Hb Hlen Hp Hw; [lia|].
  cbn [fill_loop]. destruct (Z.leb_spec want (zlen got)) as [Hle|Hlt].
  - assert (a = []) as -> by (apply zlen_zero; pose proof (zlen_nonneg a); lia).
    exists r. rewrite app_nil_r. auto.
  - pose proof (read_benign r (want - zlen got) Hb ltac:(lia)) as Hread.
    destruct (read r (want - zlen got)) as [res r'] eqn:Er. destruct Hread as [Hb' Hres].
    destruct res as [bs| |why]; [| |done].
    + destruct Hres as (Hpay&Hroom&Hnil&Hprog).
      destruct (Z.eqb_spec (zlen bs) 0) as [E|E].
      { apply zlen_zero in E. rewrite (Hnil E) in Hp. apply (f_equal zlen) in Hp.
        rewrite zlen_app in Hp. unfold payload_of in Hp. simpl in Hp. change (zlen []) with 0 in Hp.
        pose proof (zlen_nonneg rest). lia. }
      assert (Hsplit : exists a2, a = bs ++ a2).
      { exists (drop (length bs) a). apply (f_equal (take (length a))) in Hpay.
        rewrite Hp, take_app_length in Hpay. unfold zlen in *.
        rewrite take_app_ge in Hpay by lia.
        rewrite Hpay at 2. rewrite drop_app_length. done. }
      destruct Hsplit as [a2 ->]. rewrite Hpay, <-app_assoc in Hp. apply app_inv_head in Hp.
      rewrite app_assoc. rewrite zlen_app in Hw.
      destruct Hprog as [Hdec|[Hfull|Hnone]].
      * destruct (IH r' (got ++ bs) a2) as (r2&?&?&?&?); [done | lia | done | rewrite zlen_app; lia|].
        exists r2. split_and!; auto. lia.
      * assert (a2 = []) as -> by (apply zlen_zero; lia). rewrite app_nil_r. exists r'.
        split_and!; auto.
        -- destruct rounds; cbn [fill_loop]; by rewrite (proj2 (Z.leb_le _ _)) by (rewrite zlen_app; lia).
        -- assert (Hl : length r' = length r \/ (length r' < length r)%nat); [|lia].
           unfold read in Er. destruct r as [|[cs| |w] r0]; simplify_eq/=; auto.
           case_match; simplify_eq/=; auto.
      * subst r. simpl in Er. simplify_eq.
    + destruct Hres as [Hpay Hdec].
      destruct (IH r' got a) as (r2&?&?&?&?); [done | lia | congruence | done |].
      exists r2. split_and!; auto. lia.
Qed.

(** And it reports the end of the stream when they are not all there. *)
Lemma fill_loop_short rounds r got want eof_ok :
  benign r -> (length r < rounds)%nat -> zlen got + zlen (payload_of r) < want ->
  exists r', fill_loop rounds r got want eof_ok =
    Some (if (zlen (got ++ payload_of r) =? 0) && eof_ok then Ok NothingRead else Err Truncated, r').
Proof.
  revert r got. induction rounds as [|rounds IH]; intros r got Hb Hlen Hw; [lia|].
  cbn [fill_loop]. pose proof (zlen_nonneg (payload_of r)).
  rewrite (proj2 (Z.leb_gt want (zlen got))) by lia.
  pose proof (read_benign r (want - zlen got) Hb ltac:(lia)) as Hread.
  destruct (read r (want - zlen got)) as [res r'] eqn:Er. destruct Hread as [Hb' Hres].
  destruct res as [bs| |why]; [| |done].
  - destruct Hres as (Hpay&Hroom&Hnil&Hprog). destruct (Z.eqb_spec (zlen bs) 0) as [E|E].
    + exists r'. apply zlen_zero in E. rewrite (Hnil E). unfold payload_of. simpl.
      by rewrite app_nil_r.
    + rewrite Hpay, zlen_app in Hw. destruct Hprog as [Hdec|[Hfull|Hnone]].
      * destruct (IH r' (got ++ bs)) as (r2&?); [done | lia | rewrite zlen_app; lia|].
        exists r2. by rewrite Hpay, app_assoc.
      * pose proof (zlen_nonneg (payload_of r')). lia.
      * subst r. simpl in Er. simplify_eq.
  - destruct Hres as [Hpay Hdec]. destruct (IH r' got) as (r2&?); [done | lia | congruence|].
    exists r2. by rewrite Hpay.
Qed.

(** ** Encoding and decoding *)

(** A frame either end may send: a control payload within its limit, or a
    32-bit stream with 1 to [MAX_SAMPLES_PER_FRAME] 16-bit samples. *)
Definition sendable (f : Frame) : Prop :=
  match f with
  | Control payload => zlen payload <= MAX_CONTROL
  | Audio stream pcm =>
      in_u32 stream /\ 1 <= zlen pcm <= MAX_SAMPLES_PER_FRAME /\ Forall is_i16 pcm
  end.

(** The encoder of a frame, given its already serialized payload. *)
Definition encode_frame (f : Frame) : option (result bytes FrameError) :=
  match f with
  | Control payload => encode_control Ok payload
  | Audio stream pcm => encode_audio stream pcm
  end.

Definition body_of (f : Frame) : bytes :=
  match f with
  | Control payload => KIND_CONTROL :: payload
  | Audio stream pcm => KIND_AUDIO :: u32_to_be_bytes stream ++ bytes_of_samples pcm
  end.

Lemma zlen_body_audio stream pcm : zlen (body_of (Audio stream pcm)) = 5 + 2 * zlen pcm.
Proof. unfold zlen. simpl. rewrite bytes_of_samples_length. lia. Qed.

Lemma body_bounds f : sendable f -> 1 <= zlen (body_of f) <= MAX_FRAME.
Proof.
  destruct f as [p|s pcm]; intros H.
  - change (zlen p <= 65536) in H. change MAX_FRAME with 1048576. unfold zlen in *. simpl length. lia.
  - destruct H as (_&H&_). rewrite zlen_body_audio.
    change MAX_SAMPLES_PER_FRAME with 524285 in H. change MAX_FRAME with 1048576. lia.
Qed.

Lemma with_header_small kind payload :
  zlen payload + 1 <= MAX_FRAME ->
  with_header kind payload = Some (u32_to_be_bytes (zlen (kind :: payload)) ++ kind :: payload).
Proof.
  intros H. unfold with_header. change MAX_FRAME with 1048576 in H.
  rewrite (proj2 (Z.leb_le _ _)) by (unfold u32_max; lia).
  replace (zlen (kind :: payload)) with (zlen payload + 1); [done|]. unfold zlen. simpl. lia.
Qed.

Lemma encode_frame_sendable f :
  sendable f ->
  encode_frame f = Some (Ok (u32_to_be_bytes (zlen (body_of f)) ++ body_of f)).
Proof.
  intros Hf. pose proof (body_bounds f Hf) as Hb. destruct f as [p|s pcm]; simpl in *.
  - unfold encode_control. rewrite (proj2 (Z.ltb_ge MAX_CONTROL (zlen p))) by lia.
    rewrite with_header_small; [done|]. unfold zlen in *. simpl in Hb. lia.
  - destruct Hf as (Hs&Hn&_). unfold encode_audio. rewrite (proj2 (Z.eqb_neq (zlen pcm) 0)) by lia.
    rewrite (proj2 (Z.ltb_ge _ (zlen pcm))) by lia.
    rewrite with_header_small; [done|]. unfold zlen in *. simpl length in *. lia.
Qed.

Lemma decode_body_of f : sendable f -> decode_body (body_of f) = Ok f.
Proof.
  intros Hf. destruct f as [p|s pcm].
  - simpl. by rewrite (proj2 (Z.ltb_ge MAX_CONTROL (zlen p))) by exact Hf.
  - destruct Hf as (Hs&Hn&Hpcm). unfold body_of, decode_body.
    change (KIND_AUDIO =? KIND_CONTROL) with false. change (KIND_AUDIO =? KIND_AUDIO) with true.
    cbv iota. assert (Hl4 : length (u32_to_be_bytes s) = 4%nat) by done.
    assert (Hl : zlen (bytes_of_samples pcm) = 2 * zlen pcm).
    { unfold zlen. rewrite bytes_of_samples_length. lia. }
    rewrite zlen_app. rewrite (proj2 (Z.ltb_ge _ 4)) by (unfold zlen in *; rewrite Hl4; lia).
    rewrite take_app_length', drop_app_length' by done. cbv zeta. rewrite Hl.
    rewrite (proj2 (Z.eqb_neq (2 * zlen pcm) 0)) by lia.
    rewrite Z.mul_comm, Z_mod_mult. simpl. by rewrite u32_be_roundtrip, samples_roundtrip.
Qed.

(** The framing is a bijection on what may be sent.  Every sendable frame
    encodes, without tripping the encoder's [expect], to a prefix and a body
    within [MAX_FRAME], and its body decodes to it; and a body of bytes that
    decodes at all decodes to a sendable frame whose encoding is that very body
    behind its length, so no two byte strings mean the same frame. *)
Theorem frames_are_canonical (f : Frame) (body : bytes) :
  (sendable f -> exists bs, encode_frame f = Some (Ok (u32_to_be_bytes (zlen bs) ++ bs)) /\
     1 <= zlen bs <= MAX_FRAME /\ decode_body bs = Ok f) /\
  (Forall is_byte body -> zlen body <= MAX_FRAME -> decode_body body = Ok f ->
   sendable f /\ encode_frame f = Some (Ok (u32_to_be_bytes (zlen body) ++ body))).
Proof.
  split.
  - intros Hf. exists (body_of f). split_and!; try (apply body_bounds; done);
      [by apply encode_frame_sendable | by apply decode_body_of].
  - intros Hbytes Hmax Hdec. assert (Hcan : sendable f /\ body_of f = body).
    2: { destruct Hcan as [Hf <-]. split; [done | by apply encode_frame_sendable]. }
    destruct body as [|kind payload]; [done|]. unfold decode_body in Hdec.
    inversion Hbytes as [|? ? _ Hpay]; subst.
    destruct (Z.eqb_spec kind KIND_CONTROL) as [->|_].
    { destruct (Z.ltb_spec MAX_CONTROL (zlen payload)); [done|]. simplify_eq. done. }
    destruct (Z.eqb_spec kind KIND_AUDIO) as [->|_]; [|done].
    destruct (Z.ltb_spec (zlen payload) 4) as [|H4]; [done|]. cbv zeta in Hdec.
    destruct (Z.eqb_spec (zlen (drop 4 payload)) 0) as [|Hne]; [done|].
    destruct (Z.eqb_spec (zlen (drop 4 payload) mod 2) 0) as [Heven|]; [|done]. simpl in Hdec.
    destruct payload as [|b0 [|b1 [|b2 [|b3 samples]]]]; try (unfold zlen in H4; simpl in H4; lia).
    change (take 4 (b0 :: b1 :: b2 :: b3 :: samples)) with [b0; b1; b2; b3] in *.
    change (drop 4 (b0 :: b1 :: b2 :: b3 :: samples)) with samples in *.
    simplify_eq. apply Forall_cons in Hpay as [? Hpay].
    apply Forall_cons in Hpay as [? Hpay]. apply Forall_cons in Hpay as [? Hpay].
    apply Forall_cons in Hpay as [? Hpay]. split.
    + split_and!; try (by apply u32_from_be_bound); [| |by apply samples_of_bytes_i16];
        unfold zlen at 1; rewrite samples_of_bytes_length;
        pose proof (zlen_nonneg samples); change MAX_SAMPLES_PER_FRAME with 524285;
        change MAX_FRAME with 1048576 in Hmax; unfold zlen in *; simpl in Hmax;
        Z.div_mod_to_equations; lia.
    + unfold body_of. by rewrite u32_be_unique, bytes_of_samples_of_bytes.
Qed.

Lemma frames_are_canonical_witness :
  sendable (Audio 7 [-32768; -1; 32767]) /\
  exists bs, encode_frame (Audio 7 [-32768; -1; 32767]) = Some (Ok (u32_to_be_bytes (zlen bs) ++ bs)) /\
    1 <= zlen bs <= MAX_FRAME /\ decode_body bs = Ok (Audio 7 [-32768; -1; 32767]).
Proof.
  assert (H : sendable (Audio 7 [-32768; -1; 32767])).
  { split; [by vm_compute|]. split; [by vm_compute|]. repeat constructor; vm_compute; done. }
  split; [exact H|]. exact (proj1 (frames_are_canonical (Audio 7 [-32768; -1; 32767]) []) H).
Defined.

(** One step of an option bind, nothing else unfolded. *)
Ltac bind_step := cbn [mbind option_bind].

(** ** Reading *)

Lemma fill_enough r want eof_ok a rest :
  benign r -> payload_of r = a ++ rest -> zlen a = want ->
  exists r', fill r want eof_ok = Some (Ok (Full a), r') /\ benign r' /\ payload_of r' = rest.
Proof.
  intros Hb Hp Hw. unfold fill.
  destruct (fill_loop_enough (S (length r)) r [] want eof_ok a rest) as (r'&?&?&?&_);
    [done | lia | done | done |]. by exists r'.
Qed.

Lemma fill_short r want eof_ok :
  benign r -> zlen (payload_of r) < want ->
  exists r', fill r want eof_ok =
    Some (if (zlen (payload_of r) =? 0) && eof_ok then Ok NothingRead else Err Truncated, r').
Proof.
  intros Hb Hp. unfold fill.
  destruct (fill_loop_short (S (length r)) r [] want eof_ok) as (r'&?); [done | lia | done |].
  by exists r'.
Qed.

Lemma check_length_body f : sendable f -> check_length (u32_to_be_bytes (zlen (body_of f))) = Ok (zlen (body_of f)).
Proof.
  intros Hf. pose proof (body_bounds f Hf) as Hb. change MAX_FRAME with 1048576 in Hb.
  unfold check_length. rewrite u32_be_roundtrip by (unfold in_u32, u32_max; lia). cbv zeta.
  rewrite (proj2 (Z.eqb_neq _ 0)) by lia. change MAX_FRAME with 1048576.
  by rewrite (proj2 (Z.ltb_ge _ _)) by lia.
Qed.

(** Any delivery of a sendable frame's encoding reads back as that frame. *)
Lemma read_frame_delivered f r rest :
  sendable f -> benign r -> payload_of r = (u32_to_be_bytes (zlen (body_of f)) ++ body_of f) ++ rest ->
  exists r', read_frame r = Some (Ok (Some f), r') /\ benign r' /\ payload_of r' = rest.
Proof.
  intros Hf Hb Hp. rewrite <-app_assoc in Hp.
  destruct (fill_enough r 4 true _ _ Hb Hp ltac:(done)) as (r1&H1&Hb1&Hp1).
  destruct (fill_enough r1 (zlen (body_of f)) false _ _ Hb1 Hp1 eq_refl) as (r2&H2&Hb2&Hp2).
  exists r2. split_and!; [|done..]. unfold read_frame. rewrite H1. bind_step.
  rewrite check_length_body by done. rewrite H2. bind_step. by rewrite decode_body_of.
Qed.

(** A delivery that ends inside a frame is reported as such. *)
Lemma read_frame_torn f r torn more :
  sendable f -> benign r -> payload_of r = torn ->
  u32_to_be_bytes (zlen (body_of f)) ++ body_of f = torn ++ more -> torn <> [] -> more <> [] ->
  exists r', read_frame r = Some (Err Truncated, r').
Proof.
  intros Hf Hb Hp Henc Htorn Hmore.
  assert (Hne : zlen torn <> 0) by (by rewrite zlen_zero).
  destruct (decide (zlen torn < 4)) as [Hlt|Hge].
  - destruct (fill_short r 4 true) as (r'&Hr'); [done | by rewrite Hp |].
    exists r'. unfold read_frame. rewrite Hr', Hp, (proj2 (Z.eqb_neq _ 0)) by done. done.
  - set (hd := u32_to_be_bytes (zlen (body_of f))) in *.
    assert (Hsplit : torn = hd ++ drop 4 torn).
    { apply (f_equal (take 4)) in Henc. rewrite (take_app_le torn more 4) in Henc by (unfold zlen in Hge; lia).
      change (take 4 (hd ++ body_of f)) with hd in Henc. rewrite Henc at 1. by rewrite take_drop. }
    rewrite Hsplit, <-app_assoc in Henc. apply app_inv_head in Henc. rewrite Hsplit in Hp.
    destruct (fill_enough r 4 true _ _ Hb Hp ltac:(done)) as (r1&H1&Hb1&Hp1).
    destruct (fill_short r1 (zlen (body_of f)) false) as (r2&H2); [done| |].
    { rewrite Hp1, Henc, zlen_app. assert (zlen more <> 0) by (by rewrite zlen_zero).
      pose proof (zlen_nonneg more). lia. }
    exists r2. unfold read_frame. rewrite H1. bind_step. unfold hd. rewrite check_length_body by done.
    rewrite H2. bind_step. by rewrite andb_false_r.
Qed.

Lemma read_frame_end r : benign r -> payload_of r = [] -> exists r', read_frame r = Some (Ok None, r').
Proof.
  intros Hb Hp. destruct (fill_short r 4 true) as (r'&Hr'); [done | by rewrite Hp |].
  exists r'. unfold read_frame. by rewrite Hr', Hp.
Qed.

(** C25: A stream of frames survives any transport.  Whatever sendable frames one
    end encodes back to back, and however the pipe chops and interrupts the
    bytes, the other end reads exactly those frames in that order: a stream that
    ends between frames ends cleanly, and one that ends inside a further frame
    yields the complete ones and then reports the truncation. *)
Theorem stream_survives_any_transport (fs : list Frame) (encs : list bytes) (r : Reader)
    (f : Frame) (enc torn more : bytes) :
  Forall sendable fs -> Forall2 (fun f bs => encode_frame f = Some (Ok bs)) fs encs ->
  sendable f -> encode_frame f = Some (Ok enc) -> enc = torn ++ more -> more <> [] ->
  benign r -> payload_of r = concat encs ++ torn ->
  read_frames (S (length fs)) r =
  Some (fs, if bool_decide (torn = []) then None else Some Truncated).
Proof.
  intros Hfs Hencs Hf Henc Hsplit Hmore. revert r.
  induction Hencs as [|f1 bs fs encs H1 _ IH]; intros r Hb Hp.
  - rewrite encode_frame_sendable in Henc by done. simplify_eq. cbn [concat app] in Hp.
    cbn [read_frames length]. case_bool_decide as Ht.
    + destruct (read_frame_end r) as (r'&->); [done | congruence | done].
    + destruct (read_frame_torn f r torn more) as (r'&->); [done..|]. done.
  - apply Forall_cons in Hfs as [Hf1 Hfs]. rewrite encode_frame_sendable in H1 by done.
    simplify_eq. cbn [concat] in Hp. rewrite <-app_assoc in Hp.
    destruct (read_frame_delivered f1 r _ Hf1 Hb Hp) as (r'&Hr&Hb'&Hp').
    cbn [read_frames length] in *. rewrite Hr. bind_step. by rewrite IH.
Qed.

Lemma stream_survives_any_transport_witness :
  read_frames 2 [Chunk [0; 0]; Interrupted; Chunk [0; 3; 1; 123]; Chunk [125; 0; 0; 0]] =
  Some ([Control [123; 125]], Some Truncated).
Proof.
  apply (stream_survives_any_transport [Control [123; 125]] [[0; 0; 0; 3; 1; 123; 125]] _
           (Audio 1 [5]) [0; 0; 0; 7; 2; 0; 0; 0; 1; 5; 0] [0; 0; 0] [7; 2; 0; 0; 0; 1; 5; 0]);
    try done.
  - repeat constructor. done.
  - repeat constructor.
  - split; [by vm_compute|]. split; [by vm_compute|]. repeat constructor; vm_compute; done.
  - repeat constructor; done.
Defined.

(** A hostile length costs nothing.  A prefix that announces more than
    [MAX_FRAME] bytes, or none, is refused with the announced length as soon as
    its four bytes are in, whatever follows and however it is delivered: the
    reader has consumed the prefix and not one byte of the payload.  A length
    that is accepted is between 1 and [MAX_FRAME]. *)
Theorem hostile_length_is_refused_unread (r : Reader) (b0 b1 b2 b3 : Z) (rest : bytes) :
  let len := u32_from_be_bytes [b0; b1; b2; b3] in
  benign r -> payload_of r = [b0; b1; b2; b3] ++ rest ->
  match check_length [b0; b1; b2; b3] with
  | Ok n => n = len /\ (0 <= len -> 1 <= n <= MAX_FRAME)
  | Err e =>
      (len = 0 /\ e = Empty \/ MAX_FRAME < len /\ e = TooLarge len) /\
      exists r', read_frame r = Some (Err e, r') /\ payload_of r' = rest
  end.
Proof.
  intros len Hb Hp.
  destruct (fill_enough r 4 true _ _ Hb Hp ltac:(done)) as (r1&H1&Hb1&Hp1).
  assert (Hread : forall e, check_length [b0; b1; b2; b3] = Err e ->
    exists r', read_frame r = Some (Err e, r') /\ payload_of r' = rest).
  { intros e He. exists r1. unfold read_frame. rewrite H1. bind_step. by rewrite He. }
  revert Hread. unfold check_length. fold len. intros Hread.
  destruct (Z.eqb_spec len 0) as [E|E]; [split; [by left | by apply Hread]|].
  destruct (Z.ltb_spec MAX_FRAME len); [split; [by right | by apply Hread]|].
  split; [done | lia].
Qed.

Lemma hostile_length_is_refused_unread_witness :
  check_length [0; 16; 0; 1] = Err (TooLarge 1048577) /\
  ((u32_from_be_bytes [0; 16; 0; 1] = 0 /\ TooLarge 1048577 = Empty \/
    MAX_FRAME < u32_from_be_bytes [0; 16; 0; 1] /\ TooLarge 1048577 = TooLarge (u32_from_be_bytes [0; 16; 0; 1])) /\
   exists r', read_frame [Chunk [0; 16]; Chunk [0; 1; 9; 9]] = Some (Err (TooLarge 1048577), r') /\
     payload_of r' = [9; 9]).
Proof.
  split; [reflexivity|].
  apply (hostile_length_is_refused_unread [Chunk [0; 16]; Chunk [0; 1; 9; 9]] 0 16 0 1 [9; 9]).
  - repeat constructor; done.
  - reflexivity.
Defined.

(** ** The two readers *)

Definition not_interrupted (e : ReadEvent) : Prop := match e with Interrupted => False | _ => True end.

Lemma read_keeps_not_interrupted r room res r' :
  Forall not_interrupted r -> read r room = (res, r') ->
  res <> ReadInterrupted /\ Forall not_interrupted r'.
Proof.
  intros H. destruct H as [|[bs| |why] r Hx Hr]; simpl; intros E; simplify_eq; try done.
  case_match; simplify_eq; split; try done. by constructor.
Qed.

Lemma async_loop_agrees rounds r got want eof_ok :
  Forall not_interrupted r ->
  async_loop rounds r got want eof_ok = fill_loop rounds r got want eof_ok /\
  (forall o r', fill_loop rounds r got want eof_ok = Some (o, r') -> Forall not_interrupted r').
Proof.
  revert r got. induction rounds as [|rounds IH]; intros r got H; cbn [async_loop fill_loop];
    (destruct (want <=? zlen got); [split; [done|]; intros; by simplify_eq|]); [done|].
  destruct (read r _) as [res r'] eqn:E.
  destruct (read_keeps_not_interrupted _ _ _ _ H E) as [Hres Hr'].
  destruct res as [bs| |why]; [|done|].
  - destruct (zlen bs =? 0); [split; [done|]; intros; by simplify_eq | by apply IH].
  - split; [done|]. intros. by simplify_eq.
Qed.

Lemma fill_loop_full rounds r got want o r' :
  fill_loop rounds r got want false = Some (o, r') -> o <> Ok NothingRead.
Proof.
  revert r got. induction rounds as [|rounds IH]; intros r got; cbn [fill_loop];
    (destruct (want <=? zlen got); [intros; by simplify_eq|]); [done|].
  destruct (read r _) as [[bs| |why] r2]; [|apply IH | intros; by simplify_eq].
  destruct (zlen bs =? 0); [rewrite andb_false_r; intros; by simplify_eq | apply IH].
Qed.

(** The asynchronous reader agrees with the blocking one.  On every stream
    whose reads are not interrupted, whatever else happens on it, the two return
    the same frame or the same refusal and leave the same bytes unread. *)
Theorem async_reader_agrees (r : Reader) :
  Forall not_interrupted r -> read_frame_async r = read_frame r.
Proof.
  intros H. unfold read_frame_async, read_frame, fill.
  destruct (async_loop_agrees (S (length r)) r [] 4 true H) as [-> Hkeep].
  destruct (fill_loop (S (length r)) r [] 4 true) as [[o r1]|] eqn:E1; bind_step; [|done].
  specialize (Hkeep _ _ eq_refl). destruct o as [[prefix|]|e]; [|done..].
  destruct (check_length prefix) as [len|e]; [|done].
  destruct (async_loop_agrees (S (length r1)) r1 [] len false Hkeep) as [-> _].
  destruct (fill_loop (S (length r1)) r1 [] len false) as [[o r2]|] eqn:E2; bind_step; [|done].
  pose proof (fill_loop_full _ _ _ _ _ _ E2). destruct o as [[body|]|e]; done.
Qed.

Lemma async_reader_agrees_witness :
  read_frame_async [Chunk [0; 0; 0; 3; 1]; Chunk [123]; Failed "broken pipe"] =
  read_frame [Chunk [0; 0; 0; 3; 1]; Chunk [123]; Failed "broken pipe"].
Proof. apply async_reader_agrees. repeat constructor. Defined.
