(* ===== verification/Restart.v ===== *)
(** * fotw-speechd-client: the helper's restart budget

    Models [crates/fotw-speechd-client/src/restart.rs], and the use
    [SpeechdClient::conn] in [client.rs] makes of it: take an attempt, sleep the
    wait it returns, record the spawn.  An [Instant] is a [Z] of nanoseconds on
    the monotonic clock; the [attempts] counter is a [u32]. *)

From S2P Require Import Prelude.
From Stdlib Require Import Sorted.

Local Open Scope Z_scope.

Definition Instant := Z.

Definition saturating_duration_since (a b : Instant) : Duration := Z.max 0 (a - b).

Record RestartPolicy := mkRestartPolicy { max_attempts : Z; min_interval : Duration }.

Definition restart_default : RestartPolicy := mkRestartPolicy 3 (dur_from_secs 2).

Record RestartBudget := mkBudget {
  policy : RestartPolicy;
  attempts : Z;
  last_spawn : option Instant;
}.

Record Exhausted := mkExhausted { spent : Z }.

Definition budget_new (policy : RestartPolicy) : RestartBudget := mkBudget policy 0 None.

Definition take_attempt (self : RestartBudget) (now : Instant) : RestartBudget * result Duration Exhausted :=
  if max_attempts (policy self) <=? attempts self then (self, Err (mkExhausted (attempts self)))
  else
    (mkBudget (policy self) (attempts self + 1) (last_spawn self),
     Ok (match last_spawn self with
         | None => 0
         | Some last => saturating_duration_since (last + min_interval (policy self)) now
         end)).

Definition spawned (self : RestartBudget) (at_ : Instant) : RestartBudget :=
  mkBudget (policy self) (attempts self) (Some at_).

Definition succeeded (self : RestartBudget) : RestartBudget :=
  mkBudget (policy self) 0 (last_spawn self).

(** What the client does with the budget: restart a helper found dead at [now],
    whose spawn happens [late] after the wait it was told, or note a stream that
    completed. *)
Inductive ClientEvent :=
| Restart (now : Instant) (late : Duration)
| StreamDone.

(** The spawn times, and the refusals, an event produces. *)
Definition client_step (b : RestartBudget) (e : ClientEvent) : RestartBudget * list (result Instant Exhausted) :=
  match e with
  | Restart now late =>
      match take_attempt b now with
      | (b, Ok wait) => (spawned b (now + wait + late), [Ok (now + wait + late)])
      | (b, Err x) => (b, [Err x])
      end
  | StreamDone => (succeeded b, [])
  end.

Definition spawn_times (out : list (result Instant Exhausted)) : list Instant :=
  omap (fun r => match r with Ok t => Some t | Err _ => None end) out.

Definition not_hurried (e : ClientEvent) : Prop :=
  match e with Restart _ late => 0 <= late | StreamDone => True end.

Lemma client_step_policy b e : policy (client_step b e).1 = policy b.
Proof.
  destruct e as [now late|]; [|done]. simpl. unfold take_attempt. by destruct (_ <=? _).
Qed.

Lemma restart_spacing evs b t0 :
  Forall not_hurried evs -> last_spawn b = Some t0 ->
  Sorted (fun t t' => t + min_interval (policy b) <= t')
    (t0 :: spawn_times (run client_step b evs).2).
Proof.
  intros H. revert b t0. induction H as [|e evs He _ IH]; intros b t0 Hb; [by repeat constructor|].
  rewrite run_cons. cbn [snd]. unfold spawn_times. rewrite omap_app.
  pose proof (client_step_policy b e) as Hp. destruct e as [now late|].
  - revert Hp. cbn [client_step]. unfold take_attempt.
    destruct (max_attempts (policy b) <=? attempts b); cbn [fst snd]; intros Hp.
    + by apply IH.
    + rewrite Hb. csimpl. constructor.
      * set (t := now + saturating_duration_since (t0 + min_interval (policy b)) now + late).
        apply (IH (mkBudget (policy b) (attempts b + 1) (Some t)) t). done.
      * constructor. unfold saturating_duration_since, not_hurried in *. lia.
  - cbn [client_step fst snd]. csimpl. by apply (IH (succeeded b)).
Qed.

Definition is_restart (e : ClientEvent) : Prop := match e with Restart _ _ => True | _ => False end.

Lemma restart_count evs b :
  Forall is_restart evs -> 0 <= attempts b <= max_attempts (policy b) ->
  zlen (spawn_times (run client_step b evs).2) =
    Z.min (zlen evs) (max_attempts (policy b) - attempts b).
Proof.
  intros H. revert b. induction H as [|e evs He _ IH]; intros b Hb; [unfold zlen; simpl; lia|].
  rewrite run_cons. cbn [snd]. unfold spawn_times. rewrite omap_app, zlen_app.
  destruct e as [now late|]; [|done]. cbn [client_step]. unfold take_attempt.
  replace (zlen (Restart now late :: evs)) with (1 + zlen evs) by (unfold zlen; simpl length; lia).
  destruct (Z.leb_spec (max_attempts (policy b)) (attempts b)); cbn [fst snd]; csimpl;
    fold (spawn_times (run client_step b evs).2); pose proof (zlen_nonneg evs).
  - change (zlen []) with 0. rewrite IH; lia.
  - match goal with |- zlen [?t] + zlen (omap _ ?l) = _ =>
      change (1 + zlen (spawn_times l) = Z.min (1 + zlen evs) (max_attempts (policy b) - attempts b)) end.
    rewrite IH; simpl; lia.
Qed.

Lemma client_attempts_bounded evs b :
  0 <= attempts b <= max_attempts (policy b) ->
  0 <= attempts (run client_step b evs).1 <= max_attempts (policy b).
Proof.
  revert b. induction evs as [|e evs IH]; intros b Hb; [done|].
  rewrite run_cons. cbn [fst]. rewrite <-(client_step_policy b e). apply IH.
  rewrite client_step_policy. destruct e as [now late|]; simpl; [|lia].
  unfold take_attempt. destruct (Z.leb_spec (max_attempts (policy b)) (attempts b)); simpl; lia.
Qed.

(** The helper is never restarted in a tight loop and never forever.
    Whatever deaths and completions the client sees, any two successive spawns
    are at least the policy's interval apart, the first of them from the initial
    spawn; the attempt counter never leaves its limit, so it cannot overflow;
    and after a success, [n] deaths in a row produce exactly [n] restarts or as
    many as the policy allows. *)
Theorem restarts_are_spaced_and_bounded (p : RestartPolicy) (t0 : Instant) (evs deaths : list ClientEvent) :
  0 <= max_attempts p -> Forall not_hurried evs -> Forall is_restart deaths ->
  let b0 := spawned (budget_new p) t0 in
  let b := (run client_step b0 evs).1 in
  Sorted (fun t t' => t + min_interval p <= t') (t0 :: spawn_times (run client_step b0 evs).2) /\
  0 <= attempts b <= max_attempts p /\
  zlen (spawn_times (run client_step b (StreamDone :: deaths)).2) =
    Z.min (zlen deaths) (max_attempts p).
Proof.
  intros Hp Hev Hd b0 b.
  assert (Hpol : forall evs c, policy (run client_step c evs).1 = policy c).
  { intros evs'. induction evs' as [|e evs' IH]; intros c; [done|].
    rewrite run_cons. cbn [fst]. by rewrite IH, client_step_policy. }
  split_and!.
  - by apply (restart_spacing evs b0 t0).
  - apply (client_attempts_bounded evs b0). simpl. lia.
  - apply (client_attempts_bounded evs b0). simpl. lia.
  - rewrite run_cons. cbn [client_step fst snd app].
    rewrite restart_count; [| done |]; unfold succeeded; cbn [policy attempts];
      unfold b; rewrite Hpol; cbn [b0 spawned budget_new policy]; lia.
Qed.

Lemma restarts_are_spaced_and_bounded_witness :
  let died := Restart 300000000 0 in
  zlen (spawn_times (run client_step
     (run client_step (spawned (budget_new restart_default) 0) [died; died]).1
     (StreamDone :: [died; died; died; died])).2) = 3.
Proof.
  intros died.
  refine (proj2 (proj2 (restarts_are_spaced_and_bounded restart_default 0 [died; died]
    [died; died; died; died] _ _ _))).
  - vm_compute. done.
  - repeat constructor; simpl; lia.
  - repeat constructor.
Defined.
