(* ===== verification/Backoff.v ===== *)
(** * fotw-stt: the reconnect schedule

    Models [crates/fotw-stt/src/backoff.rs]: the delay before a retry, the two
    jitter sources, and the rolling-window attempt budget that stops a flapping
    connection. *)

From Stdlib Require Import SpecFloat.
From S2P Require Import Prelude Float32 Float64.

Local Open Scope Z_scope.

Definition DEFAULT_BASE_MS : Z := 250.
Definition DEFAULT_CAP_MS : Z := 8000.
(** The double nearest to [0.20]. *)
Definition DEFAULT_JITTER_FRACTION : f64 := S754_finite false 7205759403792794 (-55).
Definition DEFAULT_MAX_ATTEMPTS : Z := 6.
Definition DEFAULT_WINDOW_MS : Z := 60000.

(** ** Jitter *)

(** The trait: a draw and the next state of the source. *)
Class Jitter (J : Type) := unit_draw : J -> f64 * J.

Inductive FixedJitter := mkFixedJitter (draw : f64).

(** [1.0 - f64::EPSILON]. *)
Definition one_minus_epsilon : f64 := S754_finite false 9007199254740990 (-53).

#[export] Instance fixed_unit : Jitter FixedJitter :=
  fun self => let 'mkFixedJitter x := self in (f64_clamp x f64_zero one_minus_epsilon, self).

Record ProcessJitter := mkProcessJitter { jitter_state : Z }.

Definition from_seed (seed : Z) : ProcessJitter :=
  mkProcessJitter (if seed =? 0 then 0x9E3779B97F4A7C15 else seed).

(** One xorshift64 step; [<<] drops the bits beyond the sixty-fourth. *)
Definition xorshift (s : Z) : Z :=
  let s := Z.lxor s (Z.shiftr s 12) in
  let s := Z.lxor s (Z.shiftl s 25 mod 2 ^ 64) in
  Z.lxor s (Z.shiftr s 27).

#[export] Instance process_unit : Jitter ProcessJitter :=
  fun self =>
    let s := xorshift (jitter_state self) in
    let value := (s * 0x2545F4914F6CDD1D) mod 2 ^ 64 in
    (f64_div (f64_of_Z (Z.shiftr value 11)) (f64_of_Z (2 ^ 53)), mkProcessJitter s).

(** ** The schedule *)

Record BackoffPolicy := mkBackoffPolicy {
  base_ms : Z;
  factor : Z;
  cap_ms : Z;
  jitter_fraction : f64;
  bp_max_attempts : Z;
  bp_window_ms : Z;
}.

Definition backoff_spec : BackoffPolicy :=
  mkBackoffPolicy DEFAULT_BASE_MS 2 DEFAULT_CAP_MS DEFAULT_JITTER_FRACTION
    DEFAULT_MAX_ATTEMPTS DEFAULT_WINDOW_MS.

Definition backoff_fast : BackoffPolicy :=
  mkBackoffPolicy 5 2 40 DEFAULT_JITTER_FRACTION DEFAULT_MAX_ATTEMPTS DEFAULT_WINDOW_MS.

Fixpoint delay_loop (self : BackoffPolicy) (rounds : nat) (delay : Z) : Z :=
  match rounds with
  | O => Z.min delay (cap_ms self)
  | S rounds =>
      let delay := sat_mul64 delay (factor self) in
      if cap_ms self <=? delay then cap_ms self else delay_loop self rounds delay
  end.

Definition unjittered_delay_ms (self : BackoffPolicy) (attempt : Z) : Z :=
  delay_loop self (Z.to_nat attempt) (base_ms self).

Definition delay_ms (self : BackoffPolicy) (attempt : Z) (unit : f64) : Z :=
  let base := f64_of_Z (unjittered_delay_ms self attempt) in
  let unit := f64_clamp unit f64_zero f64_one in
  let multiplier :=
    f64_add (f64_sub f64_one (jitter_fraction self))
      (f64_mul (f64_mul f64_two (jitter_fraction self)) unit) in
  f64_round_as_u64 (f64_mul base multiplier).

(** ** The budget *)

Record ReconnectBudget := mkReconnectBudget {
  rb_max_attempts : Z;
  rb_window_ms : Z;
  rb_attempts : list Z;
}.

Definition reconnect_budget_new (max_attempts window_ms : Z) : ReconnectBudget :=
  mkReconnectBudget max_attempts window_ms [].

Definition budget (self : BackoffPolicy) : ReconnectBudget :=
  reconnect_budget_new (bp_max_attempts self) (bp_window_ms self).

Fixpoint prune_front (window_ms now_ms : Z) (attempts : list Z) : list Z :=
  match attempts with
  | [] => []
  | oldest :: rest =>
      if sat_add64 oldest window_ms <=? now_ms then prune_front window_ms now_ms rest else attempts
  end.

Definition prune (self : ReconnectBudget) (now_ms : Z) : ReconnectBudget :=
  mkReconnectBudget (rb_max_attempts self) (rb_window_ms self)
    (prune_front (rb_window_ms self) now_ms (rb_attempts self)).

Definition try_record (self : ReconnectBudget) (now_ms : Z) : ReconnectBudget * option Z :=
  let self := prune self now_ms in
  if rb_max_attempts self <=? zlen (rb_attempts self) mod 2 ^ 32 then (self, None)
  else
    let attempts := rb_attempts self ++ [now_ms] in
    (mkReconnectBudget (rb_max_attempts self) (rb_window_ms self) attempts,
     Some (zlen attempts mod 2 ^ 32 - 1)).

Definition remaining (self : ReconnectBudget) (now_ms : Z) : ReconnectBudget * Z :=
  let self := prune self now_ms in
  (self, sat_sub (rb_max_attempts self) (zlen (rb_attempts self) mod 2 ^ 32)).

Definition budget_clear (self : ReconnectBudget) : ReconnectBudget :=
  mkReconnectBudget (rb_max_attempts self) (rb_window_ms self) [].

(** ** The schedule in closed form *)

Definition policy_ok (p : BackoffPolicy) : Prop :=
  in_u64 (base_ms p) /\ in_u32 (factor p) /\ in_u64 (cap_ms p).

Lemma delay_loop_spec p n delay :
  policy_ok p -> 0 <= delay ->
  delay_loop p n delay = Z.min (cap_ms p) (delay * factor p ^ Z.of_nat n).
Proof.
  intros (Hb & Hf & Hc). revert delay. induction n as [|n IH]; intros delay Hd; cbn [delay_loop].
  - rewrite Z.pow_0_r. lia.
  - rewrite Nat2Z.inj_succ, Z.pow_succ_r by lia.
    assert (0 <= delay * factor p) by (unfold in_u32 in Hf; nia).
    destruct (Z.leb_spec (cap_ms p) (sat_mul64 delay (factor p))) as [Hle|Hlt].
    + destruct (Z.eq_dec (factor p) 0) as [Hz|Hz].
      * rewrite Hz in *. unfold sat_mul64 in Hle. mlia.
      * assert (1 <= factor p ^ Z.of_nat n) by (pose proof (Z.pow_pos_nonneg (factor p) (Z.of_nat n)); mlia).
        assert (cap_ms p <= delay * factor p) by mlia.
        rewrite Z.mul_assoc. nia.
    + assert (sat_mul64 delay (factor p) = delay * factor p) as -> by mlia.
      rewrite IH by lia. by rewrite Z.mul_assoc.
Qed.

(** The delay before retry [n] is [min(cap, base * factor^n)] for every attempt
    number, however large: the saturating loop with its early return never wraps. *)
Theorem unjittered_delay_closed_form (p : BackoffPolicy) (attempt : Z) :
  policy_ok p -> in_u32 attempt ->
  unjittered_delay_ms p attempt = Z.min (cap_ms p) (base_ms p * factor p ^ attempt).
Proof.
  intros Hp Ha. unfold unjittered_delay_ms.
  rewrite delay_loop_spec; [|done|destruct Hp as [[] _]; lia].
  by rewrite Z2Nat.id by apply Ha.
Qed.

Lemma unjittered_delay_closed_form_witness :
  unjittered_delay_ms backoff_spec 4 = 4000 /\
  unjittered_delay_ms backoff_spec 100 = Z.min 8000 (250 * 2 ^ 100).
Proof.
  split; [reflexivity|].
  apply (unjittered_delay_closed_form backoff_spec 100); repeat split; by vm_compute.
Defined.

(** The ends and the middle of the jitter band of the first retry. *)
Example delay_band :
  delay_ms backoff_spec 0 f64_zero = 200 /\
  delay_ms backoff_spec 0 (f64_div f64_one f64_two) = 250 /\
  delay_ms backoff_spec 0 f64_one = 300.
Proof. by vm_compute. Qed.

(** ** The generator never reaches its fixed point *)

Lemma lxor_zero_eq a b : Z.lxor a b = 0 -> a = b.
Proof. apply Z.lxor_eq. Qed.

Lemma shiftr_fixed s n : 0 <= s -> 0 < n -> s = Z.shiftr s n -> s = 0.
Proof.
  intros Hs Hn H. rewrite Z.shiftr_div_pow2 in H by lia.
  destruct (Z.eq_dec s 0) as [|Hne]; [done|].
  pose proof (Z.div_lt s (2 ^ n) ltac:(lia) ltac:(apply Z.pow_gt_1; lia)). lia.
Qed.

Lemma shiftl_fixed s n w : 0 <= s < 2 ^ w -> 0 < n -> 0 <= w -> s = Z.shiftl s n mod 2 ^ w -> s = 0.
Proof.
  intros Hs Hn Hw H. apply Z.bits_inj'. intros i Hi. rewrite Z.bits_0.
  induction (Z.lt_wf 0 i) as [i _ IH].
  rewrite H. destruct (Z.lt_ge_cases i w).
  - rewrite Z.mod_pow2_bits_low, Z.shiftl_spec by lia.
    destruct (Z.lt_ge_cases i n); [by apply Z.testbit_neg_r; lia|].
    apply IH; lia.
  - apply Z.mod_pow2_bits_high; lia.
Qed.

Lemma lxor_range w a b : 0 <= w -> 0 <= a < 2 ^ w -> 0 <= b < 2 ^ w -> 0 <= Z.lxor a b < 2 ^ w.
Proof.
  intros Hw Ha Hb. pose proof (Z.pow_pos_nonneg 2 w ltac:(lia) Hw).
  assert (E : Z.lxor a b mod 2 ^ w = Z.lxor a b).
  { apply Z.bits_inj'. intros i Hi. destruct (Z.lt_ge_cases i w).
    - by rewrite Z.mod_pow2_bits_low.
    - rewrite Z.mod_pow2_bits_high, Z.lxor_spec by lia.
      rewrite <-(Z.mod_small a (2 ^ w)), <-(Z.mod_small b (2 ^ w)) by done.
      by rewrite !Z.mod_pow2_bits_high by lia. }
  rewrite <-E. apply Z.mod_pos_bound. lia.
Qed.

Lemma xorshift_step f s :
  0 < s < 2 ^ 64 -> 0 <= f s < 2 ^ 64 -> (s = f s -> s = 0) ->
  0 < Z.lxor s (f s) < 2 ^ 64.
Proof.
  intros Hs Hf Hfix. pose proof (lxor_range 64 s (f s) ltac:(lia) ltac:(lia) Hf) as Hr.
  destruct (Z.eq_dec (Z.lxor s (f s)) 0) as [E%lxor_zero_eq|]; [|lia].
  specialize (Hfix E). lia.
Qed.

Lemma shiftr_range s n : 0 <= s < 2 ^ 64 -> 0 <= n -> 0 <= Z.shiftr s n < 2 ^ 64.
Proof.
  intros Hs Hn. rewrite Z.shiftr_div_pow2 by lia.
  pose proof (Z.pow_pos_nonneg 2 n ltac:(lia) Hn).
  split; [apply Z.div_pos; lia|]. apply Z.div_lt_upper_bound; nia.
Qed.

Lemma xorshift_nonzero s : 0 < s < 2 ^ 64 -> 0 < xorshift s < 2 ^ 64.
Proof.
  intros Hs. unfold xorshift.
  assert (H1 : 0 < Z.lxor s (Z.shiftr s 12) < 2 ^ 64).
  { apply (xorshift_step (fun s => Z.shiftr s 12)); [done|apply shiftr_range; lia|].
    apply shiftr_fixed; lia. }
  generalize dependent (Z.lxor s (Z.shiftr s 12)). clear s Hs. intros s Hs.
  assert (H2 : 0 < Z.lxor s (Z.shiftl s 25 mod 2 ^ 64) < 2 ^ 64).
  { apply (xorshift_step (fun s => Z.shiftl s 25 mod 2 ^ 64)); [done|apply Z.mod_pos_bound; lia|].
    apply shiftl_fixed; lia. }
  generalize dependent (Z.lxor s (Z.shiftl s 25 mod 2 ^ 64)). clear s Hs. intros s Hs.
  apply (xorshift_step (fun s => Z.shiftr s 27)); [done|apply shiftr_range; lia|].
  apply shiftr_fixed; lia.
Qed.

(** The zero state, a fixed point of the generator, is never seeded and never
    reached. *)
Lemma jitter_state_never_zero (seed : Z) (n : nat) :
  in_u64 seed ->
  0 < jitter_state (Nat.iter n (fun j => (process_unit j).2) (from_seed seed)) < 2 ^ 64.
Proof.
  intros Hs. induction n as [|n IH]; simpl.
  - unfold in_u64, u64_max in Hs. destruct (Z.eqb_spec seed 0); lia.
  - by apply xorshift_nonzero.
Qed.

(** ** The budget refines a sliding-window count

    The specification keeps every attempt it ever granted and counts those
    less than a window old. *)

Definition live (window now : Z) (log : list Z) : list Z := filter (fun t => now < t + window) log.

Definition spec_try (max window : Z) (log : list Z) (now : Z) : list Z * option Z :=
  let n := zlen (live window now log) in
  if max <=? n then (log, None) else (log ++ [now], Some n).

(** The calls a stream makes of its budget, and what each returns. *)
Inductive BudgetCall := TryRecord (now : Z) | Remaining (now : Z).

Definition call_time (c : BudgetCall) : Z := match c with TryRecord t | Remaining t => t end.

Definition budget_step (b : ReconnectBudget) (c : BudgetCall) : ReconnectBudget * list (option Z) :=
  match c with
  | TryRecord t => let '(b, r) := try_record b t in (b, [r])
  | Remaining t => let '(b, r) := remaining b t in (b, [Some r])
  end.

Definition spec_step (max window : Z) (log : list Z) (c : BudgetCall) : list Z * list (option Z) :=
  match c with
  | TryRecord t => let '(log, r) := spec_try max window log t in (log, [r])
  | Remaining t => (log, [Some (sat_sub max (zlen (live window t log)))])
  end.

(** Times on a monotonic scale that leave room for the window. *)
Fixpoint monotonic (window from : Z) (calls : list BudgetCall) : Prop :=
  match calls with
  | [] => True
  | c :: calls =>
      from <= call_time c /\ call_time c + window <= u64_max /\ monotonic window (call_time c) calls
  end.

Section Budget.
Context (max window : Z).
Hypothesis (Hmax : in_u32 max).

(** The deque holds the live part of the log, oldest first. *)
Definition simulates (now : Z) (b : ReconnectBudget) (log : list Z) : Prop :=
  rb_max_attempts b = max /\ rb_window_ms b = window /\
  rb_attempts b = live window now log /\
  Sorted Z.le log /\ Forall (fun t => t <= now) log /\
  (forall T, zlen (filter (fun t => T - window < t <= T) log) <= max).

Lemma prune_front_live now log :
  now + window <= u64_max -> Sorted Z.le log -> Forall (fun t => t <= now) log ->
  prune_front window now log = live window now log.
Proof.
  intros Hw Hs. apply Sorted_StronglySorted in Hs; [|intros ??? ??; lia].
  induction Hs as [|t log Hs IH Ht]; intros Hf; [done|]. inv Hf.
  simpl. unfold live. rewrite filter_cons. unfold sat_add64.
  destruct (Z.leb_spec (Z.min u64_max (t + window)) now); case_decide; try mlia.
  - by apply IH.
  - f_equal. symmetry. apply filter_all. intros u Hu.
    rewrite Forall_forall in Ht. specialize (Ht u Hu). lia.
Qed.

Lemma live_live t0 t log : t0 <= t -> live window t (live window t0 log) = live window t log.
Proof. intros. unfold live. apply list_filter_filter_l. intros. lia. Qed.

Lemma live_sorted t log : Sorted Z.le log -> Sorted Z.le (live window t log).
Proof.
  intros Hs. apply StronglySorted_Sorted. apply Sorted_StronglySorted in Hs; [|intros ??? ??; lia].
  by apply StronglySorted_filter.
Qed.

Lemma live_forall (P : Z -> Prop) t log : Forall P log -> Forall P (live window t log).
Proof. rewrite !Forall_forall. intros Hl x [_ Hx]%list_elem_of_filter. by apply Hl. Qed.

Lemma prune_simulates t0 t b log :
  simulates t0 b log -> t0 <= t -> t + window <= u64_max -> simulates t (prune b t) log.
Proof.
  intros (Hm & Hw & Ha & Hs & Hf & Hc) Ht Hu. split_and!; try done.
  - simpl. rewrite Hw, Ha, prune_front_live.
    + by apply live_live.
    + done.
    + by apply live_sorted.
    + apply live_forall. eapply Forall_impl; [done|]. simpl. intros. lia.
  - eapply Forall_impl; [done|]. simpl. intros. lia.
Qed.

Lemma live_bound t0 t b log : simulates t0 b log -> t0 <= t -> zlen (live window t log) <= max.
Proof.
  intros (_ & _ & _ & _ & Hf & Hc) Ht. etrans; [|apply (Hc t)].
  apply filter_length_mono. rewrite Forall_forall in Hf.
  intros x Hx ?. specialize (Hf x Hx). simpl in Hf. lia.
Qed.

Lemma record_simulates t b log :
  simulates t b log -> zlen (live window t log) < max -> 0 < window ->
  simulates t (mkReconnectBudget max window (live window t log ++ [t])) (log ++ [t]).
Proof.
  intros (Hm & Hw & Ha & Hs & Hf & Hc) Hlt Hpos. split_and!; try done.
  - unfold live. rewrite filter_app, filter_cons_True by (done || lia). done.
  - apply StronglySorted_Sorted, StronglySorted_app_2; [| |by repeat constructor].
    + intros x y Hx ->%list_elem_of_singleton. rewrite Forall_forall in Hf. by apply Hf.
    + apply Sorted_StronglySorted; [intros ??? ??; lia|done].
  - apply Forall_app. split; [done|]. repeat constructor. lia.
  - intros T. destruct (Z.lt_ge_cases T t) as [HT|HT].
    + rewrite filter_app, filter_cons_False, filter_nil, app_nil_r by (done || lia). apply Hc.
    + etrans; [apply (filter_length_mono _ (fun s => t < s + window)); intros; lia|].
      rewrite filter_app, zlen_app, filter_cons_True by (done || lia).
      unfold live in Hlt. unfold zlen in *. simpl. lia.
Qed.

Lemma mod_u32 n : 0 <= n <= max -> n mod 2 ^ 32 = n.
Proof. intros. apply Z.mod_small. unfold in_u32, u32_max in *. lia. Qed.

Lemma budget_step_simulates t0 b log c :
  0 < window -> max < u32_max -> simulates t0 b log -> t0 <= call_time c -> call_time c + window <= u64_max ->
  simulates (call_time c) (budget_step b c).1 (spec_step max window log c).1 /\
  (budget_step b c).2 = (spec_step max window log c).2.
Proof.
  intros Hpos Hm Hsim Ht Hu.
  pose proof (prune_simulates _ _ _ _ Hsim Ht Hu) as Hp.
  pose proof (live_bound _ _ _ _ Hsim Ht) as Hb.
  pose proof Hp as (Em & Ew & Ea & _). pose proof (zlen_nonneg (live window (call_time c) log)).
  destruct c as [t|t]; simpl in *.
  - unfold try_record, spec_try. simpl in *. rewrite Em, Ea, mod_u32 by lia.
    destruct (Z.leb_spec max (zlen (live window t log))); simpl; [done|]. split.
    + rewrite Ew. apply (record_simulates t _ _ Hp); lia.
    + rewrite zlen_app. change (zlen [t]) with 1. rewrite mod_u32 by lia. do 2 f_equal. lia.
  - split; [done|]. rewrite Em, Ea, mod_u32 by lia. done.
Qed.

Lemma budget_run_simulates t0 b log calls :
  0 < window -> max < u32_max -> simulates t0 b log -> monotonic window t0 calls ->
  (run budget_step b calls).2 = (run (spec_step max window) log calls).2 /\
  exists t, simulates t (run budget_step b calls).1 (run (spec_step max window) log calls).1.
Proof.
  intros Hpos Hm. revert t0 b log. induction calls as [|c calls IH]; intros t0 b log Hsim Hmono.
  - split; [done|]. by exists t0.
  - destruct Hmono as (Ht & Hu & Hmono). rewrite !run_cons.
    destruct (budget_step_simulates t0 b log c Hpos Hm Hsim Ht Hu) as [Hs' E].
    destruct (IH _ _ _ Hs' Hmono) as [IH1 IH2]. simpl. by rewrite E, IH1.
Qed.

End Budget.

(** Over any run of calls on a monotonic clock the budget answers exactly as a
    count of the attempts granted less than a window ago, and no window of
    [window_ms], wherever it is placed, ever holds more than [max_attempts]. *)
Theorem budget_refines_sliding_window (max window : Z) (calls : list BudgetCall) :
  0 <= max < u32_max -> 0 < window -> monotonic window 0 calls ->
  let spec := run (spec_step max window) [] calls in
  (run budget_step (reconnect_budget_new max window) calls).2 = spec.2 /\
  forall T, zlen (filter (fun t => T - window < t <= T) spec.1) <= max.
Proof.
  intros Hmax Hpos Hmono spec.
  destruct (budget_run_simulates max window ltac:(mlia) 0
              (reconnect_budget_new max window) [] calls Hpos ltac:(lia)) as [E [t Hsim]].
  - split_and!; try done. intros T. unfold zlen. simpl. lia.
  - done.
  - split; [done|]. apply Hsim.
Qed.

Lemma budget_refines_sliding_window_witness :
  (run budget_step (reconnect_budget_new 2 100)
     [TryRecord 0; TryRecord 10; TryRecord 99; TryRecord 100; Remaining 110]).2 =
  [Some 0; Some 1; None; Some 1; Some 1].
Proof.
  etrans; [eapply (budget_refines_sliding_window 2 100
    [TryRecord 0; TryRecord 10; TryRecord 99; TryRecord 100; Remaining 110])|vm_compute; done].
  - by vm_compute.
  - done.
  - repeat split; by vm_compute.
Defined.
