(* ===== verification/PcmRing.v ===== *)
(** * fotw-stt: the gapless-replay ring

    Models [crates/fotw-stt/src/replay.rs]: the last thirty seconds of PCM sent
    to a provider, kept so that a dropped socket can be fed again from the last
    finalized word.  A position is a number of samples since the leg began; the
    counter is a [u64] that would take millions of years to overflow and is
    kept exact here. *)

From S2P Require Import Prelude Bytes.

Local Open Scope Z_scope.

Definition DEFAULT_SAMPLE_RATE : Z := 16000.
Definition RING_WINDOW_MS : Z := 30000.

Record PcmChunk := mkPcmChunk { start_sample : Z; chunk_samples : list Z }.

Definition end_sample (self : PcmChunk) : Z := start_sample self + zlen (chunk_samples self).

Record PcmRing := mkPcmRing {
  sample_rate : Z;
  window_samples : Z;
  chunks : list PcmChunk;
  written_samples : Z;
}.

Definition ring_new (rate window_ms : Z) : PcmRing :=
  let rate := Z.max rate 1 in
  mkPcmRing rate (sat_mul64 window_ms rate / 1000) [] 0.

Definition ring_spec : PcmRing := ring_new DEFAULT_SAMPLE_RATE RING_WINDOW_MS.

Definition samples_to_ms (self : PcmRing) (samples : Z) : Z :=
  sat_mul64 samples 1000 / sample_rate self.

Definition ms_to_samples (self : PcmRing) (ms : Z) : Z := sat_mul64 ms (sample_rate self) / 1000.

Definition written_ms (self : PcmRing) : Z := samples_to_ms self (written_samples self).

Definition earliest_sample (self : PcmRing) : Z :=
  match chunks self with [] => written_samples self | c :: _ => start_sample c end.

Definition earliest_ms (self : PcmRing) : Z := samples_to_ms self (earliest_sample self).

Definition buffered_ms (self : PcmRing) : Z := sat_sub (written_ms self) (earliest_ms self).

Definition ring_is_empty (self : PcmRing) : bool :=
  match chunks self with [] => true | _ => false end.

Fixpoint evict_front (cutoff : Z) (cs : list PcmChunk) : list PcmChunk :=
  match cs with
  | [] => []
  | front :: rest => if end_sample front <=? cutoff then evict_front cutoff rest else cs
  end.

Definition evict (self : PcmRing) : PcmRing :=
  let cutoff := sat_sub (written_samples self) (window_samples self) in
  mkPcmRing (sample_rate self) (window_samples self) (evict_front cutoff (chunks self))
    (written_samples self).

Definition push (self : PcmRing) (samples : list Z) : PcmRing * Z :=
  let self :=
    match samples with
    | [] => self
    | _ =>
        evict (mkPcmRing (sample_rate self) (window_samples self)
                 (chunks self ++ [mkPcmChunk (written_samples self) samples])
                 (written_samples self + zlen samples))
    end in
  (self, written_ms self).

Record ReplayAudio := mkReplayAudio {
  ra_start_ms : Z;
  truncated_ms : Z;
  ra_samples : list Z;
}.

(** What the loop of [replay_from] appends for one chunk. *)
Definition replay_chunk (start : Z) (c : PcmChunk) : list Z :=
  if end_sample c <=? start then []
  else drop (Z.to_nat (sat_sub start (start_sample c))) (chunk_samples c).

Definition replay_start (self : PcmRing) (session_ms : Z) : Z :=
  let requested := ms_to_samples self session_ms in
  Z.min (written_samples self) (Z.max (earliest_sample self) requested).

Definition replay_from (self : PcmRing) (session_ms : Z) : ReplayAudio :=
  let requested := ms_to_samples self session_ms in
  let start := replay_start self session_ms in
  mkReplayAudio (samples_to_ms self start) (samples_to_ms self (sat_sub start requested))
    (chunks self ≫= replay_chunk start).

Definition ring_clear (self : PcmRing) : PcmRing :=
  mkPcmRing (sample_rate self) (window_samples self) [] (written_samples self).

Definition replay_is_empty (self : ReplayAudio) : bool :=
  match ra_samples self with [] => true | _ => false end.

Definition lost_audio (self : ReplayAudio) : bool := 0 <? truncated_ms self.

Definition to_linear16_le (samples : list Z) : bytes := bytes_of_samples samples.

(** ** The ring holds a suffix of everything written *)

(** Chunks in order, none empty, each starting where the last ended. *)
Fixpoint contiguous (from : Z) (cs : list PcmChunk) (upto : Z) : Prop :=
  match cs with
  | [] => from = upto
  | c :: cs => start_sample c = from /\ 0 < zlen (chunk_samples c) /\ contiguous (end_sample c) cs upto
  end.

Definition ring_holds (r : PcmRing) (all : list Z) : Prop :=
  0 < sample_rate r /\ 0 <= window_samples r /\
  written_samples r = zlen all /\
  0 <= earliest_sample r /\
  contiguous (earliest_sample r) (chunks r) (written_samples r) /\
  chunks r ≫= chunk_samples = drop (Z.to_nat (earliest_sample r)) all.

(** Every sample of the window is there. *)
Definition window_kept (r : PcmRing) : Prop :=
  earliest_sample r <= Z.max 0 (written_samples r - window_samples r).

Lemma contiguous_app from cs mid ds upto :
  contiguous from cs mid -> contiguous mid ds upto -> contiguous from (cs ++ ds) upto.
Proof.
  revert from. induction cs as [|c cs IH]; intros from; simpl; [by intros ->|].
  intros (?&?&?) ?. eauto.
Qed.

Lemma ring_contiguous_le from cs upto : contiguous from cs upto -> from <= upto.
Proof.
  revert from. induction cs as [|c cs IH]; intros from; simpl; [lia|].
  intros (<-&?&H%IH). unfold end_sample in *. lia.
Qed.

Lemma contiguous_samples from cs upto :
  contiguous from cs upto -> zlen (cs ≫= chunk_samples) = upto - from.
Proof.
  revert from. induction cs as [|c cs IH]; intros from; csimpl; [unfold zlen; simpl; lia|].
  intros (<-&?&H%IH). rewrite zlen_app, H. unfold end_sample. lia.
Qed.

Lemma replay_chunks from cs upto start :
  contiguous from cs upto -> from <= start ->
  cs ≫= replay_chunk start = drop (Z.to_nat (start - from)) (cs ≫= chunk_samples).
Proof.
  revert from. induction cs as [|c cs IH]; intros from; csimpl; [by rewrite drop_nil|].
  intros (<-&Hpos&Hc) Hle. unfold replay_chunk at 1.
  destruct (Z.leb_spec (end_sample c) start) as [He|He].
  - rewrite (IH _ Hc He). rewrite drop_app_ge.
    + simpl. f_equal. unfold end_sample, zlen in *. lia.
    + unfold end_sample, zlen in *. lia.
  - rewrite drop_app_le by (unfold end_sample, zlen in *; lia). f_equal.
    + f_equal. mlia.
    + clear IH Hle Hpos. assert (Hs : start <= end_sample c) by lia. clear He.
      revert Hs Hc. generalize (end_sample c). induction cs as [|d cs IH]; intros e Hs Hc; [done|].
      csimpl. destruct Hc as (Hd&?&Hc). unfold replay_chunk at 1.
      rewrite (proj2 (Z.leb_gt _ _)) by (unfold end_sample; lia).
      replace (sat_sub start (start_sample d)) with 0 by mlia. simpl. f_equal.
      eapply IH; [|done]. unfold end_sample. lia.
Qed.

Lemma evict_front_contiguous cutoff from cs upto :
  contiguous from cs upto -> cutoff <= upto ->
  let cs' := evict_front cutoff cs in
  let from' := match cs' with [] => upto | c :: _ => start_sample c end in
  contiguous from' cs' upto /\ from <= from' <= Z.max from cutoff /\
  cs' ≫= chunk_samples = drop (Z.to_nat (from' - from)) (cs ≫= chunk_samples).
Proof.
  revert from. induction cs as [|c cs IH]; intros from; csimpl.
  - intros -> ?. rewrite drop_nil. split_and!; [done|lia|lia|done].
  - intros (<-&Hpos&Hc) Hle. destruct (Z.leb_spec (end_sample c) cutoff) as [He|He].
    + destruct (IH _ Hc Hle) as (H1 & H2 & H3). csimpl in *.
      set (from' := match evict_front cutoff cs with [] => upto | d :: _ => start_sample d end) in *.
      split_and!; [done|unfold end_sample in *; lia|unfold end_sample in *; lia|].
      rewrite H3, drop_app_ge by (unfold end_sample, zlen in *; lia).
      f_equal. unfold end_sample, zlen in *. lia.
    + csimpl. split_and!; [done|done|done|lia|lia|]. by rewrite Z.sub_diag, drop_0.
Qed.

Lemma ring_new_holds rate window_ms :
  0 <= window_ms -> ring_holds (ring_new rate window_ms) [] /\ window_kept (ring_new rate window_ms).
Proof.
  intros. assert (0 <= sat_mul64 window_ms (Z.max rate 1)).
  { pose proof (Z.mul_nonneg_nonneg window_ms (Z.max rate 1)). unfold sat_mul64, u64_max. lia. }
  assert (0 <= sat_mul64 window_ms (Z.max rate 1) / 1000) by (apply Z.div_pos; lia).
  unfold ring_holds, window_kept, ring_new, earliest_sample. simpl.
  split_and!; done || lia.
Qed.

Lemma push_samples_holds r all pcm :
  ring_holds r all -> pcm <> [] ->
  ring_holds (mkPcmRing (sample_rate r) (window_samples r)
     (chunks r ++ [mkPcmChunk (written_samples r) pcm]) (written_samples r + zlen pcm)) (all ++ pcm).
Proof.
  intros (Hr & Hw & Hl & He & Hc & Hs) Hne. pose proof (ring_contiguous_le _ _ _ Hc) as Hle.
  assert (Hearly : earliest_sample (mkPcmRing (sample_rate r) (window_samples r)
     (chunks r ++ [mkPcmChunk (written_samples r) pcm]) (written_samples r + zlen pcm))
     = earliest_sample r).
  { unfold earliest_sample. simpl. by destruct (chunks r). }
  unfold ring_holds. rewrite Hearly. simpl. split_and!; try done.
  - rewrite zlen_app. lia.
  - eapply contiguous_app; [done|]. simpl. split_and!; [done| |done].
    destruct pcm; [done|]. unfold zlen. simpl. lia.
  - rewrite bind_app, Hs. csimpl. rewrite app_nil_r. symmetry. apply drop_app_le.
    unfold zlen in *. lia.
Qed.

Lemma evict_holds r all :
  ring_holds r all -> window_kept r \/ earliest_sample r <= written_samples r - window_samples r \/
    earliest_sample r = 0 -> ring_holds (evict r) all /\ window_kept (evict r).
Proof.
  intros (Hr & Hw & Hl & He & Hc & Hs) Hk. pose proof (ring_contiguous_le _ _ _ Hc) as Hle.
  set (cutoff := sat_sub (written_samples r) (window_samples r)).
  assert (Hcut : cutoff <= written_samples r) by (unfold cutoff; mlia).
  destruct (evict_front_contiguous cutoff _ _ _ Hc Hcut) as (H1 & H2 & H3).
  change (match evict_front cutoff (chunks r) with
          | [] => written_samples r | c :: _ => start_sample c end)
    with (earliest_sample (evict r)) in *.
  unfold ring_holds, window_kept. simpl. fold cutoff.
  split_and!; try done; try lia.
  - rewrite H3, Hs, drop_drop. f_equal. lia.
  - unfold window_kept in Hk. unfold cutoff in *. mlia.
Qed.

Lemma push_holds r all pcm :
  ring_holds r all -> window_kept r ->
  ring_holds (push r pcm).1 (all ++ pcm) /\ window_kept (push r pcm).1.
Proof.
  intros Hr Hk. destruct pcm as [|x pcm]; [by rewrite app_nil_r|].
  apply evict_holds; [by apply push_samples_holds|].
  assert (E : earliest_sample (mkPcmRing (sample_rate r) (window_samples r)
     (chunks r ++ [mkPcmChunk (written_samples r) (x :: pcm)]) (written_samples r + zlen (x :: pcm)))
     = earliest_sample r).
  { unfold earliest_sample. simpl. by destruct (chunks r). }
  unfold window_kept in *. rewrite E. simpl. pose proof (zlen_nonneg (x :: pcm)).
  destruct Hr as (_ & _ & _ & He & _). lia.
Qed.

Definition push_all (r : PcmRing) (pushes : list (list Z)) : PcmRing :=
  foldl (fun r pcm => (push r pcm).1) r pushes.

Lemma push_all_holds r all pushes :
  ring_holds r all -> window_kept r ->
  ring_holds (push_all r pushes) (all ++ concat pushes) /\ window_kept (push_all r pushes).
Proof.
  revert r all. induction pushes as [|pcm ps IH]; intros r all Hr Hk; simpl.
  - by rewrite app_nil_r.
  - rewrite app_assoc. destruct (push_holds r all pcm Hr Hk). by apply IH.
Qed.

(** What a replay hands over: everything written from its start to the head. *)
Lemma replay_from_holds r all ms :
  ring_holds r all ->
  earliest_sample r <= replay_start r ms <= written_samples r /\
  ra_samples (replay_from r ms) = drop (Z.to_nat (replay_start r ms)) all.
Proof.
  intros (Hr & Hw & Hl & He & Hc & Hs). pose proof (ring_contiguous_le _ _ _ Hc) as Hle.
  assert (Hst : earliest_sample r <= replay_start r ms <= written_samples r)
    by (unfold replay_start; lia).
  split; [done|]. simpl.
  rewrite (replay_chunks _ _ _ _ Hc) by lia. rewrite Hs, drop_drop. f_equal. lia.
Qed.

Lemma lost_audio_requested r all ms :
  ring_holds r all -> written_samples r <= u64_max ->
  lost_audio (replay_from r ms) = true -> ms_to_samples r ms < earliest_sample r.
Proof.
  intros (Hr & Hw & Hl & He & Hc & Hs) Hu. unfold lost_audio. simpl. unfold samples_to_ms, replay_start.
  rewrite Z.ltb_lt. intros Hpos.
  destruct (Z.lt_ge_cases (ms_to_samples r ms) (earliest_sample r)) as [|Hge]; [done|]. exfalso.
  assert (sat_sub (Z.min (written_samples r) (Z.max (earliest_sample r) (ms_to_samples r ms)))
            (ms_to_samples r ms) = 0) as E by mlia.
  rewrite E in Hpos. unfold sat_mul64, u64_max in Hpos. rewrite Z.div_0_l in Hpos; lia.
Qed.

(** A replay is exactly the suffix of everything ever pushed that starts at the
    position it reports, sample for sample and up to the write head, whatever the
    pushes and the evictions between them; a request inside the retained window
    starts where it asked and loses nothing. *)
Theorem replay_is_exact_suffix (rate window_ms : Z) (pushes : list (list Z)) (ms : Z) :
  0 <= window_ms -> 0 <= ms ->
  let r := push_all (ring_new rate window_ms) pushes in
  let start := replay_start r ms in
  written_samples r = zlen (concat pushes) /\
  ra_samples (replay_from r ms) = drop (Z.to_nat start) (concat pushes) /\
  ra_start_ms (replay_from r ms) = samples_to_ms r start /\
  (written_samples r - window_samples r <= ms_to_samples r ms <= written_samples r ->
   start = ms_to_samples r ms /\ lost_audio (replay_from r ms) = false).
Proof.
  intros Hw Hms r start. destruct (ring_new_holds rate window_ms Hw) as [H0 K0].
  destruct (push_all_holds _ _ pushes H0 K0) as [Hr Hk]. fold r in Hr, Hk. simpl in Hr.
  destruct (replay_from_holds r _ ms Hr) as [Hst Hsam].
  pose proof Hr as (Hrate & _ & Hl & He & _). split_and!; try done. intros Hin.
  assert (Hreq : 0 <= ms_to_samples r ms).
  { unfold ms_to_samples, sat_mul64, u64_max. apply Z.div_pos; [|lia].
    pose proof (Z.mul_nonneg_nonneg ms (sample_rate r) Hms). lia. }
  assert (Hs : start = ms_to_samples r ms) by (unfold start, replay_start, window_kept in *; lia).
  split; [done|]. unfold lost_audio. simpl. fold start. rewrite Hs.
  apply Z.ltb_ge. unfold samples_to_ms, sat_sub, sat_mul64, u64_max.
  rewrite Z.sub_diag, Z.max_id. simpl. rewrite Z.div_0_l; lia.
Qed.

Lemma replay_is_exact_suffix_witness :
  let r := push_all (ring_new 1000 3) [[1; 2]; [3; 4]; [5]] in
  written_samples r = 5 /\ earliest_sample r = 2 /\ ra_samples (replay_from r 3) = [4; 5].
Proof.
  pose proof (replay_is_exact_suffix 1000 3 [[1; 2]; [3; 4]; [5]] 3 ltac:(lia) ltac:(lia)) as H.
  split_and!; [apply H|reflexivity|]. etrans; [apply H|reflexivity].
Defined.
