(* ===== verification/SttClock.v ===== *)
(** * fotw-stt: provider time on the session clock

    Models [crates/fotw-stt/src/clock.rs]: the cast from a provider's seconds,
    the two offsets between a connection's zero and the session's, and the
    synthesis of spans for providers that report no times. *)

From Stdlib Require Import SpecFloat.
From S2P Require Import Prelude Float32 Float64 SttTypes.

Local Open Scope Z_scope.

(** [1_000.0]. *)
Definition f64_thousand : f64 := f64_of_Z 1000.

Definition seconds_to_ms (seconds : f64) : Z := f64_round_as_u64 (f64_mul seconds f64_thousand).

Record SessionClock := mkSessionClock { anchor_ms : Z; connection_ms : Z }.

Definition clock_new : SessionClock := mkSessionClock 0 0.
Definition opened_at (session_ms : Z) : SessionClock := mkSessionClock 0 session_ms.
Definition anchored_at (anchor : Z) : SessionClock := mkSessionClock anchor 0.

Definition clock_reconnected_at (self : SessionClock) (leg_ms : Z) : SessionClock :=
  mkSessionClock (anchor_ms self) leg_ms.

Definition offset_ms (self : SessionClock) : Z := sat_add64 (anchor_ms self) (connection_ms self).

Definition to_session_ms (self : SessionClock) (provider_relative_ms : Z) : Z :=
  sat_add64 (offset_ms self) provider_relative_ms.

Definition seconds_to_session_ms (self : SessionClock) (seconds : f64) : Z :=
  to_session_ms self (seconds_to_ms seconds).

Record TimeSpan := mkTimeSpan { span_start : Z; span_end : Z; span_source : TimestampSource }.

Definition provided (s e : Z) : TimeSpan := mkTimeSpan s (Z.max e s) Provider.
Definition estimated (s e : Z) : TimeSpan := mkTimeSpan s (Z.max e s) Estimated.

(** [end_ms - start_ms] on [u64]: [None] would be the underflow panic. *)
Definition span_duration_ms (self : TimeSpan) : option Z := checked_sub (span_end self) (span_start self).

Record ArrivalEstimator := mkArrivalEstimator { last_end_ms : Z }.

Definition estimator_new : ArrivalEstimator := mkArrivalEstimator 0.
Definition starting_at (session_ms : Z) : ArrivalEstimator := mkArrivalEstimator session_ms.

Definition next_span (self : ArrivalEstimator) (arrival : Z) : ArrivalEstimator * TimeSpan :=
  let s := last_end_ms self in
  let e := Z.max arrival s in
  (mkArrivalEstimator e, estimated s e).

Definition advance_to (self : ArrivalEstimator) (session_ms : Z) : ArrivalEstimator :=
  mkArrivalEstimator (Z.max (last_end_ms self) session_ms).

Definition estimator_reconnected_at (self : ArrivalEstimator) (session_ms : Z) : ArrivalEstimator :=
  advance_to self session_ms.

(** ** Rebasing *)

Lemma seconds_to_ms_range x : in_u64 (seconds_to_ms x).
Proof. apply f64_round_as_u64_range. Qed.

Lemma to_session_ms_mono c a b : a <= b -> to_session_ms c a <= to_session_ms c b.
Proof. intros. unfold to_session_ms. mlia. Qed.

Lemma to_session_ms_ge c ms : 0 <= ms -> offset_ms c <= to_session_ms c ms.
Proof. intros. unfold to_session_ms, offset_ms. mlia. Qed.

(** A reconnect moves the connection and never the leg: a position of the leg's
    own clock lands on the same session millisecond whichever connection
    reported it. *)
Lemma rebase_is_leg_time c leg_ms ms :
  0 <= anchor_ms c -> 0 <= leg_ms -> 0 <= ms -> anchor_ms c + leg_ms + ms <= u64_max ->
  to_session_ms (clock_reconnected_at c leg_ms) ms = anchor_ms c + (leg_ms + ms).
Proof. intros. unfold to_session_ms, offset_ms, clock_reconnected_at. simpl. mlia. Qed.

(** No [TimeSpan] the constructors build has an underflowing duration. *)
Lemma span_duration_total s e :
  is_Some (span_duration_ms (provided s e)) /\ is_Some (span_duration_ms (estimated s e)).
Proof. unfold span_duration_ms. simpl. rewrite !checked_sub_Some by lia. eauto. Qed.

(** ** Synthesized spans *)

Inductive EstimatorCall := NextSpan (arrival : Z) | AdvanceTo (session_ms : Z).

Definition estimator_step (e : ArrivalEstimator) (c : EstimatorCall) : ArrivalEstimator * list TimeSpan :=
  match c with
  | NextSpan a => let '(e, s) := next_span e a in (e, [s])
  | AdvanceTo t => (advance_to e t, [])
  end.

(** Spans in order from a position, each starting no earlier than the last one
    ended; [strict] asks that it starts exactly there. *)
Fixpoint tiles (strict : bool) (from : Z) (spans : list TimeSpan) (upto : Z) : Prop :=
  match spans with
  | [] => if strict then from = upto else from <= upto
  | s :: spans =>
      (if strict then span_start s = from else from <= span_start s) /\
      span_start s <= span_end s /\ span_source s = Estimated /\ tiles strict (span_end s) spans upto
  end.

Lemma tiles_weaken from from' spans upto :
  from <= from' -> tiles false from' spans upto -> tiles false from spans upto.
Proof. intros H. destruct spans; simpl; [lia|]. intros (?&?&?&?). split_and!; [lia|done..]. Qed.

Definition only_spans (calls : list EstimatorCall) : bool :=
  forallb (fun c => match c with NextSpan _ => true | _ => false end) calls.

(** Whatever the arrivals, reordered or running backwards, the spans a stream
    synthesizes never overlap and never run back, from where the estimator
    stood to where it ends; with no advance between them they tile the timeline
    without a gap. *)
Theorem synthesized_spans_tile (e : ArrivalEstimator) (calls : list EstimatorCall) :
  let out := run estimator_step e calls in
  tiles (only_spans calls) (last_end_ms e) out.2 (last_end_ms out.1) /\
  tiles false (last_end_ms e) out.2 (last_end_ms out.1).
Proof.
  revert e. induction calls as [|c calls IH]; intros e; cbv zeta; [simpl; lia|].
  rewrite run_cons. destruct c as [a|t]; simpl.
  - destruct (IH (mkArrivalEstimator (Z.max a (last_end_ms e)))) as [IH1 IH2].
    unfold estimated. simpl in *. rewrite Z.max_l by lia.
    destruct (only_spans calls) eqn:E; simpl; split_and!; done || lia.
  - destruct (IH (advance_to e t)) as [_ IH2].
    split; (eapply tiles_weaken; [|exact IH2]); simpl; lia.
Qed.
