(* ===== verification/SttStore.v ===== *)
(** * fotw-stt: speakers, utterance ids and the segment store

    Models [crates/fotw-stt/src/speaker.rs] (dense labels by first appearance)
    and [crates/fotw-stt/src/store.rs]: the producer's [UtteranceTracker], one
    id per utterance and a revision per emission, and the consumer's
    [SegmentStore], which keeps the newest revision of each id. *)

From S2P Require Import Prelude Float32 SttTypes.

Local Open Scope Z_scope.

(** ** speaker.rs *)

Definition ME : string := "me".

Record SpeakerRegistry := mkSpeakerRegistry {
  reg_order : list string;
  reg_index : gmap string nat;
}.

Definition registry_new : SpeakerRegistry := mkSpeakerRegistry [] ∅.

Definition speaker_label (n : nat) : string := "S" +:+ pretty n.

Definition label_for (self : SpeakerRegistry) (provider_label : string) : SpeakerRegistry * string :=
  let next := length (reg_order self) in
  match reg_index self !! provider_label with
  | Some i => (self, speaker_label i)
  | None =>
      (mkSpeakerRegistry (reg_order self ++ [provider_label])
         (<[provider_label := next]> (reg_index self)), speaker_label next)
  end.

Record SpeakerNormalizer := mkSpeakerNormalizer {
  sn_source : Source;
  diarization_enabled : bool;
  registry : SpeakerRegistry;
}.

Definition speakers_new (src : Source) (diarize : bool) : SpeakerNormalizer :=
  mkSpeakerNormalizer src diarize registry_new.

Definition is_forced_me (self : SpeakerNormalizer) : bool :=
  bool_decide (sn_source self = Mic) && negb (diarization_enabled self).

Definition normalize (self : SpeakerNormalizer) (provider_label : option string)
  : SpeakerNormalizer * option string :=
  if is_forced_me self then (self, Some ME)
  else match provider_label with
  | None => (self, None)
  | Some label =>
      let '(r, l) := label_for (registry self) label in
      (mkSpeakerNormalizer (sn_source self) (diarization_enabled self) r, Some l)
  end.

Definition normalize_index (self : SpeakerNormalizer) (provider_index : option Z)
  : SpeakerNormalizer * option string :=
  if is_forced_me self then (self, Some ME)
  else match provider_index with
  | None => (self, None)
  | Some i =>
      let '(r, l) := label_for (registry self) (pretty i) in
      (mkSpeakerNormalizer (sn_source self) (diarization_enabled self) r, Some l)
  end.

(** ** store.rs: the producer *)

(** The trait: an id and the factory's next state. *)
Class SegmentIdFactory (F : Type) := next_id : F -> string * F.

Record CountingIdFactory := mkCountingIdFactory { prefix : string; next_count : Z }.

#[export] Instance counting_ids : SegmentIdFactory CountingIdFactory :=
  fun self => (prefix self +:+ ("-" +:+ pretty (next_count self)),
               mkCountingIdFactory (prefix self) (next_count self + 1)).

Record UtteranceTracker (F : Type) := mkTracker {
  tr_factory : F;
  open_id : option string;
  next_revision : Z;
}.
Arguments mkTracker {F}.
Arguments tr_factory {F}.
Arguments open_id {F}.
Arguments next_revision {F}.

Section Tracker.
Context `{SegmentIdFactory F}.

Definition tracker_with (factory : F) : UtteranceTracker F := mkTracker factory None 0.

Definition open_or_start (self : UtteranceTracker F) : UtteranceTracker F * string :=
  match open_id self with
  | Some i => (self, i)
  | None => let '(i, factory) := next_id (tr_factory self) in (mkTracker factory (Some i) 0, i)
  end.

Definition next_partial (self : UtteranceTracker F) : UtteranceTracker F * (string * Z) :=
  let '(self, i) := open_or_start self in
  (mkTracker (tr_factory self) (open_id self) (next_revision self + 1), (i, next_revision self)).

Definition next_final (self : UtteranceTracker F) : UtteranceTracker F * (string * Z) :=
  let '(self, i) := open_or_start self in
  (mkTracker (tr_factory self) None 0, (i, next_revision self)).

Definition abandon (self : UtteranceTracker F) : UtteranceTracker F :=
  mkTracker (tr_factory self) None 0.

End Tracker.

(** ** store.rs: the consumer *)

Inductive StoreOutcome :=
| Inserted
| Superseded (previous_revision : Z)
| RejectedStale (kept_revision rejected_revision : Z).

Definition applied (self : StoreOutcome) : bool :=
  match self with RejectedStale _ _ => false | _ => true end.

Record SegmentStore := mkSegmentStore {
  by_id : gmap string TranscriptSegment;
  store_order : list string;
}.

Definition store_new : SegmentStore := mkSegmentStore ∅ [].

Definition upsert (self : SegmentStore) (segment : TranscriptSegment) : SegmentStore * StoreOutcome :=
  match by_id self !! id segment with
  | Some existing =>
      if seg_revision segment <=? seg_revision existing then
        (self, RejectedStale (seg_revision existing) (seg_revision segment))
      else
        (mkSegmentStore (<[id segment := segment]> (by_id self)) (store_order self),
         Superseded (seg_revision existing))
  | None =>
      (mkSegmentStore (<[id segment := segment]> (by_id self)) (store_order self ++ [id segment]),
       Inserted)
  end.

Definition get (self : SegmentStore) (i : string) : option TranscriptSegment := by_id self !! i.

Definition segments (self : SegmentStore) : list TranscriptSegment :=
  omap (fun i => by_id self !! i) (store_order self).

Definition pending_ids (self : SegmentStore) : list string :=
  id <$> filter (fun s => is_final s = false) (segments self).

Definition store_len (self : SegmentStore) : Z := zlen (store_order self).

(** ** Labels are dense and stable *)

Definition registry_ok (r : SpeakerRegistry) : Prop :=
  NoDup (reg_order r) /\
  forall l i, reg_index r !! l = Some i <-> reg_order r !! i = Some l.

Lemma registry_new_ok : registry_ok registry_new.
Proof. split; [constructor|]. intros l i. simpl. rewrite lookup_empty. by rewrite lookup_nil. Qed.

Lemma label_for_ok r l : registry_ok r -> registry_ok (label_for r l).1.
Proof.
  intros [Hnd Hix]. unfold label_for. destruct (reg_index r !! l) as [i|] eqn:E; [done|].
  assert (Hl : l ∉ reg_order r).
  { intros [i Hi]%list_elem_of_lookup. apply Hix in Hi. congruence. }
  split; simpl.
  - apply NoDup_app. split_and!; [done| |apply NoDup_singleton].
    intros x Hx ->%list_elem_of_singleton. done.
  - intros l' i. destruct (decide (l' = l)) as [->|Hne].
    + rewrite lookup_insert_eq. split.
      * intros [= <-]. apply list_lookup_middle. done.
      * intros [Hi|[Hge Hi]]%lookup_app_Some.
        -- exfalso. apply Hl. by eapply list_elem_of_lookup_2.
        -- apply list_lookup_singleton_Some in Hi as [? _]. f_equal. lia.
    + rewrite lookup_insert_ne, Hix by done. split.
      * intros Hi. by apply lookup_app_l_Some.
      * intros [Hi|[Hge Hi]]%lookup_app_Some; [done|].
        apply list_lookup_singleton_Some in Hi as [_ ?]. congruence.
Qed.

Lemma label_for_index r l :
  registry_ok r ->
  exists i, (label_for r l).2 = speaker_label i /\ reg_order (label_for r l).1 !! i = Some l.
Proof.
  intros [Hnd Hix]. unfold label_for. destruct (reg_index r !! l) as [i|] eqn:E; simpl.
  - exists i. split; [done|]. by apply Hix.
  - exists (length (reg_order r)). split; [done|]. by apply list_lookup_middle.
Qed.

Lemma label_for_prefix r l i x :
  reg_order r !! i = Some x -> reg_order (label_for r l).1 !! i = Some x.
Proof. intros H. unfold label_for. case_match; [done|]. simpl. by apply lookup_app_l_Some. Qed.

Lemma speaker_label_inj i j : speaker_label i = speaker_label j -> i = j.
Proof. unfold speaker_label. intros H. by simplify_eq. Qed.

(** The labels a registry gives to a list of provider labels. *)
Definition label_step (r : SpeakerRegistry) (l : string) : SpeakerRegistry * list string :=
  let '(r, s) := label_for r l in (r, [s]).

Lemma labels_index r ls k l s :
  registry_ok r -> ls !! k = Some l -> (run label_step r ls).2 !! k = Some s ->
  exists i, s = speaker_label i /\ reg_order (run label_step r ls).1 !! i = Some l.
Proof.
  revert r k. induction ls as [|l0 ls IH]; intros r k Hr Hl Hs; [done|].
  assert (E : label_step r l0 = ((label_for r l0).1, [(label_for r l0).2]))
    by (unfold label_step; by destruct (label_for r l0)).
  rewrite run_cons, E in *. simpl in *. destruct k as [|k]; simpl in *.
  - simplify_eq. destruct (label_for_index r l Hr) as (i & -> & Hi). exists i. split; [done|].
    clear -Hi. revert Hi. generalize (label_for r l).1. clear. induction ls as [|l0 ls IH]; intros r Hi; [done|].
    rewrite run_cons. simpl. apply IH. unfold label_step. apply (label_for_prefix _ l0) in Hi.
    by destruct (label_for r l0).
  - apply (IH _ k); [by apply label_for_ok|done|done].
Qed.

Lemma run_label_ok r ls : registry_ok r -> registry_ok (run label_step r ls).1.
Proof.
  revert r. induction ls as [|l ls IH]; intros r Hr; [done|]. rewrite run_cons. simpl. apply IH.
  unfold label_step. apply (label_for_ok r l) in Hr. by destruct (label_for r l).
Qed.

(** Two of a provider's speaker ids receive the same [Sn] label exactly when they
    are the same id, over a whole stream and in any order of appearance. *)
Theorem speaker_labels_faithful (ls : list string) (j k : nat) (a b s t : string) :
  ls !! j = Some a -> ls !! k = Some b ->
  (run label_step registry_new ls).2 !! j = Some s ->
  (run label_step registry_new ls).2 !! k = Some t ->
  s = t <-> a = b.
Proof.
  intros Ha Hb Hs Ht.
  destruct (labels_index _ _ _ _ _ registry_new_ok Ha Hs) as (i1 & -> & H1).
  destruct (labels_index _ _ _ _ _ registry_new_ok Hb Ht) as (i2 & -> & H2).
  pose proof (run_label_ok _ ls registry_new_ok) as [Hnd _]. split.
  - intros ->%speaker_label_inj. congruence.
  - intros ->. f_equal. by eapply NoDup_lookup.
Qed.

Lemma speaker_labels_faithful_witness :
  (run label_step registry_new ["7"; "3"; "7"]%string).2 = ["S0"; "S1"; "S0"]%string /\
  ("S0" = "S0" <-> "7" = "7")%string.
Proof.
  split; [by vm_compute|].
  apply (speaker_labels_faithful ["7"; "3"; "7"]%string 0 2); by vm_compute.
Defined.

(** ** The store keeps the newest revision *)

Definition upsert_all (st : SegmentStore) (segs : list TranscriptSegment) : SegmentStore :=
  foldl (fun st s => (upsert st s).1) st segs.

(** Ids in the order they were first seen. *)
Definition first_seen (ids : list string) : list string :=
  foldl (fun acc i => if bool_decide (i ∈ acc) then acc else acc ++ [i]) [] ids.

(** [s] is the newest of [segs]: strictly newer than all of its id before it and
    at least as new as all after. *)
Definition newest_of (segs : list TranscriptSegment) (s : TranscriptSegment) : Prop :=
  exists before after, segs = before ++ s :: after /\
    (forall x, x ∈ before -> id x = id s -> seg_revision x < seg_revision s) /\
    (forall x, x ∈ after -> id x = id s -> seg_revision x <= seg_revision s).

Definition store_of (st : SegmentStore) (segs : list TranscriptSegment) : Prop :=
  store_order st = first_seen (id <$> segs) /\
  (forall i, is_Some (by_id st !! i) <-> i ∈ store_order st) /\
  (forall i s, by_id st !! i = Some s -> id s = i /\ newest_of segs s) /\
  (forall s, s ∈ segs -> id s ∈ store_order st).

Lemma newest_of_snoc_stale segs s x :
  newest_of segs s -> (id x = id s -> seg_revision x <= seg_revision s) -> newest_of (segs ++ [x]) s.
Proof.
  intros (b & a & -> & Hb & Ha) Hx. exists b, (a ++ [x]).
  rewrite <-app_assoc. split_and!; [done|done|].
  intros y [Hy| ->%list_elem_of_singleton]%elem_of_app; auto.
Qed.

Lemma newest_of_snoc segs s :
  (forall x, x ∈ segs -> id x = id s -> seg_revision x < seg_revision s) -> newest_of (segs ++ [s]) s.
Proof. intros H. exists segs, []. split_and!; [done|done|]. by intros x ?%not_elem_of_nil. Qed.

Lemma newest_of_elem segs s x :
  newest_of segs s -> x ∈ segs -> id x = id s -> seg_revision x <= seg_revision s.
Proof.
  intros (b & a & -> & Hb & Ha) [Hx|[->|Hx]%elem_of_cons]%elem_of_app Hid; [|lia|auto].
  specialize (Hb x Hx Hid). lia.
Qed.

Lemma first_seen_snoc ids i :
  first_seen (ids ++ [i]) =
  if bool_decide (i ∈ first_seen ids) then first_seen ids else first_seen ids ++ [i].
Proof. unfold first_seen. by rewrite foldl_app. Qed.

Lemma first_seen_NoDup ids : NoDup (first_seen ids).
Proof.
  induction ids as [|i ids IH] using rev_ind; [constructor|]. rewrite first_seen_snoc.
  case_bool_decide; [done|]. apply NoDup_app. split_and!; [done| |apply NoDup_singleton].
  by intros x Hx ->%list_elem_of_singleton.
Qed.

Lemma upsert_store_of st segs s : store_of st segs -> store_of (upsert st s).1 (segs ++ [s]).
Proof.
  intros (Ho & Hd & Hn & Hall). unfold store_of, upsert.
  rewrite fmap_app. change (id <$> [s]) with [id s]. rewrite first_seen_snoc, <-Ho.
  assert (Hmono : forall x, x ∈ segs ++ [s] -> id s ∈ store_order st -> id x ∈ store_order st).
  { intros x [Hx| ->%list_elem_of_singleton]%elem_of_app; auto. }
  assert (Hnew : forall i t, i <> id s -> by_id st !! i = Some t -> id t = i /\ newest_of (segs ++ [s]) t).
  { intros i t Hne Ht. destruct (Hn i t Ht) as [Hi Hnw]. split; [done|].
    apply newest_of_snoc_stale; [done|]. congruence. }
  destruct (by_id st !! id s) as [e|] eqn:E.
  - assert (Hin : id s ∈ store_order st) by (apply Hd; eauto).
    rewrite bool_decide_true by done. destruct (Hn _ _ E) as [He Hnw].
    destruct (Z.leb_spec (seg_revision s) (seg_revision e)); simpl; split_and!; eauto.
    + intros i t Ht. destruct (decide (i = id s)) as [->|Hne]; [|by apply Hnew].
      replace t with e in * by congruence. split; [done|]. by apply newest_of_snoc_stale.
    + intros i. destruct (decide (i = id s)) as [->|Hne].
      * rewrite lookup_insert_eq. split; eauto.
      * by rewrite lookup_insert_ne.
    + intros i t. destruct (decide (i = id s)) as [->|Hne].
      * rewrite lookup_insert_eq. intros [= <-]. split; [done|]. apply newest_of_snoc. intros x Hx Hid.
        pose proof (newest_of_elem _ _ x Hnw Hx ltac:(congruence)). lia.
      * rewrite lookup_insert_ne by done. by apply Hnew.
  - assert (Hnin : id s ∉ store_order st) by (rewrite <-Hd, E; by intros [? ?]).
    rewrite bool_decide_false by done. simpl. split_and!; [done| | |].
    + intros i. rewrite elem_of_app, list_elem_of_singleton. destruct (decide (i = id s)) as [->|Hne].
      * rewrite lookup_insert_eq. split; eauto.
      * rewrite lookup_insert_ne, Hd by done. tauto.
    + intros i t. destruct (decide (i = id s)) as [->|Hne].
      * rewrite lookup_insert_eq. intros [= <-]. split; [done|]. apply newest_of_snoc. intros x Hx Hid.
        exfalso. apply Hnin. rewrite <-Hid. by apply Hall.
      * rewrite lookup_insert_ne by done. by apply Hnew.
    + intros x [Hx| ->%list_elem_of_singleton]%elem_of_app; apply elem_of_app; [left; auto|right].
      by apply list_elem_of_singleton.
Qed.

Lemma upsert_all_store_of segs : store_of (upsert_all store_new segs) segs.
Proof.
  induction segs as [|s segs IH] using rev_ind.
  - unfold upsert_all, store_of, store_new. simpl. split_and!; [done| | |].
    + intros i. rewrite lookup_empty. split; [by intros [? ?]|by intros ?%not_elem_of_nil].
    + intros i s. by rewrite lookup_empty.
    + by intros ? ?%not_elem_of_nil.
  - unfold upsert_all in *. rewrite foldl_app. simpl. by apply upsert_store_of.
Qed.

Lemma segments_ids st segs : store_of st segs -> id <$> segments st = store_order st.
Proof.
  intros (_ & Hd & Hn & _). unfold segments.
  assert (H : forall i, i ∈ store_order st -> exists s, by_id st !! i = Some s /\ id s = i).
  { intros i Hi. apply Hd in Hi as [s Hs]. exists s. split; [done|]. by apply Hn. }
  clear Hd Hn. induction (store_order st) as [|i l IH]; [done|]. csimpl.
  destruct (H i ltac:(left)) as (s & -> & Hs). csimpl. rewrite Hs, IH; [done|].
  intros j Hj. apply H. by right.
Qed.

Lemma segments_newest st segs : store_of st segs -> Forall (newest_of segs) (segments st).
Proof.
  intros (_ & _ & Hn & _). apply Forall_forall. intros s (i & _ & Hs)%list_elem_of_omap.
  by apply (Hn i).
Qed.

(** After any sequence of upserts, in any order and with any repeats, the store
    holds one segment per id, in the order ids were first seen, and it is the
    newest revision: nothing that arrived later or earlier is newer, and a
    repeat of an equal revision did not replace it. *)
Theorem store_keeps_newest (segs : list TranscriptSegment) :
  let st := upsert_all store_new segs in
  id <$> segments st = first_seen (id <$> segs) /\ NoDup (id <$> segments st) /\
  Forall (newest_of segs) (segments st).
Proof.
  intros st. pose proof (upsert_all_store_of segs) as Hst. fold st in Hst.
  pose proof (segments_newest _ _ Hst). rewrite (segments_ids _ _ Hst).
  destruct Hst as (-> & _). split_and!; [done|apply first_seen_NoDup|done].
Qed.

(** ** Sufficient for a settled transcript *)

(** An emission history in which every segment that is not final is superseded by
    a final of its id. *)
Definition settled (segs : list TranscriptSegment) : Prop :=
  forall s, s ∈ segs -> is_final s = false ->
  exists t, t ∈ segs /\ id t = id s /\ is_final t = true /\ seg_revision s < seg_revision t.

(** Fed to the store in any order, such a history leaves nothing pending. *)
Lemma settled_nothing_pending segs segs' :
  settled segs -> segs ≡ₚ segs' -> pending_ids (upsert_all store_new segs') = [].
Proof.
  intros Hset Hperm. pose proof (segments_newest _ _ (upsert_all_store_of segs')) as Hn.
  unfold pending_ids. rewrite (filter_all_not (fun s => is_final s = false)); [done|].
  intros s Hs Hf. rewrite Forall_forall in Hn. specialize (Hn s Hs).
  assert (Hin : s ∈ segs).
  { destruct Hn as (b & a & -> & _). rewrite Hperm. set_solver. }
  destruct (Hset s Hin Hf) as (t & Ht & Hid & _ & Hlt).
  rewrite Hperm in Ht. pose proof (newest_of_elem _ _ t Hn Ht Hid). lia.
Qed.
