(* ===== verification/Dedupe.v ===== *)
(** * fotw-stt: dropping replayed words

    Models [crates/fotw-stt/src/dedupe.rs].  Gapless replay makes a provider say
    some words twice; the first final after a reconnect is compared, normalized,
    with the tail of the transcript and the overlap is dropped. *)

From S2P Require Import Prelude Text Float32 SttTypes.

Local Open Scope Z_scope.

Definition DEFAULT_TAIL_TOKENS : nat := 120.
Definition MAX_OVERLAP_TOKENS : nat := 64.

(** [segment] with its words, text and start replaced. *)
Definition with_content (segment : TranscriptSegment) (start : Z) (txt : string) (ws : list Word)
  : TranscriptSegment :=
  mkSegment (id segment) (seg_session_id segment) (seg_source segment) (speaker segment) txt start
    (end_ms segment) ws (confidence segment) (seg_language segment) (is_final segment)
    (seg_revision segment) (seg_provider segment) (seg_model segment) (timestamp_source segment).

Record TranscriptTail := mkTail { tokens : list string; capacity : nat }.

Definition tail_new (cap : nat) : TranscriptTail := mkTail [] (Nat.max cap 1).

Section Dedupe.
Context `{UnicodeTables}.

Definition normalize_one (unit : string) : option string :=
  let normalized := utf8 (filter (fun c => is_alphanumeric c = true) (chars unit) ≫= to_lowercase) in
  if str_is_empty normalized then None else Some normalized.

Definition normalize_tokens (txt : string) : list string := omap normalize_one (split_whitespace txt).

(** [while tokens.len() > capacity { pop_front }]. *)
Fixpoint pop_to (cap : nat) (l : list string) : list string :=
  match l with
  | [] => []
  | _ :: l' => if (cap <? length l)%nat then pop_to cap l' else l
  end.

Definition push_text (self : TranscriptTail) (txt : string) : TranscriptTail :=
  mkTail (pop_to (capacity self) (tokens self ++ normalize_tokens txt)) (capacity self).

Definition tail_len (self : TranscriptTail) : nat := length (tokens self).
Definition tail_clear (self : TranscriptTail) : TranscriptTail := mkTail [] (capacity self).

(** [a.iter().zip(b.iter()).all(==)]. *)
Fixpoint zip_all_eq (a b : list string) : bool :=
  match a, b with
  | x :: a, y :: b => bool_decide (x = y) && zip_all_eq a b
  | _, _ => true
  end.

(** [for length in (1..=max).rev()]. *)
Fixpoint overlap_loop (toks incoming : list string) (n : nat) : nat :=
  match n with
  | O => O
  | S m => if zip_all_eq (drop (length toks - n) toks) incoming then n else overlap_loop toks incoming m
  end.

Definition overlap_with (self : TranscriptTail) (incoming : list string) : nat :=
  overlap_loop (tokens self) incoming
    (Nat.min (Nat.min (length (tokens self)) (length incoming)) MAX_OVERLAP_TOKENS).

Definition overlap_with_text (self : TranscriptTail) (txt : string) : nat :=
  overlap_with self (normalize_tokens txt).

(** The loop of [units_covering]; the result is what [taken] grows by. *)
Fixpoint covering_loop (units : list string) (n consumed : nat) : nat :=
  match units with
  | [] => O
  | unit :: units =>
      if (n <=? consumed)%nat then O
      else S (covering_loop units n (match normalize_one unit with Some _ => S consumed | None => consumed end))
  end.

Definition units_covering (units : list string) (n : nat) : nat := covering_loop units n 0.

Definition trim_text_only (segment : TranscriptSegment) (n : nat) : TranscriptSegment * bool :=
  let units := split_whitespace (text segment) in
  let drop_count := units_covering units n in
  if (length units <=? drop_count)%nat then
    (with_content segment (start_ms segment) EmptyString (words segment), false)
  else
    (with_content segment (start_ms segment) (join " " (drop drop_count units)) (words segment), true).

Definition trim_leading_tokens (segment : TranscriptSegment) (n : nat) : TranscriptSegment * bool :=
  match n with
  | O => (segment, negb (str_is_empty (trim (text segment))) ||
                   match words segment with [] => false | _ => true end)
  | _ =>
      match words segment with
      | [] => trim_text_only segment n
      | _ =>
          let drop_count := units_covering (w_text <$> words segment) n in
          match drop drop_count (words segment) with
          | [] => (with_content segment (start_ms segment) EmptyString [], false)
          | first :: rest =>
              (with_content segment (w_start_ms first)
                 (join " " (w_text <$> (first :: rest))) (first :: rest), true)
          end
      end
  end.

(** ** The tail *)

Lemma pop_to_drop cap l : pop_to cap l = drop (length l - cap) l.
Proof.
  induction l as [|x l IH]; [done|]. cbn [pop_to].
  destruct (Nat.ltb_spec cap (length (x :: l))) as [Hlt|Hge].
  - rewrite IH. simpl in *. destruct cap as [|cap].
    + rewrite Nat.sub_0_r. done.
    + replace (S (length l) - S cap)%nat with (S (length l - S cap)) by lia. done.
  - by replace (length (x :: l) - cap)%nat with 0%nat by lia.
Qed.

(** The tail is the last [capacity] tokens of everything committed. *)
Definition tail_holds (t : TranscriptTail) (all : list string) : Prop :=
  tokens t = drop (length all - capacity t) all.

Lemma push_text_holds t all txt :
  tail_holds t all -> tail_holds (push_text t txt) (all ++ normalize_tokens txt).
Proof.
  unfold tail_holds, push_text. simpl. intros ->. rewrite pop_to_drop.
  rewrite <-drop_app_le by lia. rewrite drop_drop, length_drop. f_equal.
  rewrite length_app. lia.
Qed.

Lemma push_texts_hold t all txts :
  tail_holds t all -> tail_holds (foldl push_text t txts) (all ++ (txts ≫= normalize_tokens)).
Proof.
  revert t all. induction txts as [|x txts IH]; intros t all Ht; csimpl.
  - by rewrite app_nil_r.
  - rewrite app_assoc. apply IH. by apply push_text_holds.
Qed.

(** ** The overlap *)

Lemma zip_all_eq_spec a b : (length a <= length b)%nat -> zip_all_eq a b = true <-> a = take (length a) b.
Proof.
  revert b. induction a as [|x a IH]; intros [|y b] Hl; simpl in *; try done; try lia.
  rewrite andb_true_iff, bool_decide_eq_true, IH by lia. split.
  - by intros [-> <-].
  - by intros [= -> <-].
Qed.

(** [n] tokens at the end of the tail are the first [n] of [incoming]. *)
Definition overlaps (toks incoming : list string) (n : nat) : Prop :=
  (n <= length toks)%nat /\ (n <= length incoming)%nat /\
  drop (length toks - n) toks = take n incoming.

Lemma overlap_loop_spec toks incoming n :
  (n <= length toks)%nat -> (n <= length incoming)%nat ->
  overlaps toks incoming (overlap_loop toks incoming n) /\
  (overlap_loop toks incoming n <= n)%nat /\
  forall m, (m <= n)%nat -> overlaps toks incoming m -> (m <= overlap_loop toks incoming n)%nat.
Proof.
  induction n as [|n IH]; intros Ht Hi; cbn [overlap_loop].
  - split_and!; [|done|lia]. split_and!; [lia|lia|].
    rewrite Nat.sub_0_r, drop_all. by rewrite take_0.
  - set (s := drop (length toks - S n) toks).
    assert (Hl : length s = S n) by (unfold s; rewrite length_drop; lia).
    destruct (zip_all_eq s incoming) eqn:E.
    + split_and!; [|done|done]. split_and!; [done|done|].
      apply zip_all_eq_spec in E; [|lia]. by rewrite Hl in E.
    + destruct (IH ltac:(lia) ltac:(lia)) as (H1 & H2 & H3). split_and!; [done|lia|].
      intros m Hm Ho. destruct (decide (m = S n)) as [->|]; [|apply H3; [lia|done]].
      exfalso. destruct Ho as (_ & _ & Ho). fold s in Ho.
      assert (zip_all_eq s incoming = true); [|congruence].
      apply zip_all_eq_spec; [lia|]. by rewrite Hl.
Qed.

(** The overlap reported is the longest suffix of the tail that is a prefix of the
    incoming tokens, among those of at most [MAX_OVERLAP_TOKENS]. *)
Theorem overlap_is_longest (t : TranscriptTail) (incoming : list string) :
  let n := overlap_with t incoming in
  overlaps (tokens t) incoming n /\ (n <= MAX_OVERLAP_TOKENS)%nat /\
  forall m, (m <= MAX_OVERLAP_TOKENS)%nat -> overlaps (tokens t) incoming m -> (m <= n)%nat.
Proof.
  intros n.
  destruct (overlap_loop_spec (tokens t) incoming
    (Nat.min (Nat.min (length (tokens t)) (length incoming)) MAX_OVERLAP_TOKENS))
    as (H1 & H2 & H3); [lia..|].
  split_and!; [done|unfold n, overlap_with; lia|].
  intros m Hm Ho. apply H3; [|done]. destruct Ho as (? & ? & _). lia.
Qed.

(** ** The trim *)

Lemma covering_loop_tokens units n consumed :
  omap normalize_one (drop (covering_loop units n consumed) units) =
  drop (n - consumed) (omap normalize_one units).
Proof.
  revert consumed. induction units as [|u units IH]; intros consumed; [csimpl; by rewrite drop_nil|].
  cbn [covering_loop]. destruct (Nat.leb_spec n consumed).
  - by replace (n - consumed)%nat with 0%nat by lia.
  - csimpl. rewrite IH. destruct (normalize_one u); [|done].
    by replace (n - consumed)%nat with (S (n - S consumed)) by lia.
Qed.

Lemma units_covering_tokens units n :
  omap normalize_one (drop (units_covering units n) units) = drop n (omap normalize_one units).
Proof. unfold units_covering. by rewrite covering_loop_tokens, Nat.sub_0_r. Qed.

(** The comparison tokens of a segment: its words where it has any. *)
Definition segment_tokens (s : TranscriptSegment) : list string :=
  match words s with
  | [] => normalize_tokens (text s)
  | ws => omap normalize_one (w_text <$> ws)
  end.

Lemma trim_text_only_tokens s n :
  words s = [] -> is_str (text s) ->
  segment_tokens (trim_text_only s n).1 = drop n (normalize_tokens (text s)) /\
  ((trim_text_only s n).2 = false -> text (trim_text_only s n).1 = EmptyString).
Proof.
  intros Hw Hs. unfold trim_text_only, segment_tokens.
  pose proof (units_covering_tokens (split_whitespace (text s)) n) as Hc.
  change (normalize_tokens (text s)) with (omap normalize_one (split_whitespace (text s))).
  rewrite <-Hc.
  destruct (Nat.leb_spec (length (split_whitespace (text s)))
              (units_covering (split_whitespace (text s)) n)); simpl; rewrite Hw; split; try done.
  - rewrite drop_ge by done. done.
  - unfold normalize_tokens. by rewrite split_whitespace_drop.
Qed.

(** Trimming [n] tokens removes exactly the first [n] comparison tokens of a
    segment and no other; what is kept is a suffix of its words starting where the
    first of them starts, and a segment reported as used up is left empty. *)
Theorem trim_drops_exactly (s : TranscriptSegment) (n : nat) :
  is_str (text s) ->
  let '(s', kept) := trim_leading_tokens s n in
  segment_tokens s' = drop n (segment_tokens s) /\
  (exists k, words s' = drop k (words s)) /\
  ((0 < n)%nat -> kept = false -> segment_tokens s' = [] /\ text s' = EmptyString) /\
  ((0 < n)%nat -> kept = true -> forall w ws, words s' = w :: ws -> start_ms s' = w_start_ms w) /\
  end_ms s' = end_ms s /\ id s' = id s.
Proof.
  intros Hstr. destruct n as [|n]; cbn [trim_leading_tokens].
  { split_and!; try done; [by exists 0%nat|lia|lia]. }
  destruct (words s) as [|w ws] eqn:Hw.
  - destruct (trim_text_only_tokens s (S n) Hw Hstr) as [Htok Hemp].
    destruct (trim_text_only s (S n)) as [s' kept] eqn:E. simpl in *.
    assert (Hs' : words s' = [] /\ end_ms s' = end_ms s /\ id s' = id s).
    { unfold trim_text_only in E. case_match; simplify_eq; simpl; auto. }
    destruct Hs' as (Hws & He & Hi). unfold segment_tokens at 2. rewrite Hw.
    split_and!; try done; [by exists 0%nat| |].
    + intros _ Hk. split; [|by apply Hemp]. unfold segment_tokens. rewrite Hws, Hemp; done.
    + intros _ _ w ws. by rewrite Hws.
  - assert (Ht : segment_tokens s = omap normalize_one (w_text <$> words s))
      by (unfold segment_tokens; by rewrite Hw).
    rewrite <-Hw, Ht, <-units_covering_tokens, <-fmap_drop.
    set (k := units_covering (w_text <$> words s) (S n)).
    destruct (drop k (words s)) as [|f r] eqn:Ed; simpl; split_and!; try done.
    + exists (length (words s)). by rewrite drop_all.
    + by exists k.
    + by intros _ _ w' ws' [= <- _].
Qed.

End Dedupe.

(** A final that restates the tail's last two words, smart-formatted, with a dash of
    its own. *)
Definition replayed_word (txt : string) (from : Z) : Word := mkWord txt from (from + 100) None None.
Definition replayed_segment : TranscriptSegment :=
  let ws := [replayed_word "Okay," 0; replayed_word "--" 100; replayed_word "So" 200; replayed_word "now." 300] in
  mkSegment "u1" "s" Mic None "Okay, -- So now." 0 400 ws None None true 0 "deepgram" "nova-3" Provider.

Lemma trim_drops_exactly_witness :
  overlap_with_text (push_text (tail_new 8) "yes okay so") (text replayed_segment) = 2%nat /\
  segment_tokens (trim_leading_tokens replayed_segment 2).1 = ["now"]%string /\
  start_ms (trim_leading_tokens replayed_segment 2).1 = 300.
Proof.
  assert (Hs : is_str (text replayed_segment)).
  { apply is_str_check_sound. by vm_compute. }
  pose proof (trim_drops_exactly replayed_segment 2 Hs) as H.
  destruct (trim_leading_tokens replayed_segment 2) as [s' k] eqn:E.
  split; [by vm_compute|]. split.
  - etrans; [exact (proj1 H)|]. by vm_compute.
  - change s' with (s', k).1. rewrite <-E. by vm_compute.
Defined.
