(* ===== verification/Deepgram.v ===== *)
(** * fotw-stt: normalizing a provider's frames

    Models [crates/fotw-stt/src/deepgram.rs]: the wire records and the
    normalizer that turns streaming frames into canonical segments.  Parsing is
    [serde_json]'s and enters as a function.  The one addition on times that the
    code leaves unchecked is checked here: [None] from [push_message_at] is its
    overflow panic. *)

From Stdlib Require Import SpecFloat.
From S2P Require Import Prelude Text Float32 Float64 SttTypes SttClock SttStore.

Local Open Scope Z_scope.

Definition PROVIDER : string := "deepgram".
Definition DEFAULT_MODEL : string := "nova-3".

(** ** The wire *)

Record DeepgramWord := mkDeepgramWord {
  dg_word : string;
  punctuated_word : option string;
  dg_start : f64;
  dg_end : f64;
  dg_confidence : option f64;
  dg_speaker : option Z;
}.

Record DeepgramAlternative := mkAlternative {
  transcript : string;
  alt_confidence : option f64;
  alt_words : list DeepgramWord;
}.

Record DeepgramChannel := mkChannel { alternatives : list DeepgramAlternative }.

Record DeepgramResult := mkDeepgramResult {
  message_type : option string;
  dr_is_final : bool;
  speech_final : bool;
  dr_start : option f64;
  dr_duration : option f64;
  channel : option DeepgramChannel;
}.

Definition display_text (self : DeepgramWord) : string :=
  match punctuated_word self with
  | Some p => if str_is_empty p then dg_word self else p
  | None => dg_word self
  end.

Definition primary_alternative (self : DeepgramResult) : option DeepgramAlternative :=
  if is_some_and (message_type self) (fun t => negb (bool_decide (t = "Results"%string))) then None
  else c ← channel self; head (alternatives c).

Record DeepgramConfig := mkDeepgramConfig {
  dc_session_id : string;
  dc_source : Source;
  dc_model : string;
  dc_language : option string;
  dc_diarization_enabled : bool;
}.

Definition config_new (session_id : string) (src : Source) : DeepgramConfig :=
  mkDeepgramConfig session_id src DEFAULT_MODEL None (bool_decide (src = System)).

(** ** The normalizer *)

Record Committed := mkCommitted {
  com_text : string;
  com_words : list Word;
  confidence_sum : f64;
  confidence_weight : f64;
}.

Definition committed_default : Committed := mkCommitted EmptyString [] f64_zero f64_zero.

Definition committed_is_empty (self : Committed) : bool :=
  str_is_empty (com_text self) && match com_words self with [] => true | _ => false end.

Definition join_text (committed chunk : string) : string :=
  match str_is_empty committed, str_is_empty chunk with
  | true, _ => chunk
  | false, true => committed
  | false, false => committed +:+ (" " +:+ chunk)
  end.

Definition weight_of (word_count : nat) : f64 := f64_of_Z (Z.of_nat (Nat.max word_count 1)).

Definition f64_ten_thousand : f64 := f64_of_Z 10000.
Definition round4 (value : f64) : f64 := f64_div (f64_round (f64_mul value f64_ten_thousand)) f64_ten_thousand.

Record DeepgramNormalizer (F : Type) := mkNormalizer {
  n_config : DeepgramConfig;
  n_clock : SessionClock;
  n_speakers : SpeakerNormalizer;
  n_tracker : UtteranceTracker F;
  n_estimator : ArrivalEstimator;
  n_committed : Committed;
  n_open : option TranscriptSegment;
}.
Arguments mkNormalizer {F}.
Arguments n_config {F}.
Arguments n_clock {F}.
Arguments n_speakers {F}.
Arguments n_tracker {F}.
Arguments n_estimator {F}.
Arguments n_committed {F}.
Arguments n_open {F}.

(** The bounds of the words of an utterance. *)
Definition word_bounds (ws : list Word) : option (Z * Z) :=
  foldl (fun bounds w =>
    match bounds with
    | None => Some (w_start_ms w, w_end_ms w)
    | Some (s, e) => Some (Z.min s (w_start_ms w), Z.max e (w_end_ms w))
    end) None ws.

Section Normalizer.
Context `{SegmentIdFactory F}.
Implicit Types (self : DeepgramNormalizer F) (message : DeepgramResult).

Definition with_id_factory (config : DeepgramConfig) (factory : F) : DeepgramNormalizer F :=
  mkNormalizer config clock_new (speakers_new (dc_source config) (dc_diarization_enabled config))
    (tracker_with factory) estimator_new committed_default None.

Definition normalizer_anchored_at (config : DeepgramConfig) (factory : F) (anchor : Z)
  : DeepgramNormalizer F :=
  let n := with_id_factory config factory in
  mkNormalizer (n_config n) (anchored_at anchor) (n_speakers n) (n_tracker n) (starting_at anchor)
    (n_committed n) (n_open n).

Definition normalize_word (clock : SessionClock) (speakers : SpeakerNormalizer) (word : DeepgramWord)
  : SpeakerNormalizer * Word :=
  let s := seconds_to_session_ms clock (dg_start word) in
  let e := Z.max (seconds_to_session_ms clock (dg_end word)) s in
  let '(speakers, label) := normalize_index speakers (dg_speaker word) in
  (speakers, mkWord (display_text word) s e (dg_confidence word) label).

(** [alternative.words.iter().map(normalize_word).collect()], the registry threaded. *)
Fixpoint normalize_words (clock : SessionClock) (speakers : SpeakerNormalizer) (ws : list DeepgramWord)
  : SpeakerNormalizer * list Word :=
  match ws with
  | [] => (speakers, [])
  | w :: ws =>
      let '(speakers, w') := normalize_word clock speakers w in
      let '(speakers, ws') := normalize_words clock speakers ws in
      (speakers, w' :: ws')
  end.

Definition span_for self message (ws : list Word) (arrival : option Z)
  : option (ArrivalEstimator * TimeSpan) :=
  match word_bounds (com_words (n_committed self) ++ ws) with
  | Some (s, e) => Some (advance_to (n_estimator self) e, provided s e)
  | None =>
      match dr_start message with
      | Some start_seconds =>
          let s := seconds_to_session_ms (n_clock self) start_seconds in
          e ← checked_add64 s (seconds_to_ms (default f64_zero (dr_duration message)));
          Some (advance_to (n_estimator self) e, provided s e)
      | None =>
          match arrival with
          | Some a => Some (next_span (n_estimator self) a)
          | None => let at_ := last_end_ms (n_estimator self) in Some (n_estimator self, estimated at_ at_)
          end
      end
  end.

Definition segment_speaker self (ws : list Word) : option string :=
  if is_forced_me (n_speakers self) then Some ME
  else match omap w_speaker ws with
  | [] => None
  | first :: labelled => if forallb (fun l => bool_decide (l = first)) labelled then Some first else None
  end.

Definition segment_confidence self (alternative : DeepgramAlternative) (word_count : nat) : option f64 :=
  chunk ← alt_confidence alternative;
  let chunk_weight := weight_of word_count in
  let sum := f64_add (confidence_sum (n_committed self)) (f64_mul chunk chunk_weight) in
  let weight := f64_add (confidence_weight (n_committed self)) chunk_weight in
  if f64_eqb weight f64_zero then Some (round4 chunk) else Some (round4 (f64_div sum weight)).

Definition build_segment self (i : string) (revision : Z) (final : bool)
    (alternative : DeepgramAlternative) (ws : list Word) (span : TimeSpan) : TranscriptSegment :=
  let all_words := com_words (n_committed self) ++ ws in
  mkSegment i (dc_session_id (n_config self)) (dc_source (n_config self))
    (segment_speaker self all_words)
    (join_text (com_text (n_committed self)) (trim (transcript alternative)))
    (span_start span) (span_end span) all_words (segment_confidence self alternative (length ws))
    (dc_language (n_config self)) final revision PROVIDER (dc_model (n_config self)) (span_source span).

Definition commit (self : Committed) (alternative : DeepgramAlternative) (ws : list Word) : Committed :=
  let weight := weight_of (length ws) in
  let '(sum, wt) :=
    match alt_confidence alternative with
    | Some c => (f64_add (confidence_sum self) (f64_mul c weight), f64_add (confidence_weight self) weight)
    | None => (confidence_sum self, confidence_weight self)
    end in
  mkCommitted (join_text (com_text self) (trim (transcript alternative))) (com_words self ++ ws) sum wt.

Definition push_message_at self message (arrival : option Z)
  : option (DeepgramNormalizer F * option TranscriptSegment) :=
  match primary_alternative message with
  | None => Some (self, None)
  | Some alternative =>
      if str_is_empty (trim (transcript alternative)) &&
         match alt_words alternative with [] => true | _ => false end
      then Some (self, None)
      else
        let '(speakers, ws) := normalize_words (n_clock self) (n_speakers self) (alt_words alternative) in
        '(estimator, span) ← span_for self message ws arrival;
        let closes := speech_final message in
        let '(tracker, (i, revision)) :=
          if closes then next_final (n_tracker self) else next_partial (n_tracker self) in
        let self := mkNormalizer (n_config self) (n_clock self) speakers tracker estimator
                      (n_committed self) (n_open self) in
        let segment := build_segment self i revision closes alternative ws span in
        let '(committed, open) :=
          if closes then (committed_default, None)
          else (if dr_is_final message then commit (n_committed self) alternative ws
                else n_committed self, Some segment) in
        Some (mkNormalizer (n_config self) (n_clock self) speakers tracker estimator committed open,
              Some segment)
  end.

Definition push_message self message := push_message_at self message None.

Fixpoint normalize_at self (messages : list DeepgramResult) (arrival : option Z)
  : option (DeepgramNormalizer F * list TranscriptSegment) :=
  match messages with
  | [] => Some (self, [])
  | m :: messages =>
      '(self, out) ← push_message_at self m arrival;
      '(self, rest) ← normalize_at self messages arrival;
      Some (self, match out with Some s => s :: rest | None => rest end)
  end.

(** [push_json], over the parser and its error text. *)
Definition push_json (from_str : string -> result DeepgramResult string) self (raw : string)
  : option (DeepgramNormalizer F * result (option TranscriptSegment) SttError) :=
  match from_str raw with
  | Err source =>
      Some (self, Err (with_detail (stt_error_new Server PROVIDER (user_hint Server))
                         ("could not parse a Deepgram frame: " +:+ source)))
  | Ok message => '(self, out) ← push_message self message; Some (self, Ok out)
  end.

Definition finish self : DeepgramNormalizer F * option TranscriptSegment :=
  match n_open self with
  | None => (self, None)
  | Some segment =>
      let '(tracker, (_, revision)) := next_final (n_tracker self) in
      (mkNormalizer (n_config self) (n_clock self) (n_speakers self) tracker (n_estimator self)
         committed_default None,
       Some (mkSegment (id segment) (seg_session_id segment) (seg_source segment) (speaker segment)
               (text segment) (start_ms segment) (end_ms segment) (words segment) (confidence segment)
               (seg_language segment) true revision (seg_provider segment) (seg_model segment)
               (timestamp_source segment)))
  end.

Definition reconnected_at self (leg_ms : Z) : DeepgramNormalizer F * option TranscriptSegment :=
  let '(self, dangling) := finish self in
  let clock := clock_reconnected_at (n_clock self) leg_ms in
  (mkNormalizer (n_config self) clock (n_speakers self) (n_tracker self)
     (estimator_reconnected_at (n_estimator self) (to_session_ms clock 0))
     (n_committed self) (n_open self), dangling).

Definition has_open_utterance self : bool :=
  negb (committed_is_empty (n_committed self)) || is_some (n_open self).

End Normalizer.

(** ** The open utterance *)

Section Invariant.
Context `{SegmentIdFactory F}.
Implicit Types (n : DeepgramNormalizer F).

(** The tracker's open utterance and the remembered segment are set and cleared
    together, and the remembered one is the last revision given out. *)
Definition normalizer_ok n : Prop :=
  match n_open n with
  | None => open_id (n_tracker n) = None /\ n_committed n = committed_default
  | Some s =>
      open_id (n_tracker n) = Some (id s) /\ next_revision (n_tracker n) = seg_revision s + 1 /\
      is_final s = false
  end.

Lemma with_id_factory_ok config factory : normalizer_ok (with_id_factory config factory).
Proof. done. Qed.

Lemma anchored_ok config factory a : normalizer_ok (normalizer_anchored_at config factory a).
Proof. done. Qed.

(** What one frame does to the utterance in progress. *)
Definition frame_effect n n' (out : option TranscriptSegment) : Prop :=
  match out with
  | None => n' = n
  | Some s =>
      match open_id (n_tracker n) with
      | Some i => id s = i /\ seg_revision s = next_revision (n_tracker n)
      | None => id s = (next_id (tr_factory (n_tracker n))).1 /\ seg_revision s = 0
      end /\
      n_open n' = (if is_final s then None else Some s) /\ n_clock n' = n_clock n
  end.

Lemma push_message_at_effect n m arrival n' out :
  normalizer_ok n -> push_message_at n m arrival = Some (n', out) ->
  normalizer_ok n' /\ frame_effect n n' out.
Proof.
  unfold push_message_at. intros Hok Hp.
  destruct (primary_alternative m) as [alt|]; [|by simplify_eq].
  case_match; [by simplify_eq|].
  destruct (normalize_words (n_clock n) (n_speakers n) (alt_words alt)) as [speakers ws].
  destruct (span_for n m ws arrival) as [[est span]|]; [|done]. cbn [mbind option_bind] in Hp.
  unfold next_final, next_partial, open_or_start in Hp.
  destruct (open_id (n_tracker n)) as [i|] eqn:Eo.
  - destruct (speech_final m) eqn:Ef; simpl in Hp; simplify_eq; unfold normalizer_ok, frame_effect; simpl;
      by rewrite Eo.
  - destruct (next_id (tr_factory (n_tracker n))) as [i fac] eqn:Ei.
    destruct (speech_final m) eqn:Ef; simpl in Hp; simplify_eq; unfold normalizer_ok, frame_effect; simpl;
      by rewrite Eo, Ei.
Qed.

(** Closing an utterance keeps its id and gives its newest revision: the tracker
    never mints a new id here. *)
Lemma finish_effect n n' out :
  normalizer_ok n -> finish n = (n', out) ->
  normalizer_ok n' /\ n_open n' = None /\ n_clock n' = n_clock n /\
  (n_open n = None -> out = None /\ n' = n) /\
  forall s, n_open n = Some s -> exists t,
    out = Some t /\ id t = id s /\ is_final t = true /\ seg_revision t = seg_revision s + 1 /\
    text t = text s /\ words t = words s /\ start_ms t = start_ms s /\ end_ms t = end_ms s.
Proof.
  unfold finish, normalizer_ok. destruct (n_open n) as [s|] eqn:Eo.
  - intros (Ho & Hr & Hf) Hn. unfold next_final, open_or_start in Hn. rewrite Ho in Hn. simplify_eq.
    simpl. split_and!; try done. intros s' [= <-]. eexists. split; [done|]. simpl. rewrite Hr. auto 10.
  - intros Hok [= <- <-]. rewrite Eo. split_and!; try done; apply Hok.
Qed.

Lemma reconnected_at_effect n leg n' out :
  normalizer_ok n -> reconnected_at n leg = (n', out) ->
  normalizer_ok n' /\ n_open n' = None /\ out = (finish n).2 /\
  n_clock n' = clock_reconnected_at (n_clock n) leg.
Proof.
  unfold reconnected_at. destruct (finish n) as [m d] eqn:E. intros Hok [= <- <-].
  destruct (finish_effect n m d Hok E) as (Hm & Ho & Hc & _). simpl.
  split_and!; [|done|done|by rewrite Hc]. unfold normalizer_ok in *. simpl. by rewrite Ho in *.
Qed.

End Invariant.

(** ** Every partial is superseded *)

Inductive NormalizerCall :=
| PushMessage (m : DeepgramResult) (arrival : option Z)
| Finish
| ReconnectedAt (leg_ms : Z).

Section Settles.
Context `{SegmentIdFactory F}.
Implicit Types (n : DeepgramNormalizer F).

Definition normalizer_step n (c : NormalizerCall) : option (DeepgramNormalizer F * option TranscriptSegment) :=
  match c with
  | PushMessage m a => push_message_at n m a
  | Finish => Some (finish n)
  | ReconnectedAt leg => Some (reconnected_at n leg)
  end.

(** Everything emitted by a run of calls; [None] is a panic on the way. *)
Fixpoint normalizer_run n (calls : list NormalizerCall)
  : option (DeepgramNormalizer F * list TranscriptSegment) :=
  match calls with
  | [] => Some (n, [])
  | c :: calls =>
      '(n, out) ← normalizer_step n c;
      '(n, rest) ← normalizer_run n calls;
      Some (n, option_list out ++ rest)
  end.

(** A partial given out is superseded already, or is the utterance in progress. *)
Definition accounted n (given : list TranscriptSegment) : Prop :=
  normalizer_ok n /\
  forall s, s ∈ given -> is_final s = false ->
  (exists t, t ∈ given /\ id t = id s /\ is_final t = true /\ seg_revision s < seg_revision t) \/
  (exists o, n_open n = Some o /\ id o = id s /\ seg_revision s <= seg_revision o).

(** The open utterance, closed by the next emission of its id. *)
Lemma accounted_extend n n' given s :
  accounted n given -> normalizer_ok n' ->
  (forall o, n_open n = Some o -> id s = id o /\ seg_revision s = seg_revision o + 1) ->
  n_open n' = (if is_final s then None else Some s) ->
  accounted n' (given ++ [s]).
Proof.
  intros [_ Hacc] Hok' Ho Hn'. split; [done|]. intros x [Hx| ->%list_elem_of_singleton]%elem_of_app Hf.
  - destruct (Hacc x Hx Hf) as [(t & Ht & ?)|(o & Eo & Hid & Hrev)].
    + left. exists t. split; [apply elem_of_app; by left|done].
    + destruct (Ho o Eo) as [Hi Hr]. destruct (is_final s) eqn:Es.
      * left. exists s. split; [set_solver|]. split_and!; [congruence|done|lia].
      * right. exists s. split_and!; [done|congruence|lia].
  - right. exists s. rewrite Hn', Hf. split_and!; done || lia.
Qed.

Lemma accounted_keep n n' given :
  accounted n given -> normalizer_ok n' -> n_open n' = n_open n -> accounted n' given.
Proof. intros [_ Hacc] Hok E. split; [done|]. rewrite E. done. Qed.

Lemma finish_accounted n n' given out :
  accounted n given -> normalizer_ok n' -> n_open n' = None -> out = (finish n).2 ->
  accounted n' (given ++ option_list out).
Proof.
  intros Hacc Hok' Hn' ->. destruct (finish n) as [m d] eqn:E.
  destruct (finish_effect n m d (proj1 Hacc) E) as (_ & _ & _ & Hnone & Hsome).
  destruct (n_open n) as [o|] eqn:Eo.
  - destruct (Hsome o eq_refl) as (t & -> & Hid & Hf & Hr & _). simpl.
    eapply accounted_extend; [done|done| |by rewrite Hf]. intros o' [= <-]%(eq_trans (eq_sym Eo)). done.
  - destruct (Hnone eq_refl) as [-> _]. simpl. rewrite app_nil_r.
    eapply accounted_keep; [done|done|congruence].
Qed.

Lemma step_accounted n c n' out given :
  accounted n given -> normalizer_step n c = Some (n', out) -> accounted n' (given ++ option_list out).
Proof.
  intros Hacc. destruct c as [m a| |leg]; simpl; intros Hs.
  - destruct (push_message_at_effect _ _ _ _ _ (proj1 Hacc) Hs) as [Hok' He].
    destruct out as [s|]; simpl in *; [|subst; by rewrite app_nil_r].
    destruct He as (Hid & Hn' & _). eapply accounted_extend; [done|done| |done].
    intros o Eo. destruct Hacc as [Hok _]. unfold normalizer_ok in Hok. rewrite Eo in Hok.
    destruct Hok as (Ht & Hr & _). rewrite Ht in Hid. rewrite <-Hr. done.
  - destruct (finish n) as [m d] eqn:E. simplify_eq.
    destruct (finish_effect _ _ _ (proj1 Hacc) E) as (Hok' & Ho & _).
    eapply finish_accounted; [done|done|done|by rewrite E].
  - destruct (reconnected_at n leg) as [m d] eqn:E. simplify_eq.
    destruct (reconnected_at_effect _ _ _ _ (proj1 Hacc) E) as (Hok' & Ho & Hd & _).
    by eapply finish_accounted.
Qed.

Lemma run_accounted n calls n' out given :
  accounted n given -> normalizer_run n calls = Some (n', out) -> accounted n' (given ++ out).
Proof.
  revert n out given. induction calls as [|c calls IH]; intros n out given Hacc; simpl.
  - intros [= <- <-]. by rewrite app_nil_r.
  - destruct (normalizer_step n c) as [[n1 o]|] eqn:Es; [|done]. cbn [mbind option_bind].
    destruct (normalizer_run n1 calls) as [[n2 rest]|] eqn:Er; [|done]. cbn [mbind option_bind].
    intros [= <- <-]. rewrite app_assoc. eapply IH; [|done]. by eapply step_accounted.
Qed.

Lemma accounted_closed_settled n given : accounted n given -> n_open n = None -> settled given.
Proof.
  intros [_ Hacc] Ho s Hs Hf. destruct (Hacc s Hs Hf) as [?|(o & Eo & _)]; [done|congruence].
Qed.

Lemma normalizer_run_snoc n calls c n' out :
  normalizer_run n (calls ++ [c]) = Some (n', out) ->
  exists n1 out1 o, normalizer_run n calls = Some (n1, out1) /\ normalizer_step n1 c = Some (n', o).
Proof.
  revert n out. induction calls as [|c0 calls IH]; intros n out; simpl.
  - destruct (normalizer_step n c) as [[n1 o]|] eqn:Es; [|done]. intros [= <- <-]. eauto 10.
  - destruct (normalizer_step n c0) as [[n1 o]|] eqn:Es; [|done]. cbn [mbind option_bind].
    destruct (normalizer_run n1 (calls ++ [c])) as [[n2 rest]|] eqn:Er; [|done].
    intros [= <- <-]. destruct (IH _ _ Er) as (n3 & out3 & o3 & -> & ?). cbn. eauto 10.
Qed.

End Settles.

(** Whatever frames arrive, with reconnects anywhere between them, once [finish]
    has run every partial the normalizer gave out has been superseded by a final
    of its id, and a store fed with its segments in any order has none pending. *)
Theorem every_partial_is_superseded `{SegmentIdFactory F} (config : DeepgramConfig) (factory : F)
    (anchor : Z) (calls : list NormalizerCall) (n : DeepgramNormalizer F)
    (out delivered : list TranscriptSegment) :
  normalizer_run (normalizer_anchored_at config factory anchor) (calls ++ [Finish]) = Some (n, out) ->
  out ≡ₚ delivered ->
  settled out /\ pending_ids (upsert_all store_new delivered) = [].
Proof.
  intros Hrun Hperm.
  assert (Hacc : accounted (normalizer_anchored_at config factory anchor) [])
    by (split; [done|]; by intros s ?%not_elem_of_nil).
  pose proof (run_accounted _ _ _ _ _ Hacc Hrun) as Hacc'. simpl in Hacc'.
  assert (Hn : n_open n = None).
  { apply normalizer_run_snoc in Hrun as (n1 & out1 & o & H1 & [= H2]).
    pose proof (run_accounted _ _ _ _ _ Hacc H1) as [Hok _].
    by destruct (finish_effect n1 n o Hok H2) as (_ & ? & _). }
  assert (Hs : settled out) by (by eapply accounted_closed_settled).
  split; [done|]. by eapply settled_nothing_pending.
Qed.

(** Frames for the witnesses: one word a second, from second [at_]. *)
Definition test_word (txt : string) (at_ : Z) : DeepgramWord :=
  mkDeepgramWord txt None (f64_of_Z at_) (f64_of_Z (at_ + 1)) (Some f64_one) None.
Definition test_frame (settles closes : bool) (txt : string) (at_ : Z) : DeepgramResult :=
  mkDeepgramResult (Some "Results"%string) settles closes None None
    (Some (mkChannel [mkAlternative txt (Some f64_one) [test_word txt at_]])).
Definition test_ids : CountingIdFactory := mkCountingIdFactory "u" 0.
Definition test_config : DeepgramConfig := config_new "session" Mic.

Definition test_calls : list NormalizerCall :=
  [PushMessage (test_frame true false "okay" 0) None; PushMessage (test_frame false false "so" 1) None;
   ReconnectedAt 0; PushMessage (test_frame false false "okay" 0) None].

Lemma every_partial_is_superseded_witness :
  exists n out, normalizer_run (normalizer_anchored_at test_config test_ids 500) (test_calls ++ [Finish]) = Some (n, out) /\
    (id <$> out) = ["u-0"; "u-0"; "u-0"; "u-1"; "u-1"]%string /\
    pending_ids (upsert_all store_new (rev out)) = [].
Proof.
  destruct (normalizer_run (normalizer_anchored_at test_config test_ids 500) (test_calls ++ [Finish]))
    as [[n out]|] eqn:E; [|vm_compute in E; discriminate].
  exists n, out. split; [done|]. split.
  - change out with (n, out).2. transitivity (id <$> (default (n, out)
      (normalizer_run (normalizer_anchored_at test_config test_ids 500) (test_calls ++ [Finish]))).2).
    + by rewrite E.
    + by vm_compute.
  - apply (every_partial_is_superseded test_config test_ids 500 test_calls n out (rev out) E).
    apply Permutation_rev.
Defined.

(** ** The only panic *)

Section Panic.
Context `{SegmentIdFactory F}.
Implicit Types (n : DeepgramNormalizer F).

(** Word times are saturating sums of [u64]s: they never panic, and they are in
    order within the word. *)
Lemma normalize_words_length clock sp ws :
  length (normalize_words clock sp ws).2 = length ws.
Proof.
  revert sp. induction ws as [|w ws IH]; intros sp; [done|]. simpl.
  destruct (normalize_word clock sp w) as [sp1 w1]. specialize (IH sp1).
  destruct (normalize_words clock sp1 ws) as [sp2 ws2]. simpl in *. congruence.
Qed.

Lemma word_bounds_Some w ws : is_Some (word_bounds (w :: ws)).
Proof.
  unfold word_bounds. simpl. generalize (w_start_ms w, w_end_ms w). intros p. revert p.
  induction ws as [|x ws IH]; intros [s e]; simpl; eauto.
Qed.

Lemma span_for_None n m ws arrival :
  span_for n m ws arrival = None <->
  com_words (n_committed n) ++ ws = [] /\ exists start, dr_start m = Some start /\
    u64_max < seconds_to_session_ms (n_clock n) start + seconds_to_ms (default f64_zero (dr_duration m)).
Proof.
  unfold span_for. destruct (com_words (n_committed n) ++ ws) as [|w l].
  - simpl. destruct (dr_start m) as [start|].
    + unfold checked_add64. destruct (Z.leb_spec (seconds_to_session_ms (n_clock n) start +
        seconds_to_ms (default f64_zero (dr_duration m))) u64_max); cbn [mbind option_bind].
      * split; [done|]. intros (_ & ? & [= <-] & ?). lia.
      * split; [|done]. intros _. eauto.
    + split; [by destruct arrival|]. by intros (_ & ? & ? & _).
  - destruct (word_bounds_Some w l) as [[b e] ->]. split; [done|]. by intros [? _].
Qed.

Lemma push_None_span n m arrival :
  push_message_at n m arrival = None <->
  exists alt, primary_alternative m = Some alt /\
    str_is_empty (trim (transcript alt)) && match alt_words alt with [] => true | _ => false end = false /\
    span_for n m (normalize_words (n_clock n) (n_speakers n) (alt_words alt)).2 arrival = None.
Proof.
  unfold push_message_at. destruct (primary_alternative m) as [alt|]; [|split; [done|by intros (? & ? & _)]].
  destruct (str_is_empty _ && _) eqn:E.
  - split; [done|]. intros (? & [= <-] & ? & _). congruence.
  - destruct (normalize_words (n_clock n) (n_speakers n) (alt_words alt)) as [sp ws] eqn:En.
    destruct (span_for n m ws arrival) as [[est span]|] eqn:Es; cbn [mbind option_bind].
    + split.
      * by destruct (speech_final m); [destruct (next_final (n_tracker n)) as [? [? ?]]
          |destruct (next_partial (n_tracker n)) as [? [? ?]]].
      * intros (? & [= <-] & _ & Hs). rewrite En in Hs. simpl in Hs. congruence.
    + split; [|done]. intros _. exists alt. rewrite En. done.
Qed.

(** A frame makes the normalizer panic exactly when it carries a transcript with
    no words while no words are committed, and the chunk's [start] and [duration]
    add up beyond [u64]: the unchecked sum in [span_for] is the only one. *)
Theorem push_panics_iff n (m : DeepgramResult) (arrival : option Z) :
  push_message_at n m arrival = None <->
  exists alt start,
    primary_alternative m = Some alt /\ alt_words alt = [] /\
    str_is_empty (trim (transcript alt)) = false /\ com_words (n_committed n) = [] /\
    dr_start m = Some start /\
    u64_max < seconds_to_session_ms (n_clock n) start + seconds_to_ms (default f64_zero (dr_duration m)).
Proof.
  rewrite push_None_span. setoid_rewrite span_for_None. split.
  - intros (alt & Ha & He & Hw & start & Hs & Hlt). exists alt, start.
    apply app_eq_nil in Hw as [Hc Hw].
    pose proof (normalize_words_length (n_clock n) (n_speakers n) (alt_words alt)) as Hl.
    rewrite Hw in Hl. destruct (alt_words alt); [|done].
    rewrite andb_true_r in He. done.
  - intros (alt & start & Ha & Hw & He & Hc & Hs & Hlt). exists alt. rewrite Hw, He, Hc. simpl. eauto 10.
Qed.

End Panic.

(** A chunk of 10^19 seconds: in range for a double, not for a [u64] sum. *)
Definition endless_frame : DeepgramResult :=
  mkDeepgramResult None false false (Some f64_one) (Some (f64_of_Z (10 ^ 19)))
    (Some (mkChannel [mkAlternative "hello" None []])).

Example endless_frame_panics :
  push_message (with_id_factory test_config test_ids) endless_frame = None.
Proof. by vm_compute. Qed.

(** ** A final carries every settled chunk of its utterance *)

(** The hypothesis of a frame that carries speech at all. *)
Definition speech (m : DeepgramResult) : option DeepgramAlternative :=
  alt ← primary_alternative m;
  if str_is_empty (trim (transcript alt)) && match alt_words alt with [] => true | _ => false end
  then None else Some alt.

(** What an utterance has said: words and text, by the frames that settled a chunk. *)
Definition said := (list string * string)%type.
Definition say (alt : DeepgramAlternative) (u : said) : said :=
  (u.1 ++ (display_text <$> alt_words alt), join_text u.2 (trim (transcript alt))).
Definition say_frame (u : said) (m : DeepgramResult) : said :=
  match speech m with Some alt => if dr_is_final m then say alt u else u | None => u end.

Section Carries.
Context `{SegmentIdFactory F}.
Implicit Types (n : DeepgramNormalizer F).

Definition committed_said (c : Committed) : said := (w_text <$> com_words c, com_text c).

Lemma normalize_words_text clock sp ws :
  w_text <$> (normalize_words clock sp ws).2 = display_text <$> ws.
Proof.
  revert sp. induction ws as [|w ws IH]; intros sp; [done|]. simpl.
  destruct (normalize_word clock sp w) as [sp1 w1] eqn:E. specialize (IH sp1).
  destruct (normalize_words clock sp1 ws) as [sp2 ws2]. cbn [snd] in *. rewrite !fmap_cons, IH. f_equal.
  unfold normalize_word in E. destruct (normalize_index sp (dg_speaker w)). by simplify_eq.
Qed.

(** One frame that does not end the utterance, and one that does. *)
Lemma push_said n m arrival n' out :
  push_message_at n m arrival = Some (n', out) ->
  match out with
  | None => speech m = None /\ n' = n
  | Some s => exists alt, speech m = Some alt /\
      (w_text <$> words s, text s) = say alt (committed_said (n_committed n)) /\
      is_final s = speech_final m /\
      committed_said (n_committed n') =
        if speech_final m then ([], EmptyString) else say_frame (committed_said (n_committed n)) m
  end.
Proof.
  unfold push_message_at, say_frame, speech. intros Hp.
  destruct (primary_alternative m) as [alt|]; [|by simplify_eq]. cbn [mbind option_bind].
  destruct (str_is_empty _ && _) eqn:Ee; [by simplify_eq|].
  pose proof (normalize_words_text (n_clock n) (n_speakers n) (alt_words alt)) as Ht.
  destruct (normalize_words (n_clock n) (n_speakers n) (alt_words alt)) as [sp ws].
  destruct (span_for n m ws arrival) as [[est span]|]; [|done]. cbn [mbind option_bind] in Hp. simpl in Ht.
  destruct (if speech_final m then _ else _) as [tr [i r]].
  assert (Hsay : (w_text <$> com_words (n_committed n) ++ ws,
                  join_text (com_text (n_committed n)) (trim (transcript alt)))
                 = say alt (committed_said (n_committed n))).
  { unfold say, committed_said. simpl. by rewrite fmap_app, Ht. }
  destruct (speech_final m); simplify_eq; exists alt; simpl; split_and!; try done.
  destruct (dr_is_final m); [|done]. unfold commit. rewrite <-Hsay.
  by destruct (alt_confidence alt).
Qed.

Lemma run_said n ms n' out :
  Forall (fun m => speech_final m = false) ms ->
  normalizer_run n ((fun m => PushMessage m None) <$> ms) = Some (n', out) ->
  committed_said (n_committed n') = foldl say_frame (committed_said (n_committed n)) ms.
Proof.
  intros Hms. revert n out. induction Hms as [|m ms Hm _ IH]; intros n out; csimpl.
  - by intros [= <- <-].
  - cbn [normalizer_run normalizer_step].
    destruct (push_message_at n m None) as [[n1 o]|] eqn:Ep; [|done]. cbn [mbind option_bind].
    destruct (normalizer_run n1 _) as [[n2 rest]|] eqn:Er; [|done]. cbn [mbind option_bind].
    intros [= <- <-]. rewrite (IH _ _ Er). f_equal.
    apply push_said in Ep. destruct o as [s|].
    + destruct Ep as (alt & _ & _ & _ & ->). by rewrite Hm.
    + destruct Ep as [Hs ->]. unfold say_frame. by rewrite Hs.
Qed.

(** The final that ends an utterance holds, in order, every word of every chunk
    the provider settled since the utterance began and of its own chunk, and their
    texts joined; interim hypotheses leave no trace in it. *)
Theorem final_carries_settled_chunks n (ms : list DeepgramResult) (m : DeepgramResult)
    n1 n2 (out : list TranscriptSegment) (s : TranscriptSegment) :
  normalizer_ok n -> n_open n = None ->
  Forall (fun m => speech_final m = false) ms -> speech_final m = true ->
  normalizer_run n ((fun m => PushMessage m None) <$> ms) = Some (n1, out) ->
  push_message n1 m = Some (n2, Some s) ->
  exists alt, speech m = Some alt /\ is_final s = true /\
    (w_text <$> words s, text s) = say alt (foldl say_frame ([], EmptyString) ms).
Proof.
  intros Hok Ho Hms Hm Hrun Hp. apply push_said in Hp as (alt & Ha & Hs & Hf & _).
  exists alt. rewrite Hf, Hs, (run_said _ _ _ _ Hms Hrun). split_and!; [done|done|].
  unfold normalizer_ok in Hok. rewrite Ho in Hok. by destruct Hok as [_ ->].
Qed.

End Carries.

Lemma final_carries_settled_chunks_witness :
  exists n1 n2 out s,
    normalizer_run (with_id_factory test_config test_ids)
      ((fun m => PushMessage m None) <$>
        [test_frame true false "okay" 0; test_frame false false "sow" 1]) = Some (n1, out) /\
    push_message n1 (test_frame true true "so" 1) = Some (n2, Some s) /\
    (w_text <$> words s, text s) = (["okay"; "so"], "okay so")%string.
Proof.
  destruct (normalizer_run (with_id_factory test_config test_ids)
      ((fun m => PushMessage m None) <$>
        [test_frame true false "okay" 0; test_frame false false "sow" 1])) as [[n1 out]|] eqn:E;
    [|vm_compute in E; discriminate].
  destruct (push_message n1 (test_frame true true "so" 1)) as [[n2 [s|]]|] eqn:E2;
    [|vm_compute in E; simplify_eq; vm_compute in E2; discriminate..].
  exists n1, n2, out, s. split; [done|]. split; [done|].
  destruct (final_carries_settled_chunks (with_id_factory test_config test_ids)
      [test_frame true false "okay" 0; test_frame false false "sow" 1]
      (test_frame true true "so" 1) n1 n2 out s) as (alt & Ha & _ & ->); try done.
  { repeat constructor. }
  vm_compute in Ha. injection Ha as <-. by vm_compute.
Defined.
