(* ===== verification/DeepgramWire.v ===== *)
(** * fotw-stt: the provider's wire contract

    Models [crates/fotw-stt/src/deepgram_wire.rs]: the endpoint and its query
    string, the control frames, and the mapping of every way a connection fails
    onto the shared error taxonomy.  Reading a JSON body is [serde_json]'s and
    enters as the function [body_field]. *)

From S2P Require Import Prelude Text Float32 SttTypes Deepgram.

Local Open Scope Z_scope.

Definition PRODUCTION_HOST : string := "api.deepgram.com".
Definition LISTEN_PATH : string := "/v1/listen".
(** The control frames; the quotes are those of the JSON. *)
Definition quote : string := String (val_byte 34) EmptyString.
Definition control_frame (kind : string) : string :=
  "{" +:+ quote +:+ "type" +:+ quote +:+ ":" +:+ quote +:+ kind +:+ quote +:+ "}".
Definition KEEPALIVE_FRAME : string := control_frame "KeepAlive".
Definition FINALIZE_FRAME : string := control_frame "Finalize".
Definition CLOSE_STREAM_FRAME : string := control_frame "CloseStream".
Definition DEFAULT_KEEPALIVE_MS : Z := 4000.
Definition STREAMING_DIARIZE_MODEL : string := "v1".
Definition BATCH_ONLY_DIARIZE_MODEL : string := "v2".

(** ** Endpoint *)

Record DeepgramEndpoint := mkEndpoint {
  scheme : string;
  host : string;
  port : option Z;
  path : string;
}.

Definition production : DeepgramEndpoint := mkEndpoint "wss" PRODUCTION_HOST None LISTEN_PATH.
Definition insecure (h : string) (p : Z) : DeepgramEndpoint := mkEndpoint "ws" h (Some p) LISTEN_PATH.
Definition loopback (p : Z) : DeepgramEndpoint := insecure "127.0.0.1" p.

Definition url_with (self : DeepgramEndpoint) (query : string) : string :=
  let authority := match port self with Some p => host self +:+ (":" +:+ pretty p) | None => host self end in
  if str_is_empty query then scheme self +:+ ("://" +:+ (authority +:+ path self))
  else scheme self +:+ ("://" +:+ (authority +:+ (path self +:+ ("?" +:+ query)))).

Definition is_secure (self : DeepgramEndpoint) : bool := eq_ignore_ascii_case (scheme self) "wss".

(** ** Query parameters *)

Record DeepgramStreamParams := mkParams {
  p_model : string;
  p_encoding : string;
  p_sample_rate : Z;
  p_channels : Z;
  interim_results : bool;
  punctuate : bool;
  smart_format : bool;
  diarize : bool;
  endpointing_ms : Z;
  utterance_end_ms : Z;
  vad_events : bool;
  p_language : option string;
  keyterms : list string;
  diarize_model : string;
}.

Definition params_spec : DeepgramStreamParams :=
  mkParams DEFAULT_MODEL "linear16" 16000 1 true true true true 300 1000 true None []
    STREAMING_DIARIZE_MODEL.

Definition with_diarize_model (self : DeepgramStreamParams) (model : string)
  : result DeepgramStreamParams SttError :=
  if eq_ignore_ascii_case model BATCH_ONLY_DIARIZE_MODEL then
    Err (with_detail
      (stt_error_new Unsupported PROVIDER "diarize_model=v2 is pre-recorded only; streaming requires v1")
      "spec 7.4: Deepgram returns a validation error for diarize_model=v2 on /v1/listen streaming connections")
  else
    Ok (mkParams (p_model self) (p_encoding self) (p_sample_rate self) (p_channels self)
          (interim_results self) (punctuate self) (smart_format self) (diarize self)
          (endpointing_ms self) (utterance_end_ms self) (vad_events self) (p_language self)
          (keyterms self) model).

Definition with_diarize (self : DeepgramStreamParams) (d : bool) : DeepgramStreamParams :=
  mkParams (p_model self) (p_encoding self) (p_sample_rate self) (p_channels self)
    (interim_results self) (punctuate self) (smart_format self) d
    (endpointing_ms self) (utterance_end_ms self) (vad_events self) (p_language self)
    (keyterms self) (diarize_model self).

Definition with_keyterms (self : DeepgramStreamParams) (ks : list string) : DeepgramStreamParams :=
  mkParams (p_model self) (p_encoding self) (p_sample_rate self) (p_channels self)
    (interim_results self) (punctuate self) (smart_format self) (diarize self)
    (endpointing_ms self) (utterance_end_ms self) (vad_events self) (p_language self)
    ks (diarize_model self).

Definition with_language (self : DeepgramStreamParams) (l : string) : DeepgramStreamParams :=
  mkParams (p_model self) (p_encoding self) (p_sample_rate self) (p_channels self)
    (interim_results self) (punctuate self) (smart_format self) (diarize self)
    (endpointing_ms self) (utterance_end_ms self) (vad_events self) (Some l)
    (keyterms self) (diarize_model self).

Definition bool_param (value : bool) : string := if value then "true" else "false".

(** The bytes that need no escape. *)
Definition unreserved (b : Z) : bool :=
  ((65 <=? b) && (b <=? 90)) || ((97 <=? b) && (b <=? 122)) || ((48 <=? b) && (b <=? 57)) ||
  (b =? 45) || (b =? 95) || (b =? 46) || (b =? 126).

Definition hex_digit (d : Z) : ascii := val_byte (if d <? 10 then 48 + d else 55 + d).

Fixpoint percent_encode (value : string) : string :=
  match value with
  | EmptyString => EmptyString
  | String a value =>
      let b := byte_val a in
      if unreserved b then String a (percent_encode value)
      else String (val_byte 37) (String (hex_digit (b / 16)) (String (hex_digit (b mod 16))
             (percent_encode value)))
  end.

(** The pairs [to_query] collects, in the order it does. *)
Definition query_pairs (self : DeepgramStreamParams) : list (string * string) :=
  [("model", p_model self); ("encoding", p_encoding self); ("sample_rate", pretty (p_sample_rate self));
   ("channels", pretty (p_channels self)); ("interim_results", bool_param (interim_results self));
   ("punctuate", bool_param (punctuate self)); ("smart_format", bool_param (smart_format self))]%string
  ++ (if diarize self then [("diarize", "true")]%string else [])
  ++ [("endpointing", pretty (endpointing_ms self)); ("utterance_end_ms", pretty (utterance_end_ms self));
      ("vad_events", bool_param (vad_events self))]%string
  ++ (match p_language self with Some l => [("language"%string, l)] | None => [] end)
  ++ [("mip_opt_out", "true")]%string
  ++ ((fun k => ("keyterm"%string, k)) <$> keyterms self).

Definition encode_pair (kv : string * string) : string :=
  percent_encode kv.1 +:+ ("=" +:+ percent_encode kv.2).

Definition to_query (self : DeepgramStreamParams) : string := join "&" (encode_pair <$> query_pairs self).

(** ** Failure mapping *)

Record DeepgramErrorFrame := mkErrorFrame {
  ef_message_type : option string;
  ef_description : option string;
  ef_message : option string;
  ef_err_code : option string;
  ef_variant : option string;
}.

Definition is_error (self : DeepgramErrorFrame) : bool :=
  bool_decide (ef_message_type self = Some "Error"%string).

(** [str::split_once('-')]. *)
Fixpoint split_once (sep : ascii) (s : string) : option (string * string) :=
  match s with
  | EmptyString => None
  | String a s' =>
      if bool_decide (a = sep) then Some (EmptyString, s')
      else '(l, r) ← split_once sep s'; Some (String a l, r)
  end.

Fixpoint all_bytes (p : Z -> bool) (s : string) : bool :=
  match s with EmptyString => true | String a s => p (byte_val a) && all_bytes p s end.

Definition is_ascii_uppercase (b : Z) : bool := (65 <=? b) && (b <=? 90).
Definition is_ascii_digit (b : Z) : bool := (48 <=? b) && (b <=? 57).

Definition is_deepgram_code (token : string) : bool :=
  match split_once (val_byte 45) token with
  | None => false
  | Some (pre, digits) =>
      negb (str_is_empty pre) && (slen pre <=? 8) && all_bytes is_ascii_uppercase pre &&
      (slen digits =? 4) && all_bytes is_ascii_digit digits
  end.

(** Separators of free text: white space, comma, semicolon, quote. *)
Definition code_separator (c : Z) : bool := is_whitespace c || (c =? 44) || (c =? 59) || (c =? 34).
(** What is trimmed off a token: full stop, colon, parentheses, apostrophe. *)
Definition code_fringe (c : Z) : bool := (c =? 46) || (c =? 58) || (c =? 41) || (c =? 40) || (c =? 39).

Definition extract_deepgram_code (reason : string) : option string :=
  head (filter (fun t => is_deepgram_code t = true) (trim_matches code_fringe <$> split code_separator reason)).

Definition class_for_code (code : option string) : option SttErrorClass :=
  code ← code;
  '(pre, _) ← split_once (val_byte 45) code;
  if bool_decide (pre = "NET"%string) then Some Network
  else if bool_decide (pre = "DATA"%string) then Some AudioFormat else None.

Definition to_stt_error (self : DeepgramErrorFrame) : SttError :=
  let reason := join " " (omap (fun o => o)
    [ef_err_code self; ef_variant self; ef_message self; ef_description self]) in
  let cls := default Server (class_for_code (extract_deepgram_code reason)) in
  let msg := match ef_description self with
             | Some d => d
             | None => default (user_hint cls) (ef_message self)
             end in
  with_detail (stt_error_new cls PROVIDER msg) ("deepgram error frame: " +:+ reason).

Definition mentions_concurrency (body : string) : bool :=
  contains body "concurren" || contains body "simultaneous".

Definition mentions_audio_format (body : string) : bool :=
  contains body "encoding" || contains body "sample_rate" || contains body "sample rate" ||
  contains body "channels".

Definition parse_retry_after_seconds (value : string) : option Z := parse_u64 (trim value).

Section HttpStatus.
(** [serde_json::from_str::<Value>(body)] and [value.get(key).as_str()]. *)
Context (body_field : string -> string -> option string).

Definition first_field (body : string) : option string :=
  head (omap (fun key =>
    txt ← body_field body key;
    if str_is_empty (trim txt) then None else Some (trim txt))
    ["err_msg"; "message"; "description"; "error"; "reason"]%string).

Definition first_meaningful_line (body : string) : option string :=
  match first_field body with
  | Some t => Some t
  | None =>
      let trimmed := trim body in
      if str_is_empty trimmed then None else Some (utf8 (take 400 (chars trimmed)))
  end.

Definition http_class (status : Z) (lowercase : string) : SttErrorClass :=
  if status =? 400 then if mentions_audio_format lowercase then AudioFormat else BadRequest
  else if (status =? 401) || (status =? 403) then Auth
  else if status =? 402 then Quota
  else if status =? 429 then if mentions_concurrency lowercase then Concurrency else RateLimit
  else if existsb (Z.eqb status) [404; 405; 409; 413; 415; 422] then BadRequest
  else Server.

Definition map_http_status (status : Z) (retry_after : option string) (body : string) : SttError :=
  let cls := http_class status (to_ascii_lowercase body) in
  let msg := default (user_hint cls) (first_meaningful_line body) in
  let error := with_detail (stt_error_new cls PROVIDER msg)
                 ("deepgram handshake returned HTTP " +:+ pretty status) in
  match (r ← retry_after; parse_retry_after_seconds r) with
  | Some seconds => with_retry_after_ms error (sat_mul64 seconds 1000)
  | None => error
  end.

End HttpStatus.

Definition close_error (cls : SttErrorClass) (code : Z) (reason : string) : SttError :=
  let msg := if str_is_empty (trim reason) then user_hint cls else trim reason in
  with_detail (stt_error_new cls PROVIDER msg)
    ("deepgram closed the socket with " +:+ (pretty code +:+ (": " +:+ reason))).

Definition map_close (code : Z) (reason : string) : option SttError :=
  match (c ← extract_deepgram_code reason; class_for_code (Some c)) with
  | Some cls => Some (close_error cls code reason)
  | None =>
      if (code =? 1000) || (code =? 1001) then None
      else
        let cls :=
          if existsb (Z.eqb code) [1002; 1003; 1007; 1008; 1009; 1010] then BadRequest
          else if code =? 1011 then Server
          else if existsb (Z.eqb code) [1012; 1006; 1005] then Network
          else if code =? 1013 then RateLimit
          else if (4000 <=? code) && (code <=? 4999) then Server
          else Network in
        Some (close_error cls code reason)
  end.

(** ** What the provider reads back *)

(** The reader's side of the query string: split at ampersands, then at the first
    equals sign, and decode. *)
Definition hex_value (a : ascii) : Z :=
  let v := byte_val a in if v <? 58 then v - 48 else v - 55.

Fixpoint percent_decode (s : string) : string :=
  match s with
  | EmptyString => EmptyString
  | String a s1 =>
      if byte_val a =? 37 then
        match s1 with
        | String h (String l s3) => String (val_byte (hex_value h * 16 + hex_value l)) (percent_decode s3)
        | _ => EmptyString
        end
      else String a (percent_decode s1)
  end.

Fixpoint split_bytes (sep : ascii) (s : string) : list string :=
  match s with
  | EmptyString => [EmptyString]
  | String a s =>
      if bool_decide (a = sep) then EmptyString :: split_bytes sep s
      else match split_bytes sep s with
           | p :: ps => String a p :: ps
           | [] => [String a EmptyString]
           end
  end.

Definition parse_query (q : string) : option (list (string * string)) :=
  mapM (fun p => '(k, v) ← split_once (val_byte 61) p; Some (percent_decode k, percent_decode v))
    (split_bytes (val_byte 38) q).

Lemma val_byte_inj a b : 0 <= a < 256 -> 0 <= b < 256 -> val_byte a = val_byte b -> a = b.
Proof. intros Ha Hb E. rewrite <-(byte_val_byte a), <-(byte_val_byte b) by done. by rewrite E. Qed.

Lemma hex_value_digit d : 0 <= d < 16 -> hex_value (hex_digit d) = d.
Proof.
  intros Hd. unfold hex_value, hex_digit. destruct (Z.ltb_spec d 10).
  - rewrite byte_val_byte by lia. rewrite (proj2 (Z.ltb_lt _ _)) by lia. lia.
  - rewrite byte_val_byte by lia. rewrite (proj2 (Z.ltb_ge _ _)) by lia. lia.
Qed.

Lemma percent_roundtrip s : percent_decode (percent_encode s) = s.
Proof.
  induction s as [|a s IH]; [done|]. cbn [percent_encode]. pose proof (byte_val_range a).
  destruct (unreserved (byte_val a)) eqn:E.
  - cbn [percent_decode]. destruct (Z.eqb_spec (byte_val a) 37) as [H37|]; [|by rewrite IH].
    rewrite H37 in E. done.
  - cbn [percent_decode]. rewrite byte_val_byte by lia. cbn [Z.eqb Pos.eqb].
    rewrite !hex_value_digit by (Z.to_euclidean_division_equations; lia). rewrite IH.
    f_equal. etrans; [|apply (val_byte_val a)]. f_equal. Z.to_euclidean_division_equations; lia.
Qed.

(** No byte of an encoded value is a separator. *)
Definition free_of (sep : Z) (s : string) : Prop := all_bytes (fun b => negb (b =? sep)) s = true.

Lemma free_of_cons sep a s : free_of sep (String a s) <-> byte_val a <> sep /\ free_of sep s.
Proof. unfold free_of. simpl. rewrite andb_true_iff, negb_true_iff, Z.eqb_neq. done. Qed.

Lemma free_of_app sep s t : free_of sep (s +:+ t) <-> free_of sep s /\ free_of sep t.
Proof.
  induction s as [|a s IH]; [by split; [|intros [_ ?]]|].
  change (String a s +:+ t) with (String a (s +:+ t)). rewrite !free_of_cons, IH. tauto.
Qed.

Lemma hex_digit_free sep d : 0 <= d < 16 -> ~ (48 <= sep <= 57 \/ 65 <= sep <= 70) -> byte_val (hex_digit d) <> sep.
Proof. intros. unfold hex_digit. destruct (Z.ltb_spec d 10); rewrite byte_val_byte; lia. Qed.

Lemma percent_encode_free sep s :
  unreserved sep = false -> sep <> 37 -> ~ (48 <= sep <= 57 \/ 65 <= sep <= 70) -> free_of sep (percent_encode s).
Proof.
  intros Hu H37 Hr. induction s as [|a s IH]; [done|]. cbn [percent_encode].
  pose proof (byte_val_range a). destruct (unreserved (byte_val a)) eqn:E.
  - apply free_of_cons. split; [congruence|done].
  - rewrite !free_of_cons, byte_val_byte by lia.
    split_and!; [done|apply hex_digit_free..|done]; try done; Z.to_euclidean_division_equations; lia.
Qed.

Lemma split_once_free sep a b :
  0 <= sep < 256 -> free_of sep a ->
  split_once (val_byte sep) (a +:+ String (val_byte sep) b) = Some (a, b).
Proof.
  intros Hs. induction a as [|x a IH]; intros Hf.
  - change ("" +:+ ?y) with y. simpl. by rewrite bool_decide_true.
  - apply free_of_cons in Hf as [Hx Hf].
    change (String x a +:+ ?y) with (String x (a +:+ y)). cbn [split_once].
    rewrite bool_decide_false.
    + by rewrite (IH Hf).
    + intros ->. by rewrite byte_val_byte in Hx.
Qed.

Lemma split_bytes_free sep p : 0 <= sep < 256 -> free_of sep p -> split_bytes (val_byte sep) p = [p].
Proof.
  intros Hs. induction p as [|x p IH]; intros Hf; [done|]. apply free_of_cons in Hf as [Hx Hf].
  cbn [split_bytes]. rewrite bool_decide_false, (IH Hf); [done|].
  intros ->. by rewrite byte_val_byte in Hx.
Qed.

Lemma split_bytes_cons sep p s :
  0 <= sep < 256 -> free_of sep p ->
  split_bytes (val_byte sep) (p +:+ String (val_byte sep) s) = p :: split_bytes (val_byte sep) s.
Proof.
  intros Hs. induction p as [|x p IH]; intros Hf.
  - change ("" +:+ ?y) with y. cbn [split_bytes]. by rewrite bool_decide_true.
  - apply free_of_cons in Hf as [Hx Hf].
    change (String x p +:+ ?y) with (String x (p +:+ y)). cbn [split_bytes].
    rewrite bool_decide_false, (IH Hf); [done|]. intros ->. by rewrite byte_val_byte in Hx.
Qed.

Lemma split_bytes_join sep l :
  0 <= sep < 256 -> l <> [] -> Forall (free_of sep) l ->
  split_bytes (val_byte sep) (join (String (val_byte sep) EmptyString) l) = l.
Proof.
  intros Hs Hne Hl. induction Hl as [|p l Hp Hl IH]; [done|]. destruct l as [|q l].
  - by apply split_bytes_free.
  - change (join (String (val_byte sep) EmptyString) (p :: q :: l))
      with (p +:+ String (val_byte sep) (join (String (val_byte sep) EmptyString) (q :: l))).
    rewrite split_bytes_cons by done. f_equal. by apply IH.
Qed.

Lemma encode_pair_free kv : free_of 38 (encode_pair kv).
Proof.
  unfold encode_pair. rewrite free_of_app. split; [apply percent_encode_free; [reflexivity|lia|lia]|].
  change ("=" +:+ ?s) with (String (val_byte 61) s). apply free_of_cons.
  split; [done|]. apply percent_encode_free; [reflexivity|lia|lia].
Qed.

Lemma decode_pair kv :
  ('(k, v) ← split_once (val_byte 61) (encode_pair kv); Some (percent_decode k, percent_decode v)) = Some kv.
Proof.
  unfold encode_pair. change ("=" +:+ ?s) with (String (val_byte 61) s).
  rewrite split_once_free; [|lia|apply percent_encode_free; [reflexivity|lia|lia]].
  cbn [mbind option_bind]. rewrite !percent_roundtrip. by destruct kv.
Qed.

Lemma parse_pairs kvs :
  kvs <> [] -> parse_query (join "&" (encode_pair <$> kvs)) = Some kvs.
Proof.
  intros Hne. unfold parse_query. change "&"%string with (String (val_byte 38) EmptyString).
  rewrite split_bytes_join; [|lia|by destruct kvs|].
  - clear Hne. induction kvs as [|kv kvs IH]; [done|]. rewrite fmap_cons. cbn [mapM].
    rewrite decode_pair. cbn [mbind option_bind]. by rewrite IH.
  - apply Forall_fmap, Forall_true. intros kv. apply encode_pair_free.
Qed.

(** Whatever the settings, the model name, the language and the key terms hold,
    the provider reads the query string back as exactly the parameters meant, in
    order: no value can end a pair early or smuggle another in.  The opt-out from
    model training is among them, once, and [diarize_model] never is. *)
Theorem query_reads_back (p : DeepgramStreamParams) :
  parse_query (to_query p) = Some (query_pairs p) /\
  filter (fun kv => kv.1 = "mip_opt_out"%string) (query_pairs p) = [("mip_opt_out", "true")]%string /\
  filter (fun kv => kv.1 = "diarize_model"%string) (query_pairs p) = [].
Proof.
  split; [by apply parse_pairs|].
  assert (Hk : forall key, key <> "keyterm"%string ->
    filter (fun kv => kv.1 = key) ((fun k => ("keyterm"%string, k)) <$> keyterms p) = []).
  { intros key Hne. apply filter_all_not. intros kv (k & -> & _)%list_elem_of_fmap. simpl. congruence. }
  unfold query_pairs.
  split; rewrite !filter_app, Hk by done; destruct (diarize p), (p_language p); reflexivity.
Qed.
