(* ===== verification/DeepgramStream.v ===== *)
(** * fotw-stt: the streaming transport

    Models [crates/fotw-stt/src/deepgram_stream.rs]: the handle the application
    holds, and the driver task behind it that owns the socket, the keepalive, the
    replay ring and the reconnect loop.  Each [await] of the driver is a point
    where the outside world moves next, so the task is a step function on
    stimuli: what the socket, the timers and the application do, each with the
    instant it happens and, where the code sends, how the send went.  What the
    driver does is a list of outputs.  [Discard] is not an action of the code: it
    marks the segments it decides not to publish, so that theorems can speak of
    them. *)

From S2P Require Import Prelude Text Float32 Float64 Bytes SttTypes Backoff PcmRing.
From S2P Require Import SttClock SttStore Dedupe Deepgram DeepgramWire.

Local Open Scope Z_scope.

#[global] Arguments trim_leading_tokens : simpl never.
#[global] Arguments overlap_with_text : simpl never.
#[global] Arguments push_text : simpl never.
#[global] Arguments replay_from : simpl never.
#[global] Arguments PcmRing.push : simpl never.

(** ** Configuration *)

Record DeepgramStreamConfig := mkStreamConfig {
  sc_endpoint : DeepgramEndpoint;
  sc_api_key : string;
  sc_params : DeepgramStreamParams;
  sc_normalizer : DeepgramConfig;
  sc_keepalive : Duration;
  sc_replay_window_ms : Z;
  sc_backoff : BackoffPolicy;
  sc_tail_tokens : nat;
  sc_session_offset_ms : Z;
  confirmed_finals_only : bool;
}.

Definition stream_config_new (api_key : string) (normalizer : DeepgramConfig) : DeepgramStreamConfig :=
  mkStreamConfig production api_key (with_diarize params_spec (dc_diarization_enabled normalizer))
    normalizer (dur_from_millis DEFAULT_KEEPALIVE_MS) RING_WINDOW_MS backoff_spec DEFAULT_TAIL_TOKENS
    0 false.

Definition with_confirmed_finals (c : DeepgramStreamConfig) : DeepgramStreamConfig :=
  mkStreamConfig (sc_endpoint c) (sc_api_key c) (sc_params c) (sc_normalizer c) (sc_keepalive c)
    (sc_replay_window_ms c) (sc_backoff c) (sc_tail_tokens c) (sc_session_offset_ms c) true.

Definition with_session_offset_ms (c : DeepgramStreamConfig) (ms : Z) : DeepgramStreamConfig :=
  mkStreamConfig (sc_endpoint c) (sc_api_key c) (sc_params c) (sc_normalizer c) (sc_keepalive c)
    (sc_replay_window_ms c) (sc_backoff c) (sc_tail_tokens c) ms (confirmed_finals_only c).

Definition with_endpoint (c : DeepgramStreamConfig) (e : DeepgramEndpoint) : DeepgramStreamConfig :=
  mkStreamConfig e (sc_api_key c) (sc_params c) (sc_normalizer c) (sc_keepalive c)
    (sc_replay_window_ms c) (sc_backoff c) (sc_tail_tokens c) (sc_session_offset_ms c)
    (confirmed_finals_only c).

Definition with_keepalive (c : DeepgramStreamConfig) (k : Duration) : DeepgramStreamConfig :=
  mkStreamConfig (sc_endpoint c) (sc_api_key c) (sc_params c) (sc_normalizer c) k
    (sc_replay_window_ms c) (sc_backoff c) (sc_tail_tokens c) (sc_session_offset_ms c)
    (confirmed_finals_only c).

Definition with_backoff (c : DeepgramStreamConfig) (b : BackoffPolicy) : DeepgramStreamConfig :=
  mkStreamConfig (sc_endpoint c) (sc_api_key c) (sc_params c) (sc_normalizer c) (sc_keepalive c)
    (sc_replay_window_ms c) b (sc_tail_tokens c) (sc_session_offset_ms c) (confirmed_finals_only c).

Definition with_params (c : DeepgramStreamConfig) (p : DeepgramStreamParams) : DeepgramStreamConfig :=
  mkStreamConfig (sc_endpoint c) (sc_api_key c) p (sc_normalizer c) (sc_keepalive c)
    (sc_replay_window_ms c) (sc_backoff c) (sc_tail_tokens c) (sc_session_offset_ms c)
    (confirmed_finals_only c).

Definition with_replay_window_ms (c : DeepgramStreamConfig) (ms : Z) : DeepgramStreamConfig :=
  mkStreamConfig (sc_endpoint c) (sc_api_key c) (sc_params c) (sc_normalizer c) (sc_keepalive c)
    ms (sc_backoff c) (sc_tail_tokens c) (sc_session_offset_ms c) (confirmed_finals_only c).

(** ** Failures of the transport *)

Inductive WsError :=
| WsHttp (status : Z) (retry_after body : option string)
| WsConnectionClosed
| WsAlreadyClosed
| WsIo (source : string)
| WsTls (source : string)
| WsProtocol (source : string)
| WsWriteBufferFull
| WsCapacity (source : string)
| WsUrl (source : string)
| WsHttpFormat (source : string)
| WsUtf8 (source : string)
| WsAttackAttempt.

Definition map_transport_error (body_field : string -> string -> option string) (error : WsError) : SttError :=
  match error with
  | WsHttp status retry_after body => map_http_status body_field status retry_after (default EmptyString body)
  | WsConnectionClosed | WsAlreadyClosed =>
      stt_error_new Network PROVIDER "the transcription socket is closed"
  | WsIo source => with_detail (stt_error_new Network PROVIDER (user_hint Network)) source
  | WsTls source =>
      with_detail (stt_error_new Network PROVIDER "the TLS handshake with the transcription provider failed") source
  | WsProtocol source =>
      with_detail (stt_error_new Network PROVIDER "the transcription socket dropped") source
  | WsWriteBufferFull =>
      stt_error_new Network PROVIDER "the transcription socket could not keep up with the audio"
  | WsCapacity source =>
      with_detail (stt_error_new BadRequest PROVIDER "a transcription frame exceeded the protocol limits") source
  | WsUrl source =>
      with_detail (stt_error_new BadRequest PROVIDER "the transcription endpoint URL is invalid") source
  | WsHttpFormat source =>
      with_detail (stt_error_new BadRequest PROVIDER "the transcription handshake was malformed") source
  | WsUtf8 source =>
      with_detail (stt_error_new Server PROVIDER "the provider sent a text frame that was not valid UTF-8") source
  | WsAttackAttempt =>
      stt_error_new Server PROVIDER "the transcription socket sent a frame that looked like an attack"
  end.

Definition driver_gone (operation : string) : SttError :=
  with_detail (stt_error_new Network PROVIDER "the transcription stream is no longer running")
    (operation +:+ " was issued after the driver exited").

(** How an attempt to connect ends. *)
Inductive ConnectOutcome :=
| BadUrl (detail : string)
| BadCredential (detail : string)
| ConnectFailed (error : WsError)
| ConnectOk.

Definition connect_result (body_field : string -> string -> option string) (o : ConnectOutcome)
  : result unit SttError :=
  match o with
  | BadUrl d => Err (with_detail (stt_error_new BadRequest PROVIDER "could not build the Deepgram request") d)
  | BadCredential d =>
      Err (with_detail (stt_error_new Auth PROVIDER "the API key cannot be sent in an HTTP header") d)
  | ConnectFailed e => Err (map_transport_error body_field e)
  | ConnectOk => Ok tt
  end.

(** ** The driver *)

(** What the application asks; a number stands for the acknowledgement channel. *)
Inductive Command :=
| Audio (samples : list Z)
| Flush (ack : Z)
| Close (ack : Z).

(** Messages on the socket's read half; [End] is the stream ending with no close. *)
Inductive Incoming :=
| TextMessage (raw : string)
| CloseMessage (frame : option (Z * string))
| OtherMessage
| ReadError (error : WsError)
| EndOfSocket.

Inductive WsFrame := BinaryFrame (bs : bytes) | TextFrame (txt : string) | CloseFrame.

Inductive Output :=
| Dial (url : string)
| Emit (event : StreamEvent)
| Send (frame : WsFrame)
| AckFlush (ack : Z)
| AckClose (ack : Z)
| Discard (segment : TranscriptSegment).

Record Driver (F J : Type) := mkDriver {
  d_config : DeepgramStreamConfig;
  d_normalizer : DeepgramNormalizer F;
  d_ring : PcmRing;
  d_tail : TranscriptTail;
  d_budget : ReconnectBudget;
  d_jitter : J;
  last_final_end_ms : Z;
  dedupe_armed : bool;
  d_started : Z;
  pending_close : option Z;
}.
Arguments mkDriver {F J}.
Arguments d_config {F J}.
Arguments d_normalizer {F J}.
Arguments d_ring {F J}.
Arguments d_tail {F J}.
Arguments d_budget {F J}.
Arguments d_jitter {F J}.
Arguments last_final_end_ms {F J}.
Arguments dedupe_armed {F J}.
Arguments d_started {F J}.
Arguments pending_close {F J}.

(** Where the driver is waiting. *)
Inductive Phase :=
| Dialing (first_connection : bool)
| Pumping (last_audio_at : Z)
| BackingOff (deadline : option Z)
| Ended.

Section Driver.
Context `{UnicodeTables} `{SegmentIdFactory F} `{Jitter J}.
(** [serde_json] on the two frame types and on an error body; the latest instant
    the platform's clock can represent. *)
Context (parse_error_frame : string -> option DeepgramErrorFrame).
Context (parse_result : string -> result DeepgramResult string).
Context (body_field : string -> string -> option string).
Context (instant_max : Z).
Implicit Types (self : Driver F J).

Definition set_normalizer self (n : DeepgramNormalizer F) : Driver F J :=
  mkDriver (d_config self) n (d_ring self) (d_tail self) (d_budget self) (d_jitter self)
    (last_final_end_ms self) (dedupe_armed self) (d_started self) (pending_close self).
Definition set_ring self (r : PcmRing) : Driver F J :=
  mkDriver (d_config self) (d_normalizer self) r (d_tail self) (d_budget self) (d_jitter self)
    (last_final_end_ms self) (dedupe_armed self) (d_started self) (pending_close self).
Definition set_tail self (t : TranscriptTail) : Driver F J :=
  mkDriver (d_config self) (d_normalizer self) (d_ring self) t (d_budget self) (d_jitter self)
    (last_final_end_ms self) (dedupe_armed self) (d_started self) (pending_close self).
Definition set_budget self (b : ReconnectBudget) : Driver F J :=
  mkDriver (d_config self) (d_normalizer self) (d_ring self) (d_tail self) b (d_jitter self)
    (last_final_end_ms self) (dedupe_armed self) (d_started self) (pending_close self).
Definition set_jitter self (j : J) : Driver F J :=
  mkDriver (d_config self) (d_normalizer self) (d_ring self) (d_tail self) (d_budget self) j
    (last_final_end_ms self) (dedupe_armed self) (d_started self) (pending_close self).
Definition set_last_final self (ms : Z) : Driver F J :=
  mkDriver (d_config self) (d_normalizer self) (d_ring self) (d_tail self) (d_budget self) (d_jitter self)
    ms (dedupe_armed self) (d_started self) (pending_close self).
Definition set_armed self (b : bool) : Driver F J :=
  mkDriver (d_config self) (d_normalizer self) (d_ring self) (d_tail self) (d_budget self) (d_jitter self)
    (last_final_end_ms self) b (d_started self) (pending_close self).
Definition set_pending_close self (a : option Z) : Driver F J :=
  mkDriver (d_config self) (d_normalizer self) (d_ring self) (d_tail self) (d_budget self) (d_jitter self)
    (last_final_end_ms self) (dedupe_armed self) (d_started self) a.

Definition driver_new (config : DeepgramStreamConfig) (factory : F) (jitter : J) (now : Z) : Driver F J :=
  mkDriver config (normalizer_anchored_at (sc_normalizer config) factory (sc_session_offset_ms config))
    (ring_new (p_sample_rate (sc_params config)) (sc_replay_window_ms config))
    (tail_new (sc_tail_tokens config)) (budget (sc_backoff config)) jitter 0 false now None.

Definition leg_ms self (session_ms : Z) : Z := sat_sub session_ms (sc_session_offset_ms (d_config self)).

Definition commit_final self (segment : TranscriptSegment) : Driver F J * list Output :=
  (set_tail self (push_text (d_tail self) (text segment)), [Emit (Final segment)]).

(** The published form of the tail of [emit_segment]. *)
Definition publish self (segment : TranscriptSegment) : Driver F J * list Output :=
  if is_final segment then
    commit_final (set_last_final self (Z.max (last_final_end_ms self) (end_ms segment))) segment
  else (self, [Emit (Partial segment)]).

Definition emit_segment self (segment : TranscriptSegment) : Driver F J * list Output :=
  if dedupe_armed self then
    if negb (is_final segment) then (self, [])
    else
      let self := set_armed self false in
      match overlap_with_text (d_tail self) (text segment) with
      | O => publish self segment
      | overlap =>
          let e := end_ms segment in
          let '(trimmed, kept) := trim_leading_tokens segment overlap in
          if kept then publish self trimmed
          else (set_last_final self (Z.max (last_final_end_ms self) e), [Discard segment])
      end
  else publish self segment.

(** [None]: the normalizer panicked and took the task with it. *)
Definition handle_text self (raw : string) : option (Driver F J * list Output) :=
  match (f ← parse_error_frame raw; if is_error f then Some f else None) with
  | Some frame => Some (self, [Emit (ErrorEvent (to_stt_error frame))])
  | None =>
      '(n, out) ← push_json parse_result (d_normalizer self) raw;
      let self := set_normalizer self n in
      match out with
      | Ok (Some segment) => Some (emit_segment self segment)
      | Ok None => Some (self, [])
      | Err error => Some (self, [Emit (ErrorEvent error)])
      end
  end.

(** The dangling partial of a dead connection, deduplicated and published. *)
Definition publish_dangling self (dangling : option TranscriptSegment) : Driver F J * list Output :=
  match dangling with
  | None => (self, [])
  | Some d =>
      if confirmed_finals_only (d_config self) then (self, [Discard d])
      else match overlap_with_text (d_tail self) (text d) with
           | O => commit_final self d
           | overlap =>
               let '(trimmed, kept) := trim_leading_tokens d overlap in
               if kept then commit_final self trimmed else (self, [Discard d])
           end
  end.

Definition evicted_error (ms : Z) : SttError :=
  not_retryable (stt_error_new Network PROVIDER "cloud replay cannot cover all pending audio")
    (pretty ms +:+ " ms were evicted; durable source replay is required").

Definition outlived_error (ms window : Z) : SttError :=
  with_detail
    (stt_error_new Network PROVIDER "the outage outlived the replay buffer; some audio was not transcribed")
    (pretty ms +:+ (" ms had already been evicted from the " +:+ (pretty window +:+ " ms replay ring"))).

(** [pump] up to its loop: the replay, and the error that ends the connection. *)
Definition pump_enter self (first_connection : bool) (replay_sent : option WsError)
  : Driver F J * list Output * option SttError :=
  let replay := replay_from (d_ring self) (leg_ms self (last_final_end_ms self)) in
  let '(self, outs, refused) :=
    if first_connection then (self, [], None)
    else
      let '(n, dangling) := reconnected_at (d_normalizer self) (ra_start_ms replay) in
      let '(self, outs) := publish_dangling (set_normalizer self n) dangling in
      let self := set_armed self (negb (confirmed_finals_only (d_config self))) in
      if lost_audio replay then
        if confirmed_finals_only (d_config self) then (self, outs, Some (evicted_error (truncated_ms replay)))
        else (self, outs ++ [Emit (ErrorEvent (outlived_error (truncated_ms replay)
                                                 (sc_replay_window_ms (d_config self))))], None)
      else (self, outs, None) in
  match refused with
  | Some error => (self, outs, Some error)
  | None =>
      if replay_is_empty replay then (self, outs, None)
      else
        let frame := Send (BinaryFrame (to_linear16_le (ra_samples replay))) in
        match replay_sent with
        | None => (self, outs ++ [frame], None)
        | Some error => (self, outs, Some (map_transport_error body_field error))
        end
  end.

(** The end of [run]: settle the open utterance, say so, acknowledge. *)
Definition run_exit self : Driver F J * list Output :=
  let '(n, dangling) := finish (d_normalizer self) in
  let self := set_normalizer self n in
  let '(self, outs) :=
    match dangling with
    | None => (self, [])
    | Some d => if confirmed_finals_only (d_config self) then (self, [Discard d]) else commit_final self d
    end in
  (set_pending_close self None,
   outs ++ [Emit (StateEvent Closed)] ++
   match pending_close self with Some a => [AckClose a] | None => [] end).

Definition elapsed_ms self (now : Z) : Z := ((now - d_started self) / 1000000) mod 2 ^ 64.

Definition gave_up_error (p : BackoffPolicy) : SttError :=
  not_retryable
    (stt_error_new Network PROVIDER
       "the transcription connection kept dropping; giving up on this provider")
    (pretty (bp_max_attempts p) +:+ (" reconnect attempts inside " +:+ (pretty (bp_window_ms p) +:+ " ms"))).

(** [backoff_then_retry] up to the wait: where it goes on from. *)
Definition backoff_then_retry self (now : Z) (retry_after : option Z) : Driver F J * list Output * Phase :=
  let '(b, granted) := try_record (d_budget self) (elapsed_ms self now) in
  let self := set_budget self b in
  match granted with
  | None =>
      let '(self, outs) := run_exit self in
      (self, Emit (ErrorEvent (gave_up_error (sc_backoff (d_config self)))) :: outs, Ended)
  | Some attempt =>
      let '(unit, j) := unit_draw (d_jitter self) in
      let self := set_jitter self j in
      let delay := dur_from_millis (Z.max (delay_ms (sc_backoff (d_config self)) attempt unit)
                                          (default 0 retry_after)) in
      let deadline := if now + delay <=? instant_max then Some (now + delay) else None in
      (self, [Emit (StateEvent Reconnecting)], BackingOff deadline)
  end.

(** [run] after a failed connection: report it, then stop or back off. *)
Definition connection_failed self (now : Z) (error : SttError) : Driver F J * list Output * Phase :=
  if retryable error then
    let '(self, outs, phase) := backoff_then_retry self now (retry_after_ms error) in
    (self, Emit (ErrorEvent error) :: outs, phase)
  else
    let '(self, outs) := run_exit self in (self, Emit (ErrorEvent error) :: outs, Ended).

Definition stop self (outs : list Output) : Driver F J * list Output * Phase :=
  let '(self, more) := run_exit self in (self, outs ++ more, Ended).

Definition fail_with self (now : Z) (outs : list Output) (error : SttError)
  : Driver F J * list Output * Phase :=
  let '(self, more, phase) := connection_failed self now error in (self, outs ++ more, phase).

(** One command taken off the channel while connected. *)
Definition pump_command self (now last_audio_at : Z) (c : Command) (sent : option WsError)
  : Driver F J * list Output * Phase :=
  match c with
  | Audio samples =>
      let self := set_ring self (push (d_ring self) samples).1 in
      match sent with
      | None => (self, [Send (BinaryFrame (to_linear16_le samples))], Pumping now)
      | Some e => fail_with self now [] (map_transport_error body_field e)
      end
  | Flush ack =>
      match sent with
      | None => (self, [Send (TextFrame FINALIZE_FRAME); AckFlush ack], Pumping last_audio_at)
      | Some e => fail_with self now [AckFlush ack] (map_transport_error body_field e)
      end
  | Close ack =>
      let self := set_pending_close self (Some ack) in
      stop self (match sent with
                 | None => [Send (TextFrame CLOSE_STREAM_FRAME); Send CloseFrame]
                 | Some _ => []
                 end)
  end.

(** One message from the socket. *)
Definition pump_message self (now last_audio_at : Z) (m : Incoming) : Driver F J * list Output * Phase :=
  match m with
  | TextMessage raw =>
      match handle_text self raw with
      | Some (self, outs) => (self, outs, Pumping last_audio_at)
      | None => (self, [], Ended)
      end
  | CloseMessage frame =>
      let '(code, reason) := default (1005, EmptyString) frame in
      fail_with self now []
        (match map_close code reason with
         | Some e => e
         | None => stt_error_new SessionLimit PROVIDER "the provider ended the transcription session"
         end)
  | OtherMessage => (self, [], Pumping last_audio_at)
  | ReadError e => fail_with self now [] (map_transport_error body_field e)
  | EndOfSocket =>
      fail_with self now []
        (with_detail (stt_error_new Network PROVIDER "the transcription socket ended without closing")
           "the peer went away without a close frame")
  end.

Definition pump_keepalive self (now last_audio_at : Z) (sent : option WsError)
  : Driver F J * list Output * Phase :=
  if sc_keepalive (d_config self) <=? now - last_audio_at then
    match sent with
    | None => (self, [Send (TextFrame KEEPALIVE_FRAME)], Pumping last_audio_at)
    | Some e => fail_with self now [] (map_transport_error body_field e)
    end
  else (self, [], Pumping last_audio_at).

(** One command taken off the channel while waiting out a backoff. *)
Definition drain_command self (deadline : option Z) (c : Command) : Driver F J * list Output * Phase :=
  match c with
  | Audio samples => (set_ring self (push (d_ring self) samples).1, [], BackingOff deadline)
  | Flush ack => (self, [AckFlush ack], BackingOff deadline)
  | Close ack => stop (set_pending_close self (Some ack)) []
  end.

Definition connect self (now : Z) (first_connection : bool) (o : ConnectOutcome)
    (replay_sent : option WsError) : Driver F J * list Output * Phase :=
  let dial := Dial (url_with (sc_endpoint (d_config self)) (to_query (sc_params (d_config self)))) in
  match connect_result body_field o with
  | Err error => fail_with self now [dial] error
  | Ok _ =>
      let '(self, outs, failed) := pump_enter self first_connection replay_sent in
      let outs := dial :: Emit (StateEvent Open) :: outs in
      match failed with
      | None => (self, outs, Pumping now)
      | Some error => fail_with self now outs error
      end
  end.

(** ** The handle and the task together *)

Record Stream := mkStream {
  st_driver : Driver F J;
  st_phase : Phase;
  st_queue : list Command;
  st_closed : bool;
  st_pending : Z;
  st_handle_dropped : bool;
}.

Definition samples_of (c : Command) : list Z := match c with Audio s => s | _ => [] end.

(** Dropping commands releases the audio they hold. *)
Definition release (pending : Z) (cs : list Command) : Z :=
  pending - zsum ((fun c => zlen (samples_of c)) <$> cs).

(** The task's next state; when it is over its end of the channel is dropped. *)
Definition settle (st : Stream) (queue dropped : list Command) (d : Driver F J) (phase : Phase) : Stream :=
  match phase with
  | Ended => mkStream d Ended [] (st_closed st) (release (st_pending st) (dropped ++ queue)) (st_handle_dropped st)
  | _ => mkStream d phase queue (st_closed st) (release (st_pending st) dropped) (st_handle_dropped st)
  end.

Definition open_with_jitter (config : DeepgramStreamConfig) (factory : F) (jitter : J) (now : Z)
  : Stream * list Output :=
  (mkStream (driver_new config factory jitter now) (Dialing true) [] false 0 false,
   [Emit (StateEvent Connecting)]).

Definition task_over (st : Stream) : bool := match st_phase st with Ended => true | _ => false end.

Definition enqueue (st : Stream) (c : Command) (pending : Z) : Stream :=
  mkStream (st_driver st) (st_phase st) (st_queue st ++ [c]) (st_closed st) pending (st_handle_dropped st).

Definition write_bounded (st : Stream) (pcm : list Z) (maximum : Z) : Stream * bool :=
  if st_closed st || task_over st then (st, false)
  else match pcm with
  | [] => (st, true)
  | _ =>
      match checked_add64 (st_pending st) (zlen pcm) with
      | Some next => if next <=? maximum then (enqueue st (Audio pcm) next, true) else (st, false)
      | None => (st, false)
      end
  end.

Definition write (st : Stream) (pcm : list Z) : Stream := (write_bounded st pcm u64_max).1.

(** [Some] once the call has returned; [None] while it awaits its acknowledgement. *)
Definition flush (st : Stream) (ack : Z) : Stream * option (result unit SttError) :=
  if st_closed st then (st, Some (Ok tt))
  else if task_over st then (st, Some (Err (driver_gone "flush")))
  else (enqueue st (Flush ack) (st_pending st), None).

Definition set_closed (st : Stream) : Stream :=
  mkStream (st_driver st) (st_phase st) (st_queue st) true (st_pending st) (st_handle_dropped st).

Definition close (st : Stream) (ack : Z) : Stream * option (result unit SttError) :=
  if st_closed st then (st, Some (Ok tt))
  else
    let st := set_closed st in
    if task_over st then (st, Some (Ok tt)) else (enqueue st (Close ack) (st_pending st), None).

Definition abort_stream (st : Stream) : Stream :=
  settle (set_closed st) (st_queue st) [] (st_driver st) Ended.

Definition drop_handle (st : Stream) : Stream :=
  mkStream (st_driver st) (st_phase st) (st_queue st) (st_closed st) (st_pending st) true.

(** What moves the stream: the application, the network, the timers. *)
Inductive Stimulus :=
| WriteCall (pcm : list Z) (maximum : Z)
| FlushCall (ack : Z)
| CloseCall (ack : Z)
| AbortCall
| DropHandle
| ConnectEnds (o : ConnectOutcome) (replay_sent : option WsError)
| RecvCommand (sent : option WsError)
| SocketMessage (m : Incoming)
| KeepaliveTick (sent : option WsError)
| DeadlineElapsed.

Definition settle_with (st : Stream) (queue dropped : list Command)
    (r : Driver F J * list Output * Phase) : Stream * list Output :=
  let '(d, outs, phase) := r in (settle st queue dropped d phase, outs).

(** The [select!] arms and the control flow of [run]; a stimulus the task is not
    waiting for is left where it is. *)
Definition step (st : Stream) (i : Z * Stimulus) : Stream * list Output :=
  let '(now, stimulus) := i in
  let d := st_driver st in
  match stimulus, st_phase st with
  | WriteCall pcm maximum, _ => ((write_bounded st pcm maximum).1, [])
  | FlushCall ack, _ => ((flush st ack).1, [])
  | CloseCall ack, _ => ((close st ack).1, [])
  | AbortCall, _ => (abort_stream st, [])
  | DropHandle, _ => (drop_handle st, [])
  | ConnectEnds o sent, Dialing first => settle_with st (st_queue st) [] (connect d now first o sent)
  | RecvCommand sent, Pumping last_audio_at =>
      match st_queue st with
      | c :: queue => settle_with st queue [c] (pump_command d now last_audio_at c sent)
      | [] => if st_handle_dropped st then settle_with st [] [] (stop d []) else (st, [])
      end
  | RecvCommand _, BackingOff deadline =>
      match st_queue st with
      | c :: queue => settle_with st queue [c] (drain_command d deadline c)
      | [] => if st_handle_dropped st then settle_with st [] [] (stop d []) else (st, [])
      end
  | SocketMessage m, Pumping last_audio_at =>
      settle_with st (st_queue st) [] (pump_message d now last_audio_at m)
  | KeepaliveTick sent, Pumping last_audio_at =>
      settle_with st (st_queue st) [] (pump_keepalive d now last_audio_at sent)
  | DeadlineElapsed, BackingOff (Some deadline) =>
      if deadline <=? now then settle_with st (st_queue st) [] (d, [], Dialing false) else (st, [])
  | _, _ => (st, [])
  end.

End Driver.

Arguments Stream : clear implicits.
Arguments mkStream {F J}.
Arguments st_driver {F J}.
Arguments st_phase {F J}.
Arguments st_queue {F J}.
Arguments st_closed {F J}.
Arguments st_pending {F J}.
Arguments st_handle_dropped {F J}.
