(* ===== verification/StreamProofs.v ===== *)
(** * What the streaming transport promises

    Theorems about [DeepgramStream]: what a connection hears, where its
    timestamps land, how the queue is accounted for, how often it reconnects, and
    what becomes of every partial. *)

From S2P Require Import Prelude Text Float32 Float64 Bytes SttTypes Backoff PcmRing SttClock.
From S2P Require Import SttStore Dedupe Deepgram DeepgramWire DeepgramStream.

Local Open Scope Z_scope.

(** ** Reading a trace *)

(** What became of the current connection since it opened: the audio it has been
    sent in binary frames, and the errors the application was told. *)
Definition Heard : Type := bytes * list SttError.
Definition hear (acc : Heard) (o : Output) : Heard :=
  match o with
  | Emit (StateEvent Open) => ([], [])
  | Send (BinaryFrame bs) => (acc.1 ++ bs, acc.2)
  | Emit (ErrorEvent e) => (acc.1, acc.2 ++ [e])
  | _ => acc
  end.
Definition heard (outs : list Output) : bytes := (foldl hear ([], []) outs).1.
Definition told (outs : list Output) : list SttError := (foldl hear ([], []) outs).2.

(** Outputs that neither open a connection nor send audio. *)
Definition quiet (o : Output) : bool :=
  match o with Emit (StateEvent Open) | Send (BinaryFrame _) => false | _ => true end.

Lemma hear_quiet acc outs :
  forallb quiet outs = true ->
  (foldl hear acc outs).1 = acc.1 /\ acc.2 `prefix_of` (foldl hear acc outs).2.
Proof.
  revert acc. induction outs as [|o outs IH]; intros acc; [done|]. simpl.
  intros [Hq Ho]%andb_true_iff. destruct (IH (hear acc o) Ho) as [-> Hp].
  assert ((hear acc o).1 = acc.1 /\ acc.2 `prefix_of` (hear acc o).2) as [-> Hp'].
  { destruct o as [|[| |e|[]]|[]| | |]; try done; simpl; (split; [done|]); by apply prefix_app_r. }
  split; [done | by etrans].
Qed.

Lemma quiet_app a b : forallb quiet (a ++ b) = forallb quiet a && forallb quiet b.
Proof. apply forallb_app. Qed.

(** The segments published, and those of them that are settled. *)
Definition published (outs : list Output) : list TranscriptSegment :=
  omap (fun o => match o with Emit e => event_segment e | _ => None end) outs.
Definition discarded (outs : list Output) : list TranscriptSegment :=
  omap (fun o => match o with Discard s => Some s | _ => None end) outs.

Section Proofs.
Context `{UnicodeTables} `{SegmentIdFactory F} `{Jitter J}.
Context (parse_error_frame : string -> option DeepgramErrorFrame).
Context (parse_result : string -> result DeepgramResult string).
Context (body_field : string -> string -> option string).
Context (instant_max : Z).
Implicit Types (d : Driver F J) (st : Stream F J).

Abbreviation step := (step parse_error_frame parse_result body_field instant_max).
Abbreviation handle_text := (handle_text parse_error_frame parse_result).

(** ** What leaves the audio alone *)

Definition calm d d' : Prop :=
  d_config d' = d_config d /\ d_ring d' = d_ring d /\
  n_clock (d_normalizer d') = n_clock (d_normalizer d) /\
  (normalizer_ok (d_normalizer d) -> normalizer_ok (d_normalizer d')) /\
  last_final_end_ms d <= last_final_end_ms d'.

Lemma calm_refl d : calm d d.
Proof. split_and!; done. Qed.

Lemma calm_trans d1 d2 d3 : calm d1 d2 -> calm d2 d3 -> calm d1 d3.
Proof.
  intros (?&?&?&?&?) (?&?&?&?&?). split_and!; [congruence|congruence|congruence|tauto|lia].
Qed.

Lemma commit_final_calm d s : calm d (commit_final d s).1.
Proof. split_and!; done. Qed.

Lemma publish_calm d s : calm d (publish d s).1 /\ forallb quiet (publish d s).2 = true.
Proof. unfold publish. destruct (is_final s); simpl; (split; [split_and!; simpl; try done; lia|done]). Qed.

Lemma set_armed_calm d b : calm d (set_armed d b).
Proof. split_and!; done. Qed.

Lemma emit_segment_calm d s :
  calm d (emit_segment d s).1 /\ forallb quiet (emit_segment d s).2 = true.
Proof.
  unfold emit_segment. destruct (dedupe_armed d); [|apply publish_calm].
  destruct (is_final s); simpl; [|split; [apply calm_refl|done]].
  pose proof (set_armed_calm d false) as Ha.
  destruct (overlap_with_text (d_tail d) (text s)) as [|k].
  - destruct (publish_calm (set_armed d false) s). split; [by eapply calm_trans|done].
  - destruct (trim_leading_tokens s (S k)) as [t []].
    + destruct (publish_calm (set_armed d false) t). split; [by apply (calm_trans _ _ _ Ha)|done].
    + split; [|done]. split_and!; simpl; try done. lia.
Qed.

Lemma push_json_ok (n n' : DeepgramNormalizer F) raw out :
  normalizer_ok n -> push_json parse_result n raw = Some (n', out) ->
  normalizer_ok n' /\ n_clock n' = n_clock n.
Proof.
  unfold push_json, push_message. intros Hok. destruct (parse_result raw) as [m|e]; [|by intros [= <- <-]].
  destruct (push_message_at n m None) as [[n1 o]|] eqn:Ep; [|done]. cbn [mbind option_bind].
  intros [= <- <-]. destruct (push_message_at_effect _ _ _ _ _ Hok Ep) as [? He]. split; [done|].
  destruct o; simpl in He; [apply He|by subst].
Qed.

Lemma handle_text_calm d raw d' outs :
  normalizer_ok (d_normalizer d) -> handle_text d raw = Some (d', outs) ->
  calm d d' /\ forallb quiet outs = true.
Proof.
  intros Hok. unfold DeepgramStream.handle_text.
  destruct (parse_error_frame raw ≫= _) as [fr|]; [intros [= <- <-]; split; [apply calm_refl|done]|].
  destruct (push_json parse_result (d_normalizer d) raw) as [[n out]|] eqn:Ep; [|done].
  cbn [mbind option_bind]. destruct (push_json_ok _ _ _ _ Hok Ep) as [Hn Hc].
  assert (Hcalm : calm d (set_normalizer d n)) by (split_and!; done).
  destruct out as [[s|]|e]; [|by intros [= <- <-]..].
  destruct (emit_segment_calm (set_normalizer d n) s) as [Hc' Hq].
  destruct (emit_segment (set_normalizer d n) s) as [d1 o1]. intros [= <- <-].
  split; [by apply (calm_trans _ _ _ Hcalm)|done].
Qed.

Lemma run_exit_quiet d : forallb quiet (run_exit d).2 = true.
Proof.
  unfold run_exit. destruct (finish (d_normalizer d)) as [n [s|]].
  - destruct (confirmed_finals_only _); simpl; by destruct (pending_close d).
  - simpl. by destruct (pending_close d).
Qed.

(** A failed connection leaves the audio alone, and the driver ended or waiting. *)
Definition resting (p : Phase) : Prop := match p with Ended | BackingOff _ => True | _ => False end.

Lemma connection_failed_calm d now e d' outs p :
  connection_failed instant_max d now e = (d', outs, p) ->
  forallb quiet outs = true /\ resting p /\ (p = Ended \/ calm d d').
Proof.
  unfold connection_failed, backoff_then_retry. intros Hf.
  destruct (retryable e).
  - destruct (try_record (d_budget d) (elapsed_ms d now)) as [b [a|]].
    + destruct (unit_draw (d_jitter (set_budget d b))) as [u j]. simplify_eq. split_and!; try done.
      right. split_and!; done.
    + pose proof (run_exit_quiet (set_budget d b)) as Hq.
      destruct (run_exit (set_budget d b)) as [d1 o1]. simplify_eq. simpl in *. auto.
  - pose proof (run_exit_quiet d) as Hq. destruct (run_exit d) as [d1 o1]. simplify_eq. simpl in *. auto.
Qed.

Lemma fail_with_calm d now outs0 e d' outs p :
  fail_with instant_max d now outs0 e = (d', outs, p) ->
  exists more, outs = outs0 ++ more /\ forallb quiet more = true /\ resting p /\ (p = Ended \/ calm d d').
Proof.
  unfold fail_with. destruct (connection_failed instant_max d now e) as [[d1 o1] p1] eqn:E.
  intros [= <- <- <-]. apply connection_failed_calm in E. eauto.
Qed.

Lemma stop_quiet d outs0 d' outs p :
  stop d outs0 = (d', outs, p) -> p = Ended /\ exists more, outs = outs0 ++ more /\ forallb quiet more = true.
Proof.
  unfold stop. pose proof (run_exit_quiet d) as Hq. destruct (run_exit d) as [d1 o1].
  intros [= <- <- <-]. eauto.
Qed.

Lemma publish_dangling_calm d s :
  calm d (publish_dangling d s).1 /\ forallb quiet (publish_dangling d s).2 = true.
Proof.
  unfold publish_dangling. destruct s as [s|]; [|split; [apply calm_refl|done]].
  destruct (confirmed_finals_only (d_config d)); [split; [apply calm_refl|done]|].
  destruct (overlap_with_text (d_tail d) (text s)) as [|k]; [split; [apply commit_final_calm|done]|].
  by destruct (trim_leading_tokens s (S k)) as [t []].
Qed.

(** ** The audio invariant *)

Definition audio_ok d (all : list Z) : Prop :=
  ring_holds (d_ring d) all /\ window_kept (d_ring d) /\ normalizer_ok (d_normalizer d) /\
  anchor_ms (n_clock (d_normalizer d)) = sc_session_offset_ms (d_config d) /\
  sample_rate (d_ring d) <= u64_max.

(** The audio between the last settled final and the start of the connection: less
    than a millisecond beyond what the application was told is not transcribed, and
    none of it untold on a confirming stream. *)
Definition accounted d (all : list Z) (errors : list SttError) (start : Z) : Prop :=
  let missed := start - ms_to_samples (d_ring d) (leg_ms d (last_final_end_ms d)) in
  (confirmed_finals_only (d_config d) = true -> missed * 1000 < sample_rate (d_ring d)) /\
  (zlen all * 1000 <= u64_max ->
   missed * 1000 < sample_rate (d_ring d) \/
   exists lost, missed * 1000 < (lost + 1) * sample_rate (d_ring d) /\
     outlived_error lost (sc_replay_window_ms (d_config d)) ∈ errors).

(** What a connection has heard: everything from a start to the head, with its
    clock set to that start, and what is before the start accounted for. *)
Definition hears d (all : list Z) (bs : Heard) : Prop :=
  exists start, 0 <= start <= zlen all /\ bs.1 = to_linear16_le (drop (Z.to_nat start) all) /\
    connection_ms (n_clock (d_normalizer d)) = samples_to_ms (d_ring d) start /\ accounted d all bs.2 start.

Definition sound d (p : Phase) (all : list Z) (bs : Heard) : Prop :=
  match p with
  | Ended => True
  | Dialing true =>
      audio_ok d all /\ all = [] /\ connection_ms (n_clock (d_normalizer d)) = 0 /\
      0 <= last_final_end_ms d /\ 0 <= sc_session_offset_ms (d_config d)
  | Dialing false | BackingOff _ => audio_ok d all /\ 0 <= last_final_end_ms d
  | Pumping _ => audio_ok d all /\ hears d all bs /\ 0 <= last_final_end_ms d
  end.

Lemma calm_audio_ok d d' all : calm d d' -> audio_ok d all -> audio_ok d' all.
Proof.
  intros (Hcfg & Hr & Hc & Hn & _) (?&?&?&?&?). unfold audio_ok. rewrite Hcfg, Hr, Hc. auto 10.
Qed.

Lemma ms_to_samples_mono r a b : 0 < sample_rate r -> a <= b -> ms_to_samples r a <= ms_to_samples r b.
Proof.
  intros Hr Hab. unfold ms_to_samples, sat_mul64. apply Z.div_le_mono; [lia|].
  assert (a * sample_rate r <= b * sample_rate r) by nia. lia.
Qed.

Lemma calm_hears d d' all bs : 0 < sample_rate (d_ring d) -> calm d d' -> hears d all bs -> hears d' all bs.
Proof.
  intros Hpos (Hcfg & Hr & Hc & Hn & Hl) (start & Hs & Hb & Hm & Hk & Hlost). exists start.
  assert (ms_to_samples (d_ring d) (leg_ms d (last_final_end_ms d)) <=
          ms_to_samples (d_ring d) (leg_ms d' (last_final_end_ms d'))).
  { apply ms_to_samples_mono; [done|]. unfold leg_ms. rewrite Hcfg. mlia. }
  unfold accounted. rewrite Hcfg, Hr, Hc. split_and!; try done; try lia.
  - intros Hconf. specialize (Hk Hconf). lia.
  - intros Hu. destruct (Hlost Hu) as [|(k & Hlt & Hin)]; [left; lia | right; exists k; split; [lia | done]].
Qed.

(** More errors may be told. *)
Lemma hears_more d all bs bs' :
  hears d all bs -> bs'.1 = bs.1 -> bs.2 `prefix_of` bs'.2 -> hears d all bs'.
Proof.
  intros (start & Hs & Hb & Hm & Hk & Hlost) E [more Ep]. exists start. rewrite E.
  split; [done|]. split; [done|]. split; [done|]. split; [done|].
  intros Hu. destruct (Hlost Hu) as [|(k & Hlt & Hin)]; [by left | right; exists k; split; [done|]].
  rewrite Ep. apply elem_of_app. by left.
Qed.

Lemma audio_ok_rate d all : audio_ok d all -> 0 < sample_rate (d_ring d).
Proof. by intros ((? & _) & _). Qed.

Lemma calm_last d d' : calm d d' -> 0 <= last_final_end_ms d -> 0 <= last_final_end_ms d'.
Proof. intros (_ & _ & _ & _ & ?). lia. Qed.

(** Ended or waiting, nothing is left to prove but that the audio is still there. *)
Lemma resting_sound d d' p all bs :
  audio_ok d all -> 0 <= last_final_end_ms d -> resting p -> p = Ended \/ calm d d' -> sound d' p all bs.
Proof.
  intros Ha Hl Hr Hd. destruct p as [[]| | |]; simpl in *; try done.
  destruct Hd as [|Hd]; [done|]. split; [by eapply calm_audio_ok|by eapply calm_last].
Qed.

Lemma fail_with_sound d now outs0 e d' outs p all bs :
  audio_ok d all -> 0 <= last_final_end_ms d ->
  fail_with instant_max d now outs0 e = (d', outs, p) -> sound d' p all bs.
Proof.
  intros Ha Hl (more & _ & _ & Hr & Hd)%fail_with_calm. by eapply resting_sound.
Qed.

(** More audio: into the ring, and onto the wire if there is one. *)
Lemma push_audio_ok d all pcm :
  audio_ok d all -> audio_ok (set_ring d (push (d_ring d) pcm).1) (all ++ pcm).
Proof.
  intros (Hr & Hk & Hn & Ha & Hu). destruct (push_holds _ _ pcm Hr Hk) as [Hr' Hk'].
  split_and!; try done. simpl. unfold push. by destruct pcm.
Qed.

Lemma push_ring_same (r : PcmRing) pcm :
  sample_rate (push r pcm).1 = sample_rate r /\ (forall x, samples_to_ms (push r pcm).1 x = samples_to_ms r x) /\
  (forall x, ms_to_samples (push r pcm).1 x = ms_to_samples r x).
Proof. unfold push. by destruct pcm. Qed.

Lemma push_hears d all bs pcm :
  hears d all bs ->
  hears (set_ring d (push (d_ring d) pcm).1) (all ++ pcm) (bs.1 ++ to_linear16_le pcm, bs.2).
Proof.
  intros (start & Hs & Hb & Hm & Hk & Hlost). destruct (push_ring_same (d_ring d) pcm) as (E1 & E2 & E3).
  generalize dependent (push (d_ring d) pcm).1. intros r' E1 E2 E3.
  exists start. simpl. rewrite zlen_app. pose proof (zlen_nonneg pcm).
  unfold accounted, leg_ms in *. simpl. rewrite E1, E2, E3, Hb, zlen_app.
  split_and!; [lia|lia| |done|done|intros Hu; apply Hlost; lia].
  rewrite drop_app_le by (unfold zlen in *; lia). unfold to_linear16_le. by rewrite bytes_of_samples_app.
Qed.

Lemma pump_command_sound d now t c sent d' outs p all bs :
  sound d (Pumping t) all bs -> pump_command body_field instant_max d now t c sent = (d', outs, p) ->
  sound d' p (all ++ samples_of c) (foldl hear bs outs).
Proof.
  intros (Ha & Hh & Hl) Hp. destruct c as [pcm|ack|ack]; simpl in Hp.
  - pose proof (push_audio_ok d all pcm Ha) as Ha'. pose proof (push_hears d all bs pcm Hh) as Hh'.
    destruct sent as [e|]; [|simplify_eq; simpl; done].
    eapply fail_with_sound; [exact Ha'| |done]. done.
  - simpl. rewrite app_nil_r. destruct sent as [e|]; [|simplify_eq; simpl; done].
    by eapply fail_with_sound.
  - by apply stop_quiet in Hp as [-> _].
Qed.

Lemma drain_command_sound d t c d' outs p all bs :
  sound d (BackingOff t) all bs -> drain_command d t c = (d', outs, p) ->
  sound d' p (all ++ samples_of c) (foldl hear bs outs).
Proof.
  intros (Ha & Hl) Hp. destruct c as [pcm|ack|ack]; simpl in *.
  - simplify_eq. split; [by apply push_audio_ok|done].
  - simplify_eq. by rewrite app_nil_r.
  - by apply stop_quiet in Hp as [-> _].
Qed.

Lemma pump_message_sound d now t m d' outs p all bs :
  sound d (Pumping t) all bs ->
  pump_message parse_error_frame parse_result body_field instant_max d now t m = (d', outs, p) ->
  sound d' p all (foldl hear bs outs).
Proof.
  intros (Ha & Hh & Hl) Hp. destruct m as [raw|frame| |e|]; simpl in Hp.
  - destruct (handle_text d raw) as [[d1 o1]|] eqn:E; simplify_eq; [|done].
    destruct (handle_text_calm _ _ _ _ ltac:(apply Ha) E) as [Hc Hq].
    destruct (hear_quiet bs outs Hq) as [Eb Hp]. pose proof (audio_ok_rate _ _ Ha).
    split_and!; [by eapply calm_audio_ok|by eapply hears_more; [eapply calm_hears|..]|by eapply calm_last].
  - destruct (default (1005, EmptyString) frame) as [code reason]. by eapply fail_with_sound.
  - by simplify_eq.
  - by eapply fail_with_sound.
  - by eapply fail_with_sound.
Qed.

Lemma pump_keepalive_sound d now t sent d' outs p all bs :
  sound d (Pumping t) all bs -> pump_keepalive body_field instant_max d now t sent = (d', outs, p) ->
  sound d' p all (foldl hear bs outs).
Proof.
  intros (Ha & Hh & Hl). unfold pump_keepalive. repeat case_match; intros Hp; simplify_eq; try done.
  by eapply fail_with_sound.
Qed.

(** ** Opening a connection *)

Definition resume_ms d : Z := leg_ms d (last_final_end_ms d).

Lemma not_lost_rounding r all ms :
  ring_holds r all -> sample_rate r <= u64_max -> lost_audio (replay_from r ms) = false ->
  (replay_start r ms - ms_to_samples r ms) * 1000 < sample_rate r.
Proof.
  intros (Hr & _) Hu. unfold lost_audio, replay_from. cbn [truncated_ms]. unfold samples_to_ms, sat_mul64.
  rewrite Z.ltb_ge. intros Hle.
  assert (Hlt : Z.min u64_max (sat_sub (replay_start r ms) (ms_to_samples r ms) * 1000) < sample_rate r).
  { destruct (Z.lt_ge_cases (Z.min u64_max (sat_sub (replay_start r ms) (ms_to_samples r ms) * 1000))
      (sample_rate r)) as [|Hge]; [done|].
    apply (Z.div_le_mono _ _ (sample_rate r)) in Hge; [|done]. rewrite Z.div_same in Hge; lia. }
  mlia.
Qed.

(** What the replay says it lost bounds what it lost. *)
Lemma lost_rounding r all ms :
  ring_holds r all -> 0 <= ms -> zlen all * 1000 <= u64_max ->
  (replay_start r ms - ms_to_samples r ms) * 1000 < (truncated_ms (replay_from r ms) + 1) * sample_rate r.
Proof.
  intros Hr Hms Hu. pose proof Hr as (Hpos & _ & Hw & He & _). destruct (replay_from_holds _ _ ms Hr) as [Hst _].
  assert (0 <= ms_to_samples r ms).
  { unfold ms_to_samples, sat_mul64, u64_max. apply Z.div_pos; nia. }
  unfold replay_from. cbn [truncated_ms]. unfold samples_to_ms, sat_mul64. set (x := sat_sub _ _).
  assert (replay_start r ms - ms_to_samples r ms <= x <= replay_start r ms) by (unfold x; mlia).
  rewrite Z.min_r by lia. pose proof (Z.mul_succ_div_gt (x * 1000) (sample_rate r) Hpos). lia.
Qed.

(** A replay that lost audio went ahead only if it could and said so. *)
Definition reported d (replay : ReplayAudio) (errors : list SttError) : Prop :=
  lost_audio replay = true ->
  confirmed_finals_only (d_config d) = false /\
  outlived_error (truncated_ms replay) (sc_replay_window_ms (d_config d)) ∈ errors.

Lemma reconnect_hears d all n dangling errors :
  audio_ok d all ->
  reconnected_at (d_normalizer d) (ra_start_ms (replay_from (d_ring d) (resume_ms d))) = (n, dangling) ->
  audio_ok (set_normalizer d n) all /\
  (reported d (replay_from (d_ring d) (resume_ms d)) errors ->
   hears (set_normalizer d n) all (to_linear16_le (ra_samples (replay_from (d_ring d) (resume_ms d))), errors)).
Proof.
  intros (Hr & Hk & Hn & Ha & Hu) Hrec.
  destruct (reconnected_at_effect _ _ _ _ Hn Hrec) as (Hn' & _ & _ & Hclk).
  split; [split_and!; try done; simpl; by rewrite Hclk|]. intros Hlost.
  destruct (replay_from_holds _ _ (resume_ms d) Hr) as [Hst Hsam].
  pose proof Hr as (_ & _ & Hw & He & _).
  exists (replay_start (d_ring d) (resume_ms d)). rewrite Hsam. simpl. rewrite Hclk.
  split; [lia|]. split; [done|]. split; [done|]. split.
  - intros Hconf. eapply not_lost_rounding; [done..|].
    destruct (lost_audio _) eqn:El; [|done]. destruct (Hlost El). simpl in Hconf. congruence.
  - intros Hsmall. simpl. destruct (lost_audio (replay_from (d_ring d) (resume_ms d))) eqn:El.
    + right. eexists. destruct (Hlost El) as [_ Hin]. split; [|exact Hin].
      apply (lost_rounding _ all); [done| |done]. unfold resume_ms, leg_ms. mlia.
    + left. by eapply not_lost_rounding.
Qed.

(** The frame a fresh connection starts with, as what it hears. *)
Definition replay_frames (replay : ReplayAudio) : list Output :=
  if replay_is_empty replay then [] else [Send (BinaryFrame (to_linear16_le (ra_samples replay)))].

Lemma replay_frames_heard replay outs :
  forallb quiet outs = true ->
  foldl hear ([], []) (outs ++ replay_frames replay) =
    (to_linear16_le (ra_samples replay), (foldl hear ([], []) outs).2).
Proof.
  intros Hq. rewrite foldl_app. destruct (hear_quiet ([], []) outs Hq) as [E _].
  destruct (foldl hear ([], []) outs) as [bs es]. simpl in E. subst bs. unfold replay_frames, replay_is_empty.
  by destruct (ra_samples replay).
Qed.

Lemma first_connection_sound d all :
  sound d (Dialing true) all ([], []) ->
  ra_samples (replay_from (d_ring d) (resume_ms d)) = [] /\ hears d all ([], []).
Proof.
  intros ((Hr & Hk & Hn & Ha & Hu) & -> & Hc & Hl & Ho).
  destruct (replay_from_holds _ _ (resume_ms d) Hr) as [_ ->]. split; [apply drop_nil|].
  exists 0. simpl. rewrite Hc. pose proof Hr as (Hpos & _).
  assert (0 <= ms_to_samples (d_ring d) (leg_ms d (last_final_end_ms d))).
  { unfold ms_to_samples, sat_mul64, u64_max. apply Z.div_pos; [|lia].
    assert (0 <= leg_ms d (last_final_end_ms d)) by (unfold leg_ms; mlia). nia. }
  split; [done|]. split; [done|]. split; [done|]. split; intros; [lia | left; lia].
Qed.

(** The second half of [pump_enter]: the replay goes out, or the connection fails. *)
Definition send_replay d (outs : list Output) (replay : ReplayAudio) (sent : option WsError)
  : Driver F J * list Output * option SttError :=
  if replay_is_empty replay then (d, outs, None)
  else match sent with
  | None => (d, outs ++ [Send (BinaryFrame (to_linear16_le (ra_samples replay)))], None)
  | Some error => (d, outs, Some (map_transport_error body_field error))
  end.

Lemma send_replay_frames d outs0 replay sent d' outs failed :
  send_replay d outs0 replay sent = (d', outs, failed) ->
  d' = d /\ (failed = None -> outs = outs0 ++ replay_frames replay).
Proof.
  unfold send_replay, replay_frames. destruct (replay_is_empty replay), sent; intros ?; simplify_eq;
    split; try done; intros; by rewrite ?app_nil_r.
Qed.

Lemma pump_enter_resumes d sent d' outs failed :
  pump_enter body_field d false sent = (d', outs, failed) ->
  let replay := replay_from (d_ring d) (resume_ms d) in
  exists n dangling q,
    reconnected_at (d_normalizer d) (ra_start_ms replay) = (n, dangling) /\
    calm (set_normalizer d n) d' /\ forallb quiet q = true /\
    (failed = None -> outs = q ++ replay_frames replay /\ reported d replay (foldl hear ([], []) q).2).
Proof.
  intros Hp replay. unfold pump_enter in Hp. fold (resume_ms d) replay in Hp.
  destruct (reconnected_at (d_normalizer d) (ra_start_ms replay)) as [n dangling].
  destruct (publish_dangling_calm (set_normalizer d n) dangling) as [Hc2 Hq2].
  destruct (publish_dangling (set_normalizer d n) dangling) as [d2 o2]. simpl in Hc2, Hq2.
  assert (Hcfg : d_config d2 = d_config d) by apply Hc2.
  set (d3 := set_armed d2 (negb (confirmed_finals_only (d_config d2)))) in Hp.
  assert (Hc3 : calm (set_normalizer d n) d3) by (eapply calm_trans; [done|apply set_armed_calm]).
  change (d_config d3) with (d_config d2) in Hp. rewrite Hcfg in Hp.
  destruct (lost_audio replay) eqn:El, (confirmed_finals_only (d_config d)) eqn:Ec.
  - simplify_eq. exists n, dangling, []. done.
  - apply send_replay_frames in Hp as [-> Hf]. eexists n, dangling, _.
    split_and!; [done|done| |intros E; split; [by apply Hf|intros _; split; [done|]]]; [by rewrite quiet_app, Hq2|].
    rewrite foldl_app. simpl. apply elem_of_app. right. left.
  - apply send_replay_frames in Hp as [-> Hf]. exists n, dangling, o2. split_and!; [done..|].
    intros E. split; [by apply Hf | unfold reported; by rewrite El].
  - apply send_replay_frames in Hp as [-> Hf]. exists n, dangling, o2. split_and!; [done..|].
    intros E. split; [by apply Hf | unfold reported; by rewrite El].
Qed.

Lemma pump_enter_sound d first sent d' outs failed all :
  sound d (Dialing first) all ([], []) ->
  pump_enter body_field d first sent = (d', outs, failed) ->
  audio_ok d' all /\ 0 <= last_final_end_ms d' /\
  (failed = None -> hears d' all (foldl hear ([], []) outs)).
Proof.
  destruct first; intros Hs Hp.
  - destruct (first_connection_sound d all Hs) as [He Hh]. destruct Hs as (Ha & _ & _ & Hl & _).
    unfold pump_enter in Hp. fold (resume_ms d) in Hp. unfold replay_is_empty in Hp.
    rewrite He in Hp. by simplify_eq.
  - destruct Hs as [Ha Hl].
    destruct (pump_enter_resumes _ _ _ _ _ Hp) as (n & dangling & q & Hrec & Hc & Hq & Hf).
    destruct (reconnect_hears d all n dangling (foldl hear ([], []) q).2 Ha Hrec) as [Ha1 Hh1].
    split_and!; [by eapply calm_audio_ok|by eapply calm_last|].
    intros [-> Hlost]%Hf. rewrite replay_frames_heard by done.
    eapply calm_hears; [by eapply audio_ok_rate|done|by apply Hh1].
Qed.

Lemma connect_sound d now first o sent d' outs p all bs :
  sound d (Dialing first) all ([], []) ->
  connect body_field instant_max d now first o sent = (d', outs, p) ->
  sound d' p all (foldl hear bs outs).
Proof.
  intros Hs Hp. unfold connect in Hp. destruct (connect_result body_field o) as [[]|e].
  - destruct (pump_enter body_field d first sent) as [[d1 o1] failed] eqn:E.
    destruct (pump_enter_sound _ _ _ _ _ _ _ Hs E) as (Ha & Hl & Hh).
    destruct failed as [e|]; [by eapply fail_with_sound|].
    simplify_eq. simpl. auto.
  - assert (Ha : audio_ok d all /\ 0 <= last_final_end_ms d) by (destruct first; simpl in Hs; tauto).
    destruct Ha. by eapply fail_with_sound.
Qed.

(** ** The whole stream *)

(** The audio the application handed over and [write] accepted, in order. *)
Definition accepts st (i : Z * Stimulus) : list Z :=
  match i.2 with
  | WriteCall pcm maximum => if (write_bounded st pcm maximum).2 then pcm else []
  | _ => []
  end.

Fixpoint accepted st (ins : list (Z * Stimulus)) : list Z :=
  match ins with [] => [] | i :: ins => accepts st i ++ accepted (step st i).1 ins end.

Definition queued st : list Z := st_queue st ≫= samples_of.

Definition tracks st (acc : list Z) (bs : Heard) : Prop :=
  st_phase st = Ended \/
  exists all, sound (st_driver st) (st_phase st) all bs /\ all ++ queued st = acc.

Lemma sound_dialing d first all bs bs' : sound d (Dialing first) all bs -> sound d (Dialing first) all bs'.
Proof. by destruct first. Qed.

(** A step of the task: it may take one command off the queue. *)
Lemma settle_tracks st dropped queue r all bs acc :
  (forall d outs p, r = (d, outs, p) -> sound d p (all ++ (dropped ≫= samples_of)) (foldl hear bs outs)) ->
  all ++ ((dropped ++ queue) ≫= samples_of) = acc ->
  tracks (settle_with st queue dropped r).1 acc (foldl hear bs (settle_with st queue dropped r).2).
Proof.
  destruct r as [[d outs] p]. intros Hs Hacc. specialize (Hs d outs p eq_refl).
  rewrite bind_app, app_assoc in Hacc. unfold tracks. simpl.
  destruct p; simpl; [right..|left]; try done; eexists; (split; [exact Hs|done]).
Qed.

Lemma enqueue_tracks st acc bs c n :
  tracks st acc bs -> tracks (enqueue st c n) (acc ++ samples_of c) bs.
Proof.
  intros [He|(all & Hs & Hq)]; [by left|right]. exists all. split; [done|].
  unfold queued, enqueue. simpl. rewrite bind_app. csimpl. by rewrite app_nil_r, app_assoc, <-Hq.
Qed.

Lemma idle_tracks st acc bs : tracks st acc bs -> tracks st (acc ++ []) bs.
Proof. by rewrite app_nil_r. Qed.

Lemma write_tracks st acc bs pcm m :
  tracks st acc bs ->
  tracks (write_bounded st pcm m).1 (acc ++ (if (write_bounded st pcm m).2 then pcm else [])) bs.
Proof.
  intros Ht. unfold write_bounded. destruct (st_closed st || task_over st); [by apply idle_tracks|].
  destruct pcm as [|x pcm]; [by apply idle_tracks|].
  destruct (checked_add64 _ _) as [n|]; [|by apply idle_tracks].
  destruct (n <=? m); [by apply (enqueue_tracks _ _ _ (Audio (x :: pcm)))|by apply idle_tracks].
Qed.

Lemma flush_tracks st acc bs a : tracks st acc bs -> tracks (flush st a).1 (acc ++ []) bs.
Proof.
  intros Ht. unfold flush. destruct (st_closed st), (task_over st); try by apply idle_tracks.
  by apply (enqueue_tracks _ _ _ (Flush a)).
Qed.

Lemma close_tracks st acc bs a : tracks st acc bs -> tracks (close st a).1 (acc ++ []) bs.
Proof.
  intros Ht. unfold close. destruct (st_closed st); [by apply idle_tracks|].
  destruct (task_over (set_closed st)); [by apply idle_tracks|].
  by apply (enqueue_tracks (set_closed st) _ _ (Close a)).
Qed.

(** A step of the task from a phase it moves in; the others leave it where it is. *)
Ltac task_step Ht :=
  apply idle_tracks in Ht; destruct Ht as [He|(all & Hs & Hq)]; simpl;
  [left; by rewrite He|];
  destruct (st_phase _) as [?|?|[?|]|] eqn:Ep; try (right; exists all; simpl; by rewrite Ep).
Ltac settled_by all :=
  apply (settle_tracks _ _ _ _ all); [|done];
  intros ? ? ? ?; csimpl; rewrite app_nil_r.

Lemma recv_tracks st now sent acc bs :
  tracks st acc bs ->
  tracks (step st (now, RecvCommand sent)).1 (acc ++ []) (foldl hear bs (step st (now, RecvCommand sent)).2).
Proof.
  intros Ht. task_step Ht;
    unfold queued in Hq; destruct (st_queue st) as [|c queue] eqn:Eq;
    try (destruct (st_handle_dropped st); [|right; exists all; unfold queued; simpl; by rewrite Ep, Eq]);
    try (apply (settle_tracks _ _ _ _ all); [by intros d outs p [-> _]%stop_quiet|done]);
    settled_by all.
  - by eapply pump_command_sound.
  - by eapply drain_command_sound.
  - by eapply drain_command_sound.
Qed.

Lemma step_tracks st i acc bs :
  tracks st acc bs -> tracks (step st i).1 (acc ++ accepts st i) (foldl hear bs (step st i).2).
Proof.
  intros Ht. destruct i as [now stim].
  destruct stim as [pcm m|a|a| | |o sent|sent|m|sent| ]; unfold accepts; cbn [snd].
  - by apply write_tracks.
  - by apply flush_tracks.
  - by apply close_tracks.
  - by left.
  - by apply idle_tracks.
  - task_step Ht. settled_by all. eapply connect_sound; [by eapply sound_dialing|done].
  - by apply recv_tracks.
  - task_step Ht. settled_by all. by eapply pump_message_sound.
  - task_step Ht. settled_by all. by eapply pump_keepalive_sound.
  - task_step Ht. destruct (_ <=? now); [|right; exists all; simpl; by rewrite Ep].
    right. exists all. split; [exact Hs|done].
Qed.

Lemma run_tracks st ins acc bs :
  tracks st acc bs ->
  tracks (run step st ins).1 (acc ++ accepted st ins) (foldl hear bs (run step st ins).2).
Proof.
  revert st acc bs. induction ins as [|i ins IH]; intros st acc bs Ht; [by apply idle_tracks|].
  rewrite run_cons. simpl. rewrite foldl_app, app_assoc. by apply IH, step_tracks.
Qed.

Definition config_ok (c : DeepgramStreamConfig) : Prop :=
  in_u32 (p_sample_rate (sc_params c)) /\ 0 <= sc_replay_window_ms c /\ 0 <= sc_session_offset_ms c.

Lemma open_tracks config factory jitter now :
  config_ok config -> tracks (open_with_jitter config factory jitter now).1 [] ([], []).
Proof.
  intros (Hr & Hw & Ho). right. exists []. simpl. split; [|done].
  destruct (ring_new_holds (p_sample_rate (sc_params config)) _ Hw) as [H1' H2'].
  assert (Hu : Z.max (p_sample_rate (sc_params config)) 1 <= u64_max)
    by (unfold in_u32, u32_max, u64_max in *; lia).
  done.
Qed.

(** ** The queue's accounting *)

Definition load (cs : list Command) : Z := zsum ((fun c => zlen (samples_of c)) <$> cs).

Definition pending_ok (M : Z) st : Prop :=
  st_pending st = load (st_queue st) /\ st_pending st <= M /\ (st_phase st = Ended -> st_queue st = []).

Definition bounded_by (M : Z) (i : Z * Stimulus) : Prop :=
  match i.2 with WriteCall _ maximum => maximum <= M | _ => True end.

Lemma load_nonneg cs : 0 <= load cs.
Proof. apply zsum_map_nonneg. intros c _. apply zlen_nonneg. Qed.

Lemma load_app a b : load (a ++ b) = load a + load b.
Proof. unfold load. by rewrite fmap_app, zsum_app. Qed.

Lemma settle_pending M st queue dropped r :
  st_pending st = load (dropped ++ queue) -> st_pending st <= M -> 0 <= M ->
  pending_ok M (settle_with st queue dropped r).1.
Proof.
  destruct r as [[d outs] p]. intros Hp HM H0M. pose proof (load_nonneg dropped).
  unfold pending_ok, settle_with, settle, release. fold (load dropped) (load (dropped ++ queue)).
  pose proof (load_nonneg queue). rewrite load_app in *.
  assert (load [] = 0) by done. destruct p; simpl; split_and!; done || lia.
Qed.

Lemma enqueue_pending M st c n :
  pending_ok M st -> st_phase st <> Ended -> n = st_pending st + zlen (samples_of c) -> n <= M ->
  pending_ok M (enqueue st c n).
Proof.
  intros (Hp & HM & He) Hne -> Hn. unfold pending_ok. simpl. rewrite load_app. split_and!; [|lia|done].
  unfold load at 2. simpl. rewrite Hp. unfold zsum. simpl. lia.
Qed.

Lemma task_over_false st : task_over st = false -> st_phase st <> Ended.
Proof. unfold task_over. by destruct (st_phase st). Qed.

Lemma write_pending M st pcm m : pending_ok M st -> m <= M -> pending_ok M (write_bounded st pcm m).1.
Proof.
  intros Hp Hm. unfold write_bounded. destruct (st_closed st || task_over st) eqn:E; [done|].
  apply orb_false_iff in E as [_ E%task_over_false]. destruct pcm as [|x pcm]; [done|].
  unfold checked_add64. destruct (_ <=? u64_max); [|done].
  destruct (Z.leb_spec (st_pending st + zlen (x :: pcm)) m); [|done].
  eapply enqueue_pending; [done|done|done|lia].
Qed.

Lemma step_pending M st i : 0 <= M -> bounded_by M i -> pending_ok M st -> pending_ok M (step st i).1.
Proof.
  intros HM Hb Hp. pose proof Hp as (Hl & Hle & He). destruct i as [now stim].
  assert (Hctl : forall a c, samples_of c = [] -> (a : bool) = false -> task_over st = false ->
    pending_ok M (enqueue st c (st_pending st))).
  { intros a c Hc _ Ho%task_over_false. eapply enqueue_pending; [done|done| |done].
    rewrite Hc. unfold zlen. simpl. lia. }
  destruct stim as [pcm m|a|a| | |o sent|sent|m|sent| ]; simpl.
  - by apply write_pending.
  - unfold flush. destruct (st_closed st) eqn:Ec, (task_over st) eqn:Eo; try done. by apply (Hctl false).
  - unfold close. destruct (st_closed st) eqn:Ec; [done|]. change (task_over (set_closed st)) with (task_over st).
    destruct (task_over st) eqn:Eo; [done|]. destruct (Hctl false (Close a) eq_refl eq_refl eq_refl) as (?&?&?).
    done.
  - apply (settle_pending M (set_closed st) _ _ (st_driver st, [], Ended)); done.
  - done.
  - destruct (st_phase st); try done. by apply settle_pending.
  - destruct (st_phase st); try done; destruct (st_queue st) as [|c q] eqn:Eq;
      try (destruct (st_handle_dropped st); [|done]); by apply settle_pending.
  - destruct (st_phase st); try done. by apply settle_pending.
  - destruct (st_phase st); try done. by apply settle_pending.
  - destruct (st_phase st) as [| |[dl|]|]; try done. destruct (dl <=? now); [|done].
    by apply (settle_pending M st _ [] (st_driver st, [], Dialing false)).
Qed.

Lemma run_pending M st ins :
  0 <= M -> Forall (bounded_by M) ins -> pending_ok M st -> pending_ok M (run step st ins).1.
Proof.
  intros HM Hins. revert st. induction Hins as [|i ins Hi _ IH]; intros st Hp; [done|].
  rewrite run_cons. simpl. by apply IH, step_pending.
Qed.

(** ** The reconnect budget *)

(** Reconnects announced. *)
Definition is_retry (o : Output) : bool :=
  match o with Emit (StateEvent Reconnecting) => true | _ => false end.
Definition retries (outs : list Output) : nat := length (filter (fun o => is_retry o = true) outs).

Definition same_books d d' (outs : list Output) : Prop :=
  d_budget d' = d_budget d /\ d_started d' = d_started d /\ retries outs = 0%nat.

(** One attempt recorded, announced exactly when it is granted. *)
Definition one_attempt d d' (now : Z) (outs : list Output) : Prop :=
  d_budget d' = (try_record (d_budget d) (elapsed_ms d now)).1 /\ d_started d' = d_started d /\
  retries outs = match (try_record (d_budget d) (elapsed_ms d now)).2 with Some _ => 1%nat | None => 0%nat end.

Definition books d d' (now : Z) (outs : list Output) : Prop :=
  same_books d d' outs \/ one_attempt d d' now outs.

Lemma retries_app a b : retries (a ++ b) = (retries a + retries b)%nat.
Proof. unfold retries. by rewrite filter_app, length_app. Qed.

Lemma same_books_trans d1 d2 d3 a b :
  same_books d1 d2 a -> same_books d2 d3 b -> same_books d1 d3 (a ++ b).
Proof.
  intros (?&?&?) (?&?&?). unfold same_books. rewrite retries_app. split_and!; [congruence|congruence|lia].
Qed.

Lemma same_books_then d1 d2 d3 now a b :
  same_books d1 d2 a -> books d2 d3 now b -> books d1 d3 now (a ++ b).
Proof.
  intros Hs [Hb|(H1'&H2'&H3')]; [left; by eapply same_books_trans|right].
  destruct Hs as (E1 & E2 & E3). unfold one_attempt, elapsed_ms in *. rewrite retries_app, E1, E2, E3 in *.
  done.
Qed.

Lemma emit_segment_books d s : same_books d (emit_segment d s).1 (emit_segment d s).2.
Proof.
  unfold emit_segment, publish. destruct (dedupe_armed d); [|by destruct (is_final s)].
  destruct (is_final s) eqn:Ef; [|done]. simpl. destruct (overlap_with_text (d_tail d) (text s)) as [|k].
  - done.
  - destruct (trim_leading_tokens s (S k)) as [t []]; [|done]. by destruct (is_final t).
Qed.

Lemma handle_text_books d raw d' outs : handle_text d raw = Some (d', outs) -> same_books d d' outs.
Proof.
  unfold DeepgramStream.handle_text. destruct (parse_error_frame raw ≫= _); [by intros [= <- <-]|].
  destruct (push_json parse_result (d_normalizer d) raw) as [[n out]|]; [|done]. cbn [mbind option_bind].
  destruct out as [[s|]|e]; [|by intros [= <- <-]..].
  pose proof (emit_segment_books (set_normalizer d n) s) as Hb.
  destruct (emit_segment (set_normalizer d n) s). by intros [= <- <-].
Qed.

Lemma run_exit_books d : same_books d (run_exit d).1 (run_exit d).2.
Proof.
  unfold run_exit. destruct (finish (d_normalizer d)) as [n [s|]].
  - destruct (confirmed_finals_only _); simpl; by destruct (pending_close d).
  - simpl. by destruct (pending_close d).
Qed.

Lemma stop_books d outs0 d' outs p :
  retries outs0 = 0%nat -> stop d outs0 = (d', outs, p) -> same_books d d' outs.
Proof.
  unfold stop. intros H0'. pose proof (run_exit_books d) as Hb. destruct (run_exit d) as [d1 o1].
  intros [= <- <- <-]. by apply (same_books_trans d d).
Qed.

Lemma connection_failed_books d now e d' outs p :
  connection_failed instant_max d now e = (d', outs, p) -> books d d' now outs.
Proof.
  unfold connection_failed, backoff_then_retry, books, one_attempt. destruct (retryable e).
  - destruct (try_record (d_budget d) (elapsed_ms d now)) as [b [a|]].
    + destruct (unit_draw (d_jitter (set_budget d b))) as [u j]. intros [= <- <- <-]. by right.
    + pose proof (run_exit_books (set_budget d b)) as (?&?&?). destruct (run_exit (set_budget d b)) as [d1 o1].
      intros [= <- <- <-]. right. done.
  - pose proof (run_exit_books d) as Hb. destruct (run_exit d) as [d1 o1]. intros [= <- <- <-]. by left.
Qed.

Lemma fail_with_books d0 d now outs0 e d' outs p :
  same_books d0 d outs0 -> fail_with instant_max d now outs0 e = (d', outs, p) -> books d0 d' now outs.
Proof.
  unfold fail_with. destruct (connection_failed instant_max d now e) as [[d1 o1] p1] eqn:E.
  intros Hs [= <- <- <-]. eapply same_books_then; [done|]. by eapply connection_failed_books.
Qed.

Lemma pump_enter_books d first sent d' outs failed :
  pump_enter body_field d first sent = (d', outs, failed) -> same_books d d' outs.
Proof.
  unfold pump_enter. destruct first.
  - destruct (replay_is_empty _); [by intros [= <- <- <-]|]. by destruct sent; intros [= <- <- <-].
  - destruct (reconnected_at _ _) as [n dangling].
    assert (Hb : same_books (set_normalizer d n) (publish_dangling (set_normalizer d n) dangling).1
      (publish_dangling (set_normalizer d n) dangling).2).
    { unfold publish_dangling. destruct dangling as [s|]; [|done]. destruct (confirmed_finals_only _); [done|].
      destruct (overlap_with_text _ _) as [|k]; [done|]. by destruct (trim_leading_tokens s (S k)) as [t []]. }
    destruct (publish_dangling (set_normalizer d n) dangling) as [d2 o2]. destruct Hb as (E1 & E2 & E3).
    simpl in E1, E2, E3. destruct (lost_audio _), (confirmed_finals_only (d_config _)).
    all: try destruct (replay_is_empty _); [..|destruct sent]; try destruct sent;
      intros [= <- <- <-]; unfold same_books; rewrite ?retries_app, ?E3; done.
Qed.

Lemma step_books st i : books (st_driver st) (st_driver (step st i).1) i.1 (step st i).2.
Proof.
  destruct i as [now stim]. assert (Hid : books (st_driver st) (st_driver st) now []) by (by left).
  assert (Hset : forall q dr r, (forall d o p, r = (d, o, p) -> books (st_driver st) d now o) ->
    books (st_driver st) (st_driver (settle_with st q dr r).1) now (settle_with st q dr r).2).
  { intros q dr [[d o] p] Hr. specialize (Hr d o p eq_refl). by destruct p. }
  destruct stim as [pcm m|a|a| | |o sent|sent|m|sent| ]; simpl; try done.
  - unfold write_bounded. by repeat case_match.
  - unfold flush. by repeat case_match.
  - unfold close. by repeat case_match.
  - destruct (st_phase st) as [first| | |]; try done. apply Hset. intros d outs p. unfold connect.
    destruct (connect_result body_field o) as [[]|e]; [|by apply fail_with_books].
    destruct (pump_enter body_field (st_driver st) first sent) as [[d1 o1] f] eqn:E.
    apply pump_enter_books in E. destruct f as [e|]; [by apply fail_with_books|].
    intros [= <- <- <-]. by left.
  - destruct (st_phase st) as [| t|dl|]; try done; destruct (st_queue st) as [|c q];
      try (destruct (st_handle_dropped st); [|done]); apply Hset; intros d outs p.
    + intros ?%stop_books; [by left|done].
    + destruct c as [pcm|a|a]; simpl.
      * destruct sent; [by apply fail_with_books|]. intros [= <- <- <-]. by left.
      * destruct sent; [by apply fail_with_books|]. intros [= <- <- <-]. by left.
      * intros Hs%stop_books; [by left|]. by destruct sent.
    + intros ?%stop_books; [by left|done].
    + destruct c as [pcm|a|a]; simpl; [intros [= <- <- <-]; by left..|].
      intros Hs%stop_books; [by left|done].
  - destruct (st_phase st) as [| t|dl|]; try done. apply Hset. intros d outs p.
    destruct m as [raw|frame| |e|]; simpl; try by apply fail_with_books.
    + destruct (handle_text (st_driver st) raw) as [[d1 o1]|] eqn:E; intros [= <- <- <-]; [|done].
      left. by eapply handle_text_books.
    + destruct (default (1005, EmptyString) frame). by apply fail_with_books.
    + by intros [= <- <- <-].
  - destruct (st_phase st) as [| t|dl|]; try done. apply Hset. intros d outs p. unfold pump_keepalive.
    destruct (_ <=? _); [|by intros [= <- <- <-]]. destruct sent; [by apply fail_with_books|].
    intros [= <- <- <-]. by left.
  - destruct (st_phase st) as [| |[dl|]|]; try done. by destruct (dl <=? now).
Qed.

(** The milliseconds, since the stream opened, at which it announced a reconnect. *)
Fixpoint retry_times st (ins : list (Z * Stimulus)) : list Z :=
  match ins with
  | [] => []
  | i :: ins =>
      replicate (retries (step st i).2) (elapsed_ms (st_driver st) i.1) ++ retry_times (step st i).1 ins
  end.

(** Instants that never run back and stay within the range of the clock. *)
Fixpoint clocked (t0 window from : Z) (ins : list (Z * Stimulus)) : Prop :=
  match ins with
  | [] => True
  | i :: ins =>
      from <= i.1 /\ (i.1 - t0) / 1000000 + window <= u64_max /\ clocked t0 window i.1 ins
  end.

Section RetryBound.
Context (max window t0 : Z).
Hypothesis (Hmax : 0 <= max < u32_max) (Hwin : 0 < window).

Definition on_budget (from : Z) st (log : list Z) : Prop :=
  d_started (st_driver st) = t0 /\ t0 <= from /\
  simulates max window ((from - t0) / 1000000) (d_budget (st_driver st)) log.

Lemma elapsed_exact st now :
  d_started (st_driver st) = t0 -> t0 <= now -> (now - t0) / 1000000 + window <= u64_max ->
  elapsed_ms (st_driver st) now = (now - t0) / 1000000.
Proof.
  intros Hs Hn Hu. unfold elapsed_ms. rewrite Hs. apply Z.mod_small.
  unfold u64_max in Hu. split; [apply Z.div_pos; lia|lia].
Qed.

Lemma step_on_budget st i from log :
  on_budget from st log -> from <= i.1 -> (i.1 - t0) / 1000000 + window <= u64_max ->
  exists from', from' <= i.1 /\
    on_budget from' (step st i).1
      (log ++ replicate (retries (step st i).2) (elapsed_ms (st_driver st) i.1)).
Proof.
  intros (Hs & Hf & Hsim) Hle Hu. pose proof (step_books st i) as [(E1 & E2 & E3)|(E1 & E2 & E3)].
  - exists from. split; [done|]. rewrite E3. simpl. rewrite app_nil_r. unfold on_budget. by rewrite E1, E2.
  - exists i.1. split; [done|]. unfold on_budget. rewrite E1, E2, E3.
    rewrite (elapsed_exact st i.1) in * by (done || lia).
    set (now := (i.1 - t0) / 1000000) in *.
    assert (Hmono : (from - t0) / 1000000 <= now) by (apply Z.div_le_mono; lia).
    destruct (budget_step_simulates max window ltac:(mlia) _ _ _ (TryRecord now) Hwin ltac:(lia) Hsim Hmono Hu)
      as [Hsim' Hout]. simpl in Hsim', Hout. unfold spec_try in *.
    destruct (try_record (d_budget (st_driver st)) now) as [b g]. simpl in *.
    split_and!; [done|lia|].
    destruct (max <=? zlen (live window now log)); simpl in *; simplify_eq; simpl; rewrite ?app_nil_r; done.
Qed.

Lemma run_on_budget st ins from log :
  on_budget from st log -> clocked t0 window from ins ->
  forall T, zlen (filter (fun t => T - window < t <= T) (log ++ retry_times st ins)) <= max.
Proof.
  revert st from log. induction ins as [|i ins IH]; intros st from log Hb Hc T; simpl.
  - rewrite app_nil_r. destruct Hb as (_ & _ & _ & _ & _ & _ & _ & Hbound). apply Hbound.
  - destruct Hc as (Hle & Hu & Hc). destruct (step_on_budget st i from log Hb Hle Hu) as (f' & Hf' & Hb').
    rewrite app_assoc. eapply IH; [done|].
    clear -Hc Hf'. destruct ins as [|j ins]; [done|]. destruct Hc as (?&?&?). simpl. split_and!; [lia|done|done].
Qed.

End RetryBound.

End Proofs.


(** A run for the witnesses: two samples are sent, the socket dies, a third arrives
    while the driver waits, and the new connection is fed all three. *)
Definition demo_config : DeepgramStreamConfig := with_backoff (stream_config_new "key" test_config) backoff_fast.
Definition demo_jitter : FixedJitter := mkFixedJitter f64_zero.
Definition no_error_frame (_ : string) : option DeepgramErrorFrame := None.
Definition no_result (raw : string) : result DeepgramResult string := Err raw.
Definition no_field (_ _ : string) : option string := None.
Definition demo_run : list (Z * Stimulus) :=
  [(0, WriteCall [1; 2] 100); (0, ConnectEnds ConnectOk None); (1, RecvCommand None);
   (2, SocketMessage EndOfSocket); (3, WriteCall [3] 100); (4, RecvCommand None);
   (1000000000, DeadlineElapsed); (1000000000, ConnectEnds ConnectOk None); (1000000001, WriteCall [4] 100)].
Definition demo_opened : Stream CountingIdFactory FixedJitter * list Output :=
  open_with_jitter demo_config test_ids demo_jitter 0.
Definition demo_step := step (F:=CountingIdFactory) (J:=FixedJitter) no_error_frame no_result no_field (2 ^ 63).

Lemma demo_config_ok : config_ok demo_config.
Proof. repeat split; by vm_compute. Qed.


(** A ring of one millisecond: sixteen samples are accepted during an outage that
    outlives them, and the connection that follows starts after them.  The loss is
    reported. *)
Definition short_config : DeepgramStreamConfig := with_replay_window_ms demo_config 1.
Definition outage_run : list (Z * Stimulus) :=
  [(0, ConnectEnds ConnectOk None); (1, SocketMessage EndOfSocket);
   (2, WriteCall (replicate 16 1) 100); (3, RecvCommand None); (4, WriteCall (replicate 16 2) 100); (5, RecvCommand None);
   (1000000000, DeadlineElapsed); (1000000000, ConnectEnds ConnectOk None)].

Example evicted_audio_is_reported :
  let opened := open_with_jitter (F:=CountingIdFactory) (J:=FixedJitter) short_config test_ids demo_jitter 0 in
  let r := run demo_step opened.1 outage_run in
  heard (opened.2 ++ r.2) = to_linear16_le (replicate 16 2) /\ told (opened.2 ++ r.2) = [outlived_error 1 1].
Proof. by vm_compute. Qed.

(** However a connection flaps - sockets that open and die at once included - no
    window of the policy's length ever holds more announced reconnects than the
    policy allows. *)
Theorem reconnects_are_bounded `{UnicodeTables} `{SegmentIdFactory F} `{Jitter J}
    parse_error_frame parse_result body_field instant_max
    (config : DeepgramStreamConfig) (factory : F) (jitter : J) (t0 : Z) (ins : list (Z * Stimulus)) (T : Z) :
  let max := bp_max_attempts (sc_backoff config) in
  let window := bp_window_ms (sc_backoff config) in
  0 <= max < u32_max -> 0 < window -> clocked t0 window t0 ins ->
  let st := (open_with_jitter config factory jitter t0).1 in
  zlen (filter (fun t => T - window < t <= T)
    (retry_times parse_error_frame parse_result body_field instant_max st ins)) <= max.
Proof.
  intros max window Hmax Hwin Hc st.
  apply (run_on_budget parse_error_frame parse_result body_field instant_max max window t0 Hmax Hwin
    st ins t0 []); [|done].
  split_and!; [done|lia|]. split_and!; try done. intros T'. unfold zlen. simpl. lia.
Qed.

(** A socket that opens and dies at once, every hundred milliseconds. *)
Definition flapping (n : nat) : list (Z * Stimulus) :=
  seq 0 n ≫= fun k => let t := Z.of_nat k * 100000000 in
    [(t, DeadlineElapsed); (t, ConnectEnds ConnectOk None); (t, SocketMessage EndOfSocket)].

Lemma reconnects_are_bounded_witness :
  retry_times no_error_frame no_result no_field (2 ^ 63) demo_opened.1 (flapping 9) = [0; 100; 200; 300; 400; 500] /\
  zlen (filter (fun t => 500 - 60000 < t <= 500)
    (retry_times no_error_frame no_result no_field (2 ^ 63) demo_opened.1 (flapping 9))) <= 6.
Proof.
  split; [by vm_compute|].
  apply (reconnects_are_bounded no_error_frame no_result no_field (2 ^ 63)
    demo_config test_ids demo_jitter 0 (flapping 9) 500).
  - by vm_compute.
  - by vm_compute.
  - vm_compute. repeat split; discriminate.
Defined.

(** The samples counted as pending are exactly those still queued; they never
    exceed the largest bound any writer gave, and none are left once the task is
    over. *)
Theorem queue_is_bounded `{UnicodeTables} `{SegmentIdFactory F} `{Jitter J}
    parse_error_frame parse_result body_field instant_max
    (config : DeepgramStreamConfig) (factory : F) (jitter : J) (t0 M : Z) (ins : list (Z * Stimulus)) :
  0 <= M -> Forall (bounded_by M) ins ->
  let st := (run (step parse_error_frame parse_result body_field instant_max)
               (open_with_jitter config factory jitter t0).1 ins).1 in
  st_pending st = zlen (queued st) /\ st_pending st <= M /\ (st_phase st = Ended -> st_pending st = 0).
Proof.
  intros HM Hb st.
  assert (H0' : pending_ok M (open_with_jitter config factory jitter t0).1) by (by split_and!).
  destruct (run_pending parse_error_frame parse_result body_field instant_max M _ ins HM Hb H0')
    as (Hp & HpM & He). fold st in Hp, HpM, He.
  assert (Hq : forall cs, load cs = zlen (cs ≫= samples_of)).
  { intros cs. induction cs as [|c cs IH]; [done|]. csimpl. rewrite zlen_app, <-IH. done. }
  unfold queued. rewrite <-Hq. split_and!; [done|done|]. intros E%He. rewrite Hp, E. done.
Qed.

Lemma queue_is_bounded_witness :
  st_pending (run demo_step demo_opened.1 demo_run).1 = 1 /\
  st_pending (run demo_step demo_opened.1 demo_run).1 <= 100.
Proof.
  split; [by vm_compute|].
  apply (queue_is_bounded no_error_frame no_result no_field (2 ^ 63) demo_config test_ids demo_jitter 0 100
    demo_run); [lia|]. repeat (constructor; [first [exact I | apply Z.le_refl]|]). constructor.
Defined.
