(* ===== verification/StreamLedger.v ===== *)
(** * What becomes of every partial

    The conformance rule of the stream's event surface is that every partial is
    eventually superseded by a final.  Here the trace of [DeepgramStream] is read
    as a ledger: each partial on it is superseded by a final published later, or
    belongs to the utterance in progress, or to one whose final the driver
    discarded.  When the stream has closed, nothing is in progress. *)

From S2P Require Import Prelude Text Float32 Float64 Bytes SttTypes Backoff PcmRing SttClock.
From S2P Require Import SttStore Dedupe Deepgram DeepgramWire DeepgramStream.

Local Open Scope Z_scope.

(** A final of the same utterance and a newer revision, published or discarded. *)
Definition superseded (outs : list Output) (s : TranscriptSegment) : Prop :=
  exists t, (Emit (Final t) ∈ outs \/ Discard t ∈ outs) /\
    id t = id s /\ is_final t = true /\ seg_revision s < seg_revision t.

Definition has_partial (outs : list Output) : Prop := exists s, Emit (Partial s) ∈ outs.
Definition is_closed (outs : list Output) : Prop := Emit (StateEvent Closed) ∈ outs.

Lemma superseded_app a b s : superseded a s -> superseded (a ++ b) s.
Proof. intros (t & Ht & ?). exists t. split; [|done]. rewrite !elem_of_app. tauto. Qed.

Lemma trim_keeps `{UnicodeTables} s n :
  id (trim_leading_tokens s n).1 = id s /\ seg_revision (trim_leading_tokens s n).1 = seg_revision s /\
  is_final (trim_leading_tokens s n).1 = is_final s.
Proof.
  unfold trim_leading_tokens, trim_text_only. destruct n; [done|].
  destruct (words s); [by case_match|]. by case_match.
Qed.

Section Ledger.
Context `{UnicodeTables} `{SegmentIdFactory F} `{Jitter J}.
Context (parse_error_frame : string -> option DeepgramErrorFrame).
Context (parse_result : string -> result DeepgramResult string).
Context (body_field : string -> string -> option string).
Context (instant_max : Z).
Implicit Types (d : Driver F J) (st : Stream F J) (n : DeepgramNormalizer F).

Abbreviation step := (step parse_error_frame parse_result body_field instant_max).
Abbreviation handle_text := (handle_text parse_error_frame parse_result).

Definition ledger n (outs : list Output) : Prop :=
  normalizer_ok n /\
  forall s, Emit (Partial s) ∈ outs ->
    superseded outs s \/ exists o, n_open n = Some o /\ id o = id s /\ seg_revision s <= seg_revision o.

(** The normalizer's next segment [sn], and what the driver made of it. *)
Definition settles n n' (sn : TranscriptSegment) (new : list Output) : Prop :=
  normalizer_ok n' /\
  (forall o, n_open n = Some o -> id sn = id o /\ seg_revision sn = seg_revision o + 1) /\
  n_open n' = (if is_final sn then None else Some sn) /\
  (is_final sn = true -> exists t, (Emit (Final t) ∈ new \/ Discard t ∈ new) /\
     id t = id sn /\ seg_revision t = seg_revision sn /\ is_final t = true) /\
  (forall s, Emit (Partial s) ∈ new -> s = sn /\ is_final sn = false).

Lemma ledger_settles n n' sn outs new : ledger n outs -> settles n n' sn new -> ledger n' (outs ++ new).
Proof.
  intros [_ Hl] (Hok & Ho & Hn' & Hf & Hp). split; [done|].
  intros s [Hs|[-> Hsn]%Hp]%elem_of_app.
  - destruct (Hl s Hs) as [Hsup|(o & Eo & Hid & Hr)]; [left; by apply superseded_app|].
    destruct (Ho o Eo) as [Hi Hr']. destruct (is_final sn) eqn:Ef.
    + left. destruct (Hf eq_refl) as (t & Ht & ? & ? & ?). exists t. rewrite !elem_of_app.
      split_and!; [tauto|congruence|done|lia].
    + right. exists sn. split_and!; [done|congruence|lia].
  - right. exists sn. rewrite Hn', Hsn. split_and!; [done|done|lia].
Qed.

Lemma ledger_idle n n' outs new :
  ledger n outs -> normalizer_ok n' -> n_open n' = n_open n -> ~ has_partial new -> ledger n' (outs ++ new).
Proof.
  intros [_ Hl] Hok Ho Hnp. split; [done|].
  intros s [Hs|Hs]%elem_of_app; [|exfalso; apply Hnp; by exists s].
  rewrite Ho. destruct (Hl s Hs); [left; by apply superseded_app|by right].
Qed.

(** ** What the driver makes of a segment *)

(** It keeps the normalizer, and publishes the segment as what it is, trimmed or
    not, suppresses a partial, or discards a final. *)
Definition handled d d' (sn : TranscriptSegment) (new : list Output) : Prop :=
  d_normalizer d' = d_normalizer d /\ ~ is_closed new /\
  (is_final sn = true -> exists t, (Emit (Final t) ∈ new \/ Discard t ∈ new) /\
     id t = id sn /\ seg_revision t = seg_revision sn /\ is_final t = true) /\
  (forall s, Emit (Partial s) ∈ new -> s = sn /\ is_final sn = false).

Lemma handled_final d d' sn t new :
  d_normalizer d' = d_normalizer d -> new = [Emit (Final t)] \/ new = [Discard t] ->
  id t = id sn -> seg_revision t = seg_revision sn -> is_final t = is_final sn -> handled d d' sn new.
Proof.
  intros Hn Hnew Hi Hr Hf. split_and!; [done| | |].
  - intros Hc. destruct Hnew as [-> | ->]; apply list_elem_of_singleton in Hc; congruence.
  - intros Hsn. exists t. rewrite Hf, Hsn. split_and!; try done.
    destruct Hnew as [-> | ->]; [left|right]; apply list_elem_of_singleton; done.
  - intros s Hs. destruct Hnew as [-> | ->]; apply list_elem_of_singleton in Hs; congruence.
Qed.

Lemma publish_handled d0 d sn t :
  d_normalizer d = d_normalizer d0 ->
  t = sn \/ (is_final sn = true /\ id t = id sn /\ seg_revision t = seg_revision sn /\ is_final t = is_final sn) ->
  handled d0 (publish d t).1 sn (publish d t).2.
Proof.
  intros Hd Ht. unfold publish. destruct (is_final t) eqn:Ef.
  - eapply (handled_final _ _ _ t); [done|by left|..]; destruct Ht as [-> |(?&?&?&?)]; congruence.
  - destruct Ht as [-> |(?&?&?&?)]; [|congruence]. split_and!; [done| |congruence|].
    + intros Hc. apply list_elem_of_singleton in Hc. congruence.
    + intros s [= ->]%list_elem_of_singleton. done.
Qed.

Lemma emit_segment_handled d s : handled d (emit_segment d s).1 s (emit_segment d s).2.
Proof.
  unfold emit_segment. destruct (dedupe_armed d); [|apply publish_handled; auto].
  destruct (is_final s) eqn:Ef; simpl.
  - destruct (overlap_with_text (d_tail d) (text s)) as [|k]; [apply publish_handled; auto|].
    pose proof (trim_keeps s (S k)) as (Hi & Hr & Hf).
    destruct (trim_leading_tokens s (S k)) as [t []]; simpl in *.
    + apply publish_handled; [done|]. right. split_and!; congruence.
    + eapply (handled_final _ _ _ s); try done. by right.
  - split_and!; [done|by intros ?%not_elem_of_nil|by rewrite Ef|by intros ? ?%not_elem_of_nil].
Qed.

Lemma handled_settles n d d' sn outs new :
  ledger n outs -> normalizer_ok (d_normalizer d) ->
  (forall o, n_open n = Some o -> id sn = id o /\ seg_revision sn = seg_revision o + 1) ->
  n_open (d_normalizer d) = (if is_final sn then None else Some sn) ->
  handled d d' sn new -> ledger (d_normalizer d') (outs ++ new).
Proof.
  intros Hl Hok Ho Hn (Hd & _ & Hf & Hp). rewrite Hd. eapply ledger_settles; [done|]. by split_and!.
Qed.

Lemma next_of_open n n' m a s o :
  normalizer_ok n -> push_message_at n m a = Some (n', Some s) -> n_open n = Some o ->
  id s = id o /\ seg_revision s = seg_revision o + 1.
Proof.
  intros Hok Hp Eo. destruct (push_message_at_effect _ _ _ _ _ Hok Hp) as [_ (Hid & _)].
  unfold normalizer_ok in Hok. rewrite Eo in Hok. destruct Hok as (Ht & Hr & _).
  rewrite Ht in Hid. by rewrite <-Hr.
Qed.

Lemma handle_text_ledger d raw d' new outs :
  ledger (d_normalizer d) outs -> handle_text d raw = Some (d', new) ->
  ledger (d_normalizer d') (outs ++ new) /\ ~ is_closed new.
Proof.
  intros Hl. unfold DeepgramStream.handle_text.
  assert (Herr : forall e, ~ has_partial [Emit (ErrorEvent e)] /\ ~ is_closed [Emit (ErrorEvent e)]).
  { intros e. split; [intros [s [= ]%list_elem_of_singleton]|intros [= ]%list_elem_of_singleton]. }
  assert (Hnil : ~ has_partial [] /\ ~ is_closed []) by (split; [intros [s ?%not_elem_of_nil]|intros ?%not_elem_of_nil]; done).
  destruct (parse_error_frame raw ≫= _) as [fr|].
  { intros [= <- <-]. destruct (Herr (to_stt_error fr)). split; [|done]. eapply ledger_idle; [done|apply Hl|done|done]. }
  unfold push_json, push_message. destruct (parse_result raw) as [m|e]; cbn [mbind option_bind].
  - destruct (push_message_at (d_normalizer d) m None) as [[n o]|] eqn:Ep; [|done]. cbn [mbind option_bind].
    destruct (push_message_at_effect _ _ _ _ _ (proj1 Hl) Ep) as [Hok He]. destruct o as [s|].
    + pose proof (emit_segment_handled (set_normalizer d n) s) as Hh.
      destruct (emit_segment (set_normalizer d n) s) as [d1 o1]. intros [= <- <-]. split; [|apply Hh].
      eapply handled_settles; [done| | | |exact Hh]; [done| |apply He].
      intros o Eo. exact (next_of_open _ _ _ _ _ _ (proj1 Hl) Ep Eo).
    + intros [= <- <-]. simpl in He. subst. split; [|apply Hnil].
      eapply ledger_idle; [done|done|done|apply Hnil].
  - intros [= <- <-]. match goal with |- context [ErrorEvent ?e] => destruct (Herr e) end. split; [|done].
    eapply ledger_idle; [done|apply Hl|done|done].
Qed.

(** ** Closing an utterance *)

Lemma finish_handled d d' n dangling outs new (Hl : ledger (d_normalizer d) outs) :
  finish (d_normalizer d) = (n, dangling) -> d_normalizer d' = n ->
  match dangling with
  | Some t0 => exists t, (new = [Emit (Final t)] \/ new = [Discard t]) /\
      id t = id t0 /\ seg_revision t = seg_revision t0 /\ is_final t = is_final t0
  | None => new = []
  end ->
  ledger (d_normalizer d') (outs ++ new) /\ n_open (d_normalizer d') = None /\ ~ is_closed new.
Proof.
  intros Hf Hd Hnew. destruct (finish_effect _ _ _ (proj1 Hl) Hf) as (Hok & Ho & _ & Hnone & Hsome).
  rewrite Hd. destruct (n_open (d_normalizer d)) as [o|] eqn:Eo.
  - destruct (Hsome o eq_refl) as (t0 & -> & Hi & Hff & Hr & _).
    destruct Hnew as (t & Hnew & Hi' & Hr' & Hf').
    pose proof (handled_final (set_normalizer d n) d' t0 t new Hd Hnew Hi' Hr' Hf') as Hh.
    split_and!; [|done|apply Hh]. rewrite <-Hd. eapply handled_settles; [done| | | |exact Hh]; [done| |].
    + intros o' Eo'. rewrite Eo in Eo'. injection Eo' as <-. done.
    + simpl. by rewrite Hff.
  - destruct (Hnone eq_refl) as [-> ->]. subst new. rewrite app_nil_r.
    split_and!; [done|done|by intros ?%not_elem_of_nil].
Qed.

Lemma reconnect_finish d leg n dangling :
  reconnected_at (d_normalizer d) leg = (n, dangling) ->
  exists m, finish (d_normalizer d) = (m, dangling) /\ n_open n = n_open m /\
    (normalizer_ok m -> normalizer_ok n).
Proof.
  unfold reconnected_at. destruct (finish (d_normalizer d)) as [m g]. intros [= <- <-]. eauto.
Qed.

Lemma publish_dangling_shape d dangling :
  d_normalizer (publish_dangling d dangling).1 = d_normalizer d /\
  match dangling with
  | Some t0 => exists t, ((publish_dangling d dangling).2 = [Emit (Final t)] \/
                          (publish_dangling d dangling).2 = [Discard t]) /\
      id t = id t0 /\ seg_revision t = seg_revision t0 /\ is_final t = is_final t0
  | None => (publish_dangling d dangling).2 = []
  end.
Proof.
  unfold publish_dangling. destruct dangling as [s|]; [|done].
  destruct (confirmed_finals_only (d_config d)); [by eauto 10|].
  destruct (overlap_with_text (d_tail d) (text s)) as [|k]; [by eauto 10|].
  pose proof (trim_keeps s (S k)). destruct (trim_leading_tokens s (S k)) as [t []]; simpl in *; by eauto 10.
Qed.

(** What every operation of the driver keeps: the ledger, and that it closes only
    when nothing is in progress. *)
Definition keeps d (outs : list Output) (r : Driver F J * list Output * Phase) : Prop :=
  let '(d', new, p) := r in
  ledger (d_normalizer d') (outs ++ new) /\ (is_closed new -> p = Ended /\ n_open (d_normalizer d') = None).

Lemma run_exit_ledger d outs :
  ledger (d_normalizer d) outs ->
  ledger (d_normalizer (run_exit d).1) (outs ++ (run_exit d).2) /\ n_open (d_normalizer (run_exit d).1) = None.
Proof.
  intros Hl. unfold run_exit. destruct (finish (d_normalizer d)) as [n dangling] eqn:Ef.
  set (q := match dangling with
    | Some x => if confirmed_finals_only (d_config (set_normalizer d n)) then (set_normalizer d n, [Discard x])
                else commit_final (set_normalizer d n) x
    | None => (set_normalizer d n, [])
    end).
  assert (Hq : ledger (d_normalizer q.1) (outs ++ q.2) /\ n_open (d_normalizer q.1) = None /\ ~ is_closed q.2).
  { eapply finish_handled; [done|done| |]; unfold q; destruct dangling as [t|]; try done;
      destruct (confirmed_finals_only _); simpl; eauto 10. }
  destruct q as [d1 o1]. simpl in Hq. destruct Hq as (Hl1 & Ho1 & _).
  destruct (pending_close d1) as [a|]; cbn [fst snd set_pending_close d_normalizer];
    (split; [|done]); rewrite app_assoc; (eapply ledger_idle; [done|apply Hl1|done|]);
    intros [s Hs]; repeat apply elem_of_cons in Hs as [Hs|Hs]; try done; by apply not_elem_of_nil in Hs.
Qed.

Lemma quiet_errors outs e n :
  ledger n outs -> ledger n (outs ++ [Emit (ErrorEvent e)]).
Proof.
  intros Hl. eapply ledger_idle; [done|apply Hl|done|]. by intros [s [= ]%list_elem_of_singleton].
Qed.

(** Outputs with nothing for the ledger in them. *)
Definition plain (o : Output) : bool :=
  match o with Emit (Partial _) | Emit (StateEvent Closed) => false | _ => true end.

Lemma plain_spec l : forallb plain l = true -> ~ has_partial l /\ ~ is_closed l.
Proof.
  intros Hl. rewrite forallb_forall in Hl. split.
  - intros [s Hs%list_elem_of_In]. by specialize (Hl _ Hs).
  - intros Hs%list_elem_of_In. by specialize (Hl _ Hs).
Qed.

Lemma ledger_plain n n' outs new :
  ledger n outs -> normalizer_ok n' -> n_open n' = n_open n -> forallb plain new = true ->
  ledger n' (outs ++ new).
Proof. intros Hl Hok Ho Hp. eapply ledger_idle; [done|done|done|]. by apply plain_spec. Qed.

Lemma is_closed_app a b : is_closed (a ++ b) <-> is_closed a \/ is_closed b.
Proof. unfold is_closed. by rewrite elem_of_app. Qed.

Lemma stop_keeps d outs new0 :
  ledger (d_normalizer d) outs -> forallb plain new0 = true -> keeps d outs (stop d new0).
Proof.
  intros Hl Hp. unfold stop, keeps.
  assert (Hl' : ledger (d_normalizer d) (outs ++ new0)) by (eapply ledger_plain; [done|apply Hl|done|done]).
  destruct (run_exit_ledger d _ Hl') as [Hl1 Ho1]. destruct (run_exit d) as [d1 o1]. simpl in *.
  rewrite <-app_assoc in Hl1. by split.
Qed.

Lemma connection_failed_keeps d outs now e :
  ledger (d_normalizer d) outs -> keeps d outs (connection_failed instant_max d now e).
Proof.
  intros Hl. pose proof (quiet_errors outs e _ Hl) as Hle. unfold connection_failed, backoff_then_retry, keeps.
  destruct (retryable e).
  - destruct (try_record (d_budget d) (elapsed_ms d now)) as [b [a|]].
    + destruct (unit_draw (d_jitter (set_budget d b))) as [u j]. split.
      * eapply ledger_plain; [done|apply Hl|done|done].
      * intros Hc. by apply (plain_spec [Emit (ErrorEvent e); Emit (StateEvent Reconnecting)]) in Hc.
    + set (d1 := set_budget d b).
      pose proof (quiet_errors _ (gave_up_error (sc_backoff (d_config (run_exit d1).1))) _ Hle) as Hl2.
      destruct (run_exit_ledger d1 _ Hl2) as [Hl3 Ho3]. destruct (run_exit d1) as [d2 o2]. simpl in *.
      split; [|done]. by rewrite <-!app_assoc in Hl3.
  - destruct (run_exit_ledger d _ Hle) as [Hl1 Ho1]. destruct (run_exit d) as [d1 o1]. simpl in *.
    rewrite <-app_assoc in Hl1. by split.
Qed.

Lemma fail_with_keeps d0 d outs now new0 e :
  ledger (d_normalizer d) (outs ++ new0) -> ~ is_closed new0 ->
  keeps d0 outs (fail_with instant_max d now new0 e).
Proof.
  intros Hl Hc. unfold fail_with. pose proof (connection_failed_keeps d _ now e Hl) as Hk.
  destruct (connection_failed instant_max d now e) as [[d1 o1] p1]. destruct Hk as [Hl1 Hc1].
  rewrite <-app_assoc in Hl1. split; [done|]. rewrite is_closed_app. tauto.
Qed.

Lemma fail_plain d0 d outs now new0 e :
  ledger (d_normalizer d) outs -> forallb plain new0 = true ->
  keeps d0 outs (fail_with instant_max d now new0 e).
Proof.
  intros Hl Hp. apply fail_with_keeps; [|by apply plain_spec].
  eapply ledger_plain; [done|apply Hl|done|done].
Qed.

Lemma pump_enter_ledger d first sent d' new failed outs :
  ledger (d_normalizer d) outs -> pump_enter body_field d first sent = (d', new, failed) ->
  ledger (d_normalizer d') (outs ++ new) /\ ~ is_closed new.
Proof.
  intros Hl Hp. unfold pump_enter in Hp.
  set (replay := replay_from (d_ring d) (leg_ms d (last_final_end_ms d))) in *. destruct first.
  - assert (Hd : d' = d /\ forallb plain new = true).
    { destruct (replay_is_empty replay); [by simplify_eq|]. destruct sent; by simplify_eq. }
    destruct Hd as [-> Hpl]. split; [|by apply plain_spec]. eapply ledger_plain; [done|apply Hl|done|done].
  - destruct (reconnected_at (d_normalizer d) (ra_start_ms replay)) as [n dangling] eqn:Er.
    destruct (reconnect_finish _ _ _ _ Er) as (m & Ef & Hom & Hokm).
    destruct (publish_dangling_shape (set_normalizer d n) dangling) as [Hn2 Hshape].
    destruct (publish_dangling (set_normalizer d n) dangling) as [d2 o2]. simpl in Hn2, Hshape.
    destruct (finish_handled d (set_normalizer d m) m dangling outs o2 Hl Ef eq_refl Hshape)
      as (Hl2 & Ho2 & Hc2).
    assert (Hl2' : ledger n (outs ++ o2)).
    { destruct Hl2 as [Hok2 Hl2]. split; [by apply Hokm|]. by rewrite Hom. }
    assert (Hd : d_normalizer d' = n /\ exists more, new = o2 ++ more /\ forallb plain more = true).
    { destruct (lost_audio replay), (confirmed_finals_only (d_config _)).
      all: try destruct (replay_is_empty replay); try destruct sent; simplify_eq; simpl; (split; [done|]);
        first [exists []; by rewrite app_nil_r | rewrite <-?app_assoc; eexists; split; done]. }
    destruct Hd as (-> & more & -> & Hpl). destruct (plain_spec _ Hpl). rewrite is_closed_app. split; [|tauto].
    rewrite app_assoc. eapply ledger_plain; [done|apply Hl2'|done|done].
Qed.

Lemma connect_keeps d now first o sent outs :
  ledger (d_normalizer d) outs -> keeps d outs (connect body_field instant_max d now first o sent).
Proof.
  intros Hl. unfold connect. destruct (connect_result body_field o) as [[]|e]; [|by apply fail_plain].
  destruct (pump_enter body_field d first sent) as [[d1 o1] failed] eqn:Ep.
  set (dial := Dial _). set (opened := Emit (StateEvent Open)).
  assert (Hl0 : ledger (d_normalizer d) (outs ++ [dial; opened])) by (eapply ledger_plain; [done|apply Hl|done|done]).
  destruct (pump_enter_ledger _ _ _ _ _ _ _ Hl0 Ep) as [Hl1 Hc1]. rewrite <-app_assoc in Hl1.
  change ([dial; opened] ++ o1) with (dial :: opened :: o1) in Hl1.
  assert (Hc : ~ is_closed (dial :: opened :: o1)).
  { intros [?|[?|?]%elem_of_cons]%elem_of_cons; done. }
  destruct failed as [e|]; [by apply fail_with_keeps|]. by split.
Qed.

Lemma pump_command_keeps d now t c sent outs :
  ledger (d_normalizer d) outs -> keeps d outs (pump_command body_field instant_max d now t c sent).
Proof.
  intros Hl. destruct c as [pcm|a|a]; simpl.
  - destruct sent; [by apply (fail_plain _ (set_ring d _))|].
    split; [eapply ledger_plain; [done|apply Hl|done|done]|]. by intros Hc%(plain_spec [_]).
  - destruct sent; [by apply fail_plain|].
    split; [eapply ledger_plain; [done|apply Hl|done|done]|]. by intros Hc%(plain_spec [_; _]).
  - apply (stop_keeps (set_pending_close d (Some a))); [done|]. by destruct sent.
Qed.

Lemma drain_command_keeps d dl c outs :
  ledger (d_normalizer d) outs -> keeps d outs (drain_command d dl c).
Proof.
  intros Hl. destruct c as [pcm|a|a]; simpl.
  - rewrite app_nil_r. split; [done|]. by intros ?%not_elem_of_nil.
  - split; [eapply ledger_plain; [done|apply Hl|done|done]|]. by intros Hc%(plain_spec [_]).
  - by apply (stop_keeps (set_pending_close d (Some a))).
Qed.

Lemma pump_message_keeps d now t m outs :
  ledger (d_normalizer d) outs ->
  keeps d outs (pump_message parse_error_frame parse_result body_field instant_max d now t m).
Proof.
  intros Hl. assert (Hidle : forall p, keeps d outs (d, [], p)).
  { intros p. split; [by rewrite app_nil_r|]. by intros ?%not_elem_of_nil. }
  destruct m as [raw|frame| |e|]; simpl; try by apply fail_plain.
  - destruct (handle_text d raw) as [[d1 o1]|] eqn:E; [|apply Hidle].
    destruct (handle_text_ledger _ _ _ _ _ Hl E). by split.
  - destruct (default (1005, EmptyString) frame). by apply fail_plain.
  - apply Hidle.
Qed.

Lemma pump_keepalive_keeps d now t sent outs :
  ledger (d_normalizer d) outs -> keeps d outs (pump_keepalive body_field instant_max d now t sent).
Proof.
  intros Hl. unfold pump_keepalive. destruct (_ <=? _).
  - destruct sent; [by apply fail_plain|].
    split; [eapply ledger_plain; [done|apply Hl|done|done]|]. by intros Hc%(plain_spec [_]).
  - split; [by rewrite app_nil_r|]. by intros ?%not_elem_of_nil.
Qed.

(** ** The stream *)

Definition accounts st (outs : list Output) : Prop :=
  ledger (d_normalizer (st_driver st)) outs /\
  (is_closed outs -> st_phase st = Ended /\ n_open (d_normalizer (st_driver st)) = None).

Lemma settle_accounts st res outs q dr r :
  accounts st outs -> st_phase st <> Ended -> keeps (st_driver st) outs r ->
  settle_with st q dr r = res -> accounts res.1 (outs ++ res.2).
Proof.
  intros [Hl Hc] Hne. destruct r as [[d new] p]. intros [Hl' Hc'] <-. unfold accounts.
  rewrite is_closed_app.
  assert (Hd : st_driver (settle_with st q dr (d, new, p)).1 = d /\
               st_phase (settle_with st q dr (d, new, p)).1 = p) by (by destruct p).
  destruct Hd as [-> ->]. split; [done|]. intros [Hcl%Hc|Hcl%Hc']; [tauto|done].
Qed.

Lemma accounts_same st st' outs :
  accounts st outs -> st_driver st' = st_driver st ->
  st_phase st' = st_phase st \/ st_phase st' = Ended -> accounts st' (outs ++ []).
Proof.
  intros [Hl Hc] Hd Hp. rewrite app_nil_r. unfold accounts. rewrite Hd. split; [done|].
  intros Hcl%Hc. destruct Hp as [-> | ->]; tauto.
Qed.

Lemma step_accounts st i outs : accounts st outs -> accounts (step st i).1 (outs ++ (step st i).2).
Proof.
  intros Ha. destruct i as [now stim].
  assert (Hid : accounts st (outs ++ [])) by (eapply accounts_same; eauto).
  destruct stim as [pcm m|a|a| | |o sent|sent|m|sent| ]; simpl.
  - eapply accounts_same; [done|unfold write_bounded; by repeat case_match|].
    left. unfold write_bounded. by repeat case_match.
  - eapply accounts_same; [done|unfold flush; by repeat case_match|].
    left. unfold flush. by repeat case_match.
  - eapply accounts_same; [done|unfold close; by repeat case_match|].
    left. unfold close. by repeat case_match.
  - by eapply accounts_same; [done|done|right].
  - by eapply accounts_same; [done|done|left].
  - destruct (st_phase st) eqn:Ep; try done.
    eapply settle_accounts; [done|by rewrite Ep|apply connect_keeps, Ha|done].
  - destruct (st_phase st) eqn:Ep; try done; destruct (st_queue st) as [|c q];
      try (destruct (st_handle_dropped st); [|done]);
      (eapply settle_accounts; [done|by rewrite Ep| |done]).
    + apply stop_keeps; [apply Ha|done].
    + apply pump_command_keeps, Ha.
    + apply stop_keeps; [apply Ha|done].
    + apply drain_command_keeps, Ha.
  - destruct (st_phase st) eqn:Ep; try done.
    eapply settle_accounts; [done|by rewrite Ep|apply pump_message_keeps, Ha|done].
  - destruct (st_phase st) eqn:Ep; try done.
    eapply settle_accounts; [done|by rewrite Ep|apply pump_keepalive_keeps, Ha|done].
  - destruct (st_phase st) as [| |[dl|]|] eqn:Ep; try done. destruct (dl <=? now); [|done].
    eapply (settle_accounts st _ outs (st_queue st) [] (st_driver st, [], Dialing false));
      [done|by rewrite Ep| |done].
    split; [rewrite app_nil_r; apply Ha|]. by intros ?%not_elem_of_nil.
Qed.

Lemma run_accounts st ins outs : accounts st outs -> accounts (run step st ins).1 (outs ++ (run step st ins).2).
Proof.
  revert st outs. induction ins as [|i ins IH]; intros st outs Ha; [by rewrite app_nil_r|].
  rewrite run_cons. simpl. rewrite app_assoc. by apply IH, step_accounts.
Qed.

End Ledger.

(** Once the stream has said it is closed, every partial it ever published has
    been superseded by a newer final of the same utterance that it published, or
    that it discarded because a reconnect's replay had made it a repetition (or
    because it only publishes confirmed finals). *)
Theorem closed_stream_settles_partials `{UnicodeTables} `{SegmentIdFactory F} `{Jitter J}
    parse_error_frame parse_result body_field instant_max
    (config : DeepgramStreamConfig) (factory : F) (jitter : J) (t0 : Z) (ins : list (Z * Stimulus))
    (s : TranscriptSegment) :
  let opened := open_with_jitter config factory jitter t0 in
  let outs := opened.2 ++ (run (step parse_error_frame parse_result body_field instant_max) opened.1 ins).2 in
  is_closed outs -> Emit (Partial s) ∈ outs -> superseded outs s.
Proof.
  intros opened outs Hc Hs.
  assert (Ha : accounts opened.1 opened.2).
  { split; [split; [done|]|].
    - intros x Hx%list_elem_of_singleton. done.
    - intros Hx%list_elem_of_singleton. done. }
  pose proof (run_accounts parse_error_frame parse_result body_field instant_max _ ins _ Ha) as [[_ Hl] Hcl].
  destruct (Hcl Hc) as [_ Ho]. destruct (Hl s Hs) as [|(o & Eo & _)]; [done|congruence].
Qed.

(** ** Runs *)

(** A provider that speaks in named frames. *)
Definition named_frame (raw : string) : result DeepgramResult string :=
  if bool_decide (raw = "final okay"%string) then Ok (test_frame true true "okay" 0)
  else if bool_decide (raw = "partial okay"%string) then Ok (test_frame false false "okay" 1)
  else if bool_decide (raw = "partial hello"%string) then Ok (test_frame false false "hello" 1)
  else Err raw.

Definition named_step := step (F:=CountingIdFactory) (J:=FixedJitter) (fun _ => None) named_frame (fun _ _ => None) (2 ^ 63).
Definition named_opened : Stream CountingIdFactory FixedJitter * list Output :=
  open_with_jitter (with_backoff (stream_config_new "key" test_config) backoff_fast) test_ids (mkFixedJitter f64_zero) 0.
Definition outputs_of (ins : list (Z * Stimulus)) : list Output :=
  named_opened.2 ++ (run named_step named_opened.1 ins).2.
Definition published_by (ins : list (Z * Stimulus)) : list TranscriptSegment :=
  omap (fun o => match o with Emit e => event_segment e | _ => None end) (outputs_of ins).
Definition says (raw : string) : Z * Stimulus := (0, SocketMessage (TextMessage raw)).
Definition reconnect : list (Z * Stimulus) :=
  [(0, SocketMessage EndOfSocket); (1000000000, DeadlineElapsed); (1000000000, ConnectEnds ConnectOk None)].
Definition hang_up : list (Z * Stimulus) := [(1000000001, CloseCall 7); (1000000001, RecvCommand None)].

Definition plain_run : list (Z * Stimulus) :=
  [(0, ConnectEnds ConnectOk None); says "partial hello"] ++ reconnect ++ hang_up.

Lemma closed_stream_settles_partials_witness :
  exists s, Emit (Partial s) ∈ outputs_of plain_run /\ superseded (outputs_of plain_run) s /\
    text <$> published_by plain_run = ["hello"; "hello"]%string.
Proof.
  destruct (published_by plain_run) as [|s l] eqn:E; [vm_compute in E; discriminate|].
  exists s. assert (Hs : Emit (Partial s) ∈ outputs_of plain_run).
  { vm_compute in E. injection E as <- _. vm_compute. do 3 right. left. }
  split; [exact Hs|]. split; [|rewrite <-E; by vm_compute].
  eapply (closed_stream_settles_partials (fun _ => None) named_frame (fun _ _ => None) (2 ^ 63)
    _ test_ids (mkFixedJitter f64_zero) 0 plain_run s); [|exact Hs].
  vm_compute. repeat (first [left | right]).
Defined.

(** The discard is not always a repetition.  A speaker says a word that ended the
    utterance before, the partial is published, and the socket dies: the final that
    would settle it matches the tail and is dropped, so the line stays pending in
    the store when the stream has closed. *)
Example repeated_word_stays_pending :
  let run := [(0, ConnectEnds ConnectOk None); says "final okay"; says "partial okay"]
             ++ reconnect ++ hang_up in
  is_closed (outputs_of run) /\
  pending_ids (upsert_all store_new (published_by run)) = ["u-1"%string].
Proof. split; [vm_compute; repeat (first [left | right])|by vm_compute]. Qed.

(** And the end of the stream has no deduplication at all: closing while the replay
    is being transcribed again publishes the replayed words a second time. *)
Example closing_in_replay_says_it_twice :
  let run := [(0, ConnectEnds ConnectOk None); says "partial hello"]
             ++ reconnect ++ [says "partial hello"] ++ hang_up in
  (fun s => (id s, text s, is_final s)) <$> published_by run =
  [("u-0", "hello", false); ("u-0", "hello", true); ("u-1", "hello", true)]%string.
Proof. by vm_compute. Qed.
