(* ===== verification/PostWindows.v ===== *)
(** * fotwd: reading a saved track window by window

    Models [crates/fotwd/src/post_pass/windows.rs]: the plan of overlapping
    windows over a track, and the reader that hands them out holding one window
    of audio.  Where the audio comes from is the trait [PcmSource], a class here;
    the in-memory track is an instance, the Opus decoder is a library.  [None] is
    a panic: the assertion on the sizes, or an arithmetic underflow. *)

From S2P Require Import Prelude.

Local Open Scope Z_scope.

Definition RATE : Z := 16000.
Definition WINDOW_MS : Z := 30000.
Definition OVERLAP_MS : Z := 2000.

Definition samples (ms : Z) : Z := ms * RATE / 1000.
Definition millis (n : Z) : Z := n * 1000 / RATE.

(** ** The plan *)

Fixpoint plan_loop (rounds : nat) (total window overlap start : Z) : option (list (Z * Z)) :=
  match rounds with
  | O => None
  | S rounds =>
      e ← checked_add64 start window;
      let e := Z.min e total in
      if e =? total then Some [(start, e)]
      else
        start' ← checked_sub e overlap;
        rest ← plan_loop rounds total window overlap start';
        Some ((start, e) :: rest)
  end.

(** One round per sample is enough: every window starts later than the last. *)
Definition plan (total window overlap : Z) : option (list (Z * Z)) :=
  if overlap <? window then
    if total =? 0 then Some [] else plan_loop (Z.to_nat total) total window overlap 0
  else None.

(** ** The reader *)

Record PcmWindow := mkPcmWindow { pw_index : nat; pw_start : Z; pcm : list Z }.

(** The trait: the track's length, and a read that appends at most [max] samples,
    or fails. *)
Class PcmSource (S : Type) := {
  total : S -> Z;
  read : S -> Z -> S * result (list Z) string;
}.

Record MemoryTrack := mkMemoryTrack { mt_pcm : list Z; mt_pos : nat }.

Definition memory_track (l : list Z) : MemoryTrack := mkMemoryTrack l 0.

Definition memory_read (self : MemoryTrack) (max : Z) : MemoryTrack * result (list Z) string :=
  let n := Nat.min (Z.to_nat max) (length (mt_pcm self) - mt_pos self) in
  (mkMemoryTrack (mt_pcm self) (mt_pos self + n), Ok (take n (drop (mt_pos self) (mt_pcm self)))).

#[export] Instance memory_source : PcmSource MemoryTrack :=
  {| total := fun self => zlen (mt_pcm self); read := memory_read |}.

Record WindowReader (S : Type) := mkWindowReader {
  wr_source : S;
  wr_plan : list (Z * Z);
  wr_next : nat;
  buf : list Z;
  buf_start : Z;
}.
Arguments mkWindowReader {S}.
Arguments wr_source {S}.
Arguments wr_plan {S}.
Arguments wr_next {S}.
Arguments buf {S}.
Arguments buf_start {S}.

(** [1 << 16] samples at most are asked for at a time. *)
Definition READ_MAX : Z := 65536.
Definition short_track : string := "the saved track ended before its recorded length".

Section Reader.
Context `{PcmSource Src}.

Definition with_sizes (source : Src) (window overlap : Z) : option (WindowReader Src) :=
  p ← plan (total source) window overlap; Some (mkWindowReader source p 0 [] 0).

Definition reader_new (source : Src) : option (WindowReader Src) :=
  with_sizes source (samples WINDOW_MS) (samples OVERLAP_MS).

(** Drop what lies before [start]. *)
Definition drop_before (start : Z) (b : list Z) (b0 : Z) : option (list Z * Z) :=
  gap ← checked_sub start b0;
  let k := Z.min gap (zlen b) in
  Some (drop (Z.to_nat k) b, b0 + k).

(** The [while] loop: read until the buffer reaches [end_]. *)
Fixpoint fill_window (rounds : nat) (source : Src) (start end_ : Z) (b : list Z) (b0 : Z)
  : option (Src * list Z * Z * result unit string) :=
  if end_ <=? b0 + zlen b then Some (source, b, b0, Ok tt)
  else match rounds with
  | O => None
  | S rounds =>
      let want := end_ - b0 - zlen b in
      match read source (Z.min want READ_MAX) with
      | (source, Err e) => Some (source, b, b0, Err e)
      | (source, Ok []) => Some (source, b, b0, Err short_track)
      | (source, Ok more) =>
          let b := b ++ more in
          '(b, b0) ← (if b0 <? start then drop_before start b b0 else Some (b, b0));
          fill_window rounds source start end_ b b0
      end
  end.

(** The next window; the loop reads at least one sample a round. *)
Definition next_window (self : WindowReader Src) (skip : nat -> bool)
  : option (WindowReader Src * result (option PcmWindow) string) :=
  match wr_plan self !! wr_next self with
  | None => Some (self, Ok None)
  | Some (start, end_) =>
      let index := wr_next self in
      '(b, b0) ← drop_before start (buf self) (buf_start self);
      '(source, b, b0, r) ← fill_window (Z.to_nat (end_ - b0)) (wr_source self) start end_ b b0;
      let self := mkWindowReader source (wr_plan self) (index + 1) b b0 in
      match r with
      | Err e => Some (self, Err e)
      | Ok _ =>
          from ← checked_sub start b0;
          to ← checked_sub end_ b0;
          let audio := if skip index then [] else take (Z.to_nat (to - from)) (drop (Z.to_nat from) b) in
          Some (self, Ok (Some (mkPcmWindow index start audio)))
      end
  end.

End Reader.

(** ** The plan covers the track *)

(** Windows from [start] on: none empty, all but the last of full length, the next
    one reaching back by the overlap and past the end of the one before. *)
Fixpoint tiled (total window overlap start : Z) (ws : list (Z * Z)) : Prop :=
  match ws with
  | [] => False
  | [(s, e)] => s = start /\ e = total /\ s < e <= s + window
  | (s, e) :: rest =>
      s = start /\ e = s + window /\ e < total /\ tiled total window overlap (e - overlap) rest
  end.

Lemma plan_loop_tiled rounds total window overlap start :
  0 <= overlap < window -> 0 <= start < total -> total + window <= u64_max ->
  total - start <= Z.of_nat rounds ->
  exists ws, plan_loop rounds total window overlap start = Some ws /\ tiled total window overlap start ws.
Proof.
  intros Hw. revert start. induction rounds as [|rounds IH]; intros start Hs Hu Hr; [lia|].
  cbn [plan_loop]. rewrite checked_add64_Some by lia. cbn [mbind option_bind].
  destruct (Z.eqb_spec (Z.min (start + window) total) total) as [E|E].
  - rewrite E. eexists. split; [done|]. simpl. lia.
  - replace (Z.min (start + window) total) with (start + window) by lia.
    rewrite checked_sub_Some by lia. cbn [mbind option_bind].
    destruct (IH (start + window - overlap)) as (ws & -> & Ht); [lia..|].
    eexists. split; [done|]. simpl. destruct ws as [|[s e] ws]; [done|]. split_and!; done || lia.
Qed.

Lemma plan_tiled total window overlap :
  0 <= overlap < window -> 0 < total -> total + window <= u64_max ->
  exists ws, plan total window overlap = Some ws /\ tiled total window overlap 0 ws.
Proof.
  intros. unfold plan. rewrite (proj2 (Z.ltb_lt _ _)), (proj2 (Z.eqb_neq _ _)) by lia.
  apply plan_loop_tiled; lia.
Qed.

(** With an overlap shorter than the window the plan always comes out, whatever
    the length of the track: it starts at zero, every window but the last is full,
    each reaches back into the last by exactly the overlap and ends beyond it, and
    the last ends where the track does.  An overlap as long as the window is the
    only panic. *)
Theorem plan_covers_the_track (track window overlap : Z) :
  0 <= overlap -> 0 <= window -> 0 <= track -> track + window <= u64_max ->
  (plan track window overlap = None <-> window <= overlap) /\
  (overlap < window -> 0 < track ->
   exists ws, plan track window overlap = Some ws /\ tiled track window overlap 0 ws).
Proof.
  intros Ho Hw Ht Hu. split; [|intros; by apply plan_tiled].
  unfold plan at 1. destruct (Z.ltb_spec overlap window); [|split; [lia|done]].
  destruct (Z.eqb_spec track 0); [split; [done|lia]|].
  destruct (plan_loop_tiled (Z.to_nat track) track window overlap 0) as (ws & -> & _); [lia..|].
  split; [done|lia].
Qed.

Lemma plan_covers_the_track_witness :
  plan 31 30 2 = Some [(0, 30); (28, 31)] /\ tiled 31 30 2 0 [(0, 30); (28, 31)].
Proof.
  destruct (plan_covers_the_track 31 30 2) as [_ H]; [by vm_compute..|].
  destruct H as (ws & E & Ht); [lia..|]. vm_compute in E. injection E as <-. split; [done|exact Ht].
Defined.

(** ** The reader hands out exactly the planned windows *)

(** What the reader relies on of a source: [holds s rest] says what is still unread,
    and a read that does not fail gives some of it, in order, and no more than was
    asked for. *)
Class PcmSourceLaws (Src : Type) `{PcmSource Src} (holds : Src -> list Z -> Prop) := {
  read_in_order s rest max s' more :
    holds s rest -> 0 < max -> read s max = (s', Ok more) ->
    more = take (length more) rest /\ zlen more <= max /\ (rest <> [] -> more <> []) /\
    holds s' (drop (length more) rest);
}.

Definition memory_holds (t : MemoryTrack) (rest : list Z) : Prop :=
  rest = drop (mt_pos t) (mt_pcm t) /\ (mt_pos t <= length (mt_pcm t))%nat.

#[export] Instance memory_laws : PcmSourceLaws MemoryTrack memory_holds.
Proof.
  split. intros s rest max s' more [-> Hp] Hmax. unfold read. simpl. unfold memory_read.
  intros [= <- <-]. set (n := Nat.min _ _).
  assert (Hl : length (take n (drop (mt_pos s) (mt_pcm s))) = n).
  { rewrite length_take, length_drop. lia. }
  rewrite Hl. split_and!.
  - done.
  - unfold zlen. rewrite Hl. lia.
  - intros Hne Hn. apply Hne. apply nil_length_inv. apply (f_equal length) in Hn.
    rewrite Hl in Hn. simpl in Hn. rewrite length_drop. lia.
  - split; [by rewrite drop_drop|]. simpl. lia.
Qed.

(** The samples [[a, b)] of a track. *)
Definition slice (track : list Z) (a b : Z) : list Z := take (Z.to_nat (b - a)) (drop (Z.to_nat a) track).

Lemma slice_length track a b : 0 <= a <= b -> b <= zlen track -> zlen (slice track a b) = b - a.
Proof. unfold slice, zlen. intros. rewrite length_take, length_drop. lia. Qed.

Lemma slice_drop track a b c : 0 <= a <= c -> c <= b -> drop (Z.to_nat (c - a)) (slice track a b) = slice track c b.
Proof.
  intros. unfold slice. rewrite skipn_firstn_comm, drop_drop. f_equal; [lia|f_equal; lia].
Qed.

Lemma slice_app track a b c :
  0 <= a <= b -> b <= c -> slice track a b ++ slice track b c = slice track a c.
Proof.
  intros. unfold slice.
  replace (Z.to_nat (c - a)) with (Z.to_nat (b - a) + Z.to_nat (c - b))%nat by lia.
  rewrite <-take_take_drop, drop_drop. do 3 f_equal. lia.
Qed.

Section ReaderProofs.
Context `{PcmSourceLaws Src holds}.
Implicit Types (source : Src) (track : list Z) (r : WindowReader Src).

Lemma read_slice track source pos max source' more :
  holds source (drop (Z.to_nat pos) track) -> 0 <= pos < zlen track -> 0 < max ->
  read source max = (source', Ok more) ->
  more <> [] /\ zlen more <= max /\ pos + zlen more <= zlen track /\
  more = slice track pos (pos + zlen more) /\ holds source' (drop (Z.to_nat (pos + zlen more)) track).
Proof.
  intros Hh Hp Hm Hr. destruct (read_in_order _ _ _ _ _ Hh Hm Hr) as (Ht & Hl & Hne & Hh').
  assert (Hlen : (length more <= length track - Z.to_nat pos)%nat).
  { rewrite Ht, length_take, length_drop. lia. }
  unfold zlen in *. split_and!; try done; try lia.
  - apply Hne. intros Hd. apply (f_equal length) in Hd. rewrite length_drop in Hd. simpl in Hd. lia.
  - rewrite Ht at 1. unfold slice. f_equal. lia.
  - rewrite drop_drop in Hh'. replace (Z.to_nat (pos + Z.of_nat (length more))) with (Z.to_nat pos + length more)%nat by lia.
    done.
Qed.

Lemma fill_window_slice rounds track source start end_ b0 pos :
  holds source (drop (Z.to_nat pos) track) -> 0 <= b0 <= pos -> start <= b0 -> pos <= end_ <= zlen track ->
  end_ - pos <= Z.of_nat rounds ->
  exists source' b' res,
    fill_window rounds source start end_ (slice track b0 pos) b0 = Some (source', b', b0, res) /\
    (res = Ok tt -> b' = slice track b0 end_ /\ holds source' (drop (Z.to_nat end_) track)).
Proof.
  revert source pos. induction rounds as [|rounds IH]; intros source pos Hh Hb Hs He Hr; cbn [fill_window].
  all: rewrite slice_length by lia.
  all: destruct (Z.leb_spec end_ (b0 + (pos - b0))) as [Hle|Hgt].
  - assert (pos = end_) as -> by lia. eauto 10.
  - lia.
  - assert (pos = end_) as -> by lia. eauto 10.
  - assert (0 < READ_MAX) by done.
    set (max := Z.min (end_ - b0 - (pos - b0)) READ_MAX).
    assert (Hmax : 0 < max <= end_ - pos) by lia.
    destruct (read source max) as [source1 [more|e]] eqn:Er; [|eexists _, _, _; split; done].
    destruct (read_slice track source pos max source1 more Hh ltac:(lia) ltac:(lia) Er)
      as (Hne & Hl & Hle & Hm & Hh1).
    destruct more as [|x more]; [done|]. rewrite (proj2 (Z.ltb_ge b0 start)) by lia. cbn [mbind option_bind].
    assert (0 < zlen (x :: more)) by (unfold zlen; simpl; lia).
    replace (slice track b0 pos ++ x :: more) with (slice track b0 (pos + zlen (x :: more)))
      by (rewrite <-(slice_app track b0 pos), <-Hm by lia; done).
    apply (IH source1 (pos + zlen (x :: more))); [done|lia..].
Qed.

(** Before window [k]: the buffer ends where reading stopped, between the start of
    the next window and its end. *)
Definition reader_at track (ws : list (Z * Z)) (k : nat) r : Prop :=
  wr_plan r = ws /\ wr_next r = k /\
  exists pos, 0 <= buf_start r <= pos /\ buf r = slice track (buf_start r) pos /\
    holds (wr_source r) (drop (Z.to_nat pos) track) /\ pos <= zlen track /\
    forall s e, ws !! k = Some (s, e) -> buf_start r <= s <= pos /\ pos <= e <= zlen track.

(** Successive windows overlap and advance. *)
Definition advancing (ws : list (Z * Z)) (limit : Z) : Prop :=
  forall k s e s' e', ws !! k = Some (s, e) -> ws !! (k + 1)%nat = Some (s', e') ->
    s <= s' <= e /\ e <= e' <= limit.

Definition expected track (skip : nat -> bool) (k : nat) (w : Z * Z) : PcmWindow :=
  mkPcmWindow k w.1 (if skip k then [] else slice track w.1 w.2).

Lemma next_window_exact track ws k r skip :
  advancing ws (zlen track) -> reader_at track ws k r ->
  match ws !! k with
  | None => next_window r skip = Some (r, Ok None)
  | Some w => exists r' res, next_window r skip = Some (r', res) /\
      match res with
      | Err _ => True
      | Ok None => False
      | Ok (Some got) => got = expected track skip k w /\ reader_at track ws (k + 1) r' /\ zlen (buf r') = w.2 - w.1
      end
  end.
Proof.
  intros Hadv (Hp & Hk & pos & Hb & Hbuf & Hh & Hpos & Hwin). unfold next_window. rewrite Hp, Hk.
  destruct (ws !! k) as [[s e]|] eqn:Ew; [|done].
  destruct (Hwin s e eq_refl) as [Hs He]. unfold drop_before.
  rewrite checked_sub_Some by lia. cbn [mbind option_bind].
  assert (Hlen : zlen (buf r) = pos - buf_start r) by (rewrite Hbuf; apply slice_length; lia).
  rewrite Hlen, Z.min_l, Hbuf, slice_drop by lia. cbv beta iota.
  replace (buf_start r + (s - buf_start r)) with s by lia.
  destruct (fill_window_slice (Z.to_nat (e - s)) track (wr_source r) s e s pos) as (src & b' & res & -> & Hres);
    [done|lia..|]. cbn [mbind option_bind].
  destruct res as [[]|err]; [|eexists _, _; split; done]. destruct (Hres eq_refl) as [-> Hh'].
  rewrite !checked_sub_Some by lia. cbn [mbind option_bind]. eexists _, _. split; [done|].
  split_and!.
  - unfold expected. simpl. rewrite Z.sub_diag, drop_0. destruct (skip k); [done|]. f_equal.
    apply take_ge. pose proof (slice_length track s e). unfold zlen in *. lia.
  - split_and!; [done|done|]. exists e. simpl. split_and!; try done; try lia.
    intros s' e' Ew'. destruct (Hadv k s e s' e' Ew Ew'). lia.
  - simpl. apply slice_length; lia.
Qed.

(** Every window until the reader is done or fails, as the caller's loop takes them. *)
Fixpoint read_all (rounds : nat) r (skip : nat -> bool) : option (list PcmWindow * option string) :=
  match rounds with
  | O => None
  | S rounds =>
      '(r, res) ← next_window r skip;
      match res with
      | Err e => Some ([], Some e)
      | Ok None => Some ([], None)
      | Ok (Some w) => '(ws, e) ← read_all rounds r skip; Some (w :: ws, e)
      end
  end.

Lemma read_all_exact track ws rounds k r skip :
  advancing ws (zlen track) -> reader_at track ws k r -> (length ws - k < rounds)%nat ->
  exists n e, read_all rounds r skip = Some (imap (fun i w => expected track skip (k + i) w) (take n (drop k ws)), e) /\
    (e = None -> (length ws - k <= n)%nat).
Proof.
  intros Hadv. revert k r. induction rounds as [|rounds IH]; intros k r Hr Hl; [lia|].
  pose proof (next_window_exact track ws k r skip Hadv Hr) as Hn. cbn [read_all].
  destruct (ws !! k) as [w|] eqn:Ew.
  - destruct Hn as (r' & res & -> & Hres). cbn [mbind option_bind].
    destruct res as [[got|]|e]; [|done|exists 0%nat, (Some e); done].
    destruct Hres as (-> & Hr' & _). apply lookup_lt_Some in Ew as Hlt.
    destruct (IH (k + 1)%nat r' Hr' ltac:(lia)) as (n & e & -> & He). cbn [mbind option_bind].
    exists (S n), e. rewrite (drop_S _ _ _ Ew). cbn [take]. rewrite imap_cons, Nat.add_0_r.
    split; [|intros E; specialize (He E); lia].
    rewrite Nat.add_1_r. do 3 f_equal. apply imap_ext. intros i x _. simpl. f_equal. lia.
  - rewrite Hn. cbn [mbind option_bind]. exists 0%nat, None. split; [done|].
    apply lookup_ge_None in Ew. lia.
Qed.

End ReaderProofs.

Lemma tiled_bounds total window overlap start ws k s e :
  0 <= overlap < window -> tiled total window overlap start ws -> ws !! k = Some (s, e) ->
  start <= s /\ s < e <= total.
Proof.
  intros Hw. revert start k. induction ws as [|[s0 e0] ws IH]; intros start k Ht Hk; [done|].
  destruct ws as [|w ws].
  - simpl in Ht. destruct k as [|k]; [|done]. simplify_eq/=. lia.
  - destruct Ht as (-> & -> & Hlt & Ht). destruct k as [|k]; [simplify_eq/=; lia|].
    destruct (IH _ k Ht Hk). lia.
Qed.

Lemma tiled_first total window overlap start ws s e :
  tiled total window overlap start ws -> ws !! 0%nat = Some (s, e) -> s = start.
Proof. destruct ws as [|[s0 e0] [|w ws]]; simpl; intros Ht Hk; simplify_eq; lia. Qed.

Lemma tiled_advancing total window overlap start ws :
  0 <= overlap < window -> tiled total window overlap start ws -> advancing ws total.
Proof.
  intros Hw. revert start. induction ws as [|[s0 e0] ws IH]; intros start Ht k s e s' e' Hk Hk'; [done|].
  destruct ws as [|[s1 e1] ws].
  - destruct k; done.
  - pose proof Ht as (-> & -> & Hlt & Ht1). destruct k as [|k]; [|by eapply (IH _ Ht1 k)].
    pose proof (tiled_bounds _ _ _ _ _ 0 s1 e1 Hw Ht1 eq_refl) as Hb.
    pose proof (tiled_first _ _ _ _ _ s1 e1 Ht1 eq_refl) as Hf.
    assert (He : e1 = total \/ e1 = s1 + window) by (destruct ws; simpl in Ht1; lia).
    clear Ht Ht1 IH. simplify_eq/=. lia.
Qed.

(** Over any source that delivers the track's samples in order, in reads of any
    size, the reader hands out exactly the planned windows - each one the track's
    samples between its bounds, or nothing where the caller asked to skip it - and
    then says it is done; only an error of the source itself can stop it short. *)
Theorem reader_hands_out_planned_windows `{PcmSourceLaws Src holds} (source : Src) (track : list Z)
    (window overlap : Z) (skip : nat -> bool) :
  holds source track -> total source = zlen track -> 0 <= overlap < window ->
  zlen track + window <= u64_max ->
  exists ws r n e,
    plan (zlen track) window overlap = Some ws /\ with_sizes source window overlap = Some r /\
    read_all (S (length ws)) r skip = Some (imap (fun i w => expected track skip i w) (take n ws), e) /\
    (e = None -> take n ws = ws).
Proof.
  intros Hh Ht Hw Hu. pose proof (zlen_nonneg track) as Hlen.
  assert (Hplan : exists ws, plan (zlen track) window overlap = Some ws /\ advancing ws (zlen track) /\
    forall s e, ws !! 0%nat = Some (s, e) -> s = 0 /\ e <= zlen track /\ 0 <= e).
  { unfold plan. rewrite (proj2 (Z.ltb_lt _ _)) by lia. destruct (Z.eqb_spec (zlen track) 0).
    - exists []. split_and!; [done| |done]. intros k s0 e0 s1 e1. by rewrite lookup_nil.
    - destruct (plan_loop_tiled (Z.to_nat (zlen track)) (zlen track) window overlap 0) as (ws & -> & Htl);
        [lia..|].
      exists ws. split_and!; [done|by eapply tiled_advancing|]. intros s e Hk.
      pose proof (tiled_first _ _ _ _ _ _ _ Htl Hk). pose proof (tiled_bounds _ _ _ _ _ _ _ _ Hw Htl Hk). lia. }
  destruct Hplan as (ws & Hp & Hadv & Hfirst).
  set (r := mkWindowReader source ws 0 [] 0).
  assert (Hr : reader_at (holds:=holds) track ws 0 r).
  { split_and!; [done|done|]. exists 0. simpl. split_and!; try done; try lia.
    intros s e Hk. specialize (Hfirst s e Hk). lia. }
  destruct (read_all_exact track ws (S (length ws)) 0 r skip Hadv Hr ltac:(lia)) as (n & e & Hread & He).
  exists ws, r, n, e. unfold with_sizes. rewrite Ht, Hp. split_and!; [done|done|exact Hread|].
  intros E. apply take_ge. specialize (He E). lia.
Qed.

Lemma reader_hands_out_planned_windows_witness :
  exists ws r n e, plan 10 4 1 = Some ws /\ with_sizes (memory_track [1;2;3;4;5;6;7;8;9;10]) 4 1 = Some r /\
    read_all (S (length ws)) r (fun i => i =? 1)%nat =
      Some (imap (fun i w => expected [1;2;3;4;5;6;7;8;9;10] (fun i => i =? 1)%nat i w) (take n ws), e) /\
    ws = [(0, 4); (3, 7); (6, 10)].
Proof.
  destruct (reader_hands_out_planned_windows (memory_track [1;2;3;4;5;6;7;8;9;10])
    [1;2;3;4;5;6;7;8;9;10] 4 1 (fun i => i =? 1)%nat) as (ws & r & n & e & Hp & Hr & Hread & _).
  - split; [done|]. simpl. lia.
  - done.
  - lia.
  - by vm_compute.
  - exists ws, r, n, e. split; [exact Hp|]. split; [exact Hr|]. split; [exact Hread|].
    vm_compute in Hp. by injection Hp as <-.
Defined.
