(* ===== verification/PostMerge.v ===== *)
(** * fotwd: joining overlapping windows' words

    Models [crates/fotwd/src/post_pass/merge.rs].  Each window of a track is
    recognized on its own, so a word in the stretch two windows share is heard
    twice, and one across an edge is heard truncated; the merge keeps each word
    once.  Times are 64-bit; sums and differences wrap as in a release build.
    [str::to_lowercase] works on whole strings (a final sigma depends on what
    surrounds it) and is the class [Lowercase]. *)

From S2P Require Import Prelude Text PostWindows.

Local Open Scope Z_scope.

Definition EDGE_GUARD_MS : Z := 250.
Definition MAX_MATCH_WORDS : nat := 8.
Definition MATCH_TOLERANCE_MS : Z := 600.

Record TimedWord := mkTimed { tw_text : string; tw_start : Z; tw_end : Z; tw_estimated : bool }.

#[export] Instance TimedWord_eq_dec : EqDecision TimedWord.
Proof. solve_decision. Defined.

Definition timed_new (text : string) (start end_ : Z) : TimedWord :=
  mkTimed text start (Z.max end_ start) false.

Definition timed_estimated (text : string) (start end_ : Z) : TimedWord :=
  let w := timed_new text start end_ in mkTimed (tw_text w) (tw_start w) (tw_end w) true.

Definition mid (w : TimedWord) : Z := wadd (tw_start w) (wsub (tw_end w) (tw_start w) / 2).

Record WindowWords := mkWindow { ww_start : Z; ww_end : Z; ww_words : list TimedWord }.

(** [char::is_ascii_punctuation]. *)
Definition is_ascii_punctuation (c : Z) : bool :=
  ((33 <=? c) && (c <=? 47)) || ((58 <=? c) && (c <=? 64)) ||
  ((91 <=? c) && (c <=? 96)) || ((123 <=? c) && (c <=? 126)).

(** Punctuation, white space, or the ellipsis. *)
Definition key_fringe (c : Z) : bool := is_ascii_punctuation c || is_whitespace c || (c =? 8230).

(** [iter.take_while(p)]. *)
Fixpoint take_while {A} (p : A -> bool) (l : list A) : list A :=
  match l with
  | [] => []
  | x :: l => if p x then x :: take_while p l else []
  end.

(** [(1..=limit).rev().find(p)]. *)
Fixpoint find_down (p : nat -> bool) (limit : nat) : option nat :=
  match limit with
  | O => None
  | S m => if p limit then Some limit else find_down p m
  end.

(** [l[l.len() - n..]]. *)
Definition last_n {A} (n : nat) (l : list A) : list A := drop (length l - n) l.

(** [abs_diff]. *)
Definition abs_diff (a b : Z) : Z := Z.abs (a - b).

Section Merge.
Context `{Lowercase}.

Definition key (word : string) : string := str_to_lowercase (trim_matches key_fringe word).

Definition same_word (a b : TimedWord) : bool :=
  bool_decide (key (tw_text a) = key (tw_text b)) &&
  (abs_diff (tw_start a) (tw_start b) <=? MATCH_TOLERANCE_MS).

(** [a.iter().zip(b).all(..)]. *)
Fixpoint zip_all {A} (p : A -> A -> bool) (a b : list A) : bool :=
  match a, b with
  | x :: a, y :: b => p x y && zip_all p a b
  | _, _ => true
  end.

Definition shared_run (tail head : list TimedWord) : option nat :=
  let limit := Nat.min (Nat.min MAX_MATCH_WORDS (length tail)) (length head) in
  find_down (fun n => zip_all same_word (last_n n tail) (take n head)) limit.

Definition has_estimated (w : WindowWords) : bool := existsb tw_estimated (ww_words w).

(** The words that say something. *)
Definition spoken (w : WindowWords) : list TimedWord :=
  filter (fun x => key (tw_text x) <> EmptyString) (ww_words w).

(** Words cut off by this window's end: the next window hears them whole. *)
Definition drop_cut_at_end (window : WindowWords) (next : option WindowWords) (words : list TimedWord)
  : list TimedWord :=
  match next with
  | Some n =>
      if (ww_start n <? ww_end window) && negb (has_estimated window) && negb (has_estimated n) then
        filter (fun w => wadd (tw_end w) EDGE_GUARD_MS < ww_end window) words
      else words
  | None => words
  end.

(** Words cut off by this window's start, which the earlier one kept. *)
Definition drop_cut_at_start (overlap_start : Z) (out words : list TimedWord) : list TimedWord :=
  filter (fun w =>
    wadd overlap_start EDGE_GUARD_MS < tw_start w \/
    existsb (fun kept => (tw_start kept <? tw_end w) && (tw_start w <? tw_end kept))
      (take_while (fun kept => overlap_start <? tw_end kept) (rev out)) = false) words.

Definition overlap_cut (overlap_start overlap_end : Z) : Z :=
  wadd overlap_start (wsub overlap_end overlap_start / 2).

(** [while out.last().is_some_and(p) { out.pop(); }]. *)
Definition pop_while (p : TimedWord -> bool) (out : list TimedWord) : list TimedWord :=
  take (length out - length (take_while p (rev out))) out.

(** The join of windows one of which has estimated times. *)
Definition join_by_text (overlap_start overlap_end : Z) (out words : list TimedWord) : list TimedWord :=
  let tail := (fun w => key (tw_text w)) <$> last_n MAX_MATCH_WORDS out in
  let head := (fun w => key (tw_text w)) <$> take MAX_MATCH_WORDS words in
  match find_down (fun n => bool_decide (last_n n tail = take n head)) (Nat.min (length tail) (length head)) with
  | Some n => out ++ drop n words
  | None =>
      let cut := overlap_cut overlap_start overlap_end in
      pop_while (fun w => (overlap_start <? tw_end w) && (cut <=? mid w)) out ++
      filter (fun w => overlap_end <= tw_start w \/ cut <= mid w) words
  end.

(** The join of windows with reported times. *)
Definition join_by_time (overlap_start overlap_end : Z) (out words : list TimedWord) : list TimedWord :=
  let words := drop_cut_at_start overlap_start out words in
  let tail_len := length (take_while (fun w => overlap_start <? tw_end w) (rev out)) in
  let head_len := length (take_while (fun w => tw_start w <? overlap_end) words) in
  let tail := drop (length out - tail_len) out in
  let head := take head_len words in
  match shared_run tail head with
  | Some n => out ++ drop n words
  | None =>
      let cut := overlap_cut overlap_start overlap_end in
      let keep_tail := length (filter (fun w => mid w < cut) tail) in
      let drop_head := length (filter (fun w => mid w < cut) head) in
      take (length out - tail_len + keep_tail) out ++ drop drop_head words
  end.

(** One round of the loop: window [k] between [k - 1] and [k + 1]. *)
Definition merge_step (prev : option WindowWords) (window : WindowWords) (next : option WindowWords)
  (out : list TimedWord) : list TimedWord :=
  let words := drop_cut_at_end window next (spoken window) in
  match prev with
  | None => out ++ words
  | Some p =>
      if ww_end p <=? ww_start window then out ++ words
      else if has_estimated window || has_estimated p then
        join_by_text (ww_start window) (ww_end p) out words
      else join_by_time (ww_start window) (ww_end p) out words
  end.

Fixpoint merge_from (prev : option WindowWords) (windows : list WindowWords) (out : list TimedWord)
  : list TimedWord :=
  match windows with
  | [] => out
  | w :: rest => merge_from (Some w) rest (merge_step prev w (head rest) out)
  end.

Definition merge_windows (windows : list WindowWords) : list TimedWord := merge_from None windows [].

End Merge.

(** ** Nothing is invented *)

Create HintDb merge.
#[export] Hint Resolve sublist_filter sublist_take sublist_drop sublist_app : merge.

Section Sublists.
Context `{Lowercase}.

Lemma drop_cut_at_end_sublist window next words :
  drop_cut_at_end window next words `sublist_of` words.
Proof. unfold drop_cut_at_end. repeat case_match; auto with merge. Qed.

Lemma drop_cut_at_start_sublist s out words : drop_cut_at_start s out words `sublist_of` words.
Proof. unfold drop_cut_at_start. auto with merge. Qed.

Lemma spoken_sublist window : spoken window `sublist_of` ww_words window.
Proof. unfold spoken. auto with merge. Qed.

Lemma join_by_text_sublist s e out words : join_by_text s e out words `sublist_of` out ++ words.
Proof. unfold join_by_text, pop_while. case_match; auto with merge. Qed.

Lemma join_by_time_sublist s e out words : join_by_time s e out words `sublist_of` out ++ words.
Proof.
  etrans; [|apply sublist_app; [done|apply (drop_cut_at_start_sublist s out)]].
  unfold join_by_time. case_match; auto with merge.
Qed.

Lemma merge_step_sublist prev window next out :
  merge_step prev window next out `sublist_of` out ++ ww_words window.
Proof.
  unfold merge_step. etrans; [|apply sublist_app; [done|apply spoken_sublist]].
  etrans; [|apply sublist_app; [done|apply drop_cut_at_end_sublist]].
  repeat case_match; [done|apply join_by_text_sublist|apply join_by_time_sublist|done].
Qed.

Lemma merge_from_sublist prev windows out heard :
  out `sublist_of` heard -> merge_from prev windows out `sublist_of` heard ++ (windows ≫= ww_words).
Proof.
  revert prev out heard. induction windows as [|w rest IH]; intros prev out heard Ho; csimpl.
  - by rewrite app_nil_r.
  - rewrite app_assoc. apply IH. etrans; [apply merge_step_sublist|]. by apply sublist_app.
Qed.

End Sublists.

(** ** Lists cut at the ends *)

(** A filter that keeps everything [P] wants does not change what [P] selects. *)
Lemma filter_twice {A} (P Q : A -> Prop) `{!forall x, Decision (P x), !forall x, Decision (Q x)} (l : list A) :
  (forall x, x ∈ l -> P x -> Q x) -> filter P (filter Q l) = filter P l.
Proof.
  intros HPQ. rewrite list_filter_filter. apply filter_ext_in. intros x Hx. split; [by intros []|].
  intros HP. split; [done|]. by apply HPQ.
Qed.

(** Dropping leading words none of which [P] wants. *)
Lemma filter_drop_lead {A} (P : A -> Prop) `{!forall x, Decision (P x)} n (l : list A) :
  Forall (fun x => ~ P x) (take n l) -> filter P (drop n l) = filter P l.
Proof.
  intros Hn. rewrite <-(take_drop n l) at 2. rewrite filter_app, (filter_all_not P (take n l)); [done|].
  by apply Forall_forall.
Qed.

Lemma take_while_Forall {A} (p : A -> bool) (l : list A) : Forall (fun x => p x = true) (take_while p l).
Proof. induction l as [|x l IH]; simpl; [constructor|]. case_match; by constructor. Qed.

Lemma take_while_take {A} (p : A -> bool) (l : list A) : take (length (take_while p l)) l = take_while p l.
Proof. induction l as [|x l IH]; simpl; [done|]. case_match; simpl; by rewrite ?IH. Qed.

Lemma last_rev {A} (n : nat) (l : list A) : drop (length l - n) l = rev (take n (rev l)).
Proof. by rewrite firstn_rev, rev_involutive. Qed.

Lemma tail_while {A} (p : A -> bool) (l : list A) :
  drop (length l - length (take_while p (rev l))) l = rev (take_while p (rev l)).
Proof. by rewrite last_rev, take_while_take. Qed.

(** What [P] wants of a list survives cutting off an end that holds none of it. *)
Lemma filter_take_end {A} (P : A -> Prop) `{!forall x, Decision (P x)} n (l : list A) :
  Forall (fun x => ~ P x) (drop n l) -> filter P (take n l) = filter P l.
Proof.
  intros Hn. rewrite <-(take_drop n l) at 2. rewrite filter_app, (filter_all_not P (drop n l)).
  - by rewrite app_nil_r.
  - by apply Forall_forall.
Qed.

Lemma find_down_bound p limit n : find_down p limit = Some n -> (1 <= n <= limit)%nat /\ p n = true.
Proof.
  induction limit as [|m IH]; simpl; [done|]. case_match.
  - intros [= <-]. split; [lia|done].
  - intros ?%IH. split; [lia|tauto].
Qed.

Lemma sublist_in {A} (k l : list A) x : k `sublist_of` l -> x ∈ k -> x ∈ l.
Proof. intros Hs Hx. eapply elem_of_submseteq; [exact Hx|]. by apply sublist_submseteq. Qed.

Lemma sublist_filter_in {A} (P : A -> Prop) `{!forall x, Decision (P x)} (k l : list A) :
  k `sublist_of` l -> Forall P k -> k `sublist_of` filter P l.
Proof.
  intros Hs. induction Hs as [|x k l Hs IH|x k l Hs IH]; intros HP.
  - constructor.
  - inversion_clear HP. rewrite filter_cons_True by done. constructor. by apply IH.
  - rewrite filter_cons. case_decide; [constructor|]; by apply IH.
Qed.

(** ** The body of a window is kept *)

(** Times a [u64] can hold, with room for the guard. *)
Definition time_ok (t : Z) : Prop := 0 <= t /\ t + EDGE_GUARD_MS <= u64_max.
Definition word_ok (w : TimedWord) : Prop := 0 <= tw_start w <= tw_end w /\ time_ok (tw_end w).
Definition window_ok (w : WindowWords) : Prop :=
  0 <= ww_start w <= ww_end w /\ time_ok (ww_end w) /\ Forall word_ok (ww_words w).

(** The middle of a stretch, without the detour that avoids the sum. *)
Lemma half_way a b : 0 <= a <= b -> b <= u64_max -> wadd a (wsub b a / 2) = (a + b) / 2.
Proof.
  intros. rewrite wsub_small by lia. rewrite wadd_small by (Z.to_euclidean_division_equations; lia).
  Z.to_euclidean_division_equations; lia.
Qed.

(** The stretch of a window no neighbour shares. *)
Definition before_next (next : option WindowWords) (w : TimedWord) : Prop :=
  match next with Some n => tw_end w <= ww_start n | None => True end.
Definition after_prev (prev : option WindowWords) (w : TimedWord) : Prop :=
  match prev with Some p => ww_end p <= tw_start w | None => True end.

#[export] Instance before_next_dec next w : Decision (before_next next w).
Proof. unfold before_next. destruct next; apply _. Defined.
#[export] Instance after_prev_dec prev w : Decision (after_prev prev w).
Proof. unfold after_prev. destruct prev; apply _. Defined.

(** Windows in order, reported times only, that share either nothing or more than
    the guard. *)
Fixpoint in_order (windows : list WindowWords) : Prop :=
  match windows with
  | [] => True
  | w :: rest =>
      window_ok w /\ has_estimated w = false /\
      match rest with
      | [] => True
      | n :: _ => ww_start w <= ww_start n /\ (ww_end w <= ww_start n \/ ww_start n + EDGE_GUARD_MS < ww_end w)
      end /\ in_order rest
  end.

Section Bodies.
Context `{Lowercase}.

Definition body (prev : option WindowWords) (window : WindowWords) (next : option WindowWords)
  : list TimedWord :=
  filter (fun w => after_prev prev w /\ before_next next w) (spoken window).

Fixpoint bodies (prev : option WindowWords) (windows : list WindowWords) : list TimedWord :=
  match windows with
  | [] => []
  | w :: rest => body prev w (head rest) ++ bodies (Some w) rest
  end.

Lemma drop_cut_at_start_keeps overlap_start out words (Q : TimedWord -> Prop)
  `{!forall x, Decision (Q x)} :
  (forall x, x ∈ words -> Q x -> wadd overlap_start EDGE_GUARD_MS < tw_start x) ->
  filter Q (drop_cut_at_start overlap_start out words) = filter Q words.
Proof. intros HQ. apply filter_twice. intros x Hx HQx. left. by apply HQ. Qed.

(** The join by time touches only words that reach into the shared stretch. *)
Lemma join_by_time_keeps overlap_start overlap_end out words (P Q : TimedWord -> Prop)
  `{!forall x, Decision (P x), !forall x, Decision (Q x)} :
  (forall x, P x -> tw_end x <= overlap_start) ->
  (forall x, x ∈ words -> Q x -> overlap_end <= tw_start x /\ wadd overlap_start EDGE_GUARD_MS < tw_start x) ->
  filter P out ++ filter Q words `sublist_of` join_by_time overlap_start overlap_end out words.
Proof.
  intros HP HQ. unfold join_by_time.
  rewrite <-(drop_cut_at_start_keeps overlap_start out words Q) by (intros; by apply HQ).
  pose proof (fun x Hx => HQ x (sublist_in _ _ x (drop_cut_at_start_sublist overlap_start out words) Hx)) as HQ'.
  revert HQ'. generalize (drop_cut_at_start overlap_start out words). clear words HQ. intros words HQ.
  set (tl := take_while (fun w => overlap_start <? tw_end w) (rev out)).
  set (hd := take_while (fun w => tw_start w <? overlap_end) words).
  assert (Hhd : forall n, (n <= length hd)%nat -> filter Q (drop n words) = filter Q words).
  { intros n Hn. apply filter_drop_lead. apply Forall_forall. intros x Hx Hq.
    assert (x ∈ hd) as Hxh.
    { unfold hd. rewrite <-take_while_take. fold hd. rewrite <-(take_drop n (take _ _)), take_take.
      rewrite Nat.min_l by done. apply elem_of_app. by left. }
    pose proof (take_while_Forall (fun w => tw_start w <? overlap_end) words) as Hf.
    rewrite Forall_forall in Hf. specialize (Hf x Hxh). apply Z.ltb_lt in Hf.
    destruct (HQ x); [|done|lia]. eapply sublist_in; [apply sublist_take|exact Hx]. }
  assert (Htl : forall m, filter P (take (length out - length tl + m) out) = filter P out).
  { intros m. apply filter_take_end. rewrite <-drop_drop. apply Forall_drop.
    unfold tl. rewrite tail_while. apply Forall_rev. eapply Forall_impl; [apply take_while_Forall|].
    intros x Hx%Z.ltb_lt Hp%HP. lia. }
  destruct (shared_run _ _) as [n|] eqn:E.
  - apply find_down_bound in E as [Hn _]. rewrite length_take in Hn.
    apply sublist_app; [auto with merge|]. rewrite <-(Hhd n) by lia. auto with merge.
  - apply sublist_app.
    + erewrite <-Htl. auto with merge.
    + rewrite <-(Hhd (length (filter (fun w => mid w < overlap_cut overlap_start overlap_end) (take (length hd) words)))).
      * auto with merge.
      * etrans; [apply length_filter|]. rewrite length_take. lia.
Qed.

Lemma drop_cut_at_end_keeps window next words (Q : TimedWord -> Prop) `{!forall x, Decision (Q x)} :
  (forall x n, x ∈ words -> Q x -> next = Some n -> ww_start n < ww_end window ->
     wadd (tw_end x) EDGE_GUARD_MS < ww_end window) ->
  filter Q (drop_cut_at_end window next words) = filter Q words.
Proof.
  intros HQ. unfold drop_cut_at_end. destruct next as [n|]; [|done]. case_match eqn:E; [|done].
  apply filter_twice. intros x Hx Hq. repeat apply andb_true_iff in E as [E ?]. apply (HQ x n); [done..|].
  by apply Z.ltb_lt.
Qed.

Lemma merge_step_keeps prev window next out kept :
  window_ok window -> has_estimated window = false ->
  (forall p, prev = Some p -> has_estimated p = false /\
     (ww_end p <= ww_start window \/ ww_start window + EDGE_GUARD_MS < ww_end p)) ->
  (forall n, next = Some n -> ww_end window <= ww_start n \/ ww_start n + EDGE_GUARD_MS < ww_end window) ->
  kept `sublist_of` out -> (is_Some prev -> Forall (fun w => tw_end w <= ww_start window) kept) ->
  kept ++ body prev window next `sublist_of` merge_step prev window next out.
Proof.
  intros (Hw & Ht & Hwords) Hest Hprev Hnext Hs Hk. unfold body, merge_step.
  assert (Hin : forall x, x ∈ spoken window -> word_ok x).
  { intros x Hx. rewrite Forall_forall in Hwords. apply Hwords.
    eapply sublist_in; [apply spoken_sublist|done]. }
  rewrite <-(drop_cut_at_end_keeps window next).
  2:{ intros x n Hx [_ Hb] -> Hlt. specialize (Hin x Hx) as [? [? ?]].
      destruct (Hnext n eq_refl); [lia|]. simpl in Hb. unfold EDGE_GUARD_MS in *.
      rewrite wadd_small; lia. }
  destruct prev as [p|]; [|by apply sublist_app; [|apply sublist_filter]].
  destruct (Hprev p eq_refl) as [Hp Hgap]. rewrite Hest, Hp. simpl.
  destruct (Z.leb_spec (ww_end p) (ww_start window)); [by apply sublist_app; [|apply sublist_filter]|].
  etrans; [|apply (join_by_time_keeps _ _ out _ (fun w => tw_end w <= ww_start window)
              (fun w => after_prev (Some p) w /\ before_next next w)); [done|]].
  - apply sublist_app; [|done]. apply sublist_filter_in; [done|]. by apply Hk.
  - intros x Hx [Ha _]. simpl in Ha. split; [done|].
    destruct Hgap; [lia|]. destruct Ht. unfold EDGE_GUARD_MS in *. rewrite wadd_small; lia.
Qed.

Lemma in_order_head p w rest :
  in_order (p :: w :: rest) ->
  has_estimated p = false /\ ww_start p <= ww_start w /\
  (ww_end p <= ww_start w \/ ww_start w + EDGE_GUARD_MS < ww_end p) /\ in_order (w :: rest).
Proof. intros (_ & ? & [] & ?). done. Qed.

Lemma merge_from_keeps prev windows out kept :
  in_order (option_list prev ++ windows) -> kept `sublist_of` out ->
  (forall w, head windows = Some w -> is_Some prev -> Forall (fun x => tw_end x <= ww_start w) kept) ->
  (prev = None -> kept = []) ->
  kept ++ bodies prev windows `sublist_of` merge_from prev windows out.
Proof.
  revert prev out kept. induction windows as [|w rest IH]; intros prev out kept Ho Hs Hk Hn; simpl.
  { by rewrite app_nil_r. }
  assert (Hw : in_order (w :: rest)).
  { destruct prev as [p|]; [by apply in_order_head in Ho as (_ & _ & _ & ?)|done]. }
  rewrite app_assoc. apply IH; [done| | |done].
  - destruct Hw as (Hok & Hest & Hnext & _). apply merge_step_keeps; [done..| | |done|by apply Hk].
    + intros p ->. apply in_order_head in Ho. tauto.
    + intros n Hn'. destruct rest; [done|]. injection Hn' as ->. tauto.
  - intros n Hn' _. destruct rest as [|n' rest]; [done|]. injection Hn' as ->.
    apply in_order_head in Hw as (_ & Hle & _ & _). apply Forall_app. split.
    + destruct prev as [p|]; [|by rewrite (Hn eq_refl)].
      eapply Forall_impl; [by apply Hk|]. simpl. lia.
    + apply Forall_forall. by intros x [[_ Hb] _]%list_elem_of_filter.
Qed.

End Bodies.

(** The merge of a track's windows is made of words the windows heard, in the
    order they were heard, with nothing added or moved; and where times are
    reported and windows share either nothing or more than the edge guard, every
    word outside the shared stretches is in it: only boundaries are reconciled,
    never the body of a window. *)
Theorem merge_touches_only_boundaries `{Lowercase} (windows : list WindowWords) :
  merge_windows windows `sublist_of` (windows ≫= ww_words) /\
  (in_order windows -> bodies None windows `sublist_of` merge_windows windows).
Proof.
  split; [by apply (merge_from_sublist None windows [] [])|].
  intros Ho. by apply (merge_from_keeps None windows [] []).
Qed.

(** ** Every word is kept once *)

(** *** Sorted lists and predicates that hold up to a point *)

Section UpTo.
Context {A : Type} (R : relation A).

Definition up_to (p : A -> Prop) : Prop := forall a b, R a b -> p b -> p a.
Definition from (p : A -> Prop) : Prop := forall a b, R a b -> p a -> p b.

Lemma filter_split (q p : A -> Prop) `{!forall x, Decision (q x), !forall x, Decision (p x)} (l : list A) :
  StronglySorted R l -> up_to p ->
  filter q l = filter (fun x => q x /\ p x) l ++ filter (fun x => q x /\ ~ p x) l.
Proof.
  intros Hl Hp. induction Hl as [|x l Hl IH Hx]; [done|].
  destruct (decide (q x)) as [Hq|Hq].
  - rewrite (filter_cons_True q) by done. destruct (decide (p x)) as [Hpx|Hpx].
    + rewrite filter_cons_True, (filter_cons_False (fun x => q x /\ ~ p x)) by tauto. simpl. by f_equal.
    + rewrite filter_cons_False, (filter_cons_True (fun x => q x /\ ~ p x)) by tauto.
      rewrite IH. rewrite (filter_all_not (fun x => q x /\ p x)); [done|].
      intros y Hy [_ Hpy]. apply Hpx. rewrite Forall_forall in Hx. by eapply Hp; [apply Hx|].
  - rewrite !filter_cons_False by tauto. exact IH.
Qed.

Lemma take_while_filter (p : A -> bool) (l : list A) :
  StronglySorted R l -> up_to (fun x => p x = true) -> take_while p l = filter (fun x => p x = true) l.
Proof.
  intros Hl Hp. induction Hl as [|x l Hl IH Hx]; [done|]. simpl. destruct (p x) eqn:E.
  - rewrite filter_cons_True by done. by f_equal.
  - rewrite filter_cons_False by congruence. symmetry. apply filter_all_not.
    intros y Hy Hpy. rewrite Forall_forall in Hx. specialize (Hp x y (Hx y Hy) Hpy). congruence.
Qed.

Lemma take_while_app (p : A -> bool) (l k : list A) :
  take_while p (l ++ k) = if forallb p l then l ++ take_while p k else take_while p l.
Proof.
  induction l as [|x l IH]; [done|]. simpl. destruct (p x); [|done]. simpl. rewrite IH. by case_match.
Qed.

Lemma take_while_all (p : A -> bool) (l : list A) : forallb p l = true -> take_while p l = l.
Proof. induction l as [|x l IH]; [done|]. simpl. intros [-> Hl]%andb_true_iff. f_equal. by apply IH. Qed.

Lemma take_while_rev_filter (p : A -> bool) (l : list A) :
  StronglySorted R l -> from (fun x => p x = true) ->
  take_while p (rev l) = rev (filter (fun x => p x = true) l).
Proof.
  intros Hl Hp. induction Hl as [|x l Hl IH Hx]; [done|]. cbn [rev]. rewrite take_while_app.
  destruct (p x) eqn:E.
  - rewrite (filter_all (fun x => p x = true)).
    2:{ rewrite Forall_forall in Hx. intros y [->|Hy]%elem_of_cons; [done|]. by eapply Hp; [apply Hx|]. }
    replace (forallb p (rev l)) with true.
    + simpl. by rewrite E.
    + symmetry. apply forallb_forall. intros y Hy%in_rev%list_elem_of_In.
      rewrite Forall_forall in Hx. by eapply Hp; [apply Hx|].
  - rewrite filter_cons_False by congruence. rewrite <-IH. case_match; [|done].
    simpl. rewrite E, app_nil_r. by rewrite take_while_all.
Qed.

End UpTo.

(** *** What the windows hear *)

(** The engine hears, of the speech, the words that overlap its window, clipped to
    it; a word it hears whole it hears as spoken, a clipped one as anything. *)
Definition overlaps (s e : Z) (w : TimedWord) : Prop := tw_start w < e /\ s < tw_end w.

#[export] Instance overlaps_dec s e w : Decision (overlaps s e w).
Proof. unfold overlaps. apply _. Defined.

Definition heard_as (s e : Z) (w h : TimedWord) : Prop :=
  tw_start h = Z.max (tw_start w) s /\ tw_end h = Z.min (tw_end w) e /\ tw_estimated h = false /\
  (s <= tw_start w -> tw_end w <= e -> h = w).

Definition hears (speech : list TimedWord) (span : Z * Z) (window : WindowWords) : Prop :=
  ww_start window = span.1 /\ ww_end window = span.2 /\
  Forall2 (heard_as span.1 span.2) (filter (overlaps span.1 span.2) speech) (ww_words window).

(** Windows one after the other, each reaching back by [overlap], to [total]. *)
Fixpoint chained (overlap total : Z) (spans : list (Z * Z)) : Prop :=
  match spans with
  | [] => False
  | (s, e) :: rest =>
      0 <= s <= e /\
      match rest with
      | [] => e = total
      | (s', e') :: _ => s' = e - overlap /\ e <= e' /\ chained overlap total rest
      end
  end.

Section Heard.
Context `{Lowercase}.

(** One word after another; the same word again only after the matching tolerance. *)
Definition spoken_before (a b : TimedWord) : Prop :=
  tw_end a <= tw_start b /\
  (key (tw_text a) = key (tw_text b) -> tw_start a + MATCH_TOLERANCE_MS < tw_start b).

(** The order in time alone, of words a [u64] can hold. *)
Definition fits (w : TimedWord) : Prop := 0 <= tw_start w < tw_end w /\ tw_end w <= u64_max.
Definition later (a b : TimedWord) : Prop := tw_end a <= tw_start b /\ fits a /\ fits b.

Lemma mid_fits w : fits w -> mid w = (tw_start w + tw_end w) / 2.
Proof. intros [? ?]. apply half_way; lia. Qed.

Lemma up_to_start p : up_to later (fun w => (tw_start w <? p) = true).
Proof. intros a b (? & [? ?] & [? ?]). rewrite !Z.ltb_lt. lia. Qed.

Lemma from_end s : from later (fun w => (s <? tw_end w) = true).
Proof. intros a b (? & [? ?] & [? ?]). rewrite !Z.ltb_lt. lia. Qed.

Lemma up_to_mid cut : up_to later (fun w => mid w < cut).
Proof.
  intros a b (? & Ha & Hb). rewrite !mid_fits by done. destruct Ha, Hb.
  Z.to_euclidean_division_equations; lia.
Qed.

(** Speech within [total], of words no longer than [longest]. *)
Record speech_ok (longest total : Z) (speech : list TimedWord) : Prop := {
  so_sorted : StronglySorted spoken_before speech;
  so_words : Forall (fun w => 0 <= tw_start w < tw_end w /\ tw_end w <= tw_start w + longest /\
                      tw_end w <= total /\ key (tw_text w) <> EmptyString) speech;
}.

(** Where a word matches only itself, the shared run is exactly what is shared. *)
Lemma shared_run_exact (only_tail shared only_head : list TimedWord) n :
  (forall a b, a ∈ only_tail ++ shared -> b ∈ shared ++ only_head -> same_word a b = true -> a = b) ->
  NoDup (only_tail ++ shared) -> (forall b, b ∈ only_head -> b ∉ only_tail ++ shared) ->
  shared_run (only_tail ++ shared) (shared ++ only_head) = Some n -> n = length shared.
Proof.
  intros Hinj Hnd Hfresh Hrun. unfold shared_run in Hrun. apply find_down_bound in Hrun as [Hn Hzip].
  set (tl := only_tail ++ shared) in *. set (hd := shared ++ only_head) in *.
  assert (Hx : exists x, tl !! (length tl - n)%nat = Some x) by (apply lookup_lt_is_Some; lia).
  assert (Hy : exists y, hd !! O = Some y) by (apply lookup_lt_is_Some; lia).
  destruct Hx as [x Hx], Hy as [y Hy].
  assert (x = y) as <-.
  { apply Hinj; [by eapply list_elem_of_lookup_2..|]. unfold last_n in Hzip.
    rewrite (drop_S _ _ _ Hx) in Hzip. destruct hd as [|y' hd']; [done|]. injection Hy as ->.
    destruct n; [lia|]. cbn in Hzip. by apply andb_true_iff in Hzip as [? _]. }
  destruct shared as [|z shared].
  - exfalso. apply (Hfresh x); by eapply list_elem_of_lookup_2.
  - injection Hy as ->. assert (Hz : tl !! length only_tail = Some x).
    { unfold tl. by rewrite lookup_app_r, Nat.sub_diag by lia. }
    pose proof (NoDup_lookup _ _ _ _ Hnd Hx Hz) as E. unfold tl in E, Hn.
    rewrite length_app in E, Hn. cbn [length] in *. lia.
Qed.

Context (overlap total : Z) (speech : list TimedWord).
Hypothesis Hspeech : speech_ok (overlap - 2 * EDGE_GUARD_MS - 2) total speech.
Hypothesis Htotal : time_ok total.

Lemma speech_word w :
  w ∈ speech ->
  0 <= tw_start w < tw_end w /\ tw_end w <= tw_start w + (overlap - 2 * EDGE_GUARD_MS - 2) /\
  tw_end w <= total /\ key (tw_text w) <> EmptyString.
Proof. intros Hw. destruct Hspeech as [_ Hf]. rewrite Forall_forall in Hf. by apply Hf. Qed.

(** What is kept of the speech once a window ending at [e] is merged. *)
Definition settled (last : bool) (e : Z) (w : TimedWord) : Prop :=
  if last then True else tw_end w + EDGE_GUARD_MS < e.

#[local] Instance settled_dec last e w : Decision (settled last e w).
Proof. unfold settled. destruct last; apply _. Defined.

Lemma filter_heard (Rel : TimedWord -> TimedWord -> Prop) (F G : TimedWord -> Prop)
  `{!forall x, Decision (F x), !forall x, Decision (G x)} ws hs :
  Forall2 Rel ws hs -> (forall w h, w ∈ ws -> Rel w h -> (F h <-> G w) /\ (G w -> h = w)) ->
  filter F hs = filter G ws.
Proof.
  induction 1 as [|w h ws hs Hr _ IH]; intros HFG; [done|].
  rewrite !filter_cons. rewrite IH by (intros; apply HFG; [by right|done]).
  destruct (HFG w h) as [Hi Heq]; [left|done|].
  destruct (decide (F h)), (decide (G w)); try tauto. by rewrite Heq.
Qed.

(** What follows a window, and what it promises of the speech. *)
Definition followed (last : bool) (e : Z) (next : option WindowWords) : Prop :=
  match next with
  | Some n => last = false /\ ww_start n < e /\ has_estimated n = false
  | None => last = true /\ e = total
  end.

Lemma hears_times span window h :
  hears speech span window -> 0 <= span.1 <= span.2 -> span.2 <= total -> h ∈ ww_words window ->
  0 <= tw_end h <= span.2 /\ tw_estimated h = false.
Proof.
  intros (_ & _ & Hf) Hs Ht Hh. apply list_elem_of_lookup in Hh as [i Hi].
  destruct (Forall2_lookup_r _ _ _ _ _ Hf Hi) as (w & Hw & Hst & He & Hest & _).
  apply list_elem_of_lookup_2, list_elem_of_filter in Hw as [_ Hw%speech_word]. split; [lia|done].
Qed.

Lemma hears_no_estimate span window :
  hears speech span window -> 0 <= span.1 <= span.2 -> span.2 <= total -> has_estimated window = false.
Proof.
  intros Hh Hs Ht. apply not_true_iff_false. intros (x & Hx%list_elem_of_In & He)%existsb_exists.
  by destruct (hears_times span window x) as [_ ?]; congruence || done.
Qed.

Lemma drop_cut_at_end_settled last span window next :
  hears speech span window -> 0 <= span.1 <= span.2 -> span.2 <= total -> followed last span.2 next ->
  drop_cut_at_end window next (spoken window) = filter (settled last span.2) (spoken window).
Proof.
  intros Hh Hs Ht Hn. pose proof (hears_no_estimate _ _ Hh Hs Ht) as Hest.
  pose proof Hh as (Hws & Hwe & _). unfold drop_cut_at_end, settled. destruct next as [n|]; simpl in Hn.
  - destruct Hn as (-> & Hlt & Hne). rewrite Hest, Hne, Hwe. simpl.
    rewrite (proj2 (Z.ltb_lt _ _)) by done. simpl. apply filter_ext_in. intros x Hx.
    destruct (hears_times span window x) as [? _]; [done..| |].
    { by eapply sublist_in; [apply spoken_sublist|]. }
    destruct Htotal. unfold EDGE_GUARD_MS in *. rewrite wadd_small by lia. done.
  - destruct Hn as (-> & _). by rewrite filter_all.
Qed.

(** Of two neighbours, the earlier one keeps the words across the later one's start. *)
Lemma straddler_kept s w :
  w ∈ speech -> tw_start w <= s + EDGE_GUARD_MS -> settled false (s + overlap) w.
Proof. intros (? & ? & ? & ?)%speech_word ?. unfold settled. lia. Qed.

Lemma up_to_settled last e : up_to later (settled last e).
Proof. intros a b (? & [? ?] & [? ?]). unfold settled. destruct last; [done|]. lia. Qed.

Lemma speech_fits w : w ∈ speech -> fits w.
Proof.
  intros (? & ? & ? & ?)%speech_word. destruct Htotal. unfold fits, EDGE_GUARD_MS in *. lia.
Qed.

Lemma speech_later : StronglySorted later speech.
Proof.
  pose proof speech_fits as Hfit. destruct Hspeech as [Hs _]. clear Hspeech.
  induction Hs as [|x l Hl IH Hx]; [constructor|]. constructor.
  - apply IH. intros w Hw. apply Hfit. by right.
  - rewrite Forall_forall in *. intros y Hy. split_and!; [by apply Hx|apply Hfit; left|apply Hfit; by right].
Qed.

(** A word the window owns it heard whole. *)
Lemma owned_is_whole last s e next w h :
  w ∈ speech -> heard_as s e w h -> followed last e next ->
  s + EDGE_GUARD_MS < tw_start w -> settled last e w -> h = w.
Proof.
  intros Hw (_ & _ & _ & Hr) Hn Hs Hset. pose proof (speech_word w Hw) as (? & ? & ? & ?).
  unfold settled, EDGE_GUARD_MS in *. apply Hr; [lia|]. destruct last; [|lia].
  destruct next; simpl in Hn; [by destruct Hn|]. lia.
Qed.

(** A word heard within the guard of the start overlaps one the earlier window kept:
    itself. *)
Lemma straddler_clashes s e w h :
  w ∈ speech -> overlaps s e w -> heard_as s e w h -> tw_start w <= s + EDGE_GUARD_MS ->
  existsb (fun kept => (tw_start kept <? tw_end h) && (tw_start h <? tw_end kept))
    (rev (filter (fun x => (s <? tw_end x) = true) (filter (settled false (s + overlap)) speech))) = true.
Proof.
  intros Hw [Ho1 Ho2] (Hst & He & _ & _) Hle. pose proof (speech_word w Hw) as (? & ? & ? & ?).
  apply existsb_exists. exists w. split.
  - apply (in_rev (filter _ _)), list_elem_of_In, list_elem_of_filter.
    split; [by apply Z.ltb_lt|]. apply list_elem_of_filter. split; [by apply straddler_kept|done].
  - apply andb_true_iff. rewrite !Z.ltb_lt. lia.
Qed.

(** What is left of a window once the words its neighbours own are dropped. *)
Lemma heard_words last s e window next :
  hears speech (s, e) window -> 0 <= s <= e -> e <= total -> followed last e next ->
  drop_cut_at_start s (filter (settled false (s + overlap)) speech)
    (drop_cut_at_end window next (spoken window)) =
  filter (fun w => s + EDGE_GUARD_MS < tw_start w /\ settled last e w) speech.
Proof.
  intros Hh Hs He Hn. rewrite (drop_cut_at_end_settled last (s, e)) by done.
  unfold drop_cut_at_start, spoken. rewrite !list_filter_filter.
  destruct Hh as (Hws & Hwe & Hf). simpl in *.
  rewrite (wadd_small s) by (destruct Htotal; unfold EDGE_GUARD_MS in *; lia).
  rewrite (take_while_rev_filter later) by
    (apply StronglySorted_filter, speech_later || apply from_end).
  erewrite (filter_heard _ _ (fun w => s + EDGE_GUARD_MS < tw_start w /\ settled last e w) _ _ Hf).
  - rewrite list_filter_filter. apply filter_ext_in. intros w Hw. split; [tauto|]. intros [H1 H2].
    pose proof (speech_word w Hw). split; [done|]. unfold overlaps, settled, EDGE_GUARD_MS in *.
    destruct last; [|lia]. destruct next; simpl in Hn; [by destruct Hn|]. lia.
  - intros w h [Hov Hw]%list_elem_of_filter Hr. split.
    + split.
      * intros [[Hst Hset] _]. destruct Hst as [Hst|Hst].
        -- destruct Hr as (Hs' & He' & _). unfold settled, EDGE_GUARD_MS in *. destruct last; lia.
        -- destruct (Z.le_gt_cases (tw_start w) (s + EDGE_GUARD_MS)) as [Hle|Hgt].
           ++ pose proof (straddler_clashes s e w h Hw Hov Hr Hle). congruence.
           ++ destruct Hr as (_ & He' & _). unfold settled, EDGE_GUARD_MS in *. destruct last; lia.
      * intros [H1 H2]. rewrite (owned_is_whole last s e next w h) by done.
        pose proof (speech_word w Hw). tauto.
    + intros [H1 H2]. by apply (owned_is_whole last s e next).
Qed.

Lemma same_word_same a b : a ∈ speech -> b ∈ speech -> same_word a b = true -> a = b.
Proof.
  intros Ha Hb [Hk%bool_decide_eq_true Ht%Z.leb_le]%andb_true_iff. unfold abs_diff in Ht.
  destruct Hspeech as [Hs _]. clear Hspeech Htotal.
  induction Hs as [|x l Hl IH Hx]; [by apply elem_of_nil in Ha|].
  rewrite Forall_forall in Hx. apply elem_of_cons in Ha as [->|Ha], Hb as [->|Hb]; [done| | |auto].
  - destruct (Hx b Hb) as [_ Hd]. specialize (Hd Hk). lia.
  - destruct (Hx a Ha) as [_ Hd]. specialize (Hd (eq_sym Hk)). lia.
Qed.

Lemma speech_nodup : NoDup speech.
Proof.
  pose proof speech_later as Hl. clear Hspeech Htotal. induction Hl as [|x l Hl IH Hx]; constructor; [|done].
  intros Hin. rewrite Forall_forall in Hx. destruct (Hx x Hin) as (? & [? ?] & _). lia.
Qed.

(** *** The shared stretch

    [past] is the earlier window's share, [whole] what the later one hears whole,
    [reaches] the words that reach into the stretch, [early] those before its
    middle. *)
Section Stretch.
Context (last : bool) (s e : Z).
Hypothesis Hspan : 0 <= s /\ s + overlap <= e /\ e <= total /\ 0 < overlap.

Let past (w : TimedWord) : Prop := settled false (s + overlap) w.
Let whole (w : TimedWord) : Prop := s + EDGE_GUARD_MS < tw_start w.
Let reaches (w : TimedWord) : Prop := (s <? tw_end w) = true.
Let starts (w : TimedWord) : Prop := (tw_start w <? s + overlap) = true.
Let early (w : TimedWord) : Prop := mid w < overlap_cut s (s + overlap).
Let kept (w : TimedWord) : Prop := settled last e w.

Lemma stretch_facts w :
  w ∈ speech ->
  (~ whole w -> past w /\ early w) /\ (past w -> kept w /\ starts w) /\ (whole w -> reaches w) /\
  (~ reaches w -> early w) /\ (early w -> starts w /\ past w).
Proof.
  intros Hw. pose proof (speech_word w Hw) as (? & ? & ? & _). pose proof (speech_fits w Hw) as Hf.
  destruct Htotal as [_ Ht]. unfold past, whole, reaches, starts, early, kept, overlap_cut, settled, EDGE_GUARD_MS in *.
  rewrite mid_fits, half_way, !Z.ltb_lt by (done || lia).
  destruct last; split_and!; try split; intros; try exact I; Z.to_euclidean_division_equations; lia.
Qed.

(** Two selections from the speech that the facts show to be one. *)
Ltac same_words :=
  apply filter_ext_in; intros w Hw; pose proof (stretch_facts w Hw) as (? & ? & ? & ? & ?);
  destruct (decide (past w)), (decide (whole w)), (decide (reaches w)), (decide (early w)); tauto.

Lemma sorted_split (q p : TimedWord -> Prop) `{!forall x, Decision (q x), !forall x, Decision (p x)} :
  up_to later p ->
  filter q speech = filter (fun x => q x /\ p x) speech ++ filter (fun x => q x /\ ~ p x) speech.
Proof. intros. apply (filter_split later); [apply speech_later|done]. Qed.

Lemma up_to_cut_short : up_to later (fun w => ~ whole w).
Proof. intros a b (? & [? ?] & [? ?]). unfold whole. lia. Qed.

Lemma up_to_before : up_to later (fun w => ~ reaches w).
Proof. intros a b Hab Hb Ha. apply Hb. by apply (from_end s a b). Qed.

Lemma tail_parts :
  filter (fun w => reaches w /\ past w) speech =
  filter (fun w => (reaches w /\ past w) /\ ~ whole w) speech ++ filter (fun w => whole w /\ past w) speech.
Proof. rewrite (sorted_split _ (fun w => ~ whole w)) by apply up_to_cut_short. f_equal. same_words. Qed.

Lemma head_parts :
  filter (fun w => starts w /\ whole w /\ kept w) speech =
  filter (fun w => whole w /\ past w) speech ++ filter (fun w => (starts w /\ whole w /\ kept w) /\ ~ past w) speech.
Proof. rewrite (sorted_split _ past) by apply up_to_settled. f_equal. same_words. Qed.

Lemma words_parts :
  filter (fun w => whole w /\ kept w) speech =
  filter (fun w => whole w /\ past w) speech ++ filter (fun w => (whole w /\ kept w) /\ ~ past w) speech.
Proof. rewrite (sorted_split _ past) by apply up_to_settled. f_equal. same_words. Qed.

Lemma stretch_run n :
  shared_run (filter (fun w => reaches w /\ past w) speech) (filter (fun w => starts w /\ whole w /\ kept w) speech)
    = Some n ->
  n = length (filter (fun w => whole w /\ past w) speech).
Proof.
  assert (Hin : forall (Q : TimedWord -> Prop) `{!forall x, Decision (Q x)} w, w ∈ filter Q speech -> w ∈ speech)
    by (intros Q ? w ?%list_elem_of_filter; tauto).
  rewrite tail_parts, head_parts. apply shared_run_exact.
  - rewrite <-tail_parts, <-head_parts. intros a b Ha%Hin Hb%Hin. by apply same_word_same.
  - rewrite <-tail_parts. apply NoDup_filter, speech_nodup.
  - rewrite <-tail_parts. intros b [[_ Hb] _]%list_elem_of_filter [[_ Hb'] _]%list_elem_of_filter. done.
Qed.

Lemma take_parts (n : nat) (q p : TimedWord -> Prop)
  `{!forall x, Decision (q x), !forall x, Decision (p x)} :
  up_to later p -> n = length (filter (fun x => q x /\ p x) speech) ->
  take n (filter q speech) = filter (fun x => q x /\ p x) speech /\
  drop n (filter q speech) = filter (fun x => q x /\ ~ p x) speech.
Proof. intros Hp ->. rewrite (sorted_split q p Hp). by rewrite take_app_length, drop_app_length. Qed.

(** The words kept by the earlier window up to the middle of the stretch. *)
Lemma keep_count :
  (length (filter past speech) - length (filter (fun w => reaches w /\ past w) speech) +
   length (filter (fun w => early w /\ reaches w /\ past w) speech))%nat =
  length (filter (fun w => past w /\ early w) speech).
Proof.
  rewrite (sorted_split past (fun w => ~ reaches w)) by apply up_to_before.
  rewrite (sorted_split (fun w => past w /\ early w) (fun w => ~ reaches w)) by apply up_to_before.
  rewrite !length_app.
  replace (filter (fun w => past w /\ ~ ~ reaches w) speech)
    with (filter (fun w => reaches w /\ past w) speech) by same_words.
  replace (filter (fun w => (past w /\ early w) /\ ~ ~ reaches w) speech)
    with (filter (fun w => early w /\ reaches w /\ past w) speech) by same_words.
  replace (filter (fun w => (past w /\ early w) /\ ~ reaches w) speech)
    with (filter (fun w => past w /\ ~ reaches w) speech) by same_words.
  lia.
Qed.

Lemma drop_count :
  length (filter (fun w => early w /\ starts w /\ whole w /\ kept w) speech) =
  length (filter (fun w => (whole w /\ kept w) /\ early w) speech).
Proof. f_equal. same_words. Qed.

Lemma join_by_time_settled words :
  drop_cut_at_start s (filter past speech) words = filter (fun w => whole w /\ kept w) speech ->
  join_by_time s (s + overlap) (filter past speech) words = filter kept speech.
Proof.
  intros Hw. unfold join_by_time. rewrite Hw. clear words Hw.
  rewrite tail_while, (take_while_rev_filter later), rev_involutive;
    [|apply StronglySorted_filter, speech_later|apply from_end].
  rewrite take_while_take, (take_while_filter later), !list_filter_filter, length_rev;
    [|apply StronglySorted_filter, speech_later|apply up_to_start].
  fold early reaches starts past kept whole.
  destruct (shared_run _ _) as [n|] eqn:E.
  - apply stretch_run in E as ->. rewrite words_parts, drop_app_length.
    rewrite (sorted_split kept past) by apply up_to_settled. f_equal; same_words.
  - destruct (take_parts _ past early (up_to_mid _) keep_count) as [Ht _].
    destruct (take_parts _ (fun w => whole w /\ kept w) early (up_to_mid _) drop_count) as [_ Hd].
    etransitivity; [exact (f_equal2 app Ht Hd)|].
    rewrite (sorted_split kept early) by apply up_to_mid. f_equal; same_words.
Qed.

End Stretch.

(** *** Window by window *)

Lemma chained_bound spans s e : chained overlap total ((s, e) :: spans) -> 0 <= s <= e /\ e <= total.
Proof.
  revert s e. induction spans as [|[s' e'] spans IH]; intros s e.
  - intros [? ->]. lia.
  - intros (? & _ & ? & ?%IH). lia.
Qed.

(** The span after this one, and whether there is one. *)
Lemma chained_next s e spans windows :
  0 < overlap -> chained overlap total ((s, e) :: spans) -> Forall2 (hears speech) spans windows ->
  followed (match spans with [] => true | _ => false end) e (head windows).
Proof.
  intros Ho Hc Hf. destruct Hf as [|[s' e'] w spans windows Hh Hf]; simpl.
  - split; [done|]. apply Hc.
  - destruct Hc as (? & -> & ? & Hc%chained_bound). split; [done|].
    pose proof Hh as (-> & _ & _). split; [simpl; lia|]. apply (hears_no_estimate (e - overlap, e')); [done|simpl; lia..].
Qed.

Lemma merge_rest prev sp spans windows :
  0 < overlap -> hears speech sp prev -> chained overlap total (sp :: spans) ->
  Forall2 (hears speech) spans windows -> spans <> [] ->
  merge_from (Some prev) windows (filter (settled false sp.2) speech) = speech.
Proof.
  intros Ho Hp Hc Hf Hne. revert prev sp Hp Hc Hne.
  induction Hf as [|[s e] w spans windows Hh Hf IH]; intros prev [sp ep] Hp Hc Hne; [done|].
  pose proof (chained_bound _ _ _ Hc) as Hbp. destruct Hc as (Hsp & -> & Hle & Hc).
  pose proof (chained_bound _ _ _ Hc) as [Hs He]. pose proof (chained_next _ _ _ _ Ho Hc Hf) as Hn.
  set (last := match spans with [] => true | _ => false end) in *.
  assert (Hstep : merge_step (Some prev) w (head windows) (filter (settled false ep) speech) =
                  filter (settled last e) speech).
  { pose proof Hp as (_ & Hpe & _). pose proof Hh as (Hws & _ & _). simpl in Hpe, Hws.
    unfold merge_step. rewrite Hpe, Hws.
    rewrite (proj2 (Z.leb_gt _ _)) by lia.
    rewrite (hears_no_estimate _ _ Hh), (hears_no_estimate _ _ Hp) by (simpl; lia). simpl.
    set (s := ep - overlap) in *. replace ep with (s + overlap) by lia.
    apply join_by_time_settled; [lia|]. by apply heard_words. }
  cbn [merge_from snd]. rewrite Hstep. destruct spans as [|s2 spans].
  - inversion Hf. simpl. by rewrite filter_all.
  - by apply (IH w (ep - overlap, e)).
Qed.

Lemma merge_hears spans windows :
  0 < overlap -> chained overlap total spans -> (forall s e, head spans = Some (s, e) -> s = 0) ->
  Forall2 (hears speech) spans windows -> merge_windows windows = speech.
Proof.
  intros Ho Hc H0 Hf. destruct Hf as [|[s e] w spans windows Hh Hf]; [done|].
  specialize (H0 s e eq_refl) as ->. pose proof (chained_bound _ _ _ Hc) as [Hs He].
  pose proof (chained_next _ _ _ _ Ho Hc Hf) as Hn.
  unfold merge_windows. simpl. rewrite (drop_cut_at_end_settled _ (0, e) _ _ Hh Hs He Hn).
  set (last := match spans with [] => true | _ => false end) in *.
  assert (Hfirst : filter (settled last e) (spoken w) = filter (settled last e) speech).
  { unfold spoken. rewrite list_filter_filter. destruct Hh as (_ & _ & Hh).
    rewrite (filter_heard _ _ (settled last e) _ _ Hh).
    - simpl. rewrite list_filter_filter. apply filter_ext_in. intros x Hx. split; [tauto|]. intros Hset.
      pose proof (speech_word x Hx). split; [done|]. unfold overlaps, settled, EDGE_GUARD_MS in *.
      destruct last, (head windows); simpl in Hn; destruct Hn; try done; lia.
    - intros x h [_ Hx]%list_elem_of_filter (? & Hend & _ & Hwhole). simpl in *.
      pose proof (speech_word x Hx) as (? & ? & ? & ?).
      assert (Hset : settled last e x -> h = x).
      { unfold settled, EDGE_GUARD_MS. intros Hset. apply Hwhole; [lia|].
        destruct last; [|lia]. destruct (head windows); simpl in Hn; [by destruct Hn|lia]. }
      split; [|done]. split.
      + intros [Hset' _]. unfold settled, EDGE_GUARD_MS in *. destruct last; lia.
      + intros Hset'. by rewrite Hset. }
  simpl. rewrite Hfirst. subst last. destruct spans as [|s2 spans].
  - inversion Hf. simpl. by rewrite filter_all.
  - by apply (merge_rest w (0, e) (s2 :: spans)).
Qed.

End Heard.

(** *** The planned windows, in milliseconds *)

Definition span_ms (span : Z * Z) : Z * Z := (millis span.1, millis span.2).

Lemma tiled_chained track start spans :
  0 <= start -> tiled track (samples WINDOW_MS) (samples OVERLAP_MS) start spans ->
  chained OVERLAP_MS (millis track) (span_ms <$> spans).
Proof.
  change (samples WINDOW_MS) with 480000. change (samples OVERLAP_MS) with 32000.
  unfold OVERLAP_MS, span_ms, millis, RATE. revert start.
  induction spans as [|[s e] spans IH]; intros start Hs; [done|].
  destruct spans as [|[s' e'] spans].
  - intros (-> & -> & ?). simpl. split; [|done]. Z.to_euclidean_division_equations; lia.
  - intros (-> & -> & Ht & Hrest). pose proof Hrest as Hc. apply IH in Hc; [|lia].
    assert (s' = start + 480000 - 32000 /\ start + 480000 <= e') as [-> He].
    { destruct spans as [|[] spans]; simpl in Hrest; lia. }
    cbn [fmap list_fmap fst snd chained] in *.
    split; [Z.to_euclidean_division_equations; lia|].
    split; [Z.to_euclidean_division_equations; lia|].
    split; [Z.to_euclidean_division_equations; lia|exact Hc].
Qed.

(** C11: what a track's planned windows hear of its speech, each word clipped to the
    window and misheard where it was clipped, the merge puts back together exactly:
    no word is lost, repeated or moved.  The words follow one another, none is
    longer than the overlap less the guards on both sides, and one repeated is at
    least the matching tolerance apart. *)
Theorem merge_keeps_every_word_once `{Lowercase} (track : Z) (spans : list (Z * Z))
  (speech : list TimedWord) (windows : list WindowWords) :
  0 <= track -> track + samples WINDOW_MS <= u64_max ->
  plan track (samples WINDOW_MS) (samples OVERLAP_MS) = Some spans ->
  speech_ok (OVERLAP_MS - 2 * EDGE_GUARD_MS - 2) (millis track) speech ->
  Forall2 (hears speech) (span_ms <$> spans) windows ->
  merge_windows windows = speech.
Proof.
  intros Ht Hu Hplan Hs Hf.
  assert (Htime : time_ok (millis track)).
  { unfold time_ok, millis, RATE, EDGE_GUARD_MS, u64_max in *.
    change (samples WINDOW_MS) with 480000 in Hu. Z.to_euclidean_division_equations; lia. }
  destruct (Z.eq_dec track 0) as [->|Hne].
  - injection Hplan as <-. inversion Hf. destruct speech as [|w speech]; [done|].
    destruct Hs as [_ Hw]. apply Forall_cons in Hw as [Hw _]. change (millis 0) with 0 in Hw. lia.
  - destruct (plan_tiled track (samples WINDOW_MS) (samples OVERLAP_MS)) as (ws & Hws & Htiled); [by vm_compute|lia|done|].
    rewrite Hws in Hplan. injection Hplan as ->.
    apply (merge_hears OVERLAP_MS (millis track) speech Hs Htime (span_ms <$> spans)); [done| | |done].
    + by apply (tiled_chained track 0).
    + intros s e. destruct spans as [|[s' e'] spans]; [done|]. intros [= <- _].
      by rewrite (tiled_first _ _ _ _ _ _ _ Htiled eq_refl).
Qed.

(** Thirty-one seconds, with a word across each of the two edges and each clipped
    half misheard. *)
Definition sample_speech : list TimedWord :=
  [timed_new "hello" 1000 1400; timed_new "edge" 27800 28250; timed_new "both" 28500 29000;
   timed_new "over" 29800 30250; timed_new "done." 30400 30900].

Definition sample_windows : list WindowWords :=
  [mkWindow 0 30000 [timed_new "hello" 1000 1400; timed_new "edge" 27800 28250; timed_new "both" 28500 29000;
     timed_new "oh" 29800 30000];
   mkWindow 28000 31000 [timed_new "jay" 28000 28250; timed_new "both" 28500 29000; timed_new "over" 29800 30250;
     timed_new "done." 30400 30900]].

Lemma merge_keeps_every_word_once_witness : merge_windows sample_windows = sample_speech.
Proof.
  apply (merge_keeps_every_word_once 496000 [(0, 480000); (448000, 496000)]).
  - by vm_compute.
  - by vm_compute.
  - reflexivity.
  - split.
    + unfold sample_speech. repeat constructor; (vm_compute; discriminate) || (intros E; vm_compute in E; discriminate E).
    + unfold sample_speech. repeat constructor; (by vm_compute) || (intros E; vm_compute in E; discriminate E).
  - vm_compute (span_ms <$> _). unfold sample_windows. apply Forall2_cons. split.
    + split; [done|]. split; [done|]. cbn [fst snd ww_words].
      repeat constructor; try done; try (by vm_compute); intros; exfalso; done || lia.
    + apply Forall2_cons. split; [|done]. split; [done|]. split; [done|].
      repeat constructor; try done; try (by vm_compute); intros; exfalso; done || lia.
Defined.

Lemma merge_touches_only_boundaries_witness :
  [timed_new "hello" 1000 1400; timed_new "done." 30400 30900] `sublist_of` merge_windows sample_windows.
Proof.
  destruct (merge_touches_only_boundaries sample_windows) as [_ H].
  change [timed_new "hello" 1000 1400; timed_new "done." 30400 30900] with (bodies None sample_windows).
  apply H. split.
  - split; [by vm_compute|]. split; [by vm_compute|]. repeat constructor; by vm_compute.
  - split; [done|]. split; [split; [by vm_compute|right; by vm_compute]|].
    split; [|done]. split; [by vm_compute|]. split; [by vm_compute|]. repeat constructor; by vm_compute.
Defined.

(** The spacing of repeats matters: of a word said again every 450 ms across the
    boundary, the longest shared run reaches one too far and an occurrence is lost. *)
Definition rapid_speech : list TimedWord :=
  (fun k => timed_new "no" (27750 + 450 * k) (28050 + 450 * k)) <$> [0; 1; 2; 3; 4; 5; 6].

Definition clip (s e : Z) (w : TimedWord) : TimedWord :=
  mkTimed (tw_text w) (Z.max (tw_start w) s) (Z.min (tw_end w) e) false.

Definition rapid_windows : list WindowWords :=
  (fun '(s, e) => mkWindow s e (clip s e <$> filter (overlaps s e) rapid_speech)) <$>
  [(0, 30000); (28000, 31000)].

Example rapid_repeats_lose_a_word :
  length rapid_speech = 7%nat /\ length (merge_windows rapid_windows) = 6%nat.
Proof. by vm_compute. Qed.
