(* ===== verification/PostTurns.v ===== *)
(** * fotwd: from timed words to turns

    Models [crates/fotwd/src/post_pass/turns.rs]: joining the diarizer's spans,
    giving each system word its speaker, grouping a channel's words into turns and
    interleaving both channels' turns. *)

From S2P Require Import Prelude Text PostMerge.

Local Open Scope Z_scope.

Definition MERGE_GAP_MS : Z := 350.
Definition SHORT_GAP_MS : Z := 1500.
Definition SHORT_VISIBLE : nat := 8.
Definition LONG_TURN_MS : Z := 20000.
Definition NEAREST_SPEAKER_MS : Z := 1000.
Definition SPAN_GAP_MS : Z := 250.
Definition ME : string := "me".

Record SpeakerSpan := mkSpan { ss_start : Z; ss_end : Z; ss_speaker : string }.

Inductive Channel := Mic | System.

#[export] Instance Channel_eq_dec : EqDecision Channel.
Proof. solve_decision. Defined.

Record Turn := mkTurn {
  channel : Channel;
  turn_speaker : option string;
  turn_start : Z;
  turn_end : Z;
  turn_words : list (TimedWord * option string);
}.

(** ** The standard library's ordering functions *)

Section Sorting.
Context {A : Type} (leb : A -> A -> bool).

(** [sort_by_key], stable: an element stays before its equals. *)
Fixpoint insert_by (x : A) (l : list A) : list A :=
  match l with
  | [] => [x]
  | y :: l' => if leb x y then x :: l else y :: insert_by x l'
  end.

Definition sort_by (l : list A) : list A := foldr insert_by [] l.

(** [max_by_key]: the last of the greatest. *)
Definition max_by (l : list A) : option A :=
  match l with
  | [] => None
  | x :: l => Some (fold_left (fun best y => if leb best y then y else best) l x)
  end.

(** [min_by_key]: the first of the least. *)
Definition min_by (l : list A) : option A :=
  match l with
  | [] => None
  | x :: l => Some (fold_left (fun best y => if leb best y then best else y) l x)
  end.

End Sorting.

(** [partition_point] on a sorted slice. *)
Definition partition_point {A} (p : A -> bool) (l : list A) : nat := length (take_while p l).

(** Lexicographic order on pairs. *)
Definition pair_leb (a b : Z * Z) : bool := (a.1 <? b.1) || ((a.1 =? b.1) && (a.2 <=? b.2)).

(** ** Text *)

(** Punctuation other than an opening bracket or a quotation mark. *)
Definition hugging (c : Z) : bool := is_ascii_punctuation c && negb (c =? 40) && negb (c =? 34).

Definition starts_hugging (w : string) : bool := is_some_and (head (chars w)) hugging.

(** Muesli's [joinText]. *)
Definition join_word (out word : string) : string :=
  let word := trim word in
  if str_is_empty word then out
  else (if negb (str_is_empty out) && negb (starts_hugging word) then out +:+ " " else out) +:+ word.

Definition words_text (words : list (TimedWord * option string)) : string :=
  fold_left (fun out '(w, _) => join_word out (tw_text w)) words EmptyString.

Definition turn_text (self : Turn) : string := words_text (turn_words self).

Definition visible (text : string) : nat := length (filter (fun c => is_whitespace c = false) (chars text)).

(** The last character once quotes and brackets that close are passed over. *)
Definition ends_sentence (word : string) : bool :=
  let closing c := (c =? 34) || (c =? 39) || (c =? 41) in
  is_some_and (head (trim_start_chars closing (rev (chars word))))
    (fun c => (c =? 46) || (c =? 63) || (c =? 33)).

(** ** Speakers *)

Definition join_span (out : list SpeakerSpan) (span : SpeakerSpan) : list SpeakerSpan :=
  match out with
  | last :: before =>
      if bool_decide (ss_speaker last = ss_speaker span) && (ss_start span <=? wadd (ss_end last) SPAN_GAP_MS)
      then mkSpan (ss_start last) (Z.max (ss_end last) (ss_end span)) (ss_speaker last) :: before
      else span :: out
  | [] => [span]
  end.

Definition span_leb (a b : SpeakerSpan) : bool := pair_leb (ss_start a, ss_end a) (ss_start b, ss_end b).

(** The loop keeps its output newest first. *)
Definition join_spans (spans : list SpeakerSpan) : list SpeakerSpan :=
  rev (fold_left join_span (sort_by span_leb spans) []).

Definition span_overlap (start end_ : Z) (s : SpeakerSpan) : Z :=
  sat_sub (Z.min (ss_end s) end_) (Z.max (ss_start s) start).

Definition span_distance (start end_ : Z) (s : SpeakerSpan) : Z :=
  if ss_end s <=? start then start - ss_end s else sat_sub (ss_start s) end_.

(** [(overlap(s), Reverse(s.start_ms))]. *)
Definition overlap_leb (start end_ : Z) (a b : SpeakerSpan) : bool :=
  pair_leb (span_overlap start end_ a, - ss_start a) (span_overlap start end_ b, - ss_start b).

Definition distance_leb (start end_ : Z) (a b : SpeakerSpan) : bool :=
  pair_leb (span_distance start end_ a, ss_start a) (span_distance start end_ b, ss_start b).

Definition speaker_at (spans : list SpeakerSpan) (start end_ : Z) : option string :=
  match max_by (overlap_leb start end_) (filter (fun s => 0 < span_overlap start end_ s) spans) with
  | Some best => Some (ss_speaker best)
  | None =>
      ss_speaker <$>
      min_by (distance_leb start end_) (filter (fun s => span_distance start end_ s <= NEAREST_SPEAKER_MS) spans)
  end.

(** ** Turns *)

Definition interrupted (other : list Z) (turn_end word_start : Z) : bool :=
  is_some_and (other !! partition_point (fun t => t <=? turn_end) other) (fun t => t <? word_start).

(** Whether the next word goes on with the turn. *)
Definition continues (other : list Z) (turn : Turn) (word : TimedWord) (speaker : option string) : bool :=
  let gap := sat_sub (tw_start word) (turn_end turn) in
  let short := (visible (turn_text turn) <? SHORT_VISIBLE)%nat in
  let joins := (gap <=? MERGE_GAP_MS) || ((gap <=? SHORT_GAP_MS) && short) in
  let long := (LONG_TURN_MS <=? wsub (turn_end turn) (turn_start turn)) &&
              is_some_and (last (turn_words turn)) (fun '(w, _) => ends_sentence (tw_text w)) in
  bool_decide (turn_speaker turn = speaker) && joins && negb long &&
  negb (interrupted other (turn_end turn) (tw_start word)).

Definition add_word (ch : Channel) (other : list Z) (turns : list Turn) (w : TimedWord * option string)
  : list Turn :=
  let '(word, speaker) := w in
  let fresh := mkTurn ch speaker (tw_start word) (tw_end word) [(word, speaker)] in
  match turns with
  | turn :: before =>
      if continues other turn word speaker then
        mkTurn (channel turn) (turn_speaker turn) (turn_start turn) (Z.max (turn_end turn) (tw_end word))
          (turn_words turn ++ [(word, speaker)]) :: before
      else fresh :: turns
  | [] => [fresh]
  end.

(** The loop keeps its output newest first. *)
Definition channel_turns (ch : Channel) (words : list (TimedWord * option string)) (other : list Z)
  : list Turn :=
  rev (fold_left (add_word ch other) words []).

Definition word_starts (words : list TimedWord) : list Z := sort_by Z.leb (tw_start <$> words).

(** Each system word with its speaker; one no span is near keeps the last word's. *)
Fixpoint system_words (spans : option (list SpeakerSpan)) (previous : option string) (system : list TimedWord)
  : list (TimedWord * option string) :=
  match system with
  | [] => []
  | w :: rest =>
      let speaker :=
        match spans with
        | Some spans =>
            match speaker_at spans (tw_start w) (tw_end w) with Some s => Some s | None => previous end
        | None => None
        end in
      (w, speaker) :: system_words spans speaker rest
  end.

Definition mic_words (mic : list TimedWord) : list (TimedWord * option string) :=
  (fun w => (w, Some ME)) <$> mic.

(** [(t.start_ms, t.channel == System, t.end_ms)]. *)
Definition turn_leb (a b : Turn) : bool :=
  let rank t := match channel t with Mic => 0 | System => 1 end in
  (turn_start a <? turn_start b) ||
  ((turn_start a =? turn_start b) && pair_leb (rank a, turn_end a) (rank b, turn_end b)).

Definition build_turns (mic system : list TimedWord) (system_speakers : option (list SpeakerSpan)) : list Turn :=
  sort_by turn_leb
    (channel_turns Mic (mic_words mic) (word_starts system) ++
     channel_turns System (system_words system_speakers None system) (word_starts mic)).

(** ** Ordering *)

(** The winner of a contest is one of the contestants and none beats it. *)
Lemma contest_spec {A} (pick : A -> A -> A) (wins : A -> A -> Prop) (x : A) (l : list A) :
  (forall a b c, wins a b -> wins b c -> wins a c) -> (forall a b, pick a b = a \/ pick a b = b) ->
  (forall a b, wins (pick a b) a) -> (forall a b, wins (pick a b) b) -> (forall a, wins a a) ->
  fold_left pick l x ∈ x :: l /\ forall y, y ∈ x :: l -> wins (fold_left pick l x) y.
Proof.
  intros Htrans Hpick H1 H2 Hrefl. revert x. induction l as [|y l IH]; intros x; simpl.
  - split; [left|]. intros z ->%list_elem_of_singleton. done.
  - destruct (IH (pick x y)) as [Hin Hwins]. split.
    + apply elem_of_cons in Hin as [->|Hin]; [|right; by right].
      destruct (Hpick x y) as [->| ->]; [left|right; left].
    + pose proof (Hwins (pick x y) ltac:(left)) as Hp.
      intros z [->|[->|Hz]%elem_of_cons]%elem_of_cons; [by eapply Htrans..|]. apply Hwins. by right.
Qed.

Section SortingLemmas.
Context {A : Type} (leb : A -> A -> bool).

Lemma insert_by_perm x l : insert_by leb x l ≡ₚ x :: l.
Proof.
  induction l as [|y l IH]; [done|]. simpl. case_match; [done|]. rewrite IH. constructor.
Qed.

Lemma sort_by_perm l : sort_by leb l ≡ₚ l.
Proof. induction l as [|x l IH]; [done|]. simpl. rewrite insert_by_perm. by constructor. Qed.

Hypothesis leb_total : forall a b, leb a b = true \/ leb b a = true.
Hypothesis leb_trans : forall a b c, leb a b = true -> leb b c = true -> leb a c = true.

Lemma insert_by_sorted x l :
  StronglySorted (fun a b => leb a b = true) l -> StronglySorted (fun a b => leb a b = true) (insert_by leb x l).
Proof.
  induction 1 as [|y l Hl IH Hy]; simpl; [by repeat constructor|]. case_match eqn:E.
  - constructor; [by constructor|]. constructor; [done|].
    eapply Forall_impl; [exact Hy|]. intros z Hz. by eapply leb_trans.
  - constructor; [done|]. rewrite insert_by_perm. constructor; [|done].
    destruct (leb_total x y); congruence.
Qed.

Lemma sort_by_sorted l : StronglySorted (fun a b => leb a b = true) (sort_by leb l).
Proof. induction l as [|x l IH]; [constructor|]. by apply insert_by_sorted. Qed.

Lemma max_by_spec l best :
  max_by leb l = Some best -> best ∈ l /\ forall x, x ∈ l -> leb x best = true.
Proof.
  destruct l as [|x l]; [done|]. intros [= <-].
  apply (contest_spec _ (fun a b => leb b a = true)); [|intros a b|intros a b|intros a b|].
  - intros a b c ? ?. by eapply leb_trans.
  - case_match; auto.
  - case_match; [done|]. by destruct (leb_total a a).
  - destruct (leb a b) eqn:E; [by destruct (leb_total b b)|]. destruct (leb_total a b); congruence.
  - intros a. by destruct (leb_total a a).
Qed.

Lemma min_by_spec l best :
  min_by leb l = Some best -> best ∈ l /\ forall x, x ∈ l -> leb best x = true.
Proof.
  destruct l as [|x l]; [done|]. intros [= <-].
  apply (contest_spec _ (fun a b => leb a b = true)); [|intros a b|intros a b|intros a b|].
  - intros a b c ? ?. by eapply leb_trans.
  - case_match; auto.
  - destruct (leb a b) eqn:E; [by destruct (leb_total a a)|]. destruct (leb_total a b); congruence.
  - destruct (leb a b) eqn:E; [done|]. by destruct (leb_total b b).
  - intros a. by destruct (leb_total a a).
Qed.

End SortingLemmas.

Lemma pair_leb_total a b : pair_leb a b = true \/ pair_leb b a = true.
Proof. unfold pair_leb. rewrite !orb_true_iff, !andb_true_iff, !Z.ltb_lt, !Z.eqb_eq, !Z.leb_le. lia. Qed.

Lemma pair_leb_trans a b c : pair_leb a b = true -> pair_leb b c = true -> pair_leb a c = true.
Proof. unfold pair_leb. rewrite !orb_true_iff, !andb_true_iff, !Z.ltb_lt, !Z.eqb_eq, !Z.leb_le. lia. Qed.

Lemma pair_leb_fst a b : pair_leb a b = true -> a.1 <= b.1.
Proof. unfold pair_leb. rewrite orb_true_iff, andb_true_iff, Z.ltb_lt, Z.eqb_eq. lia. Qed.

Lemma turn_leb_total a b : turn_leb a b = true \/ turn_leb b a = true.
Proof.
  unfold turn_leb. rewrite !orb_true_iff, !andb_true_iff, !Z.ltb_lt, !Z.eqb_eq.
  destruct (Z.lt_trichotomy (turn_start a) (turn_start b)) as [?|[?|?]]; [tauto| |tauto].
  destruct (pair_leb_total (match channel a with Mic => 0 | System => 1 end, turn_end a)
              (match channel b with Mic => 0 | System => 1 end, turn_end b)); auto.
Qed.

Lemma turn_leb_trans a b c : turn_leb a b = true -> turn_leb b c = true -> turn_leb a c = true.
Proof.
  unfold turn_leb. rewrite !orb_true_iff, !andb_true_iff, !Z.ltb_lt, !Z.eqb_eq.
  intros [?|[? ?]] [?|[? ?]]; try (left; lia). right. split; [lia|]. by eapply pair_leb_trans.
Qed.

Lemma turn_leb_start a b : turn_leb a b = true -> turn_start a <= turn_start b.
Proof. unfold turn_leb. rewrite orb_true_iff, andb_true_iff, Z.ltb_lt, Z.eqb_eq. lia. Qed.

(** ** The speaker of a word *)

Lemma max_by_None {A} (leb : A -> A -> bool) l : max_by leb l = None -> l = [].
Proof. by destruct l. Qed.
Lemma min_by_None {A} (leb : A -> A -> bool) l : min_by leb l = None -> l = [].
Proof. by destruct l. Qed.

Lemma filter_nil_not {A} (P : A -> Prop) `{!forall x, Decision (P x)} (l : list A) x :
  filter P l = [] -> x ∈ l -> ~ P x.
Proof.
  intros Hf Hx Hp. assert (Hin : x ∈ filter P l) by (by apply list_elem_of_filter).
  rewrite Hf in Hin. by apply elem_of_nil in Hin.
Qed.

(** A system word takes the speaker of a span that overlaps it at least as much
    as any other; where none overlaps it, of one that is no farther than any other
    and within reach; and has none exactly when no span overlaps it or is within
    reach. *)
Theorem speaker_at_is_nearest (spans : list SpeakerSpan) (start end_ : Z) :
  match speaker_at spans start end_ with
  | Some who => exists s, s ∈ spans /\ ss_speaker s = who /\
      ((0 < span_overlap start end_ s /\
        forall s', s' ∈ spans -> span_overlap start end_ s' <= span_overlap start end_ s) \/
       ((forall s', s' ∈ spans -> span_overlap start end_ s' = 0) /\
        span_distance start end_ s <= NEAREST_SPEAKER_MS /\
        forall s', s' ∈ spans -> span_distance start end_ s <= span_distance start end_ s'))
  | None => forall s, s ∈ spans ->
      span_overlap start end_ s = 0 /\ NEAREST_SPEAKER_MS < span_distance start end_ s
  end.
Proof.
  unfold speaker_at.
  assert (Hnn : forall s, 0 <= span_overlap start end_ s) by (intros; apply sat_sub_nonneg).
  destruct (max_by _ _) as [best|] eqn:Emax.
  - apply max_by_spec in Emax as [[Hpos Hin]%list_elem_of_filter Hbest];
      [|intros; apply pair_leb_total|intros ???; apply pair_leb_trans].
    exists best. split; [done|]. split; [done|]. left. split; [done|]. intros s' Hs'.
    destruct (Z.le_gt_cases (span_overlap start end_ s') 0); [lia|].
    specialize (Hbest s'). apply pair_leb_fst in Hbest; [done|]. by apply list_elem_of_filter.
  - assert (Hnone : forall s', s' ∈ spans -> span_overlap start end_ s' = 0).
    { intros s' Hs'. apply max_by_None in Emax. pose proof (filter_nil_not _ _ _ Emax Hs') as Hno.
      specialize (Hnn s'). cbv beta in Hno. lia. }
    destruct (min_by _ _) as [best|] eqn:Emin; simpl.
    + apply min_by_spec in Emin as [[Hnear Hin]%list_elem_of_filter Hbest];
        [|intros; apply pair_leb_total|intros ???; apply pair_leb_trans].
      exists best. split; [done|]. split; [done|]. right. split; [done|]. split; [done|].
      intros s' Hs'. destruct (Z.le_gt_cases (span_distance start end_ s') NEAREST_SPEAKER_MS); [|lia].
      specialize (Hbest s'). apply pair_leb_fst in Hbest; [done|]. by apply list_elem_of_filter.
    + intros s Hs. split; [by apply Hnone|]. apply min_by_None in Emin.
      pose proof (filter_nil_not _ _ _ Emin Hs) as Hno. cbv beta in Hno. lia.
Qed.

(** ** Turns *)

Definition words_start (l : list (TimedWord * option string)) : Z :=
  match l with [] => 0 | (w, _) :: _ => tw_start w end.

Definition words_end (l : list (TimedWord * option string)) : Z :=
  match l with [] => 0 | (w, _) :: rest => fold_left (fun m '(w, _) => Z.max m (tw_end w)) rest (tw_end w) end.

(** A turn says who, when and what of its own words. *)
Record turn_wf (t : Turn) : Prop := {
  tf_words : turn_words t <> [];
  tf_speaker : Forall (fun w => w.2 = turn_speaker t) (turn_words t);
  tf_start : turn_start t = words_start (turn_words t);
  tf_end : turn_end t = words_end (turn_words t);
}.

(** What lets [x] go on with the words [pre]: a pause short enough, in which nobody
    on the other channel starts, and no long run that ends with its sentence. *)
Record follows (other : list Z) (pre : list (TimedWord * option string)) (x : TimedWord) : Prop := {
  fo_gap : let gap := sat_sub (tw_start x) (words_end pre) in
    gap <= MERGE_GAP_MS \/ (gap <= SHORT_GAP_MS /\ (visible (words_text pre) < SHORT_VISIBLE)%nat);
  fo_quiet : forall t, t ∈ other -> ~ (words_end pre < t < tw_start x);
  fo_long : LONG_TURN_MS <= wsub (words_end pre) (words_start pre) ->
    forall w, last pre = Some w -> ends_sentence (tw_text w.1) = false;
}.

Definition cohesive (other : list Z) (t : Turn) : Prop :=
  forall pre x post, turn_words t = pre ++ x :: post -> pre <> [] -> follows other pre x.1.

Lemma interrupted_cons t other e s :
  interrupted (t :: other) e s = if t <=? e then interrupted other e s else t <? s.
Proof. unfold interrupted, partition_point. simpl. by destruct (t <=? e). Qed.

(** Searching a sorted list for the first start in the gap finds one if there is one. *)
Lemma interrupted_spec other e s :
  StronglySorted Z.le other ->
  (interrupted other e s = true <-> exists t, t ∈ other /\ e < t < s).
Proof.
  induction 1 as [|u other Ho IH Hu].
  - split; [done|]. intros (t & Ht%elem_of_nil & _). done.
  - rewrite interrupted_cons. destruct (Z.leb_spec u e).
    + rewrite IH. split.
      * intros (t & ? & ?). exists t. split; [by right|done].
      * intros (t & [->|Ht]%elem_of_cons & ?); [lia|]. by exists t.
    + rewrite Z.ltb_lt. split.
      * intros. exists u. split; [left|lia].
      * intros (t & [->|Ht]%elem_of_cons & ?); [lia|]. rewrite Forall_forall in Hu. specialize (Hu t Ht). lia.
Qed.

Lemma words_end_snoc l w : l <> [] -> words_end (l ++ [w]) = Z.max (words_end l) (tw_end w.1).
Proof. destruct l as [|[x ?] l], w; [done|]. intros _. simpl. by rewrite fold_left_app. Qed.

Lemma words_start_app l k : l <> [] -> words_start (l ++ k) = words_start l.
Proof. by destruct l as [|[] l]. Qed.

Lemma continues_follows other t x speaker :
  StronglySorted Z.le other -> turn_wf t -> continues other t x speaker = true ->
  turn_speaker t = speaker /\ follows other (turn_words t) x.
Proof.
  intros Ho [Hw _ Hs He] Hc. unfold continues in Hc. unfold turn_text in Hc. rewrite Hs, He in Hc.
  repeat rewrite andb_true_iff in Hc. destruct Hc as [[[Hsp%bool_decide_eq_true Hj] Hl] Hq].
  split; [done|]. split.
  - apply orb_true_iff in Hj. rewrite andb_true_iff, !Z.leb_le, Nat.ltb_lt in Hj. done.
  - intros u Hu Hin. apply negb_true_iff, not_true_iff_false in Hq. apply Hq.
    apply interrupted_spec; [done|]. by exists u.
  - intros Hlong w Hlast. rewrite Hlast, (proj2 (Z.leb_le _ _)) in Hl by done.
    destruct w. simpl in *. by destruct (ends_sentence _).
Qed.

Lemma add_word_keeps ch other turns w :
  StronglySorted Z.le other -> Forall (fun t => turn_wf t /\ cohesive other t /\ channel t = ch) turns ->
  Forall (fun t => turn_wf t /\ cohesive other t /\ channel t = ch) (add_word ch other turns w) /\
  (rev (add_word ch other turns w) ≫= turn_words) = (rev turns ≫= turn_words) ++ [w].
Proof.
  intros Ho Ht. destruct w as [word speaker].
  assert (Hfresh : let t := mkTurn ch speaker (tw_start word) (tw_end word) [(word, speaker)] in
    turn_wf t /\ cohesive other t /\ channel t = ch).
  { split; [by split; repeat constructor|]. split; [|done]. intros pre x post Hsplit Hne. simpl in Hsplit.
    destruct pre as [|? [|]]; done. }
  unfold add_word. destruct turns as [|t before]; [by split; [constructor; [apply Hfresh|constructor]|]|].
  destruct (continues other t word speaker) eqn:Hc.
  - apply Forall_cons in Ht as [(Hwf & Hco & Hch) Hbefore].
    pose proof (continues_follows _ _ _ _ Ho Hwf Hc) as [Hsp Hfol]. destruct Hwf as [Hw Hall Hs He]. split.
    + constructor; [|done]. split; [|split; [|done]].
      * split; cbn.
        -- by destruct (turn_words t).
        -- apply Forall_app. split; [done|]. by repeat constructor.
        -- by rewrite words_start_app.
        -- by rewrite words_end_snoc, He.
      * intros pre x post Hsplit Hne. cbn in Hsplit.
        apply snoc_split in Hsplit as [(-> & -> & _)|(post' & -> & Hl)]; [done|]. by eapply Hco.
    + simpl. rewrite !bind_app. simpl. by rewrite !app_nil_r, app_assoc.
  - split; [by constructor; [apply Hfresh|]|]. simpl. by rewrite bind_app.
Qed.

Lemma channel_turns_spec ch words other :
  StronglySorted Z.le other ->
  Forall (fun t => turn_wf t /\ cohesive other t /\ channel t = ch) (channel_turns ch words other) /\
  (channel_turns ch words other ≫= turn_words) = words.
Proof.
  intros Ho. unfold channel_turns.
  assert (Hstep : let turns := fold_left (add_word ch other) words [] in
    Forall (fun t => turn_wf t /\ cohesive other t /\ channel t = ch) turns /\ (rev turns ≫= turn_words) = words).
  { induction words as [|w words IH] using rev_ind; [done|]. destruct IH as [IH1 IH2].
    rewrite fold_left_app. simpl. destruct (add_word_keeps ch other _ w Ho IH1) as [H1 H2].
    split; [done|]. by rewrite H2, IH2. }
  destruct Hstep as [H1 H2]. split; [by apply Forall_rev|done].
Qed.

Lemma StronglySorted_weaken {A} (R R' : relation A) l :
  (forall a b, R a b -> R' a b) -> StronglySorted R l -> StronglySorted R' l.
Proof. intros HR. induction 1 as [|x l Hl IH Hx]; constructor; [done|]. eapply Forall_impl; [exact Hx|]. auto. Qed.

Lemma word_starts_sorted words : StronglySorted Z.le (word_starts words).
Proof.
  eapply StronglySorted_weaken; [|apply sort_by_sorted].
  - intros a b. apply Z.leb_le.
  - intros a b. rewrite !Z.leb_le. lia.
  - intros a b c. rewrite !Z.leb_le. lia.
Qed.

Lemma elem_of_word_starts t words : t ∈ word_starts words <-> exists w, w ∈ words /\ tw_start w = t.
Proof.
  unfold word_starts. rewrite sort_by_perm, list_elem_of_fmap. split; intros (w & ? & ?); by exists w.
Qed.

Lemma system_words_fst spans previous system : (system_words spans previous system).*1 = system.
Proof. revert previous. induction system as [|w system IH]; intros; [done|]. csimpl. by rewrite IH. Qed.

Lemma mic_words_fst mic : (mic_words mic).*1 = mic.
Proof. unfold mic_words. rewrite <-list_fmap_compose. by rewrite list_fmap_id. Qed.

Lemma channel_turns_of ch words other :
  Forall (fun t => channel t = ch) (channel_turns ch words (word_starts other)).
Proof.
  eapply Forall_impl; [apply (channel_turns_spec ch words), word_starts_sorted|]. by intros t (_ & _ & ?).
Qed.

Lemma build_turns_channel mic system spans ch :
  filter (fun t => channel t = ch) (build_turns mic system spans) ≡ₚ
  match ch with
  | Mic => channel_turns Mic (mic_words mic) (word_starts system)
  | System => channel_turns System (system_words spans None system) (word_starts mic)
  end.
Proof.
  unfold build_turns. rewrite sort_by_perm, filter_app.
  pose proof (channel_turns_of Mic (mic_words mic) system) as Hm.
  pose proof (channel_turns_of System (system_words spans None system) mic) as Hs.
  rewrite Forall_forall in Hm, Hs. destruct ch.
  - rewrite filter_all by done. rewrite filter_all_not; [by rewrite app_nil_r|].
    intros t Ht%Hs. congruence.
  - rewrite filter_all_not; [|intros t Ht%Hm; congruence]. by rewrite filter_all.
Qed.

Lemma build_turns_elem mic system spans t :
  t ∈ build_turns mic system spans ->
  turn_wf t /\ cohesive (word_starts (match channel t with Mic => system | System => mic end)) t.
Proof.
  unfold build_turns. rewrite sort_by_perm, elem_of_app.
  assert (Hin : forall ch words other, t ∈ channel_turns ch words (word_starts other) ->
    turn_wf t /\ cohesive (word_starts other) t /\ channel t = ch).
  { intros ch words other Ht. destruct (channel_turns_spec ch words _ (word_starts_sorted other)) as [Hf _].
    rewrite Forall_forall in Hf. by apply Hf. }
  intros [(? & ? & ->)%Hin|(? & ? & ->)%Hin]; done.
Qed.

(** Every word of both channels is in exactly one turn of its channel, whatever
    the diarizer said; the turns come in order of their start; and each is some
    speaker's non-empty run of words, labelled with that speaker and timed from its
    first word to its latest end. *)
Theorem turns_keep_every_word (mic system : list TimedWord) (spans : option (list SpeakerSpan)) :
  let turns := build_turns mic system spans in
  let said ch := (filter (fun t => channel t = ch) turns ≫= turn_words).*1 in
  said Mic ≡ₚ mic /\ said System ≡ₚ system /\
  StronglySorted (fun a b => turn_start a <= turn_start b) turns /\ Forall turn_wf turns.
Proof.
  simpl. rewrite !build_turns_channel. split_and!.
  - rewrite (proj2 (channel_turns_spec _ _ _ (word_starts_sorted _))). by rewrite mic_words_fst.
  - rewrite (proj2 (channel_turns_spec _ _ _ (word_starts_sorted _))). by rewrite system_words_fst.
  - eapply StronglySorted_weaken; [apply turn_leb_start|].
    apply sort_by_sorted; [apply turn_leb_total|apply turn_leb_trans].
  - apply Forall_forall. intros t Ht%build_turns_elem. tauto.
Qed.

(** A turn never runs on across someone else's words: between one word of a turn
    and the next nobody on the other channel starts to speak, the pause is at most
    350 ms, or 1.5 s while the turn is still a fragment, and a turn of twenty seconds
    never runs past the end of a sentence. *)
Theorem turns_yield_the_floor (mic system : list TimedWord) (spans : option (list SpeakerSpan)) (t : Turn)
  (pre post : list (TimedWord * option string)) (x : TimedWord * option string) :
  t ∈ build_turns mic system spans -> turn_words t = pre ++ x :: post -> pre <> [] ->
  let other := match channel t with Mic => system | System => mic end in
  let gap := sat_sub (tw_start x.1) (words_end pre) in
  (forall w, w ∈ other -> ~ (words_end pre < tw_start w < tw_start x.1)) /\
  (gap <= MERGE_GAP_MS \/ (gap <= SHORT_GAP_MS /\ (visible (words_text pre) < SHORT_VISIBLE)%nat)) /\
  (LONG_TURN_MS <= wsub (words_end pre) (words_start pre) ->
   forall w, last pre = Some w -> ends_sentence (tw_text w.1) = false).
Proof.
  intros [_ Hco]%build_turns_elem Hsplit Hne other gap. destruct (Hco pre x post Hsplit Hne) as [Hgap Hquiet Hlong].
  split; [|done]. intros w Hw. apply Hquiet, elem_of_word_starts. by exists w.
Qed.

Definition sample_mic : list TimedWord := [timed_new "so" 0 200; timed_new "what" 250 400; timed_new "now" 700 900].
Definition sample_system : list TimedWord := [timed_new "yes" 450 650].

Lemma turns_yield_the_floor_witness :
  turn_text <$> build_turns sample_mic sample_system None = ["so what"; "yes"; "now"] /\
  ~ (words_end [(timed_new "so" 0 200, Some ME)] < 450 < 250).
Proof.
  split; [by vm_compute|].
  destruct (turns_yield_the_floor sample_mic sample_system None
    (mkTurn Mic (Some ME) 0 400 [(timed_new "so" 0 200, Some ME); (timed_new "what" 250 400, Some ME)])
    [(timed_new "so" 0 200, Some ME)] [] (timed_new "what" 250 400, Some ME)) as [H _].
  - vm_compute. left.
  - done.
  - done.
  - apply (H (timed_new "yes" 450 650)). left.
Defined.

(** ** Joined spans *)

Definition span_ok (s : SpeakerSpan) : Prop :=
  0 <= ss_start s <= ss_end s /\ ss_end s + SPAN_GAP_MS <= u64_max.

(** Neighbours, in either direction of the list, are apart or of different speakers. *)
Definition apart (a b : SpeakerSpan) : Prop :=
  ss_speaker a = ss_speaker b -> ss_end a + SPAN_GAP_MS < ss_start b.

(** [o] stands for speech heard: it starts and ends with spans of its speaker, and
    between them is never more than the gap past one. *)
Record stands_for (heard : list SpeakerSpan) (o : SpeakerSpan) : Prop := {
  sf_ok : span_ok o;
  sf_end : exists s, s ∈ heard /\ ss_speaker s = ss_speaker o /\ ss_start s <= ss_end s /\ ss_end s = ss_end o;
  sf_fill : forall t, ss_start o <= t <= ss_end o ->
    exists s, s ∈ heard /\ ss_speaker s = ss_speaker o /\ ss_start s <= t <= ss_end s + SPAN_GAP_MS;
}.

Record joined (heard out : list SpeakerSpan) : Prop := {
  jo_covers : forall s, s ∈ heard -> exists o, o ∈ out /\ ss_speaker o = ss_speaker s /\
    ss_start o <= ss_start s /\ ss_end s <= ss_end o;
  jo_stands : Forall (stands_for heard) out;
  jo_apart : forall pre newer older post, out = pre ++ newer :: older :: post -> apart older newer;
}.

Lemma stands_for_more heard s o : stands_for heard o -> stands_for (heard ++ [s]) o.
Proof.
  intros [Hok (e & ? & ?) Hfill]. split; [done| |].
  - exists e. split; [apply elem_of_app; by left|done].
  - intros t Ht. destruct (Hfill t Ht) as (f & ? & ?). exists f. split; [apply elem_of_app; by left|done].
Qed.

Lemma stands_for_itself heard s : span_ok s -> s ∈ heard -> stands_for heard s.
Proof.
  intros [? ?] Hin. split; [done| |].
  - exists s. split_and!; done || lia.
  - intros t Ht. exists s. split_and!; [done..|lia|]. unfold SPAN_GAP_MS. lia.
Qed.

(** The span that takes the new one in. *)
Lemma stands_for_joined heard last s :
  span_ok s -> stands_for heard last -> ss_speaker last = ss_speaker s ->
  ss_start last <= ss_start s <= ss_end last + SPAN_GAP_MS ->
  stands_for (heard ++ [s]) (mkSpan (ss_start last) (Z.max (ss_end last) (ss_end s)) (ss_speaker last)).
Proof.
  intros [? ?] [[? ?] (l & Hl & Hlsp & Hlle & Hle) Hfill] Hsp Hst. split.
  - split; simpl; lia.
  - simpl. destruct (Z.max_spec (ss_end last) (ss_end s)) as [[_ ->]|[_ ->]].
    + exists s. split; [apply elem_of_app; right; left|]. split_and!; done || lia.
    + exists l. split; [apply elem_of_app; by left|done].
  - simpl. intros t Ht. destruct (Z.le_gt_cases (ss_start s) t) as [Hle'|Hgt].
    + destruct (Z.le_gt_cases t (ss_end s)) as [Hin|Hout].
      * exists s. split; [apply elem_of_app; right; left|]. split; [done|]. unfold SPAN_GAP_MS. lia.
      * destruct (Hfill t) as (f & ? & ?); [lia|]. exists f. split; [apply elem_of_app; by left|done].
    + destruct (Z.le_gt_cases t (ss_end last)) as [Hin|Hout].
      * destruct (Hfill t) as (f & ? & ?); [lia|]. exists f. split; [apply elem_of_app; by left|done].
      * exists l. split; [apply elem_of_app; by left|]. split; [done|]. lia.
Qed.

(** A span that starts a new entry. *)
Lemma joined_cons heard out s :
  joined heard out -> span_ok s -> (forall o, head out = Some o -> apart o s) ->
  joined (heard ++ [s]) (s :: out).
Proof.
  intros [Hc Hs Ha] Hok Hnew. split.
  - intros x [Hx| ->%list_elem_of_singleton]%elem_of_app.
    + destruct (Hc x Hx) as (o & ? & ?). exists o. split; [by right|done].
    + exists s. split_and!; [left|done|lia..].
  - constructor.
    + apply stands_for_itself; [done|]. apply elem_of_app. right. left.
    + eapply Forall_impl; [exact Hs|]. intros o. apply stands_for_more.
  - intros pre newer older post E. destruct pre as [|p pre]; injection E as ->.
    + apply Hnew. by subst out.
    + by eapply Ha.
Qed.

Lemma joined_extend heard last before s :
  joined heard (last :: before) -> span_ok s -> ss_speaker last = ss_speaker s ->
  ss_start last <= ss_start s <= ss_end last + SPAN_GAP_MS ->
  joined (heard ++ [s]) (mkSpan (ss_start last) (Z.max (ss_end last) (ss_end s)) (ss_speaker last) :: before).
Proof.
  intros [Hc Hs Ha] Hok Hsp Hst. apply Forall_cons in Hs as [Hl Hs]. split.
  - intros x [Hx| ->%list_elem_of_singleton]%elem_of_app.
    + destruct (Hc x Hx) as (o & [->|Ho]%elem_of_cons & ? & ? & ?).
      * eexists. split; [left|]. simpl. split_and!; done || lia.
      * exists o. split; [by right|done].
    + eexists. split; [left|]. simpl. split_and!; done || lia.
  - constructor; [by apply stands_for_joined|]. eapply Forall_impl; [exact Hs|]. intros o. apply stands_for_more.
  - intros pre newer older post E. destruct pre as [|p pre]; simpl in E; injection E as <- E.
    + subst before. exact (Ha [] last older post eq_refl).
    + subst before. exact (Ha (last :: pre) newer older post eq_refl).
Qed.

Lemma join_span_joined heard out s :
  joined heard out -> span_ok s -> (forall o, o ∈ out -> ss_start o <= ss_start s) ->
  joined (heard ++ [s]) (join_span out s) /\ forall o, o ∈ join_span out s -> ss_start o <= ss_start s.
Proof.
  intros Hj Hok Hlate. unfold join_span. destruct out as [|last before].
  { split; [by apply joined_cons|]. by intros o ->%list_elem_of_singleton. }
  pose proof (jo_stands _ _ Hj) as Hst. apply Forall_cons in Hst as [[[? ?] _ _] _].
  assert (Hl : ss_start last <= ss_start s) by (apply Hlate; left).
  rewrite wadd_small by (unfold SPAN_GAP_MS in *; lia).
  destruct (bool_decide_reflect (ss_speaker last = ss_speaker s)) as [Hsp|Hsp];
    [destruct (Z.leb_spec (ss_start s) (ss_end last + SPAN_GAP_MS))|]; simpl.
  - split; [apply joined_extend; done|]. intros o [->|Ho]%elem_of_cons; [done|]. apply Hlate. by right.
  - split; [|intros o [->|Ho]%elem_of_cons; [done|by apply Hlate]].
    apply joined_cons; [done..|]. intros o [= <-] _. done.
  - split; [|intros o [->|Ho]%elem_of_cons; [done|by apply Hlate]].
    apply joined_cons; [done..|]. intros o [= <-] ?. done.
Qed.

Lemma join_fold_joined heard spans out :
  joined heard out -> Forall span_ok spans -> StronglySorted (fun a b => ss_start a <= ss_start b) spans ->
  (forall o s, o ∈ out -> s ∈ spans -> ss_start o <= ss_start s) ->
  joined (heard ++ spans) (fold_left join_span spans out).
Proof.
  intros Hj Hok Hs. revert heard out Hj. induction Hs as [|s spans Hs IH Hmin]; intros heard out Hj Hlate.
  { by rewrite app_nil_r. }
  apply Forall_cons in Hok as [Hs1 Hok]. rewrite Forall_forall in Hmin.
  destruct (join_span_joined heard out s Hj Hs1) as [Hj' Hl']; [intros; apply Hlate; [done|left]|].
  simpl. replace (heard ++ s :: spans) with ((heard ++ [s]) ++ spans) by (by rewrite <-app_assoc).
  apply IH; [done..|]. intros o x Ho Hx. specialize (Hl' o Ho). specialize (Hmin x Hx). simpl in Hmin. lia.
Qed.

(** Joining the diarizer's spans loses no one's speech and makes none up: every
    span lies within a joined one of its speaker; every instant of a joined span is
    in one of that speaker's spans or at most the gap past its end; and neighbouring
    joined spans of one speaker are farther apart than the gap. *)
Theorem joined_spans_are_faithful (spans : list SpeakerSpan) :
  Forall span_ok spans ->
  (forall s, s ∈ spans -> exists o, o ∈ join_spans spans /\ ss_speaker o = ss_speaker s /\
     ss_start o <= ss_start s /\ ss_end s <= ss_end o) /\
  (forall o t, o ∈ join_spans spans -> ss_start o <= t <= ss_end o ->
     exists s, s ∈ spans /\ ss_speaker s = ss_speaker o /\ ss_start s <= t <= ss_end s + SPAN_GAP_MS) /\
  (forall pre a b post, join_spans spans = pre ++ a :: b :: post -> apart a b).
Proof.
  intros Hok. pose proof (sort_by_perm span_leb spans) as Hperm.
  assert (Hj : joined (sort_by span_leb spans) (fold_left join_span (sort_by span_leb spans) [])).
  { apply (join_fold_joined []).
    - split; [by intros s ?%elem_of_nil|constructor|]. by intros [].
    - by rewrite Hperm.
    - eapply StronglySorted_weaken; [|apply (sort_by_sorted span_leb)].
      + intros a b. apply (pair_leb_fst (_, _) (_, _)).
      + intros. apply pair_leb_total.
      + intros ???. apply pair_leb_trans.
    - by intros o s ?%elem_of_nil. }
  unfold join_spans. destruct Hj as [Hc Hs Ha]. rewrite Forall_forall in Hs. split_and!.
  - intros s Hsp. destruct (Hc s) as (o & Ho & ?); [by rewrite Hperm|]. exists o. split; [|done].
    by apply list_elem_of_In, (in_rev (fold_left _ _ _)), list_elem_of_In.
  - intros o t Ho Ht. destruct (Hs o) as [_ _ Hfill].
    { by apply list_elem_of_In, in_rev, list_elem_of_In in Ho. }
    destruct (Hfill t Ht) as (s & Hin & ?). exists s. split; [by rewrite <-Hperm|done].
  - intros pre a b post E. apply (Ha (rev post) b a (rev pre)).
    rewrite <-(rev_involutive (fold_left _ _ _)), E. rewrite rev_app_distr. simpl. by rewrite <-!app_assoc.
Qed.

Lemma joined_spans_are_faithful_witness :
  join_spans [mkSpan 10000 19939 "S1"; mkSpan 2936 9939 "S1"; mkSpan 20500 21000 "S1"] =
    [mkSpan 2936 19939 "S1"; mkSpan 20500 21000 "S1"] /\
  apart (mkSpan 2936 19939 "S1") (mkSpan 20500 21000 "S1").
Proof.
  split; [by vm_compute|].
  destruct (joined_spans_are_faithful [mkSpan 10000 19939 "S1"; mkSpan 2936 9939 "S1"; mkSpan 20500 21000 "S1"])
    as (_ & _ & H).
  - repeat constructor; by vm_compute.
  - apply (H [] _ _ []). by vm_compute.
Defined.
