(* ===== verification/Consent.v ===== *)
(** * fotwd: the consent engine

    Models [crates/fotwd/src/consent.rs]: the jurisdiction rules, the signals about
    where participants are, the escalation from a reminder to a blocking warning,
    its text, and the disclosure mail.  The shipped rules are a data file, so every
    statement is about an arbitrary table; the maps are the [BTreeMap]s. *)

From stdpp Require Import gmap.
From S2P Require Import Prelude Text DeepgramWire.

Local Open Scope Z_scope.

Inductive ConsentRegime := OneParty | AllParty | Mixed | Contested.

#[export] Instance ConsentRegime_eq_dec : EqDecision ConsentRegime.
Proof. solve_decision. Defined.

Definition requires_blocking (r : ConsentRegime) : bool :=
  match r with OneParty => false | _ => true end.

Record Jurisdiction := mkJurisdiction {
  code : string;
  j_name : string;
  regime : ConsentRegime;
  statute : string;
  citation_url : string;
  criminal : bool;
  note : string;
  cctld : option string;
}.

Definition regime_rule (r : ConsentRegime) : string :=
  match r with
  | OneParty => "one participant's consent is enough."
  | AllParty => "every participant must consent."
  | Mixed => "recording needs a lawful basis under privacy or data-protection law; one participant's consent is not enough on its own."
  | Contested => "sources disagree, so this is treated as requiring every participant's consent."
  end.

Definition regime_crime (r : ConsentRegime) : string :=
  match r with
  | OneParty => "Recording without it is a CRIMINAL offence."
  | AllParty => "Recording without that consent is a CRIMINAL offence."
  | Mixed => "Recording without a lawful basis is a CRIMINAL offence."
  | Contested => "Under the stricter reading, recording without that consent is a CRIMINAL offence."
  end.

Definition requirement (self : Jurisdiction) : string :=
  let rule := regime_rule (regime self) in
  if negb (criminal self) then rule else rule +:+ (" " +:+ regime_crime (regime self)).

(** ** Signals *)

Record JurisdictionSignals := mkSignals {
  home : option string;
  domains : list string;
  timezone : option string;
}.

Definition signals_home (c : string) : JurisdictionSignals := mkSignals (Some c) [] None.

Definition with_attendee_domains (self : JurisdictionSignals) (ds : list string) : JurisdictionSignals :=
  mkSignals (home self) (domains self ++ (to_ascii_lowercase <$> ds)) (timezone self).

Definition with_event_timezone (self : JurisdictionSignals) (tz : string) : JurisdictionSignals :=
  mkSignals (home self) (domains self) (Some tz).

(** ** Escalation *)

Inductive Escalation :=
| Reminder (jurisdictions : list Jurisdiction)
| Blocking (jurisdictions : list Jurisdiction) (any_criminal : bool).

Definition newline : string := String (val_byte 10) EmptyString.

(** One entry of the warning, as the loop appends it. *)
Definition entry_text (j : Jurisdiction) : string :=
  ("  • " +:+ j_name j +:+ ": " +:+ requirement j +:+ newline +:+
   "    " +:+ statute j +:+ " (" +:+ citation_url j +:+ ")" +:+ newline +:+
   (if negb (str_is_empty (note j)) then "    " +:+ note j +:+ newline else EmptyString))%string.

Definition disclaimer : string := "This is not legal advice.".

Definition user_text (self : Escalation) : string :=
  match self with
  | Reminder _ => "Everyone on this call should know they're being recorded. This is not legal advice."
  | Blocking js _ =>
      let opening :=
        match js with
        | [] => "Your home jurisdiction is not in the rules table, so this is treated as requiring every participant's consent." +:+ newline
        | _ => "Recording laws that may apply to this call:" +:+ newline
        end in
      fold_left (fun s j => s +:+ entry_text j) js opening +:+ disclaimer
  end.

Definition blocks (self : Escalation) : bool :=
  match self with Blocking _ _ => true | Reminder _ => false end.

(** ** The rules *)

Record Rules := mkRules { by_code : gmap string Jurisdiction; by_cctld : gmap string string }.

Definition insert_rule (self : Rules) (j : Jurisdiction) : Rules :=
  mkRules (<[code j := j]> (by_code self))
    (match cctld j with Some cc => <[cc := code j]> (by_cctld self) | None => by_cctld self end).

Definition from_list (l : list Jurisdiction) : Rules := fold_left insert_rule l (mkRules ∅ ∅).

Definition get (self : Rules) (c : string) : option Jurisdiction := by_code self !! c.

Definition city_code (city : string) : option string :=
  (if bool_decide (city = "Berlin") then Some "DE"
   else if bool_decide (city = "Paris") then Some "FR"
   else if bool_decide (city = "London") then Some "GB"
   else if bool_decide (city = "Dublin") then Some "IE"
   else if bool_decide (city = "Amsterdam") then Some "NL"
   else if bool_decide (city = "Madrid") then Some "ES"
   else if bool_decide (city = "Rome") then Some "IT"
   else if bool_decide (city ∈ ["Toronto"; "Vancouver"; "Montreal"]) then Some "CA"
   else if bool_decide (city ∈ ["Sydney"; "Melbourne"; "Brisbane"; "Perth"]) then Some "AU"
   else if bool_decide (city = "Auckland") then Some "NZ"
   else if bool_decide (city = "Tokyo") then Some "JP"
   else if bool_decide (city = "Singapore") then Some "SG"
   else if bool_decide (city ∈ ["Kolkata"; "Calcutta"]) then Some "IN"
   else if bool_decide (city = "Sao_Paulo") then Some "BR"
   else None)%string.

Definition by_timezone (self : Rules) (tz : string) : option Jurisdiction :=
  city ← split (fun c => c =? 47) tz !! 1%nat; c ← city_code city; get self c.

(** [domain.rsplit('.').next()] and the jurisdiction it stands for. *)
Definition by_domain (self : Rules) (domain : string) : option Jurisdiction :=
  cc ← last (split (fun c => c =? 46) domain); c ← by_cctld self !! cc; get self c.

(** Pushed unless its code is there already. *)
Definition push_new (resolved : list Jurisdiction) (found : option Jurisdiction) : list Jurisdiction :=
  match found with
  | Some j => if existsb (fun r => bool_decide (code r = code j)) resolved then resolved else resolved ++ [j]
  | None => resolved
  end.

Definition resolve (self : Rules) (signals : JurisdictionSignals) : list Jurisdiction :=
  let resolved := match home signals with Some h => option_list (get self h) | None => [] end in
  let resolved := fold_left (fun r d => push_new r (by_domain self d)) (domains signals) resolved in
  push_new resolved (tz ← timezone signals; by_timezone self tz).

Definition unknown_home (self : Rules) (signals : JurisdictionSignals) : bool :=
  is_some_and (home signals) (fun h => negb (is_some (get self h))).

Definition escalate (self : Rules) (signals : JurisdictionSignals) : Escalation :=
  let resolved := resolve self signals in
  let blocking := filter (fun j => requires_blocking (regime j) = true) resolved in
  if unknown_home self signals then Blocking blocking (existsb criminal blocking)
  else match blocking with
  | [] => Reminder resolved
  | _ => Blocking blocking (existsb criminal blocking)
  end.

(** ** The disclosure kit *)

Record DisclosureKit := mkKit { notice : string }.

Definition kit_default : DisclosureKit :=
  mkKit "Heads up — I'm using an AI notetaker to transcribe this call for my own notes. Let me know if you'd prefer I stop.".

Definition chat_notice (self : DisclosureKit) : string := notice self.
Definition with_notice (self : DisclosureKit) (n : string) : DisclosureKit := mkKit n.

Definition calendar_blurb (self : DisclosureKit) : string :=
  "Note: I use an AI notetaker to transcribe meetings for my own notes. No bot joins the call. Recordings and transcripts stay on my own machine. Tell me if you'd rather I didn't for this meeting.".

Definition verbal_script (self : DisclosureKit) : string :=
  "Before we start — I'm recording and transcribing this for my own notes. Any objections?".

Fixpoint encode (s : string) : string :=
  match s with
  | EmptyString => EmptyString
  | String a s =>
      let b := byte_val a in
      if unreserved b then String a (encode s)
      else String (val_byte 37) (String (hex_digit (b / 16)) (String (hex_digit (b mod 16)) (encode s)))
  end.

Definition mail_body (self : DisclosureKit) : string :=
  calendar_blurb self +:+ newline +:+ newline +:+ "If you'd rather I didn't, just say so and I won't." +:+ newline.

Definition consent_mailto (self : DisclosureKit) (attendees : list string) (meeting_title : string) : string :=
  "mailto:" +:+ join "," attendees +:+ "?subject=" +:+ encode ("Recording " +:+ meeting_title) +:+
  "&body=" +:+ encode (mail_body self).

(** ** Which jurisdictions are named *)

(** The table maps a code to the rule of that code. *)
Definition rules_ok (r : Rules) : Prop := forall c j, get r c = Some j -> code j = c.

Lemma from_list_ok l : rules_ok (from_list l).
Proof.
  unfold from_list. assert (Hgen : forall r, rules_ok r -> rules_ok (fold_left insert_rule l r)).
  { induction l as [|j l IH]; intros r Hr; [done|]. apply IH. intros c j'. unfold get, insert_rule. simpl.
    destruct (decide (code j = c)) as [<-|Hne].
    - rewrite lookup_insert_eq. by intros [= <-].
    - rewrite lookup_insert_ne by done. apply Hr. }
  apply Hgen. intros c j. unfold get. simpl. by rewrite lookup_empty.
Qed.

(** A jurisdiction some signal points at. *)
Definition in_play (r : Rules) (s : JurisdictionSignals) (j : Jurisdiction) : Prop :=
  (exists h, home s = Some h /\ get r h = Some j) \/
  (exists d, d ∈ domains s /\ by_domain r d = Some j) \/
  (exists tz, timezone s = Some tz /\ by_timezone r tz = Some j).

(** Rules of the table, each once. *)
Definition listed (r : Rules) (js : list Jurisdiction) : Prop :=
  Forall (fun j => get r (code j) = Some j) js /\ NoDup (code <$> js).

Lemma by_domain_get r d j : rules_ok r -> by_domain r d = Some j -> get r (code j) = Some j.
Proof.
  intros Hr (cc & _ & (c & _ & Hj)%bind_Some)%bind_Some. by rewrite (Hr c j Hj).
Qed.

Lemma by_timezone_get r tz j : rules_ok r -> by_timezone r tz = Some j -> get r (code j) = Some j.
Proof.
  intros Hr (cc & _ & (c & _ & Hj)%bind_Some)%bind_Some. by rewrite (Hr c j Hj).
Qed.

Lemma push_new_listed r js found :
  listed r js -> (forall j, found = Some j -> get r (code j) = Some j) ->
  listed r (push_new js found) /\ forall j, j ∈ push_new js found <-> j ∈ js \/ found = Some j.
Proof.
  intros [Hget Hnd] Hf. destruct found as [j|]; simpl; [|split; [done|]; intros; split; [tauto|]; by intros [?|?]].
  specialize (Hf j eq_refl). destruct (existsb _ js) eqn:E.
  - split; [done|]. intros j'. split; [tauto|]. intros [?|[= <-]]; [done|].
    apply existsb_exists in E as (k & Hk%list_elem_of_In & Hc%bool_decide_eq_true).
    rewrite Forall_forall in Hget. specialize (Hget k Hk). congruence.
  - split; [split|].
    + apply Forall_app. split; [done|]. by repeat constructor.
    + rewrite fmap_app. apply NoDup_app. split; [done|]. split; [|apply NoDup_singleton].
      intros c (k & -> & Hk)%list_elem_of_fmap Hc%list_elem_of_singleton.
      apply not_true_iff_false in E. apply E, existsb_exists. exists k. split; [by apply list_elem_of_In|].
      by apply bool_decide_eq_true.
    + intros j'. rewrite elem_of_app, list_elem_of_singleton. split; (intros [?|?]; [by left|right]); congruence.
Qed.

Lemma domains_listed r js ds :
  rules_ok r -> listed r js ->
  listed r (fold_left (fun acc d => push_new acc (by_domain r d)) ds js) /\
  forall j, j ∈ fold_left (fun acc d => push_new acc (by_domain r d)) ds js <->
    j ∈ js \/ exists d, d ∈ ds /\ by_domain r d = Some j.
Proof.
  intros Hr. revert js. induction ds as [|d ds IH]; intros js Hl; simpl.
  - split; [done|]. intros j. split; [by left|]. intros [?|(d & ?%elem_of_nil & _)]; done.
  - destruct (push_new_listed r js (by_domain r d) Hl) as [Hl' Hin]; [intros; by eapply by_domain_get|].
    destruct (IH _ Hl') as [Hl'' Hin']. split; [done|]. intros j. rewrite Hin', Hin. split.
    + intros [[?|?]|(d' & ? & ?)]; [by left|right; exists d; split; [left|done]|].
      right. exists d'. split; [by right|done].
    + intros [?|(d' & [->|?]%elem_of_cons & ?)]; [by left; left|by left; right|]. right. by exists d'.
Qed.

Lemma resolve_listed r s : rules_ok r -> listed r (resolve r s) /\ forall j, j ∈ resolve r s <-> in_play r s j.
Proof.
  intros Hr. unfold resolve.
  set (js := match home s with Some h => option_list (get r h) | None => [] end).
  assert (Hjs : listed r js /\ forall j, j ∈ js <-> exists h, home s = Some h /\ get r h = Some j).
  { subst js. destruct (home s) as [h|]; simpl.
    - destruct (get r h) as [k|] eqn:E; simpl.
      + split; [split; [repeat constructor; by rewrite (Hr h k E)|apply NoDup_singleton]|].
        intros j. rewrite list_elem_of_singleton. split; [intros ->; by exists h|]. intros (? & [= <-] & ?). congruence.
      + split; [by split; [|constructor]|]. intros j. split; [by intros ?%elem_of_nil|].
        intros (? & [= <-] & ?). congruence.
    - split; [by split; [|constructor]|]. intros j. split; [by intros ?%elem_of_nil|]. by intros (? & ? & _). }
  destruct Hjs as [Hl Hin]. destruct (domains_listed r js (domains s) Hr Hl) as [Hl' Hin'].
  destruct (push_new_listed r _ (tz ← timezone s; by_timezone r tz) Hl') as [Hl'' Hin''].
  { intros j (tz & _ & Hj)%bind_Some. by eapply by_timezone_get. }
  split; [done|]. intros j. rewrite Hin'', Hin', Hin. unfold in_play.
  assert (Htz : (tz ← timezone s; by_timezone r tz) = Some j <->
    exists tz, timezone s = Some tz /\ by_timezone r tz = Some j) by (rewrite bind_Some; done).
  rewrite Htz. tauto.
Qed.

Definition escalation_list (e : Escalation) : list Jurisdiction :=
  match e with Reminder js => js | Blocking js _ => js end.

Lemma unknown_home_iff r s :
  unknown_home r s = true <-> exists h, home s = Some h /\ get r h = None.
Proof.
  unfold unknown_home. destruct (home s) as [h|]; simpl; [|by split; [|intros (? & ? & _)]].
  destruct (get r h) eqn:E; simpl; split; try done.
  - intros (? & [= <-] & ?). congruence.
  - intros _. by exists h.
Qed.

Lemma escalate_blocks r s :
  rules_ok r ->
  blocks (escalate r s) = true <->
  (exists h, home s = Some h /\ get r h = None) \/ (exists j, in_play r s j /\ regime j <> OneParty).
Proof.
  intros Hr. destruct (resolve_listed r s Hr) as [_ Hin]. unfold escalate. rewrite <-unknown_home_iff.
  assert (Hreg : forall j, requires_blocking (regime j) = true <-> regime j <> OneParty) by (intros j; by destruct (regime j)).
  destruct (unknown_home r s); [by split; [left|]|].
  destruct (filter _ _) as [|b bs] eqn:E; simpl.
  - split; [done|]. intros [?|(j & Hj & Hb)]; [done|]. exfalso. apply Hreg in Hb.
    assert (Hf : j ∈ filter (fun j => requires_blocking (regime j) = true) (resolve r s)).
    { apply list_elem_of_filter. split; [done|]. by apply Hin. }
    rewrite E in Hf. by apply elem_of_nil in Hf.
  - split; [|done]. intros _. right. exists b.
    assert (Hf : b ∈ filter (fun j => requires_blocking (regime j) = true) (resolve r s)) by (rewrite E; left).
    apply list_elem_of_filter in Hf as [Hb Hf]. split; [by apply Hin|by apply Hreg].
Qed.

(** CON-05, when the warning blocks.  For any rules table, recording needs an
    explicit acknowledgement exactly when the declared home is not in the table or
    some signal, home, attendee domain or calendar time zone, points at a
    jurisdiction that is anything but one-party; the warning then names each such
    jurisdiction, once, and flags a crime exactly when one of them is. *)
Theorem escalation_is_exact (table : list Jurisdiction) (s : JurisdictionSignals) :
  let r := from_list table in
  let e := escalate r s in
  (blocks e = true <->
   (exists h, home s = Some h /\ get r h = None) \/ (exists j, in_play r s j /\ regime j <> OneParty)) /\
  (forall j, j ∈ escalation_list e <-> in_play r s j /\ (blocks e = true -> regime j <> OneParty)) /\
  NoDup (code <$> escalation_list e) /\
  (forall js c, e = Blocking js c -> c = true <-> exists j, j ∈ js /\ criminal j = true).
Proof.
  intros r e. pose proof (from_list_ok table) as Hr. destruct (resolve_listed r s Hr) as [[_ Hnd] Hin].
  assert (Hreg : forall j, requires_blocking (regime j) = true <-> regime j <> OneParty) by (intros j; by destruct (regime j)).
  assert (Hbl : forall j, j ∈ filter (fun j => requires_blocking (regime j) = true) (resolve r s) <->
    in_play r s j /\ regime j <> OneParty) by (intros j; rewrite list_elem_of_filter, Hin, Hreg; tauto).
  assert (Hnd' : NoDup (code <$> filter (fun j => requires_blocking (regime j) = true) (resolve r s))).
  { eapply sublist_NoDup; [exact Hnd|]. apply fmap_sublist, sublist_filter. }
  split; [by apply escalate_blocks|]. subst e. unfold escalate.
  assert (Hcr : forall js c j0, Blocking j0 (existsb criminal j0) = Blocking js c ->
    c = true <-> exists j, j ∈ js /\ criminal j = true).
  { intros js c j0 [= <- <-]. rewrite existsb_exists. setoid_rewrite list_elem_of_In. done. }
  destruct (unknown_home r s).
  { simpl. split; [|split; [done|intros js c; apply Hcr]]. intros j. rewrite Hbl. tauto. }
  destruct (filter _ _) as [|b bs] eqn:E; simpl.
  - split; [|by split]. intros j. rewrite Hin. by split; [|tauto].
  - split; [|split; [done|intros js c; apply Hcr]]. intros j. rewrite Hbl. tauto.
Qed.

(** The same home, no fewer domains, and the time zone kept if there was one. *)
Definition knows_more (s s' : JurisdictionSignals) : Prop :=
  home s' = home s /\ domains s ⊆ domains s' /\ (timezone s = None \/ timezone s' = timezone s).

(** Knowing more about where the participants are can raise the warning and
    never lowers it, whatever the table. *)
Theorem more_signals_never_lower (table : list Jurisdiction) (s s' : JurisdictionSignals) :
  knows_more s s' -> blocks (escalate (from_list table) s) = true ->
  blocks (escalate (from_list table) s') = true.
Proof.
  intros (Hh & Hd & Ht). rewrite !escalate_blocks by apply from_list_ok. unfold in_play. rewrite Hh.
  intros [?|(j & Hj & Hr)]; [by left|]. right. exists j. split; [|done].
  destruct Hj as [?|[(d & Hin & ?)|(tz & Htz & ?)]]; [by left|right; left|right; right].
  - exists d. split; [by apply Hd|done].
  - exists tz. split; [|done]. destruct Ht as [Ht|Ht]; congruence.
Qed.

Definition germany : Jurisdiction :=
  mkJurisdiction "DE" "Germany" AllParty "StGB § 201" "https://example.org/201" true "" (Some "de").
Definition texas : Jurisdiction :=
  mkJurisdiction "US-TX" "Texas" OneParty "Tex. Penal Code § 16.02" "https://example.org/16" false "" None.

Lemma more_signals_never_lower_witness :
  blocks (escalate (from_list [germany; texas]) (signals_home "US-TX")) = false /\
  blocks (escalate (from_list [germany; texas])
    (with_event_timezone (with_attendee_domains (signals_home "US-TX") ["Kunde@Firma.DE"]) "Europe/Paris")) = true.
Proof.
  split; [by vm_compute|].
  apply (more_signals_never_lower _ (with_attendee_domains (signals_home "US-TX") ["Kunde@Firma.DE"])).
  - split; [done|]. split; [|by left]. intros d Hd. exact Hd.
  - by vm_compute.
Defined.

(** ** The warning's text *)

Lemma fold_entries js opening :
  exists entries, fold_left (fun s j => s +:+ entry_text j) js opening = opening +:+ entries /\
    forall j, j ∈ js -> exists a b, entries = a +:+ (entry_text j +:+ b).
Proof.
  revert opening. induction js as [|k js IH]; intros opening; simpl.
  - exists EmptyString. split; [by rewrite str_app_nil|]. by intros j ?%elem_of_nil.
  - destruct (IH (opening +:+ entry_text k)) as (es & He & Hin). exists (entry_text k +:+ es).
    rewrite He, str_app_assoc. split; [done|]. intros j [->|Hj]%elem_of_cons.
    + by exists EmptyString, es.
    + destruct (Hin j Hj) as (a & b & ->). exists (entry_text k +:+ a), b. by rewrite str_app_assoc.
Qed.

(** The text a person reads always ends with the disclaimer, and a blocking
    warning holds, for every jurisdiction it is about, that jurisdiction's own name,
    rule and statute: one criminal statute never heads the whole list. *)
Theorem warning_text_is_complete (e : Escalation) :
  (exists body, user_text e = body +:+ disclaimer) /\
  (blocks e = true -> forall j, j ∈ escalation_list e ->
   exists a b, user_text e = a +:+ (entry_text j +:+ b)).
Proof.
  destruct e as [js|js c]; simpl.
  - split; [|done]. exists "Everyone on this call should know they're being recorded. "%string. reflexivity.
  - set (opening := match js with [] => _ | _ => _ end).
    destruct (fold_entries js opening) as (es & -> & Hin). split; [by eexists|].
    intros _ j Hj. destruct (Hin j Hj) as (a & b & ->).
    exists (opening +:+ a), (b +:+ disclaimer). by rewrite !str_app_assoc.
Qed.

(** ** The disclosure mail *)

Lemma encode_percent s : encode s = percent_encode s.
Proof. induction s as [|a s IH]; [done|]. simpl. by rewrite IH. Qed.

Definition mail_query (self : DisclosureKit) (meeting_title : string) : list (string * string) :=
  [("subject", "Recording " +:+ meeting_title); ("body", mail_body self)]%string.

Lemma mailto_query kit attendees meeting_title :
  consent_mailto kit attendees meeting_title =
  ("mailto:" +:+ join "," attendees) +:+
  String (val_byte 63) (join "&" (encode_pair <$> mail_query kit meeting_title)).
Proof.
  unfold consent_mailto, mail_query. rewrite (encode_percent (_ +:+ _)), (encode_percent (mail_body kit)), str_app_assoc. unfold encode_pair.
  cbn [fmap list_fmap join fst snd].
  generalize (percent_encode ("Recording " +:+ meeting_title)) (percent_encode (mail_body kit)). intros subject body.
  change (percent_encode "subject") with "subject"%string. change (percent_encode "body") with "body"%string.
  rewrite !str_app_assoc. reflexivity.
Qed.

Lemma free_of_join sep l : sep <> 44 -> Forall (free_of sep) l -> free_of sep (join "," l).
Proof.
  intros Hs. induction 1 as [|p l Hp Hl IH]; [done|]. destruct l as [|q l]; [done|].
  change (join "," (p :: q :: l)) with (p +:+ ("," +:+ join "," (q :: l))).
  rewrite !free_of_app. split; [done|]. split; [|done]. apply free_of_cons. split; [|done].
  change (byte_val ",") with 44. done.
Qed.

(** The mail that asks for consent opens whole: for any meeting title, whatever
    characters it holds, a mail client that splits the link at the question mark and
    the ampersands reads the subject and the entire disclosure back, provided no
    attendee's address holds a question mark. *)
Theorem consent_mail_reads_back (kit : DisclosureKit) (attendees : list string) (meeting_title : string) :
  Forall (free_of 63) attendees ->
  exists query, split_once (val_byte 63) (consent_mailto kit attendees meeting_title) =
    Some ("mailto:" +:+ join "," attendees, query)%string /\
  parse_query query = Some (mail_query kit meeting_title).
Proof.
  intros Ha. eexists. split.
  - rewrite mailto_query. apply split_once_free; [lia|]. apply free_of_app. split; [reflexivity|].
    by apply free_of_join.
  - by apply parse_pairs.
Qed.

Lemma consent_mail_reads_back_witness :
  exists query, split_once (val_byte 63) (consent_mailto kit_default ["a@b.de"] "Q&A? 100%") =
    Some ("mailto:a@b.de", query)%string /\
  parse_query query = Some (mail_query kit_default "Q&A? 100%").
Proof. apply (consent_mail_reads_back kit_default ["a@b.de"]). repeat constructor. Defined.

(** An address is pasted as it is, so one that holds a question mark takes the
    subject and the disclosure with it. *)
Example odd_address_loses_the_disclosure :
  exists query, split_once (val_byte 63) (consent_mailto kit_default ["who?@b.de"] "Review") =
    Some ("mailto:who", query)%string /\
  parse_query query <> Some (mail_query kit_default "Review").
Proof. eexists. split; [reflexivity|]. vm_compute. discriminate. Qed.
