(* ===== verification/Detect.v ===== *)
(** * fotwd: meeting detection

    Models [crates/fotw-audio/src/activity.rs] (Module [Activity]: what the machine
    reports), [crates/fotwd/src/detect/catalog.rs] (Module [Catalog]: the table of
    conferencing applications) and [crates/fotwd/src/detect/mod.rs] (Module
    [Detection]: the detector).  The calendar is the trait [CalendarSource], a
    function of the time; the probe's failure is an [Err]. *)

From stdpp Require Import gmap.
From S2P Require Import Prelude Text Float32 Float64 ShellTypes Shell Consent.

Local Open Scope Z_scope.

Module Activity.

Inductive Transport :=
| BuiltIn | Usb | Thunderbolt | Bluetooth | BluetoothLe | Virtual | Aggregate
| ContinuityCaptureWired | ContinuityCaptureWireless | UnknownTransport.

Definition mic_activity_is_trustworthy (self : Transport) : bool :=
  match self with BuiltIn | Usb | Thunderbolt | ContinuityCaptureWired => true | _ => false end.

Definition is_synthetic (self : Transport) : bool :=
  match self with Virtual | Aggregate => true | _ => false end.

Record AudioClient := mkClient {
  pid : Z;
  bundle_id : option string;
  running_input : bool;
  running_output : bool;
}.

Definition client_new (p : Z) (b : option string) : AudioClient := mkClient p b false false.
Definition with_input (self : AudioClient) (running : bool) : AudioClient :=
  mkClient (pid self) (bundle_id self) running (running_output self).
Definition with_output (self : AudioClient) (running : bool) : AudioClient :=
  mkClient (pid self) (bundle_id self) (running_input self) running.
Definition is_active (self : AudioClient) : bool := running_input self || running_output self.

Record InputDevice := mkDevice { device_name : string; transport : Transport; running_somewhere : bool }.

Record ActivitySnapshot := mkSnapshot { clients : list AudioClient; default_input : option InputDevice }.

Definition client (self : ActivitySnapshot) (b : string) : option AudioClient :=
  head (filter (fun c => bundle_id c = Some b) (clients self)).

Definition input_holders (self : ActivitySnapshot) : list AudioClient :=
  filter (fun c => running_input c = true) (clients self).

Definition input_holders_excluding (self : ActivitySnapshot) (p : Z) : list AudioClient :=
  filter (fun c => pid c <> p) (input_holders self).

Definition mic_is_trustworthy (self : ActivitySnapshot) : bool :=
  is_some_and (default_input self) (fun d => mic_activity_is_trustworthy (transport d)).

End Activity.

Module Catalog.

Record ConferencingApp := mkApp { key : string; name : string; bundles : list string; browser : bool }.

#[export] Instance ConferencingApp_eq_dec : EqDecision ConferencingApp.
Proof. solve_decision. Defined.

(** The byte at an offset. *)
Definition byte_at (s : string) (n : nat) : option Z := byte_val <$> String.get n s.

(** Equal, or continued after a dot. *)
Definition bundle_matches (b bundle : string) : bool :=
  bool_decide (bundle = b) ||
  ((String.length b <? String.length bundle)%nat && starts_with b bundle &&
   bool_decide (byte_at bundle (String.length b) = Some 46)).

Definition matches (self : ConferencingApp) (bundle : string) : bool :=
  existsb (fun b => bundle_matches b bundle) (bundles self).

Definition APPS : list ConferencingApp :=
  [mkApp "us.zoom.xos" "Zoom" ["us.zoom.xos"] false;
   mkApp "com.microsoft.teams2" "Microsoft Teams" ["com.microsoft.teams2"; "com.microsoft.teams"] false;
   mkApp "com.tinyspeck.slackmacgap" "Slack" ["com.tinyspeck.slackmacgap"] false;
   mkApp "Cisco-Systems.Spark" "Webex" ["Cisco-Systems.Spark"; "com.webex.meetingmanager"] false;
   mkApp "com.hnc.Discord" "Discord" ["com.hnc.Discord"] false;
   mkApp "com.skype.skype" "Skype" ["com.skype.skype"] false;
   mkApp "com.apple.FaceTime" "FaceTime" ["com.apple.FaceTime"] false;
   mkApp "net.whatsapp.WhatsApp" "WhatsApp" ["net.whatsapp.WhatsApp"] false;
   mkApp "com.google.Chrome" "Chrome" ["com.google.Chrome"] true;
   mkApp "com.apple.Safari" "Safari" ["com.apple.Safari"; "com.apple.WebKit"] true;
   mkApp "com.microsoft.edgemac" "Edge" ["com.microsoft.edgemac"] true;
   mkApp "org.mozilla.firefox" "Firefox" ["org.mozilla.firefox"] true;
   mkApp "com.brave.Browser" "Brave" ["com.brave.Browser"] true;
   mkApp "company.thebrowser.Browser" "Arc" ["company.thebrowser.Browser"] true]%string.

Definition catalog_lookup (bundle : string) : option ConferencingApp :=
  head (filter (fun a => matches a bundle = true) APPS).

(** *** The table is unambiguous *)

Definition dotted (p x : string) : Prop := x = p \/ exists r, x = p +:+ String "." r.

Lemma starts_with_app p x : starts_with p x = true -> exists r, x = p +:+ r.
Proof.
  revert x. induction p as [|a p IH]; intros x; [by exists x|]. destruct x as [|b x]; [done|]. simpl.
  intros [Hab%bool_decide_eq_true (r & ->)%IH]%andb_true_iff. subst. by exists r.
Qed.

Lemma byte_at_app p r : byte_at (p +:+ r) (String.length p) = byte_at r 0.
Proof. induction p as [|a p IH]; [done|]. exact IH. Qed.

Lemma bundle_matches_dotted p x : bundle_matches p x = true -> dotted p x.
Proof.
  unfold bundle_matches. rewrite orb_true_iff, !andb_true_iff.
  intros [->%bool_decide_eq_true|[[_ (r & ->)%starts_with_app] Hb%bool_decide_eq_true]]; [by left|right].
  rewrite byte_at_app in Hb. destruct r as [|c r]; [done|]. exists r. do 2 f_equal.
  injection Hb as Hb. rewrite <-(val_byte_val c), Hb. reflexivity.
Qed.

Lemma dotted_nil a u x : dotted (String a u) x -> dotted EmptyString x -> dotted EmptyString (String a u).
Proof.
  intros Hu He. right.
  assert (Hx : exists v, x = String a v) by (destruct Hu as [->|[r ->]]; eexists; reflexivity).
  destruct Hx as [v ->]. destruct He as [?|[r Hr]]; [done|]. injection Hr as -> _. by exists u.
Qed.

Lemma dotted_cons a p x : dotted (String a p) x <-> exists v, x = String a v /\ dotted p v.
Proof.
  split.
  - intros [->|[r ->]]; (eexists; split; [reflexivity|]); [by left|right; by exists r].
  - intros (v & -> & [->|[r ->]]); [by left|right; by exists r].
Qed.

(** Two table entries one bundle id belongs to are entries of one another. *)
Lemma dotted_both p q x : dotted p x -> dotted q x -> dotted p q \/ dotted q p.
Proof.
  revert q x. induction p as [|a p IH]; intros q x Hp Hq.
  { destruct q as [|b q]; [left; by left|left; by eapply dotted_nil]. }
  destruct q as [|b q]; [right; by eapply dotted_nil|].
  apply dotted_cons in Hp as (v & -> & Hv). apply dotted_cons in Hq as (w & E & Hw). injection E as -> ->.
  rewrite !dotted_cons. destruct (IH q w Hv Hw); [left|right]; eauto.
Qed.

(** Entries of different applications are unrelated, checked on the table. *)
Fixpoint dottedb (p x : string) : bool :=
  match p, x with
  | EmptyString, EmptyString => true
  | EmptyString, String c _ => bool_decide (c = "."%char)
  | String a p, String b x => bool_decide (a = b) && dottedb p x
  | String _ _, EmptyString => false
  end.

Lemma dottedb_spec p x : dotted p x -> dottedb p x = true.
Proof.
  revert x. induction p as [|a p IH]; intros x.
  - intros [->|[r ->]]; [done|]. by apply bool_decide_eq_true.
  - intros (v & -> & Hv)%dotted_cons. simpl. rewrite bool_decide_true by done. by apply IH.
Qed.

Definition unrelated (a b : ConferencingApp) : bool :=
  forallb (fun p => forallb (fun q => negb (dottedb p q) && negb (dottedb q p)) (bundles b)) (bundles a).

Lemma apps_unrelated :
  forallb (fun a => forallb (fun b => bool_decide (a = b) || unrelated a b) APPS) APPS = true.
Proof. by vm_compute. Qed.

Lemma matches_dotted a bundle : matches a bundle = true -> exists p, p ∈ bundles a /\ dotted p bundle.
Proof.
  intros (p & Hp%list_elem_of_In & Hm%bundle_matches_dotted)%existsb_exists. by exists p.
Qed.

(** The catalogue's order decides nothing about whose process this is: a bundle
    id belongs to at most one application of the shipped table, and every key, the
    name suppressions are stored under, to its own. *)
Theorem catalog_is_unambiguous (bundle : string) (a b : ConferencingApp) :
  (a ∈ APPS -> b ∈ APPS -> matches a bundle = true -> matches b bundle = true -> a = b) /\
  (a ∈ APPS -> catalog_lookup (key a) = Some a).
Proof.
  split.
  - intros Ha Hb (p & Hp & Hpd)%matches_dotted (q & Hq & Hqd)%matches_dotted.
    pose proof apps_unrelated as Ht. rewrite forallb_forall in Ht.
    specialize (Ht a (proj1 (list_elem_of_In _ _) Ha)). rewrite forallb_forall in Ht.
    specialize (Ht b (proj1 (list_elem_of_In _ _) Hb)).
    apply orb_true_iff in Ht as [Ht%bool_decide_eq_true|Ht]; [done|]. exfalso.
    unfold unrelated in Ht. rewrite forallb_forall in Ht.
    specialize (Ht p (proj1 (list_elem_of_In _ _) Hp)). rewrite forallb_forall in Ht.
    specialize (Ht q (proj1 (list_elem_of_In _ _) Hq)).
    apply andb_true_iff in Ht as [H1%negb_true_iff H2%negb_true_iff].
    destruct (dotted_both p q bundle Hpd Hqd) as [H%dottedb_spec|H%dottedb_spec]; congruence.
  - intros Ha. assert (Hall : Forall (fun a => catalog_lookup (key a) = Some a) APPS).
    { repeat constructor. }
    rewrite Forall_forall in Hall. by apply Hall.
Qed.

Lemma catalog_is_unambiguous_witness :
  catalog_lookup "com.google.Chrome" = Some (mkApp "com.google.Chrome" "Chrome" ["com.google.Chrome"%string] true).
Proof.
  destruct (catalog_is_unambiguous "" (mkApp "com.google.Chrome" "Chrome" ["com.google.Chrome"%string] true)
    (mkApp "" "" [] false)) as [_ H].
  apply H. do 8 right. left.
Defined.

End Catalog.

Module Detection.
Import Clock Prompt Activity Catalog.

Record CalendarEvent := mkEvent { ev_title : string; attendee_domains : list string; ev_timezone : option string }.

Definition event_new (t : string) : CalendarEvent := mkEvent t [] None.
Definition event_with_domains (self : CalendarEvent) (ds : list string) : CalendarEvent :=
  mkEvent (ev_title self) (attendee_domains self ++ ds) (ev_timezone self).
Definition event_with_timezone (self : CalendarEvent) (tz : string) : CalendarEvent :=
  mkEvent (ev_title self) (attendee_domains self) (Some tz).

(** The trait [CalendarSource] and its two implementations. *)
Definition CalendarSource := Monotonic -> option CalendarEvent.
Definition NoCalendar : CalendarSource := fun _ => None.
Definition FixedCalendar (event : CalendarEvent) : CalendarSource := fun _ => Some event.

Inductive Verdict := Idle | Arm (m : DetectedMeeting) | Hold | Clear.

Record DetectionStats := mkStats { armed : Z; started : Z; snoozed : Z; suppressed_count : Z; withdrawn : Z }.

Definition stats_default : DetectionStats := mkStats 0 0 0 0 0.

Definition conversion (self : DetectionStats) : f64 :=
  if armed self =? 0 then f64_zero else f64_div (f64_of_Z (started self)) (f64_of_Z (armed self)).

Record DetectorConfig := mkConfig {
  dwell : Duration;
  snooze_for : Duration;
  clear_grace : Duration;
  self_pid : Z;
  home_jurisdiction : string;
}.

(** [DetectorConfig::default], given this process's id. *)
Definition config_default (process_id : Z) : DetectorConfig :=
  mkConfig (dur_from_secs 20) (dur_from_secs 600) (dur_from_secs 30) process_id "US-CA".

Inductive Evidence := MicHot | Calendar (e : CalendarEvent).

Record Candidate := mkCandidate { cand_app : ConferencingApp; cand_evidence : Evidence }.

Record Detector := mkDetector {
  config : DetectorConfig;
  rules : Rules;
  suppressed : gset string;
  candidate : option (ConferencingApp * Monotonic);
  handled : option string;
  lost_since : option Monotonic;
  snoozed_until : option Monotonic;
  stats : DetectionStats;
}.

(** [Detector::new], given the table [Rules::builtin] parses. *)
Definition detector_new (r : Rules) (c : DetectorConfig) : Detector :=
  mkDetector c r ∅ None None None None stats_default.

Definition suppress_app (self : Detector) (k : string) : Detector :=
  let st := stats self in
  mkDetector (config self) (rules self) ({[k]} ∪ suppressed self) None
    (if bool_decide (handled self = Some k) then None else handled self)
    (lost_since self) (snoozed_until self)
    (mkStats (armed st) (started st) (snoozed st) (wadd (suppressed_count st) 1) (withdrawn st)).

Definition is_suppressed (self : Detector) (k : string) : bool := bool_decide (k ∈ suppressed self).

Definition restore_suppressions (self : Detector) (ks : list string) : Detector :=
  mkDetector (config self) (rules self) (list_to_set ks ∪ suppressed self) (candidate self) (handled self)
    (lost_since self) (snoozed_until self) (stats self).

Definition snooze (self : Detector) (now : Monotonic) : Detector :=
  let st := stats self in
  mkDetector (config self) (rules self) (suppressed self) None None (lost_since self)
    (Some (plus now (snooze_for (config self))))
    (mkStats (armed st) (started st) (wadd (snoozed st) 1) (suppressed_count st) (withdrawn st)).

Definition record_started (self : Detector) : Detector :=
  let st := stats self in
  mkDetector (config self) (rules self) (suppressed self) (candidate self) (handled self) (lost_since self)
    (snoozed_until self)
    (mkStats (armed st) (wadd (started st) 1) (snoozed st) (suppressed_count st) (withdrawn st)).

(** ** The conjunction *)

(** The clients of an application, our own process apart. *)
Definition app_clients (self : Detector) (snapshot : ActivitySnapshot) (app : ConferencingApp) : list AudioClient :=
  filter (fun c => pid c <> self_pid (config self) /\ is_some_and (bundle_id c) (matches app) = true)
    (clients snapshot).

Definition mic_evidence (app : ConferencingApp) (cs : list AudioClient) : bool :=
  let holds_input := existsb running_input cs in
  let plays_output := existsb running_output cs in
  if browser app then holds_input && plays_output else holds_input.

(** The loop over the table; the calendar answers the same whenever it is asked at
    [now], so asking once and asking again are one. *)
Fixpoint evaluate_from (self : Detector) (snapshot : ActivitySnapshot) (event : option CalendarEvent)
  (apps : list ConferencingApp) : option Candidate :=
  match apps with
  | [] => None
  | app :: rest =>
      if is_suppressed self (key app) then evaluate_from self snapshot event rest
      else match app_clients self snapshot app with
      | [] => evaluate_from self snapshot event rest
      | cs =>
          if mic_evidence app cs then Some (mkCandidate app MicHot)
          else match event with
          | Some e => Some (mkCandidate app (Calendar e))
          | None => evaluate_from self snapshot event rest
          end
      end
  end.

Definition evaluate (self : Detector) (snapshot : ActivitySnapshot) (calendar : CalendarSource) (now : Monotonic)
  : option Candidate :=
  evaluate_from self snapshot (calendar now) APPS.

Definition quote : string := String (val_byte 34) EmptyString.

Definition evidence_text (c : Candidate) : string :=
  match cand_evidence c with
  | MicHot => name (cand_app c) +:+ " is using the microphone"
  | Calendar e => name (cand_app c) +:+ " is running and " +:+ quote +:+ ev_title e +:+ quote +:+ " is in your calendar now"
  end.

Definition candidate_signals (self : Detector) (c : Candidate) : JurisdictionSignals :=
  let signals := signals_home (home_jurisdiction (config self)) in
  match cand_evidence c with
  | MicHot => signals
  | Calendar e =>
      let signals := with_attendee_domains signals (attendee_domains e) in
      match ev_timezone e with Some tz => with_event_timezone signals tz | None => signals end
  end.

Definition describe (self : Detector) (c : Candidate) : DetectedMeeting :=
  let meeting := meeting_new (key (cand_app c)) (name (cand_app c)) (evidence_text c) in
  let meeting := match cand_evidence c with Calendar e => with_title meeting (ev_title e) | MicHot => meeting end in
  let escalation := escalate (rules self) (candidate_signals self c) in
  with_consent_notice meeting (user_text escalation) (blocks escalation).

(** ** The poll *)

Definition withdraw (self : Detector) : Detector * Verdict :=
  match handled self with
  | Some _ =>
      let st := stats self in
      (mkDetector (config self) (rules self) (suppressed self) (candidate self) None (lost_since self)
         (snoozed_until self)
         (mkStats (armed st) (started st) (snoozed st) (suppressed_count st) (wadd (withdrawn st) 1)), Clear)
  | None => (self, Idle)
  end.

Definition set_tracking (self : Detector) (cand : option (ConferencingApp * Monotonic)) (lost : option Monotonic)
  : Detector :=
  mkDetector (config self) (rules self) (suppressed self) cand (handled self) lost (snoozed_until self) (stats self).

(** How long the current candidate has held. *)
Definition track (self : Detector) (found : option Candidate) (now : Monotonic)
  : option (ConferencingApp * Monotonic) :=
  match found with
  | None => None
  | Some c =>
      match candidate self with
      | Some (prev, since) => if bool_decide (key prev = key (cand_app c)) then Some (prev, since) else Some (cand_app c, now)
      | None => Some (cand_app c, now)
      end
  end.

(** The candidate has held for the dwell: the prompt is raised, once. *)
Definition raise_prompt (self : Detector) (found : option Candidate) (now : Monotonic) : Detector * Verdict :=
  match found, candidate self with
  | Some c, Some (_, held_since) =>
      if since now held_since <? dwell (config self) then (self, Idle)
      else
        let st := stats self in
        (mkDetector (config self) (rules self) (suppressed self) (candidate self) (Some (key (cand_app c)))
           (lost_since self) (snoozed_until self)
           (mkStats (wadd (armed st) 1) (started st) (snoozed st) (suppressed_count st) (withdrawn st)),
         Arm (describe self c))
  | _, _ => (self, Idle)
  end.

(** Nothing handled: a snooze still running keeps quiet, one that ran out is dropped. *)
Definition consider (self : Detector) (found : option Candidate) (now : Monotonic) : Detector * Verdict :=
  match snoozed_until self with
  | Some until =>
      if since_epoch now <? since_epoch until then (self, Idle)
      else raise_prompt (mkDetector (config self) (rules self) (suppressed self) (candidate self) (handled self)
             (lost_since self) None (stats self)) found now
  | None => raise_prompt self found now
  end.

Definition poll (self : Detector) (now : Monotonic) (snapshot : result ActivitySnapshot string)
  (calendar : CalendarSource) : Detector * Verdict :=
  match snapshot with
  | Err _ => withdraw (set_tracking self None None)
  | Ok snapshot =>
      let found := evaluate self snapshot calendar now in
      let cand := track self found now in
      let still_present := is_some_and found (fun c => bool_decide (Some (key (cand_app c)) = handled self)) in
      if is_some (handled self) && negb still_present then
        let lost := get_or_insert (lost_since self) now in
        if clear_grace (config self) <=? since now lost then withdraw (set_tracking self cand None)
        else (set_tracking self cand (Some lost), Hold)
      else
        let self := set_tracking self cand None in
        if is_some (handled self) then (self, Hold) else consider self found now
  end.

(** The public operations, so that a run is a list of calls. *)
Inductive DetectorCall :=
| Poll (now : Monotonic) (snapshot : result ActivitySnapshot string) (calendar : CalendarSource)
| SuppressApp (k : string)
| RestoreSuppressions (ks : list string)
| Snooze (now : Monotonic)
| RecordStarted.

Definition detector_call (self : Detector) (c : DetectorCall) : Detector * list Verdict :=
  match c with
  | Poll now snapshot calendar => let '(d, v) := poll self now snapshot calendar in (d, [v])
  | SuppressApp k => (suppress_app self k, [])
  | RestoreSuppressions ks => (restore_suppressions self ks, [])
  | Snooze now => (snooze self now, [])
  | RecordStarted => (record_started self, [])
  end.

(** ** What an arming rests on *)

(** A process of the application, other than this one, holds an audio client. *)
Definition client_of (d : Detector) (snapshot : ActivitySnapshot) (app : ConferencingApp) (c : AudioClient) : Prop :=
  c ∈ clients snapshot /\ pid c <> self_pid (config d) /\
  exists b, bundle_id c = Some b /\ matches app b = true.

(** Two signals at once: the application is there, and it holds the microphone (and
    plays, for a browser) or the calendar has an event now. *)
Definition conjunction (d : Detector) (snapshot : ActivitySnapshot) (calendar : CalendarSource) (now : Monotonic)
  (app : ConferencingApp) : Prop :=
  app ∈ APPS /\ (key app ∉ suppressed d) /\ (exists c, client_of d snapshot app c) /\
  (((exists c, client_of d snapshot app c /\ running_input c = true) /\
    (browser app = true -> exists c, client_of d snapshot app c /\ running_output c = true)) \/
   is_Some (calendar now)).

Lemma app_clients_in d snapshot app c : c ∈ app_clients d snapshot app <-> client_of d snapshot app c.
Proof.
  unfold app_clients, client_of. rewrite list_elem_of_filter.
  destruct (bundle_id c) as [b|]; simpl.
  - split.
    + intros [[? ?] ?]. split; [done|]. split; [done|]. by exists b.
    + intros (? & ? & b' & [= <-] & ?). done.
  - split; [by intros [[? ?] ?]|]. by intros (? & ? & b' & ? & _).
Qed.

Lemma evaluate_from_sound d snapshot calendar now apps c :
  evaluate_from d snapshot (calendar now) apps = Some c -> (forall a, a ∈ apps -> a ∈ APPS) ->
  conjunction d snapshot calendar now (cand_app c).
Proof.
  induction apps as [|app rest IH]; [done|]. intros He Hin.
  assert (Hrest : forall a, a ∈ rest -> a ∈ APPS) by (intros; apply Hin; by right).
  simpl in He. unfold is_suppressed in He. case_bool_decide as Hs; [by apply IH|].
  destruct (app_clients d snapshot app) as [|k ks] eqn:Ec; [by apply IH|].
  assert (Hk : forall x, x ∈ k :: ks <-> client_of d snapshot app x) by (intros x; rewrite <-Ec; apply app_clients_in).
  assert (Happ : cand_app c = app -> is_Some (calendar now) \/ mic_evidence app (k :: ks) = true ->
    conjunction d snapshot calendar now (cand_app c)).
  { intros -> Hev. split; [apply Hin; left|]. split; [done|]. split; [exists k; apply Hk; left|].
    destruct Hev as [?|Hev]; [by right|left]. unfold mic_evidence in Hev.
    assert (Hex : forall f, existsb f (k :: ks) = true -> exists x, client_of d snapshot app x /\ f x = true).
    { intros f (x & Hx%list_elem_of_In & Hf)%existsb_exists. exists x. split; [by apply Hk|done]. }
    destruct (browser app).
    - apply andb_true_iff in Hev as [H1 H2]. split; [by apply Hex|]. intros _. by apply Hex.
    - split; [by apply Hex|done]. }
  destruct (mic_evidence app (k :: ks)) eqn:Em; [injection He as <-; apply Happ; auto|].
  destruct (calendar now) as [e|]; [injection He as <-; apply Happ; eauto|]. by apply IH.
Qed.

Lemma evaluate_sound d snapshot calendar now c :
  evaluate d snapshot calendar now = Some c -> conjunction d snapshot calendar now (cand_app c).
Proof. unfold evaluate. intros He. apply (evaluate_from_sound d snapshot calendar now APPS c He). intros a Ha. exact Ha. Qed.

(** ** The shape of a poll *)

Lemma describe_key d c : app_key (describe d c) = key (cand_app c).
Proof. unfold describe. by destruct (cand_evidence c). Qed.

Lemma describe_notice d c :
  requires_acknowledgement (describe d c) = blocks (escalate (rules d) (candidate_signals d c)) /\
  consent_notice (describe d c) = user_text (escalate (rules d) (candidate_signals d c)).
Proof. split; reflexivity. Qed.

#[local] Opaque evaluate describe.

Lemma withdraw_keeps d : candidate (withdraw d).1 = candidate d /\ suppressed (withdraw d).1 = suppressed d /\
  config (withdraw d).1 = config d /\ handled (withdraw d).1 = None /\ snoozed_until (withdraw d).1 = snoozed_until d /\
  (withdraw d).2 = match handled d with Some _ => Clear | None => Idle end.
Proof. unfold withdraw. by destruct (handled d) eqn:E. Qed.

Lemma raise_keeps d found now :
  candidate (raise_prompt d found now).1 = candidate d /\ suppressed (raise_prompt d found now).1 = suppressed d /\
  config (raise_prompt d found now).1 = config d.
Proof. unfold raise_prompt. by repeat case_match. Qed.

Lemma consider_keeps d found now :
  candidate (consider d found now).1 = candidate d /\ suppressed (consider d found now).1 = suppressed d /\
  config (consider d found now).1 = config d.
Proof.
  unfold consider. repeat case_match; [done| |apply raise_keeps].
  destruct (raise_keeps (mkDetector (config d) (rules d) (suppressed d) (candidate d) (handled d) (lost_since d) None
    (stats d)) found now) as (-> & -> & ->). done.
Qed.

Lemma poll_keeps d now snapshot calendar :
  suppressed (poll d now snapshot calendar).1 = suppressed d /\ config (poll d now snapshot calendar).1 = config d /\
  candidate (poll d now snapshot calendar).1 =
    match snapshot with Ok s => track d (evaluate d s calendar now) now | Err _ => None end.
Proof.
  unfold poll. destruct snapshot as [s|e].
  - repeat case_match; try done.
    + destruct (withdraw_keeps (set_tracking d (track d (evaluate d s calendar now) now) None)) as (-> & -> & -> & _). done.
    + destruct (consider_keeps (set_tracking d (track d (evaluate d s calendar now) now) None)
        (evaluate d s calendar now) now) as (-> & -> & ->). done.
  - destruct (withdraw_keeps (set_tracking d None None)) as (-> & -> & -> & _). done.
Qed.

Lemma poll_rules d now snapshot calendar : rules (poll d now snapshot calendar).1 = rules d.
Proof.
  assert (Hw : forall x, rules (withdraw x).1 = rules x) by (intros x; unfold withdraw; by case_match).
  assert (Hr : forall x f, rules (raise_prompt x f now).1 = rules x).
  { intros x f. unfold raise_prompt. repeat case_match; reflexivity. }
  assert (Hc : forall x f, rules (consider x f now).1 = rules x).
  { intros x f. unfold consider. repeat case_match; rewrite ?Hr; reflexivity. }
  unfold poll. repeat case_match; rewrite ?Hw, ?Hc; reflexivity.
Qed.

(** An arming, taken apart. *)
Lemma raise_arm d found now m :
  (raise_prompt d found now).2 = Arm m ->
  exists c app t0, found = Some c /\ candidate d = Some (app, t0) /\ dwell (config d) <= since now t0 /\
    m = describe d c /\ handled (raise_prompt d found now).1 = Some (key (cand_app c)).
Proof.
  unfold raise_prompt. destruct found as [c|]; [|intros [=]]. destruct (candidate d) as [[app t0]|] eqn:Ec; [|intros [=]].
  destruct (Z.ltb_spec (since now t0) (dwell (config d))) as [|Hd]; [intros [=]|]. intros [= <-].
  exists c, app, t0. split; [reflexivity|]. split; [reflexivity|]. split; [exact Hd|]. split; reflexivity.
Qed.

Lemma consider_arm d found now m :
  (consider d found now).2 = Arm m ->
  exists c app t0, found = Some c /\ candidate d = Some (app, t0) /\ dwell (config d) <= since now t0 /\
    (exists d', m = describe d' c /\ rules d' = rules d /\ config d' = config d) /\
    handled (consider d found now).1 = Some (key (cand_app c)) /\
    (forall u, snoozed_until d = Some u -> since_epoch u <= since_epoch now).
Proof.
  unfold consider. destruct (snoozed_until d) as [u|] eqn:Eu.
  - destruct (Z.ltb_spec (since_epoch now) (since_epoch u)) as [|Hu]; [intros [=]|].
    intros (c & app & t0 & Hf & Hc & Hd & Hm & Hh)%raise_arm. exists c, app, t0.
    split; [exact Hf|]. split; [exact Hc|]. split; [exact Hd|]. split; [eexists; split; [exact Hm|]; split; reflexivity|].
    split; [exact Hh|]. intros ? [= <-]. exact Hu.
  - intros (c & app & t0 & Hf & Hc & Hd & Hm & Hh)%raise_arm. exists c, app, t0.
    split; [exact Hf|]. split; [exact Hc|]. split; [exact Hd|]. split; [eexists; split; [exact Hm|]; split; reflexivity|].
    split; [exact Hh|]. intros ? [=].
Qed.

Record arming (d : Detector) (now : Monotonic) (snapshot : result ActivitySnapshot string) (calendar : CalendarSource)
  (m : DetectedMeeting) (c : Candidate) : Prop := {
  ar_found : exists s, snapshot = Ok s /\ evaluate d s calendar now = Some c;
  ar_held : exists app t0, candidate (poll d now snapshot calendar).1 = Some (app, t0) /\
    key app = key (cand_app c) /\ dwell (config d) <= since now t0;
  ar_free : handled d = None;
  ar_handled : handled (poll d now snapshot calendar).1 = Some (key (cand_app c));
  ar_awake : forall u, snoozed_until d = Some u -> since_epoch u <= since_epoch now;
  ar_text : exists d', m = describe d' c /\ rules d' = rules d /\ config d' = config d;
}.

Lemma track_key d found now app t0 :
  track d found now = Some (app, t0) -> exists c, found = Some c /\ key app = key (cand_app c).
Proof.
  unfold track. destruct found as [c|]; [|intros [=]]. intros Ht. exists c. split; [reflexivity|]. revert Ht.
  destruct (candidate d) as [[prev t]|]; [case_bool_decide as Hk|]; intros [= <- _]; [exact Hk|reflexivity..].
Qed.

(** With nothing handled a poll is the question whether to raise the prompt; with
    something handled it never raises one. *)
Lemma poll_free d now s calendar :
  handled d = None ->
  poll d now (Ok s) calendar =
  consider (set_tracking d (track d (evaluate d s calendar now) now) None) (evaluate d s calendar now) now.
Proof. intros Eh. unfold poll. cbn [handled set_tracking]. rewrite Eh. reflexivity. Qed.

Lemma withdraw_never_arms d m : (withdraw d).2 <> Arm m.
Proof. unfold withdraw. case_match; intros [=]. Qed.

Lemma poll_busy d now snapshot calendar m :
  is_Some (handled d) -> (poll d now snapshot calendar).2 <> Arm m.
Proof.
  intros [h Eh]. unfold poll. cbn [handled set_tracking]. rewrite Eh. cbn [is_some].
  destruct snapshot; repeat case_match; try apply withdraw_never_arms; intros [=].
Qed.

Lemma poll_arm d now snapshot calendar m :
  (poll d now snapshot calendar).2 = Arm m -> exists c, arming d now snapshot calendar m c.
Proof.
  intros Harm. destruct (handled d) as [h|] eqn:Eh; [exfalso; by eapply poll_busy|].
  destruct snapshot as [s|e]; [|exfalso; by eapply withdraw_never_arms].
  rewrite poll_free in Harm by exact Eh.
  pose proof (consider_arm _ _ _ _ Harm) as (c & app & t0 & Hf & Hc & Hd & Hm & Hh & Hu). exists c.
  pose proof (track_key d _ now app t0 Hc) as (c' & Hf' & Hk). assert (c' = c) as -> by congruence.
  pose proof (poll_keeps d now (Ok s) calendar) as (_ & _ & Hcand).
  split.
  - exists s. split; [reflexivity|exact Hf].
  - exists app, t0. split; [rewrite Hcand; exact Hc|]. split; [exact Hk|exact Hd].
  - exact Eh.
  - rewrite poll_free by exact Eh. exact Hh.
  - exact Hu.
  - exact Hm.
Qed.

Lemma arming_key d now snapshot calendar m c :
  arming d now snapshot calendar m c -> app_key m = key (cand_app c).
Proof. intros Ha. destruct (ar_text _ _ _ _ _ _ Ha) as (d' & -> & _). apply describe_key. Qed.

(** ** The conjunction has to hold, and to have held *)

(** What a call has to have seen for the application to stay the candidate. *)
Definition sees (d : Detector) (k : DetectorCall) (which : string) : Prop :=
  match k with
  | Poll now (Ok s) calendar => exists app, key app = which /\ conjunction d s calendar now app
  | Poll _ (Err _) _ | SuppressApp _ | Snooze _ => False
  | RestoreSuppressions _ | RecordStarted => True
  end.

(** The calls [held] of a run, made after [before], all saw the application, and the
    first of them was a poll at [t0]. *)
Record held_since (d0 : Detector) (before held : list DetectorCall) (t0 : Monotonic) (which : string) : Prop := {
  hs_first : exists s calendar rest, held = Poll t0 (Ok s) calendar :: rest;
  hs_sees : forall b1 k b2, held = b1 ++ k :: b2 -> sees (run detector_call d0 (before ++ b1)).1 k which;
}.

Definition state_after (d0 : Detector) (ks : list DetectorCall) : Detector := (run detector_call d0 ks).1.

Lemma state_after_snoc d0 ks k : state_after d0 (ks ++ [k]) = (detector_call (state_after d0 ks) k).1.
Proof. unfold state_after. rewrite run_app. cbn [fst]. rewrite run_cons. reflexivity. Qed.

Lemma state_after_config r cfg ks : config (state_after (detector_new r cfg) ks) = cfg.
Proof.
  induction ks as [|k ks IH] using rev_ind; [reflexivity|]. rewrite state_after_snoc.
  destruct k as [now s cal|k|ks'|now|]; try exact IH. cbn [detector_call].
  pose proof (poll_keeps (state_after (detector_new r cfg) ks) now s cal) as (_ & Hc & _).
  destruct (poll _ _ _ _) as [d v]. cbn [fst] in *. by rewrite Hc.
Qed.

Lemma held_since_snoc d0 before held t0 which k :
  held_since d0 before held t0 which -> sees (state_after d0 (before ++ held)) k which ->
  held_since d0 before (held ++ [k]) t0 which.
Proof.
  intros [(s & cal & rest & ->) Hsees] Hk. split; [by exists s, cal, (rest ++ [k])|].
  intros b1 x b2 E. apply snoc_split in E as [(-> & -> & _)|(b2' & -> & E)]; [exact Hk|]. by eapply Hsees.
Qed.

Lemma candidate_held d0 ks app t0 :
  candidate d0 = None -> candidate (state_after d0 ks) = Some (app, t0) ->
  exists before held, ks = before ++ held /\ held_since d0 before held t0 (key app).
Proof.
  intros H0. revert app t0. induction ks as [|k ks IH] using rev_ind; intros app t0.
  { unfold state_after. simpl. congruence. }
  rewrite state_after_snoc. set (d := state_after d0 ks).
  assert (Hsame : candidate d = Some (app, t0) -> sees d k (key app) ->
    exists before held, ks ++ [k] = before ++ held /\ held_since d0 before held t0 (key app)).
  { intros (before & held & -> & Hh)%IH Hk. exists before, (held ++ [k]). split; [by rewrite app_assoc|].
    by apply held_since_snoc. }
  destruct k as [now [s|e] cal|k|ks'|now|]; cbn [detector_call].
  - destruct (poll d now (Ok s) cal) as [d' v] eqn:Ep. cbn [fst].
    pose proof (poll_keeps d now (Ok s) cal) as (_ & _ & Hc). rewrite Ep in Hc. cbn [fst] in Hc. rewrite Hc.
    intros Ht. pose proof (track_key _ _ _ _ _ Ht) as (c & Hf & Hk).
    assert (Hsees : sees d (Poll now (Ok s) cal) (key app)).
    { exists (cand_app c). split; [by rewrite Hk|]. by apply evaluate_sound. }
    revert Ht. unfold track. rewrite Hf.
    assert (Hfresh : Some (cand_app c, now) = Some (app, t0) -> exists before held,
      ks ++ [Poll now (Ok s) cal] = before ++ held /\ held_since d0 before held t0 (key app)).
    { intros [= <- <-]. exists ks, [Poll now (Ok s) cal]. split; [reflexivity|]. split; [by exists s, cal, []|].
      intros [|b b1] x b2 E; injection E as <- E; [|by destruct b1]. rewrite app_nil_r. exact Hsees. }
    destruct (candidate d) as [[prev t]|] eqn:Ed; [|exact Hfresh].
    case_bool_decide; [|exact Hfresh]. intros [= -> ->]. apply Hsame; [reflexivity|exact Hsees].
  - destruct (poll d now (Err e) cal) as [d' v] eqn:Ep. cbn [fst].
    pose proof (poll_keeps d now (Err e) cal) as (_ & _ & Hc). rewrite Ep in Hc. cbn [fst] in Hc. congruence.
  - intros [=].
  - intros Hc. apply Hsame; [exact Hc|exact I].
  - intros [=].
  - intros Hc. apply Hsame; [exact Hc|exact I].
Qed.

(** C13: MTG-03, a prompt is raised only on the conjunction and only once it has held.
    When a poll arms for an application, some run of the most recent calls begins
    with a poll at least the dwell ago, and at every poll of it, the last included,
    the machine could be read and that application, not suppressed, had a process
    with an audio client and held the microphone (and played, for a browser) or the
    calendar had an event; a process of our own never counted. *)
Theorem prompt_needs_a_held_conjunction (r : Rules) (cfg : DetectorConfig) (ks : list DetectorCall)
  (now : Monotonic) (snapshot : result ActivitySnapshot string) (calendar : CalendarSource) (m : DetectedMeeting) :
  (poll (state_after (detector_new r cfg) ks) now snapshot calendar).2 = Arm m ->
  exists before held t0,
    ks ++ [Poll now snapshot calendar] = before ++ held /\
    held_since (detector_new r cfg) before held t0 (app_key m) /\ dwell cfg <= since now t0.
Proof.
  intros [c Ha]%poll_arm. rewrite (arming_key _ _ _ _ _ _ Ha).
  destruct (ar_held _ _ _ _ _ _ Ha) as (app & t0 & Hc & <- & Hd).
  destruct (candidate_held (detector_new r cfg) (ks ++ [Poll now snapshot calendar]) app t0) as (before & held & E & Hh).
  - reflexivity.
  - rewrite state_after_snoc. cbn [detector_call]. by destruct (poll _ _ _ _).
  - exists before, held, t0. split; [exact E|]. split; [exact Hh|]. by rewrite state_after_config in Hd.
Qed.

(** ** Answers are kept *)

Lemma poll_handled d now snapshot calendar a :
  handled d = Some a ->
  (poll d now snapshot calendar).2 = Clear \/
  ((poll d now snapshot calendar).2 = Hold /\ handled (poll d now snapshot calendar).1 = Some a).
Proof.
  intros Eh.
  assert (Hw : forall cand, (withdraw (set_tracking d cand None)).2 = Clear).
  { intros cand. unfold withdraw. cbn [handled set_tracking]. rewrite Eh. reflexivity. }
  unfold poll. cbn [handled set_tracking]. rewrite Eh. cbn [is_some andb].
  destruct snapshot as [s|e]; [|left; apply Hw].
  repeat case_match; try (left; apply Hw); right; (split; [reflexivity|exact Eh]).
Qed.

(** Calls that leave the prompt for [a] standing. *)
Definition leaves_prompt (a : string) (k : DetectorCall) : Prop :=
  match k with Snooze _ => False | SuppressApp a' => a' <> a | _ => True end.

Lemma handled_blocks_prompts a ks d m :
  handled d = Some a -> Forall (leaves_prompt a) ks -> Clear ∉ (run detector_call d ks).2 ->
  Arm m ∉ (run detector_call d ks).2.
Proof.
  intros Hd Hks. revert d Hd. induction Hks as [|k ks Hk Hks IH]; intros d Hd.
  { intros _ ?%elem_of_nil. done. }
  rewrite run_cons. cbn [snd]. rewrite !elem_of_app. intros Hc Hm.
  destruct k as [now s cal|k|ks'|now|]; cbn [detector_call fst snd] in *; try done;
    try (destruct Hm as [?%elem_of_nil|Hm]; [done|]; revert Hm; apply IH; [|tauto]; first [exact Hd|idtac]).
  - destruct (poll_handled d now s cal a Hd) as [Hv|[Hv Hh]]; destruct (poll d now s cal) as [d' v];
      cbn [fst snd] in *; subst v.
    + apply Hc. left. left.
    + destruct Hm as [Hm%list_elem_of_singleton|Hm]; [done|]. revert Hm. apply IH; [exact Hh|tauto].
  - cbn. rewrite bool_decide_false; [exact Hd|]. rewrite Hd. simpl in Hk. congruence.
Qed.

(** A prompt is raised once.  After a poll arms for an application no later poll
    arms, for it or for any other, until the prompt has been withdrawn, snoozed, or
    its application suppressed: stopping a recording mid-call does not ask again. *)
Theorem prompt_is_raised_once (d : Detector) (now : Monotonic) (snapshot : result ActivitySnapshot string)
  (calendar : CalendarSource) (m m' : DetectedMeeting) (ks : list DetectorCall) :
  (poll d now snapshot calendar).2 = Arm m -> Forall (leaves_prompt (app_key m)) ks ->
  Clear ∉ (run detector_call (poll d now snapshot calendar).1 ks).2 ->
  Arm m' ∉ (run detector_call (poll d now snapshot calendar).1 ks).2.
Proof.
  intros [c Ha]%poll_arm Hks. apply (handled_blocks_prompts (app_key m)); [|exact Hks].
  rewrite (arming_key _ _ _ _ _ _ Ha). apply (ar_handled _ _ _ _ _ _ Ha).
Qed.

Lemma call_suppressed_mono d k : suppressed d ⊆ suppressed (detector_call d k).1.
Proof.
  destruct k as [now s cal|k|ks'|now|]; cbn [detector_call]; try (cbn; set_solver).
  pose proof (poll_keeps d now s cal) as (Hs & _). destruct (poll d now s cal) as [d' v]. cbn [fst] in *.
  by rewrite Hs.
Qed.

Lemma suppressed_never_armed a ks d m :
  a ∈ suppressed d -> Arm m ∈ (run detector_call d ks).2 -> app_key m <> a.
Proof.
  revert d. induction ks as [|k ks IH]; intros d Ha; [by intros ?%elem_of_nil|].
  rewrite run_cons. cbn [snd]. rewrite elem_of_app. intros [Hm|Hm].
  - destruct k as [now s cal|k|ks'|now|]; cbn [detector_call snd] in Hm; try (by apply elem_of_nil in Hm).
    destruct (poll d now s cal) as [d' v] eqn:Ep. cbn [snd] in Hm. apply list_elem_of_singleton in Hm.
    assert (Harm : (poll d now s cal).2 = Arm m) by (rewrite Ep; by symmetry).
    apply poll_arm in Harm as [c Hc]. rewrite (arming_key _ _ _ _ _ _ Hc).
    destruct (ar_found _ _ _ _ _ _ Hc) as (snap & _ & (_ & Hns & _)%evaluate_sound). congruence.
  - apply (IH (detector_call d k).1); [|exact Hm]. by apply (call_suppressed_mono d k).
Qed.

(** Calls while a snooze until [u] runs. *)
Definition within_snooze (u : Monotonic) (k : DetectorCall) : Prop :=
  match k with Poll now _ _ => since_epoch now < since_epoch u | Snooze _ => False | _ => True end.

Lemma poll_snoozed d now snapshot calendar u :
  snoozed_until d = Some u -> since_epoch now < since_epoch u ->
  snoozed_until (poll d now snapshot calendar).1 = Some u.
Proof.
  intros Hu Hlt.
  assert (Hw : forall cand, snoozed_until (withdraw (set_tracking d cand None)).1 = Some u).
  { intros cand. unfold withdraw. by case_match. }
  unfold poll. destruct snapshot as [s|e]; [|apply Hw].
  repeat case_match; try apply Hw; try exact Hu.
  unfold consider. cbn [snoozed_until set_tracking]. rewrite Hu. rewrite (proj2 (Z.ltb_lt _ _) Hlt). exact Hu.
Qed.

Lemma snoozed_never_armed ks d u m :
  snoozed_until d = Some u -> Forall (within_snooze u) ks -> Arm m ∉ (run detector_call d ks).2.
Proof.
  intros Hu Hks. revert d Hu. induction Hks as [|k ks Hk Hks IH]; intros d Hu; [by intros ?%elem_of_nil|].
  rewrite run_cons. cbn [snd]. rewrite elem_of_app. intros [Hm|Hm].
  - destruct k as [now s cal|k|ks'|now|]; cbn [detector_call snd] in Hm; try (by apply elem_of_nil in Hm).
    destruct (poll d now s cal) as [d' v] eqn:Ep. cbn [snd] in Hm. apply list_elem_of_singleton in Hm.
    assert (Harm : (poll d now s cal).2 = Arm m) by (rewrite Ep; by symmetry).
    apply poll_arm in Harm as [c Hc]. pose proof (ar_awake _ _ _ _ _ _ Hc u Hu). simpl in Hk. lia.
  - revert Hm. apply IH. destruct k as [now s cal|k|ks'|now|]; try exact Hu; [|done].
    cbn [detector_call]. pose proof (poll_snoozed d now s cal u Hu Hk). by destruct (poll d now s cal).
Qed.

(** No means no.  Once an application is suppressed, no later run of the detector
    raises a prompt for it; once the user said not now, no poll before the snooze is
    over raises any. *)
Theorem answers_are_kept (d : Detector) (a : string) (now : Monotonic) (ks : list DetectorCall) (m : DetectedMeeting) :
  (Arm m ∈ (run detector_call (suppress_app d a) ks).2 -> app_key m <> a) /\
  (Forall (within_snooze (plus now (snooze_for (config d)))) ks ->
   Arm m ∉ (run detector_call (snooze d now) ks).2).
Proof.
  split.
  - apply suppressed_never_armed. cbn. set_solver.
  - apply snoozed_never_armed. reflexivity.
Qed.

(** A machine that cannot be read is not an empty one: the poll forgets the
    candidate, withdraws a prompt that was up and says so, and raises nothing. *)
Theorem unreadable_machine_withdraws (d : Detector) (now : Monotonic) (e : string) (calendar : CalendarSource) :
  let '(d', v) := poll d now (Err e) calendar in
  candidate d' = None /\ handled d' = None /\ lost_since d' = None /\
  v = (if is_some (handled d) then Clear else Idle) /\
  withdrawn (stats d') = (if is_some (handled d) then wadd (withdrawn (stats d)) 1 else withdrawn (stats d)).
Proof.
  unfold poll, withdraw. cbn [handled set_tracking]. destruct (handled d) as [h|] eqn:Eh; cbn; rewrite ?Eh.
  - split; [reflexivity|]. split; [reflexivity|]. split; [reflexivity|]. split; reflexivity.
  - split; [reflexivity|]. split; [reflexivity|]. split; [reflexivity|]. split; reflexivity.
Qed.

(** ** From the machine to the recording *)

Lemma state_after_rules r cfg ks : rules (state_after (detector_new r cfg) ks) = r.
Proof.
  induction ks as [|k ks IH] using rev_ind; [reflexivity|]. rewrite state_after_snoc.
  destruct k as [now s cal|k|ks'|now|]; try exact IH. cbn [detector_call].
  pose proof (poll_rules (state_after (detector_new r cfg) ks) now s cal) as Hc.
  destruct (poll _ _ _ _) as [d v]. cbn [fst] in *. by rewrite Hc.
Qed.

Lemma candidate_signals_home d c : home (candidate_signals d c) = Some (home_jurisdiction (config d)).
Proof. unfold candidate_signals. repeat case_match; reflexivity. Qed.

(** C10: CON-01 and CON-05 from end to end.  Where the declared home is not known to be
    one-party, whatever the detector arms for carries a blocking notice; and with that
    prompt up, a capture starts only if the user ticked the box for exactly that
    meeting or said so with the click. *)
Theorem detected_meeting_needs_consent (table : list Jurisdiction) (cfg : DetectorConfig) (ks : list DetectorCall)
  (now : Monotonic) (snapshot : result ActivitySnapshot string) (calendar : CalendarSource) (m : DetectedMeeting)
  (shell : ShellCore * option DetectedMeeting) (k : ShellCall) :
  (poll (state_after (detector_new (from_list table) cfg) ks) now snapshot calendar).2 = Arm m ->
  (forall j, get (from_list table) (home_jurisdiction cfg) = Some j -> regime j <> OneParty) ->
  reachable ghost_call (new, None) shell -> prompt shell.1 = Some m -> StartCapture ∈ (ghost_call shell k).2 ->
  requires_acknowledgement m = true /\
  (shell.2 = Some m \/ exists t, k = CallHandle (PromptResponse t (ChooseStart true))).
Proof.
  intros [c Ha]%poll_arm Hhome Hreach Hp Hstart.
  assert (Hack : requires_acknowledgement m = true).
  { destruct (ar_text _ _ _ _ _ _ Ha) as (d' & -> & Hr & Hc). rewrite (proj1 (describe_notice d' c)), Hr.
    rewrite state_after_rules. rewrite state_after_config in Hc. apply escalate_blocks; [apply from_list_ok|].
    destruct (get (from_list table) (home_jurisdiction cfg)) as [j|] eqn:Ej.
    - right. exists j. split; [|by apply Hhome]. left. exists (home_jurisdiction cfg).
      rewrite candidate_signals_home, Hc. split; [reflexivity|exact Ej].
    - left. exists (home_jurisdiction cfg). rewrite candidate_signals_home, Hc. split; [reflexivity|exact Ej]. }
  split; [exact Hack|]. by apply (blocked_start_acknowledged shell k m).
Qed.

(** *** A call in Zoom, seen for twenty seconds *)

Module Sample.

Definition in_call : ActivitySnapshot :=
  mkSnapshot [mkClient 7 (Some "us.zoom.xos"%string) true true] None.
Definition sees_call (secs : Z) : DetectorCall := Poll (from_secs secs) (Ok in_call) NoCalendar.
Definition d0 : Detector := detector_new (from_list [germany; texas]) (config_default 1).
Definition zoom_meeting : DetectedMeeting := describe d0 (mkCandidate (mkApp "us.zoom.xos" "Zoom" ["us.zoom.xos"%string] false) MicHot).

Lemma zoom_arms : (poll (state_after d0 [sees_call 0; sees_call 10]) (from_secs 20) (Ok in_call) NoCalendar).2 = Arm zoom_meeting.
Proof. vm_compute. reflexivity. Qed.

Lemma prompt_needs_a_held_conjunction_witness :
  exists before held t0,
    [sees_call 0; sees_call 10] ++ [sees_call 20] = before ++ held /\
    held_since d0 before held t0 "us.zoom.xos" /\ dur_from_secs 20 <= since (from_secs 20) t0.
Proof.
  exact (prompt_needs_a_held_conjunction (from_list [germany; texas]) (config_default 1) [sees_call 0; sees_call 10]
    (from_secs 20) (Ok in_call) NoCalendar zoom_meeting zoom_arms).
Defined.

Lemma prompt_is_raised_once_witness :
  Arm zoom_meeting ∉
  (run detector_call
     (poll (state_after d0 [sees_call 0; sees_call 10]) (from_secs 20) (Ok in_call) NoCalendar).1
     [RecordStarted; sees_call 60]).2.
Proof.
  apply (prompt_is_raised_once _ _ _ _ zoom_meeting); [exact zoom_arms| |].
  - repeat constructor.
  - vm_compute. intros H. apply elem_of_cons in H as [H|H]; [discriminate H|]. by apply elem_of_nil in H.
Defined.

Lemma answers_are_kept_witness :
  Arm zoom_meeting ∉ (run detector_call (snooze d0 (from_secs 0)) [sees_call 30; sees_call 90]).2.
Proof.
  destruct (answers_are_kept d0 "us.zoom.xos" (from_secs 0) [sees_call 30; sees_call 90] zoom_meeting) as [_ H].
  apply H. constructor; [by vm_compute|]. constructor; [by vm_compute|constructor].
Defined.

Lemma detected_meeting_needs_consent_witness :
  let calls := [CallHandle (MeetingDetected ZERO zoom_meeting); CallHandle (PromptAcknowledged true)] in
  let shell := (run ghost_call (new, None) calls).1 in
  requires_acknowledgement zoom_meeting = true /\
  (shell.2 = Some zoom_meeting \/ exists t, CallToggle ZERO Hotkey = CallHandle (PromptResponse t (ChooseStart true))).
Proof.
  intros calls shell.
  apply (detected_meeting_needs_consent [germany; texas] (config_default 1) [sees_call 0; sees_call 10]
    (from_secs 20) (Ok in_call) NoCalendar zoom_meeting shell (CallToggle ZERO Hotkey)).
  - exact zoom_arms.
  - intros j Hj. vm_compute in Hj. discriminate Hj.
  - apply run_reachable.
  - vm_compute. reflexivity.
  - apply list_elem_of_In. vm_compute. auto.
Defined.

End Sample.

End Detection.
