(* ===== verification/Ring.v ===== *)
(** * fotw-pipeline: the ring between the audio callback and the pump

    Models [crates/fotw-pipeline/src/ring.rs].  The producer half runs on the audio
    thread and never waits; the consumer half drains on the pump thread.  The sample
    queue is the third-party [rtrb] ring, the class [RtRing] with its documented
    laws.  The clock mailbox beside it is read and written concurrently, so it is
    modelled at the granularity of its atomic operations, which are all sequentially
    consistent: a schedule says whose operation is next. *)

From S2P Require Import Prelude Float32.

Local Open Scope Z_scope.

Record CaptureObservation := mkObservation {
  sequence : Z;
  sample_start : Z;
  sample_count : Z;
  device_frames : Z;
  host_ns : Z;
  flags : Z;
  dropped_samples : Z;
  timing_faults : Z;
}.

#[export] Instance CaptureObservation_eq_dec : EqDecision CaptureObservation.
Proof. solve_decision. Defined.

(** ** The clock mailbox *)

Record ClockMailbox := mkMailbox { version : Z; fields : list Z }.

Definition mailbox_default : ClockMailbox := mkMailbox 0 (replicate 8 0).

Inductive MailboxOp := StoreVersion (v : Z) | StoreField (i : nat) (v : Z).

Definition apply_op (m : ClockMailbox) (op : MailboxOp) : ClockMailbox :=
  match op with
  | StoreVersion v => mkMailbox v (fields m)
  | StoreField i v => mkMailbox (version m) (<[i := v]> (fields m))
  end.

(** The values in the order [publish] stores them. *)
Definition field_values (o : CaptureObservation) : list Z :=
  [sample_start o; sample_count o; device_frames o; host_ns o; flags o; dropped_samples o; sequence o;
   timing_faults o].

(** The version a publication ends with: [sequence.wrapping_mul(2)]. *)
Definition end_version (o : CaptureObservation) : Z := sequence o * 2 mod 2 ^ 64.

(** [publish], store by store. *)
Definition publish_ops (o : CaptureObservation) : list MailboxOp :=
  StoreVersion (wsub (end_version o) 1) :: imap StoreField (field_values o) ++ [StoreVersion (end_version o)].

Definition publish (m : ClockMailbox) (o : CaptureObservation) : ClockMailbox :=
  fold_left apply_op (publish_ops o) m.

(** The observation in the eight values loaded; [as u32] on the flags. *)
Definition of_values (vs : list Z) : option CaptureObservation :=
  match vs with
  | [a; b; c; d; e; f; g; h] => Some (mkObservation g a b c d (e mod 2 ^ 32) f h)
  | _ => None
  end.

(** [read], load by load: where the reader stands in it. *)
Inductive Reader := Starting | Loading (before : Z) (values : list Z).

(** One load, and what the read returned if it is over. *)
Definition read_step (m : ClockMailbox) (r : Reader) : Reader * option (option CaptureObservation) :=
  match r with
  | Starting =>
      let before := version m in
      if (before =? 0) || negb (before mod 2 =? 0) then (Starting, Some None) else (Loading before [], None)
  | Loading before vs =>
      match fields m !! length vs with
      | Some v => (Loading before (vs ++ [v]), None)
      | None => (Starting, Some (if version m =? before then of_values vs else None))
      end
  end.

(** A read nothing interrupts. *)
Fixpoint read_loop (rounds : nat) (m : ClockMailbox) (r : Reader) : option (option CaptureObservation) :=
  match rounds with
  | O => None
  | S rounds =>
      match read_step m r with
      | (_, Some result) => Some result
      | (r, None) => read_loop rounds m r
      end
  end.

(** Ten loads at most: the version, the eight fields, the version. *)
Definition mailbox_read (m : ClockMailbox) : option CaptureObservation := mjoin (read_loop 10 m Starting).

(** ** The sample queue *)

Class RtRing (R : Type) := {
  ring_new : nat -> R;
  ring_capacity : R -> nat;
  free_slots : R -> nat;
  push_partial_slice : R -> list f32 -> R * nat;
  pop_partial_slice : R -> nat -> R * list f32;
}.

(** What the crate documents: a bounded queue, first in first out, that takes and
    gives as much as it can. *)
Class RtRingLaws (R : Type) `{RtRing R} (queued : R -> list f32) := {
  ring_new_spec n : queued (ring_new n) = [] /\ ring_capacity (ring_new n) = n;
  free_slots_spec r : (free_slots r + length (queued r) = ring_capacity r)%nat;
  push_spec r block r' n : push_partial_slice r block = (r', n) ->
    n = Nat.min (free_slots r) (length block) /\ queued r' = queued r ++ take n block /\
    ring_capacity r' = ring_capacity r;
  pop_spec r want r' got : pop_partial_slice r want = (r', got) ->
    got = take want (queued r) /\ queued r' = drop want (queued r) /\ ring_capacity r' = ring_capacity r;
}.

(** ** Producer and consumer *)

Section Ring.
Context `{RtRing R}.

(** What both halves hold: the queue, the drop counter, the mailbox. *)
Record Shared := mkShared { queue : R; dropped : Z; clock : ClockMailbox }.

Record RingProducer := mkProducer { accepted_samples : Z; clock_sequence : Z; p_timing_faults : Z }.

Definition with_capacity_frames (n : nat) : RingProducer * Shared :=
  (mkProducer 0 0 0, mkShared (ring_new n) 0 mailbox_default).

Definition count_dropped (sh : Shared) (n : nat) : Shared :=
  mkShared (queue sh) (wadd (dropped sh) (Z.of_nat n)) (clock sh).

Definition push_block (self : RingProducer) (sh : Shared) (block : list f32) : RingProducer * Shared * nat :=
  let '(q, took) := push_partial_slice (queue sh) block in
  let self := mkProducer (sat_add64 (accepted_samples self) (Z.of_nat took)) (clock_sequence self) (p_timing_faults self) in
  let sh := mkShared q (dropped sh) (clock sh) in
  let remainder := (length block - took)%nat in
  (self, if (remainder =? 0)%nat then sh else count_dropped sh remainder, took).

Definition push_complete_block (self : RingProducer) (sh : Shared) (block : list f32) : RingProducer * Shared * nat :=
  if (free_slots (queue sh) <? length block)%nat then (self, count_dropped sh (length block), O)
  else push_block self sh block.

(** The samples are in before the observation is published, store by store. *)
Definition push_capture_block (self : RingProducer) (sh : Shared) (block : list f32) (frames host flag : Z)
  : RingProducer * Shared * nat * list CaptureObservation :=
  let start := accepted_samples self in
  let '(self, sh, count) := push_complete_block self sh block in
  match block with
  | [] => (self, sh, count, [])
  | _ =>
      let self := mkProducer (accepted_samples self) (wadd (clock_sequence self) 1)
        (if Z.land flag 6 =? 0 then p_timing_faults self else sat_add64 (p_timing_faults self) 1) in
      let o := mkObservation (clock_sequence self) start (Z.of_nat count) frames host flag (dropped sh)
        (p_timing_faults self) in
      (self, mkShared (queue sh) (dropped sh) (publish (clock sh) o), count, [o])
  end.

Definition dropped_frames (sh : Shared) : Z := dropped sh.
Definition producer_slots (sh : Shared) : nat := free_slots (queue sh).

Definition capture_observation (sh : Shared) : option CaptureObservation := mailbox_read (clock sh).

Definition pop_into (sh : Shared) (out_len : nat) : Shared * list f32 :=
  let '(q, popped) := pop_partial_slice (queue sh) out_len in (mkShared q (dropped sh) (clock sh), popped).

End Ring.
Arguments Shared : clear implicits.

(** ** Generations *)

(** Rings are named in the order they are allocated; a producer and a consumer with
    one name are the halves of one ring. *)
Record GenerationRing := mkGeneration {
  initial : option nat;
  next_consumer : option nat;
  allocated : nat;
}.

(** [GenerationRing::new] takes over the ring allocated first. *)
Definition generation_new : GenerationRing := mkGeneration (Some O) None 1.

Definition gen_producer (self : GenerationRing) : GenerationRing * nat :=
  match initial self with
  | Some ring => (mkGeneration None (next_consumer self) (allocated self), ring)
  | None => (mkGeneration None (Some (allocated self)) (S (allocated self)), allocated self)
  end.

Definition discard_initial_attempt (self : GenerationRing) : GenerationRing * nat :=
  (mkGeneration None None (S (allocated self)), allocated self).

Definition take_replacement (self : GenerationRing) : GenerationRing * option nat :=
  (mkGeneration (initial self) None (allocated self), next_consumer self).

(** ** A read is never torn *)

Definition ops_of (obs : list CaptureObservation) : list MailboxOp := obs ≫= publish_ops.

(** The writer's stores still to come, the memory, the reader, and what its reads
    have returned. *)
Record Race := mkRace {
  todo : list MailboxOp;
  mem : ClockMailbox;
  reader : Reader;
  returned : list (option CaptureObservation);
}.

Inductive Thread := Writer | ReaderThread.

Definition race_step (s : Race) (t : Thread) : Race :=
  match t with
  | Writer =>
      match todo s with
      | [] => s
      | op :: rest => mkRace rest (apply_op (mem s) op) (reader s) (returned s)
      end
  | ReaderThread =>
      let '(r, result) := read_step (mem s) (reader s) in
      mkRace (todo s) (mem s) r (returned s ++ option_list result)
  end.

Definition race (obs : list CaptureObservation) (schedule : list Thread) : Race :=
  fold_left race_step schedule (mkRace (ops_of obs) mailbox_default Starting []).

(** Publications numbered one after the other from [i]. *)
Fixpoint numbered (i : Z) (obs : list CaptureObservation) : Prop :=
  match obs with
  | [] => True
  | o :: rest => sequence o = i + 1 /\ numbered (i + 1) rest
  end.

Lemma publish_ops_mem o m :
  length (fields m) = 8%nat -> publish m o = mkMailbox (end_version o) (field_values o).
Proof.
  destruct m as [v fs]. simpl. intros Hl.
  do 8 (destruct fs as [|? fs]; [done|]). destruct fs; [|done]. reflexivity.
Qed.

(** In the middle of a publication the version is the odd one. *)
Lemma publish_partial o m n :
  (0 < n < 10)%nat -> length (fields m) = 8%nat ->
  version (fold_left apply_op (take n (publish_ops o)) m) = wsub (end_version o) 1 /\
  length (fields (fold_left apply_op (take n (publish_ops o)) m)) = 8%nat.
Proof.
  intros Hn Hl. do 10 (destruct n as [|n]; [try lia; simpl; rewrite ?length_insert; done|]). lia.
Qed.

Lemma publish_ops_length o : length (publish_ops o) = 10%nat.
Proof. reflexivity. Qed.

(** The memory after [n] of the writer's stores. *)
Definition mem_after (m : ClockMailbox) (obs : list CaptureObservation) (n : nat) : ClockMailbox :=
  fold_left apply_op (take n (ops_of obs)) m.

Lemma end_version_small o i :
  0 <= i -> i + 1 < 2 ^ 63 -> sequence o = i + 1 -> end_version o = 2 * (i + 1).
Proof. unfold end_version. intros ? ? ->. rewrite Z.mod_small by lia. lia. Qed.

Lemma odd_version o i :
  0 <= i -> i + 1 < 2 ^ 63 -> sequence o = i + 1 -> wsub (end_version o) 1 = 2 * i + 1.
Proof.
  intros. rewrite (end_version_small o i) by done. rewrite wsub_small; unfold u64_max; lia.
Qed.

(** Between publications the version is even and the memory is one observation;
    within one it is odd. *)
Lemma mem_after_spec obs m i n :
  numbered i obs -> 0 <= i -> i + zlen obs < 2 ^ 63 -> length (fields m) = 8%nat -> version m = 2 * i ->
  (n <= 10 * length obs)%nat ->
  length (fields (mem_after m obs n)) = 8%nat /\
  ((exists j, version (mem_after m obs n) = 2 * j + 1) \/
   exists q, n = (10 * q)%nat /\ version (mem_after m obs n) = 2 * (i + Z.of_nat q) /\
     (forall o, (0 < q)%nat -> obs !! (q - 1)%nat = Some o -> fields (mem_after m obs n) = field_values o)).
Proof.
  unfold mem_after, zlen. revert m i n. induction obs as [|o obs IH]; intros m i n Hnum Hi Hlen Hf Hv Hn.
  { destruct n; [|simpl in Hn; lia]. split; [done|]. right. exists O. split; [done|]. split; [simpl; lia|]. intros; lia. }
  destruct Hnum as [Hseq Hnum]. cbn [length] in *.
  destruct (decide (n < 10)%nat) as [Hlt|Hge].
  - change (ops_of (o :: obs)) with (publish_ops o ++ ops_of obs).
    rewrite take_app_le by (rewrite publish_ops_length; lia).
    destruct (decide (n = 0)%nat) as [->|Hnz].
    + split; [done|]. right. exists O. split; [done|]. split; [simpl; lia|]. intros; lia.
    + destruct (publish_partial o m n) as [Hver Hl]; [lia|done|]. split; [done|]. left. exists i.
      rewrite Hver. apply odd_version; lia.
  - change (ops_of (o :: obs)) with (publish_ops o ++ ops_of obs).
    rewrite take_app_ge by (rewrite publish_ops_length; lia). rewrite publish_ops_length, fold_left_app.
    change (fold_left apply_op (publish_ops o) m) with (publish m o). rewrite publish_ops_mem by done.
    rewrite (end_version_small o i) by lia.
    destruct (IH (mkMailbox (2 * (i + 1)) (field_values o)) (i + 1) (n - 10)%nat) as [Hl Hcases];
      [done|lia|lia|done|done|lia|]. split; [done|].
    destruct Hcases as [Hodd|(q & Hq & Hver & Hfields)]; [by left|]. right. exists (S q).
    split; [lia|]. split; [rewrite Hver; lia|]. intros o' _ Ho'. destruct q as [|q].
    + simpl in Ho'. injection Ho' as <-. by replace (n - 10)%nat with O by lia.
    + apply Hfields; [lia|]. replace (S (S q) - 1)%nat with (S (S q - 1))%nat in Ho' by lia. exact Ho'.
Qed.

Section Seqlock.
Context (obs : list CaptureObservation).
Hypothesis Hnum : numbered 0 obs.
Hypothesis Hlen : zlen obs < 2 ^ 63.

Let after (n : nat) : ClockMailbox := mem_after mailbox_default obs n.

Lemma after_cases n :
  (n <= 10 * length obs)%nat ->
  length (fields (after n)) = 8%nat /\
  ((exists j, version (after n) = 2 * j + 1) \/
   exists q, n = (10 * q)%nat /\ version (after n) = 2 * Z.of_nat q /\
     (forall o, (0 < q)%nat -> obs !! (q - 1)%nat = Some o -> fields (after n) = field_values o)).
Proof. intros Hn. by apply (mem_after_spec obs mailbox_default 0). Qed.

(** Two moments with the same even version are one moment. *)
Lemma even_version_once n n' :
  (n <= 10 * length obs)%nat -> (n' <= 10 * length obs)%nat ->
  version (after n) = version (after n') -> version (after n) mod 2 = 0 -> n = n'.
Proof.
  intros Hn Hn' Heq Heven.
  destruct (after_cases n Hn) as [_ [[j Hj]|(q & -> & Hv & _)]].
  { rewrite Hj in Heven. Z.to_euclidean_division_equations; lia. }
  destruct (after_cases n' Hn') as [_ [[j Hj]|(q' & -> & Hv' & _)]]; [|lia].
  exfalso. lia.
Qed.

Definition loading_ok (n : nat) (r : Reader) : Prop :=
  match r with
  | Starting => True
  | Loading before vs =>
      exists n0, (n0 <= n)%nat /\ version (after n0) = before /\ before <> 0 /\ before mod 2 = 0 /\
        forall i v, vs !! i = Some v -> exists ni, (n0 <= ni <= n)%nat /\ fields (after ni) !! i = Some v
  end.

Definition race_ok (n : nat) (s : Race) : Prop :=
  (n <= 10 * length obs)%nat /\ todo s = drop n (ops_of obs) /\ mem s = after n /\ loading_ok n (reader s).

Lemma ops_of_length : length (ops_of obs) = (10 * length obs)%nat.
Proof.
  clear. induction obs as [|o l IH]; [done|]. change (ops_of (o :: l)) with (publish_ops o ++ ops_of l).
  rewrite length_app, publish_ops_length, IH. simpl. lia.
Qed.

Lemma loading_ok_later n n' r : (n <= n')%nat -> loading_ok n r -> loading_ok n' r.
Proof.
  intros Hn. destruct r as [|before vs]; [done|]. intros (n0 & ? & ? & ? & ? & Hvs). exists n0.
  split_and!; [lia|done..|]. intros i v Hi. destruct (Hvs i v Hi) as (ni & ? & ?). exists ni. split; [lia|done].
Qed.

Lemma read_step_ok n r r' res :
  (n <= 10 * length obs)%nat -> loading_ok n r -> read_step (after n) r = (r', res) -> loading_ok n r'.
Proof.
  intros Hn Hr. destruct r as [|before vs]; simpl.
  - destruct (Z.eqb_spec (version (after n)) 0); simpl; [by intros [= <- _]|].
    destruct (Z.eqb_spec (version (after n) mod 2) 0); simpl; [|by intros [= <- _]].
    intros [= <- _]. exists n. split_and!; [lia|done..|]. intros i v Hi. done.
  - destruct (fields (after n) !! length vs) as [v|] eqn:Ev; [|by intros [= <- _]].
    intros [= <- _]. destruct Hr as (n0 & ? & ? & ? & ? & Hvs). exists n0. split_and!; [done..|].
    intros i w Hi. apply lookup_app_Some in Hi as [Hi|[Hle Hi]]; [by apply Hvs|].
    destruct (i - length vs)%nat eqn:E; [|done]. injection Hi as <-. exists n. split; [lia|].
    by replace i with (length vs) by lia.
Qed.

Lemma race_step_ok n s t : race_ok n s -> exists n', race_ok n' (race_step s t).
Proof.
  intros (Hn & Htodo & Hmem & Hr). destruct t; simpl.
  - destruct (todo s) as [|op rest] eqn:E; [exists n; split_and!; [done|by rewrite E|done..]|].
    assert (Hop : ops_of obs !! n = Some op).
    { rewrite <-(Nat.add_0_r n), <-lookup_drop, <-Htodo. done. }
    exists (S n). split_and!.
    + apply lookup_lt_Some in Hop. rewrite ops_of_length in Hop. lia.
    + simpl. rewrite <-Nat.add_1_r, <-drop_drop, <-Htodo. done.
    + simpl. rewrite Hmem. unfold after, mem_after. rewrite (take_S_r _ _ _ Hop), fold_left_app. done.
    + simpl. by apply (loading_ok_later n); [lia|].
  - rewrite Hmem. destruct (read_step (after n) (reader s)) as [r res] eqn:E. exists n.
    split_and!; [done..|]. simpl. by eapply read_step_ok.
Qed.

Lemma race_ok_always schedule : exists n, race_ok n (race obs schedule).
Proof.
  unfold race. induction schedule as [|t schedule [n IH]] using rev_ind.
  - exists O. split_and!; [lia|done..].
  - rewrite fold_left_app. by apply (race_step_ok n).
Qed.

End Seqlock.

Lemma drop_ops_of obs q : drop (10 * q) (ops_of obs) = ops_of (drop q obs).
Proof.
  revert q. induction obs as [|o obs IH]; intros q; [by destruct q|].
  destruct q as [|q]; [done|]. change (ops_of (o :: obs)) with (publish_ops o ++ ops_of obs).
  rewrite drop_app_ge by (rewrite publish_ops_length; lia). rewrite publish_ops_length. simpl.
  rewrite <-IH. f_equal. lia.
Qed.

Definition flags_ok (o : CaptureObservation) : Prop := 0 <= flags o < 2 ^ 32.

Lemma of_field_values o : flags_ok o -> of_values (field_values o) = Some o.
Proof. intros Hf. unfold of_values, field_values. rewrite Z.mod_small by done. by destruct o. Qed.

(** C21: the pump never sees a torn clock.  However the producer's stores and the
    reader's loads interleave, a read that returns an observation returns the last
    one published, whole, at a moment with no publication under way.  Fewer than 2^63
    publications, so that the version does not come round. *)
Theorem observation_is_never_torn (obs : list CaptureObservation) (schedule : list Thread) (o : CaptureObservation) :
  numbered 0 obs -> zlen obs < 2 ^ 63 -> Forall flags_ok obs ->
  (read_step (mem (race obs schedule)) (reader (race obs schedule))).2 = Some (Some o) ->
  exists k, obs !! k = Some o /\ todo (race obs schedule) = ops_of (drop (S k) obs).
Proof.
  intros Hnum Hlen Hflags Hread.
  destruct (race_ok_always obs schedule) as (n & Hn & Htodo & Hmem & Hr). rewrite Hmem in Hread.
  destruct (reader (race obs schedule)) as [|before vs]; simpl in Hread; [by case_match|].
  destruct Hr as (n0 & Hn0 & Hb & Hnz & Heven & Hvs).
  destruct (fields _ !! length vs) as [v|] eqn:Ev; [done|]. injection Hread as Hread.
  destruct (Z.eqb_spec (version (mem_after mailbox_default obs n)) before) as [Heq|]; [|done].
  assert (n = n0) as ->. { apply (even_version_once obs Hnum Hlen); [lia..|congruence|]. by rewrite Heq. }
  destruct (after_cases obs Hnum Hlen n0 Hn) as [Hl8 [[j Hj]|(q & Hq & Hv & Hf)]].
  { rewrite Hj in Heq. subst before. exfalso. Z.to_euclidean_division_equations; lia. }
  assert (Hq0 : (0 < q)%nat) by (destruct q; [exfalso; apply Hnz; rewrite <-Heq, Hv; done|lia]).
  destruct (lookup_lt_is_Some_2 obs (q - 1)%nat) as [o' Ho']; [lia|].
  specialize (Hf o' Hq0 Ho'). exists (q - 1)%nat.
  assert (Hvals : vs = field_values o').
  { apply lookup_ge_None in Ev. rewrite <-Hf. symmetry. apply list_eq_same_length with (n := 8%nat); [|done|].
    - apply Nat.le_antisymm; [|lia]. apply Nat.nlt_ge. intros Hlong.
      destruct (lookup_lt_is_Some_2 vs 8 Hlong) as [v Hv8]. destruct (Hvs 8%nat v Hv8) as (ni & Hni & Hi).
      replace ni with n0 in Hi by lia. apply lookup_lt_Some in Hi. lia.
    - intros i x y _ Hx Hy. destruct (Hvs i y Hy) as (ni & Hni & Hi). replace ni with n0 in Hi by lia. congruence. }
  rewrite Hvals, of_field_values in Hread by (by eapply Forall_lookup_1).
  injection Hread as ->. split; [done|]. rewrite Htodo, Hq. replace (S (q - 1)) with q by lia. apply drop_ops_of.
Qed.

(** ** Every sample is accounted for *)

Inductive RingOp :=
| PushCapture (block : list f32) (frames host flag : Z)
| PushBlock (block : list f32)
| PopInto (out_len : nat).

Definition op_block (op : RingOp) : list f32 :=
  match op with PushCapture b _ _ _ | PushBlock b => b | PopInto _ => [] end.

Definition op_flags_ok (op : RingOp) : Prop :=
  match op with PushCapture _ _ _ flag => 0 <= flag < 2 ^ 32 | _ => True end.

Section Accounts.
Context `{RtRingLaws R queued}.

(** Both halves, and the history: what was taken in and drained, and what was
    published with the callback it was about. *)
Record Session := mkSession {
  producer : RingProducer;
  shared : Shared R;
  taken : list f32;
  drained : list f32;
  published : list (CaptureObservation * list f32);
}.

Definition session_step (s : Session) (op : RingOp) : Session :=
  match op with
  | PushCapture block frames host flag =>
      let '(p, sh, n, os) := push_capture_block (producer s) (shared s) block frames host flag in
      mkSession p sh (taken s ++ take n block) (drained s) (published s ++ ((fun o => (o, block)) <$> os))
  | PushBlock block =>
      let '(p, sh, n) := push_block (producer s) (shared s) block in
      mkSession p sh (taken s ++ take n block) (drained s) (published s)
  | PopInto out_len =>
      let '(sh, got) := pop_into (shared s) out_len in
      mkSession (producer s) sh (taken s) (drained s ++ got) (published s)
  end.

Definition session_new (capacity : nat) : Session :=
  let '(p, sh) := with_capacity_frames capacity in mkSession p sh [] [] [].

Definition session_after (capacity : nat) (ops : list RingOp) : Session :=
  fold_left session_step ops (session_new capacity).

(** The samples an observation speaks of are the callback's, whole, or none. *)
Definition describes (stream : list f32) (ob : CaptureObservation * list f32) : Prop :=
  let '(o, block) := ob in
  (sample_count o = 0 \/
   sample_count o = zlen block /\
   take (length block) (drop (Z.to_nat (sample_start o)) stream) = block) /\
  0 <= sample_start o /\ sample_start o + sample_count o <= zlen stream.

Record accounts (capacity : nat) (offered : list f32) (s : Session) : Prop := {
  ac_fifo : drained s ++ queued (queue (shared s)) = taken s;
  ac_capacity : ring_capacity (queue (shared s)) = capacity;
  ac_accepted : accepted_samples (producer s) = zlen (taken s);
  ac_dropped : dropped (shared s) + zlen (taken s) = zlen offered;
  ac_nonneg : 0 <= dropped (shared s);
  ac_sequence : clock_sequence (producer s) = zlen (published s);
  ac_numbered : numbered 0 ((published s).*1);
  ac_describes : Forall (describes (taken s)) (published s);
  ac_flags : Forall flags_ok ((published s).*1);
  ac_mailbox : clock (shared s) = fold_left publish ((published s).*1) mailbox_default;
}.

Lemma numbered_snoc i obs o : numbered i obs -> sequence o = i + zlen obs + 1 -> numbered i (obs ++ [o]).
Proof.
  unfold zlen. revert i. induction obs as [|x obs IH]; intros i; simpl.
  - intros _ ->. split; [lia|done].
  - intros [Hx Hobs] Ho. split; [done|]. apply IH; [done|]. lia.
Qed.

Lemma describes_more stream more ob : describes stream ob -> describes (stream ++ more) ob.
Proof.
  destruct ob as [o block]. unfold describes. rewrite zlen_app. pose proof (zlen_nonneg more).
  intros (Hc & Hs & Hle). split; [|lia]. destruct Hc as [?|[Hc Hb]]; [by left|right]. split; [done|].
  unfold zlen in *. rewrite drop_app_le by lia. rewrite take_app_le; [done|]. rewrite length_drop. lia.
Qed.

(** What a push does, as long as no counter overflows. *)
Record pushed (p : RingProducer) (sh : Shared R) (block : list f32) (p' : RingProducer) (sh' : Shared R) (n : nat)
  : Prop := {
  pu_taken : (n <= length block)%nat;
  pu_queue : queued (queue sh') = queued (queue sh) ++ take n block;
  pu_capacity : ring_capacity (queue sh') = ring_capacity (queue sh);
  pu_accepted : accepted_samples p' = accepted_samples p + Z.of_nat n;
  pu_dropped : dropped sh' = dropped sh + Z.of_nat (length block - n);
  pu_clock : clock sh' = clock sh /\ clock_sequence p' = clock_sequence p;
}.

Definition room (p : RingProducer) (sh : Shared R) (block : list f32) : Prop :=
  0 <= accepted_samples p /\ 0 <= dropped sh /\
  accepted_samples p + zlen block <= u64_max /\ dropped sh + zlen block <= u64_max.

Lemma push_block_pushed p sh block p' sh' n :
  room p sh block -> push_block p sh block = (p', sh', n) -> pushed p sh block p' sh' n.
Proof.
  intros (? & ? & ? & ?). unfold push_block, zlen in *.
  destruct (push_partial_slice (queue sh) block) as [q took] eqn:E.
  apply push_spec in E as (Ht & Hq & Hc). intros [= <- <- <-].
  assert (Hd : forall sh1 : Shared R, dropped sh1 = dropped sh ->
    dropped (if (length block - took =? 0)%nat then sh1 else count_dropped sh1 (length block - took)) =
    dropped sh + Z.of_nat (length block - took)).
  { intros sh1 Hs. destruct (Nat.eqb_spec (length block - took) 0); simpl; [lia|]. rewrite Hs, wadd_small; lia. }
  assert (Hrest : forall sh1 : Shared R, forall b : bool, let sh2 := if b then sh1 else count_dropped sh1 (length block - took) in
    queue sh2 = queue sh1 /\ clock sh2 = clock sh1) by (intros sh1 []; done).
  specialize (Hrest (mkShared q (dropped sh) (clock sh)) (length block - took =? 0)%nat) as [Hq2 Hc2]. simpl in Hq2, Hc2.
  split; [lia|by rewrite Hq2|by rewrite Hq2| |by apply Hd|by rewrite Hc2].
  simpl. unfold sat_add64. lia.
Qed.

(** A whole callback or none of it. *)
Lemma push_complete_pushed p sh block p' sh' n :
  room p sh block -> push_complete_block p sh block = (p', sh', n) ->
  pushed p sh block p' sh' n /\ (n = O \/ n = length block).
Proof.
  intros Hroom. unfold push_complete_block. destruct (Nat.ltb_spec (free_slots (queue sh)) (length block)) as [Hlt|Hge].
  - intros [= <- <- <-]. split; [|by left]. destruct Hroom as (? & ? & ? & ?). unfold zlen in *.
    split; simpl; rewrite ?app_nil_r; try done; [lia..|]. rewrite wadd_small; lia.
  - intros E. split; [by apply push_block_pushed|]. right. revert E. unfold push_block.
    destruct (push_partial_slice (queue sh) block) as [q took] eqn:E. apply push_spec in E as (Ht & _ & _).
    intros [= _ _ <-]. lia.
Qed.

Lemma accounts_room capacity offered s block :
  accounts capacity offered s -> zlen (offered ++ block) <= u64_max -> room (producer s) (shared s) block.
Proof.
  intros Ha Hu. rewrite zlen_app in Hu. pose proof (zlen_nonneg (taken s)). pose proof (zlen_nonneg block).
  destruct Ha. unfold room. lia.
Qed.

(** The parts of the account a push changes. *)
Lemma pushed_accounts capacity offered s block p sh n :
  accounts capacity offered s -> pushed (producer s) (shared s) block p sh n ->
  drained s ++ queued (queue sh) = taken s ++ take n block /\ ring_capacity (queue sh) = capacity /\
  accepted_samples p = zlen (taken s ++ take n block) /\
  dropped sh + zlen (taken s ++ take n block) = zlen (offered ++ block).
Proof.
  intros [] []. rewrite !zlen_app. unfold zlen in *. rewrite length_take.
  split; [rewrite pu_queue0, app_assoc; by f_equal|]. split; [congruence|]. split; lia.
Qed.

Lemma session_step_accounts capacity offered s op :
  accounts capacity offered s -> zlen (offered ++ op_block op) <= u64_max -> zlen (published s) + 1 < 2 ^ 63 ->
  op_flags_ok op -> accounts capacity (offered ++ op_block op) (session_step s op).
Proof.
  intros Ha Hu Hp Hfl. destruct op as [block frames host flag|block|out_len]; cbn [session_step op_block].
  - pose proof (accounts_room _ _ _ _ Ha Hu) as Hroom. unfold push_capture_block.
    destruct (push_complete_block (producer s) (shared s) block) as [[p sh] n] eqn:E.
    apply push_complete_pushed in E as [Hpu Hall]; [|done].
    destruct (pushed_accounts _ _ _ _ _ _ _ Ha Hpu) as (H1 & H2 & H3 & H4).
    pose proof (pu_clock _ _ _ _ _ _ Hpu) as [Hclock Hseq]. pose proof (pu_dropped _ _ _ _ _ _ Hpu) as Hdr.
    destruct Ha. destruct block as [|b0 block].
    + simpl. rewrite !app_nil_r, take_nil, app_nil_r in *. split; simpl; try done; try congruence; try lia.
    + set (block' := b0 :: block) in *.
      split; cbn [producer shared taken drained published queue dropped clock accepted_samples clock_sequence];
        try done; rewrite ?fmap_app; cbn [fmap list_fmap fst].
      * lia.
      * rewrite zlen_app, Hseq, ac_sequence0. rewrite wadd_small; unfold u64_max, zlen in *; simpl in *; lia.
      * apply numbered_snoc; [done|]. cbn. rewrite Hseq, ac_sequence0.
        unfold zlen in *. rewrite length_fmap. rewrite wadd_small; unfold u64_max; lia.
      * apply Forall_app. split; [eapply Forall_impl; [exact ac_describes0|]; intros ob; apply describes_more|].
        constructor; [|constructor]. unfold describes. cbn [sample_count sample_start]. rewrite ac_accepted0.
        pose proof (zlen_nonneg (taken s)). rewrite zlen_app. unfold zlen in *. rewrite length_take.
        split; [|lia]. destruct Hall as [->|Hn]; [by left|right]. split; [lia|].
        rewrite Nat2Z.id, drop_app_length, Hn, take_take, Nat.min_id. by rewrite firstn_all.
      * apply Forall_app. split; [done|]. constructor; [exact Hfl|constructor].
      * rewrite fold_left_app. simpl. by rewrite Hclock, ac_mailbox0.
  - pose proof (accounts_room _ _ _ _ Ha Hu) as Hroom.
    destruct (push_block (producer s) (shared s) block) as [[p sh] n] eqn:E.
    apply push_block_pushed in E; [|done]. rename E into Hpu.
    destruct (pushed_accounts _ _ _ _ _ _ _ Ha Hpu) as (H1 & H2 & H3 & H4).
    pose proof (pu_clock _ _ _ _ _ _ Hpu) as [Hclock Hseq]. pose proof (pu_dropped _ _ _ _ _ _ Hpu) as Hdr.
    destruct Ha. split; cbn [producer shared taken drained published]; try done; try congruence; try lia.
    eapply Forall_impl; [exact ac_describes0|]. intros ob. apply describes_more.
  - unfold pop_into. destruct (pop_partial_slice (queue (shared s)) out_len) as [q got] eqn:E.
    apply pop_spec in E as (Hg & Hq & Hc). destruct Ha. rewrite app_nil_r.
    split; cbn [producer shared taken drained published queue dropped clock]; try done.
    + rewrite Hg, Hq, <-app_assoc, take_drop. done.
    + congruence.
Qed.

Lemma session_step_published s op : zlen (published s) <= zlen (published (session_step s op)) <= zlen (published s) + 1.
Proof.
  unfold zlen. destruct op as [block frames host flag|block|n]; simpl.
  - destruct (push_capture_block _ _ _ _ _ _) as [[[p sh] n] os] eqn:E. simpl.
    rewrite length_app, length_fmap. unfold push_capture_block in E.
    destruct (push_complete_block _ _ _) as [[? ?] ?], block; injection E as _ _ _ <-; simpl; lia.
  - destruct (push_block _ _ _) as [[p sh] n]. simpl. lia.
  - destruct (pop_into _ _). simpl. lia.
Qed.

Lemma session_accounts capacity ops :
  zlen (ops ≫= op_block) <= u64_max -> zlen ops < 2 ^ 63 -> Forall op_flags_ok ops ->
  accounts capacity (ops ≫= op_block) (session_after capacity ops) /\ zlen (published (session_after capacity ops)) <= zlen ops.
Proof.
  unfold session_after. induction ops as [|op ops IH] using rev_ind; intros Hu Hl Hf.
  - destruct (ring_new_spec capacity) as [Hq Hc]. simpl. split; [|done].
    split; simpl; rewrite ?Hq, ?Hc; done.
  - rewrite bind_app in *. simpl in *. rewrite app_nil_r in *. rewrite !zlen_app in *.
    apply Forall_app in Hf as [Hf Hop]. inversion_clear Hop. rewrite fold_left_app. simpl.
    pose proof (zlen_nonneg (op_block op)). change (zlen [op]) with 1 in *.
    destruct IH as [IH Hp]; [lia|lia|done|].
    split; [apply session_step_accounts; [done|rewrite zlen_app; lia|lia|done]|].
    pose proof (session_step_published (fold_left session_step ops (session_new capacity)) op). lia.
Qed.

End Accounts.

(** The mailbox after publications, and a read nothing interrupts. *)
Lemma publish_all_fields obs m :
  length (fields m) = 8%nat -> length (fields (fold_left publish obs m)) = 8%nat.
Proof.
  revert m. induction obs as [|o obs IH]; intros m Hm; [done|]. simpl. apply IH. by rewrite publish_ops_mem.
Qed.

Lemma mailbox_read_latest obs o :
  numbered 0 (obs ++ [o]) -> zlen (obs ++ [o]) < 2 ^ 63 -> flags_ok o ->
  mailbox_read (fold_left publish (obs ++ [o]) mailbox_default) = Some o.
Proof.
  intros Hnum Hlen Hf. rewrite fold_left_app. simpl. rewrite publish_ops_mem by (by apply publish_all_fields).
  assert (Hseq : sequence o = zlen obs + 1).
  { revert Hnum. clear. unfold zlen. replace (Z.of_nat (length obs) + 1) with (0 + Z.of_nat (length obs) + 1) by lia.
    generalize 0. induction obs as [|x obs IH]; intros i; simpl; [intros [-> _]; lia|].
    intros [_ Hn%IH]. lia. }
  pose proof (zlen_nonneg obs). rewrite zlen_app in Hlen. change (zlen [o]) with 1 in Hlen.
  rewrite (end_version_small o (zlen obs)) by lia.
  unfold mailbox_read. cbn [read_loop read_step version fields].
  rewrite (proj2 (Z.eqb_neq _ _)) by lia.
  replace (2 * (zlen obs + 1) mod 2) with 0 by (rewrite Z.mul_comm, Z.mod_mul; lia).
  simpl. rewrite Z.eqb_refl. by rewrite <-(of_field_values o Hf).
Qed.

(** Every sample is accounted for.  Whatever the sequence of callbacks, plain
    pushes and drains, what was drained followed by what is queued is exactly what
    was taken in, in order; taken and dropped add up to what was offered, to the
    sample; the queue never exceeds its capacity; a capture callback is taken whole
    or dropped whole, and its observation says where in the accepted stream its
    samples are, or that there are none; and the observation the pump reads is the
    latest. *)
Theorem ring_accounts_for_every_sample `{RtRingLaws R queued} (capacity : nat) (ops : list RingOp) :
  zlen (ops ≫= op_block) <= u64_max -> zlen ops < 2 ^ 63 -> Forall op_flags_ok ops ->
  let s := session_after capacity ops in
  drained s ++ queued (queue (shared s)) = taken s /\
  dropped (shared s) + zlen (taken s) = zlen (ops ≫= op_block) /\
  (length (queued (queue (shared s))) <= capacity)%nat /\
  Forall (describes (taken s)) (published s) /\ numbered 0 ((published s).*1) /\
  (forall o block, last (published s) = Some (o, block) -> capture_observation (shared s) = Some o).
Proof.
  intros Hu Hl Hf. destruct (session_accounts capacity ops Hu Hl Hf) as [Hacc Hp]. intros s. fold s in Hacc, Hp.
  destruct Hacc.
  split_and!; [done..| |done|done|].
  - pose proof (free_slots_spec (queue (shared s))). lia.
  - intros o block Hlast. unfold capture_observation. rewrite ac_mailbox0.
    apply last_Some in Hlast as [l Hlast]. rewrite Hlast in *. rewrite fmap_app in *. simpl in *.
    apply mailbox_read_latest; [done| |].
    + unfold zlen in *. rewrite length_app in *. rewrite length_fmap. simpl in *. lia.
    + apply Forall_app in ac_flags0 as [_ Ho]. by inversion_clear Ho.
Qed.

(** *** A queue that satisfies the laws *)

Record ListRing := mkListRing { lr_free : nat; lr_queue : list f32 }.

Definition list_push (r : ListRing) (block : list f32) : ListRing * nat :=
  let n := Nat.min (lr_free r) (length block) in (mkListRing (lr_free r - n) (lr_queue r ++ take n block), n).

Definition list_pop (r : ListRing) (want : nat) : ListRing * list f32 :=
  let got := take want (lr_queue r) in (mkListRing (lr_free r + length got) (drop want (lr_queue r)), got).

#[export] Instance list_ring : RtRing ListRing :=
  {| ring_new n := mkListRing n []; ring_capacity r := (lr_free r + length (lr_queue r))%nat;
     free_slots := lr_free; push_partial_slice := list_push; pop_partial_slice := list_pop |}.

#[export] Instance list_ring_laws : RtRingLaws ListRing lr_queue.
Proof.
  split; simpl.
  - intros n. split; [done|lia].
  - done.
  - intros r block r' n [= <- <-]. simpl. split_and!; [done..|]. rewrite length_app, length_take. lia.
  - intros r want r' got [= <- <-]. simpl. split_and!; [done..|]. rewrite length_take, length_drop. lia.
Qed.

Lemma ring_accounts_for_every_sample_witness :
  let ops := [PushCapture [f32_one; f32_zero] 0 100 0; PushCapture [f32_one; f32_one] 1 200 2; PopInto 1] in
  let s := session_after (R := ListRing) 3 ops in
  dropped (shared s) = 2 /\ drained s ++ lr_queue (queue (shared s)) = [f32_one; f32_zero] /\
  capture_observation (shared s) = Some (mkObservation 2 2 0 1 200 2 2 1).
Proof.
  intros ops s.
  destruct (ring_accounts_for_every_sample (R := ListRing) (queued := lr_queue) 3 ops) as (H1 & _ & _ & _ & _ & H6).
  - by vm_compute.
  - by vm_compute.
  - repeat constructor; by vm_compute.
  - split; [by vm_compute|]. split; [exact H1|]. apply (H6 _ [f32_one; f32_one]). by vm_compute.
Defined.

Definition sample_observation (i : Z) : CaptureObservation := mkObservation i (10 * i) 10 (5 * i) (1000 * i) 0 0 0.

Lemma observation_is_never_torn_witness :
  exists k, [sample_observation 1; sample_observation 2] !! k = Some (sample_observation 1) /\
    todo (race [sample_observation 1; sample_observation 2] (replicate 10 Writer ++ replicate 9 ReaderThread)) =
    ops_of (drop (S k) [sample_observation 1; sample_observation 2]).
Proof.
  apply (observation_is_never_torn [sample_observation 1; sample_observation 2]
    (replicate 10 Writer ++ replicate 9 ReaderThread) (sample_observation 1)).
  - by vm_compute.
  - by vm_compute.
  - repeat constructor; by vm_compute.
  - by vm_compute.
Defined.

(** ** Generations do not mix *)

Inductive GenerationCall := Producer | DiscardInitial | TakeReplacement.

(** What the callers hold: the rings whose producer was handed out, those whose
    consumer was, newest last. *)
Record Handed := mkHanded { producers : list nat; consumers : list nat; empties : list nat }.

Definition generation_step (g : GenerationRing * Handed) (c : GenerationCall) : GenerationRing * Handed :=
  let '(self, h) := g in
  match c with
  | Producer =>
      let '(self, ring) := gen_producer self in
      (self, mkHanded (producers h ++ [ring]) (consumers h) (empties h))
  | DiscardInitial =>
      let '(self, ring) := discard_initial_attempt self in
      (self, mkHanded (producers h) (consumers h) (empties h ++ [ring]))
  | TakeReplacement =>
      let '(self, ring) := take_replacement self in
      (self, mkHanded (producers h) (consumers h ++ option_list ring) (empties h))
  end.

Definition generations (cs : list GenerationCall) : GenerationRing * Handed :=
  fold_left generation_step cs (generation_new, mkHanded [] [] []).

Record isolated (g : GenerationRing * Handed) : Prop := {
  is_fresh : Forall (fun ring => (ring < allocated g.1)%nat) (producers g.2 ++ consumers g.2 ++ empties g.2);
  is_producers : NoDup (producers g.2);
  is_consumers : NoDup (option_list (next_consumer g.1) ++ consumers g.2);
  is_replacement : forall ring, ring ∈ option_list (next_consumer g.1) ++ consumers g.2 ->
    (0 < ring < allocated g.1)%nat /\ ring ∈ producers g.2;
  is_latest : forall ring, next_consumer g.1 = Some ring -> last (producers g.2) = Some ring;
  is_empty : forall ring, ring ∈ empties g.2 -> (0 < ring)%nat /\ ring ∉ producers g.2;
  is_initial : forall ring, initial g.1 = Some ring -> ring = O /\ producers g.2 = [] /\ next_consumer g.1 = None;
  is_allocated : (0 < allocated g.1)%nat;
}.

Lemma isolated_fresh g ring : isolated g -> ring ∈ producers g.2 \/ ring ∈ consumers g.2 \/ ring ∈ empties g.2 ->
  (ring < allocated g.1)%nat.
Proof. intros [Hf _ _ _ _ _ _ _]. rewrite Forall_forall in Hf. intros Hr. apply Hf. rewrite !elem_of_app. tauto. Qed.

Lemma isolated_producer g : isolated g -> isolated (generation_step g Producer).
Proof.
  intros Hg. pose proof (isolated_fresh g) as Hfr. destruct g as [self h]. simpl. unfold gen_producer.
  destruct (initial self) as [r0|] eqn:Ei.
  - destruct (is_initial _ Hg r0 Ei) as (-> & Hp & Hn). destruct Hg. simpl in *. rewrite Hp, Hn in *. simpl in *.
    split; simpl; try done.
    + constructor; [lia|]. exact is_fresh0.
    + apply NoDup_singleton.
    + intros ring Hr. destruct (is_replacement0 ring Hr) as [? ?%elem_of_nil]. done.
    + intros ring Hr. destruct (is_empty0 ring Hr) as [? _]. split; [done|]. intros ->%list_elem_of_singleton. lia.
  - specialize (Hfr (allocated self) Hg). simpl in Hfr.
    assert (Hnew : (allocated self ∉ producers h) /\ (allocated self ∉ consumers h) /\ (allocated self ∉ empties h)).
    { split_and!; intros Hin; apply (Nat.lt_irrefl (allocated self)), Hfr; tauto. }
    destruct Hnew as (Hn1 & Hn2 & Hn3). destruct Hg. simpl in *. split; simpl; try done.
    + rewrite <-app_assoc. rewrite !Forall_app in *. destruct is_fresh0 as (? & ? & ?).
      split_and!; try (constructor; [lia|constructor]);
        (eapply Forall_impl; [eassumption|]); simpl; lia.
    + apply NoDup_app. split_and!; [done| |apply NoDup_singleton]. intros x Hx ->%list_elem_of_singleton. done.
    + constructor; [done|]. apply NoDup_app in is_consumers0. tauto.
    + intros ring [->|Hr]%elem_of_cons.
      * split; [lia|]. apply elem_of_app. right. left.
      * destruct (is_replacement0 ring) as [? ?]; [apply elem_of_app; by right|].
        split; [lia|]. apply elem_of_app. by left.
    + intros ring [= <-]. by rewrite last_snoc.
    + intros ring Hr. destruct (is_empty0 ring Hr) as [? ?]. split; [done|].
      rewrite elem_of_app, list_elem_of_singleton. intros [?| ->]; done.
    + lia.
Qed.

Lemma isolated_step g c : isolated g -> isolated (generation_step g c).
Proof.
  destruct c; [apply isolated_producer| |].
  - intros Hg. pose proof (isolated_fresh g) as Hfr. destruct g as [self h]. simpl in *.
    specialize (Hfr (allocated self) Hg). simpl in Hfr.
    assert (Hn1 : allocated self ∉ producers h).
    { intros Hin. apply (Nat.lt_irrefl (allocated self)), Hfr. tauto. }
    destruct Hg. simpl in *. split; simpl; try done.
    + rewrite !Forall_app in *. destruct is_fresh0 as (? & ? & ?).
      split_and!; try (constructor; [lia|constructor]);
        (eapply Forall_impl; [eassumption|]); simpl; lia.
    + apply NoDup_app in is_consumers0. tauto.
    + intros ring Hr. destruct (is_replacement0 ring) as [? ?]; [apply elem_of_app; by right|]. split; [lia|done].
    + intros ring [Hr| ->%list_elem_of_singleton]%elem_of_app; [by apply is_empty0|]. split; [lia|done].
    + lia.
  - intros []. destruct g as [self h]. simpl in *. split; simpl; try done.
    + rewrite !Forall_app in *. destruct is_fresh0 as (? & ? & ?). split_and!; try done.
      apply Forall_forall. intros ring Hr. destruct (is_replacement0 ring) as [? _]; [apply elem_of_app; by left|lia].
    + by rewrite Permutation_app_comm.
    + intros ring Hr. apply is_replacement0. rewrite Permutation_app_comm. exact Hr.
    + intros ring Hr. destruct (is_initial0 ring Hr) as (? & ? & ?). done.
Qed.

(** Tap generations do not mix.  Whatever the attempts, failures and replacements,
    no ring is handed to two producers or two consumers; a replacement consumer is
    always that of a producer handed out, the latest at the time it is taken; and the
    consumer that replaces an abandoned first attempt has no producer at all, so no
    audio of a failed start can reach it. *)
Theorem generations_do_not_mix (cs : list GenerationCall) :
  let '(self, h) := generations cs in
  NoDup (producers h) /\ NoDup (consumers h) /\
  (forall ring, ring ∈ consumers h -> ring ∈ producers h) /\
  (forall ring, (take_replacement self).2 = Some ring -> last (producers h) = Some ring /\ ring ∉ consumers h) /\
  (forall ring, ring ∈ empties h -> ring ∉ producers h).
Proof.
  assert (Hi : isolated (generations cs)).
  { unfold generations. induction cs as [|c cs IH] using rev_ind.
    - split; simpl; [constructor..| | | | |lia].
      + by intros ring ?%elem_of_nil.
      + done.
      + by intros ring ?%elem_of_nil.
      + by intros ring [= <-].
    - rewrite fold_left_app. by apply isolated_step. }
  destruct (generations cs) as [self h]. destruct Hi. simpl in *. split_and!.
  - done.
  - apply NoDup_app in is_consumers0. tauto.
  - intros ring Hr. apply is_replacement0. apply elem_of_app. by right.
  - intros ring Hr. split; [by apply is_latest0|]. rewrite Hr in is_consumers0. simpl in is_consumers0. apply NoDup_cons in is_consumers0. tauto.
  - intros ring Hr. by apply is_empty0.
Qed.
