(* ===== verification/OpusArchive.v ===== *)
(** * The archive verifier

    [fotw-pipeline/src/opus/complete.rs]: the strict reader that decides whether an
    Ogg Opus file is a complete archive written by this program, which is what
    authorizes the raw audio to be deleted.  A page is read, checked against its
    CRC, its packets are joined across lacing and decoded, and the page clock is
    compared with the audio decoded so far.  libopus is the class [OpusDecoder].

    The reader is a fold over the bytes of the file: a round of [inspect_loop]
    handles one page. *)

From S2P Require Import Prelude Bytes Text.

Local Open Scope Z_scope.

(** ** Constants and errors of [opus.rs] *)

Definition FRAME_MS : Z := 20.
Definition GRANULE_RATE : Z := 48000.
Definition PAGE_INTERVAL_MS : Z := 1000.
Definition SUPPORTED_RATES : list Z := [8000; 12000; 16000; 24000; 48000].
Definition MAX_PACKET_BYTES : Z := 4000.

Inductive OpusError :=
| UnsupportedRate (rate : Z)
| UnsupportedChannels (n : Z)
| Codec (what : string) (code : Z)
| Container (message : string)
| OpusIo (message : string).

Definition supported (rate : Z) : bool := bool_decide (rate ∈ SUPPORTED_RATES).

Record CompleteArchive := mkArchive {
  input_rate_hz : Z;
  pcm_samples_48k : Z;
  packets : Z;
  archive_bytes : Z;
}.

Definition archive_duration_ms (a : CompleteArchive) : Z := pcm_samples_48k a / 48.

(** ** The checksum *)

Definition u32_shl (v : Z) (n : Z) : Z := Z.shiftl v n mod 2 ^ 32.

Fixpoint crc_bits (n : nat) (value : Z) : Z :=
  match n with
  | O => value
  | S n =>
      crc_bits n (if Z.land value 0x80000000 =? 0 then u32_shl value 1
                  else Z.lxor (u32_shl value 1) 0x04c11db7)
  end.

Definition crc_table : list Z := (fun i => crc_bits 8 (u32_shl (Z.of_nat i) 24)) <$> seq 0 256.
Definition CRC : list Z := Eval vm_compute in crc_table.

Definition crc_step (value b : Z) : Z :=
  Z.lxor (u32_shl value 8) (nth (Z.to_nat (Z.lxor (Z.shiftr value 24) b)) CRC 0).

Definition checksum (parts : list bytes) : Z := foldl (fun v part => foldl crc_step v part) 0 parts.

(** ** The comment header *)

Fixpoint bytes_of_string (s : string) : bytes :=
  match s with EmptyString => [] | String a s => byte_val a :: bytes_of_string s end.

Definition slice (bs : bytes) (from to : Z) : bytes := take (Z.to_nat (to - from)) (drop (Z.to_nat from) bs).

(** [bs.get(from..to)]. *)
Definition get_range (bs : bytes) (from to : Z) : option bytes :=
  if (from <=? to) && (to <=? zlen bs) then Some (slice bs from to) else None.

Definition is_tags (packet : bytes) : bool :=
  if (zlen packet <? 16) || negb (bool_decide (slice packet 0 8 = bytes_of_string "OpusTags")) then false
  else
    let vendor := u32_from_le_bytes (slice packet 8 12) in
    match checked_add64 12 vendor with
    | None => false
    | Some end_ =>
        bool_decide (get_range packet end_ (sat_add64 end_ 4) = Some [0; 0; 0; 0])
        && bool_decide (checked_add64 end_ 4 = Some (zlen packet))
    end.

(** ** The decoder *)

Class OpusDecoder := {
  decoder : Type;
  decoder_create : result decoder OpusError;    (* 48 kHz, mono *)
  decode_float : decoder -> bytes -> Z * decoder;   (* samples, or a negative code *)
}.

Definition u64_from_le_bytes (bs : bytes) : Z := foldr (fun b acc => b + 256 * acc) 0 bs.
Definition u16_from_le_bytes (bs : bytes) : Z := foldr (fun b acc => b + 256 * acc) 0 bs.

Section Inspect.
Context `{OpusDecoder}.

Record Inspection := mkInspection {
  i_packet : bytes;
  i_decoder : option decoder;
  i_serial : option Z;
  i_sequence : Z;
  i_packet_index : Z;
  i_decoded : Z;
  i_total_bytes : Z;
  i_input_rate : Z;
  i_skip : Z;
  i_previous_granule : option Z;
  i_ordinary_offset : option Z;
}.

Definition inspection_new : Inspection := mkInspection [] None None 0 0 0 0 0 0 None None.

Definition invalid_archive (message : string) : OpusError := Container message.

(** A complete packet. *)
Definition take_packet (s : Inspection) (packet : bytes) : result Inspection OpusError :=
  let done s := Ok (mkInspection [] (i_decoder s) (i_serial s) (i_sequence s) (wadd (i_packet_index s) 1)
                      (i_decoded s) (i_total_bytes s) (i_input_rate s) (i_skip s)
                      (i_previous_granule s) (i_ordinary_offset s)) in
  if i_packet_index s =? 0 then
    if negb (zlen packet =? 19) || negb (bool_decide (slice packet 0 8 = bytes_of_string "OpusHead"))
       || negb (nth 8 packet 0 =? 1) || negb (nth 9 packet 0 =? 1)
       || negb (bool_decide (slice packet 16 18 = [0; 0])) || negb (nth 18 packet 0 =? 0)
    then Err (invalid_archive "archive is not the supported mono Opus profile")
    else
      let rate := u32_from_le_bytes (slice packet 12 16) in
      if negb (supported rate) then Err (UnsupportedRate rate)
      else
        let skip := u16_from_le_bytes (slice packet 10 12) in
        let? d := decoder_create in
        done (mkInspection (i_packet s) (Some d) (i_serial s) (i_sequence s) (i_packet_index s) (i_decoded s)
                (i_total_bytes s) rate skip (i_previous_granule s) (i_ordinary_offset s))
  else if i_packet_index s =? 1 then
    if is_tags packet then done s else Err (invalid_archive "archive has an unsupported comment header")
  else
    match packet with
    | [] => Err (invalid_archive "archive contains an empty audio packet")
    | _ =>
        match i_decoder s with
        | None => Err (invalid_archive "archive has no decoder header")
        | Some d =>
            let '(n, d) := decode_float d packet in
            if n <? 0 then Err (Codec "opus_decode_float" n)
            else match checked_add64 (i_decoded s) n with
                 | None => Err (invalid_archive "archive sample count overflow")
                 | Some decoded =>
                     done (mkInspection (i_packet s) (Some d) (i_serial s) (i_sequence s) (i_packet_index s)
                             decoded (i_total_bytes s) (i_input_rate s) (i_skip s)
                             (i_previous_granule s) (i_ordinary_offset s))
                 end
        end
    end.

Definition set_packet (s : Inspection) (p : bytes) : Inspection :=
  mkInspection p (i_decoder s) (i_serial s) (i_sequence s) (i_packet_index s) (i_decoded s) (i_total_bytes s)
    (i_input_rate s) (i_skip s) (i_previous_granule s) (i_ordinary_offset s).

(** The lacing of one page: a value of 255 continues its packet. *)
Fixpoint take_laces (s : Inspection) (laces : list Z) (body : bytes) : result Inspection OpusError :=
  match laces with
  | [] => Ok s
  | n :: laces =>
      if MAX_PACKET_BYTES <? zlen (i_packet s) + n
      then Err (invalid_archive "archive packet exceeds supported size")
      else
        let packet := i_packet s ++ take (Z.to_nat n) body in
        let rest := drop (Z.to_nat n) body in
        if n =? 255 then take_laces (set_packet s packet) laces rest
        else let? s := take_packet (set_packet s packet) packet in take_laces s laces rest
  end.

(** [read_exact]. *)
Definition read_exact (n : Z) (bs : bytes) : result (bytes * bytes) OpusError :=
  if zlen bs <? n then Err (OpusIo "failed to fill whole buffer")
  else Ok (take (Z.to_nat n) bs, drop (Z.to_nat n) bs).

Definition flag (flags bit : Z) : bool := negb (Z.land flags bit =? 0).

(** After the packets of a page: [Err], the next page, or the verdict. *)
Definition page_clock (before flags granule : Z) (s : Inspection) (rest : bytes)
  : result (Inspection + CompleteArchive) OpusError :=
  let eos := flag flags 4 in
  let partial := negb (bool_decide (i_packet s = [])) in
  if before <? 2 then
    if negb (i_packet_index s =? before + 1) || partial || eos || negb (granule =? 0)
    then Err (invalid_archive "invalid archive header page") else Ok (inl s)
  else if i_packet_index s =? before then
    if eos || negb (granule =? u64_max) then Err (invalid_archive "archive page has no completed packet")
    else Ok (inl s)
  else if (granule =? u64_max) || is_some_and (i_previous_granule s) (fun old => granule <? old)
  then Err (invalid_archive "archive granule position regressed")
  else
    let s := mkInspection (i_packet s) (i_decoder s) (i_serial s) (i_sequence s) (i_packet_index s) (i_decoded s)
               (i_total_bytes s) (i_input_rate s) (i_skip s) (Some granule) (i_ordinary_offset s) in
    if negb eos then
      match checked_sub granule (i_decoded s) with
      | None => Err (invalid_archive "archive page precedes decoded audio")
      | Some delta =>
          if (negb (delta =? 0) && negb (delta =? i_skip s))
             || is_some_and (i_ordinary_offset s) (fun old => negb (old =? delta))
          then Err (invalid_archive "archive ordinary page clock is inconsistent")
          else Ok (inl (mkInspection (i_packet s) (i_decoder s) (i_serial s) (i_sequence s) (i_packet_index s)
                          (i_decoded s) (i_total_bytes s) (i_input_rate s) (i_skip s)
                          (i_previous_granule s) (Some delta)))
      end
    else if partial || (granule <? i_skip s) || (i_decoded s <? granule)
    then Err (invalid_archive "archive end is not backed by decoded audio")
    else
      let pcm := granule - i_skip s in
      if negb (pcm mod (GRANULE_RATE / i_input_rate s) =? 0)
      then Err (invalid_archive "archive end is not aligned to its encoder sample rate")
      else match rest with
           | [] => Ok (inr (mkArchive (i_input_rate s) pcm (i_packet_index s - 2) (i_total_bytes s)))
           | _ => Err (invalid_archive "archive has data after end-of-stream")
           end.

(** The fixed part of a page. *)
Definition check_header (s : Inspection) (header : bytes) : result unit OpusError :=
  let flags := nth 5 header 0 in
  let page_serial := u32_from_le_bytes (slice header 14 18) in
  let page_sequence := u32_from_le_bytes (slice header 18 22) in
  if negb (bool_decide (slice header 0 4 = bytes_of_string "OggS")) || negb (nth 4 header 0 =? 0)
     || negb (Z.land flags (Z.lnot 7) =? 0) || (nth 26 header 0 =? 0)
  then Err (invalid_archive "invalid Ogg page header")
  else if negb (page_sequence =? i_sequence s)
     || is_some_and (i_serial s) (fun x => negb (x =? page_serial))
     || negb (Bool.eqb (flag flags 2) (negb (is_some (i_serial s))))
  then Err (invalid_archive "archive stream identity or page sequence changed")
  else if Bool.eqb (flag flags 1) (bool_decide (i_packet s = []))
  then Err (invalid_archive "archive packet continuation is inconsistent")
  else Ok tt.

(** The page with its checksum blanked is what the checksum covers. *)
Definition blank_checksum (header : bytes) : bytes := take 22 header ++ [0; 0; 0; 0] ++ drop 26 header.

(** The whole page, read. *)
Definition check_page (s : Inspection) (header laces body rest : bytes)
  : result ((Inspection * bytes) + CompleteArchive) OpusError :=
  let expected := u32_from_le_bytes (slice header 22 26) in
  if negb (checksum [blank_checksum header; laces; body] =? expected)
  then Err (invalid_archive "archive Ogg page checksum mismatch")
  else match checked_add64 (i_total_bytes s) (27 + nth 26 header 0 + zsum laces) with
  | None => Err (invalid_archive "archive byte count overflow")
  | Some total =>
      let s := mkInspection (i_packet s) (i_decoder s) (Some (u32_from_le_bytes (slice header 14 18)))
                 ((i_sequence s + 1) mod 2 ^ 32) (i_packet_index s) (i_decoded s) total (i_input_rate s)
                 (i_skip s) (i_previous_granule s) (i_ordinary_offset s) in
      let before := i_packet_index s in
      let? s := take_laces s laces body in
      let granule := u64_from_le_bytes (slice header 6 14) in
      let? r := page_clock before (nth 5 header 0) granule s rest in
      match r with
      | inl s => Ok (inl (s, rest))
      | inr a => Ok (inr a)
      end
  end.

(** One page. *)
Definition inspect_page (s : Inspection) (bs : bytes)
  : result ((Inspection * bytes) + CompleteArchive) OpusError :=
  match bs with
  | [] => Err (invalid_archive "archive has no complete end-of-stream")
  | _ =>
      let? (header, bs) := read_exact 27 bs in
      let? _ := check_header s header in
      let? (laces, bs) := read_exact (nth 26 header 0) bs in
      let? (body, bs) := read_exact (zsum laces) bs in
      check_page s header laces body bs
  end.

(** The loop: a page is at least 28 bytes, so the length of the file is fuel. *)
Fixpoint inspect_loop (fuel : nat) (s : Inspection) (bs : bytes) : option (result CompleteArchive OpusError) :=
  match fuel with
  | O => None
  | S fuel =>
      match inspect_page s bs with
      | Err e => Some (Err e)
      | Ok (inr a) => Some (Ok a)
      | Ok (inl (s, bs)) => inspect_loop fuel s bs
      end
  end.

Definition inspect_complete_archive (bs : bytes) : option (result CompleteArchive OpusError) :=
  inspect_loop (S (length bs)) inspection_new bs.

End Inspect.

(** ** The checksum is a polynomial remainder *)

(** The multiples of the generator, as bit strings over the field of two
    elements: sums of its shifts. *)
Definition GENERATOR : Z := 2 ^ 32 + 0x04c11db7.

Inductive gf2_multiple : Z -> Prop :=
| gf2_generator : gf2_multiple GENERATOR
| gf2_zero : gf2_multiple 0
| gf2_shift x n : 0 <= n -> gf2_multiple x -> gf2_multiple (Z.shiftl x n)
| gf2_add x y : gf2_multiple x -> gf2_multiple y -> gf2_multiple (Z.lxor x y).

(** The bytes as one bit string, first byte most significant. *)
Definition message (bs : bytes) : Z := foldl (fun m b => Z.lxor (Z.shiftl m 8) b) 0 bs.

Definition crc_bit (v : Z) : Z :=
  if Z.land v 0x80000000 =? 0 then u32_shl v 1 else Z.lxor (u32_shl v 1) 0x04c11db7.

Lemma crc_bits_S n v : crc_bits (S n) v = crc_bits n (crc_bit v).
Proof. done. Qed.

Lemma mod_bit k x i : 0 <= k -> Z.testbit (x mod 2 ^ k) i = Z.testbit x i && (i <? k).
Proof.
  intros Hk. destruct (Z.ltb_spec i k).
  - rewrite Z.mod_pow2_bits_low by lia. by rewrite andb_true_r.
  - rewrite Z.mod_pow2_bits_high by lia. by rewrite andb_false_r.
Qed.

Lemma lxor_mod k a b : 0 <= k -> Z.lxor a b mod 2 ^ k = Z.lxor (a mod 2 ^ k) (b mod 2 ^ k).
Proof.
  intros Hk. apply Z.bits_inj'. intros i Hi.
  rewrite Z.lxor_spec, !mod_bit, Z.lxor_spec by lia.
  destruct (Z.testbit a i), (Z.testbit b i), (i <? k); done.
Qed.

Lemma lxor_bits_range k a b : 0 <= k -> 0 <= a < 2 ^ k -> 0 <= b < 2 ^ k -> 0 <= Z.lxor a b < 2 ^ k.
Proof.
  intros Hk Ha Hb.
  replace (Z.lxor a b) with (Z.lxor a b mod 2 ^ k); [apply Z.mod_pos_bound; lia|].
  rewrite lxor_mod by lia. by rewrite !Z.mod_small by lia.
Qed.

Lemma u32_shl_range v n : 0 <= u32_shl v n < 2 ^ 32.
Proof. apply Z.mod_pos_bound. lia. Qed.

Lemma u32_shl_lxor a b n : u32_shl (Z.lxor a b) n = Z.lxor (u32_shl a n) (u32_shl b n).
Proof. unfold u32_shl. by rewrite Z.shiftl_lxor, lxor_mod by lia. Qed.

Lemma top_bit v : (Z.land v 0x80000000 =? 0) = negb (Z.testbit v 31).
Proof.
  change 0x80000000 with (2 ^ 31).
  destruct (Z.testbit v 31) eqn:Hb; simpl.
  - apply Z.eqb_neq. intros H0. assert (Z.testbit (Z.land v (2 ^ 31)) 31 = false) as H by (by rewrite H0, Z.bits_0).
    by rewrite Z.land_spec, Hb, Z.pow2_bits_true in H by lia.
  - apply Z.eqb_eq. apply Z.bits_inj'. intros i Hi. rewrite Z.land_spec, Z.bits_0.
    destruct (decide (i = 31)) as [->|]; [by rewrite Hb|].
    by rewrite Z.pow2_bits_false, andb_false_r by lia.
Qed.

Lemma crc_bit_eq v : crc_bit v = Z.lxor (u32_shl v 1) (if Z.testbit v 31 then 0x04c11db7 else 0).
Proof.
  unfold crc_bit. rewrite top_bit. destruct (Z.testbit v 31); [done|]. by rewrite Z.lxor_0_r.
Qed.

Lemma crc_bit_range v : 0 <= crc_bit v < 2 ^ 32.
Proof.
  rewrite crc_bit_eq. apply lxor_bits_range; [lia | apply u32_shl_range | destruct (Z.testbit v 31); lia].
Qed.

Lemma crc_bits_range n v : 0 <= v < 2 ^ 32 -> 0 <= crc_bits n v < 2 ^ 32.
Proof. revert v. induction n as [|n IH]; intros v Hv; [done|]. rewrite crc_bits_S. apply IH, crc_bit_range. Qed.

Lemma crc_bit_lxor a b : crc_bit (Z.lxor a b) = Z.lxor (crc_bit a) (crc_bit b).
Proof.
  rewrite !crc_bit_eq, u32_shl_lxor, Z.lxor_spec.
  destruct (Z.testbit a 31), (Z.testbit b 31); simpl; rewrite ?Z.lxor_0_r; try done.
  - rewrite (Z.lxor_comm (u32_shl b 1)), Z.lxor_assoc, <-(Z.lxor_assoc _ _ (u32_shl b 1)).
    by rewrite Z.lxor_nilpotent, Z.lxor_0_l.
  - rewrite Z.lxor_assoc, (Z.lxor_comm (u32_shl b 1)), <-Z.lxor_assoc. by rewrite Z.lxor_assoc, (Z.lxor_comm _ (u32_shl b 1)), <-Z.lxor_assoc.
  - by rewrite Z.lxor_assoc.
Qed.

Lemma crc_bits_lxor n a b : crc_bits n (Z.lxor a b) = Z.lxor (crc_bits n a) (crc_bits n b).
Proof. revert a b. induction n as [|n IH]; intros a b; [done|]. by rewrite !crc_bits_S, crc_bit_lxor, IH. Qed.

(** With the top bits clear, a bit step only shifts. *)
Lemma crc_bits_low n v : 0 <= v < 2 ^ (32 - Z.of_nat n) -> (n <= 32)%nat -> crc_bits n v = Z.shiftl v (Z.of_nat n).
Proof.
  revert v. induction n as [|n IH]; intros v Hv Hn; [by rewrite Z.shiftl_0_r|].
  rewrite crc_bits_S.
  assert (v < 2 ^ 31) by (eapply Z.lt_le_trans; [apply Hv | apply Z.pow_le_mono_r; lia]).
  assert (crc_bit v = 2 * v) as ->.
  { rewrite crc_bit_eq.
    assert (Z.testbit v 31 = false) as ->.
    { rewrite <-(Z.mod_small v (2 ^ 31)), mod_bit by lia. by rewrite andb_false_r. }
    rewrite Z.lxor_0_r. unfold u32_shl. rewrite Z.shiftl_mul_pow2 by lia. rewrite Z.mod_small; lia. }
  rewrite IH; [|split; [lia|]|lia].
  - rewrite !Z.shiftl_mul_pow2 by lia. rewrite Nat2Z.inj_succ, Z.pow_succ_r by lia. lia.
  - replace (32 - Z.of_nat n) with (Z.succ (32 - Z.of_nat (S n))) by lia. rewrite Z.pow_succ_r by lia. lia.
Qed.

Lemma CRC_eq : CRC = crc_table.
Proof. vm_compute. reflexivity. Qed.

Lemma CRC_lookup i : 0 <= i < 256 -> nth (Z.to_nat i) CRC 0 = crc_bits 8 (u32_shl i 24).
Proof.
  intros Hi. rewrite CRC_eq. apply nth_lookup_Some. unfold crc_table.
  rewrite list_lookup_fmap, lookup_seq_lt by lia. cbn [fmap option_fmap option_map Nat.add]. by rewrite Z2Nat.id by lia.
Qed.

Lemma high_low v : 0 <= v < 2 ^ 32 -> v = Z.lxor (u32_shl (Z.shiftr v 24) 24) (v mod 2 ^ 24).
Proof.
  intros Hv. apply Z.bits_inj'. intros i Hi. unfold u32_shl.
  rewrite Z.lxor_spec, !mod_bit by lia. rewrite Z.shiftl_spec by lia.
  destruct (Z.ltb_spec i 24).
  - rewrite (Z.testbit_neg_r _ (i - 24)) by lia. by rewrite andb_true_r.
  - rewrite Z.shiftr_spec by lia. replace (i - 24 + 24) with i by lia. rewrite andb_false_r, xorb_false_r.
    destruct (Z.ltb_spec i 32); [by rewrite andb_true_r|].
    rewrite andb_false_r. rewrite <-(Z.mod_small v (2 ^ 32)), mod_bit by lia.
    rewrite (proj2 (Z.ltb_ge i 32)) by lia. by rewrite andb_false_r.
Qed.

Lemma shiftr_24_byte v : 0 <= v < 2 ^ 32 -> 0 <= Z.shiftr v 24 < 256.
Proof. intros. rewrite Z.shiftr_div_pow2 by lia. split; [apply Z.div_pos; lia | apply Z.div_lt_upper_bound; lia]. Qed.

(** One table lookup is eight bit steps. *)
Lemma crc_step_bits v b :
  0 <= v < 2 ^ 32 -> is_byte b -> crc_step v b = crc_bits 8 (Z.lxor v (u32_shl b 24)).
Proof.
  unfold is_byte. intros Hv Hb. unfold crc_step. pose proof (shiftr_24_byte v Hv).
  rewrite CRC_lookup by (change 256 with (2 ^ 8); apply lxor_bits_range; lia).
  rewrite (high_low v) at 3 by done.
  rewrite Z.lxor_assoc, (Z.lxor_comm (v mod 2 ^ 24)), <-Z.lxor_assoc, <-u32_shl_lxor.
  rewrite crc_bits_lxor, (crc_bits_low 8 (v mod 2 ^ 24)) by (try lia; apply Z.mod_pos_bound; lia).
  rewrite Z.lxor_comm. f_equal. unfold u32_shl. rewrite !Z.shiftl_mul_pow2 by lia.
  change (2 ^ 32) with (2 ^ 24 * 2 ^ 8). change (Z.of_nat 8) with 8.
  by rewrite Z.mul_mod_distr_r by lia.
Qed.

Lemma crc_step_range v b : 0 <= v < 2 ^ 32 -> is_byte b -> 0 <= crc_step v b < 2 ^ 32.
Proof.
  intros Hv Hb. rewrite crc_step_bits by done. apply crc_bits_range, lxor_bits_range; [lia | done | apply u32_shl_range].
Qed.

(** What [n] bit steps take away is a multiple of the generator. *)
Lemma crc_bit_multiple v : 0 <= v < 2 ^ 32 -> gf2_multiple (Z.lxor (Z.shiftl v 1) (crc_bit v)).
Proof.
  intros Hv. rewrite crc_bit_eq, <-Z.lxor_assoc.
  assert (Z.lxor (Z.shiftl v 1) (u32_shl v 1) = if Z.testbit v 31 then 2 ^ 32 else 0) as ->.
  { apply Z.bits_inj'. intros i Hi. unfold u32_shl. rewrite Z.lxor_spec, mod_bit, Z.shiftl_spec by lia.
    destruct (Z.ltb_spec i 32).
    - rewrite andb_true_r, xorb_nilpotent. destruct (Z.testbit v 31); [by rewrite Z.pow2_bits_false by lia | by rewrite Z.bits_0].
    - rewrite andb_false_r, xorb_false_r. destruct (decide (i = 32)) as [->|].
      + change (32 - 1) with 31. destruct (Z.testbit v 31); [by rewrite Z.pow2_bits_true by lia | done].
      + rewrite <-(Z.mod_small v (2 ^ 32)), mod_bit by lia. rewrite (proj2 (Z.ltb_ge _ _)) by lia. rewrite andb_false_r.
        destruct (Z.testbit _ 31); [by rewrite Z.pow2_bits_false by lia | by rewrite Z.bits_0]. }
  destruct (Z.testbit v 31); [apply gf2_generator | apply gf2_zero].
Qed.

Lemma crc_bits_multiple n v : 0 <= v < 2 ^ 32 -> gf2_multiple (Z.lxor (Z.shiftl v (Z.of_nat n)) (crc_bits n v)).
Proof.
  revert v. induction n as [|n IH]; intros v Hv.
  - rewrite Z.shiftl_0_r. simpl. rewrite Z.lxor_nilpotent. constructor.
  - rewrite crc_bits_S. set (c := crc_bit v).
    replace (Z.lxor (Z.shiftl v (Z.of_nat (S n))) (crc_bits n c)) with
      (Z.lxor (Z.shiftl (Z.lxor (Z.shiftl v 1) c) (Z.of_nat n)) (Z.lxor (Z.shiftl c (Z.of_nat n)) (crc_bits n c))).
    + apply gf2_add; [apply gf2_shift; [lia | by apply crc_bit_multiple] | apply IH, crc_bit_range].
    + rewrite Z.shiftl_lxor, Z.shiftl_shiftl by lia. replace (1 + Z.of_nat n) with (Z.of_nat (S n)) by lia.
      rewrite Z.lxor_assoc, <-(Z.lxor_assoc (Z.shiftl c _)), Z.lxor_nilpotent. by rewrite Z.lxor_0_l.
Qed.

Lemma crc_fold_range v bs : 0 <= v < 2 ^ 32 -> Forall is_byte bs -> 0 <= foldl crc_step v bs < 2 ^ 32.
Proof. intros Hv Hbs. revert v Hv. induction Hbs as [|b bs Hb _ IH]; intros v Hv; [done|]. by apply IH, crc_step_range. Qed.

Lemma crc_fold_remainder bs m v :
  0 <= v < 2 ^ 32 -> Forall is_byte bs -> gf2_multiple (Z.lxor (Z.shiftl m 32) v) ->
  gf2_multiple (Z.lxor (Z.shiftl (foldl (fun m b => Z.lxor (Z.shiftl m 8) b) m bs) 32) (foldl crc_step v bs)).
Proof.
  intros Hv Hbs. revert m v Hv. induction Hbs as [|b bs Hb _ IH]; intros m v Hv Hm; [done|].
  apply (IH (Z.lxor (Z.shiftl m 8) b) (crc_step v b)); [by apply crc_step_range|].
  rewrite crc_step_bits by done. set (x := Z.lxor v (u32_shl b 24)).
  assert (0 <= x < 2 ^ 32) as Hx by (apply lxor_bits_range; [lia | done | apply u32_shl_range]).
  replace (Z.lxor (Z.shiftl (Z.lxor (Z.shiftl m 8) b) 32) (crc_bits 8 x)) with
    (Z.lxor (Z.shiftl (Z.lxor (Z.shiftl m 32) v) 8) (Z.lxor (Z.shiftl x (Z.of_nat 8)) (crc_bits 8 x))).
  - apply gf2_add; [apply gf2_shift; [lia | done] | by apply crc_bits_multiple].
  - unfold x. rewrite !Z.shiftl_lxor, !Z.shiftl_shiftl by lia. change (Z.of_nat 8) with 8.
    assert (u32_shl b 24 = Z.shiftl b 24) as ->.
    { unfold u32_shl, is_byte in *. rewrite Z.shiftl_mul_pow2 by lia. rewrite Z.mod_small by lia. done. }
    rewrite Z.shiftl_shiftl by lia. simpl Z.add.
    rewrite !Z.lxor_assoc. f_equal. by rewrite <-!Z.lxor_assoc, Z.lxor_nilpotent, Z.lxor_0_l.
Qed.

Lemma checksum_concat parts : checksum parts = foldl crc_step 0 (concat parts).
Proof.
  unfold checksum. generalize 0. induction parts as [|p parts IH]; intros v; [done|]. simpl. by rewrite IH, foldl_app.
Qed.

(** ** One corrupted byte is always seen *)

Lemma CRC_low_bytes_distinct : NoDup ((fun x => x mod 256) <$> CRC).
Proof. apply (bool_decide_unpack _). vm_compute. exact I. Qed.

Lemma crc_index v b : 0 <= v < 2 ^ 32 -> is_byte b -> (Z.to_nat (Z.lxor (Z.shiftr v 24) b) < length CRC)%nat.
Proof.
  unfold is_byte. intros Hv Hb. pose proof (shiftr_24_byte v Hv). change (length CRC) with 256%nat.
  assert (0 <= Z.lxor (Z.shiftr v 24) b < 2 ^ 8) by (apply lxor_bits_range; lia). lia.
Qed.

(** A step determines its table index, hence both its inputs given one of them. *)
Lemma crc_step_inj v v' b b' :
  0 <= v < 2 ^ 32 -> 0 <= v' < 2 ^ 32 -> is_byte b -> is_byte b' -> crc_step v b = crc_step v' b' ->
  Z.lxor (Z.shiftr v 24) b = Z.lxor (Z.shiftr v' 24) b' /\ v mod 2 ^ 24 = v' mod 2 ^ 24.
Proof.
  intros Hv Hv' Hb Hb' Heq. unfold crc_step in Heq.
  set (i := Z.lxor (Z.shiftr v 24) b) in *. set (i' := Z.lxor (Z.shiftr v' 24) b') in *.
  assert (Hlow : forall x, u32_shl x 8 mod 256 = 0).
  { intros x. unfold u32_shl. rewrite Z.shiftl_mul_pow2 by lia. change (2 ^ 32) with (2 ^ 24 * 256).
    change (2 ^ 8) with 256. rewrite Z.mul_mod_distr_r by lia. by rewrite Z.mod_mul by lia. }
  assert (Ht : forall x y, Z.lxor (u32_shl x 8) y mod 256 = y mod 256).
  { intros x y. change 256 with (2 ^ 8). rewrite lxor_mod by lia. change (2 ^ 8) with 256.
    by rewrite Hlow, Z.lxor_0_l. }
  assert (Hi : Z.to_nat i = Z.to_nat i').
  { eapply NoDup_lookup; [apply CRC_low_bytes_distinct| |]; rewrite list_lookup_fmap.
    - destruct (nth_lookup_or_length CRC (Z.to_nat i) 0) as [->|]; [reflexivity | by pose proof (crc_index v b Hv Hb); lia].
    - destruct (nth_lookup_or_length CRC (Z.to_nat i') 0) as [->|]; [|by pose proof (crc_index v' b' Hv' Hb'); lia].
      cbn [fmap option_fmap option_map]. f_equal.
      pose proof (Ht v (nth (Z.to_nat i) CRC 0)) as E1. rewrite Heq, Ht in E1. done. }
  rewrite Hi in Heq.
  assert (0 <= i /\ 0 <= i') as [? ?].
  { unfold is_byte in *. pose proof (shiftr_24_byte v Hv). pose proof (shiftr_24_byte v' Hv').
    unfold i, i'. split; apply Z.lxor_nonneg; lia. }
  split; [lia|].
  assert (u32_shl v 8 = u32_shl v' 8) as Hs.
  { rewrite <-(Z.lxor_0_r (u32_shl v 8)), <-(Z.lxor_0_r (u32_shl v' 8)).
    rewrite <-(Z.lxor_nilpotent (nth (Z.to_nat i') CRC 0)), <-!Z.lxor_assoc. by rewrite Heq. }
  unfold u32_shl in Hs. rewrite !Z.shiftl_mul_pow2 in Hs by lia. change (2 ^ 32) with (2 ^ 24 * 2 ^ 8) in Hs.
  rewrite !Z.mul_mod_distr_r in Hs by lia. lia.
Qed.

Lemma crc_step_value_inj v v' b :
  0 <= v < 2 ^ 32 -> 0 <= v' < 2 ^ 32 -> is_byte b -> crc_step v b = crc_step v' b -> v = v'.
Proof.
  intros Hv Hv' Hb Heq. destruct (crc_step_inj v v' b b) as [Hi Hm]; try done.
  assert (Z.shiftr v 24 = Z.shiftr v' 24) as Hh.
  { rewrite <-(Z.lxor_0_r (Z.shiftr v 24)), <-(Z.lxor_0_r (Z.shiftr v' 24)).
    rewrite <-(Z.lxor_nilpotent b), <-!Z.lxor_assoc. by rewrite Hi. }
  by rewrite (high_low v), (high_low v'), Hh, Hm by done.
Qed.

Lemma crc_fold_inj v v' bs :
  0 <= v < 2 ^ 32 -> 0 <= v' < 2 ^ 32 -> Forall is_byte bs -> foldl crc_step v bs = foldl crc_step v' bs -> v = v'.
Proof.
  intros Hv Hv' Hbs. revert v v' Hv Hv'. induction Hbs as [|b bs Hb _ IH]; intros v v' Hv Hv' Heq; [done|].
  apply (crc_step_value_inj v v' b); [done..|]. by apply IH; [apply crc_step_range..|].
Qed.

Lemma crc_one_byte pre b b' post :
  Forall is_byte (pre ++ b :: post) -> is_byte b' -> b <> b' ->
  foldl crc_step 0 (pre ++ b :: post) <> foldl crc_step 0 (pre ++ b' :: post).
Proof.
  intros Hall Hb' Hne Heq. apply Forall_app in Hall as [Hpre Hall]. apply Forall_cons in Hall as [Hb Hpost].
  rewrite !foldl_app in Heq. simpl in Heq.
  pose proof (crc_fold_range 0 pre ltac:(lia) Hpre) as Hv.
  apply crc_fold_inj in Heq; [|by apply crc_step_range..|done].
  apply crc_step_inj in Heq as [Hi _]; [|done..].
  apply Hne. set (h := Z.shiftr _ 24) in Hi.
  by rewrite <-(Z.lxor_0_l b), <-(Z.lxor_0_l b'), <-(Z.lxor_nilpotent h), !Z.lxor_assoc, Hi.
Qed.

(** ** What the verifier accepts *)

Section Accepts.
Context `{OpusDecoder}.

Lemma read_exact_inv n bs x rest :
  0 <= n -> read_exact n bs = Ok (x, rest) -> bs = x ++ rest /\ zlen x = n.
Proof.
  unfold read_exact, zlen. intros Hn. destruct (Z.ltb_spec (Z.of_nat (length bs)) n); [done|]. intros [= <- <-].
  split; [by rewrite take_drop | rewrite length_take; lia].
Qed.

Lemma read_exact_app n x rest : zlen x = n -> read_exact n (x ++ rest) = Ok (x, rest).
Proof.
  unfold read_exact, zlen. intros <-. rewrite length_app, (proj2 (Z.ltb_ge _ _)) by lia.
  by rewrite Nat2Z.id, take_app_length, drop_app_length.
Qed.

Lemma read_exact_short n bs : zlen bs < n -> exists e, read_exact n bs = Err e.
Proof. unfold read_exact. intros. rewrite (proj2 (Z.ltb_lt _ _)) by lia. eauto. Qed.

(** A page read off the front of a file, whole. *)
Definition is_page (header laces body : bytes) : Prop :=
  zlen header = 27 /\ nth 26 header 0 = zlen laces /\ zlen body = zsum laces.

Lemma inspect_page_form s header laces body rest :
  is_page header laces body ->
  inspect_page s (header ++ laces ++ body ++ rest) =
    (let? _ := check_header s header in check_page s header laces body rest).
Proof.
  intros (H27 & Hl & Hb). unfold inspect_page.
  destruct (header ++ laces ++ body ++ rest) as [|x bs] eqn:Hbs.
  { destruct header; [by unfold zlen in H27 | done]. }
  rewrite <-Hbs, read_exact_app by done. simpl. destruct (check_header s header) as [[]|e]; [|done]. simpl.
  rewrite read_exact_app by done. simpl. by rewrite read_exact_app by done.
Qed.

Lemma nth_byte i bs : Forall is_byte bs -> 0 <= nth i bs 0.
Proof.
  intros Hb. destruct (nth_lookup_or_length bs i 0) as [Hl|Hl].
  - apply (Forall_lookup_1 _ _ _ _ Hb Hl).
  - by rewrite nth_overflow by lia.
Qed.

Lemma zsum_bytes bs : Forall is_byte bs -> 0 <= zsum bs.
Proof. intros Hb. apply zsum_nonneg. eapply Forall_impl; [apply Hb|]. unfold is_byte. lia. Qed.

Lemma inspect_page_inv s bs r :
  Forall is_byte bs -> inspect_page s bs = Ok r ->
  exists header laces body rest,
    bs = header ++ laces ++ body ++ rest /\ is_page header laces body /\ nth 26 header 0 <> 0 /\
    check_header s header = Ok tt /\ check_page s header laces body rest = Ok r.
Proof.
  intros Hb. unfold inspect_page. destruct bs as [|x bs']; [done|]. set (bs := x :: bs') in *.
  destruct (read_exact 27 bs) as [[header r1]|] eqn:H1; [|done]. simpl.
  apply read_exact_inv in H1 as [-> H27]; [|lia]. apply Forall_app in Hb as [Hh Hb].
  destruct (check_header s header) as [[]|] eqn:Hc; [|done]. simpl.
  destruct (read_exact _ r1) as [[laces r2]|] eqn:H2; [|done]. simpl.
  apply read_exact_inv in H2 as [-> Hl]; [|by apply nth_byte]. apply Forall_app in Hb as [Hlb Hb].
  destruct (read_exact _ r2) as [[body rest]|] eqn:H3; [|done]. simpl.
  apply read_exact_inv in H3 as [-> Hbd]; [|by apply zsum_bytes]. intros Hr.
  exists header, laces, body, rest. split_and!; try done.
  intros H0. unfold check_header in Hc. rewrite H0, !orb_true_r in Hc. done.
Qed.

Lemma take_packet_total s p s' : take_packet s p = Ok s' -> i_total_bytes s' = i_total_bytes s.
Proof.
  unfold take_packet. intros Hs. repeat case_match; simplify_eq/=; try done.
  destruct decoder_create; [|done]. by simplify_eq/=.
Qed.

Lemma take_laces_total s laces body s' : take_laces s laces body = Ok s' -> i_total_bytes s' = i_total_bytes s.
Proof.
  revert s body. induction laces as [|n laces IH]; intros s body; simpl; [by intros [= <-]|].
  case_match; [done|]. case_match.
  - intros Hs. by rewrite (IH _ _ Hs).
  - destruct (take_packet _ _) as [s1|] eqn:Hp; [|done]. simpl. intros Hs.
    by rewrite (IH _ _ Hs), (take_packet_total _ _ _ Hp).
Qed.

(** A page that is not the last is judged without looking past it; the last one
    is accepted only at the end of the file. *)
Lemma page_clock_next before flags granule s rest s' :
  page_clock before flags granule s rest = Ok (inl s') ->
  i_total_bytes s' = i_total_bytes s /\ forall rest2, page_clock before flags granule s rest2 = Ok (inl s').
Proof. unfold page_clock. intros Hs. repeat case_match; simplify_eq/=; by split. Qed.

Lemma page_clock_last before flags granule s rest a :
  page_clock before flags granule s rest = Ok (inr a) ->
  rest = [] /\ archive_bytes a = i_total_bytes s /\
  (forall rest2, rest2 <> [] -> exists e, page_clock before flags granule s rest2 = Err e) /\
  pcm_samples_48k a = granule - i_skip s /\ i_skip s <= granule <= i_decoded s /\
  (pcm_samples_48k a) mod (GRANULE_RATE / i_input_rate s) = 0 /\ input_rate_hz a = i_input_rate s.
Proof.
  unfold page_clock. intros Hs. repeat case_match; simplify_eq/=.
  repeat match goal with H : _ || _ = false |- _ => apply orb_false_iff in H as [? ?] end.
  repeat match goal with H : negb _ = false |- _ => apply negb_false_iff in H end.
  split_and!; try done; try lia. intros [|x rest2] Hne; [done|]. eauto.
Qed.

Lemma check_page_next s header laces body rest s' rest' :
  check_page s header laces body rest = Ok (inl (s', rest')) ->
  rest' = rest /\ i_total_bytes s' = i_total_bytes s + (27 + nth 26 header 0 + zsum laces) /\
  forall rest2, check_page s header laces body rest2 = Ok (inl (s', rest2)).
Proof.
  unfold check_page. case_match; [done|]. destruct (checked_add64 _ _) as [total|] eqn:Ht; [|done].
  destruct (take_laces _ laces body) as [s1|] eqn:Hl; [|done]. apply take_laces_total in Hl. simpl in *.
  destruct (page_clock _ _ _ s1 rest) as [[s2|a]|] eqn:Hc; [|done..]. simpl. intros [= <- <-].
  apply page_clock_next in Hc as [Htot Hc]. split; [done|]. split.
  - unfold checked_add64 in Ht. case_match; [|done]. simplify_eq. lia.
  - intros rest2. by rewrite Hc.
Qed.

Lemma check_page_last s header laces body rest a :
  check_page s header laces body rest = Ok (inr a) ->
  rest = [] /\ archive_bytes a = i_total_bytes s + (27 + nth 26 header 0 + zsum laces) /\
  forall rest2, rest2 <> [] -> exists e, check_page s header laces body rest2 = Err e.
Proof.
  unfold check_page. case_match; [done|]. destruct (checked_add64 _ _) as [total|] eqn:Ht; [|done].
  destruct (take_laces _ laces body) as [s1|] eqn:Hl; [|done]. apply take_laces_total in Hl. simpl in *.
  destruct (page_clock _ _ _ s1 rest) as [[s2|a']|] eqn:Hc; [done| |done]. simpl. intros [= <-].
  apply page_clock_last in Hc as (-> & Hb & Hc & _). split; [done|]. split.
  - unfold checked_add64 in Ht. case_match; [|done]. simplify_eq. lia.
  - intros rest2 Hne. destruct (Hc rest2 Hne) as [e ->]. by exists e.
Qed.

Lemma is_page_len header laces body :
  is_page header laces body -> zlen (header ++ laces ++ body) = 27 + nth 26 header 0 + zsum laces.
Proof. intros (? & ? & ?). rewrite !zlen_app. lia. Qed.

Lemma inspect_page_next s bs s' rest :
  Forall is_byte bs -> inspect_page s bs = Ok (inl (s', rest)) ->
  exists page, bs = page ++ rest /\ page <> [] /\ i_total_bytes s' = i_total_bytes s + zlen page /\
    forall rest2, inspect_page s (page ++ rest2) = Ok (inl (s', rest2)).
Proof.
  intros Hb Hp. apply inspect_page_inv in Hp as (h & l & bd & r & -> & Hpg & _ & Hh & Hc); [|done].
  apply check_page_next in Hc as (<- & Ht & Hc).
  exists (h ++ l ++ bd). rewrite <-!app_assoc. split; [done|]. split; [|split].
  - destruct Hpg as [Hz _]. destruct h; [by unfold zlen in Hz | done].
  - by rewrite is_page_len.
  - intros rest2. rewrite <-!app_assoc, inspect_page_form, Hh by done. apply Hc.
Qed.

Lemma inspect_page_last s bs a :
  Forall is_byte bs -> inspect_page s bs = Ok (inr a) ->
  archive_bytes a = i_total_bytes s + zlen bs /\
  forall rest, rest <> [] -> exists e, inspect_page s (bs ++ rest) = Err e.
Proof.
  intros Hb Hp. apply inspect_page_inv in Hp as (h & l & bd & r & -> & Hpg & _ & Hh & Hc); [|done].
  apply check_page_last in Hc as (-> & Ht & Hc).
  rewrite !app_nil_r. split; [by rewrite is_page_len|].
  intros rest Hne. rewrite <-!app_assoc, inspect_page_form, Hh by done. by apply Hc.
Qed.

(** More fuel than pages never matters. *)
Lemma inspect_loop_total fuel s bs :
  Forall is_byte bs -> (length bs < fuel)%nat -> inspect_loop fuel s bs <> None.
Proof.
  revert s bs. induction fuel as [|fuel IH]; intros s bs Hb Hf; [lia|]. simpl.
  destruct (inspect_page s bs) as [[[s' rest]|a]|e] eqn:Hp; [|done..].
  apply inspect_page_next in Hp as (page & -> & Hne & _); [|done].
  apply Forall_app in Hb as [_ Hb]. apply IH; [done|]. rewrite length_app in Hf. destruct page; [done | simpl in Hf; lia].
Qed.

Lemma inspect_loop_accepts fuel s bs a :
  Forall is_byte bs -> inspect_loop fuel s bs = Some (Ok a) ->
  archive_bytes a = i_total_bytes s + zlen bs /\
  forall fuel2 more, more <> [] -> (length (bs ++ more) < fuel2)%nat ->
    exists e, inspect_loop fuel2 s (bs ++ more) = Some (Err e).
Proof.
  revert s bs. induction fuel as [|fuel IH]; intros s bs Hb; simpl; [done|].
  destruct (inspect_page s bs) as [[[s' rest]|a']|e] eqn:Hp; [| |done].
  - apply inspect_page_next in Hp as (page & -> & Hne & Ht & Hp); [|done].
    apply Forall_app in Hb as [_ Hb]. intros Hl. destruct (IH s' rest Hb Hl) as [Hbytes Hmore].
    split; [rewrite zlen_app; lia|].
    intros [|fuel2] more Hm Hf; [lia|]. simpl. rewrite <-app_assoc, Hp. apply Hmore; [done|].
    rewrite <-app_assoc, length_app in Hf. destruct page; [done | simpl in Hf; lia].
  - intros [= <-]. apply inspect_page_last in Hp as [Hbytes Hmore]; [|done]. split; [done|].
    intros [|fuel2] more Hm Hf; [lia|]. simpl. destruct (Hmore more Hm) as [e ->]. by exists e.
Qed.

Lemma inspect_returns bs : Forall is_byte bs -> exists r, inspect_complete_archive bs = Some r.
Proof.
  intros Hb. unfold inspect_complete_archive.
  destruct (inspect_loop _ _ _) as [r|] eqn:Hl; [by exists r|].
  by apply inspect_loop_total in Hl; [|done|lia].
Qed.

(** C27: The verifier's language is prefix free: on any bytes it returns, an archive
    or an error; what it accepts it accounts for to the byte, and neither a file cut
    short anywhere nor one with anything appended is accepted as complete. *)
Theorem only_whole_archives_pass (bs : bytes) :
  Forall is_byte bs ->
  exists r, inspect_complete_archive bs = Some r /\
    forall a, r = Ok a ->
      archive_bytes a = zlen bs /\
      (forall k, (k < length bs)%nat -> exists e, inspect_complete_archive (take k bs) = Some (Err e)) /\
      (forall more, more <> [] -> exists e, inspect_complete_archive (bs ++ more) = Some (Err e)).
Proof.
  intros Hb. destruct (inspect_returns bs Hb) as [r Hr]. exists r. split; [done|]. intros a ->.
  unfold inspect_complete_archive in *.
  destruct (inspect_loop_accepts _ _ _ _ Hb Hr) as [Hbytes Hmore]. split; [done|]. split.
  - intros k Hk. destruct (inspect_loop (S (length (take k bs))) inspection_new (take k bs)) as [[a'|e]|] eqn:Hl;
      [exfalso | by exists e | by apply inspect_loop_total in Hl; [|apply Forall_take|lia]].
    apply inspect_loop_accepts in Hl as [_ Hl]; [|by apply Forall_take].
    destruct (Hl (S (length bs)) (drop k bs)) as [e He].
    + intros Hd. apply (f_equal length) in Hd. rewrite length_drop in Hd. simpl in Hd. lia.
    + rewrite take_drop. lia.
    + rewrite take_drop, Hr in He. done.
  - intros more Hm. apply Hmore; [done | lia].
Qed.

(** What a page's checksum covers, in one string. *)
Definition covered (header laces body : bytes) : bytes := blank_checksum header ++ laces ++ body.

Lemma check_page_checksum s header laces body rest r :
  check_page s header laces body rest = Ok r ->
  foldl crc_step 0 (covered header laces body) = u32_from_le_bytes (slice header 22 26).
Proof.
  unfold check_page. case_match; [done|]. intros _. apply negb_false_iff, Z.eqb_eq in H0.
  rewrite <-H0, checksum_concat. unfold covered. simpl. by rewrite app_nil_r.
Qed.

Lemma crc_insert bs i b :
  Forall is_byte bs -> is_byte b -> (i < length bs)%nat -> nth i bs 0 <> b ->
  foldl crc_step 0 (<[i := b]> bs) <> foldl crc_step 0 bs.
Proof.
  intros Hb Hbb Hi Hne. destruct (lookup_lt_is_Some_2 bs i Hi) as [x Hx].
  assert (bs = take i bs ++ x :: drop (S i) bs) as Hs by (symmetry; by apply take_drop_middle).
  rewrite insert_take_drop by done. rewrite Hs at 3. apply not_eq_sym. apply crc_one_byte; [by rewrite <-Hs | done|].
  by rewrite (nth_lookup_Some _ _ _ _ Hx) in Hne.
Qed.

(** The checksum field reads as a different number when one of its bytes differs. *)
Lemma checksum_field_insert header i b :
  zlen header = 27 -> Forall is_byte header -> is_byte b -> (22 <= i < 26)%nat -> nth i header 0 <> b ->
  u32_from_le_bytes (slice (<[i := b]> header) 22 26) <> u32_from_le_bytes (slice header 22 26).
Proof.
  intros H27 Hh Hb Hi Hne.
  do 28 (destruct header as [|? header]; [try (unfold zlen in H27; simpl in H27; lia)|]);
    [|unfold zlen in H27; simpl in H27; lia].
  repeat match goal with Hf : Forall is_byte (_ :: _) |- _ => apply Forall_cons in Hf as [? Hf] end.
  assert (i = 22 \/ i = 23 \/ i = 24 \/ i = 25)%nat as [-> | [-> | [-> | ->]]] by lia; simpl in Hne;
    unfold slice, u32_from_le_bytes, u32_from_be_bytes; simpl; rewrite !Z.shiftl_mul_pow2 by lia;
    unfold is_byte in *; lia.
Qed.

Lemma blank_insert header i b :
  zlen header = 27 -> (i < 22)%nat -> blank_checksum (<[i := b]> header) = <[i := b]> (blank_checksum header).
Proof.
  unfold blank_checksum, zlen. intros H27 Hi.
  rewrite take_insert_lt, drop_insert_lt by lia. rewrite insert_app_l; [done|]. rewrite length_take. lia.
Qed.

Lemma blank_insert_field header i b :
  zlen header = 27 -> (22 <= i < 26)%nat -> blank_checksum (<[i := b]> header) = blank_checksum header.
Proof.
  unfold blank_checksum, zlen. intros H27 Hi. rewrite take_insert_ge, drop_insert_lt by lia. done.
Qed.

Lemma blank_bytes header : Forall is_byte header -> Forall is_byte (blank_checksum header).
Proof.
  intros Hh. apply Forall_app. split; [by apply Forall_take|]. apply Forall_app.
  split; [repeat constructor; unfold is_byte; lia | by apply Forall_drop].
Qed.

Lemma blank_length header : zlen header = 27 -> length (blank_checksum header) = 27%nat.
Proof. unfold blank_checksum, zlen. intros. rewrite !length_app, length_take, length_drop.
  change (length [0; 0; 0; 0]) with 4%nat. lia.
Qed.

Lemma is_page_insert header laces body i b :
  is_page header laces body -> i <> 26%nat -> is_page (<[i := b]> header) laces body.
Proof.
  intros (H1 & H2 & H3) Hi. unfold is_page, zlen in *. rewrite length_insert. split_and!; try done.
  rewrite <-H2. rewrite !nth_lookup. by rewrite list_lookup_insert_ne by done.
Qed.

Lemma inspect_page_checksum s header laces body rest r :
  is_page header laces body -> inspect_page s (header ++ laces ++ body ++ rest) = Ok r ->
  foldl crc_step 0 (covered header laces body) = u32_from_le_bytes (slice header 22 26).
Proof.
  intros Hp. rewrite inspect_page_form by done. destruct (check_header s header); [|done]. simpl.
  by apply check_page_checksum.
Qed.

(** Damage to a page is seen: if a page is accepted, the same page with any one
    byte of its header (but the segment count) or of its body changed is refused. *)
Theorem corrupted_page_refused (s : Inspection) (header laces body rest : bytes) r :
  is_page header laces body -> Forall is_byte header -> Forall is_byte laces -> Forall is_byte body ->
  inspect_page s (header ++ laces ++ body ++ rest) = Ok r ->
  (forall i b, (i < 26)%nat -> is_byte b -> nth i header 0 <> b ->
     exists e, inspect_page s (<[i := b]> header ++ laces ++ body ++ rest) = Err e) /\
  (forall i b, (i < length body)%nat -> is_byte b -> nth i body 0 <> b ->
     exists e, inspect_page s (header ++ laces ++ <[i := b]> body ++ rest) = Err e).
Proof.
  intros Hp Hh Hl Hbd Hok. pose proof (inspect_page_checksum _ _ _ _ _ _ Hp Hok) as Hcrc.
  pose proof Hp as (H27 & _ & _).
  assert (Forall is_byte (covered header laces body)) as Hcov
    by (apply Forall_app; split; [by apply blank_bytes | by apply Forall_app]).
  split; intros i b Hi Hb Hne.
  - destruct (inspect_page s (<[i := b]> header ++ laces ++ body ++ rest)) as [r'|e] eqn:Hr; [exfalso | by exists e].
    apply inspect_page_checksum in Hr; [|by apply is_page_insert; [|lia]].
    destruct (decide (i < 22)%nat).
    + unfold covered in *. rewrite blank_insert, <-insert_app_l in Hr by (rewrite ?blank_length; (done || lia)).
      assert (slice (<[i := b]> header) 22 26 = slice header 22 26) as E.
      { unfold slice. by rewrite drop_insert_lt by lia. }
      rewrite E, <-Hcrc in Hr. revert Hr. apply crc_insert; [done | done | |].
      * rewrite length_app, blank_length by done. lia.
      * rewrite nth_lookup, lookup_app_l by (rewrite blank_length by done; lia).
        unfold blank_checksum. rewrite lookup_app_l by (rewrite length_take; unfold zlen in H27; lia).
        rewrite lookup_take_lt by lia. by rewrite <-nth_lookup.
    + unfold covered in Hr. rewrite blank_insert_field in Hr by (done || lia). fold (covered header laces body) in Hr.
      rewrite Hcrc in Hr. symmetry in Hr. revert Hr. apply checksum_field_insert; (done || lia).
  - destruct (inspect_page s (header ++ laces ++ <[i := b]> body ++ rest)) as [r'|e] eqn:Hr; [exfalso | by exists e].
    apply inspect_page_checksum in Hr; [|by unfold is_page, zlen in *; rewrite length_insert].
    rewrite <-Hcrc in Hr. unfold covered in *.
    assert (blank_checksum header ++ laces ++ <[i := b]> body =
            <[(length (blank_checksum header ++ laces) + i)%nat := b]> ((blank_checksum header ++ laces) ++ body)) as E.
    { rewrite insert_app_r. by rewrite <-app_assoc. }
    rewrite E, app_assoc in Hr. revert Hr. apply crc_insert; [by rewrite <-app_assoc | done | |].
    + rewrite (length_app (_ ++ _)). lia.
    + rewrite nth_lookup, lookup_app_r by lia. replace (_ + i - _)%nat with i by lia. by rewrite <-nth_lookup.
Qed.

(** ** A bit-serial reference *)

(** The CRC of RFC 3533 as a shift register: one message bit at a time. *)
Definition shift_in (r : Z) (bit : bool) : Z :=
  Z.lxor (u32_shl r 1) (if xorb (Z.testbit r 31) bit then 0x04c11db7 else 0).

Definition byte_bits (b : Z) : list bool := (fun i => Z.testbit b (7 - Z.of_nat i)) <$> seq 0 8.

Definition crc_reference (bs : bytes) : Z := foldl shift_in 0 (bs ≫= byte_bits).

Lemma shift_in_lxor r s bit : shift_in (Z.lxor r s) bit = Z.lxor (crc_bit r) (shift_in s bit).
Proof.
  unfold shift_in. rewrite crc_bit_eq, u32_shl_lxor, Z.lxor_spec.
  set (a := u32_shl r 1). set (b := u32_shl s 1). set (g := 0x04c11db7).
  destruct (Z.testbit r 31), (Z.testbit s 31), bit; simpl; rewrite ?Z.lxor_0_r;
    apply Z.bits_inj'; intros i _; rewrite ?Z.lxor_spec;
    destruct (Z.testbit a i), (Z.testbit b i), (Z.testbit g i); done.
Qed.

Lemma shift_in_fold r s bits :
  foldl shift_in (Z.lxor r s) bits = Z.lxor (crc_bits (length bits) r) (foldl shift_in s bits).
Proof.
  revert r s. induction bits as [|bit bits IH]; intros r s; [done|].
  cbn [foldl length]. by rewrite shift_in_lxor, IH, crc_bits_S.
Qed.

Lemma shift_in_byte b : is_byte b -> foldl shift_in 0 (byte_bits b) = crc_bits 8 (u32_shl b 24).
Proof.
  intros Hb.
  assert (Forall (fun i => foldl shift_in 0 (byte_bits (Z.of_nat i)) = crc_bits 8 (u32_shl (Z.of_nat i) 24)) (seq 0 256))
    as Hall by (apply (bool_decide_unpack _); vm_compute; exact I).
  rewrite Forall_forall in Hall. unfold is_byte in Hb. specialize (Hall (Z.to_nat b)).
  rewrite Z2Nat.id in Hall by lia. apply Hall, elem_of_seq. lia.
Qed.

Lemma crc_fold_reference v bs :
  0 <= v < 2 ^ 32 -> Forall is_byte bs -> foldl crc_step v bs = foldl shift_in v (bs ≫= byte_bits).
Proof.
  intros Hv Hbs. revert v Hv. induction Hbs as [|b bs Hb _ IH]; intros v Hv; [done|].
  cbn [mbind list_bind foldl]. rewrite foldl_app, IH by (by apply crc_step_range).
  rewrite crc_step_bits, crc_bits_lxor, <-shift_in_byte by done.
  f_equal. rewrite <-(Z.lxor_0_r v) at 2. by rewrite shift_in_fold.
Qed.

(** C36: The table-driven page checksum is the CRC of RFC 3533: it equals the
    bit-serial shift register run over all the parts in order, and it is the
    remainder of the message, shifted by 32 bits, modulo the generator polynomial. *)
Theorem checksum_is_the_ogg_crc (parts : list bytes) :
  Forall is_byte (concat parts) ->
  checksum parts = crc_reference (concat parts) /\ 0 <= checksum parts < 2 ^ 32 /\
  gf2_multiple (Z.lxor (Z.shiftl (message (concat parts)) 32) (checksum parts)).
Proof.
  intros Hb. rewrite checksum_concat. split; [|split].
  - by apply crc_fold_reference.
  - by apply crc_fold_range.
  - apply crc_fold_remainder; [lia | done|]. rewrite Z.shiftl_0_l. apply gf2_zero.
Qed.

End Accepts.

(** ** A concrete archive *)

Definition lacing (n : nat) : list Z := replicate (n / 255) 255 ++ [Z.of_nat (n mod 255)].

Definition u64_to_le_bytes (n : Z) : bytes := (fun i => Z.land (Z.shiftr n (8 * Z.of_nat i)) 255) <$> seq 0 8.

(** An Ogg page holding whole packets. *)
Definition ogg_page (flags granule serial sequence : Z) (packets : list bytes) : bytes :=
  let laces := packets ≫= (fun p => lacing (length p)) in
  let body := concat packets in
  let header crc := bytes_of_string "OggS" ++ [0; flags] ++ u64_to_le_bytes granule ++ u32_to_le_bytes serial
                    ++ u32_to_le_bytes sequence ++ crc ++ [zlen laces] in
  header (u32_to_le_bytes (checksum [header [0; 0; 0; 0]; laces; body])) ++ laces ++ body.

(** A decoder for which every packet is 20 ms. *)
#[local] Instance twenty_ms : OpusDecoder := {|
  decoder := unit; decoder_create := Ok tt; decode_float _ _ := (960, tt) |}.

Definition sample_head : bytes :=
  bytes_of_string "OpusHead" ++ [1; 1; 56; 1] ++ u32_to_le_bytes 16000 ++ [0; 0; 0].
Definition sample_tags : bytes := bytes_of_string "OpusTags" ++ u32_to_le_bytes 4 ++ [102; 111; 116; 119; 0; 0; 0; 0].

(** 312 ticks of pre-skip, two packets, 30 ms of sound. *)
Definition sample_archive : bytes :=
  ogg_page 2 0 7 0 [sample_head] ++ ogg_page 0 0 7 1 [sample_tags]
  ++ ogg_page 0 960 7 2 [[1; 2; 3]] ++ ogg_page 4 1752 7 3 [[4; 5; 6]].

Lemma sample_archive_bytes : Forall is_byte sample_archive.
Proof. apply (bool_decide_unpack _). vm_compute. exact I. Qed.

Lemma sample_archive_ok : inspect_complete_archive sample_archive = Some (Ok (mkArchive 16000 1440 2 157)).
Proof. vm_compute. reflexivity. Qed.

Lemma only_whole_archives_pass_witness :
  archive_bytes (mkArchive 16000 1440 2 157) = zlen sample_archive /\
  exists e, inspect_complete_archive (take 156 sample_archive) = Some (Err e).
Proof.
  destruct (only_whole_archives_pass sample_archive sample_archive_bytes) as (r & Hr & H).
  rewrite sample_archive_ok in Hr. injection Hr as <-. destruct (H _ eq_refl) as (H1 & H2 & _).
  split; [exact H1|]. apply H2. vm_compute. lia.
Defined.

Definition sample_page : bytes := ogg_page 2 0 7 0 [sample_head].

Lemma corrupted_page_refused_witness :
  exists e, inspect_page inspection_new (take 27 sample_page ++ take 1 (drop 27 sample_page)
                                         ++ <[3%nat := 0]> (drop 28 sample_page) ++ []) = Err e.
Proof.
  eapply (corrupted_page_refused inspection_new (take 27 sample_page) (take 1 (drop 27 sample_page))
    (drop 28 sample_page) []).
  - vm_compute. done.
  - apply (bool_decide_unpack _). vm_compute. exact I.
  - apply (bool_decide_unpack _). vm_compute. exact I.
  - apply (bool_decide_unpack _). vm_compute. exact I.
  - vm_compute. reflexivity.
  - vm_compute. lia.
  - vm_compute. done.
  - vm_compute. discriminate.
Defined.

Lemma checksum_is_the_ogg_crc_witness :
  checksum [[1; 2]; [3]] = crc_reference [1; 2; 3] /\ checksum [[1; 2]; [3]] <> 0.
Proof.
  split; [|vm_compute; discriminate].
  apply (checksum_is_the_ogg_crc [[1; 2]; [3]]). apply (bool_decide_unpack _). vm_compute. exact I.
Defined.
