(* ===== verification/FileSystem.v ===== *)
(** * The file system, its failures and its crashes

    What the sources use of [std::fs], [std::io] and [std::time], as a monad.
    A [World] is the disk, the locks that are held, the clocks, and the fates of
    the operations to come: each one either proceeds, or is refused by the
    operating system, or is where the process is killed.  A refused or fatal write
    leaves a prefix of its bytes, a [remove_dir_all] leaves any part of the tree.
    A theorem about all worlds is therefore a theorem about every way I/O can go
    wrong and every point at which the process can die.

    A file remembers how much of it has been synced.  A kill ([Killed]) leaves the
    disk as it is, since the page cache outlives the process; a power cut
    ([power_cut]) may take back anything not synced.  Names are taken to survive.
    A node that is neither a file nor a directory (a link, a socket) cannot be
    opened: the code refuses such nodes, and what lies behind one is not
    modelled.  A handle is the path it was opened at. *)

From S2P Require Import Prelude Bytes Text.

Create HintDb io.

Local Open Scope Z_scope.

(** ** Paths *)

Definition path := list string.

Notation "d '/>' n" := (@app string d [n]) (at level 48, left associativity) : fotw_scope.

(** The pieces of a relative path, and [Path::join] with [.] and [..] resolved. *)
Definition pieces (rel : string) : list string := split (fun c => c =? 47) rel.

Definition push_piece (p : path) (c : string) : path :=
  if decide (c = "" \/ c = ".") then p
  else if decide (c = "..") then take (pred (length p)) p
  else p /> c.

Definition join_path (dir : path) (rel : string) : path :=
  match pieces rel with
  | "" :: _ :: _ => foldl push_piece [] (pieces rel)
  | ps => foldl push_piece dir ps
  end.

Definition parent (p : path) : path := take (pred (length p)) p.

(** ** Nodes and errors *)

Inductive ErrorKind := NotFound | AlreadyExists | WouldBlock | InvalidData | InvalidInput | OtherKind.

#[export] Instance ErrorKind_eq_dec : EqDecision ErrorKind.
Proof. solve_decision. Defined.

Record IoErr := mkIo { error_kind : ErrorKind; error_text : string }.

#[export] Instance IoErr_eq_dec : EqDecision IoErr.
Proof. solve_decision. Defined.

Inductive Node :=
| NFile (content : bytes) (synced : nat)
| NDir
| NOther.

#[export] Instance Node_eq_dec : EqDecision Node.
Proof. solve_decision. Defined.

#[export] Instance path_eq_dec : EqDecision path := _.
#[export] Instance path_countable : Countable path := _.
Abbreviation Disk := (@gmap path path_eq_dec path_countable Node).

Record Metadata := mkMeta { is_file : bool; is_dir : bool; len : Z }.

Definition meta_of (n : Node) : Metadata :=
  match n with
  | NFile c _ => mkMeta true false (zlen c)
  | NDir => mkMeta false true 0
  | NOther => mkMeta false false 0
  end.

(** ** Worlds *)

Inductive Stop := Refused (e : IoErr) | Died.

Inductive Fate :=
| Proceeds
| Stops (why : Stop) (reach : nat) (gone : list path).

Record World := mkWorld {
  disk : Disk;
  held : gset path;        (* files some process holds the lock of *)
  fates : list Fate;       (* how the next operations go; then all proceed *)
  wall : list Z;           (* the next readings of the wall clock, in ms *)
  instants : list Z;       (* the next readings of the monotonic clock, in ns *)
  serials : Z;             (* the process-wide counter fresh names are drawn from *)
}.

Definition set_disk (w : World) (d : Disk) : World :=
  mkWorld d (held w) (fates w) (wall w) (instants w) (serials w).
Definition set_held (w : World) (h : gset path) : World :=
  mkWorld (disk w) h (fates w) (wall w) (instants w) (serials w).
Definition set_fates (w : World) (f : list Fate) : World :=
  mkWorld (disk w) (held w) f (wall w) (instants w) (serials w).

Inductive Outcome (E A : Type) := Returned (a : A) | Raised (e : E) | Killed.
Arguments Returned {E A} a.
Arguments Raised {E A} e.
Arguments Killed {E A}.

(** A computation over a world, or over a world and the value of [&mut self]. *)
Definition Eff (W E A : Type) : Type := W -> Outcome E A * W.
Abbreviation IO := (Eff World).

#[export] Instance eff_ret W E : MRet (Eff W E) := fun _ a w => (Returned a, w).
#[export] Instance eff_bind W E : MBind (Eff W E) := fun _ _ k m w =>
  match m w with
  | (Returned a, w') => k a w'
  | (Raised e, w') => (Raised e, w')
  | (Killed, w') => (Killed, w')
  end.

Section Effects.
Context {W : Type}.

Definition raise {E A} (e : E) : Eff W E A := fun w => (Raised e, w).

Definition map_err {E F A} (f : E -> F) (m : Eff W E A) : Eff W F A := fun w =>
  match m w with
  | (Returned a, w') => (Returned a, w')
  | (Raised e, w') => (Raised (f e), w')
  | (Killed, w') => (Killed, w')
  end.

(** A [Result] inspected instead of propagated. *)
Definition attempt {E F A} (m : Eff W E A) : Eff W F (result A E) := fun w =>
  match m w with
  | (Returned a, w') => (Returned (Ok a), w')
  | (Raised e, w') => (Returned (Err e), w')
  | (Killed, w') => (Killed, w')
  end.

(** A destructor: it runs when the scope is left, by [?] too, not by a kill. *)
Definition finally {E F A} (m : Eff W E A) (drop : Eff W F unit) : Eff W E A := fun w =>
  match m w with
  | (Killed, w') => (Killed, w')
  | (o, w') => match drop w' with (Killed, w2) => (Killed, w2) | (_, w2) => (o, w2) end
  end.

(** A destructor of a value that is returned to the caller when all went well. *)
Definition on_error {E F A} (m : Eff W E A) (drop : Eff W F unit) : Eff W E A := fun w =>
  match m w with
  | (Raised e, w') => match drop w' with (Killed, w2) => (Killed, w2) | (_, w2) => (Raised e, w2) end
  | r => r
  end.

Definition of_result {E A} (r : result A E) : Eff W E A :=
  match r with Ok a => mret a | Err e => raise e end.

Definition ok_or {E A} (o : option A) (e : E) : Eff W E A :=
  match o with Some a => mret a | None => raise e end.

Definition guard_io {E} (b : bool) (e : E) : Eff W E unit := if b then mret tt else raise e.

End Effects.

(** A computation on the world inside one that also has a [self]. *)
Definition lift {S E A} (m : IO E A) : Eff (S * World) E A := fun '(s, w) =>
  let '(o, w') := m w in (o, (s, w')).

Definition get_self {S E} : Eff (S * World) E S := fun '(s, w) => (Returned s, (s, w)).
Definition set_self {S E} (s : S) : Eff (S * World) E unit := fun '(_, w) => (Returned tt, (s, w)).

(** ** The operations *)

(** An operation: what it does when it proceeds, and what a refused or fatal one
    leaves behind. *)
Definition op {A : Type} (partly : nat -> list path -> Disk -> Disk) (whole : Disk -> result (A * Disk) IoErr) : IO IoErr A :=
  fun w =>
  let go w := match whole (disk w) with
              | Ok (a, d) => (Returned a, set_disk w d)
              | Err e => (Raised e, w)
              end in
  match fates w with
  | [] => go w
  | Proceeds :: fs => go (set_fates w fs)
  | Stops why reach gone :: fs =>
      let w := set_disk (set_fates w fs) (partly reach gone (disk w)) in
      match why with Refused e => (Raised e, w) | Died => (Killed, w) end
  end.

Definition all_or_nothing : nat -> list path -> Disk -> Disk := fun _ _ d => d.

Definition not_found : IoErr := mkIo NotFound "entity not found".
Definition exists_already : IoErr := mkIo AlreadyExists "entity already exists".
Definition not_ordinary : IoErr := mkIo OtherKind "not a file that can be opened".

Definition parent_ok (d : Disk) (p : path) : bool :=
  match parent p with [] => true | q => bool_decide (d !! q = Some NDir) end.

Definition symlink_metadata (p : path) : IO IoErr Metadata :=
  op all_or_nothing (fun d => match d !! p with Some n => Ok (meta_of n, d) | None => Err not_found end).

(** [std::fs::metadata], which follows links. *)
Definition metadata (p : path) : IO IoErr Metadata :=
  op all_or_nothing (fun d => match d !! p with
    | Some NOther => Err not_ordinary
    | Some n => Ok (meta_of n, d)
    | None => Err not_found
    end).

Definition read_file (p : path) : IO IoErr bytes :=
  op all_or_nothing (fun d => match d !! p with
    | Some (NFile c _) => Ok (c, d)
    | Some _ => Err not_ordinary
    | None => Err not_found
    end).

(** [create(true).write(true).truncate(true)]. *)
Definition open_truncate (p : path) : IO IoErr unit :=
  op all_or_nothing (fun d => match d !! p with
    | Some (NFile _ _) => Ok (tt, <[p := NFile [] 0]> d)
    | Some _ => Err not_ordinary
    | None => if parent_ok d p then Ok (tt, <[p := NFile [] 0]> d) else Err not_found
    end).

(** [create_new(true)]. *)
Definition open_new (p : path) : IO IoErr unit :=
  op all_or_nothing (fun d => match d !! p with
    | Some _ => Err exists_already
    | None => if parent_ok d p then Ok (tt, <[p := NFile [] 0]> d) else Err not_found
    end).

Definition open_existing (p : path) : IO IoErr unit :=
  op all_or_nothing (fun d => match d !! p with
    | Some (NFile _ _) => Ok (tt, d)
    | Some _ => Err not_ordinary
    | None => Err not_found
    end).

(** [create(true).truncate(false)]. *)
Definition open_or_create (p : path) : IO IoErr unit :=
  op all_or_nothing (fun d => match d !! p with
    | Some (NFile _ _) => Ok (tt, d)
    | Some _ => Err not_ordinary
    | None => if parent_ok d p then Ok (tt, <[p := NFile [] 0]> d) else Err not_found
    end).

(** [set_len], to a length the file has. *)
Definition shorten_node (n : nat) (x : Node) : Node :=
  match x with NFile c s => NFile (take n c) (min s n) | x => x end.

Definition set_len (p : path) (n : Z) : IO IoErr unit :=
  op all_or_nothing (fun d => Ok (tt, alter (shorten_node (Z.to_nat n)) p d)).

Definition append_node (bs : bytes) (n : Node) : Node :=
  match n with NFile c s => NFile (c ++ bs) s | n => n end.

Definition append_at (p : path) (bs : bytes) (d : Disk) : Disk := alter (append_node bs) p d.

(** [write_all] on an open handle. *)
Definition write_file (p : path) (bs : bytes) : IO IoErr unit :=
  op (fun n _ d => append_at p (take n bs) d) (fun d => Ok (tt, append_at p bs d)).

Definition sync_node (n : Node) : Node :=
  match n with NFile c _ => NFile c (length c) | n => n end.

(** [Path::try_exists]: a missing entry is an answer, any other error is one. *)
Definition try_exists (p : path) : IO IoErr bool :=
  r ← attempt (metadata p);
  match r with
  | Ok _ => mret true
  | Err e => if decide (error_kind e = NotFound) then mret false else raise e
  end.

(** [sync_data], [sync_all] on a file. *)
Definition sync_file (p : path) : IO IoErr unit :=
  op all_or_nothing (fun d => Ok (tt, alter sync_node p d)).

(** [File::open(dir)?.sync_all()]. *)
Definition sync_directory (p : path) : IO IoErr unit :=
  op all_or_nothing (fun d => if decide (d !! p = Some NDir) then Ok (tt, d) else Err not_found).

(** [rename] of a file onto a file or a free name. *)
Definition rename_file (src dst : path) : IO IoErr unit :=
  op all_or_nothing (fun d => match d !! src, d !! dst with
    | None, _ => Err not_found
    | Some NDir, _ | _, Some NDir => Err not_ordinary
    | Some n, None => if parent_ok d dst then Ok (tt, <[dst := n]> (delete src d)) else Err not_found
    | Some n, Some _ => Ok (tt, <[dst := n]> (delete src d))
    end).

Definition under (dir p : path) : Prop := dir `prefix_of` p.
#[export] Instance under_dec dir p : Decision (under dir p).
Proof. unfold under. apply _. Defined.

(** The tree at [dir] moved to [dst]. *)
Definition move_tree (dir dst : path) (d : Disk) : Disk :=
  list_to_map ((fun '(p, n) => (if decide (under dir p) then dst ++ drop (length dir) p else p, n))
                 <$> map_to_list d).

Definition remove_file (p : path) : IO IoErr unit :=
  op all_or_nothing (fun d => match d !! p with
    | Some NDir => Err not_ordinary
    | Some _ => Ok (tt, delete p d)
    | None => Err not_found
    end).

(** Everything strictly below a directory. *)
Definition is_empty_dir (d : Disk) (p : path) : Prop := map_Forall (fun q _ => under p q -> q = p) d.
#[export] Instance is_empty_dir_dec d p : Decision (is_empty_dir d p).
Proof. unfold is_empty_dir. apply _. Defined.

(** [rename] of a directory onto a free name or an empty directory. *)
Definition rename_dir (dir dst : path) : IO IoErr unit :=
  op all_or_nothing (fun d =>
    if decide (d !! dir = Some NDir) then
      if under_dec dir dst then Err (mkIo InvalidInput "a directory cannot move into itself")
      else match d !! dst with
      | None => if parent_ok d dst then Ok (tt, move_tree dir dst d) else Err not_found
      | Some NDir => if decide (is_empty_dir d dst) then Ok (tt, move_tree dir dst (delete dst d)) else Err not_ordinary
      | Some _ => Err not_ordinary
      end
    else Err not_found).

Definition remove_dir (p : path) : IO IoErr unit :=
  op all_or_nothing (fun d =>
    if decide (d !! p = Some NDir) then
      if decide (is_empty_dir d p) then Ok (tt, delete p d) else Err not_ordinary
    else Err not_found).

Definition remove_dir_all (dir : path) : IO IoErr unit :=
  op (fun _ gone d => filter (fun '(p, _) => ~ (under dir p /\ p ∈ gone)) d)
     (fun d => if decide (d !! dir = Some NDir) then Ok (tt, filter (fun '(p, _) => ~ under dir p) d)
               else Err not_found).

Definition create_dir (p : path) : IO IoErr unit :=
  op all_or_nothing (fun d => match d !! p with
    | Some _ => Err exists_already
    | None => if parent_ok d p then Ok (tt, <[p := NDir]> d) else Err not_found
    end).

(** The directories [create_dir_all] makes, outermost first. *)
Definition ancestors (p : path) : list path := (fun n => take n p) <$> seq 1 (length p).

Definition make_missing (d : Disk) (ps : list path) : Disk :=
  foldl (fun d q => match d !! q with None => <[q := NDir]> d | Some _ => d end) d ps.

Definition create_dir_all (p : path) : IO IoErr unit :=
  op (fun n _ d => if decide (Forall (fun q => d !! q = None \/ d !! q = Some NDir) (take n (ancestors p)))
                   then make_missing d (take n (ancestors p)) else d)
     (fun d => if decide (Forall (fun q => d !! q = None \/ d !! q = Some NDir) (ancestors p))
               then Ok (tt, make_missing d (ancestors p)) else Err not_ordinary).

(** The names in a directory, in no particular order. *)
Definition entries (d : Disk) (p : path) : list string :=
  omap (fun '(q, _) => match last q with
                       | Some n => if decide (parent q = p /\ q <> []) then Some n else None
                       | None => None
                       end) (map_to_list d).

Definition read_dir (p : path) : IO IoErr (list string) :=
  op all_or_nothing (fun d => if decide (d !! p = Some NDir) then Ok (entries d p, d) else Err not_found).

(** [try_lock] on an open handle, and its release. *)
Definition try_lock (p : path) : IO IoErr unit := fun w =>
  if decide (p ∈ held w) then (Raised (mkIo WouldBlock "lock is held"), w)
  else (Returned tt, set_held w ({[p]} ∪ held w)).

Definition unlock (p : path) : IO IoErr unit := fun w => (Returned tt, set_held w (held w ∖ {[p]})).

(** ** Clocks *)

(** The wall clock in milliseconds since the epoch; 0 when it is before it. *)
Definition now_ms {E} : IO E Z := fun w =>
  match wall w with
  | [] => (Returned 0, w)
  | t :: ts => (Returned t, mkWorld (disk w) (held w) (fates w) ts (instants w) (serials w))
  end.

(** [Instant::now()]. *)
Definition instant_now {E} : IO E Z := fun w =>
  match instants w with
  | [] => (Returned 0, w)
  | t :: ts => (Returned t, mkWorld (disk w) (held w) (fates w) (wall w) ts (serials w))
  end.

(** [NEXT_SESSION.fetch_add(1, Relaxed)]. *)
Definition next_serial {E} : IO E Z := fun w =>
  (Returned (serials w), mkWorld (disk w) (held w) (fates w) (wall w) (instants w) (wadd (serials w) 1)).

(** ** Power cuts

    Each file keeps a prefix that reaches at least as far as it was synced. *)

Definition cut_node (n n' : Node) : Prop :=
  match n with
  | NFile c s => exists k, (s <= k)%nat /\ n' = NFile (take k c) (length (take k c))
  | n => n' = n
  end.

Definition power_cut (d d' : Disk) : Prop := forall p, option_Forall2 cut_node (d !! p) (d' !! p).

(** The same disk under a process that starts anew. *)
Definition restarted (w w' : World) : Prop := disk w' = disk w \/ power_cut (disk w) (disk w').

(** ** Crash Hoare logic

    [triple P m Q R]: from a world in [P], if [m] returns then the result and the
    world are in [Q], and if it fails or the process dies inside it the world is
    in [R]. *)

Section Logic.
Context {W : Type}.
Implicit Types (P R : W -> Prop).

Definition triple {E A} P (m : Eff W E A) (Q : A -> W -> Prop) R : Prop :=
  forall w, P w -> match m w with (Returned a, w') => Q a w' | (_, w') => R w' end.

(** [total P m Q]: from a world in [P], [m] returns, in [Q]. *)
Definition total {E A} P (m : Eff W E A) (Q : A -> W -> Prop) : Prop :=
  forall w, P w -> exists a w', m w = (Returned a, w') /\ Q a w'.

(** Whatever happens, the world stays related. *)
Definition within {E A} (T : W -> W -> Prop) (m : Eff W E A) : Prop := forall w, T w (m w).2.

Lemma triple_ret {E A} (a : A) (Q : A -> W -> Prop) R : triple (Q a) (mret a : Eff W E A) Q R.
Proof. by intros w H. Qed.

Lemma triple_raise {E A} (e : E) (Q : A -> W -> Prop) R : triple R (raise e) Q R.
Proof. by intros w H. Qed.

Lemma triple_bind {E A B} P (m : Eff W E A) (k : A -> Eff W E B) Q1 Q R :
  triple P m Q1 R -> (forall a, triple (Q1 a) (k a) Q R) -> triple P (m ≫= k) Q R.
Proof.
  intros Hm Hk w Hw. specialize (Hm w Hw). unfold mbind, eff_bind.
  destruct (m w) as [[a|e|] w']; [by apply Hk | done | done].
Qed.

Lemma triple_conseq {E A} P P' (m : Eff W E A) (Q Q' : A -> W -> Prop) R R' :
  triple P m Q R -> (forall w, P' w -> P w) -> (forall a w, Q a w -> Q' a w) -> (forall w, R w -> R' w) ->
  triple P' m Q' R'.
Proof. intros Hm HP HQ HR w Hw. specialize (Hm w (HP w Hw)). destruct (m w) as [[a|e|] w']; auto. Qed.

Lemma triple_pre {E A} P P' (m : Eff W E A) Q R :
  triple P m Q R -> (forall w, P' w -> P w) -> triple P' m Q R.
Proof. intros. by eapply triple_conseq. Qed.

(** A step whose failure is one of those allowed. *)
Lemma triple_then {E A B} P (m : Eff W E A) (k : A -> Eff W E B) Q1 Q R1 R :
  triple P m Q1 R1 -> (forall w, R1 w -> R w) -> (forall a, triple (Q1 a) (k a) Q R) -> triple P (m ≫= k) Q R.
Proof. intros Hm HR Hk. eapply triple_bind; [eapply triple_conseq; [apply Hm | done | done | done] | done]. Qed.

Lemma triple_guard {E B} P b (e : E) (k : unit -> Eff W E B) Q R :
  (forall w, P w -> R w) -> (b = true -> triple P (k tt) Q R) -> triple P (guard_io b e ≫= k) Q R.
Proof. intros HR Hk. destruct b; [by apply Hk | by intros w Hw; apply HR]. Qed.

Lemma triple_ok_or {E A B} P (o : option A) (e : E) (k : A -> Eff W E B) Q R :
  (forall w, P w -> R w) -> (forall a, o = Some a -> triple P (k a) Q R) -> triple P (ok_or o e ≫= k) Q R.
Proof. intros HR Hk. destruct o as [a|]; [by apply Hk | by intros w Hw; apply HR]. Qed.

Lemma triple_at {E A} P (m : Eff W E A) Q R :
  (forall w, P w -> triple (eq w) m Q R) -> triple P m Q R.
Proof. intros H w Hw. by apply (H w Hw). Qed.

Lemma triple_map_err {E F A} P (f : E -> F) (m : Eff W E A) Q R : triple P m Q R -> triple P (map_err f m) Q R.
Proof. intros Hm w Hw. specialize (Hm w Hw). unfold map_err. by destruct (m w) as [[a|e|] w']. Qed.

Lemma triple_attempt {E F A} P (m : Eff W E A) Q R :
  triple P m Q R ->
  triple P (attempt m : Eff W F _) (fun r w => match r with Ok a => Q a w | Err _ => R w end) R.
Proof. intros Hm w Hw. specialize (Hm w Hw). unfold attempt. by destruct (m w) as [[a|e|] w']. Qed.

Lemma triple_finally {E F A} P (m : Eff W E A) (drop : Eff W F unit) Q Q1 R R1 :
  triple P m Q1 R1 -> (forall w, R1 w -> R w) ->
  (forall a, triple (Q1 a) drop (fun _ => Q a) R) -> (forall a w, Q a w -> R w) ->
  (forall a, triple (Q1 a) drop (fun _ => Q a) (Q a)) ->
  triple R1 drop (fun _ => R) R -> triple P (finally m drop) Q R.
Proof.
  intros Hm HR Hq Hqr Hq' Hr w Hw. specialize (Hm w Hw). unfold finally.
  destruct (m w) as [[a|e|] w']; [|specialize (Hr w' Hm)|by apply HR].
  - specialize (Hq a w' Hm). specialize (Hq' a w' Hm). by destruct (drop w') as [[[]| |] w2]; auto.
  - by destruct (drop w') as [[[]| |] w2].
Qed.

Lemma triple_within {E A} P (m : Eff W E A) T :
  within T m -> triple P m (fun _ w => exists w0, P w0 /\ T w0 w) (fun w => exists w0, P w0 /\ T w0 w).
Proof. intros H w Hw. specialize (H w). destruct (m w) as [[a|e|] w']; eauto. Qed.

Section Within.
Context (T : W -> W -> Prop) `{!PreOrder T}.

Lemma within_ret {E A} (a : A) : within T (mret a : Eff W E A).
Proof. intros w. reflexivity. Qed.

Lemma within_raise {E A} (e : E) : within T (raise e : Eff W E A).
Proof. intros w. reflexivity. Qed.

Lemma within_bind {E A B} (m : Eff W E A) (k : A -> Eff W E B) :
  within T m -> (forall a, within T (k a)) -> within T (m ≫= k).
Proof.
  intros Hm Hk w. specialize (Hm w). unfold mbind, eff_bind.
  destruct (m w) as [[a|e|] w']; [|done|done]. etrans; [apply Hm | apply Hk].
Qed.

Lemma within_map_err {E F A} (f : E -> F) (m : Eff W E A) : within T m -> within T (map_err f m).
Proof. intros H w. specialize (H w). unfold map_err. by destruct (m w) as [[a|e|] w']. Qed.

Lemma within_attempt {E F A} (m : Eff W E A) : within T m -> within T (attempt m : Eff W F _).
Proof. intros H w. specialize (H w). unfold attempt. by destruct (m w) as [[a|e|] w']. Qed.

Lemma within_finally {E F A} (m : Eff W E A) (drop : Eff W F unit) :
  within T m -> within T drop -> within T (finally m drop).
Proof.
  intros H Hd w. specialize (H w). unfold finally.
  destruct (m w) as [[a|e|] w']; simpl in *; [| |done]; specialize (Hd w');
    destruct (drop w') as [[?|?|] w2]; simpl in *; by etrans.
Qed.

Lemma within_on_error {E F A} (m : Eff W E A) (drop : Eff W F unit) :
  within T m -> within T drop -> within T (on_error m drop).
Proof.
  intros H Hd w. specialize (H w). unfold on_error.
  destruct (m w) as [[a|e|] w']; simpl in *; [done| |done]. specialize (Hd w').
  destruct (drop w') as [[?|?|] w2]; simpl in *; by etrans.
Qed.

Lemma within_ok_or {E A} (o : option A) (e : E) : within T (ok_or o e).
Proof. destruct o; [apply within_ret | apply within_raise]. Qed.

Lemma within_guard {E} b (e : E) : within T (guard_io b e).
Proof. destruct b; [apply within_ret | apply within_raise]. Qed.

Lemma within_of_result {E A} (r : result A E) : within T (of_result r).
Proof. destruct r; [apply within_ret | apply within_raise]. Qed.

End Within.

Lemma total_ret {E A} (a : A) (Q : A -> W -> Prop) : total (Q a) (mret a : Eff W E A) Q.
Proof. intros w H. by exists a, w. Qed.

Lemma total_bind {E A B} P (m : Eff W E A) (k : A -> Eff W E B) Q1 Q :
  total P m Q1 -> (forall a, total (Q1 a) (k a) Q) -> total P (m ≫= k) Q.
Proof.
  intros Hm Hk w Hw. destruct (Hm w Hw) as (a & w1 & Hm1 & Hw1).
  unfold mbind, eff_bind. rewrite Hm1. by apply Hk.
Qed.

Lemma total_conseq {E A} P P' (m : Eff W E A) (Q Q' : A -> W -> Prop) :
  total P m Q -> (forall w, P' w -> P w) -> (forall a w, Q a w -> Q' a w) -> total P' m Q'.
Proof. intros Hm HP HQ w Hw. destruct (Hm w (HP w Hw)) as (a & w' & ? & ?). eauto. Qed.

Lemma total_map_err {E F A} P (f : E -> F) (m : Eff W E A) Q : total P m Q -> total P (map_err f m) Q.
Proof. intros Hm w Hw. destruct (Hm w Hw) as (a & w' & E1 & ?). unfold map_err. rewrite E1. eauto. Qed.

Lemma total_attempt {E F A} P (m : Eff W E A) Q :
  total P m Q -> total P (attempt m : Eff W F _) (fun r w => exists a, r = Ok a /\ Q a w).
Proof. intros Hm w Hw. destruct (Hm w Hw) as (a & w' & E1 & ?). unfold attempt. rewrite E1. eauto 10. Qed.

End Logic.

#[export] Hint Resolve within_ret within_raise within_bind within_map_err within_attempt within_finally
  within_on_error within_ok_or within_guard within_of_result : io.

Lemma triple_lift {S E A} (P : S * World -> Prop) (m : IO E A) (Q : A -> S * World -> Prop) (R : S * World -> Prop) :
  (forall s, triple (fun w => P (s, w)) m (fun a w => Q a (s, w)) (fun w => R (s, w))) -> triple P (lift m) Q R.
Proof. intros Hm [s w] Hw. specialize (Hm s w Hw). unfold lift. by destruct (m w) as [[a|e|] w']. Qed.

Lemma bind_get_self {S E A} (k : S -> Eff (S * World) E A) s w : (get_self ≫= k) (s, w) = k s (s, w).
Proof. done. Qed.

Lemma bind_set_self {S E A} (k : unit -> Eff (S * World) E A) s s' w : (set_self s' ≫= k) (s, w) = k tt (s', w).
Proof. done. Qed.

(** The world after a reading of the monotonic, and of the wall clock. *)
Definition ticked (w : World) : World :=
  mkWorld (disk w) (held w) (fates w) (wall w) (tail (instants w)) (serials w).
Definition wall_ticked (w : World) : World :=
  mkWorld (disk w) (held w) (fates w) (tail (wall w)) (instants w) (serials w).

Lemma instant_now_eq {E} w : instant_now (E := E) w = (Returned (hd 0 (instants w)), ticked w).
Proof. unfold instant_now. by destruct w as [? ? ? ? [|? ?] ?]. Qed.

Lemma now_ms_eq {E} w : now_ms (E := E) w = (Returned (hd 0 (wall w)), wall_ticked w).
Proof. unfold now_ms. by destruct w as [? ? ? [|? ?] ? ?]. Qed.

Lemma bind_instant_now {S E A} (k : Z -> Eff (S * World) E A) s w :
  (lift instant_now ≫= k) (s, w) = k (hd 0 (instants w)) (s, ticked w).
Proof. unfold mbind, eff_bind, lift. by rewrite instant_now_eq. Qed.

Lemma bind_now_ms {S E A} (k : Z -> Eff (S * World) E A) s w :
  (lift now_ms ≫= k) (s, w) = k (hd 0 (wall w)) (s, wall_ticked w).
Proof. unfold mbind, eff_bind, lift. by rewrite now_ms_eq. Qed.

(** ** Runs in which nothing fails *)

(** Both halves of a sequence that returned did. *)
Lemma bind_inv {W E A B} (m : Eff W E A) (k : A -> Eff W E B) w b w' :
  (m ≫= k) w = (Returned b, w') -> exists a w1, m w = (Returned a, w1) /\ k a w1 = (Returned b, w').
Proof. unfold mbind, eff_bind. destruct (m w) as [[a|e|] w1]; [|done..]. eauto. Qed.

Lemma on_error_inv {W E F A} (m : Eff W E A) (drop : Eff W F unit) w a w' :
  on_error m drop w = (Returned a, w') -> m w = (Returned a, w').
Proof. unfold on_error. destruct (m w) as [[b|e|] w1]; [done| |done]. by destruct (drop w1) as [[?|?|] w2]. Qed.

Lemma finally_inv {W E F A} (m : Eff W E A) (drop : Eff W F unit) w a w' :
  finally m drop w = (Returned a, w') -> exists w1, m w = (Returned a, w1) /\ (drop w1).2 = w'.
Proof.
  unfold finally. destruct (m w) as [[b|e|] w1]; [|by destruct (drop w1) as [[?|?|] w2]|done].
  intros Hr. exists w1. destruct (drop w1) as [[?|?|] w2]; by simplify_eq/=.
Qed.

Lemma attempt_ok_inv {W E F A} (m : Eff W E A) w a w' :
  attempt (F := F) m w = (Returned (Ok a), w') -> m w = (Returned a, w').
Proof. unfold attempt. by destruct (m w) as [[b|e|] w1]; intros; simplify_eq. Qed.

Lemma attempt_err_inv {W E F A} (m : Eff W E A) w e w' :
  attempt (F := F) m w = (Returned (Err e), w') -> m w = (Raised e, w').
Proof. unfold attempt. by destruct (m w) as [[b|e'|] w1]; intros; simplify_eq. Qed.

Lemma map_err_inv {W E F A} (f : E -> F) (m : Eff W E A) w a w' :
  map_err f m w = (Returned a, w') -> m w = (Returned a, w').
Proof. unfold map_err. by destruct (m w) as [[b|e|] w1]; intros; simplify_eq. Qed.

Lemma guard_inv {W E} b (e : E) (w : W) u w' : guard_io b e w = (Returned u, w') -> b = true /\ w' = w.
Proof. destruct b; unfold guard_io, mret, eff_ret, raise; intros; by simplify_eq. Qed.

Lemma ok_or_inv {W E A} (o : option A) (e : E) (w : W) a w' : ok_or o e w = (Returned a, w') -> o = Some a /\ w' = w.
Proof. destruct o; unfold ok_or, mret, eff_ret, raise; intros; by simplify_eq. Qed.

Lemma bind_returned {W E A B} (m : Eff W E A) (k : A -> Eff W E B) w a w' :
  m w = (Returned a, w') -> (m ≫= k) w = k a w'.
Proof. intros Hm. unfold mbind, eff_bind. by rewrite Hm. Qed.

Lemma attempt_returned {W E F A} (m : Eff W E A) w a w' :
  m w = (Returned a, w') -> (attempt m : Eff W F _) w = (Returned (Ok a), w').
Proof. intros Hm. unfold attempt. by rewrite Hm. Qed.

Lemma set_disk_same w : set_disk w (disk w) = w.
Proof. by destruct w. Qed.

Section Calm.
Context (w : World) (Hcalm : fates w = []).

Lemma op_calm {A : Type} partly (whole : Disk -> result (A * Disk) IoErr) a d :
  whole (disk w) = Ok (a, d) -> op partly whole w = (Returned a, set_disk w d).
Proof. intros Hw. unfold op. by rewrite Hcalm, Hw. Qed.

Lemma read_file_calm p c s : disk w !! p = Some (NFile c s) -> read_file p w = (Returned c, w).
Proof. intros Hp. rewrite <-(set_disk_same w) at 2. apply op_calm. by rewrite Hp. Qed.

Lemma metadata_calm p c s : disk w !! p = Some (NFile c s) -> metadata p w = (Returned (mkMeta true false (zlen c)), w).
Proof. intros Hp. rewrite <-(set_disk_same w) at 2. apply op_calm. by rewrite Hp. Qed.

Lemma symlink_metadata_calm p n : disk w !! p = Some n -> symlink_metadata p w = (Returned (meta_of n), w).
Proof. intros Hp. rewrite <-(set_disk_same w) at 2. apply op_calm. by rewrite Hp. Qed.

Lemma symlink_metadata_missing p : disk w !! p = None -> symlink_metadata p w = (Raised not_found, w).
Proof. intros Hp. unfold symlink_metadata, op. by rewrite Hcalm, Hp. Qed.

Lemma open_existing_calm p c s : disk w !! p = Some (NFile c s) -> open_existing p w = (Returned tt, w).
Proof. intros Hp. rewrite <-(set_disk_same w) at 2. apply op_calm. by rewrite Hp. Qed.

End Calm.

(** ** What an operation touches *)

Class HasDisk (W : Type) := disk_of : W -> Disk.
#[export] Instance world_disk : HasDisk World := disk.
#[export] Instance self_disk {S} : HasDisk (S * World) := fun '(_, w) => disk w.

Definition same_except (ps : list path) (d d' : Disk) : Prop := forall p, p ∉ ps -> d' !! p = d !! p.

#[export] Instance same_except_preorder ps : PreOrder (same_except ps).
Proof. split; [by intros d p|]. intros d1 d2 d3 H1 H2 p Hp. by rewrite H2, H1. Qed.

Lemma same_except_mono ps qs d d' : ps ⊆ qs -> same_except ps d d' -> same_except qs d d'.
Proof. intros Hs H p Hp. apply H. set_solver. Qed.

(** Whatever happens, only these paths change. *)
Definition touches {W} `{HasDisk W} {E A} (ps : list path) (m : Eff W E A) : Prop :=
  within (fun w w' => same_except ps (disk_of w) (disk_of w')) m.

#[export] Instance touches_preorder {W} `{HasDisk W} ps :
  PreOrder (fun w w' : W => same_except ps (disk_of w) (disk_of w')).
Proof. split; [by intros w | by intros w1 w2 w3; etrans]. Qed.

(** A fact that only depends on other paths. *)
Definition apart (ps : list path) (F : Disk -> Prop) : Prop := forall d d', same_except ps d d' -> F d -> F d'.

Section Frame.
Context {W} `{HasDisk W}.

Lemma touches_mono {E A} ps qs (m : Eff W E A) : ps ⊆ qs -> touches ps m -> touches qs m.
Proof. intros Hs Hm w. by eapply same_except_mono. Qed.

Lemma triple_frame {E A} ps P (m : Eff W E A) Q R F :
  triple P m Q R -> touches ps m -> apart ps F ->
  triple (fun w => P w /\ F (disk_of w)) m (fun a w => Q a w /\ F (disk_of w)) (fun w => R w /\ F (disk_of w)).
Proof.
  intros Hm Ht HF w [HP Hw]. specialize (Hm w HP). specialize (Ht w).
  destruct (m w) as [[a|e|] w']; simpl in *; (split; [done | by eapply HF]).
Qed.

Lemma triple_touches {E A} ps (m : Eff W E A) F :
  touches ps m -> apart ps F ->
  triple (fun w => F (disk_of w)) m (fun _ w => F (disk_of w)) (fun w => F (disk_of w)).
Proof.
  intros Ht HF w Hw. specialize (Ht w). destruct (m w) as [[a|e|] w']; simpl in *; by eapply HF.
Qed.

(** A step that does not touch what is known. *)
Lemma triple_keep {E A B} ps F (m : Eff W E A) (k : A -> Eff W E B) Q R :
  touches ps m -> apart ps F -> (forall w, F (disk_of w) -> R w) ->
  (forall a, triple (fun w => F (disk_of w)) (k a) Q R) -> triple (fun w => F (disk_of w)) (m ≫= k) Q R.
Proof. intros Hm HF HR Hk. eapply triple_then; [by eapply triple_touches | done | done]. Qed.

End Frame.

Lemma apart_mono ps qs F : ps ⊆ qs -> apart qs F -> apart ps F.
Proof. intros Hs HF d d' Hd. apply HF. by eapply same_except_mono. Qed.

Lemma apart_and ps F G : apart ps F -> apart ps G -> apart ps (fun d => F d /\ G d).
Proof. intros HF HG d d' Hs [? ?]. split; [by eapply HF | by eapply HG]. Qed.

Lemma apart_lookup ps p (F : option Node -> Prop) : p ∉ ps -> apart ps (fun d => F (d !! p)).
Proof. intros Hp d d' Hs. by rewrite (Hs p Hp). Qed.

(** *** The operations one by one *)

Lemma op_touches {A : Type} ps partly (whole : Disk -> result (A * Disk) IoErr) :
  (forall n gone d, same_except ps d (partly n gone d)) ->
  (forall d a d', whole d = Ok (a, d') -> same_except ps d d') -> touches ps (op partly whole).
Proof.
  intros Hp Hw w. unfold op.
  assert (Hgo : forall fs,
    same_except ps (disk w)
      (disk (match whole (disk w) with Ok (a, d) => (Returned (E := IoErr) a, set_disk (set_fates w fs) d)
             | Err e => (Raised e, set_fates w fs) end).2)).
  { intros fs. destruct (whole (disk w)) as [[a d]|e] eqn:Hd; [by apply (Hw _ a) | done]. }
  destruct (fates w) as [|[|why n gone] fs] eqn:Hf.
  - specialize (Hgo (fates w)). by destruct (whole (disk w)) as [[a d]|e].
  - apply Hgo.
  - by destruct why; apply Hp.
Qed.

Lemma triple_op {A : Type} partly (whole : Disk -> result (A * Disk) IoErr) (P R : Disk -> Prop) (Q : A -> Disk -> Prop) :
  (forall d a d', P d -> whole d = Ok (a, d') -> Q a d') ->
  (forall d e, P d -> whole d = Err e -> R d) ->
  (forall d n gone, P d -> R (partly n gone d)) ->
  triple (fun w => P (disk w)) (op partly whole) (fun a w => Q a (disk w)) (fun w => R (disk w)).
Proof.
  intros Hq Hr Hp w Hw. unfold op.
  assert (Hgo : forall w2, disk w2 = disk w ->
    match (match whole (disk w2) with Ok (a, d) => (Returned (E := IoErr) a, set_disk w2 d)
           | Err e => (Raised e, w2) end) with
    | (Returned a, w') => Q a (disk w') | (_, w') => R (disk w') end).
  { intros w2 Hd. rewrite Hd. destruct (whole (disk w)) as [[a d]|e] eqn:Hx; simpl; [by eapply Hq|].
    rewrite Hd. by eapply Hr. }
  destruct (fates w) as [|[|why n gone] fs]; [by apply Hgo | by apply Hgo|].
  destruct why; simpl; by apply Hp.
Qed.

Lemma same_except_insert p n d : same_except [p] d (<[p := n]> d).
Proof. intros q Hq. rewrite lookup_insert_ne; [done|]. set_solver. Qed.

Lemma same_except_alter p f d : same_except [p] d (alter f p d).
Proof. intros q Hq. rewrite lookup_alter_ne; [done|]. set_solver. Qed.

Lemma same_except_delete p d : same_except [p] d (delete p d).
Proof. intros q Hq. rewrite lookup_delete_ne; [done|]. set_solver. Qed.

Lemma same_except_rename src dst n d : same_except [src; dst] d (<[dst := n]> (delete src d)).
Proof. intros q Hq. rewrite lookup_insert_ne, lookup_delete_ne; [done|set_solver|set_solver]. Qed.

#[export] Hint Resolve same_except_insert same_except_alter same_except_delete same_except_rename : io.

Ltac touch_op :=
  apply op_touches; [intros ??? | intros ??? ?; repeat case_match]; simplify_eq; try done; auto with io; try reflexivity.

Lemma symlink_metadata_touches p : touches [] (symlink_metadata p).
Proof. touch_op. Qed.
Lemma metadata_touches p : touches [] (metadata p).
Proof. touch_op. Qed.
Lemma read_file_touches p : touches [] (read_file p).
Proof. touch_op. Qed.
Lemma open_truncate_touches p : touches [p] (open_truncate p).
Proof. touch_op. Qed.
Lemma open_new_touches p : touches [p] (open_new p).
Proof. touch_op. Qed.
Lemma open_existing_touches p : touches [] (open_existing p).
Proof. touch_op. Qed.
Lemma open_or_create_touches p : touches [p] (open_or_create p).
Proof. touch_op. Qed.
Lemma set_len_touches p n : touches [p] (set_len p n).
Proof. touch_op. Qed.
Lemma write_file_touches p bs : touches [p] (write_file p bs).
Proof. unfold write_file, append_at. touch_op. Qed.
Lemma sync_file_touches p : touches [p] (sync_file p).
Proof. touch_op. Qed.
Lemma sync_directory_touches p : touches [] (sync_directory p).
Proof. touch_op. Qed.
Lemma rename_file_touches src dst : touches [src; dst] (rename_file src dst).
Proof. touch_op. Qed.
Lemma remove_file_touches p : touches [p] (remove_file p).
Proof. touch_op. Qed.
Lemma remove_dir_touches p : touches [p] (remove_dir p).
Proof. touch_op. Qed.
Lemma create_dir_touches p : touches [p] (create_dir p).
Proof. touch_op. Qed.
Lemma read_dir_touches p : touches [] (read_dir p).
Proof. touch_op. Qed.
Lemma try_lock_touches p : touches [] (try_lock p).
Proof. intros w. unfold try_lock. by case_match. Qed.
Lemma unlock_touches p : touches [] (unlock p).
Proof. by intros w. Qed.
Lemma now_ms_touches {E} : touches [] (now_ms (E := E)).
Proof. intros w. unfold now_ms. by case_match. Qed.
Lemma instant_now_touches {E} : touches [] (instant_now (E := E)).
Proof. intros w. unfold instant_now. by case_match. Qed.
Lemma next_serial_touches {E} : touches [] (next_serial (E := E)).
Proof. by intros w. Qed.

Lemma make_missing_same d ps : same_except ps d (make_missing d ps).
Proof.
  unfold make_missing. revert d. induction ps as [|q ps IH]; intros d; simpl; [done|].
  etrans; [|eapply same_except_mono; [|apply IH]; set_solver].
  intros p Hp. destruct (d !! q); [done|]. rewrite lookup_insert_ne; [done | set_solver].
Qed.

Lemma create_dir_all_touches p : touches (ancestors p) (create_dir_all p).
Proof.
  apply op_touches.
  - intros n _ d. case_match; [|reflexivity]. eapply same_except_mono; [|apply make_missing_same].
    intros q Hq. apply elem_of_take in Hq as (i & Hq & _). by eapply list_elem_of_lookup_2.
  - intros d a d' Hd. case_match; simplify_eq. apply make_missing_same.
Qed.

Lemma lift_touches {S E A} ps (m : IO E A) : touches ps m -> touches ps (lift (S := S) m).
Proof. intros Hm [s w]. specialize (Hm w). unfold lift. by destruct (m w). Qed.
Lemma get_self_touches {S E} : touches [] (get_self (S := S) (E := E)).
Proof. by intros [s w]. Qed.
Lemma set_self_touches {S E} (s : S) : touches [] (set_self (E := E) s).
Proof. by intros [? w]. Qed.

(** *** What they do to one file, whatever else holds of the disk *)

Section Files.
Context (F : Disk -> Prop).

Lemma open_truncate_triple p :
  apart [p] F ->
  triple (fun w => F (disk w)) (open_truncate p)
    (fun _ w => disk w !! p = Some (NFile [] 0) /\ F (disk w)) (fun w => F (disk w)).
Proof.
  intros HF. apply (triple_op _ _ F F (fun _ d => d !! p = Some (NFile [] 0) /\ F d)); [|done..]. intros d [] d' Hd Ho.
  repeat case_match; simplify_eq; (split; [by rewrite lookup_insert_eq | eapply HF; [apply same_except_insert | done]]).
Qed.

Lemma open_new_triple p :
  apart [p] F ->
  triple (fun w => F (disk w)) (open_new p)
    (fun _ w => disk w !! p = Some (NFile [] 0) /\ F (disk w)) (fun w => F (disk w)).
Proof.
  intros HF. apply (triple_op _ _ F F (fun _ d => d !! p = Some (NFile [] 0) /\ F d)); [|done..]. intros d [] d' Hd Ho.
  repeat case_match; simplify_eq; (split; [by rewrite lookup_insert_eq | eapply HF; [apply same_except_insert | done]]).
Qed.

Lemma write_file_triple p bs c s :
  apart [p] F ->
  triple (fun w => disk w !! p = Some (NFile c s) /\ F (disk w)) (write_file p bs)
    (fun _ w => disk w !! p = Some (NFile (c ++ bs) s) /\ F (disk w))
    (fun w => exists n, disk w !! p = Some (NFile (c ++ take n bs) s) /\ F (disk w)).
Proof.
  intros HF. apply (triple_op _ _ (fun d => d !! p = Some (NFile c s) /\ F d)
    (fun d => exists n, d !! p = Some (NFile (c ++ take n bs) s) /\ F d)
    (fun _ d => d !! p = Some (NFile (c ++ bs) s) /\ F d)); unfold append_at.
  - intros d [] d' [Hp Hd] [= <-]. rewrite lookup_alter_eq, Hp. split; [done|]. eapply HF; [apply same_except_alter | done].
  - done.
  - intros d n gone [Hp Hd]. exists n. rewrite lookup_alter_eq, Hp. split; [done|]. eapply HF; [apply same_except_alter | done].
Qed.

Lemma sync_file_triple p c s :
  apart [p] F ->
  triple (fun w => disk w !! p = Some (NFile c s) /\ F (disk w)) (sync_file p)
    (fun _ w => disk w !! p = Some (NFile c (length c)) /\ F (disk w))
    (fun w => disk w !! p = Some (NFile c s) /\ F (disk w)).
Proof.
  intros HF. apply (triple_op _ _ (fun d => d !! p = Some (NFile c s) /\ F d)
    (fun d => d !! p = Some (NFile c s) /\ F d) (fun _ d => d !! p = Some (NFile c (length c)) /\ F d)); [|done..].
  intros d [] d' [Hp Hd] [= <-]. rewrite lookup_alter_eq, Hp. split; [done|]. eapply HF; [apply same_except_alter | done].
Qed.

Lemma rename_file_triple src dst n o :
  src <> dst -> apart [src; dst] F ->
  triple (fun w => disk w !! src = Some n /\ disk w !! dst = o /\ F (disk w)) (rename_file src dst)
    (fun _ w => disk w !! src = None /\ disk w !! dst = Some n /\ F (disk w))
    (fun w => disk w !! src = Some n /\ disk w !! dst = o /\ F (disk w)).
Proof.
  intros Hne HF. apply (triple_op _ _ (fun d => d !! src = Some n /\ d !! dst = o /\ F d)
    (fun d => d !! src = Some n /\ d !! dst = o /\ F d) (fun _ d => d !! src = None /\ d !! dst = Some n /\ F d)); [|done..].
  intros d [] d' (Hs & Ho & Hd) Hr. rewrite Hs, Ho in Hr.
  repeat case_match; simplify_eq;
    (split; [by rewrite lookup_insert_ne, lookup_delete_eq
            |split; [by rewrite lookup_insert_eq | eapply HF; [apply same_except_rename | done]]]).
Qed.

End Files.

(** Writing a fresh staging file, syncing it and renaming it into place replaces
    the destination atomically: it is the old node or the whole new file, synced,
    wherever this stops. *)
Definition put_in_place (tmp dst dir : path) (bs : bytes) : IO IoErr unit :=
  _ ← write_file tmp bs;
  _ ← sync_file tmp;
  _ ← rename_file tmp dst;
  sync_directory dir.

Definition whole_file (bs : bytes) : Node := NFile bs (length bs).

Lemma put_in_place_triple (F : Disk -> Prop) tmp dst dir bs old :
  tmp <> dst -> apart [tmp; dst] F ->
  triple (fun w => disk w !! tmp = Some (NFile [] 0) /\ disk w !! dst = old /\ F (disk w))
    (put_in_place tmp dst dir bs)
    (fun _ w => disk w !! dst = Some (whole_file bs) /\ F (disk w))
    (fun w => (disk w !! dst = old \/ disk w !! dst = Some (whole_file bs)) /\ F (disk w)).
Proof.
  intros Hne HF.
  assert (HFt : apart [tmp] F).
  { intros d d' Hs. apply HF. eapply same_except_mono; [|apply Hs]. set_solver. }
  assert (HO : apart [tmp] (fun d => d !! dst = old /\ F d)).
  { apply apart_and; [|done]. apply (apart_lookup _ dst (fun n => n = old)). set_solver. }
  eapply triple_then; [apply (write_file_triple (fun d => d !! dst = old /\ F d) tmp bs [] 0 HO) | |].
  { intros w (n & _ & Ho & Hw). split; [by left | done]. }
  intros []. eapply triple_then; [apply (sync_file_triple (fun d => d !! dst = old /\ F d) tmp bs 0%nat HO) | |].
  { intros w (_ & Ho & Hw). split; [by left | done]. }
  intros []. eapply triple_then; [apply (rename_file_triple F tmp dst (whole_file bs) old Hne HF) | |].
  { intros w (_ & Ho & Hw). split; [by left | done]. }
  intros []. eapply triple_conseq; [apply (triple_touches [] _ (fun d => d !! dst = Some (whole_file bs) /\ F d))| | |].
  - apply sync_directory_touches.
  - intros d d' Hs [H1 H2]. split; [by rewrite Hs by set_solver | eapply HF; [|done]].
    eapply same_except_mono; [|done]. set_solver.
  - by intros w (_ & ? & ?).
  - done.
  - intros w [? ?]. split; [by right | done].
Qed.

(** *** Paths in a directory *)

Lemma child_inj dir a b : dir /> a = dir /> b -> a = b.
Proof. intros Heq. by apply app_inj_2 in Heq as [_ [= ->]]. Qed.

Lemma child_ne dir a : dir /> a <> dir.
Proof. intros Heq. apply (f_equal length) in Heq. rewrite length_app in Heq. simpl in Heq. lia. Qed.

(** Distinct names are distinct paths. *)
Ltac path_ne :=
  first
    [ done
    | let Heq := fresh in intros Heq; apply child_inj in Heq; (discriminate Heq || by simplify_eq)
    | apply child_ne
    | apply not_eq_sym, child_ne ].

Ltac not_in_paths := rewrite ?not_elem_of_cons; repeat split; try path_ne; try apply not_elem_of_nil.

(** *** Composing what is touched *)

Section Touches.
Context {W} `{HasDisk W} (ps : list path).

Lemma touches_ret {E A} (a : A) : touches ps (mret a : Eff W E A).
Proof. apply within_ret. apply _. Qed.
Lemma touches_raise {E A} (e : E) : touches ps (raise e : Eff W E A).
Proof. apply within_raise. apply _. Qed.
Lemma touches_bind {E A B} (m : Eff W E A) (k : A -> Eff W E B) :
  touches ps m -> (forall a, touches ps (k a)) -> touches ps (m ≫= k).
Proof. apply within_bind. apply _. Qed.
Lemma touches_map_err {E F A} (f : E -> F) (m : Eff W E A) : touches ps m -> touches ps (map_err f m).
Proof. apply within_map_err. Qed.
Lemma touches_attempt {E F A} (m : Eff W E A) : touches ps m -> touches ps (attempt m : Eff W F _).
Proof. apply within_attempt. Qed.
Lemma touches_finally {E F A} (m : Eff W E A) (drop : Eff W F unit) :
  touches ps m -> touches ps drop -> touches ps (finally m drop).
Proof. apply within_finally. apply _. Qed.
Lemma touches_on_error {E F A} (m : Eff W E A) (drop : Eff W F unit) :
  touches ps m -> touches ps drop -> touches ps (on_error m drop).
Proof. apply within_on_error. apply _. Qed.
Lemma touches_ok_or {E A} (o : option A) (e : E) : touches ps (ok_or o e).
Proof. apply within_ok_or. apply _. Qed.
Lemma touches_guard {E} b (e : E) : touches ps (guard_io b e).
Proof. apply within_guard. apply _. Qed.
Lemma touches_of_result {E A} (r : result A E) : touches ps (of_result r).
Proof. apply within_of_result. apply _. Qed.

End Touches.

Create HintDb touch.
#[export] Hint Resolve symlink_metadata_touches metadata_touches read_file_touches open_truncate_touches
  open_new_touches open_existing_touches open_or_create_touches set_len_touches write_file_touches sync_file_touches sync_directory_touches
  rename_file_touches remove_file_touches remove_dir_touches create_dir_touches read_dir_touches
  try_lock_touches unlock_touches now_ms_touches instant_now_touches next_serial_touches
  create_dir_all_touches get_self_touches set_self_touches : touch.

(** Walk through a computation; an operation is looked up with its own paths. *)
Ltac touch_step :=
  match goal with
  | |- touches _ (mbind _ _) => apply touches_bind; [|intros ?]
  | |- touches _ (mret _) => apply touches_ret
  | |- touches _ (raise _) => apply touches_raise
  | |- touches _ (map_err _ _) => apply touches_map_err
  | |- touches _ (attempt _) => apply touches_attempt
  | |- touches _ (finally _ _) => apply touches_finally
  | |- touches _ (on_error _ _) => apply touches_on_error
  | |- touches _ (ok_or _ _) => apply touches_ok_or
  | |- touches _ (guard_io _ _) => apply touches_guard
  | |- touches _ (of_result _) => apply touches_of_result
  | |- touches _ (lift _) => apply lift_touches
  | |- touches _ (match ?x with _ => _ end) => destruct x
  | |- touches _ _ => eapply touches_mono; [|solve [eauto with touch]]; set_solver
  end.
Ltac touch := repeat touch_step.
