(* ===== verification/WalTypes.v ===== *)
(** * The records of the session log

    The documents a session directory holds: [manifest.json]
    ([fotw-pipeline/src/wal.rs]), the capture checkpoint ([capture_clock.rs]) and
    the claim and promotion records ([promote.rs]), with what the log relies on of
    the JSON they are written in. *)

From S2P Require Import Prelude Bytes Json.

Local Open Scope Z_scope.

(** ** Formats *)

Record TrackFormat := mkFormat { sample_rate_hz : Z; channels : Z }.

#[export] Instance TrackFormat_eq_dec : EqDecision TrackFormat.
Proof. solve_decision. Defined.

(** The same format with the zeroes taken out. *)
Definition sane (f : TrackFormat) : TrackFormat :=
  mkFormat (Z.max (sample_rate_hz f) 1) (Z.max (channels f) 1).

Record SessionFormats := mkFormats { f_system : TrackFormat; f_mic : TrackFormat; mic_inferred : bool }.

Definition format_ok (f : TrackFormat) : Prop := in_u32 (sample_rate_hz f) /\ 0 <= channels f < 2 ^ 16.

(** ** Gaps *)

Record Gap := mkGap { gap_start_ms : Z; gap_end_ms : Z; reason : string }.

#[export] Instance Gap_eq_dec : EqDecision Gap.
Proof. solve_decision. Defined.

Definition gap_duration_ms (g : Gap) : Z := sat_sub (gap_end_ms g) (gap_start_ms g).

(** ** Archives *)

Record EncodedTrack := mkTrack {
  file : string;
  pcm_bytes : Z;
  opus_bytes : Z;
  track_duration_ms : Z;
  track_rate_hz : Z;
}.

#[export] Instance EncodedTrack_eq_dec : EqDecision EncodedTrack.
Proof. solve_decision. Defined.

Record EncodedSession := mkEncoded { e_system : EncodedTrack; e_mic : EncodedTrack }.

#[export] Instance EncodedSession_eq_dec : EqDecision EncodedSession.
Proof. solve_decision. Defined.

(** Totals, wrapping in a release build. *)
Definition session_opus_bytes (e : EncodedSession) : Z := wadd (opus_bytes (e_system e)) (opus_bytes (e_mic e)).
Definition session_pcm_bytes (e : EncodedSession) : Z := wadd (pcm_bytes (e_system e)) (pcm_bytes (e_mic e)).

(** ** Promotion *)

Record Claim := mkClaim { c_meeting_id : string; c_rel_dir : string }.

Record PromotedTrack := mkPromoted {
  channel : string;
  rel_path : string;
  p_bytes : Z;
  p_duration_ms : Z;
  p_rate_hz : Z;
}.

#[export] Instance PromotedTrack_eq_dec : EqDecision PromotedTrack.
Proof. solve_decision. Defined.

Record Promotion := mkPromotion { p_meeting_id : string; p_rel_dir : string; tracks : list PromotedTrack }.

(** ** The manifest *)

Record Manifest := mkManifest {
  id : string;
  m_sample_rate_hz : Z;
  m_channels : Z;
  started_at_ms : Z;
  host_epoch_ns : Z;
  app_version : string;
  schema : Z;
  system_format : option TrackFormat;
  mic_format : option TrackFormat;
  ended_at_ms : option Z;
  gaps : list Gap;
  encoded : option EncodedSession;
  claim : option Claim;
  promoted : option Promotion;
}.

#[export] Instance Claim_eq_dec : EqDecision Claim.
Proof. solve_decision. Defined.
#[export] Instance Promotion_eq_dec : EqDecision Promotion.
Proof. solve_decision. Defined.
#[export] Instance Manifest_eq_dec : EqDecision Manifest.
Proof. solve_decision. Defined.

Definition with_ended (m : Manifest) (t : option Z) : Manifest :=
  mkManifest (id m) (m_sample_rate_hz m) (m_channels m) (started_at_ms m) (host_epoch_ns m) (app_version m)
    (schema m) (system_format m) (mic_format m) t (gaps m) (encoded m) (claim m) (promoted m).
Definition with_gaps (m : Manifest) (g : list Gap) : Manifest :=
  mkManifest (id m) (m_sample_rate_hz m) (m_channels m) (started_at_ms m) (host_epoch_ns m) (app_version m)
    (schema m) (system_format m) (mic_format m) (ended_at_ms m) g (encoded m) (claim m) (promoted m).
Definition with_encoded (m : Manifest) (e : option EncodedSession) : Manifest :=
  mkManifest (id m) (m_sample_rate_hz m) (m_channels m) (started_at_ms m) (host_epoch_ns m) (app_version m)
    (schema m) (system_format m) (mic_format m) (ended_at_ms m) (gaps m) e (claim m) (promoted m).
Definition with_claim (m : Manifest) (c : option Claim) : Manifest :=
  mkManifest (id m) (m_sample_rate_hz m) (m_channels m) (started_at_ms m) (host_epoch_ns m) (app_version m)
    (schema m) (system_format m) (mic_format m) (ended_at_ms m) (gaps m) (encoded m) c (promoted m).
Definition with_promoted (m : Manifest) (p : option Promotion) : Manifest :=
  mkManifest (id m) (m_sample_rate_hz m) (m_channels m) (started_at_ms m) (host_epoch_ns m) (app_version m)
    (schema m) (system_format m) (mic_format m) (ended_at_ms m) (gaps m) (encoded m) (claim m) p.

(** ** Transcript records and checkpoints *)

Record SttRecord := mkStt { seq_no : Z; t0_ms : Z; t1_ms : Z; stt_text : string; audio_byte_offset : Z }.

Record CaptureCheckpoint := mkCheckpoint {
  cp_schema : Z;
  session_id : string;
  cp_started_at_ms : Z;
  elapsed_ms : Z;
  stop_requested : bool;
  system_bytes : Z;
  mic_bytes : Z;
  cp_system_format : TrackFormat;
  cp_mic_format : option TrackFormat;
}.

#[export] Instance CaptureCheckpoint_eq_dec : EqDecision CaptureCheckpoint.
Proof. solve_decision. Defined.

(** ** The documents on disk

    [doc_put] is [serde_json]'s serializer, [doc_get] its parser, and the laws are
    what the log relies on: a document reads back as itself, and no proper prefix
    of one parses, since each is a JSON object. *)

Class JsonDoc (A : Type) := {
  doc_put : A -> bytes;
  doc_get : bytes -> option A;
}.

Class JsonDocLaws (A : Type) `{JsonDoc A} := {
  doc_roundtrip a : doc_get (doc_put a) = Some a;
  doc_torn a k : (k < length (doc_put a))%nat -> doc_get (take k (doc_put a)) = None;
}.

(** A line of a journal: [serde_json] escapes control characters, so the compact
    form of a record is one line, which parses back, and no proper prefix of it
    does. *)
Class LineLaws (A : Type) `{Serde A} := {
  line_plain a : Forall (fun b => b <> LF /\ b <> CR) (to_vec a);
  line_nonempty a : to_vec a <> [];
  line_whole a : from_slice (to_vec a) = Some a;
  line_torn a k : (k < length (to_vec a))%nat -> from_slice (take k (to_vec a)) = None;
}.

(** ** The documents of a codec

    A codec's bytes and a closing brace: a prefix that lacks the brace does not
    parse. *)

Section DocOfCodec.
Context {A : Type} `{Codec A}.

Definition put_doc (a : A) : bytes := put a ++ [BRACE].

Definition get_doc (bs : bytes) : option A :=
  if decide (last bs = Some BRACE) then
    match get bs with Some (a, [_]) => Some a | _ => None end
  else None.

Lemma get_put_doc a : get_doc (put_doc a) = Some a.
Proof. unfold get_doc, put_doc. by rewrite last_snoc, decide_True, get_put. Qed.

Lemma get_torn_doc a k : (k < length (put_doc a))%nat -> get_doc (take k (put_doc a)) = None.
Proof.
  unfold put_doc. rewrite length_app. simpl. intros Hk. rewrite take_app_le by lia.
  unfold get_doc. rewrite decide_False; [done|]. intros Hl%last_Some_elem_of%elem_of_take.
  destruct Hl as (i & Hl & _). by destruct (Forall_lookup_1 _ _ _ _ (put_clean a) Hl) as (_ & _ & []).
Qed.

Lemma put_doc_plain a : Forall (fun b => b <> LF /\ b <> CR) (put_doc a).
Proof.
  apply Forall_app. split; [|by repeat constructor]. eapply Forall_impl; [apply put_clean|].
  by intros b (? & ? & _).
Qed.

Definition doc_of_codec : JsonDoc A := {| doc_put := put_doc; doc_get := get_doc |}.

Lemma doc_of_codec_laws : @JsonDocLaws A doc_of_codec.
Proof. split; [apply get_put_doc | apply get_torn_doc]. Qed.

Definition line_of_codec : Serde A := {| to_chunks a := [put_doc a]; from_slice := get_doc |}.

Lemma line_of_codec_laws : @LineLaws A line_of_codec.
Proof.
  split; intros a; unfold to_vec; simpl; rewrite app_nil_r.
  - apply put_doc_plain.
  - unfold put_doc. by destruct (put a).
  - apply get_put_doc.
  - apply get_torn_doc.
Qed.

End DocOfCodec.

(** ** The reference documents of the session log *)

Module LogCodec.

#[local] Existing Instances codec_pair codec_sum codec_list.
#[local] Instance c_Z : Codec Z := codec_leaf.
#[local] Instance c_bool : Codec bool := codec_leaf.
#[local] Instance c_string : Codec string := codec_leaf.
#[local] Existing Instance codec_option.

#[local] Instance c_format : Codec TrackFormat.
Proof.
  refine (codec_iso (fun f => (sample_rate_hz f, channels f)) (fun '(a, b) => mkFormat a b) _). by intros [].
Defined.

#[local] Instance c_gap : Codec Gap.
Proof.
  refine (codec_iso (fun g => (gap_start_ms g, gap_end_ms g, reason g)) (fun '(a, b, c) => mkGap a b c) _).
  by intros [].
Defined.

#[local] Instance c_track : Codec EncodedTrack.
Proof.
  refine (codec_iso (fun t => (file t, pcm_bytes t, opus_bytes t, track_duration_ms t, track_rate_hz t))
    (fun '(a, b, c, d, e) => mkTrack a b c d e) _). by intros [].
Defined.

#[local] Instance c_encoded : Codec EncodedSession.
Proof. refine (codec_iso (fun s => (e_system s, e_mic s)) (fun '(a, b) => mkEncoded a b) _). by intros []. Defined.

#[local] Instance c_claim : Codec Claim.
Proof. refine (codec_iso (fun c => (c_meeting_id c, c_rel_dir c)) (fun '(a, b) => mkClaim a b) _). by intros []. Defined.

#[local] Instance c_promoted : Codec PromotedTrack.
Proof.
  refine (codec_iso (fun t => (channel t, rel_path t, p_bytes t, p_duration_ms t, p_rate_hz t))
    (fun '(a, b, c, d, e) => mkPromoted a b c d e) _). by intros [].
Defined.

#[local] Instance c_promotion : Codec Promotion.
Proof.
  refine (codec_iso (fun p => (p_meeting_id p, p_rel_dir p, tracks p)) (fun '(a, b, c) => mkPromotion a b c) _).
  by intros [].
Defined.

#[local] Instance c_manifest : Codec Manifest.
Proof.
  refine (codec_iso
    (fun m => (id m, m_sample_rate_hz m, m_channels m, started_at_ms m, host_epoch_ns m, app_version m, schema m,
               system_format m, mic_format m, ended_at_ms m, gaps m, encoded m, claim m, promoted m))
    (fun '(a, b, c, d, e, f, g, h, i, j, k, l, m, n) => mkManifest a b c d e f g h i j k l m n) _).
  by intros [].
Defined.

#[local] Instance c_checkpoint : Codec CaptureCheckpoint.
Proof.
  refine (codec_iso
    (fun c => (cp_schema c, session_id c, cp_started_at_ms c, elapsed_ms c, stop_requested c, system_bytes c,
               mic_bytes c, cp_system_format c, cp_mic_format c))
    (fun '(a, b, c, d, e, f, g, h, i) => mkCheckpoint a b c d e f g h i) _).
  by intros [].
Defined.

#[local] Instance c_stt : Codec SttRecord.
Proof.
  refine (codec_iso (fun r => (seq_no r, t0_ms r, t1_ms r, stt_text r, audio_byte_offset r))
    (fun '(a, b, c, d, e) => mkStt a b c d e) _). by intros [].
Defined.

Definition manifest_doc : JsonDoc Manifest := doc_of_codec.
Definition checkpoint_doc : JsonDoc CaptureCheckpoint := doc_of_codec.
Definition stt_line : Serde SttRecord := line_of_codec.

Definition manifest_laws : @JsonDocLaws Manifest manifest_doc := doc_of_codec_laws.
Definition checkpoint_laws : @JsonDocLaws CaptureCheckpoint checkpoint_doc := doc_of_codec_laws.
Definition stt_laws : @LineLaws SttRecord stt_line := line_of_codec_laws.

End LogCodec.
