(* ===== verification/SessionDir.v ===== *)
(** * The session directory

    What every user of a session directory shares: reading and atomically
    replacing its manifest, how its two PCM legs are to be read, verifying its
    archives ([fotw-pipeline/src/wal.rs]), and the capture owner and its
    checkpoints ([capture_clock.rs]).  The documents are [JsonDoc]s, the disk is
    that of [FileSystem]. *)

From S2P Require Import Prelude Bytes Text Float64 Float32 Json.
From S2P Require Import FileSystem WalTypes OpusArchive.

Local Open Scope Z_scope.

Definition SYNC_INTERVAL : Duration := dur_from_secs 2.
Definition BYTES_PER_SAMPLE : Z := 2.
Definition SYSTEM_PCM : string := "system.pcm".
Definition SYSTEM_OPUS : string := "system.opus".
Definition MIC_PCM : string := "mic.pcm".
Definition MIC_OPUS : string := "mic.opus".
Definition LEGS : list (string * string) := [(SYSTEM_PCM, SYSTEM_OPUS); (MIC_PCM, MIC_OPUS)].
Definition SCHEMA : Z := 4.
Definition TARGET_RATE : Z := 16000.

Definition MANIFEST : string := "manifest.json".
Definition MANIFEST_TMP : string := "manifest.json.tmp".
Definition OWNER_LOCK : string := "capture-owner.lock".
Definition CLOCK : string := "capture-clock.json".
Definition CLOCK_TMP : string := "capture-clock.json.tmp".
Definition STT_JSONL : string := "stt.jsonl".

Definition bad_data (message : string) : IoErr := mkIo InvalidData message.

(** A missing entry is fine, any other error is not. *)
Definition unless_missing {A} (r : result A IoErr) (found : A -> IO IoErr unit) : IO IoErr unit :=
  match r with
  | Ok a => found a
  | Err e => if decide (error_kind e = NotFound) then mret tt else raise e
  end.

(** ** The manifest *)

Section Manifest.
Context `{JsonDoc Manifest}.

Definition read_manifest (dir : path) : IO IoErr Manifest :=
  text ← read_file (dir /> MANIFEST);
  ok_or (doc_get text) (bad_data "manifest does not parse").

(** Written to a sibling, synced, renamed into place, the directory synced. *)
Definition write_manifest_at (dir : path) (m : Manifest) : IO IoErr unit :=
  let tmp := dir /> MANIFEST_TMP in
  r ← attempt (symlink_metadata tmp);
  _ ← unless_missing r (fun md => guard_io (is_file md) (bad_data "manifest staging must be an ordinary file"));
  _ ← open_truncate tmp;
  _ ← write_file tmp (doc_put m);
  _ ← sync_file tmp;
  _ ← rename_file tmp (dir /> MANIFEST);
  sync_directory dir.

(** *** How the legs are to be read *)

Definition f64_tenth : f64 := SpecFloat.S754_finite false 7205759403792794 (-56).

Definition infer_mic_channels (global_channels sys_bytes mic_bytes : Z) : Z :=
  if (global_channels <? 2) || (sys_bytes =? 0) || (mic_bytes =? 0) then Z.max global_channels 1
  else
    let ratio := f64_div (f64_of_Z mic_bytes) (f64_of_Z sys_bytes) in
    let mono_ratio := f64_div f64_one (f64_of_Z global_channels) in
    if SpecFloat.SFleb (SpecFloat.SFabs (f64_sub ratio mono_ratio)) (f64_mul mono_ratio f64_tenth)
    then 1 else global_channels.

(** The size of a leg; once retired, what the encode says it was. *)
Definition leg_bytes (m : Manifest) (dir : path) (name : string) : IO IoErr Z :=
  r ← attempt (metadata (dir /> name));
  mret match r with
       | Ok md => len md
       | Err e =>
           if decide (error_kind e = NotFound) then
             match encoded m with
             | None => 0
             | Some enc => if decide (name = SYSTEM_PCM) then pcm_bytes (e_system enc) else pcm_bytes (e_mic enc)
             end
           else 0
       end.

Definition track_formats (m : Manifest) (dir : path) : IO IoErr SessionFormats :=
  let global := sane (mkFormat (m_sample_rate_hz m) (m_channels m)) in
  let system := match system_format m with Some f => sane f | None => global end in
  match mic_format m with
  | Some mic => mret (mkFormats system (sane mic) false)
  | None =>
      if SCHEMA <=? schema m then mret (mkFormats system global false)
      else
        s ← leg_bytes m dir SYSTEM_PCM;
        c ← leg_bytes m dir MIC_PCM;
        mret (mkFormats system
                (mkFormat (sample_rate_hz global) (infer_mic_channels (channels global) s c)) true)
  end.

End Manifest.

(** ** Archives of a session *)

Definition is_hexdigit_or_dash (a : ascii) : bool :=
  let b := byte_val a in
  ((48 <=? b) && (b <=? 57)) || ((97 <=? b) && (b <=? 102)) || ((65 <=? b) && (b <=? 70)) || (b =? 45).

Fixpoint all_bytes (p : ascii -> bool) (s : string) : bool :=
  match s with EmptyString => true | String a s => p a && all_bytes p s end.

(** [s.split_once('/')]. *)
Fixpoint split_once_slash (s : string) : option (string * string) :=
  match s with
  | EmptyString => None
  | String a s =>
      if byte_val a =? 47 then Some (EmptyString, s)
      else '(l, r) ← split_once_slash s; Some (String a l, r)
  end.

Definition ARCHIVE_PREFIX : string := ".archive-".

(** A manifest may name only the leg's own file, in the directory or in one of
    this program's generations. *)
Definition archive_path (dir : path) (source file : string) : IO IoErr path :=
  let invalid := bad_data "invalid archive source path" in
  if decide (file = source) then mret (dir /> source)
  else match split_once_slash file with
  | None => raise invalid
  | Some (generation, name) =>
      match strip_prefix ARCHIVE_PREFIX generation with
      | None => raise invalid
      | Some ident =>
          if negb (bool_decide (name = source)) || str_is_empty ident
             || negb (all_bytes is_hexdigit_or_dash ident)
          then raise invalid
          else
            md ← symlink_metadata (dir /> generation);
            _ ← guard_io (is_dir md) invalid;
            mret (dir /> generation /> name)
      end
  end.

Section Verify.
Context `{OpusDecoder}.

(** The frames an archive of [track] must hold, from the raw audio it replaces. *)
Definition expected_ticks (track : EncodedTrack) (format : option TrackFormat) : result Z IoErr :=
  let? frames :=
    match format with
    | Some f =>
        if (sample_rate_hz f =? 0) || (channels f =? 0) || negb (pcm_bytes track mod (channels f * 2) =? 0)
        then Err (bad_data "archive source format or frame alignment is invalid")
        else
          let expected_rate := if supported (sample_rate_hz f) then sample_rate_hz f else TARGET_RATE in
          if negb (track_rate_hz track =? expected_rate)
          then Err (bad_data "archive encoder rate differs from original format")
          else Ok (pcm_bytes track / 2 / channels f * track_rate_hz track / sample_rate_hz f)
    | None =>
        if pcm_bytes track =? 0 then Ok 0 else Err (bad_data "nonempty archive has no original source format")
    end in
  let ticks := frames * (48000 / track_rate_hz track) in
  if ticks <=? u64_max then Ok ticks else Err (bad_data "archive sample count overflow").

(** Verify one complete artifact against its original frame count. *)
Definition verify_encoded_track (dir : path) (name : string) (track : EncodedTrack) (format : option TrackFormat)
  : IO IoErr unit :=
  _ ← guard_io (supported (track_rate_hz track)) (bad_data "archive does not match its declared source");
  p ← archive_path dir name (file track);
  ticks ← of_result (expected_ticks track format);
  md ← symlink_metadata p;
  _ ← guard_io (is_file md) (bad_data "archive must be an ordinary file");
  contents ← read_file p;
  _ ← guard_io (zlen contents =? opus_bytes track) (bad_data "archive size differs from completion metadata");
  _ ← guard_io (opus_bytes track <? u64_max) (bad_data "archive size overflow");
  a ← match inspect_complete_archive (take (Z.to_nat (opus_bytes track + 1)) contents) with
      | Some (Ok a) => mret a
      | Some (Err e) => raise (bad_data "archive does not verify")
      | None => raise (bad_data "unreachable: the verifier returns")
      end;
  _ ← guard_io ((archive_bytes a =? opus_bytes track) && (input_rate_hz a =? track_rate_hz track)
                && (pcm_samples_48k a =? ticks) && (archive_duration_ms a =? track_duration_ms track))
        (bad_data "archive timing differs from original audio");
  sync_file p.

End Verify.

(** Refuse retirement of a raw source the encode does not cover exactly. *)
Definition verify_retained_leg (dir : path) (pcm : string) (track : EncodedTrack) : IO IoErr unit :=
  r ← attempt (symlink_metadata (dir /> pcm));
  unless_missing r (fun md => guard_io (is_file md && (len md =? pcm_bytes track))
                                (bad_data "raw audio differs from the completed archive")).

Definition verify_retained_pcm (dir : path) (enc : EncodedSession) : IO IoErr unit :=
  _ ← verify_retained_leg dir SYSTEM_PCM (e_system enc);
  verify_retained_leg dir MIC_PCM (e_mic enc).

(** ** The capture owner *)

(** An owner is the locked sidecar of its directory. *)
Record CaptureOwner := mkOwner { o_dir : path }.

Definition ordinary (p : path) : IO IoErr unit :=
  md ← symlink_metadata p;
  guard_io (is_file md) (bad_data "capture evidence must be an ordinary file").

Definition owner_create (dir : path) : IO IoErr CaptureOwner :=
  _ ← open_new (dir /> OWNER_LOCK);
  _ ← try_lock (dir /> OWNER_LOCK);
  mret (mkOwner dir).

Definition owner_recover (dir : path) : IO IoErr CaptureOwner :=
  md ← symlink_metadata dir;
  _ ← guard_io (is_dir md) (bad_data "capture directory is not an ordinary directory");
  _ ← ordinary (dir /> OWNER_LOCK);
  _ ← open_existing (dir /> OWNER_LOCK);
  _ ← try_lock (dir /> OWNER_LOCK);
  mret (mkOwner dir).

Definition owner_drop (o : CaptureOwner) : IO IoErr unit := unlock (o_dir o /> OWNER_LOCK).

(** Ownership for archive work; a legacy directory has no sidecar. *)
Definition archive_owner (dir : path) : IO IoErr (option CaptureOwner) :=
  r ← attempt (symlink_metadata (dir /> OWNER_LOCK));
  match r with
  | Ok md =>
      if is_file md then o ← owner_recover dir; mret (Some o)
      else raise (bad_data "archive capture ownership is not an ordinary file")
  | Err e => if decide (error_kind e = NotFound) then mret None else raise e
  end.

Definition archive_owner_drop (o : option CaptureOwner) : IO IoErr unit :=
  match o with Some o => owner_drop o | None => mret tt end.

(** [let _owner = archive_owner(dir)?; ...]. *)
Definition owning {E A} (of_io : IoErr -> E) (dir : path) (body : IO E A) : IO E A :=
  o ← map_err of_io (archive_owner dir);
  finally body (archive_owner_drop o).

(** ** Checkpoints *)

Record CaptureSnapshot := mkSnapshot {
  checkpoint : CaptureCheckpoint;
  system_tail_bytes : Z;
  mic_tail_bytes : Z;
}.

Definition frozen_capture_clock (s : CaptureSnapshot) : option (Z * Z) :=
  let c := checkpoint s in
  if negb (stop_requested c) || negb (system_tail_bytes s =? 0) || negb (mic_tail_bytes s =? 0) then None
  else end_ ← checked_add64 (cp_started_at_ms c) (elapsed_ms c);
       Some (cp_started_at_ms c, end_).

Section Clock.
Context `{JsonDoc Manifest, JsonDoc CaptureCheckpoint, OpusDecoder}.

(** Written to a fresh sibling, synced, renamed into place, the directory synced. *)
Definition publish (o : CaptureOwner) (c : CaptureCheckpoint) : IO IoErr unit :=
  let temp := o_dir o /> CLOCK_TMP in
  r ← attempt (remove_file temp);
  _ ← unless_missing r (fun _ => mret tt);
  _ ← open_new temp;
  _ ← write_file temp (doc_put c);
  _ ← sync_file temp;
  _ ← rename_file temp (o_dir o /> CLOCK);
  sync_directory (o_dir o).

(** The audio of one leg beyond the checkpoint. *)
Definition tail_bytes (dir : path) (name opus : string) (count : Z) (format : option TrackFormat)
    (track : option EncodedTrack) : IO IoErr Z :=
  _ ← of_result
        match format with
        | Some f =>
            if (sample_rate_hz f =? 0) || (channels f =? 0) || negb (count mod (channels f * 2) =? 0)
            then Err (bad_data "invalid checkpoint PCM format or alignment") else Ok tt
        | None => if count =? 0 then Ok tt else Err (bad_data "checkpoint audio has no declared format")
        end;
  r ← attempt (symlink_metadata (dir /> name));
  match r with
  | Ok md =>
      if is_file md then ok_or (checked_sub (len md) count) (bad_data "checkpointed audio has been truncated")
      else raise (bad_data "capture evidence must be an ordinary file")
  | Err e =>
      if decide (error_kind e = NotFound) then
        t ← ok_or track (bad_data "retired PCM has no completed archive");
        _ ← guard_io (pcm_bytes t =? count) (bad_data "archive does not match checkpointed source");
        _ ← verify_encoded_track dir opus t format;
        mret 0
      else raise e
  end.

(** Read bounded clock evidence while owning the recording. *)
Definition snapshot (o : CaptureOwner) : IO IoErr CaptureSnapshot :=
  let dir := o_dir o in
  _ ← ordinary (dir /> CLOCK);
  all ← read_file (dir /> CLOCK);
  let text := take (Z.to_nat 8193) all in
  _ ← guard_io (zlen text <=? 8192) (bad_data "capture checkpoint exceeds size bound");
  c ← ok_or (doc_get text) (bad_data "checkpoint does not parse");
  _ ← ordinary (dir /> MANIFEST);
  m ← read_manifest dir;
  _ ← guard_io ((cp_schema c =? 1) && bool_decide (session_id c = id m)
                && bool_decide (last dir = Some (session_id c))
                && (cp_started_at_ms c =? started_at_ms m)
                && bool_decide (Some (cp_system_format c) = system_format m)
                && bool_decide (cp_mic_format c = mic_format m)
                && is_some (checked_add64 (cp_started_at_ms c) (elapsed_ms c)))
        (bad_data "capture checkpoint does not match original manifest");
  s ← tail_bytes dir SYSTEM_PCM SYSTEM_OPUS (system_bytes c) (Some (cp_system_format c)) (e_system <$> encoded m);
  t ← tail_bytes dir MIC_PCM MIC_OPUS (mic_bytes c) (cp_mic_format c) (e_mic <$> encoded m);
  mret (mkSnapshot c s t).

End Clock.
