(* ===== verification/Wal.v ===== *)
(** * The write-ahead session log

    [fotw-pipeline/src/wal.rs]: [SessionWal], a session being written, and
    [SessionState], a session read back after whatever happened to it.  A method
    of the log is a computation over the log and the world ([Eff (SessionWal *
    World)]), so that what it leaves in memory and on disk is known on every way
    out.  The buffered writers are [std::io::BufWriter] with its capacity of 8 KiB:
    what they hold is lost when the process is killed. *)

From S2P Require Import Prelude Bytes Text Float32 Json.
From S2P Require Import FileSystem WalTypes OpusArchive SessionDir.

Local Open Scope Z_scope.

(** ** Buffered writers *)

Definition BUF_CAPACITY : nat := Z.to_nat 8192.

Record BufWriter := mkBuf { bw_path : path; bw_buf : bytes }.

(** How many bytes the next write leaves on disk. *)
Definition next_reach (w : World) (bs : bytes) : nat :=
  match fates w with Stops _ n _ :: _ => min n (length bs) | _ => length bs end.

(** [flush_buf]: what a failed write did write leaves the buffer. *)
Definition flush_buf : Eff (BufWriter * World) IoErr unit := fun '(b, w) =>
  match bw_buf b with
  | [] => (Returned tt, (b, w))
  | bs =>
      let k := next_reach w bs in
      let '(o, w') := write_file (bw_path b) bs w in
      match o with
      | Returned _ => (o, (mkBuf (bw_path b) [], w'))
      | _ => (o, (mkBuf (bw_path b) (drop k bs), w'))
      end
  end.

Definition bw_push (bs : bytes) : Eff (BufWriter * World) IoErr unit := fun '(b, w) =>
  (Returned tt, (mkBuf (bw_path b) (bw_buf b ++ bs), w)).

(** [write_all]. *)
Definition bw_write_all (bs : bytes) : Eff (BufWriter * World) IoErr unit :=
  b ← get_self;
  let spare := (BUF_CAPACITY - length (bw_buf b))%nat in
  if (length bs <? spare)%nat then bw_push bs
  else
    _ ← (if (spare <? length bs)%nat then flush_buf else mret tt);
    if (BUF_CAPACITY <=? length bs)%nat then lift (write_file (bw_path b) bs) else bw_push bs.

(** [flush] and [get_ref().sync_data()]. *)
Definition bw_sync : Eff (BufWriter * World) IoErr unit :=
  b ← get_self;
  _ ← flush_buf;
  lift (sync_file (bw_path b)).

(** ** The log *)

Record SessionWal := mkWal {
  w_dir : path;
  w_manifest : Manifest;
  w_system : BufWriter;
  w_mic : BufWriter;
  w_stt : BufWriter;
  last_sync : Z;
  capture_owner : CaptureOwner;
  capture_checkpoint : option CaptureCheckpoint;
}.

Definition set_manifest (l : SessionWal) (m : Manifest) : SessionWal :=
  mkWal (w_dir l) m (w_system l) (w_mic l) (w_stt l) (last_sync l) (capture_owner l) (capture_checkpoint l).
Definition set_system (l : SessionWal) (b : BufWriter) : SessionWal :=
  mkWal (w_dir l) (w_manifest l) b (w_mic l) (w_stt l) (last_sync l) (capture_owner l) (capture_checkpoint l).
Definition set_mic (l : SessionWal) (b : BufWriter) : SessionWal :=
  mkWal (w_dir l) (w_manifest l) (w_system l) b (w_stt l) (last_sync l) (capture_owner l) (capture_checkpoint l).
Definition set_stt (l : SessionWal) (b : BufWriter) : SessionWal :=
  mkWal (w_dir l) (w_manifest l) (w_system l) (w_mic l) b (last_sync l) (capture_owner l) (capture_checkpoint l).
Definition set_last_sync (l : SessionWal) (t : Z) : SessionWal :=
  mkWal (w_dir l) (w_manifest l) (w_system l) (w_mic l) (w_stt l) t (capture_owner l) (capture_checkpoint l).
Definition set_checkpoint (l : SessionWal) (c : CaptureCheckpoint) : SessionWal :=
  mkWal (w_dir l) (w_manifest l) (w_system l) (w_mic l) (w_stt l) (last_sync l) (capture_owner l) (Some c).

Abbreviation LogM := (Eff (SessionWal * World) IoErr).

(** A method of one of the writers. *)
Definition on_writer {A} (get : SessionWal -> BufWriter) (set : SessionWal -> BufWriter -> SessionWal)
    (m : Eff (BufWriter * World) IoErr A) : LogM A := fun '(l, w) =>
  let '(o, (b, w')) := m (get l, w) in (o, (set l b, w')).

Definition on_system {A} : Eff (BufWriter * World) IoErr A -> LogM A := on_writer w_system set_system.
Definition on_mic {A} : Eff (BufWriter * World) IoErr A -> LogM A := on_writer w_mic set_mic.
Definition on_stt {A} : Eff (BufWriter * World) IoErr A -> LogM A := on_writer w_stt set_stt.

(** Force everything to disk. *)
Definition wal_flush : LogM unit :=
  _ ← on_system bw_sync;
  _ ← on_mic bw_sync;
  _ ← on_stt bw_sync;
  now ← lift instant_now;
  l ← get_self;
  set_self (set_last_sync l now).

Definition maybe_sync : LogM unit :=
  now ← lift instant_now;
  l ← get_self;
  if SYNC_INTERVAL <=? dur_saturating_sub now (last_sync l) then wal_flush else mret tt.

(** [(s.clamp(-1.0, 1.0) * 32_767.0) as i16]. *)
Definition pcm_sample (s : f32) : Z :=
  f32_as_i16 (f32_mul (f32_clamp s (f32_of_Z (-1)) f32_one) (f32_of_Z 32767)).

Definition pcm_bytes_of (pcm : list f32) : bytes := bytes_of_samples (pcm_sample <$> pcm).

Definition write_system (pcm : list f32) : LogM unit :=
  _ ← on_system (bw_write_all (pcm_bytes_of pcm));
  maybe_sync.

Definition write_mic (pcm : list f32) : LogM unit :=
  _ ← on_mic (bw_write_all (pcm_bytes_of pcm));
  maybe_sync.

Fixpoint write_chunks_to (chunks : list bytes) : Eff (BufWriter * World) IoErr unit :=
  match chunks with
  | [] => mret tt
  | c :: chunks => _ ← bw_write_all c; write_chunks_to chunks
  end.

Definition append_stt `{Serde SttRecord} (r : SttRecord) : LogM unit :=
  _ ← on_stt (write_chunks_to (to_chunks r));
  _ ← on_stt (bw_write_all [LF]);
  maybe_sync.

(** The last gap that ends where this one starts, for the same reason, extended. *)
Fixpoint extend_gap (gs : list Gap) (start end_ : Z) (why : string) : option (list Gap) :=
  match gs with
  | [] => None
  | g :: gs =>
      match extend_gap gs start end_ why with
      | Some gs => Some (g :: gs)
      | None =>
          if (gap_end_ms g =? start) && bool_decide (reason g = why)
          then Some (mkGap (gap_start_ms g) end_ (reason g) :: gs) else None
      end
  end.

Definition add_gap (gs : list Gap) (start end_ : Z) (why : string) : list Gap :=
  default (gs ++ [mkGap start end_ why]) (extend_gap gs start end_ why).

(** ** Identities *)

Definition hex_char (d : Z) : ascii := val_byte (if d <? 10 then 48 + d else 87 + d).

Fixpoint hex_fixed (width : nat) (n : Z) : string :=
  match width with
  | O => EmptyString
  | S width => hex_fixed width (n / 16) +:+ String (hex_char (n mod 16)) EmptyString
  end.

Fixpoint dec_fixed (width : nat) (n : Z) : string :=
  match width with
  | O => EmptyString
  | S width => dec_fixed width (n / 10) +:+ String (val_byte (48 + n mod 10)) EmptyString
  end.

(** [{:013}]: zero-padded, longer when it does not fit. *)
Definition dec13 (n : Z) : string := if n <? 10 ^ 13 then dec_fixed 13 n else pretty n.

(** A sortable identity: the wall clock, the process and a process-wide counter. *)
Definition new_session_id (pid : Z) : IO IoErr string :=
  serial ← next_serial;
  now ← now_ms;
  mret (dec13 now +:+ ("-" +:+ (hex_fixed 8 pid +:+ ("-" +:+ hex_fixed 16 serial)))).

Fixpoint reserve_loop (tries : nat) (root : path) (next_id : IO IoErr string) : IO IoErr (string * path) :=
  match tries with
  | O => raise (mkIo AlreadyExists "could not reserve a unique capture session directory")
  | S tries =>
      name ← next_id;
      r ← attempt (create_dir (root /> name));
      match r with
      | Ok _ => mret (name, root /> name)
      | Err e => if decide (error_kind e = AlreadyExists) then reserve_loop tries root next_id else raise e
      end
  end.

Definition reserve_session_dir (root : path) (next_id : IO IoErr string) : IO IoErr (string * path) :=
  _ ← create_dir_all root;
  reserve_loop 128 root next_id.

Section Log.
Context `{JsonDoc Manifest, JsonDoc CaptureCheckpoint}.

Definition write_manifest : LogM unit :=
  l ← get_self;
  lift (write_manifest_at (w_dir l) (w_manifest l)).

(** Record an interval that was not captured, written through at once. *)
Definition mark_gap (start_ms end_ms : Z) (why : string) : LogM unit :=
  l ← get_self;
  _ ← set_self (set_manifest l (with_gaps (w_manifest l) (add_gap (gaps (w_manifest l)) start_ms end_ms why)));
  write_manifest.

Definition aligned_leg (bytes : Z) (format : option TrackFormat) : bool :=
  match format with
  | None => bytes =? 0
  | Some f => (0 <? channels f) && (0 <? sample_rate_hz f) && (bytes mod (channels f * 2) =? 0)
  end.

(** Flush, count what is on disk, and publish the checkpoint. *)
Definition publish_checkpoint (l : SessionWal) (elapsed : Z) (stop : bool) : LogM unit :=
  let m := w_manifest l in
  _ ← wal_flush;
  s ← lift (metadata (bw_path (w_system l)));
  c ← lift (metadata (bw_path (w_mic l)));
  sf ← ok_or (system_format m) (mkIo OtherKind "unreachable: the log records a system format");
  let cp := mkCheckpoint 1 (id m) (started_at_ms m) elapsed stop (len s) (len c) sf (mic_format m) in
  _ ← guard_io (aligned_leg (system_bytes cp) (Some sf) && aligned_leg (mic_bytes cp) (mic_format m))
        (mkIo InvalidInput "capture checkpoint has invalid PCM format or alignment");
  _ ← lift (publish (capture_owner l) cp);
  l ← get_self;
  set_self (set_checkpoint l cp).

(** Persist a raw prefix and its live clock; the first Stop freezes the end. *)
Definition checkpoint_capture (elapsed : Z) (stop : bool) : LogM unit :=
  l ← get_self;
  let m := w_manifest l in
  let previous := capture_checkpoint l in
  let frozen := match previous with Some p => if stop_requested p then Some p else None | None => None end in
  let elapsed := match frozen with Some p => elapsed_ms p | None => elapsed end in
  _ ← guard_io (is_some (checked_add64 (started_at_ms m) elapsed)
                && negb (negb stop && is_some_and previous (fun p => elapsed <? elapsed_ms p)))
        (mkIo InvalidInput "capture clock overflow or regression");
  publish_checkpoint l elapsed (stop || is_some frozen).

(** What dropping the log does: the writers flush what they can, the lease ends. *)
Definition wal_drop : LogM unit :=
  _ ← attempt (E := IoErr) (on_system flush_buf);
  _ ← attempt (E := IoErr) (on_mic flush_buf);
  _ ← attempt (E := IoErr) (on_stt flush_buf);
  l ← get_self;
  lift (owner_drop (capture_owner l)).

(** A method that consumes the log. *)
Definition consume {A} (m : LogM A) (l : SessionWal) : IO IoErr A := fun w =>
  match m (l, w) with
  | (Killed, (_, w')) => (Killed, w')
  | (o, (l', w')) =>
      match wal_drop (l', w') with
      | (Killed, (_, w2)) => (Killed, w2)
      | (_, (_, w2)) => (o, w2)
      end
  end.

(** A method run on a log that the caller keeps only if it succeeds. *)
Definition establish {A} (m : LogM A) (l : SessionWal) : IO IoErr SessionWal := fun w =>
  match m (l, w) with
  | (Returned _, (l', w')) => (Returned l', w')
  | (Killed, (_, w')) => (Killed, w')
  | (Raised e, (l', w')) =>
      match wal_drop (l', w') with
      | (Killed, (_, w2)) => (Killed, w2)
      | (_, (_, w2)) => (Raised e, w2)
      end
  end.

Definition initial_manifest (name : string) (system : TrackFormat) (mic : option TrackFormat) (now : Z) (version : string)
  : Manifest :=
  mkManifest name (sample_rate_hz system) (channels system) now 0 version SCHEMA (Some system) mic None []
    None None None.

(** Create a session directory, recording each leg's own format. *)
Definition create_with_formats (pid : Z) (version : string) (root : path) (system : TrackFormat)
    (mic : option TrackFormat) : IO IoErr SessionWal :=
  '(name, dir) ← reserve_session_dir root (new_session_id pid);
  owner ← owner_create dir;
  now ← now_ms;
  l ← on_error
        (_ ← open_truncate (dir /> SYSTEM_PCM);
         _ ← open_truncate (dir /> MIC_PCM);
         _ ← open_truncate (dir /> STT_JSONL);
         t ← instant_now;
         mret (mkWal dir (initial_manifest name system mic now version) (mkBuf (dir /> SYSTEM_PCM) [])
                 (mkBuf (dir /> MIC_PCM) []) (mkBuf (dir /> STT_JSONL) []) t owner None))
        (owner_drop owner);
  establish (_ ← write_manifest; checkpoint_capture 0 false) l.

Definition create (pid : Z) (version : string) (root : path) (rate chans : Z) : IO IoErr SessionWal :=
  create_with_formats pid version root (mkFormat rate chans) (Some (mkFormat rate chans)).

(** Close the session cleanly, stamping [ended_at_ms]. *)
Definition finalize : SessionWal -> IO IoErr path :=
  consume
    (_ ← wal_flush;
     now ← lift now_ms;
     l ← get_self;
     _ ← set_self (set_manifest l (with_ended (w_manifest l) (Some now)));
     _ ← write_manifest;
     mret (w_dir l)).

End Log.

(** ** Reading a session back *)

Record SessionState := mkState {
  s_dir : path;
  s_manifest : Manifest;
  system_frames : Z;
  mic_frames : Z;
  stt : list SttRecord;
}.

Definition is_finalized (s : SessionState) : bool := is_some (ended_at_ms (s_manifest s)).

Fixpoint str_of_bytes (bs : bytes) : string :=
  match bs with [] => EmptyString | b :: bs => String (val_byte b) (str_of_bytes bs) end.

(** The lines of a text: a final unterminated one counts, the empty one after the
    last terminator does not, and a carriage return before a terminator goes with it. *)
Definition strip_cr (line : bytes) : bytes :=
  match last line with Some 13 => take (pred (length line)) line | _ => line end.

Fixpoint split_lf (acc : bytes) (bs : bytes) : list bytes :=
  match bs with
  | [] => match acc with [] => [] | _ => [rev acc] end
  | b :: bs => if b =? LF then strip_cr (rev acc) :: split_lf [] bs else split_lf (b :: acc) bs
  end.

Definition lines (text : bytes) : list bytes := split_lf [] text.

(** [read_to_string] refuses a file that is not UTF-8. *)
Definition is_utf8 (bs : bytes) : bool := is_str_check (str_of_bytes bs).

Section Read.
Context `{JsonDoc Manifest, Serde SttRecord}.

(** The records of a text; a line that does not parse is dropped. *)
Definition records_of (text : bytes) : list SttRecord :=
  if is_utf8 text then omap from_slice (lines text) else [].

Definition read_jsonl (p : path) : IO IoErr (list SttRecord) :=
  r ← attempt (read_file p);
  mret match r with Ok text => records_of text | Err _ => [] end.

(** Whole frames of a leg: a partial trailing frame is dropped. *)
Definition leg_frames (dir : path) (name : string) (format : TrackFormat) : IO IoErr Z :=
  r ← attempt (metadata (dir /> name));
  mret match r with Ok md => len md / (BYTES_PER_SAMPLE * channels format) | Err _ => 0 end.

(** Read a session directory, tolerating a hard kill. *)
Definition session_read (dir : path) : IO IoErr SessionState :=
  m ← read_manifest dir;
  formats ← track_formats m dir;
  s ← leg_frames dir SYSTEM_PCM (f_system formats);
  c ← leg_frames dir MIC_PCM (f_mic formats);
  records ← read_jsonl (dir /> STT_JSONL);
  mret (mkState dir m s c records).

Fixpoint recover_entries (root : path) (names : list string) : IO IoErr (list SessionState) :=
  match names with
  | [] => mret []
  | n :: names =>
      md ← symlink_metadata (root /> n);
      found ← (if is_dir md then attempt (session_read (root /> n)) else mret (Err not_ordinary));
      rest ← recover_entries root names;
      mret match found with
           | Ok s => if is_finalized s then rest else s :: rest
           | Err _ => rest
           end
  end.

Definition earlier (a b : SessionState) : Prop := started_at_ms (s_manifest a) <= started_at_ms (s_manifest b).
#[export] Instance earlier_dec : RelDecision earlier.
Proof. intros a b. unfold earlier. apply _. Defined.

(** Every session under [root] that was not finalized, oldest first. *)
Definition recover (root : path) : IO IoErr (list SessionState) :=
  names ← read_dir root;
  found ← recover_entries root names;
  mret (merge_sort earlier found).

End Read.
