(* ===== verification/WalProofs.v ===== *)
(** * Crash safety of the session log

    What holds of a session directory wherever its writer stops: by returning, by
    an error of the operating system, by being killed, or by losing power.  Each
    writer is described by the bytes it has accepted and the part of them that is
    durable ([holds], [torn]); the documents by the value they hold. *)

From S2P Require Import Prelude Bytes Text Float32 Json.
From S2P Require Import FileSystem WalTypes OpusArchive SessionDir Wal.

Local Open Scope Z_scope.

(** ** Documents *)

Section Documents.
Context `{JsonDoc Manifest, JsonDoc CaptureCheckpoint}.

Definition manifest_on (dir : path) (m : Manifest) (d : Disk) : Prop :=
  d !! (dir /> MANIFEST) = Some (whole_file (doc_put m)).

Definition clock_on (dir : path) (c : CaptureCheckpoint) (d : Disk) : Prop :=
  d !! (dir /> CLOCK) = Some (whole_file (doc_put c)).

Definition manifest_paths (dir : path) : list path := [dir /> MANIFEST_TMP; dir /> MANIFEST].
Definition clock_paths (dir : path) : list path := [dir /> CLOCK_TMP; dir /> CLOCK].

Lemma write_manifest_at_touches dir m : touches (manifest_paths dir) (write_manifest_at dir m).
Proof. unfold write_manifest_at, unless_missing, manifest_paths. touch. Qed.

Lemma publish_touches o c : touches (clock_paths (o_dir o)) (publish o c).
Proof. unfold publish, unless_missing, clock_paths. touch. Qed.

(** Replacing the manifest leaves the old one or the new one, whole and synced. *)
Lemma write_manifest_at_triple (F : Disk -> Prop) dir m old :
  apart (manifest_paths dir) F ->
  triple (fun w => disk w !! (dir /> MANIFEST) = old /\ F (disk w)) (write_manifest_at dir m)
    (fun _ w => manifest_on dir m (disk w) /\ F (disk w))
    (fun w => (disk w !! (dir /> MANIFEST) = old \/ manifest_on dir m (disk w)) /\ F (disk w)).
Proof.
  intros HF. unfold write_manifest_at.
  set (G := fun d : Disk => d !! (dir /> MANIFEST) = old /\ F d).
  assert (HG : apart [dir /> MANIFEST_TMP] G).
  { apply apart_and; [apply (apart_lookup _ _ (fun n => n = old)); not_in_paths|].
    eapply apart_mono; [|done]. unfold manifest_paths. set_solver. }
  assert (HG0 : apart [] G) by (eapply apart_mono; [|done]; set_solver).
  assert (Hcrash : forall w, G (disk w) ->
    (disk w !! (dir /> MANIFEST) = old \/ manifest_on dir m (disk w)) /\ F (disk w)).
  { intros w [? ?]. split; [by left | done]. }
  eapply (triple_keep [] G); [touch | done | done|]. intros r.
  eapply (triple_keep [] G); [unfold unless_missing; touch | done | done|]. intros [].
  eapply triple_then; [apply (open_truncate_triple G _ HG) | done|].
  intros []. eapply triple_conseq; [apply (put_in_place_triple F _ _ dir _ old); [path_ne | done]|done|done|done].
Qed.

(** So does publishing a checkpoint. *)
Lemma publish_triple (F : Disk -> Prop) o c old :
  apart (clock_paths (o_dir o)) F ->
  triple (fun w => disk w !! (o_dir o /> CLOCK) = old /\ F (disk w)) (publish o c)
    (fun _ w => clock_on (o_dir o) c (disk w) /\ F (disk w))
    (fun w => (disk w !! (o_dir o /> CLOCK) = old \/ clock_on (o_dir o) c (disk w)) /\ F (disk w)).
Proof.
  intros HF. unfold publish. set (dir := o_dir o) in *.
  set (G := fun d : Disk => d !! (dir /> CLOCK) = old /\ F d).
  assert (HG : apart [dir /> CLOCK_TMP] G).
  { apply apart_and; [apply (apart_lookup _ _ (fun n => n = old)); not_in_paths|].
    eapply apart_mono; [|done]. unfold clock_paths. set_solver. }
  assert (Hcrash : forall w, G (disk w) ->
    (disk w !! (dir /> CLOCK) = old \/ clock_on dir c (disk w)) /\ F (disk w)).
  { intros w [? ?]. split; [by left | done]. }
  eapply (triple_keep [dir /> CLOCK_TMP] G); [touch | done | done|]. intros r.
  eapply (triple_keep [dir /> CLOCK_TMP] G); [unfold unless_missing; touch | done | done|]. intros [].
  eapply triple_then; [apply (open_new_triple G _ HG) | done|].
  intros []. eapply triple_conseq; [apply (put_in_place_triple F _ _ dir _ old); [path_ne | done]|done|done|done].
Qed.

End Documents.

(** ** Writers

    [acc] is what a writer has accepted, [dur] a part of it that is durable. *)

Definition holds (p : path) (acc dur buf : bytes) (d : Disk) : Prop :=
  exists c s, d !! p = Some (NFile c s) /\ c ++ buf = acc /\ dur `prefix_of` take s c.

Definition torn (p : path) (acc dur : bytes) (d : Disk) : Prop :=
  exists c s, d !! p = Some (NFile c s) /\ c `prefix_of` acc /\ dur `prefix_of` take s c.

Lemma holds_torn p acc more dur buf d : holds p acc dur buf d -> torn p (acc ++ more) dur d.
Proof.
  intros (c & s & Hp & <- & Hd). exists c, s. split; [done|]. split; [|done].
  rewrite <-app_assoc. by apply prefix_app_r.
Qed.

Lemma take_snoc_prefix s c (more dur : bytes) : dur `prefix_of` take s c -> dur `prefix_of` take s (c ++ more).
Proof. intros Hd. etrans; [done|]. rewrite take_app. by apply prefix_app_r. Qed.

Lemma next_reach_write w bs :
  exists n, next_reach w bs = min n (length bs) /\
    forall p, match write_file p bs w with
              | (Returned _, w') => disk w' = append_at p bs (disk w)
              | (_, w') => disk w' = append_at p (take n bs) (disk w)
              end.
Proof.
  unfold next_reach, write_file, op. destruct (fates w) as [|[|why n gone] fs].
  - exists (length bs). split; [lia|]. done.
  - exists (length bs). split; [lia|]. done.
  - exists n. split; [done|]. intros p. by destruct why.
Qed.

Section Writers.
Context (F : Disk -> Prop) (p : path).
Hypothesis HF : apart [p] F.

Definition writer_ok (acc dur : bytes) (bw : BufWriter * World) : Prop :=
  bw_path bw.1 = p /\ holds p acc dur (bw_buf bw.1) (disk bw.2) /\ F (disk bw.2).

Definition writer_torn (acc dur : bytes) (bw : BufWriter * World) : Prop :=
  bw_path bw.1 = p /\ torn p acc dur (disk bw.2) /\ F (disk bw.2).

Lemma flush_buf_triple acc dur :
  triple (writer_ok acc dur) flush_buf
    (fun _ bw => writer_ok acc dur bw /\ bw_buf bw.1 = []) (writer_ok acc dur).
Proof.
  intros [b w] (Hp & Hh & Hw). unfold flush_buf. simpl in *. destruct (bw_buf b) as [|x bs0] eqn:Hb.
  { split; [|done]. unfold writer_ok. simpl. by rewrite Hb. }
  set (bs := x :: bs0) in *. destruct (next_reach_write w bs) as (n & -> & Hn). specialize (Hn (bw_path b)).
  destruct Hh as (c & s & Hd & Hacc & Hdur). rewrite Hp in *.
  assert (Hfin : forall k w', disk w' = append_at p (take k bs) (disk w) ->
            holds p acc dur (drop (min k (length bs)) bs) (disk w') /\ F (disk w')).
  { intros k w' ->. split.
    - exists (c ++ take k bs), s. unfold append_at. rewrite lookup_alter_eq, Hd. split; [done|]. split.
      + rewrite <-app_assoc. rewrite <-Hacc. f_equal. destruct (decide (k <= length bs)%nat).
        * rewrite Nat.min_l by lia. apply take_drop.
        * rewrite Nat.min_r, take_ge, drop_all by lia. apply app_nil_r.
      + by apply take_snoc_prefix.
    - eapply HF; [apply same_except_alter | done]. }
  destruct (write_file p bs w) as [[[]|e|] w'].
  - destruct (Hfin (length bs) w') as [H1 H2]; [by rewrite Hn, take_ge|].
    split; [|done]. split; [done|]. simpl. rewrite Nat.min_id, drop_all in H1. done.
  - destruct (Hfin n w' Hn). done.
  - destruct (Hfin n w' Hn). done.
Qed.

Lemma bw_push_triple acc dur bs R :
  triple (writer_ok acc dur) (bw_push bs) (fun _ => writer_ok (acc ++ bs) dur) R.
Proof.
  intros [b w] (Hp & (c & s & Hd & Hacc & Hdur) & Hw). simpl in *. split; [done|]. split; [|done]. simpl.
  exists c, s. by rewrite app_assoc, Hacc.
Qed.

(** Accepting more bytes: on failure the file is still a prefix of them. *)
Lemma bw_write_all_triple acc dur bs :
  triple (writer_ok acc dur) (bw_write_all bs) (fun _ => writer_ok (acc ++ bs) dur) (writer_torn (acc ++ bs) dur).
Proof.
  assert (Hcrash : forall bw, writer_ok acc dur bw -> writer_torn (acc ++ bs) dur bw).
  { intros bw (? & ? & ?). split; [done|]. split; [by eapply holds_torn | done]. }
  unfold bw_write_all. intros [b w] Hw. rewrite bind_get_self.
  destruct (length bs <? BUF_CAPACITY - length (bw_buf b))%nat;
    [by apply (bw_push_triple acc dur bs (writer_torn (acc ++ bs) dur) (b, w))|].
  set (spare := (BUF_CAPACITY - length (bw_buf b))%nat) in *.
  assert (Hmid : triple (eq (b, w)) (if (spare <? length bs)%nat then flush_buf else mret tt)
    (fun _ bw => writer_ok acc dur bw /\ ((BUF_CAPACITY <= length bs)%nat -> bw_buf bw.1 = []))
    (writer_torn (acc ++ bs) dur)).
  { destruct (spare <? length bs)%nat eqn:Hs.
    - eapply triple_conseq; [apply (flush_buf_triple acc dur)|by intros ? <-| |done].
      intros [] bw [? ?]. done.
    - intros ? <-. split; [done|]. intros Hcap. apply Nat.ltb_ge in Hs. simpl.
      assert (length (bw_buf b) = 0)%nat by (unfold spare, BUF_CAPACITY in *; lia). by apply nil_length_inv. }
  eapply (triple_bind (eq (b, w))); [exact Hmid | | done].
  intros []. destruct (BUF_CAPACITY <=? length bs)%nat eqn:Hc.
  - apply Nat.leb_le in Hc. intros [b1 w1] [(Hp & (c & s & Hd & Hacc & Hdur) & Hw1) Hempty]. simpl in *.
    rewrite (Hempty Hc), app_nil_r in Hacc. subst c. destruct Hw as [Hp0 _]. simpl in Hp0. rewrite Hp0.
    unfold lift. pose proof (write_file_triple F p bs acc s HF w1 (conj Hd Hw1)) as Ht.
    destruct (write_file p bs w1) as [[[]|e|] w2].
    + destruct Ht as [Ht HFt]. split; [done|]. simpl. split; [|done]. rewrite (Hempty Hc).
      exists (acc ++ bs), s. rewrite app_nil_r. split; [done|]. split; [done | by apply take_snoc_prefix].
    + destruct Ht as (n & Ht & HFt). split; [done|]. simpl. split; [|done]. exists (acc ++ take n bs), s.
      split; [done|]. split; [apply prefix_app, prefix_take | by apply take_snoc_prefix].
    + destruct Ht as (n & Ht & HFt). split; [done|]. simpl. split; [|done]. exists (acc ++ take n bs), s.
      split; [done|]. split; [apply prefix_app, prefix_take | by apply take_snoc_prefix].
  - eapply triple_pre; [apply bw_push_triple|]. by intros bw [? _].
Qed.

(** Flushing and syncing makes everything accepted durable. *)
Lemma bw_sync_triple acc dur :
  triple (writer_ok acc dur) bw_sync
    (fun _ bw => writer_ok acc acc bw /\ bw_buf bw.1 = []) (writer_ok acc dur).
Proof.
  unfold bw_sync. intros [b w] Hw. rewrite bind_get_self.
  eapply (triple_bind (eq (b, w))); [| |done].
  { eapply triple_pre; [apply (flush_buf_triple acc dur)|]. by intros ? <-. }
  intros [] [b1 w1] [(Hp & (c & s & Hd & Hacc & Hdur) & Hw1) Hempty]. simpl in *.
  rewrite Hempty, app_nil_r in Hacc. subst c. destruct Hw as [Hp0 _]. simpl in Hp0. rewrite Hp0.
  pose proof (sync_file_triple F p acc s HF w1 (conj Hd Hw1)) as Ht. unfold lift.
  destruct (sync_file p w1) as [[[]|e|] w2]; destruct Ht as [Ht HFt].
  - split; [|done]. split; [done|]. simpl. split; [|done]. exists acc, (length acc).
    rewrite Hempty, app_nil_r, take_ge by done. done.
  - split; [done|]. split; [|done]. exists acc, s. simpl. by rewrite Hempty, app_nil_r.
  - split; [done|]. split; [|done]. exists acc, s. simpl. by rewrite Hempty, app_nil_r.
Qed.

End Writers.

(** ** The log *)

Inductive Leg := LSystem | LMic | LStt.

#[export] Instance Leg_eq_dec : EqDecision Leg.
Proof. solve_decision. Defined.

Definition leg_name (leg : Leg) : string :=
  match leg with LSystem => SYSTEM_PCM | LMic => MIC_PCM | LStt => STT_JSONL end.
Definition leg_get (leg : Leg) : SessionWal -> BufWriter :=
  match leg with LSystem => w_system | LMic => w_mic | LStt => w_stt end.
Definition leg_set (leg : Leg) : SessionWal -> BufWriter -> SessionWal :=
  match leg with LSystem => set_system | LMic => set_mic | LStt => set_stt end.
Definition on_leg {A} (leg : Leg) : Eff (BufWriter * World) IoErr A -> LogM A := on_writer (leg_get leg) (leg_set leg).

(** What the writers have accepted, and a part of it that is durable. *)
Record Written := mkWritten { acc : Leg -> bytes; dur : Leg -> bytes }.

Definition grow (g : Written) (leg : Leg) (bs : bytes) : Written :=
  mkWritten (fun l => if decide (l = leg) then acc g l ++ bs else acc g l) (dur g).
Definition settle (g : Written) (leg : Leg) : Written :=
  mkWritten (acc g) (fun l => if decide (l = leg) then acc g l else dur g l).

Definition durable_le (g g' : Written) : Prop := forall leg, dur g leg `prefix_of` dur g' leg.

#[export] Instance durable_le_preorder : PreOrder durable_le.
Proof. split; [by intros g leg|]. intros g1 g2 g3 H1 H2 leg. etrans; [apply H1 | apply H2]. Qed.

Definition durable_len (p : path) (n : Z) (d : Disk) : Prop :=
  exists c s, d !! p = Some (NFile c s) /\ n <= zlen (take s c).

Lemma prefix_zlen (a b : bytes) : a `prefix_of` b -> zlen a <= zlen b.
Proof. intros Hp. apply prefix_length in Hp. unfold zlen. lia. Qed.

Lemma holds_durable_len p a e buf d n : holds p a e buf d -> n <= zlen e -> durable_len p n d.
Proof. intros (c & s & Hp & _ & Hd) Hn. exists c, s. split; [done|]. apply prefix_zlen in Hd. lia. Qed.

Section Log.
Context `{JsonDoc Manifest, JsonDoc CaptureCheckpoint}.

(** The same session, whatever gaps were recorded. *)
Definition same_session (m0 m : Manifest) : Prop := with_gaps m [] = with_gaps m0 [].

(** A checkpoint of this session. *)
Definition fits (m : Manifest) (c : CaptureCheckpoint) : Prop :=
  cp_schema c = 1 /\ session_id c = id m /\ cp_started_at_ms c = started_at_ms m /\
  Some (cp_system_format c) = system_format m /\ cp_mic_format c = mic_format m /\
  is_some (checked_add64 (cp_started_at_ms c) (elapsed_ms c)) = true /\
  aligned_leg (system_bytes c) (Some (cp_system_format c)) = true /\
  aligned_leg (mic_bytes c) (cp_mic_format c) = true.

Lemma same_session_started m0 m : same_session m0 m -> started_at_ms m = started_at_ms m0.
Proof. intros Hs. apply (f_equal started_at_ms Hs). Qed.

Lemma fits_same_session m m' c : same_session m m' -> fits m' c -> fits m c.
Proof. destruct m, m'. unfold same_session, with_gaps, fits. simpl. intros Hs. injection Hs as; subst; done. Qed.

(** A checkpoint on disk whose audio is durable. *)
Definition checkpoint_on (dir : path) (m : Manifest) (c : CaptureCheckpoint) (d : Disk) : Prop :=
  fits m c /\ clock_on dir c d /\
  durable_len (dir /> SYSTEM_PCM) (system_bytes c) d /\ durable_len (dir /> MIC_PCM) (mic_bytes c) d.

(** The checkpoints that may follow one: the audio only grows, live observations
    advance, and the first Stop settles the clock. *)
Definition later (c c' : CaptureCheckpoint) : Prop :=
  system_bytes c <= system_bytes c' /\ mic_bytes c <= mic_bytes c' /\
  (stop_requested c = true -> stop_requested c' = true /\ elapsed_ms c' = elapsed_ms c) /\
  (stop_requested c' = false -> elapsed_ms c <= elapsed_ms c').

#[export] Instance later_preorder : PreOrder later.
Proof.
  split; [intros c; split_and!; try done; lia|].
  intros a b c (? & ? & Hab & ?) (? & ? & Hbc & ?). split_and!; [lia..| |].
  - intros Ha. destruct (Hab Ha) as [Hb Eb]. destruct (Hbc Hb) as [Hc Ec]. split; [done | lia].
  - intros Hc. assert (stop_requested b = false) as Hb.
    { destruct (stop_requested b) eqn:Hb; [|done]. destruct (Hbc eq_refl). congruence. }
    naive_solver lia.
Qed.

(** The directory and its owner's sidecar are there. *)
Definition home (dir : path) (d : Disk) : Prop :=
  d !! dir = Some NDir /\ exists c s, d !! (dir /> OWNER_LOCK) = Some (NFile c s).

Lemma home_apart dir ps : (dir ∉ ps) -> ((dir /> OWNER_LOCK) ∉ ps) -> apart ps (home dir).
Proof. intros H1 H2 d d' Hs. unfold home. by rewrite !Hs. Qed.

(** The invariant of a log that is being written. *)
Record log_ok (g : Written) (lw : SessionWal * World) : Prop := {
  lo_paths leg : bw_path (leg_get leg lw.1) = w_dir lw.1 /> leg_name leg;
  lo_owner : o_dir (capture_owner lw.1) = w_dir lw.1;
  lo_legs leg : holds (w_dir lw.1 /> leg_name leg) (acc g leg) (dur g leg) (bw_buf (leg_get leg lw.1)) (disk lw.2);
  lo_home : home (w_dir lw.1) (disk lw.2);
  lo_manifest : manifest_on (w_dir lw.1) (w_manifest lw.1) (disk lw.2);
  lo_clock c : capture_checkpoint lw.1 = Some c ->
    fits (w_manifest lw.1) c /\ clock_on (w_dir lw.1) c (disk lw.2) /\
    system_bytes c <= zlen (dur g LSystem) /\ mic_bytes c <= zlen (dur g LMic);
}.

(** What is left of it wherever it stops; with a checkpoint
    no older than [since]. *)
Record survives (dir : path) (m0 : Manifest) (since : option CaptureCheckpoint) (g : Written) (d : Disk) : Prop := {
  sv_legs leg : torn (dir /> leg_name leg) (acc g leg) (dur g leg) d;
  sv_home : home dir d;
  sv_manifest : exists m, same_session m0 m /\ manifest_on dir m d;
  sv_clock c0 : since = Some c0 -> exists c, later c0 c /\ checkpoint_on dir m0 c d;
}.

(** A log of session [m0] in [dir]. *)
Definition log_at (dir : path) (m0 : Manifest) (since : option CaptureCheckpoint) (g : Written) (lw : SessionWal * World) : Prop :=
  w_dir lw.1 = dir /\ same_session m0 (w_manifest lw.1) /\
  (forall c0, since = Some c0 -> exists c, capture_checkpoint lw.1 = Some c /\ later c0 c) /\ log_ok g lw.

Lemma log_checkpoint_on g lw c :
  log_ok g lw -> capture_checkpoint lw.1 = Some c -> checkpoint_on (w_dir lw.1) (w_manifest lw.1) c (disk lw.2).
Proof.
  intros Hok Hc. destruct (lo_clock _ _ Hok c Hc) as (Hf & Hclk & Hs & Hm). split; [done|]. split; [done|].
  split; (eapply holds_durable_len; [|done]).
  - apply (lo_legs _ _ Hok LSystem).
  - apply (lo_legs _ _ Hok LMic).
Qed.

Lemma log_survives dir m0 since g lw : log_at dir m0 since g lw -> survives dir m0 since g (disk lw.2).
Proof.
  intros (<- & Hs & Hcl & Hok). split.
  - intros leg. rewrite <-(app_nil_r (acc g leg)). eapply holds_torn, (lo_legs _ _ Hok leg).
  - apply (lo_home _ _ Hok).
  - eexists. split; [apply Hs | apply (lo_manifest _ _ Hok)].
  - intros c0 Hc. destruct (Hcl c0 Hc) as (c & E & Hlat). exists c. split; [done|].
    destruct (log_checkpoint_on _ _ _ Hok E) as (Hf & ?). split; [by eapply fits_same_session | done].
Qed.

(** *** One writer at a time *)

Lemma leg_get_set leg l b : leg_get leg (leg_set leg l b) = b.
Proof. by destruct leg. Qed.
Lemma leg_get_set_ne leg leg' l b : leg' <> leg -> leg_get leg' (leg_set leg l b) = leg_get leg' l.
Proof. by destruct leg, leg'. Qed.
Lemma leg_set_rest leg l b :
  w_dir (leg_set leg l b) = w_dir l /\ w_manifest (leg_set leg l b) = w_manifest l /\
  capture_owner (leg_set leg l b) = capture_owner l /\ capture_checkpoint (leg_set leg l b) = capture_checkpoint l.
Proof. by destruct leg. Qed.

(** What is known of the disk apart from one leg. *)
Definition others (leg : Leg) (g : Written) (l : SessionWal) (d : Disk) : Prop :=
  (forall leg', leg' <> leg ->
     holds (w_dir l /> leg_name leg') (acc g leg') (dur g leg') (bw_buf (leg_get leg' l)) d) /\
  home (w_dir l) d /\ manifest_on (w_dir l) (w_manifest l) d /\
  (forall c, capture_checkpoint l = Some c -> clock_on (w_dir l) c d).

Lemma leg_name_inj leg leg' : leg_name leg = leg_name leg' -> leg = leg'.
Proof. by destruct leg, leg'. Qed.

Lemma others_apart leg g l : apart [w_dir l /> leg_name leg] (others leg g l).
Proof.
  assert (Hne : forall n, n <> leg_name leg -> (w_dir l /> n) ∉ [w_dir l /> leg_name leg]).
  { intros n Hn. rewrite list_elem_of_singleton. intros Heq. by apply child_inj in Heq. }
  intros d d' Hs (Hl & Hh & Hm & Hc). split; [|split; [|split]].
  - intros leg' Hd. destruct (Hl leg' Hd) as (c & s & ? & ?). exists c, s. rewrite Hs; [done|].
    apply Hne. intros Heq. by apply leg_name_inj in Heq.
  - eapply home_apart; [| |apply Hs|done].
    + rewrite list_elem_of_singleton. apply not_eq_sym, child_ne.
    + apply Hne. by destruct leg.
  - unfold manifest_on. rewrite Hs; [done|]. apply Hne. by destruct leg.
  - intros c E. unfold clock_on. rewrite Hs; [by apply Hc|]. apply Hne. by destruct leg.
Qed.

(** The writer's view and the log's are the same thing. *)
Lemma log_ok_writer g l w leg :
  log_ok g (l, w) ->
  writer_ok (others leg g l) (w_dir l /> leg_name leg) (acc g leg) (dur g leg) (leg_get leg l, w).
Proof.
  intros Hok. split; [apply (lo_paths _ _ Hok)|]. split; [apply (lo_legs _ _ Hok)|]. split; [|split; [|split]].
  - intros leg' _. apply (lo_legs _ _ Hok).
  - apply (lo_home _ _ Hok).
  - apply (lo_manifest _ _ Hok).
  - intros c E. by apply (lo_clock _ _ Hok).
Qed.

Lemma writer_log_ok g g' l w b leg :
  log_ok g (l, w) -> forall w',
  writer_ok (others leg g l) (w_dir l /> leg_name leg) (acc g' leg) (dur g' leg) (b, w') ->
  (forall leg', leg' <> leg -> acc g' leg' = acc g leg' /\ dur g' leg' = dur g leg') ->
  dur g leg `prefix_of` dur g' leg ->
  log_ok g' (leg_set leg l b, w').
Proof.
  intros Hok w' (Hp & Hh & Ho & Hhome & Hm & Hc) Hsame Hdur. destruct (leg_set_rest leg l b) as (Ed & Em & Eo & Ec).
  simpl in *. split; simpl; rewrite ?Ed, ?Em, ?Eo, ?Ec.
  - intros leg'. destruct (decide (leg' = leg)) as [->|Hne].
    + by rewrite leg_get_set.
    + rewrite leg_get_set_ne by done. apply (lo_paths _ _ Hok).
  - apply (lo_owner _ _ Hok).
  - intros leg'. destruct (decide (leg' = leg)) as [->|Hne].
    + by rewrite leg_get_set.
    + rewrite leg_get_set_ne by done. destruct (Hsame leg' Hne) as [-> ->]. by apply Ho.
  - done.
  - done.
  - intros c E. destruct (lo_clock _ _ Hok c E) as (Hf & _ & Hs1 & Hs2). split; [done|]. split; [by apply Hc|].
    assert (Hle : forall leg', zlen (dur g leg') <= zlen (dur g' leg')).
    { intros leg'. destruct (decide (leg' = leg)) as [->|Hne]; [by apply prefix_zlen|].
      by destruct (Hsame leg' Hne) as [_ ->]. }
    pose proof (Hle LSystem). pose proof (Hle LMic). lia.
Qed.

Lemma writer_survives dir m0 since g g' l w leg w' b :
  log_at dir m0 since g (l, w) ->
  writer_torn (others leg g l) (w_dir l /> leg_name leg) (acc g' leg) (dur g' leg) (b, w') ->
  (forall leg', leg' <> leg -> acc g' leg' = acc g leg' /\ dur g' leg' = dur g leg') ->
  dur g leg `prefix_of` dur g' leg ->
  survives dir m0 since g' (disk w').
Proof.
  intros (Hd & Hs & Hcl & Hok) (_ & Ht & Ho & Hhome & Hm & Hc) Hsame Hdur. simpl in *. subst dir.
  assert (Htorn : forall leg', torn (w_dir l /> leg_name leg') (acc g' leg') (dur g' leg') (disk w')).
  { intros leg'. destruct (decide (leg' = leg)) as [->|Hne]; [done|]. destruct (Hsame leg' Hne) as [-> ->].
    rewrite <-(app_nil_r (acc g leg')). by eapply holds_torn, Ho. }
  split; [done | done | by eexists|].
  intros c0 Hy. destruct (Hcl c0 Hy) as (c & E & Hlat).
  destruct (lo_clock _ _ Hok c E) as (Hf & _ & Hs1 & Hs2). simpl in *.
  assert (Hle : forall leg', durable_len (w_dir l /> leg_name leg') (zlen (dur g leg')) (disk w')).
  { intros leg'. destruct (Htorn leg') as (x & n & Hx & _ & Hp). exists x, n. split; [done|].
    apply prefix_zlen in Hp. destruct (decide (leg' = leg)) as [->|Hne]; [apply prefix_zlen in Hdur; lia|].
    destruct (Hsame leg' Hne) as [_ E']. by rewrite <-E'. }
  exists c. split; [done|]. split; [by eapply fits_same_session|]. split; [by apply Hc|].
  split.
  - destruct (Hle LSystem) as (x & n & ? & ?). exists x, n. split; [done | lia].
  - destruct (Hle LMic) as (x & n & ? & ?). exists x, n. split; [done | lia].
Qed.

Lemma grow_same g leg bs : acc (grow g leg bs) leg = acc g leg ++ bs /\ dur (grow g leg bs) leg = dur g leg.
Proof. simpl. by rewrite decide_True. Qed.

Lemma settle_same g leg : acc (settle g leg) leg = acc g leg /\ dur (settle g leg) leg = acc g leg.
Proof. simpl. by rewrite decide_True. Qed.

(** A writer's method that accepts [bs]. *)
Definition accepts (m : Eff (BufWriter * World) IoErr unit) (bs : bytes) : Prop :=
  forall F p a e, apart [p] F ->
    triple (writer_ok F p a e) m (fun _ => writer_ok F p (a ++ bs) e) (writer_torn F p (a ++ bs) e).

Lemma write_all_accepts bs : accepts (bw_write_all bs) bs.
Proof. intros F p a e HF. by apply bw_write_all_triple. Qed.

Lemma chunks_accepts chunks : accepts (write_chunks_to chunks) (concat chunks).
Proof.
  induction chunks as [|c chunks IH]; intros F p a e HF; simpl.
  - intros bw Hw. simpl. by rewrite app_nil_r.
  - eapply triple_then; [by apply bw_write_all_triple| |].
    + intros bw (Hp & (x & s & Hx & Hpre & Hd) & HFw). split; [done|]. split; [|done]. exists x, s.
      split; [done|]. split; [|done]. rewrite app_assoc. by apply prefix_app_r.
    + intros []. rewrite app_assoc. by apply IH.
Qed.

Lemma leg_write_triple dir m0 since g leg m bs :
  accepts m bs ->
  triple (log_at dir m0 since g) (on_leg leg m)
    (fun _ => log_at dir m0 since (grow g leg bs)) (fun lw => survives dir m0 since (grow g leg bs) (disk lw.2)).
Proof.
  intros Hm [l w] Hat. pose proof Hat as (Hd & Hs & Hcl & Hok). unfold on_leg, on_writer.
  pose proof (Hm _ _ (acc g leg) (dur g leg) (others_apart leg g l) _ (log_ok_writer g l w leg Hok)) as Ht.
  destruct (grow_same g leg bs) as [Ea Ed].
  assert (Hsame : forall leg', leg' <> leg ->
    acc (grow g leg bs) leg' = acc g leg' /\ dur (grow g leg bs) leg' = dur g leg').
  { intros leg' Hne. simpl. by rewrite decide_False. }
  rewrite <-Ea, <-Ed in Ht. destruct (m (leg_get leg l, w)) as [o [b w']].
  destruct (leg_set_rest leg l b) as (E1 & E2 & E3 & E4).
  destruct o as [[]|e|]; [|by eapply writer_survives..].
  split; [by simpl; rewrite E1|]. split; [by simpl; rewrite E2|]. split; [by simpl; rewrite E4|].
  by eapply writer_log_ok.
Qed.

Lemma leg_sync_triple dir m0 since g leg :
  (dur g leg `prefix_of` acc g leg) ->
  triple (log_at dir m0 since g) (on_leg leg bw_sync)
    (fun _ => log_at dir m0 since (settle g leg)) (log_at dir m0 since g).
Proof.
  intros Hpre [l w] Hat. pose proof Hat as (Hd & Hs & Hcl & Hok). unfold on_leg, on_writer.
  pose proof (bw_sync_triple _ _ (others_apart leg g l) (acc g leg) (dur g leg) _ (log_ok_writer g l w leg Hok)) as Ht.
  destruct (settle_same g leg) as [Ea Ed].
  destruct (bw_sync (leg_get leg l, w)) as [o [b w']].
  destruct (leg_set_rest leg l b) as (E1 & E2 & E3 & E4).
  assert (Hstay : writer_ok (others leg g l) (w_dir l /> leg_name leg) (acc g leg) (dur g leg) (b, w') ->
    log_at dir m0 since g (leg_set leg l b, w')).
  { intros Hw. split; [by simpl; rewrite E1|]. split; [by simpl; rewrite E2|]. split; [by simpl; rewrite E4|].
    by eapply writer_log_ok. }
  destruct o as [[]|e|]; [|by apply Hstay..].
  destruct Ht as [Ht _]. split; [by simpl; rewrite E1|]. split; [by simpl; rewrite E2|]. split; [by simpl; rewrite E4|].
  eapply (writer_log_ok g (settle g leg)); [done| | |by rewrite Ed].
  - by rewrite Ea, Ed.
  - intros leg' Hne. simpl. by rewrite decide_False.
Qed.

Lemma log_ok_dur g lw leg : log_ok g lw -> dur g leg `prefix_of` acc g leg.
Proof.
  intros Hok. destruct (lo_legs _ _ Hok leg) as (c & s & _ & <- & Hp).
  etrans; [apply Hp|]. etrans; [apply prefix_take | by apply prefix_app_r].
Qed.

Definition settle_all (g : Written) : Written := mkWritten (acc g) (acc g).

Definition same_acc (g g' : Written) : Prop := forall leg, acc g' leg = acc g leg.

Lemma survives_weaken dir m0 since g g' d :
  (forall leg, acc g' leg `prefix_of` acc g leg) -> durable_le g g' ->
  survives dir m0 since g' d -> survives dir m0 since g d.
Proof.
  intros Ha Hd [Hl Hh Hm Hc]. split; [|done..]. intros leg. destruct (Hl leg) as (c & s & Hp & Hpre & Hdur).
  exists c, s. split; [done|]. split; [by etrans | etrans; [apply Hd | done]].
Qed.

Lemma log_ok_ext g g' lw :
  same_acc g g' -> (forall leg, dur g' leg = dur g leg) -> log_ok g lw -> log_ok g' lw.
Proof.
  intros Ha Hd Hok. split.
  - apply (lo_paths _ _ Hok).
  - apply (lo_owner _ _ Hok).
  - intros leg. rewrite Ha, Hd. apply (lo_legs _ _ Hok).
  - apply (lo_home _ _ Hok).
  - apply (lo_manifest _ _ Hok).
  - intros c E. rewrite !Hd. by apply (lo_clock _ _ Hok).
Qed.

(** Nothing on disk or in the writers changed. *)
Lemma log_at_same dir m0 since g l w l' w' :
  log_at dir m0 since g (l, w) -> disk w' = disk w ->
  w_dir l' = w_dir l -> w_manifest l' = w_manifest l -> capture_owner l' = capture_owner l ->
  capture_checkpoint l' = capture_checkpoint l -> (forall leg, leg_get leg l' = leg_get leg l) ->
  log_at dir m0 since g (l', w').
Proof.
  intros (Hd & Hs & Hcl & Hok) Ew Ed Em Eo Ec El. unfold log_at. simpl in *. rewrite Ed, Em, Ec.
  split; [done|]. split; [done|]. split; [done|]. destruct Hok as [H1 H2 H3 H4 H5 H6]. simpl in *.
  split; simpl; rewrite ?Ew, ?Ed, ?Em, ?Eo, ?Ec; try done; intros leg; by rewrite ?Ed, El.
Qed.

(** The log as known, possibly with more of it durable. *)
Definition log_more (dir : path) (m0 : Manifest) (since : option CaptureCheckpoint) (g : Written) (lw : SessionWal * World) : Prop :=
  exists g', same_acc g g' /\ durable_le g g' /\ log_at dir m0 since g' lw.

Lemma log_more_refl dir m0 since g lw : log_at dir m0 since g lw -> log_more dir m0 since g lw.
Proof. intros Hat. exists g. split; [by intros leg | done]. Qed.

Lemma log_more_survives dir m0 since g lw : log_more dir m0 since g lw -> survives dir m0 since g (disk lw.2).
Proof.
  intros (g' & Ha & Hd & Hat). eapply survives_weaken; [|done|by apply log_survives]. intros leg. by rewrite Ha.
Qed.

(** Everything accepted is durable after a flush; a failed one loses nothing. *)
Lemma wal_flush_triple dir m0 since g :
  triple (log_at dir m0 since g) wal_flush
    (fun _ => log_at dir m0 since (settle_all g)) (log_more dir m0 since g).
Proof.
  intros lw0 Hat. pose proof Hat as (_ & _ & _ & Hok0).
  assert (Hpre : forall leg, dur g leg `prefix_of` acc g leg) by (intros leg; by eapply log_ok_dur).
  revert lw0 Hat Hok0. cut (triple (log_at dir m0 since g) wal_flush
    (fun _ => log_at dir m0 since (settle_all g)) (log_more dir m0 since g)).
  { intros Ht lw Hat _. by apply Ht. }
  set (g1 := settle g LSystem). set (g2 := settle g1 LMic).
  assert (Hle1 : durable_le g g1) by (intros []; simpl; try done; apply Hpre).
  assert (Hle2 : durable_le g g2) by (etrans; [done|]; intros []; simpl; try done; apply Hpre).
  unfold wal_flush. eapply triple_then; [apply (leg_sync_triple _ _ _ g LSystem), Hpre | apply log_more_refl|].
  intros []. eapply triple_then; [apply (leg_sync_triple _ _ _ g1 LMic), Hpre| |].
  { intros lw Hat. by exists g1. }
  intros []. eapply triple_then; [apply (leg_sync_triple _ _ _ g2 LStt), Hpre| |].
  { intros lw Hat. by exists g2. }
  intros [] [l w] Hat.
  assert (Hat' : log_at dir m0 since (settle_all g) (l, w)).
  { destruct Hat as (? & ? & ? & ?). split_and!; [done..|]. eapply log_ok_ext; [| |done]; by intros []. }
  rewrite bind_instant_now, bind_get_self. unfold set_self. eapply log_at_same; [apply Hat' | done..|by intros []].
Qed.

Lemma maybe_sync_triple dir m0 since g :
  triple (log_at dir m0 since g) maybe_sync
    (fun _ => log_more dir m0 since g) (fun lw => survives dir m0 since g (disk lw.2)).
Proof.
  intros [l w] Hat. unfold maybe_sync.
  assert (Hle : durable_le g (settle_all g)).
  { intros leg. destruct Hat as (_ & _ & _ & Hok). by eapply log_ok_dur. }
  assert (Hfl : forall w', disk w' = disk w ->
    match wal_flush (l, w') with
    | (Returned _, lw) => log_more dir m0 since g lw
    | (_, lw) => survives dir m0 since g (disk lw.2) end).
  { intros w' Ew. assert (Hat' : log_at dir m0 since g (l, w')) by (by eapply log_at_same).
    pose proof (wal_flush_triple dir m0 since g (l, w') Hat') as Ht.
    destruct (wal_flush (l, w')) as [[[]|e|] lw]; [|by apply log_more_survives..]. by exists (settle_all g). }
  assert (Hno : forall w', disk w' = disk w -> log_more dir m0 since g (l, w')).
  { intros w' Ew. exists g. split; [by intros leg|]. split; [done | by eapply log_at_same]. }
  rewrite bind_instant_now, bind_get_self.
  destruct (SYNC_INTERVAL <=? _); [by apply Hfl | by apply Hno].
Qed.

(** *** The documents of the log *)

Definition all_legs (g : Written) (l : SessionWal) (d : Disk) : Prop :=
  forall leg, holds (w_dir l /> leg_name leg) (acc g leg) (dur g leg) (bw_buf (leg_get leg l)) d.

Lemma all_legs_apart g l ps :
  (forall leg, (w_dir l /> leg_name leg) ∉ ps) -> apart ps (all_legs g l).
Proof. intros Hps d d' Hs Hl leg. destruct (Hl leg) as (c & s & ? & ?). exists c, s. by rewrite Hs. Qed.

Lemma all_legs_torn g l d :
  all_legs g l d -> forall leg, torn (w_dir l /> leg_name leg) (acc g leg) (dur g leg) d.
Proof. intros Hl leg. rewrite <-(app_nil_r (acc g leg)). eapply holds_torn, Hl. Qed.

(** What the log knows beside its manifest. *)
Definition beside_manifest (g : Written) (l : SessionWal) (d : Disk) : Prop :=
  all_legs g l d /\ home (w_dir l) d /\ forall c, capture_checkpoint l = Some c -> clock_on (w_dir l) c d.

Lemma beside_manifest_apart g l : apart (manifest_paths (w_dir l)) (beside_manifest g l).
Proof.
  apply apart_and.
  - apply all_legs_apart. intros leg. unfold manifest_paths. destruct leg; not_in_paths.
  - apply apart_and; [apply home_apart; unfold manifest_paths; not_in_paths|].
    intros d d' Hsame Hc c E. unfold clock_on. rewrite Hsame; [by apply Hc|]. unfold manifest_paths. not_in_paths.
Qed.

Lemma beside_survives dir m0 m1 since g l w m d :
  log_at dir m0 since g (l, w) -> beside_manifest g l d -> same_session m1 m -> manifest_on dir m d ->
  (is_Some since -> m1 = m0) -> survives dir m1 since g d.
Proof.
  intros (Hd & Hs & Hcl & Hok) (Hl & Hh & Hc) Hm1 Hm Hsince. simpl in *. subst dir. split.
  - by apply all_legs_torn.
  - done.
  - by exists m.
  - intros c0 Hy. destruct (Hcl c0 Hy) as (c & E & Hlat). rewrite Hsince by by eexists.
    destruct (lo_clock _ _ Hok c E) as (Hf & _ & ? & ?).
    exists c. split; [done|]. split; [by eapply fits_same_session|]. split; [by apply Hc|].
    split; (eapply holds_durable_len; [|done]); [apply (Hl LSystem) | apply (Hl LMic)].
Qed.

(** Replacing the manifest of a log leaves the rest of it alone. *)
Lemma rewrite_manifest_triple dir m0 since g l w m :
  log_at dir m0 since g (l, w) ->
  match write_manifest_at dir m w with
  | (Returned _, w') => manifest_on dir m (disk w') /\ beside_manifest g l (disk w')
  | (_, w') => (manifest_on dir (w_manifest l) (disk w') \/ manifest_on dir m (disk w')) /\ beside_manifest g l (disk w')
  end.
Proof.
  intros (<- & _ & _ & Hok).
  apply (write_manifest_at_triple (beside_manifest g l) (w_dir l) m _ (beside_manifest_apart g l) w).
  split; [apply (lo_manifest _ _ Hok)|]. split; [intros leg; apply (lo_legs _ _ Hok)|].
  split; [apply (lo_home _ _ Hok) | by intros c E; apply (lo_clock _ _ Hok)].
Qed.

Lemma mark_gap_triple dir m0 since g start end_ why :
  triple (log_at dir m0 since g) (mark_gap start end_ why)
    (fun _ => log_at dir m0 since g) (fun lw => survives dir m0 since g (disk lw.2)).
Proof.
  intros [l w] Hat. pose proof Hat as (Hd & Hs & Hcl & Hok). simpl in Hd, Hs, Hcl.
  unfold mark_gap, write_manifest. rewrite bind_get_self, bind_set_self, bind_get_self.
  set (m' := with_gaps (w_manifest l) _). set (l' := set_manifest l m').
  assert (Hs' : same_session m0 m') by (unfold same_session in *; by rewrite <-Hs).
  unfold lift. change (w_dir l') with (w_dir l). change (w_manifest l') with m'. rewrite Hd.
  pose proof (rewrite_manifest_triple dir m0 since g l w m' Hat) as Ht.
  assert (Hcrash : forall w', (manifest_on dir (w_manifest l) (disk w') \/ manifest_on dir m' (disk w')) /\
                              beside_manifest g l (disk w') -> survives dir m0 since g (disk w')).
  { intros w' [[Hm|Hm] Hb]; [apply (beside_survives dir m0 m0 since g l w (w_manifest l)) |
      apply (beside_survives dir m0 m0 since g l w m')]; done. }
  destruct (write_manifest_at dir m' w) as [[[]|e|] w']; [|by apply Hcrash..].
  destruct Ht as (Hm & Hl & Hh & Hc). split; [done|]. split; [done|]. split; [done|]. rewrite <-Hd in Hm. split; simpl.
  - intros leg. pose proof (lo_paths _ _ Hok leg). by destruct leg.
  - apply (lo_owner _ _ Hok).
  - intros leg. specialize (Hl leg). by destruct leg.
  - done.
  - done.
  - intros c E. destruct (lo_clock _ _ Hok c E) as (Hf & _ & ?). split; [|split; [by apply Hc | done]].
    eapply fits_same_session; [|apply Hf]. done.
Qed.

(** After a flush the files are exactly what was accepted. *)
Lemma settled_file g l w leg :
  log_ok (settle_all g) (l, w) ->
  exists s, disk w !! (w_dir l /> leg_name leg) = Some (NFile (acc g leg) s) /\ (length (acc g leg) <= s)%nat.
Proof.
  intros Hok. destruct (lo_legs _ _ Hok leg) as (c & s & Hd & Hacc & Hdur). simpl in *.
  pose proof (prefix_length _ _ Hdur) as Hlen. rewrite length_take, <-Hacc, length_app in Hlen.
  assert (bw_buf (leg_get leg l) = []) as E by (apply nil_length_inv; lia).
  rewrite E, app_nil_r in Hacc. subst c. exists s. split; [done|]. apply prefix_length in Hdur.
  rewrite length_take in Hdur. lia.
Qed.

(** A reading of a file's size that proceeds is right. *)
Lemma metadata_triple (F : Disk -> Prop) p c s :
  apart [] F ->
  triple (fun w => disk w !! p = Some (NFile c s) /\ F (disk w)) (metadata p)
    (fun md w => len md = zlen c /\ disk w !! p = Some (NFile c s) /\ F (disk w))
    (fun w => disk w !! p = Some (NFile c s) /\ F (disk w)).
Proof.
  intros HF. apply (triple_op _ _ (fun d => d !! p = Some (NFile c s) /\ F d) (fun d => d !! p = Some (NFile c s) /\ F d)
    (fun md d => len md = zlen c /\ d !! p = Some (NFile c s) /\ F d)); [|done..].
  intros d md d' [Hp Hd] Ho. rewrite Hp in Ho. by simplify_eq/=.
Qed.

Lemma leg_metadata_triple dir m0 since g leg :
  triple (log_at dir m0 since (settle_all g)) (lift (metadata (dir /> leg_name leg)))
    (fun md lw => len md = zlen (acc g leg) /\ log_at dir m0 since (settle_all g) lw)
    (log_at dir m0 since (settle_all g)).
Proof.
  apply triple_lift. intros l w Hat. pose proof Hat as (Hd & _ & _ & Hok). simpl in Hd.
  destruct (settled_file g l w leg Hok) as (s & Hf & _). rewrite Hd in Hf.
  pose proof (metadata_triple (fun d => d = disk w) _ _ _ ltac:(intros d d' Hs ->; apply map_eq; intros p; apply Hs; set_solver)
    w (conj Hf eq_refl)) as Ht.
  destruct (metadata (dir /> leg_name leg) w) as [[md|e|] w'].
  - destruct Ht as (? & _ & Ew). split; [done|]. by eapply log_at_same.
  - destruct Ht as (_ & Ew). by eapply log_at_same.
  - destruct Ht as (_ & Ew). by eapply log_at_same.
Qed.

(** What the log knows beside its clock. *)
Lemma log_ok_publish dir m0 since g l w cp :
  log_at dir m0 since (settle_all g) (l, w) -> fits m0 cp ->
  system_bytes cp = zlen (acc g LSystem) -> mic_bytes cp = zlen (acc g LMic) ->
  (forall c0, since = Some c0 -> later c0 cp) ->
  match lift (publish (mkOwner dir) cp) (l, w) with
  | (Returned _, (l', w')) => l' = l /\ log_at dir m0 (Some cp) (settle_all g) (set_checkpoint l cp, w')
  | (_, (_, w')) => survives dir m0 since (settle_all g) (disk w')
  end.
Proof.
  intros Hat Hf Hsb Hmb Hlater. pose proof (log_survives _ _ _ _ _ Hat) as Hsv. destruct Hat as (Hd & Hs & Hcl & Hok).
  simpl in Hd, Hs, Hcl, Hsv. subst dir.
  set (F := fun d : Disk => all_legs (settle_all g) l d /\ home (w_dir l) d /\ manifest_on (w_dir l) (w_manifest l) d).
  assert (HF : apart (clock_paths (o_dir (mkOwner (w_dir l)))) F).
  { apply apart_and.
    - apply all_legs_apart. intros leg. unfold clock_paths. destruct leg; not_in_paths.
    - apply apart_and; [apply home_apart; unfold clock_paths; not_in_paths|].
      intros d d' Hsame. unfold manifest_on. rewrite Hsame; [done|]. unfold clock_paths. not_in_paths. }
  assert (HFw : F (disk w)) by (split; [intros leg; apply (lo_legs _ _ Hok) | split; [apply (lo_home _ _ Hok) | apply (lo_manifest _ _ Hok)]]).
  pose proof (publish_triple F (mkOwner (w_dir l)) cp _ HF w (conj eq_refl HFw)) as Ht. unfold lift.
  assert (Hfit : fits (w_manifest l) cp) by (by eapply fits_same_session; [|apply Hf]).
  assert (Hlen : forall d, all_legs (settle_all g) l d ->
    durable_len (w_dir l /> SYSTEM_PCM) (system_bytes cp) d /\ durable_len (w_dir l /> MIC_PCM) (mic_bytes cp) d).
  { intros d Hl. split; (eapply holds_durable_len; [|by rewrite ?Hsb, ?Hmb]); [apply (Hl LSystem) | apply (Hl LMic)]. }
  assert (Hcrash : forall w', (disk w' !! (w_dir l /> CLOCK) = disk w !! (w_dir l /> CLOCK) \/
      clock_on (w_dir l) cp (disk w')) /\ F (disk w') -> survives (w_dir l) m0 since (settle_all g) (disk w')).
  { intros w' (Hc & Hl & Hh & Hm). split; [by apply all_legs_torn | done | by eexists|]. intros c0 Hy. destruct Hc as [Hc|Hc].
    - destruct (Hcl c0 Hy) as (c & E & Hlat).
      destruct (lo_clock _ _ Hok c E) as (Hfc & Hclk & ? & ?). exists c. split; [done|]. split; [by eapply fits_same_session|].
      unfold clock_on. rewrite Hc. split; [apply Hclk|].
      split; (eapply holds_durable_len; [|done]); [apply (Hl LSystem) | apply (Hl LMic)].
    - exists cp. split; [by apply Hlater|]. split; [done|]. split; [done | by apply Hlen]. }
  destruct (publish (mkOwner (w_dir l)) cp w) as [[[]|e|] w']; [|by apply Hcrash..].
  destruct Ht as (Hc & Hl & Hh & Hm). split; [done|]. split; [done|]. split; [done|].
  split; [intros c0 [= <-]; by exists cp|]. split; simpl.
  - intros leg. pose proof (lo_paths _ _ Hok leg). by destruct leg.
  - apply (lo_owner _ _ Hok).
  - intros leg. specialize (Hl leg). by destruct leg.
  - done.
  - done.
  - intros c [= <-]. split; [done|]. split; [done|]. lia.
Qed.

(** What a checkpoint that returned has made durable and said. *)
Definition checkpointed (dir : path) (m0 : Manifest) (since : option CaptureCheckpoint) (g : Written)
    (el : Z) (stop : bool) (lw : SessionWal * World) : Prop :=
  exists cp, log_at dir m0 (Some cp) (settle_all g) lw /\ capture_checkpoint lw.1 = Some cp /\
    (forall c0, since = Some c0 -> later c0 cp) /\
    system_bytes cp = zlen (acc g LSystem) /\ mic_bytes cp = zlen (acc g LMic) /\
    elapsed_ms cp = el /\ stop_requested cp = stop.

Lemma publish_checkpoint_triple dir m0 since g l0 el stop :
  w_dir l0 = dir -> same_session m0 (w_manifest l0) -> o_dir (capture_owner l0) = dir ->
  (forall leg, bw_path (leg_get leg l0) = dir /> leg_name leg) ->
  is_some (checked_add64 (started_at_ms m0) el) = true ->
  durable_le g (settle_all g) ->
  (forall cp c0, elapsed_ms cp = el -> stop_requested cp = stop -> system_bytes cp = zlen (acc g LSystem) ->
     mic_bytes cp = zlen (acc g LMic) -> since = Some c0 -> later c0 cp) ->
  triple (log_at dir m0 since g) (publish_checkpoint l0 el stop)
    (fun _ => checkpointed dir m0 since g el stop) (fun lw => survives dir m0 since g (disk lw.2)).
Proof.
  intros Hd Hs Ho Hp Hadd Hdur Hlater. unfold publish_checkpoint.
  assert (Hweak : forall d, survives dir m0 since (settle_all g) d -> survives dir m0 since g d)
    by (intros d; by apply survives_weaken).
  assert (Hcrash : forall lw, log_at dir m0 since (settle_all g) lw -> survives dir m0 since g (disk lw.2))
    by (intros lw Hat; by apply Hweak, log_survives).
  eapply triple_then; [apply wal_flush_triple | apply log_more_survives|]. intros [].
  pose proof (Hp LSystem) as Hps. pose proof (Hp LMic) as Hpm. simpl in Hps, Hpm. rewrite Hps, Hpm.
  eapply triple_then; [apply (leg_metadata_triple dir m0 since g LSystem) | done|]. intros s.
  intros lw [Hls Hat]. revert lw Hat.
  match goal with |- forall lw, _ -> match ?m lw with _ => _ end => change (triple (log_at dir m0 since (settle_all g)) m
    (fun _ => checkpointed dir m0 since g el stop) (fun lw => survives dir m0 since g (disk lw.2))) end.
  eapply triple_then; [apply (leg_metadata_triple dir m0 since g LMic) | done|]. intros c.
  intros lw [Hlc Hat]. revert lw Hat.
  match goal with |- forall lw, _ -> match ?m lw with _ => _ end => change (triple (log_at dir m0 since (settle_all g)) m
    (fun _ => checkpointed dir m0 since g el stop) (fun lw => survives dir m0 since g (disk lw.2))) end.
  apply triple_ok_or; [done|]. intros sf Hsf. apply triple_guard; [done|]. intros Hal.
  apply andb_true_iff in Hal as [Hals Halm]. set (cp := mkCheckpoint _ _ _ _ _ _ _ _ _).
  assert (Hfit : fits m0 cp).
  { eapply fits_same_session; [apply Hs|]. split_and!; try done.
    simpl. by rewrite (same_session_started _ _ Hs). }
  intros [l w] Hat. destruct l0 as [dir0 mm sy mi st ls [od] cpt]. simpl in Ho. subst od.
  pose proof (log_ok_publish dir m0 since g l w cp Hat Hfit Hls Hlc ltac:(intros c0; by apply Hlater)) as Ht.
  unfold mbind, eff_bind. simpl in *. destruct (publish (mkOwner dir) cp w) as [[[]|e|] w']; simpl in *;
    [|by apply Hweak..].
  destruct Ht as [_ Ht]. exists cp. split_and!; try done. intros c0. by apply Hlater.
Qed.

Lemma log_at_since dir m0 since cp g lw :
  log_at dir m0 (Some cp) g lw -> (forall c0, since = Some c0 -> later c0 cp) -> log_at dir m0 since g lw.
Proof.
  intros (? & ? & Hc & ?) Hl. split_and!; [done..| |done]. intros c0 E. destruct (Hc cp eq_refl) as (c & Ec & Hlat).
  exists c. split; [done|]. etrans; [by apply Hl | done].
Qed.

(** The clock a checkpoint records: the first Stop's, or the one observed. *)
Definition clock_of (l : SessionWal) (elapsed : Z) (stop : bool) : Z * bool :=
  match capture_checkpoint l with
  | Some p => if stop_requested p then (elapsed_ms p, true) else (elapsed, stop)
  | None => (elapsed, stop)
  end.

(** A successful checkpoint makes everything accepted durable and says so. *)
Lemma checkpoint_triple dir m0 since g elapsed stop l w :
  log_at dir m0 since g (l, w) ->
  match checkpoint_capture elapsed stop (l, w) with
  | (Returned _, lw) =>
      checkpointed dir m0 since g (clock_of l elapsed stop).1 (clock_of l elapsed stop).2 lw
  | (_, lw) => survives dir m0 since g (disk lw.2)
  end.
Proof.
  intros Hat. unfold checkpoint_capture. rewrite bind_get_self.
  pose proof (log_survives _ _ _ _ _ Hat) as Hsv. pose proof Hat as (Hd & Hs & Hcl & Hok). simpl in Hd, Hs, Hcl.
  assert (Hel : match (match capture_checkpoint l with Some p => if stop_requested p then Some p else None | None => None end)
                with Some p => elapsed_ms p | None => elapsed end = (clock_of l elapsed stop).1).
  { unfold clock_of. by repeat case_match; simplify_eq. }
  assert (Hst : stop || is_some (match capture_checkpoint l with Some p => if stop_requested p then Some p else None | None => None end)
                = (clock_of l elapsed stop).2).
  { unfold clock_of. destruct (capture_checkpoint l) as [p|]; [|by rewrite orb_false_r].
    destruct (stop_requested p); [by rewrite orb_true_r | by rewrite orb_false_r]. }
  rewrite Hel, Hst. clear Hel Hst.
  destruct (is_some (checked_add64 (started_at_ms (w_manifest l)) _)) eqn:Hadd; [|exact Hsv].
  match goal with |- context [guard_io ?b _] => destruct b eqn:Hg; [|exact Hsv] end.
  eapply (publish_checkpoint_triple dir m0 since g l _ _ Hd Hs); [| | | | |exact Hat].
  - rewrite <-Hd. apply (lo_owner _ _ Hok).
  - intros leg. rewrite <-Hd. apply (lo_paths _ _ Hok).
  - by rewrite <-(same_session_started _ _ Hs).
  - intros leg. by eapply log_ok_dur.
  - intros cp c0 He Hst Hsb Hmb Hc0. destruct (Hcl c0 Hc0) as (p & Ep & Hlat). etrans; [done|].
    destruct (lo_clock _ _ Hok p Ep) as (_ & _ & Hb1 & Hb2).
    pose proof (prefix_zlen _ _ (log_ok_dur _ _ LSystem Hok)). pose proof (prefix_zlen _ _ (log_ok_dur _ _ LMic Hok)).
    simpl in Hg. rewrite Ep in Hg. simpl in Hg. unfold clock_of in *. rewrite Ep in *.
    unfold later. destruct (stop_requested p) eqn:Hp; simpl in *; (split; [lia|]); (split; [lia|]).
    + split; [done|]. congruence.
    + split; [done|]. intros Hns. rewrite Hns in Hst. subst stop. simpl in Hg.
      apply negb_true_iff, Z.ltb_ge in Hg. lia.
Qed.

(** *** Any number of operations *)

Context `{Serde SttRecord}.

Inductive LogOp :=
| WriteSystem (pcm : list f32)
| WriteMic (pcm : list f32)
| AppendStt (r : SttRecord)
| MarkGap (start end_ : Z) (why : string)
| Flush
| Checkpoint (elapsed : Z) (stop : bool).

Definition run_op (op : LogOp) : LogM unit :=
  match op with
  | WriteSystem pcm => write_system pcm
  | WriteMic pcm => write_mic pcm
  | AppendStt r => append_stt r
  | MarkGap s e why => mark_gap s e why
  | Flush => wal_flush
  | Checkpoint e stop => checkpoint_capture e stop
  end.

(** In order, until one fails or the process dies. *)
Fixpoint run_ops (ops : list LogOp) : LogM unit :=
  match ops with
  | [] => mret tt
  | op :: ops => _ ← run_op op; run_ops ops
  end.

Definition offered (leg : Leg) (op : LogOp) : bytes :=
  match op, leg with
  | WriteSystem pcm, LSystem => pcm_bytes_of pcm
  | WriteMic pcm, LMic => pcm_bytes_of pcm
  | AppendStt r, LStt => to_vec r ++ [LF]
  | _, _ => []
  end.

Definition offer (g : Written) (ops : list LogOp) : Written :=
  mkWritten (fun leg => acc g leg ++ (ops ≫= offered leg)) (dur g).

(** Two accounts of the same bytes. *)
Definition same_written (g g' : Written) : Prop := forall leg, acc g' leg = acc g leg /\ dur g' leg = dur g leg.

Lemma log_at_written dir m0 since g g' lw :
  same_written g g' -> log_at dir m0 since g lw -> log_at dir m0 since g' lw.
Proof.
  intros Hg (? & ? & ? & ?). split_and!; [done..|]. eapply log_ok_ext; [| |done]; intros leg; apply Hg.
Qed.

Lemma survives_written dir m0 since g g' d :
  same_written g g' -> survives dir m0 since g d -> survives dir m0 since g' d.
Proof. intros Hg. apply survives_weaken; intros leg; destruct (Hg leg) as [E1 E2]; by rewrite ?E1, ?E2. Qed.

Lemma write_then_sync dir m0 since g g' leg m bs :
  accepts m bs -> same_written (grow g leg bs) g' ->
  triple (log_at dir m0 since g) (_ ← on_leg leg m; maybe_sync)
    (fun _ => log_more dir m0 since g') (fun lw => survives dir m0 since g' (disk lw.2)).
Proof.
  intros Hm Hg. eapply triple_then; [by apply (leg_write_triple dir m0 since g leg) | |].
  - intros lw. by apply survives_written.
  - intros []. eapply triple_pre; [apply maybe_sync_triple|]. intros lw. by apply log_at_written.
Qed.

Lemma run_op_triple dir m0 since g op :
  triple (log_at dir m0 since g) (run_op op)
    (fun _ => log_more dir m0 since (offer g [op])) (fun lw => survives dir m0 since (offer g [op]) (disk lw.2)).
Proof.
  assert (Hsame : (forall leg, offered leg op = []) -> same_written g (offer g [op])).
  { intros Hn leg. simpl. by rewrite Hn, !app_nil_r. }
  destruct op as [pcm|pcm|r|s e why| |e stop]; simpl run_op.
  - apply (write_then_sync dir m0 since g _ LSystem _ _ (write_all_accepts _)).
    intros []; simpl; by rewrite ?app_nil_r.
  - apply (write_then_sync dir m0 since g _ LMic _ _ (write_all_accepts _)).
    intros []; simpl; by rewrite ?app_nil_r.
  - unfold append_stt. eapply triple_then; [apply (leg_write_triple dir m0 since g LStt), chunks_accepts| |].
    + intros lw. apply survives_weaken; [|by intros leg]. intros []; simpl; rewrite ?app_nil_r; [done..|].
      unfold to_vec. rewrite app_assoc. by apply prefix_app_r.
    + intros []. apply (write_then_sync dir m0 since _ _ LStt _ _ (write_all_accepts _)).
      intros []; simpl; unfold to_vec; by rewrite ?app_nil_r, ?app_assoc.
  - eapply triple_conseq; [apply mark_gap_triple|done| |].
    + intros [] lw Hat. by eapply log_more_refl, log_at_written, Hat; apply Hsame; intros [].
    + intros lw. apply survives_written, Hsame. by intros [].
  - assert (He : same_written g (offer g [Flush])) by (apply Hsame; by intros []).
    intros lw Hat. assert (Hle : durable_le (offer g [Flush]) (settle_all g)).
    { intros leg. destruct (He leg) as [_ ->]. destruct Hat as (_ & _ & _ & Hok). by eapply log_ok_dur. }
    pose proof (wal_flush_triple dir m0 since g lw Hat) as Ht.
    destruct (wal_flush lw) as [[[]|er|] lw']; [|by eapply survives_written, log_more_survives..].
    exists (settle_all g). split; [|done]. intros leg. by destruct (He leg) as [-> _].
  - assert (He : same_written g (offer g [Checkpoint e stop])) by (apply Hsame; by intros []).
    intros [l w] Hat. assert (Hle : durable_le (offer g [Checkpoint e stop]) (settle_all g)).
    { intros leg. destruct (He leg) as [_ ->]. destruct Hat as (_ & _ & _ & Hok). by eapply log_ok_dur. }
    pose proof (checkpoint_triple dir m0 since g e stop l w Hat) as Ht.
    destruct (checkpoint_capture e stop (l, w)) as [[[]|er|] lw']; [|by eapply survives_written..].
    exists (settle_all g). split; [intros leg; by destruct (He leg) as [-> _]|]. split; [done|].
    destruct Ht as (cp & ? & _ & ? & _). by eapply log_at_since.
Qed.

Lemma run_ops_triple dir m0 since g ops :
  triple (log_more dir m0 since g) (run_ops ops)
    (fun _ => log_more dir m0 since (offer g ops)) (fun lw => survives dir m0 since (offer g ops) (disk lw.2)).
Proof.
  revert g. induction ops as [|op ops IH]; intros g.
  - intros lw (g' & Ha & Hd & Hat). exists g'. split; [|done]. intros leg. simpl. by rewrite app_nil_r, Ha.
  - simpl. eapply triple_then.
    + intros lw (g' & Ha & Hd & Hat). pose proof (run_op_triple dir m0 since g' op lw Hat) as Ht.
      assert (Ho : same_acc (offer g [op]) (offer g' [op])) by (intros leg; simpl; by rewrite Ha).
      instantiate (1 := fun lw => survives dir m0 since (offer g [op]) (disk lw.2)).
      instantiate (1 := fun _ lw => log_more dir m0 since (offer g [op]) lw).
      destruct (run_op op lw) as [[[]|e|] lw'].
      * destruct Ht as (g2 & Ha2 & Hd2 & Hat2). exists g2. split; [intros leg; by rewrite Ha2, Ho|]. split; [|done].
        etrans; [apply Hd | apply Hd2].
      * eapply survives_weaken; [| |apply Ht]; [intros leg; by rewrite Ho | apply Hd].
      * eapply survives_weaken; [| |apply Ht]; [intros leg; by rewrite Ho | apply Hd].
    + intros lw. apply survives_weaken; [|by intros leg]. intros leg. simpl. rewrite app_nil_r, app_assoc. by apply prefix_app_r.
    + intros []. eapply triple_conseq; [apply IH|done| |].
      * intros [] lw (g' & Ha & Hd & Hat). exists g'. split; [|done]. intros leg. rewrite Ha. simpl. by rewrite app_nil_r, app_assoc.
      * intros lw. apply survives_written. intros leg. simpl. by rewrite app_nil_r, app_assoc.
Qed.

End Log.
