(* ===== verification/WalCrash.v ===== *)
(** * What a crash leaves of a recording

    The theorems about the session log: a session that was created can be read
    back whatever happened to its writer; what was flushed or checkpointed is
    there; the checkpoint evidence itself survives; the clock is frozen by the
    first Stop; and how often the log syncs. *)

From S2P Require Import Prelude Bytes Text Float32 Json.
From S2P Require Import FileSystem WalTypes OpusArchive SessionDir Wal WalProofs.

Local Open Scope Z_scope.

(** ** Creation *)

Definition nothing_written : Written := mkWritten (fun _ => []) (fun _ => []).

Section Create.
Context `{JsonDoc Manifest, JsonDoc CaptureCheckpoint}.

Abbreviation anything := (fun _ : World => True).

Lemma triple_anything {E A} (m : IO E A) : triple anything m (fun _ => anything) anything.
Proof. intros w _. by destruct (m w) as [[a|e|] w']. Qed.

Lemma triple_on_error {E F A} P (m : IO E A) (drop : IO F unit) Q :
  triple P m Q anything -> triple P (on_error m drop) Q anything.
Proof.
  intros Hm w Hw. specialize (Hm w Hw). unfold on_error. destruct (m w) as [[a|e|] w']; [done| |done].
  by destruct (drop w') as [[?|?|] w2].
Qed.

Lemma create_dir_triple p :
  triple anything (create_dir p) (fun _ w => disk w !! p = Some NDir) anything.
Proof.
  apply (triple_op _ _ (fun _ => True) (fun _ => True) (fun _ d => d !! p = Some NDir)); [|done..].
  intros d [] d' _ Ho. repeat case_match; simplify_eq. by rewrite lookup_insert_eq.
Qed.

Lemma reserve_triple root next_id :
  triple anything (reserve_session_dir root next_id)
    (fun r w => r.2 = root /> r.1 /\ disk w !! r.2 = Some NDir) anything.
Proof.
  unfold reserve_session_dir. eapply triple_bind; [apply triple_anything|]. intros [].
  generalize 128%nat. intros tries. induction tries as [|n IH]; simpl; [done|].
  eapply triple_bind; [apply triple_anything|]. intros name.
  eapply triple_bind; [apply triple_attempt, create_dir_triple|]. intros [[]|e]; [by intros w Hw|].
  case_decide; [done|]. by intros w _.
Qed.

Lemma owner_create_triple dir :
  triple (fun w => disk w !! dir = Some NDir) (owner_create dir)
    (fun o w => o = mkOwner dir /\ home dir (disk w)) anything.
Proof.
  unfold owner_create.
  assert (Hap : apart [dir /> OWNER_LOCK] (fun d : Disk => d !! dir = Some NDir)).
  { apply (apart_lookup _ _ (fun x => x = Some NDir)). not_in_paths. }
  eapply triple_then; [apply (open_new_triple _ _ Hap) | done|]. intros [].
  apply triple_at. intros w [H1 H2]. assert (Hh : home dir (disk w)) by (split; [done | by eexists _, _]).
  intros ? <-. unfold mbind, eff_bind, try_lock. by case_decide.
Qed.

Lemma fresh_legs_triple dir (l : SessionWal) :
  w_dir l = dir -> (forall leg, bw_buf (leg_get leg l) = []) ->
  triple (fun w => home dir (disk w))
    (_ ← open_truncate (dir /> SYSTEM_PCM); _ ← open_truncate (dir /> MIC_PCM); open_truncate (dir /> STT_JSONL))
    (fun _ w => all_legs nothing_written l (disk w) /\ home dir (disk w)) anything.
Proof.
  intros Hd Hb.
  set (fresh := fun (n : string) (d : Disk) => d !! (dir /> n) = Some (NFile [] 0)).
  assert (Hap : forall n n', n <> n' -> apart [dir /> n] (fresh n')).
  { intros n n' Hne. apply (apart_lookup _ _ (fun x => x = Some (NFile [] 0))).
    rewrite list_elem_of_singleton. intros Heq. by apply child_inj in Heq. }
  assert (Hho : forall n, n <> OWNER_LOCK -> apart [dir /> n] (home dir)).
  { intros n Hne. apply home_apart; rewrite list_elem_of_singleton; [apply not_eq_sym, child_ne|].
    intros Heq. by apply child_inj in Heq. }
  eapply triple_then; [apply (open_truncate_triple (home dir)); by apply Hho|done|]. intros [].
  eapply triple_then; [apply (open_truncate_triple (fun d => fresh SYSTEM_PCM d /\ home dir d))|done|].
  { apply apart_and; [by apply Hap | by apply Hho]. }
  assert (Hall : apart [dir /> STT_JSONL] (fun d => fresh MIC_PCM d /\ fresh SYSTEM_PCM d /\ home dir d)).
  { apply apart_and; [by apply Hap|]. apply apart_and; [by apply Hap | by apply Hho]. }
  intros []. eapply triple_conseq; [apply (open_truncate_triple _ _ Hall)|done| |done].
  intros [] w (H1 & H2 & H3 & H4). split; [|done]. intros leg. simpl. rewrite Hd, Hb. exists [], 0%nat. by destruct leg.
Qed.

Lemma create_triple pid version root system mic :
  triple anything (create_with_formats pid version root system mic)
    (fun l w => exists name now cp,
       log_at (root /> name) (initial_manifest name system mic now version) (Some cp) nothing_written (l, w)) anything.
Proof.
  unfold create_with_formats. eapply triple_bind; [apply reserve_triple|]. intros [name dir]. simpl.
  apply triple_at. intros w0 [-> Hdir]. set (dir := root /> name) in *.
  apply (triple_pre (fun w => disk w !! dir = Some NDir)); [|by intros w <-]. clear w0 Hdir.
  eapply triple_then; [apply owner_create_triple | done|]. intros owner.
  apply triple_at. intros w0 [-> Hhome]. intros ? <-. rewrite (bind_returned _ _ _ _ _ (now_ms_eq _)).
  set (now := hd 0 (wall w0)). assert (Hh : home dir (disk (wall_ticked w0))) by done.
  revert Hh. generalize (wall_ticked w0). clear Hhome. clearbody now. clear w0.
  set (m0 := initial_manifest name system mic now version).
  set (mk := fun t => mkWal dir m0 (mkBuf (dir /> SYSTEM_PCM) []) (mkBuf (dir /> MIC_PCM) [])
                        (mkBuf (dir /> STT_JSONL) []) t (mkOwner dir) None).
  refine (_ : triple (fun w => home dir (disk w)) _ _ anything).
  eapply triple_bind.
  { apply triple_on_error.
    pose proof (fresh_legs_triple dir (mk 0) eq_refl ltac:(by intros [])) as Hfresh.
    intros w Hh. specialize (Hfresh w Hh). unfold mbind, eff_bind in *.
    instantiate (1 := fun l w => exists t, l = mk t /\ all_legs nothing_written l (disk w) /\ home dir (disk w)).
    destruct (open_truncate _ w) as [[[]|e|] w1]; [|done..].
    destruct (open_truncate _ w1) as [[[]|e|] w2]; [|done..].
    destruct (open_truncate _ w2) as [[[]|e|] w3]; [|done..].
    rewrite instant_now_eq. simpl. eexists. split; [done|]. destruct Hfresh as [Hfresh ?].
    split; [|done]. intros leg. specialize (Hfresh leg). by destruct leg. }
  intros l w (t & -> & Hlegs). unfold establish.
  assert (Hap : apart (manifest_paths dir) (fun d => all_legs nothing_written (mk t) d /\ home dir d)).
  { apply apart_and; [|apply home_apart; unfold manifest_paths; not_in_paths].
    apply all_legs_apart. intros leg. unfold manifest_paths. destruct leg; not_in_paths. }
  pose proof (write_manifest_at_triple _ dir m0 _ Hap w (conj eq_refl Hlegs)) as Hm.
  unfold write_manifest. unfold mbind at 1, eff_bind at 1. rewrite bind_get_self. unfold lift.
  change (w_dir (mk t)) with dir. change (w_manifest (mk t)) with m0.
  destruct (write_manifest_at dir m0 w) as [[[]|e|] w1]; [| |done].
  - destruct Hm as (Hm & Hl & Hh).
    assert (Hat : log_at dir m0 None nothing_written (mk t, w1)).
    { split; [done|]. split; [done|]. split; [done|]. split; simpl; try done. by intros []. }
    pose proof (checkpoint_triple dir m0 None nothing_written 0 false (mk t) w1 Hat) as Hc.
    destruct (checkpoint_capture 0 false (mk t, w1)) as [[[]|e|] [l2 w2]]; [| |done].
    + destruct Hc as (cp & Hc & _). exists name, now, cp. eapply log_at_written; [|apply Hc]. by intros leg.
    + by destruct (wal_drop (l2, w2)) as [[[]|?|] [? ?]].
  - by destruct (wal_drop (mk t, w1)) as [[[]|?|] [? ?]].
Qed.

End Create.

(** ** After the crash *)

Lemma cut_file d d' p c s :
  power_cut d d' -> d !! p = Some (NFile c s) ->
  exists k, (s <= k)%nat /\ d' !! p = Some (NFile (take k c) (length (take k c))).
Proof.
  intros Hcut Hp. specialize (Hcut p). rewrite Hp in Hcut.
  inversion Hcut as [x n' Hn E1 E2|]. subst x. destruct Hn as (k & Hk & ->). by exists k.
Qed.

Lemma cut_whole d d' p bs : power_cut d d' -> d !! p = Some (whole_file bs) -> d' !! p = Some (whole_file bs).
Proof.
  intros Hcut Hp. destruct (cut_file _ _ _ _ _ Hcut Hp) as (k & Hk & ->). by rewrite take_ge by done.
Qed.

Lemma cut_torn d d' p a e : power_cut d d' -> torn p a e d -> torn p a e d'.
Proof.
  intros Hcut (c & s & Hp & Hpre & Hd). destruct (cut_file _ _ _ _ _ Hcut Hp) as (k & Hk & Hp').
  eexists _, _. split; [done|]. split; [etrans; [apply prefix_take | done]|]. rewrite firstn_all.
  etrans; [done|]. replace (take s c) with (take s (take k c)) by (rewrite take_take; f_equal; lia). apply prefix_take.
Qed.

Section ReadBack.
Context `{JsonDoc Manifest, JsonDoc CaptureCheckpoint, Serde SttRecord}.

Lemma restart_survives dir m0 since g w w' :
  survives dir m0 since g (disk w) -> restarted w w' -> survives dir m0 since g (disk w').
Proof.
  intros Hsv [->|Hcut]; [done|]. destruct Hsv as [Hl [Hd (c & s & Hlock)] (m & Hm & Hmo) Hc]. split.
  - intros leg. by eapply cut_torn.
  - split.
    + specialize (Hcut dir). rewrite Hd in Hcut. inversion Hcut as [x n' E E1 E2|]. subst x. by simpl in E; subst.
    + destruct (cut_file _ _ _ _ _ Hcut Hlock) as (k & _ & Hk). by eexists _, _.
  - exists m. split; [done|]. by eapply cut_whole.
  - intros c0 Hy. destruct (Hc c0 Hy) as (cp & Hlat & Hf & Hclk & Hs & Hm2). exists cp. split; [done|]. split; [done|].
    split; [by eapply cut_whole|].
    assert (Hlen : forall p n, durable_len p n (disk w) -> durable_len p n (disk w')).
    { intros p n (x & t & Hx & Hn). destruct (cut_file _ _ _ _ _ Hcut Hx) as (k & Hk & Hx').
      eexists _, _. split; [done|]. rewrite firstn_all. unfold zlen in *. rewrite length_take in *. lia. }
    by split; apply Hlen.
Qed.

(** How the legs of a session this program created are read. *)
Definition formats_of (system : TrackFormat) (mic : option TrackFormat) : SessionFormats :=
  mkFormats (sane system) (match mic with Some f => sane f | None => sane system end) false.

(** A manifest written by this program, for these formats. *)
Definition written_for (system : TrackFormat) (mic : option TrackFormat) (m : Manifest) : Prop :=
  schema m = SCHEMA /\ system_format m = Some system /\ mic_format m = mic /\
  m_sample_rate_hz m = sample_rate_hz system /\ m_channels m = channels system.

Lemma written_for_same system mic m m' : same_session m m' -> written_for system mic m -> written_for system mic m'.
Proof.
  intros Hs (Hw1 & Hw2 & Hw3 & Hw4 & Hw5). split_and!.
  - rewrite <-Hw1. apply (f_equal schema Hs).
  - rewrite <-Hw2. apply (f_equal system_format Hs).
  - rewrite <-Hw3. apply (f_equal mic_format Hs).
  - rewrite <-Hw4. apply (f_equal m_sample_rate_hz Hs).
  - rewrite <-Hw5. apply (f_equal m_channels Hs).
Qed.

Lemma track_formats_created system mic m dir w :
  written_for system mic m -> track_formats m dir w = (Returned (formats_of system mic), w).
Proof.
  intros (E1 & E2 & E3 & E4 & E5). unfold track_formats, formats_of. rewrite E1, E2, E3, E4, E5.
  destruct mic; [done|]. by destruct system.
Qed.

Lemma leg_frames_calm dir name f w c s :
  fates w = [] -> disk w !! (dir /> name) = Some (NFile c s) ->
  leg_frames dir name f w = (Returned (zlen c / (BYTES_PER_SAMPLE * channels f)), w).
Proof.
  intros Hf Hp. unfold leg_frames.
  by rewrite (bind_returned _ _ _ _ _ (attempt_returned _ _ _ _ (metadata_calm w Hf _ _ _ Hp))).
Qed.

Context `{!JsonDocLaws Manifest}.

Lemma read_manifest_calm dir m w :
  fates w = [] -> manifest_on dir m (disk w) -> read_manifest dir w = (Returned m, w).
Proof.
  intros Hf Hm. unfold read_manifest. rewrite (bind_returned _ _ _ _ _ (read_file_calm w Hf _ _ _ Hm)).
  by rewrite doc_roundtrip.
Qed.

(** What is read back of a session that stopped anywhere. *)
Lemma session_read_calm system mic m0 dir since g w :
  survives dir m0 since g (disk w) -> written_for system mic m0 -> fates w = [] ->
  exists st sys micb sttb s1 s2,
    session_read dir w = (Returned st, w) /\
    disk w !! (dir /> SYSTEM_PCM) = Some (NFile sys s1) /\ disk w !! (dir /> MIC_PCM) = Some (NFile micb s2) /\
    same_session m0 (s_manifest st) /\
    (dur g LSystem `prefix_of` sys /\ sys `prefix_of` acc g LSystem) /\
    (dur g LMic `prefix_of` micb /\ micb `prefix_of` acc g LMic) /\
    (dur g LStt `prefix_of` sttb /\ sttb `prefix_of` acc g LStt) /\
    system_frames st = zlen sys / (2 * channels (f_system (formats_of system mic))) /\
    mic_frames st = zlen micb / (2 * channels (f_mic (formats_of system mic))) /\
    stt st = records_of sttb /\ exists s3, disk w !! (dir /> STT_JSONL) = Some (NFile sttb s3).
Proof.
  intros [Hl Hh (m & Hs & Hm) _] Hwf Hf.
  destruct (Hl LSystem) as (sys & s1 & Hsys & Hp1 & Hd1). destruct (Hl LMic) as (micb & s2 & Hmic & Hp2 & Hd2).
  destruct (Hl LStt) as (sttb & s3 & Hstt & Hp3 & Hd3). simpl in Hsys, Hmic, Hstt.
  eexists _, sys, micb, sttb, s1, s2.
  split; [|split; [|split; [|split; [|split; [|split; [|split; [|split; [|split; [|split]]]]]]]]].
  - unfold session_read. rewrite (bind_returned _ _ _ _ _ (read_manifest_calm _ _ _ Hf Hm)).
    rewrite (bind_returned _ _ _ _ _ (track_formats_created _ _ _ _ _ (written_for_same _ _ _ _ Hs Hwf))).
    rewrite (bind_returned _ _ _ _ _ (leg_frames_calm _ _ _ _ _ _ Hf Hsys)).
    rewrite (bind_returned _ _ _ _ _ (leg_frames_calm _ _ _ _ _ _ Hf Hmic)).
    unfold read_jsonl.
    erewrite bind_returned; [reflexivity|].
    by rewrite (bind_returned _ _ _ _ _ (attempt_returned _ _ _ _ (read_file_calm w Hf _ _ _ Hstt))).
  - done.
  - done.
  - done.
  - split; [etrans; [done | apply prefix_take] | done].
  - split; [etrans; [done | apply prefix_take] | done].
  - split; [etrans; [done | apply prefix_take] | done].
  - done.
  - done.
  - done.
  - by exists s3.
Qed.

Definition is_barrier (op : LogOp) : bool :=
  match op with Flush | Checkpoint _ _ => true | _ => false end.

(** Everything offered before a barrier that returned is durable. *)
Lemma barrier_triple dir m0 since g op :
  is_barrier op = true ->
  triple (log_more dir m0 since g) (run_op op)
    (fun _ lw => exists g', same_acc g g' /\ (forall leg, dur g' leg = acc g leg) /\ log_at dir m0 since g' lw)
    (fun lw => survives dir m0 since g (disk lw.2)).
Proof.
  intros Hop lw (g1 & Ha & Hd & Hat). pose proof (fun d => survives_weaken dir m0 since g g1 d) as Hw.
  assert (Hpre : forall leg, acc g1 leg `prefix_of` acc g leg) by (intros leg; by rewrite Ha).
  destruct op as [| | | | |e stop]; try done; simpl.
  - pose proof (wal_flush_triple dir m0 since g1 lw Hat) as Ht.
    destruct (wal_flush lw) as [[[]|er|] lw']; [|by apply Hw; [..|apply log_more_survives]..]. by exists (settle_all g1).
  - destruct lw as [l w]. pose proof (checkpoint_triple dir m0 since g1 e stop l w Hat) as Ht.
    destruct (checkpoint_capture e stop (l, w)) as [[[]|er|] lw']; [|by apply Hw..].
    destruct Ht as (cp & ? & _ & ? & _). exists (settle_all g1). split; [done|]. split; [done|].
    by eapply log_at_since.
Qed.

Lemma run_ops_app a b lw :
  run_ops (a ++ b) lw = match run_ops a lw with
                        | (Returned _, lw') => run_ops b lw'
                        | (Raised e, lw') => (Raised e, lw')
                        | (Killed, lw') => (Killed, lw')
                        end.
Proof.
  revert lw. induction a as [|op a IH]; intros lw; simpl; [done|].
  unfold mbind, eff_bind. destruct (run_op op lw) as [[[]|e|] lw']; [apply IH | done | done].
Qed.

(** The bytes of a leg in a list of operations. *)
Definition audio (leg : Leg) (ops : list LogOp) : bytes := ops ≫= offered leg.

(** The samples handed to a leg. *)
Definition heard (leg : Leg) (ops : list LogOp) : list f32 :=
  ops ≫= fun op => match op, leg with WriteSystem pcm, LSystem | WriteMic pcm, LMic => pcm | _, _ => [] end.

Lemma audio_heard leg ops : leg <> LStt -> audio leg ops = bytes_of_samples (pcm_sample <$> heard leg ops).
Proof.
  intros Hleg. unfold audio, heard. induction ops as [|op ops IH]; [done|].
  rewrite !bind_cons, fmap_app, bytes_of_samples_app, IH. f_equal. by destruct op, leg.
Qed.

Lemma pcm_samples_i16 pcm : Forall is_i16 (pcm_sample <$> pcm).
Proof. apply Forall_fmap, Forall_true. intros x. apply f32_as_i16_range. Qed.

(** Whatever prefix of a leg is on disk, read as 16-bit samples it is a prefix of
    the samples handed to it. *)
Lemma prefix_is_heard leg ops bs : leg <> LStt ->
  bs `prefix_of` audio leg ops -> samples_of_bytes bs `prefix_of` pcm_sample <$> heard leg ops.
Proof. intros Hleg. rewrite (audio_heard leg ops Hleg). apply samples_of_prefix, pcm_samples_i16. Qed.

Lemma audio_decodes leg ops : leg <> LStt -> samples_of_bytes (audio leg ops) = pcm_sample <$> heard leg ops.
Proof. intros Hleg. rewrite (audio_heard leg ops Hleg). apply samples_roundtrip, pcm_samples_i16. Qed.

Lemma created_runs pid version root system mic w0 l w1 ops o lw :
  create_with_formats pid version root system mic w0 = (Returned l, w1) ->
  run_ops ops (l, w1) = (o, lw) ->
  exists name now cp, w_dir l = root /> name /\ id (w_manifest l) = name /\
    started_at_ms (w_manifest l) = now /\
    survives (root /> name) (initial_manifest name system mic now version) (Some cp) (offer nothing_written ops) (disk lw.2) /\
    forall ops1 b ops2, ops = ops1 ++ b :: ops2 -> is_barrier b = true ->
      (run_ops (ops1 ++ [b]) (l, w1)).1 = Returned tt ->
      survives (root /> name) (initial_manifest name system mic now version) (Some cp)
        (mkWritten (fun leg => audio leg ops) (fun leg => audio leg ops1)) (disk lw.2).
Proof.
  intros Hc Hr. pose proof (create_triple pid version root system mic w0 I) as Ht. rewrite Hc in Ht.
  destruct Ht as (name & now & cp & Hat). exists name, now, cp. set (m0 := initial_manifest _ _ _ _ _) in *.
  pose proof Hat as (Hd & Hs & _). simpl in Hd, Hs. split; [done|]. split; [apply (f_equal id Hs)|].
  split; [apply (f_equal started_at_ms Hs)|]. split.
  - pose proof (run_ops_triple (root /> name) m0 (Some cp) nothing_written ops (l, w1) (log_more_refl _ _ _ _ _ Hat)) as Ht.
    rewrite Hr in Ht. destruct o as [[]|e|]; [|done..]. destruct Ht as (g' & Ha & Hle & Hat').
    eapply survives_weaken; [|apply Hle|by apply log_survives]. intros leg. by rewrite Ha.
  - intros ops1 b ops2 -> Hb Hok. rewrite (run_ops_app ops1 (b :: ops2)) in Hr. rewrite run_ops_app in Hok.
    pose proof (run_ops_triple (root /> name) m0 (Some cp) nothing_written ops1 (l, w1) (log_more_refl _ _ _ _ _ Hat)) as Hop1.
    destruct (run_ops ops1 (l, w1)) as [[[]|e|] lw1]; [|done..]. simpl in Hok, Hr. unfold mbind, eff_bind in Hok, Hr.
    pose proof (barrier_triple (root /> name) m0 (Some cp) _ b Hb lw1 Hop1) as Hop2.
    destruct (run_op b lw1) as [[[]|e|] lw2]; [|done..]. destruct Hop2 as (g' & Ha & Hdur & Hat2).
    pose proof (run_ops_triple (root /> name) m0 (Some cp) g' ops2 lw2 (log_more_refl _ _ _ _ _ Hat2)) as Hop3.
    rewrite Hr in Hop3.
    assert (Hno : forall leg, offered leg b = []) by (by destruct b; intros []).
    assert (Hacc : forall leg, acc (offer g' ops2) leg = audio leg (ops1 ++ b :: ops2)).
    { intros leg. simpl. rewrite Ha. unfold audio. rewrite bind_app, bind_cons, Hno. done. }
    assert (Hd2 : forall leg, dur (offer g' ops2) leg = audio leg ops1) by (intros leg; simpl; by rewrite Hdur).
    destruct o as [[]|e|].
    + destruct Hop3 as (g3 & Ha3 & Hle3 & Hat3). eapply survives_weaken; [| |by apply log_survives].
      * intros leg. by rewrite Ha3, Hacc.
      * intros leg. etrans; [|apply Hle3]. by rewrite Hd2.
    + eapply survives_written; [|apply Hop3]. intros leg. by rewrite Hacc, Hd2.
    + eapply survives_written; [|apply Hop3]. intros leg. by rewrite Hacc, Hd2.
Qed.

(** C3: The crash invariant.  A session that was created can always be read back:
    after any operations, ended by success, by an I/O error or by the process being
    killed anywhere inside one, and whether or not power was then lost, the reader
    finds the session, unfinished, under its own identity.  The file of each leg is
    byte for byte a prefix of the audio offered to it, its 16-bit samples a prefix of
    the samples offered, and holds at least what preceded any flush or checkpoint
    that returned; the reader counts it in whole frames of that leg's own format. *)
Theorem killed_recording_reads_back pid version root system mic w0 l w1 ops o l2 w2 w :
  create_with_formats pid version root system mic w0 = (Returned l, w1) ->
  run_ops ops (l, w1) = (o, (l2, w2)) ->
  restarted w2 w -> fates w = [] ->
  exists st sys micb s1 s2,
    session_read (w_dir l) w = (Returned st, w) /\ is_finalized st = false /\
    id (s_manifest st) = id (w_manifest l) /\ started_at_ms (s_manifest st) = started_at_ms (w_manifest l) /\
    disk w !! (w_dir l /> SYSTEM_PCM) = Some (NFile sys s1) /\ disk w !! (w_dir l /> MIC_PCM) = Some (NFile micb s2) /\
    samples_of_bytes sys `prefix_of` pcm_sample <$> heard LSystem ops /\
    samples_of_bytes micb `prefix_of` pcm_sample <$> heard LMic ops /\
    sys `prefix_of` audio LSystem ops /\ micb `prefix_of` audio LMic ops /\
    (forall ops1 b ops2, ops = ops1 ++ b :: ops2 -> is_barrier b = true ->
       (run_ops (ops1 ++ [b]) (l, w1)).1 = Returned tt ->
       audio LSystem ops1 `prefix_of` sys /\ audio LMic ops1 `prefix_of` micb) /\
    system_frames st = zlen sys / (2 * channels (f_system (formats_of system mic))) /\
    mic_frames st = zlen micb / (2 * channels (f_mic (formats_of system mic))).
Proof.
  intros Hc Hr Hre Hf.
  destruct (created_runs _ _ _ _ _ _ _ _ _ _ _ Hc Hr) as (name & now & cp & Hd & Hid & Hst & Hsv & Hbar).
  pose proof (restart_survives _ _ _ _ _ _ Hsv Hre) as Hsv'.
  destruct (session_read_calm system mic _ _ _ _ _ Hsv' ltac:(done) Hf)
    as (st & sys & micb & sttb & s1 & s2 & Hread & Hd1 & Hd2 & Hs & (_ & Hp1) & (_ & Hp2) & _ & Hf1 & Hf2 & _).
  exists st, sys, micb, s1, s2. rewrite Hd. split; [done|]. split; [|split; [|split]].
  - unfold is_finalized. by rewrite (f_equal ended_at_ms Hs : ended_at_ms (s_manifest st) = None).
  - rewrite Hid. apply (f_equal id Hs).
  - rewrite Hst. apply (f_equal started_at_ms Hs).
  - split_and!; [exact Hd1 | exact Hd2 | by apply (prefix_is_heard LSystem) | by apply (prefix_is_heard LMic) |
      exact Hp1 | exact Hp2 | | done | done].
    intros ops1 b ops2 Hops Hb Hok. specialize (Hbar ops1 b ops2 Hops Hb Hok).
    pose proof (restart_survives _ _ _ _ _ _ Hbar Hre) as Hbar'.
    destruct (session_read_calm system mic _ _ _ _ _ Hbar' ltac:(done) Hf)
      as (st' & sys' & micb' & _ & ? & ? & _ & Hd1' & Hd2' & _ & (Hq1 & _) & (Hq2 & _) & _).
    rewrite Hd1 in Hd1'. rewrite Hd2 in Hd2'. by simplify_eq.
Qed.

(** ** The checkpoint evidence *)

Context `{!JsonDocLaws CaptureCheckpoint, OpusDecoder}.

Lemma owner_recover_calm dir w :
  fates w = [] -> home dir (disk w) -> (dir /> OWNER_LOCK) ∉ held w ->
  owner_recover dir w = (Returned (mkOwner dir), set_held w ({[dir /> OWNER_LOCK]} ∪ held w)).
Proof.
  intros Hf [Hd (c & s & Hl)] Hn. unfold owner_recover, ordinary.
  rewrite (bind_returned _ _ _ _ _ (symlink_metadata_calm w Hf _ _ Hd)). simpl.
  erewrite bind_returned; [|done].
  erewrite bind_returned; [|by rewrite (bind_returned _ _ _ _ _ (symlink_metadata_calm w Hf _ _ Hl))].
  rewrite (bind_returned _ _ _ _ _ (open_existing_calm w Hf _ _ _ Hl)).
  erewrite bind_returned; [done|]. unfold try_lock. by rewrite decide_False.
Qed.

Lemma ordinary_calm w p c s : fates w = [] -> disk w !! p = Some (NFile c s) -> ordinary p w = (Returned tt, w).
Proof. intros Hf Hp. unfold ordinary. by rewrite (bind_returned _ _ _ _ _ (symlink_metadata_calm w Hf _ _ Hp)). Qed.

(** A leg that is still there: its tail is what lies past the checkpoint. *)
Lemma tail_bytes_calm dir name opus n format track w c s :
  fates w = [] -> disk w !! (dir /> name) = Some (NFile c s) -> aligned_leg n format = true -> n <= zlen c ->
  tail_bytes dir name opus n format track w = (Returned (zlen c - n), w).
Proof.
  intros Hf Hp Ha Hn. unfold tail_bytes.
  erewrite bind_returned; last first.
  { instantiate (1 := w). instantiate (1 := tt). unfold aligned_leg in Ha. destruct format as [f|].
    - apply andb_true_iff in Ha as [Ha Hm]. apply andb_true_iff in Ha as [H1c H2c].
      rewrite Hm. rewrite (proj2 (Z.eqb_neq (sample_rate_hz f) 0)), (proj2 (Z.eqb_neq (channels f) 0)) by lia. done.
    - by rewrite Ha. }
  rewrite (bind_returned _ _ _ _ _ (attempt_returned _ _ _ _ (symlink_metadata_calm w Hf _ _ Hp))). simpl.
  by rewrite checked_sub_Some by lia.
Qed.

Lemma snapshot_calm root name system mic now version since c0 g w :
  survives (root /> name) (initial_manifest name system mic now version) since g (disk w) -> since = Some c0 ->
  fates w = [] ->
  exists c sys micb s1 s2,
    later c0 c /\ clock_on (root /> name) c (disk w) /\ disk w !! (root /> name /> SYSTEM_PCM) = Some (NFile sys s1) /\
    disk w !! (root /> name /> MIC_PCM) = Some (NFile micb s2) /\
    system_bytes c <= zlen sys /\ mic_bytes c <= zlen micb /\ cp_started_at_ms c = now /\
    now + elapsed_ms c <= u64_max /\
    (zlen (doc_put c) <= 8192 ->
     snapshot (mkOwner (root /> name)) w =
       (Returned (mkSnapshot c (zlen sys - system_bytes c) (zlen micb - mic_bytes c)), w)).
Proof.
  intros [Hl Hh (m & Hs & Hm) Hc] Hsince Hf. destruct (Hc c0 Hsince) as (c & Hlat & Hfit & Hclk & Hds & Hdm).
  destruct Hds as (sys & s1 & Hsys & Hn1). destruct Hdm as (micb & s2 & Hmic & Hn2).
  pose proof (prefix_zlen _ _ (prefix_take sys s1)). pose proof (prefix_zlen _ _ (prefix_take micb s2)).
  destruct Hfit as (F1 & F2 & F3 & F4 & F5 & F6 & F7 & F8). simpl in F2, F3, F4, F5.
  exists c, sys, micb, s1, s2. split; [done|]. split; [done|]. split; [done|]. split; [done|]. split; [lia|]. split; [lia|].
  split; [done|]. split.
  { rewrite F3 in F6. unfold checked_add64 in F6. destruct (Z.leb_spec (now + elapsed_ms c) u64_max); [done | by simpl in F6]. }
  intros Hsize. unfold snapshot. simpl o_dir. set (dir := root /> name) in *.
  rewrite (bind_returned _ _ _ _ _ (ordinary_calm w _ _ _ Hf Hclk)).
  rewrite (bind_returned _ _ _ _ _ (read_file_calm w Hf _ _ _ Hclk)).
  assert (take (Z.to_nat 8193) (doc_put c) = doc_put c) as -> by (apply take_ge; unfold zlen in Hsize; lia).
  erewrite bind_returned; [|by rewrite (proj2 (Z.leb_le _ _) Hsize)].
  erewrite bind_returned; [|by rewrite doc_roundtrip].
  rewrite (bind_returned _ _ _ _ _ (ordinary_calm w _ _ _ Hf Hm)).
  rewrite (bind_returned _ _ _ _ _ (read_manifest_calm _ _ _ Hf Hm)).
  assert (id m = name) as Ei by apply (f_equal id Hs).
  assert (started_at_ms m = now) as Es by apply (f_equal started_at_ms Hs).
  assert (system_format m = Some system) as Ef by apply (f_equal system_format Hs).
  assert (mic_format m = mic) as Em by apply (f_equal mic_format Hs).
  erewrite bind_returned; last first.
  { rewrite F1, Z.eqb_refl. rewrite bool_decide_eq_true_2 by (by rewrite F2, Ei).
    rewrite bool_decide_eq_true_2 by (unfold dir; by rewrite last_snoc, F2).
    rewrite F3, Es, Z.eqb_refl. rewrite bool_decide_eq_true_2 by (by rewrite F4, Ef).
    rewrite bool_decide_eq_true_2 by (by rewrite F5, Em). rewrite <-F3, F6. reflexivity. }
  rewrite (bind_returned _ _ _ _ _ (tail_bytes_calm _ _ _ _ _ _ w _ _ Hf Hsys F7 ltac:(lia))).
  rewrite (bind_returned _ _ _ _ _ (tail_bytes_calm _ _ _ _ _ _ w _ _ Hf Hmic F8 ltac:(lia))). done.
Qed.

(** C22: Checkpoint evidence survives.  Once a checkpoint has returned, whatever is
    done next, however it ends, and even through a power cut, the clock file holds a
    checkpoint at least as recent: it vouches for at least the audio offered before,
    that audio is on disk byte for byte, a live clock has not gone back and one
    frozen by a Stop is unchanged.  Whoever takes over the recording's lease, if the
    file is within the reader's bound, is told exactly this checkpoint and the exact
    tail of each leg beyond it; and after a Stop that no audio followed, the exact
    capture interval. *)
Theorem checkpoint_outlives_any_crash pid version root system mic w0 l w1 ops1 l2 w2 e stop l3 w3 ops2 o l4 w4 w :
  create_with_formats pid version root system mic w0 = (Returned l, w1) ->
  run_ops ops1 (l, w1) = (Returned tt, (l2, w2)) ->
  checkpoint_capture e stop (l2, w2) = (Returned tt, (l3, w3)) ->
  run_ops ops2 (l3, w3) = (o, (l4, w4)) ->
  restarted w4 w -> fates w = [] -> (w_dir l /> OWNER_LOCK) ∉ held w ->
  exists c k sys s1 micb s2 owner w',
    disk w !! (w_dir l /> CLOCK) = Some (NFile (doc_put c) k) /\
    disk w !! (w_dir l /> SYSTEM_PCM) = Some (NFile sys s1) /\ disk w !! (w_dir l /> MIC_PCM) = Some (NFile micb s2) /\
    zlen (audio LSystem ops1) <= system_bytes c <= zlen sys /\ audio LSystem ops1 `prefix_of` sys /\
    zlen (audio LMic ops1) <= mic_bytes c <= zlen micb /\ audio LMic ops1 `prefix_of` micb /\
    (stop_requested c = false -> (clock_of l2 e stop).1 <= elapsed_ms c) /\
    ((clock_of l2 e stop).2 = true -> stop_requested c = true /\ elapsed_ms c = (clock_of l2 e stop).1) /\
    owner_recover (w_dir l) w = (Returned owner, w') /\
    (zlen (doc_put c) <= 8192 ->
       snapshot owner w' = (Returned (mkSnapshot c (zlen sys - system_bytes c) (zlen micb - mic_bytes c)), w') /\
       ((clock_of l2 e stop).2 = true -> audio LSystem ops2 = [] -> audio LMic ops2 = [] ->
        frozen_capture_clock (mkSnapshot c (zlen sys - system_bytes c) (zlen micb - mic_bytes c)) =
          Some (started_at_ms (w_manifest l), started_at_ms (w_manifest l) + (clock_of l2 e stop).1))).
Proof.
  intros Hc Hr1 Hcp Hr2 Hre Hf Hlock.
  pose proof (create_triple pid version root system mic w0 I) as Ht. rewrite Hc in Ht.
  destruct Ht as (name & now & cp0 & Hat). set (m0 := initial_manifest _ _ _ _ _) in *.
  pose proof Hat as (Hd & Hs & _). simpl in Hd, Hs. rewrite Hd in *.
  assert (started_at_ms (w_manifest l) = now) as -> by apply (f_equal started_at_ms Hs).
  pose proof (run_ops_triple _ m0 _ _ ops1 (l, w1) (log_more_refl _ _ _ _ _ Hat)) as Ho1. rewrite Hr1 in Ho1.
  destruct Ho1 as (g1 & Ha1 & _ & Hat1).
  pose proof (checkpoint_triple _ m0 _ g1 e stop l2 w2 Hat1) as Ho2. rewrite Hcp in Ho2.
  destruct Ho2 as (cp & Hat2 & _ & _ & Hsb & Hmb & Hel & Hst). rewrite Ha1 in Hsb, Hmb. simpl in Hsb, Hmb.
  assert (Hsv : survives (root /> name) m0 (Some cp) (offer (settle_all g1) ops2) (disk w4)).
  { pose proof (run_ops_triple _ m0 _ _ ops2 (l3, w3) (log_more_refl _ _ _ _ _ Hat2)) as Ho3. rewrite Hr2 in Ho3.
    destruct o as [[]|er|]; [|done..]. destruct Ho3 as (g' & Ha & Hle & Hat').
    eapply survives_weaken; [|apply Hle|by apply (log_survives _ _ _ _ _ Hat')]. intros leg. by rewrite Ha. }
  pose proof (restart_survives _ _ _ _ _ _ Hsv Hre) as Hsv'.
  set (w' := set_held w ({[root /> name /> OWNER_LOCK]} ∪ held w)).
  destruct (snapshot_calm root name system mic now version _ cp _ w' Hsv' eq_refl Hf)
    as (c & sys & micb & s1 & s2 & Hlat & Hclk & Hd1 & Hd2 & Hn1 & Hn2 & Hstart & Hmax & Hsnap).
  destruct Hlat as (L1 & L2 & L3 & L4).
  assert (Hfro : (clock_of l2 e stop).2 = true -> stop_requested c = true /\ elapsed_ms c = (clock_of l2 e stop).1).
  { intros Hx. rewrite <-Hel. apply L3. by rewrite Hst. }
  assert (Hsafe : forall leg x s', disk w' !! (root /> name /> leg_name leg) = Some (NFile x s') ->
            audio leg ops1 `prefix_of` x).
  { intros leg x s' Hx. destruct (sv_legs _ _ _ _ _ Hsv' leg) as (y & t & Hy & _ & Hdur).
    assert (Some (NFile x s') = Some (NFile y t)) as E by (etrans; [symmetry; exact Hx | exact Hy]). simplify_eq.
    simpl in Hdur. rewrite Ha1 in Hdur. etrans; [exact Hdur | apply prefix_take]. }
  eexists c, _, sys, s1, micb, s2, (mkOwner (root /> name)), w'.
  split; [exact Hclk|]. split; [done|]. split; [done|]. split; [unfold audio; lia|].
  split; [by apply (Hsafe LSystem _ s1)|]. split; [unfold audio; lia|]. split; [by apply (Hsafe LMic _ s2)|].
  split; [intros Hx; rewrite <-Hel; by apply L4|]. split; [done|].
  split; [apply owner_recover_calm; [done | apply (sv_home _ _ _ _ _ Hsv') | done]|].
  intros Hsize. split; [by apply Hsnap|].
  intros Hx E1 E2. destruct (Hfro Hx) as [Hcs Hce]. unfold frozen_capture_clock. simpl. rewrite Hcs. simpl.
  assert (Hleg : forall leg x s', disk w' !! (root /> name /> leg_name leg) = Some (NFile x s') ->
            audio leg ops2 = [] -> x `prefix_of` audio leg ops1).
  { intros leg x s' Hx' Hno. destruct (sv_legs _ _ _ _ _ Hsv' leg) as (y & t & Hy & Hpre & _).
    assert (Some (NFile x s') = Some (NFile y t)) as E by (etrans; [symmetry; exact Hx' | exact Hy]). simplify_eq.
    simpl in Hpre. unfold audio in Hno. rewrite Hno, app_nil_r, Ha1 in Hpre. exact Hpre. }
  pose proof (prefix_zlen _ _ (Hleg LSystem _ _ Hd1 E1)). pose proof (prefix_zlen _ _ (Hleg LMic _ _ Hd2 E2)).
  unfold audio in *. rewrite (proj2 (Z.eqb_eq _ _)) by lia. rewrite (proj2 (Z.eqb_eq _ _)) by lia. simpl.
  rewrite Hstart, checked_add64_Some by lia. simpl. by rewrite Hce.
Qed.

End ReadBack.

(** ** A recording that is killed *)

Module KilledRecording.

#[local] Existing Instances LogCodec.manifest_doc LogCodec.checkpoint_doc LogCodec.stt_line.
#[local] Existing Instances LogCodec.manifest_laws LogCodec.checkpoint_laws.

(** An empty disk on which the first 23 operations, those of creating a session,
    proceed, and the next kills the process after three bytes. *)
Definition root : path := ["sessions"].
Definition mono : TrackFormat := mkFormat 16000 1.
Definition doomed : World :=
  mkWorld ∅ ∅ (replicate 23 Proceeds ++ [Stops Died 3 []]) [1700000000000] [5; 6; 7] 41.
Definition calm : World := set_fates doomed [].
Definition made (w : World) := create_with_formats 77 "1.0" root mono (Some mono) w.
Definition spoken : list LogOp := [WriteSystem [f32_one; f32_one]].

(** How a run from a fresh log goes. *)
Definition outcome (w : World) (k : LogM unit) : option (Outcome IoErr unit) :=
  match made w with (Returned l, w1) => Some (k (l, w1)).1 | _ => None end.

Lemma outcome_inv w k o : outcome w k = Some o ->
  exists l w1 l2 w2, made w = (Returned l, w1) /\ k (l, w1) = (o, (l2, w2)).
Proof.
  unfold outcome. destruct (made w) as [[l|e|] w1] eqn:Hm; [|discriminate..].
  destruct (k (l, w1)) as [o' [l2 w2]] eqn:Hk. simpl. intros E. injection E as ->. by exists l, w1, l2, w2.
Qed.

Lemma killed_recording_reads_back_witness :
  exists l w1 l2 w2 st sys s1,
    made doomed = (Returned l, w1) /\ run_ops (spoken ++ [Flush]) (l, w1) = (Killed, (l2, w2)) /\
    session_read (w_dir l) (set_fates w2 []) = (Returned st, set_fates w2 []) /\ is_finalized st = false /\
    disk w2 !! (w_dir l /> SYSTEM_PCM) = Some (NFile sys s1) /\
    sys `prefix_of` audio LSystem (spoken ++ [Flush]) /\ system_frames st = zlen sys / 2.
Proof.
  destruct (outcome_inv doomed (run_ops (spoken ++ [Flush])) Killed) as (l & w1 & l2 & w2 & Hm & Hr).
  { vm_compute; reflexivity. }
  destruct (killed_recording_reads_back 77 "1.0" root mono (Some mono) doomed l w1 (spoken ++ [Flush]) Killed l2 w2
    (set_fates w2 [])) as (st & sys & micb & s1 & s2 & Hread & Hf & _ & _ & Hd & _ & _ & _ & Hs & _ & _ & Fs & _);
    [exact Hm | exact Hr | by left | done|].
  exists l, w1, l2, w2, st, sys, s1.
  exact (conj Hm (conj Hr (conj Hread (conj Hf (conj Hd (conj Hs Fs)))))).
Defined.

(** The same recording on a quiet disk, stopped after ten milliseconds. *)
Lemma checkpoint_outlives_any_crash_witness :
  exists l w1 l2 w2 l3 w3 c k, made calm = (Returned l, w1) /\
    run_ops spoken (l, w1) = (Returned tt, (l2, w2)) /\
    checkpoint_capture 10 true (l2, w2) = (Returned tt, (l3, w3)) /\
    disk w3 !! (w_dir l /> CLOCK) = Some (NFile (doc_put c) k) /\
    zlen (audio LSystem spoken) <= system_bytes c /\ stop_requested c = true /\
    elapsed_ms c = (clock_of l2 10 true).1.
Proof.
  destruct (outcome_inv calm (_ ← run_ops spoken; checkpoint_capture 10 true) (Returned tt))
    as (l & w1 & l3 & w3 & Hm & Hr).
  { vm_compute; reflexivity. }
  destruct (bind_inv _ _ _ _ _ Hr) as ([] & [l2 w2] & Hrun & Hcp).
  destruct (checkpoint_outlives_any_crash (H2 := twenty_ms) 77 "1.0" root mono (Some mono) calm l w1 spoken l2 w2
    10 true l3 w3 [] (Returned tt) l3 w3 (set_held (set_fates w3 []) ∅))
    as (c & k & sys & s1 & micb & s2 & owner & w' & Hclk & _ & _ & [Hs _] & _ & _ & _ & _ & Hc & _);
    [exact Hm | exact Hrun | exact Hcp | reflexivity | left; reflexivity | reflexivity | apply not_elem_of_empty |].
  exists l, w1, l2, w2, l3, w3, c, k. split; [exact Hm|]. split; [exact Hrun|]. split; [exact Hcp|].
  split; [exact Hclk|]. split; [exact Hs|]. apply Hc. unfold clock_of. repeat case_match; reflexivity.
Defined.

End KilledRecording.
