(* ===== verification/WalTranscript.v ===== *)
(** * The transcript of a session that was killed

    [append_stt] writes one JSON object per line and never rewrites one, so that a
    killed session loses at most the record it was writing.  This file shows what
    [read_jsonl] makes of a torn file: exactly that, as long as the tear falls
    between characters; a tear inside a character loses every record, since
    [read_to_string] refuses the file. *)

From S2P Require Import Prelude Bytes Text Float32 Json.
From S2P Require Import FileSystem WalTypes OpusArchive SessionDir Wal WalProofs WalCrash.

Local Open Scope Z_scope.

(** ** Lines *)

Lemma split_lf_plain pre bs : LF ∉ pre -> split_lf [] (pre ++ LF :: bs) = strip_cr pre :: split_lf [] bs.
Proof.
  intros Hp. cut (forall acc, split_lf acc (pre ++ LF :: bs) = strip_cr (rev acc ++ pre) :: split_lf [] bs).
  { intros Hg. apply (Hg []). }
  induction pre as [|b pre IH]; intros acc; simpl; [by rewrite app_nil_r|].
  destruct (Z.eqb_spec b LF) as [->|]; [set_solver|]. rewrite IH by set_solver. simpl. by rewrite <-app_assoc.
Qed.

Lemma split_lf_end pre : LF ∉ pre -> pre <> [] -> split_lf [] pre = [pre].
Proof.
  intros Hp. cut (forall acc, rev acc ++ pre <> [] -> split_lf acc pre = [rev acc ++ pre]).
  { intros Hg Hn. by apply (Hg []). }
  induction pre as [|b pre IH]; intros acc Hn; simpl.
  - rewrite app_nil_r in *. destruct acc; [done|]. done.
  - destruct (Z.eqb_spec b LF) as [->|]; [set_solver|]. rewrite IH; simpl; rewrite <-?app_assoc; [done | set_solver | done].
Qed.

Lemma strip_cr_plain line : CR ∉ line -> strip_cr line = line.
Proof.
  intros Hl. unfold strip_cr. destruct (last line) as [b|] eqn:E; [|done].
  apply last_Some_elem_of in E. destruct (decide (b = CR)) as [->|]; [done|].
  repeat (case_match; try done).
Qed.

Section Torn.
Context `{Serde SttRecord} `{!LineLaws SttRecord}.

(** What [append_stt] writes. *)
Definition stt_line_of (r : SttRecord) : bytes := to_vec r ++ [LF].
Definition stt_log (rs : list SttRecord) : bytes := rs ≫= stt_line_of.

Lemma to_vec_no_lf r k : (LF ∉ take k (to_vec r)) /\ CR ∉ take k (to_vec r).
Proof.
  split; intros Hin%elem_of_take; destruct Hin as (i & Hi & _);
    by destruct (Forall_lookup_1 _ _ _ _ (line_plain r) Hi).
Qed.

(** A text that starts with a whole line. *)
Lemma parse_line r bs :
  omap from_slice (lines (stt_line_of r ++ bs)) = r :: omap (M := list) from_slice (lines bs).
Proof.
  unfold lines, stt_line_of. rewrite <-app_assoc. simpl.
  destruct (to_vec_no_lf r (length (to_vec r))) as [Hl Hc]. rewrite take_ge in Hl, Hc by done.
  rewrite split_lf_plain by done. csimpl. by rewrite strip_cr_plain, line_whole by done.
Qed.

(** What a torn line parses to: the record, if only the terminator is missing. *)
Lemma parse_torn_line r k : (k <= length (to_vec r))%nat ->
  omap from_slice (lines (take k (to_vec r))) = (if decide (k = length (to_vec r)) then [r] else [] : list SttRecord).
Proof.
  intros Hk. unfold lines. destruct (to_vec_no_lf r k) as [Hl Hc].
  destruct (decide (take k (to_vec r) = [])) as [E|Hne].
  - rewrite E. destruct (decide (k = length (to_vec r))) as [->|]; [|done].
    rewrite take_ge in E by done. by destruct (line_nonempty r).
  - rewrite split_lf_end by done. csimpl.
    destruct (decide (k = length (to_vec r))) as [->|].
    + by rewrite take_ge, line_whole by done.
    + by rewrite line_torn by lia.
Qed.

(** A prefix of the log is some whole lines and part of the next. *)
Lemma stt_log_cut rs bs : bs `prefix_of` stt_log rs ->
  exists n k, (n <= length rs)%nat /\
    match rs !! n with
    | Some r => bs = stt_log (take n rs) ++ take k (to_vec r) /\ (k <= length (to_vec r))%nat
    | None => bs = stt_log rs
    end.
Proof.
  revert bs. induction rs as [|r rs IH]; intros bs Hb.
  - exists 0%nat, 0%nat. apply prefix_nil_inv in Hb. done.
  - unfold stt_log in Hb. rewrite bind_cons in Hb. destruct (decide (length bs <= length (to_vec r)))%nat as [Hs|Hs].
    + exists 0%nat, (length bs). split; [lia|]. simpl. split; [|done].
      destruct Hb as [z Hz]. unfold stt_line_of in Hz. rewrite <-app_assoc in Hz.
      apply (f_equal (take (length bs))) in Hz. rewrite take_app_le in Hz by lia.
      rewrite take_app_length in Hz. done.
    + assert (exists bs', bs = stt_line_of r ++ bs' /\ bs' `prefix_of` stt_log rs) as (bs' & -> & Hb').
      { destruct (prefix_weak_total bs (stt_line_of r) _ Hb ltac:(by apply prefix_app_r)) as [Hp|[bs' ->]].
        - apply prefix_length in Hp as Hlen. unfold stt_line_of in Hlen. rewrite length_app in Hlen. simpl in Hlen.
          exists []. split; [|apply prefix_nil]. rewrite app_nil_r. destruct Hp as [z Hz].
          pose proof (f_equal length Hz) as Hz'. unfold stt_line_of in Hz'. rewrite !length_app in Hz'. simpl in Hz'.
          destruct z; [by rewrite app_nil_r in Hz | simpl in Hz'; lia].
        - exists bs'. split; [done|]. by apply prefix_app_inv in Hb. }
      destruct (IH bs' Hb') as (n & k & Hn & Hm). exists (S n), k. split; [simpl; lia|]. simpl.
      destruct (rs !! n) as [r'|].
      * destruct Hm as [-> Hk]. split; [|done]. rewrite app_assoc. f_equal.
      * by rewrite Hm.
Qed.

Lemma parse_log rs bs : omap from_slice (lines (stt_log rs ++ bs)) = rs ++ omap (M := list) from_slice (lines bs).
Proof.
  induction rs as [|r rs IH]; [done|]. unfold stt_log in *. rewrite bind_cons, <-app_assoc, parse_line. by rewrite IH.
Qed.

(** The records of a torn log: a prefix of those written, all whose lines are
    whole, and at most the one being written is missing. *)
Lemma torn_records rs bs : bs `prefix_of` stt_log rs -> is_utf8 bs = true ->
  exists n, records_of bs = take n rs /\ (n <= length rs)%nat /\
    (forall k, stt_log (take k rs) `prefix_of` bs -> (k <= length rs)%nat -> (k <= n)%nat) /\
    (length bs < length (stt_log (take (S n) rs)) \/ n = length rs)%nat.
Proof.
  intros Hb Hu. unfold records_of. rewrite Hu. destruct (stt_log_cut rs bs Hb) as (n & k & Hn & Hm).
  assert (Hmono : forall i j, (j < i)%nat -> (i <= length rs)%nat ->
            (length (stt_log (take j rs)) < length (stt_log (take i rs)))%nat).
  { intros i j Hij Hi. replace i with (j + S (i - S j))%nat by lia. destruct (lookup_lt_is_Some_2 rs j) as [r Hr]; [lia|].
    assert (exists y, take (j + S (i - S j)) rs = take j rs ++ r :: y) as [y ->].
    { exists (take (i - S j) (drop (S j) rs)). rewrite <-(take_drop_middle rs j r Hr) at 1.
      rewrite take_app_add' by (rewrite length_take; lia). done. }
    unfold stt_log. rewrite bind_app, bind_cons, !length_app.
    assert (length (stt_line_of r) = length (to_vec r) + 1)%nat by (unfold stt_line_of; by rewrite length_app).
    lia. }
  destruct (rs !! n) as [r|] eqn:Hr.
  - destruct Hm as [-> Hk]. apply lookup_lt_Some in Hr as Hlt. rewrite parse_log, parse_torn_line by done.
    assert (Hlen : (length (stt_log (take (S n) rs)) = length (stt_log (take n rs)) + length (to_vec r) + 1)%nat).
    { rewrite (take_S_r _ _ _ Hr). unfold stt_log. rewrite bind_app, bind_singleton, length_app.
      unfold stt_line_of. rewrite length_app. simpl. lia. }
    destruct (decide (k = length (to_vec r))) as [->|Hk'].
    + exists (S n). rewrite <-(take_S_r _ _ _ Hr). split; [done|]. split; [lia|]. split.
      * intros i Hp Hi. destruct (decide (i <= S n)%nat); [done|]. apply prefix_length in Hp.
        rewrite length_app, length_take in Hp. pose proof (Hmono i (S n) ltac:(lia) Hi). lia.
      * destruct (decide (S n = length rs)); [by right|]. left. pose proof (Hmono (S (S n)) (S n) ltac:(lia) ltac:(lia)).
        rewrite length_app, length_take. lia.
    + exists n. rewrite app_nil_r. split; [done|]. split; [lia|]. split.
      * intros i Hp Hi. destruct (decide (i <= n)%nat); [done|]. apply prefix_length in Hp.
        rewrite length_app, length_take in Hp.
        assert (length (stt_log (take (S n) rs)) <= length (stt_log (take i rs)))%nat.
        { destruct (decide (i = S n)) as [->|]; [done|]. pose proof (Hmono i (S n) ltac:(lia) Hi). lia. }
        lia.
      * left. rewrite length_app, length_take. lia.
  - apply lookup_ge_None in Hr. subst bs. exists (length rs). rewrite take_ge by done.
    rewrite <-(app_nil_r (stt_log rs)), parse_log. simpl. rewrite app_nil_r. split; [done|]. split; [done|].
    split; [by intros|]. by right.
Qed.

End Torn.

(** ** The transcript of a killed recording *)

Section Recorded.
Context `{JsonDoc Manifest, JsonDoc CaptureCheckpoint, Serde SttRecord}.
Context `{!JsonDocLaws Manifest, !LineLaws SttRecord}.

(** The records appended by a list of operations. *)
Definition appended (ops : list LogOp) : list SttRecord :=
  omap (fun op => match op with AppendStt r => Some r | _ => None end) ops.

Lemma audio_stt ops : audio LStt ops = stt_log (appended ops).
Proof.
  induction ops as [|op ops IH]; [done|]. unfold audio, stt_log in *. rewrite bind_cons, IH. by destruct op.
Qed.

Lemma appended_app a b : appended (a ++ b) = appended a ++ appended b.
Proof. apply omap_app. Qed.

(** C39: The transcript survives a crash up to the record being written.  After any
    operations on a created session, however they end and whatever a power cut
    takes, the reader gets exactly the first [n] records that were appended, in
    order and unaltered: at least all those appended before a flush or a checkpoint
    that returned.  This is so provided the file it finds is UTF-8. *)
Theorem killed_transcript_reads_back pid version root system mic w0 l w1 ops o l2 w2 w text s :
  create_with_formats pid version root system mic w0 = (Returned l, w1) ->
  run_ops ops (l, w1) = (o, (l2, w2)) ->
  restarted w2 w -> fates w = [] ->
  disk w !! (w_dir l /> STT_JSONL) = Some (NFile text s) -> is_utf8 text = true ->
  exists st n,
    session_read (w_dir l) w = (Returned st, w) /\ stt st = take n (appended ops) /\
    (forall ops1 b ops2, ops = ops1 ++ b :: ops2 -> is_barrier b = true ->
       (run_ops (ops1 ++ [b]) (l, w1)).1 = Returned tt -> (length (appended ops1) <= n)%nat).
Proof.
  intros Hc Hr Hre Hf Ht Hu.
  destruct (created_runs _ _ _ _ _ _ _ _ _ _ _ Hc Hr) as (name & now & cp & Hd & _ & _ & Hsv & Hbar). rewrite Hd in *.
  pose proof (restart_survives _ _ _ _ _ _ Hsv Hre) as Hsv'.
  destruct (session_read_calm system mic _ _ _ _ _ Hsv' ltac:(done) Hf)
    as (st & _ & _ & sttb & _ & _ & Hread & _ & _ & _ & _ & _ & (_ & Hp) & _ & _ & Hst & s3 & Hfile).
  assert (Some (NFile sttb s3) = Some (NFile text s)) as E by (etrans; [symmetry; exact Hfile | exact Ht]).
  injection E as -> ->. change (text `prefix_of` audio LStt ops) in Hp. rewrite audio_stt in Hp.
  destruct (torn_records _ _ Hp Hu) as (n & Hn & Hle & Hall & _). exists st, n. split; [done|].
  split; [by rewrite Hst|]. intros ops1 b ops2 -> Hb Hok. specialize (Hbar _ _ _ eq_refl Hb Hok).
  pose proof (restart_survives _ _ _ _ _ _ Hbar Hre) as Hbar'.
  destruct (session_read_calm system mic _ _ _ _ _ Hbar' ltac:(done) Hf)
    as (_ & _ & _ & sttb' & _ & _ & _ & _ & _ & _ & _ & _ & (Hp' & _) & _ & _ & _ & s4 & Hfile').
  assert (Some (NFile sttb' s4) = Some (NFile text s)) as E by (etrans; [symmetry; exact Hfile' | exact Ht]).
  injection E as -> ->. change (audio LStt ops1 `prefix_of` text) in Hp'. rewrite audio_stt in Hp'.
  rewrite appended_app in *. apply Hall; [by rewrite take_app_length | rewrite length_app; lia].
Qed.

End Recorded.

(** ** A tear inside a character *)

Lemma bytes_of_string_app a b : bytes_of_string (a +:+ b) = bytes_of_string a ++ bytes_of_string b.
Proof. induction a as [|x a IH]; [done|]. exact (f_equal (cons (byte_val x)) IH). Qed.

Lemma str_of_bytes_app a b : str_of_bytes (a ++ b) = str_of_bytes a +:+ str_of_bytes b.
Proof. induction a as [|x a IH]; [done|]. exact (f_equal (String (val_byte x)) IH). Qed.

(** The first two of the three bytes of the euro sign. *)
Definition HALF_EURO : bytes := [226; 130].

Lemma half_euro_ends_no_char c pre : is_char c -> bytes_of_string (utf8_char c) <> pre ++ HALF_EURO.
Proof.
  intros [Hc _] E. change HALF_EURO with ([226] ++ [130]) in E. rewrite app_assoc in E. revert E. unfold utf8_char.
  destruct (Z.ltb_spec c 128); [|destruct (Z.ltb_spec c 2048); [|destruct (Z.ltb_spec c 65536)]];
    simpl; rewrite !byte_val_byte by (Z.to_euclidean_division_equations; lia); intros E.
  - apply (app_inj_tail []) in E as [_ ?]. lia.
  - apply (app_inj_tail [_]) in E as [E _]. apply (app_inj_tail []) in E as [_ E].
    Z.to_euclidean_division_equations; lia.
  - apply (app_inj_tail [_; _]) in E as [E _]. apply (app_inj_tail [_]) in E as [_ E].
    Z.to_euclidean_division_equations; lia.
  - apply (app_inj_tail [_; _; _]) in E as [E _]. apply (app_inj_tail [_; _]) in E as [_ E].
    Z.to_euclidean_division_equations; lia.
Qed.

Lemma utf8_char_long c : (1 <= length (bytes_of_string (utf8_char c)))%nat.
Proof. unfold utf8_char. repeat case_match; simpl; lia. Qed.

Lemma half_euro_not_utf8 bs : is_utf8 (bs ++ HALF_EURO) = false.
Proof.
  apply not_true_is_false. intros Hu. apply is_str_check_sound in Hu as (cs & Hcs & E).
  rewrite str_of_bytes_app in E. apply (f_equal bytes_of_string) in E. rewrite bytes_of_string_app in E.
  change (bytes_of_string (str_of_bytes HALF_EURO)) with HALF_EURO in E.
  destruct cs as [|c cs _] using rev_ind; [by destruct (bytes_of_string (str_of_bytes bs))|].
  apply Forall_app in Hcs as [_ Hc]. inversion_clear Hc as [|? ? Hchar _].
  rewrite utf8_app, bytes_of_string_app in E. simpl in E. rewrite str_app_nil in E.
  set (u := bytes_of_string (utf8_char c)) in E.
  destruct (decide (2 <= length u)%nat) as [Hl|Hl].
  - assert (u = take (length u - 2) u ++ HALF_EURO) as Hu; [|by apply (half_euro_ends_no_char c) in Hu].
    pose proof (f_equal (fun x => drop (length x - 2) x) E) as D. simpl in D. rewrite !length_app in D. simpl in D.
    rewrite drop_app_length' in D by lia. rewrite drop_app_ge in D by lia.
    rewrite <-(take_drop (length u - 2) u) at 1. f_equal. rewrite D. f_equal. lia.
  - pose proof (utf8_char_long c). subst u. unfold utf8_char in *.
    destruct (Z.ltb_spec c 128); [|repeat case_match; simpl in Hl; lia].
    simpl in E. rewrite byte_val_byte in E by (destruct Hchar; lia).
    change HALF_EURO with ([226] ++ [130]) in E. rewrite app_assoc in E. apply app_inj_tail in E as [_ E]. lia.
Qed.

(** A tear inside a character loses every record: whatever whole records precede
    it, and however much of the torn line was written before the character. *)
Theorem torn_character_loses_every_record `{Serde SttRecord} rs pre :
  records_of (stt_log rs ++ pre ++ HALF_EURO) = [].
Proof. unfold records_of. by rewrite app_assoc, half_euro_not_utf8. Qed.

(** ** A transcript that is read back *)

Module KilledTranscript.

Import KilledRecording.
#[local] Existing Instances LogCodec.manifest_doc LogCodec.checkpoint_doc LogCodec.stt_line.
#[local] Existing Instances LogCodec.manifest_laws LogCodec.stt_laws.

Definition said : list LogOp := [AppendStt (mkStt 1 0 900 "hello" 0); Flush; AppendStt (mkStt 2 900 1500 "world" 0)].

Definition readable (l : SessionWal) (w : World) : bool :=
  match disk w !! (w_dir l /> STT_JSONL) with Some (NFile text _) => is_utf8 text | _ => false end.

(** A run after which the transcript is readable. *)
Definition reading (ops : list LogOp) : LogM unit := fun lw =>
  match run_ops ops lw with
  | (Returned _, (l, w)) => if readable lw.1 w then (Returned tt, (l, w)) else (Killed, (l, w))
  | r => r
  end.

Lemma reading_inv ops l w lw : reading ops (l, w) = (Returned tt, lw) ->
  exists l' w' text s, run_ops ops (l, w) = (Returned tt, (l', w')) /\
    disk w' !! (w_dir l /> STT_JSONL) = Some (NFile text s) /\ is_utf8 text = true.
Proof.
  unfold reading. destruct (run_ops ops (l, w)) as [[[]|e|] [l' w']]; [|done..]. unfold readable. simpl.
  destruct (disk w' !! _) as [[text s| |]|] eqn:Hd; [|done..]. destruct (is_utf8 text) eqn:Hu; [|done]. intros _.
  by exists l', w', text, s.
Qed.

Lemma killed_transcript_reads_back_witness :
  exists l w1 l2 w2 st n,
    made calm = (Returned l, w1) /\ run_ops said (l, w1) = (Returned tt, (l2, w2)) /\
    session_read (w_dir l) (set_fates w2 []) = (Returned st, set_fates w2 []) /\ stt st = take n (appended said).
Proof.
  destruct (outcome_inv calm (reading said) (Returned tt)) as (l & w1 & l2 & w2 & Hm & Hr).
  { vm_compute; reflexivity. }
  destruct (reading_inv said l w1 (l2, w2) Hr) as (l3 & w3 & text & s & Hrun & Hf & Hu).
  destruct (killed_transcript_reads_back 77 "1.0" root mono (Some mono) calm l w1 said (Returned tt) l3 w3 (set_fates w3 [])
    text s) as (st & n & H1 & H2 & _); [exact Hm | exact Hrun | left; reflexivity | reflexivity | exact Hf | exact Hu |].
  exists l, w1, l3, w3, st, n. exact (conj Hm (conj Hrun (conj H1 H2))).
Defined.

End KilledTranscript.
