(* ===== verification/WalClose.v ===== *)
(** * Closing a session

    [SessionWal::finalize] and what dropping a log leaves behind: a session that
    reads as finalized has every byte that was offered to it, and one whose close
    failed anywhere still reads as unfinished or as complete. *)

From S2P Require Import Prelude Bytes Text Float32 Json.
From S2P Require Import FileSystem WalTypes OpusArchive SessionDir Wal WalProofs WalCrash WalTranscript.

Local Open Scope Z_scope.

Section Close.
Context `{JsonDoc Manifest, JsonDoc CaptureCheckpoint}.

(** ** Dropping the log *)

Lemma leg_flush_triple dir m0 since g leg :
  triple (log_at dir m0 since g) (on_leg leg flush_buf) (fun _ => log_at dir m0 since g) (log_at dir m0 since g).
Proof.
  intros [l w] Hat. pose proof Hat as (Hd & Hs & Hcl & Hok). unfold on_leg, on_writer.
  pose proof (flush_buf_triple _ _ (others_apart leg g l) (acc g leg) (dur g leg) _ (log_ok_writer g l w leg Hok)) as Ht.
  assert (Hback : forall b w', writer_ok (others leg g l) (w_dir l /> leg_name leg) (acc g leg) (dur g leg) (b, w') ->
            log_at dir m0 since g (leg_set leg l b, w')).
  { intros b w' Hw. destruct (leg_set_rest leg l b) as (E1 & E2 & E3 & E4).
    split; [by simpl; rewrite E1|]. split; [by simpl; rewrite E2|]. split; [by simpl; rewrite E4|].
    eapply writer_log_ok; [apply Hok | apply Hw | done | done]. }
  destruct (flush_buf (leg_get leg l, w)) as [[[]|e|] [b w']]; [|by apply Hback..]. by apply Hback, Ht.
Qed.

(** Dropping the log writes what it holds, as far as that goes, and loses nothing. *)
Lemma wal_drop_triple dir m0 since g :
  triple (log_at dir m0 since g) wal_drop (fun _ lw => survives dir m0 since g (disk lw.2))
    (fun lw => survives dir m0 since g (disk lw.2)).
Proof.
  assert (Hkeep : forall A (m : LogM A), triple (log_at dir m0 since g) m (fun _ => log_at dir m0 since g) (log_at dir m0 since g) ->
    triple (log_at dir m0 since g) (attempt (F := IoErr) m) (fun _ => log_at dir m0 since g)
      (fun lw => survives dir m0 since g (disk lw.2))).
  { intros A m Hm lw Hat. specialize (Hm lw Hat). unfold attempt. destruct (m lw) as [[a|e|] lw']; [done..|].
    by apply log_survives. }
  unfold wal_drop. eapply triple_bind; [apply Hkeep, (leg_flush_triple _ _ _ _ LSystem)|]. intros r.
  eapply triple_bind; [apply Hkeep, (leg_flush_triple _ _ _ _ LMic)|]. intros r1.
  eapply triple_bind; [apply Hkeep, (leg_flush_triple _ _ _ _ LStt)|]. intros r2.
  intros [l w] Hat. rewrite bind_get_self. by apply log_survives in Hat.
Qed.

(** With nothing buffered, dropping the log leaves the disk alone. *)
Definition idle (l : SessionWal) : Prop := forall leg, bw_buf (leg_get leg l) = [].

Lemma flush_idle leg l w : idle l -> exists l', on_leg leg flush_buf (l, w) = (Returned tt, (l', w)) /\ idle l' /\
  capture_owner l' = capture_owner l.
Proof.
  intros Hi. unfold on_leg, on_writer, flush_buf. rewrite (Hi leg). eexists. split; [done|]. split.
  - intros leg'. destruct (decide (leg' = leg)) as [->|]; [by rewrite leg_get_set | by rewrite leg_get_set_ne].
  - apply leg_set_rest.
Qed.

Lemma wal_drop_idle l w : idle l -> exists l' w', wal_drop (l, w) = (Returned tt, (l', w')) /\ disk w' = disk w.
Proof.
  intros Hi. destruct (flush_idle LSystem l w Hi) as (l1 & E1 & H1 & _). destruct (flush_idle LMic l1 w H1) as (l2 & E2 & H2 & _).
  destruct (flush_idle LStt l2 w H2) as (l3 & E3 & _). eexists _, _. split; cycle 1.
  { instantiate (1 := (unlock (o_dir (capture_owner l3) /> OWNER_LOCK) w).2). done. }
  unfold wal_drop. erewrite bind_returned; [|by apply attempt_returned].
  erewrite bind_returned; [|by apply attempt_returned]. erewrite bind_returned; [|by apply attempt_returned].
  rewrite bind_get_self. reflexivity.
Qed.

(** ** Finalizing *)

(** The session, ended, with everything it was offered. *)
Definition closed (dir : path) (m0 : Manifest) (g : Written) (d : Disk) : Prop :=
  exists t, survives dir (with_ended m0 (Some t)) None (settle_all g) d.

Lemma settled_idle g l w : log_ok (settle_all g) (l, w) -> idle l.
Proof.
  intros Hok leg. destruct (lo_legs _ _ Hok leg) as (c & s & _ & Hacc & Hdur). simpl in *.
  apply prefix_length in Hdur. rewrite length_take, <-Hacc, length_app in Hdur. apply nil_length_inv. lia.
Qed.

(** Stamping the end of a settled session. *)
Lemma stamp_end dir m0 since g l w t :
  log_at dir m0 since (settle_all g) (l, w) ->
  let l' := set_manifest l (with_ended (w_manifest l) (Some t)) in
  match write_manifest (l', w) with
  | (Returned _, (l2, w2)) => l2 = l' /\ closed dir m0 g (disk w2)
  | (_, (l2, w2)) => l2 = l' /\ (survives dir m0 since (settle_all g) (disk w2) \/ closed dir m0 g (disk w2))
  end.
Proof.
  intros Hat l'. pose proof Hat as (Hd & Hs & _). simpl in Hd, Hs.
  unfold write_manifest. rewrite bind_get_self. change (w_dir l') with (w_dir l). rewrite Hd. unfold lift.
  pose proof (rewrite_manifest_triple dir m0 since _ l w (w_manifest l') Hat) as Ht.
  assert (Hnone : log_at dir m0 None (settle_all g) (l, w)) by (destruct Hat as (? & ? & _ & ?); done).
  assert (Hsame : same_session (with_ended m0 (Some t)) (w_manifest l')).
  { unfold same_session in *. exact (f_equal (fun m => with_ended m (Some t)) Hs). }
  assert (Hdone : forall w', manifest_on dir (w_manifest l') (disk w') -> beside_manifest (settle_all g) l (disk w') ->
            closed dir m0 g (disk w')).
  { intros w' Hm Hb. exists t. eapply beside_survives; [exact Hnone | exact Hb | exact Hsame | exact Hm | by intros []]. }
  destruct (write_manifest_at dir (w_manifest l') w) as [[[]|e|] w'].
  - destruct Ht as [Hm Hb]. split; [done | by apply Hdone].
  - destruct Ht as [[Hm|Hm] Hb]; (split; [done|]); [left; eapply beside_survives; [exact Hat | exact Hb | exact Hs | exact Hm | done] | right; by apply Hdone].
  - destruct Ht as [[Hm|Hm] Hb]; (split; [done|]); [left; eapply beside_survives; [exact Hat | exact Hb | exact Hs | exact Hm | done] | right; by apply Hdone].
Qed.

(** Whatever [finalize] comes to: ended and complete when it returns, and
    otherwise unfinished, with nothing durable lost, or ended and complete. *)
Lemma finalize_outcome dir m0 since g l w :
  log_more dir m0 since g (l, w) ->
  match finalize l w with
  | (Returned p, w') => p = dir /\ closed dir m0 g (disk w')
  | (_, w') => survives dir m0 since g (disk w') \/ closed dir m0 g (disk w')
  end.
Proof.
  intros (g1 & Ha & Hle & Hat). unfold finalize, consume.
  assert (Hsv : forall d, survives dir m0 since g1 d -> survives dir m0 since g d).
  { intros d. apply survives_weaken; [|done]. intros leg. by rewrite Ha. }
  assert (Hcl : forall d, closed dir m0 g1 d -> closed dir m0 g d).
  { intros d [t Ht]. exists t. eapply survives_written; [|exact Ht]. intros leg. simpl. by rewrite Ha. }
  assert (Hset : forall d, survives dir m0 since (settle_all g1) d -> survives dir m0 since g d).
  { intros d Hx. apply Hsv. revert Hx. apply survives_weaken; [done|]. intros leg.
    destruct Hat as (_ & _ & _ & Hok). by eapply log_ok_dur. }
  pose proof (wal_flush_triple dir m0 since g1 (l, w) Hat) as Hfl.
  unfold mbind at 1, eff_bind at 1. destruct (wal_flush (l, w)) as [[[]|e|] [l1 w1]].
  - pose proof Hfl as (Hd & _ & _ & Hok). simpl in Hd.
    rewrite bind_now_ms, bind_get_self, bind_set_self.
    assert (Hat1 : log_at dir m0 since (settle_all g1) (l1, wall_ticked w1)) by (by eapply log_at_same).
    pose proof (stamp_end dir m0 since g1 l1 (wall_ticked w1) (hd 0 (wall w1)) Hat1) as Hst. simpl in Hst.
    set (l' := set_manifest l1 _) in *.
    assert (Hid : idle l').
    { intros leg. pose proof (settled_idle _ _ _ Hok leg) as Hi. by destruct leg. }
    unfold mbind at 1, eff_bind at 1. destruct (write_manifest (l', wall_ticked w1)) as [[[]|e|] [l2 w2]].
    + destruct Hst as [-> Hst]. destruct (wal_drop_idle l' w2 Hid) as (l3 & w3 & E & Ew). simpl. rewrite E, Ew. by auto.
    + destruct Hst as [-> Hst]. destruct (wal_drop_idle l' w2 Hid) as (l3 & w3 & E & Ew). rewrite E, Ew.
      destruct Hst as [Hst|Hst]; [left; by apply Hset | right; by apply Hcl].
    + destruct Hst as [_ Hst].
      destruct Hst as [Hst|Hst]; [left; by apply Hset | right; by apply Hcl].
  - destruct Hfl as (g2 & Ha2 & Hle2 & Hat2). pose proof (wal_drop_triple dir m0 since g2 (l1, w1) Hat2) as Hdr.
    assert (Hsv2 : forall d, survives dir m0 since g2 d -> survives dir m0 since g d).
    { intros d Hx. apply Hsv. eapply survives_weaken; [|exact Hle2|exact Hx]. intros leg. by rewrite Ha2. }
    destruct (wal_drop (l1, w1)) as [[[]|e'|] [l2 w2]]; left; by apply Hsv2.
  - left. apply Hsv. by apply log_more_survives in Hfl.
Qed.

End Close.

(** ** What is read of a closed session *)

Section Closed.
Context `{JsonDoc Manifest, JsonDoc CaptureCheckpoint, Serde SttRecord}.
Context `{!JsonDocLaws Manifest, !LineLaws SttRecord}.

Lemma prefix_both (a b : bytes) : a `prefix_of` b /\ b `prefix_of` a -> a = b.
Proof.
  intros [[x ->] Hp]. apply prefix_length in Hp. rewrite length_app in Hp.
  rewrite (nil_length_inv x) by lia. by rewrite app_nil_r.
Qed.

Lemma whole_records ops : is_utf8 (audio LStt ops) = true -> records_of (audio LStt ops) = appended ops.
Proof.
  rewrite audio_stt. intros Hu. unfold records_of. rewrite Hu, <-(app_nil_r (stt_log _)), parse_log. simpl.
  by rewrite app_nil_r.
Qed.

(** C29: A finalized session is complete.  Close a created session after any
    operations, let the close succeed, fail or die anywhere, lose power or not, and
    read the directory: a returned close reads back as finalized, and whenever it
    reads back as finalized the file of each leg is, byte for byte, exactly the audio
    offered, decodes to exactly the samples offered and is counted in whole frames of
    its own format, and the transcript is exactly the records appended. *)
Theorem finalized_session_is_complete pid version root system mic w0 l w1 ops l2 w2 o w3 w :
  create_with_formats pid version root system mic w0 = (Returned l, w1) ->
  run_ops ops (l, w1) = (Returned tt, (l2, w2)) ->
  finalize l2 w2 = (o, w3) ->
  restarted w3 w -> fates w = [] -> is_utf8 (audio LStt ops) = true ->
  exists st,
    session_read (w_dir l) w = (Returned st, w) /\
    id (s_manifest st) = id (w_manifest l) /\
    (forall dir, o = Returned dir -> dir = w_dir l /\ is_finalized st = true) /\
    (is_finalized st = true ->
       (exists s1, disk w !! (w_dir l /> SYSTEM_PCM) = Some (NFile (audio LSystem ops) s1)) /\
       (exists s2, disk w !! (w_dir l /> MIC_PCM) = Some (NFile (audio LMic ops) s2)) /\
       samples_of_bytes (audio LSystem ops) = pcm_sample <$> heard LSystem ops /\
       samples_of_bytes (audio LMic ops) = pcm_sample <$> heard LMic ops /\
       system_frames st = zlen (audio LSystem ops) / (2 * channels (f_system (formats_of system mic))) /\
       mic_frames st = zlen (audio LMic ops) / (2 * channels (f_mic (formats_of system mic))) /\
       stt st = appended ops).
Proof.
  intros Hc Hr Hfin Hre Hf Hu.
  pose proof (create_triple pid version root system mic w0 I) as Ht. rewrite Hc in Ht.
  destruct Ht as (name & now & cp & Hat). set (m0 := initial_manifest _ _ _ _ _) in *.
  pose proof Hat as (Hd & Hs & _). simpl in Hd, Hs. rewrite Hd.
  assert (id (w_manifest l) = name) as -> by apply (f_equal id Hs).
  pose proof (run_ops_triple (root /> name) m0 (Some cp) nothing_written ops (l, w1) (log_more_refl _ _ _ _ _ Hat)) as Hop.
  rewrite Hr in Hop. set (g := offer nothing_written ops) in *.
  pose proof (finalize_outcome _ _ _ _ _ _ Hop) as Hout. rewrite Hfin in Hout.
  assert (Hcase : ((forall dir, o = Returned dir -> dir = root /> name) /\ closed (root /> name) m0 g (disk w3)) \/
                  ((forall dir, o <> Returned dir) /\ survives (root /> name) m0 (Some cp) g (disk w3))).
  { destruct o as [p|e|]; [destruct Hout as [-> ?]; left; split; [by intros ? [= <-] | done] |
      destruct Hout; [by right | by left]..]. }
  destruct Hcase as [[Hret [t Hcl]] | [Hno Hsv]].
  - pose proof (restart_survives _ _ _ _ _ _ Hcl Hre) as Hcl'.
    destruct (session_read_calm system mic _ _ _ _ _ Hcl' ltac:(done) Hf)
      as (st & sys & micb & sttb & s1 & s2 & Hread & Hf1 & Hf2 & Hs' & Hp1 & Hp2 & Hp3 & F1 & F2 & Hst & _).
    exists st. split; [done|]. split; [apply (f_equal id Hs')|].
    assert (is_finalized st = true) as Hfz.
    { unfold is_finalized. by rewrite (f_equal ended_at_ms Hs' : ended_at_ms (s_manifest st) = Some t). }
    split; [intros dir E; split; [by apply Hret | done]|]. intros _.
    rewrite F1, F2, Hst. rewrite <-(prefix_both _ _ Hp1) in *. rewrite <-(prefix_both _ _ Hp2) in *.
    rewrite <-(prefix_both _ _ Hp3). split_and!; [by exists s1 | by exists s2 | by apply audio_decodes..| done | done |]. apply whole_records. exact Hu.
  - pose proof (restart_survives _ _ _ _ _ _ Hsv Hre) as Hsv'.
    destruct (session_read_calm system mic _ _ _ _ _ Hsv' ltac:(done) Hf) as (st & ? & ? & ? & ? & ? & Hread & _ & _ & Hs' & _).
    exists st. split; [done|]. split; [apply (f_equal id Hs')|].
    assert (is_finalized st = false) as Hnf.
    { unfold is_finalized. by rewrite (f_equal ended_at_ms Hs' : ended_at_ms (s_manifest st) = None). }
    rewrite Hnf. split; [by intros dir E; destruct (Hno dir) | done].
Qed.

End Closed.

(** ** The sync cadence *)

(** Bytes that no crash can take back. *)
Definition durable (p : path) (bs : bytes) (d : Disk) : Prop :=
  exists c s, d !! p = Some (NFile c s) /\ bs `prefix_of` take s c.

(** A step that leaves the clock readings to come as they are. *)
Definition untimed (bw bw' : BufWriter * World) : Prop := instants bw'.2 = instants bw.2.
#[local] Instance untimed_preorder : PreOrder untimed.
Proof. split; [done|]. intros a b c ? ?. unfold untimed in *. by etrans. Qed.

Lemma write_file_untimed p bs w : instants (write_file p bs w).2 = instants w.
Proof. unfold write_file, op. destruct (fates w) as [|[|[] n gone] fs]; reflexivity. Qed.

Lemma flush_buf_untimed : within untimed flush_buf.
Proof.
  intros [b w]. unfold flush_buf, untimed. destruct (bw_buf b) as [|x bs]; [done|].
  pose proof (write_file_untimed (bw_path b) (x :: bs) w). by destruct (write_file _ _ w) as [[?|?|] w'].
Qed.

Lemma bw_write_all_untimed bs : within untimed (bw_write_all bs).
Proof.
  unfold bw_write_all. apply within_bind; [apply _ | by intros []|]. intros b. case_match; [by intros []|].
  apply within_bind; [apply _ | case_match; [apply flush_buf_untimed | by intros []]|]. intros [].
  case_match; [|by intros []]. intros [b' w]. unfold lift, untimed. pose proof (write_file_untimed (bw_path b) bs w).
  by destruct (write_file _ _ w) as [o w'].
Qed.

Lemma write_chunks_untimed chunks : within untimed (write_chunks_to chunks).
Proof.
  induction chunks as [|c chunks IH]; [by intros []|]. simpl.
  apply within_bind; [apply _ | apply bw_write_all_untimed | by intros []].
Qed.

(** What a writer's method does to the log, its clocks apart. *)
Lemma on_leg_untimed {A} leg (m : Eff (BufWriter * World) IoErr A) l w :
  within untimed m ->
  instants (on_leg leg m (l, w)).2.2 = instants w /\ last_sync (on_leg leg m (l, w)).2.1 = last_sync l.
Proof.
  intros Hm. specialize (Hm (leg_get leg l, w)). unfold on_leg, on_writer, untimed in *.
  destruct (m (leg_get leg l, w)) as [o [b w']]. simpl in *. split; [done | by destruct leg].
Qed.

Section Cadence.
Context `{JsonDoc Manifest, JsonDoc CaptureCheckpoint, Serde SttRecord}.

Definition is_write (op : LogOp) : bool :=
  match op with WriteSystem _ | WriteMic _ | AppendStt _ => true | _ => false end.

(** The last step of every write, from a log that accepted it. *)
Lemma maybe_sync_cadence dir m0 since g l w l' w' :
  log_at dir m0 since g (l, w) -> maybe_sync (l, w) = (Returned tt, (l', w')) ->
  (hd 0 (instants w) < last_sync l + SYNC_INTERVAL /\ last_sync l' = last_sync l) \/
  log_at dir m0 since (settle_all g) (l', w').
Proof.
  intros Hat. unfold maybe_sync. rewrite bind_instant_now, bind_get_self.
  destruct (Z.leb_spec SYNC_INTERVAL (dur_saturating_sub (hd 0 (instants w)) (last_sync l))) as [Hle|Hlt].
  - intros E. right.
    pose proof (wal_flush_triple dir m0 since g (l, ticked w) ltac:(by eapply log_at_same)) as Ht. by rewrite E in Ht.
  - intros E. unfold mret, eff_ret in E. injection E as <- <-. left. split; [|done]. unfold dur_saturating_sub in Hlt. lia.
Qed.

(** A write: its bytes are accepted, then the clock is read. *)
Lemma write_cadence dir m0 since g leg m bs l w l' w' :
  accepts m bs -> within untimed m -> log_at dir m0 since g (l, w) ->
  (_ ← on_leg leg m; maybe_sync) (l, w) = (Returned tt, (l', w')) ->
  (hd 0 (instants w) < last_sync l + SYNC_INTERVAL /\ last_sync l' = last_sync l) \/
  log_at dir m0 since (settle_all (grow g leg bs)) (l', w').
Proof.
  intros Ha Hu Hat. pose proof (leg_write_triple dir m0 since g leg m bs Ha (l, w) Hat) as Ht.
  destruct (on_leg_untimed leg m l w Hu) as [Ei El]. unfold mbind, eff_bind.
  destruct (on_leg leg m (l, w)) as [[[]|e|] [l1 w1]]; [|done..]. simpl in Ei, El. rewrite <-Ei, <-El.
  by apply maybe_sync_cadence.
Qed.

Lemma stt_accepts r : accepts (_ ← write_chunks_to (to_chunks r); bw_write_all [LF]) (to_vec r ++ [LF]).
Proof.
  intros F p a e HF. eapply triple_then; [by apply chunks_accepts| |].
  - intros bw (Hp & (x & s & Hx & Hpre & Hd) & HFw). split; [done|]. split; [|done]. exists x, s.
    split; [done|]. split; [|done]. rewrite app_assoc. by apply prefix_app_r.
  - intros []. rewrite app_assoc. by apply bw_write_all_triple.
Qed.

Lemma on_leg_bind {A B} leg (m : Eff (BufWriter * World) IoErr A) (k : A -> Eff (BufWriter * World) IoErr B) lw :
  on_leg leg (m ≫= k) lw = (on_leg leg m ≫= (fun a => on_leg leg (k a))) lw.
Proof.
  destruct lw as [l w]. unfold on_leg, on_writer, mbind, eff_bind.
  destruct (m (leg_get leg l, w)) as [[a|e|] [b w']]; [|done..]. rewrite leg_get_set.
  destruct (k a (b, w')) as [o [b' w2]]. by destruct leg.
Qed.

(** A write is one writer's method and a look at the clock. *)
Lemma is_write_inv op : is_write op = true ->
  exists leg m, accepts m (offered leg op) /\ within untimed m /\
    (forall lw, run_op op lw = (_ ← on_leg leg m; maybe_sync) lw) /\ (forall leg', leg' <> leg -> offered leg' op = []).
Proof.
  destruct op as [pcm|pcm|r| | |]; try done; intros _.
  - exists LSystem, (bw_write_all (pcm_bytes_of pcm)).
    split; [apply write_all_accepts|]. split; [apply bw_write_all_untimed|]. split; [reflexivity | by intros []].
  - exists LMic, (bw_write_all (pcm_bytes_of pcm)).
    split; [apply write_all_accepts|]. split; [apply bw_write_all_untimed|]. split; [reflexivity | by intros []].
  - exists LStt, (_ ← write_chunks_to (to_chunks r); bw_write_all [LF]).
    split; [apply stt_accepts|]. split.
    { apply within_bind; [apply _ | apply write_chunks_untimed | intros ?; apply bw_write_all_untimed]. }
    split; [|by intros []]. intros lw. change (run_op (AppendStt r) lw) with (append_stt r lw). unfold append_stt.
    change (@on_stt unit) with (@on_leg unit LStt).
    unfold mbind at 3, eff_bind at 3. rewrite on_leg_bind. unfold mbind, eff_bind.
    by destruct (on_leg LStt (write_chunks_to (to_chunks r)) lw) as [[[]|e|] lw'].
Qed.

(** The sync cadence bounds what a crash can take.  Every write that returns
    either read the clock within two seconds of the last sync, or has left every
    byte offered so far, its own included, durable on every leg. *)
Theorem unsynced_audio_is_recent pid version root system mic w0 l w1 ops l2 w2 op l3 w3 :
  create_with_formats pid version root system mic w0 = (Returned l, w1) ->
  run_ops ops (l, w1) = (Returned tt, (l2, w2)) ->
  is_write op = true -> run_op op (l2, w2) = (Returned tt, (l3, w3)) ->
  (hd 0 (instants w2) < last_sync l2 + SYNC_INTERVAL /\ last_sync l3 = last_sync l2) \/
  forall leg, durable (w_dir l /> leg_name leg) (audio leg (ops ++ [op])) (disk w3).
Proof.
  intros Hc Hr Hop Hrun. pose proof (create_triple pid version root system mic w0 I) as Ht. rewrite Hc in Ht.
  destruct Ht as (name & now & cp & Hat). set (m0 := initial_manifest _ _ _ _ _) in *.
  pose proof Hat as (Hd & _). simpl in Hd. rewrite Hd.
  pose proof (run_ops_triple (root /> name) m0 (Some cp) nothing_written ops (l, w1) (log_more_refl _ _ _ _ _ Hat)) as Ho.
  rewrite Hr in Ho. destruct Ho as (g & Ha & _ & Hat2).
  destruct (is_write_inv op Hop) as (leg & m & Hacc & Hun & Heq & Hno). rewrite Heq in Hrun.
  destruct (write_cadence (root /> name) m0 (Some cp) g leg m _ l2 w2 l3 w3 Hacc Hun Hat2 Hrun) as [Hrec | Hset]; [by left|].
  right. intros leg'.
  pose proof Hset as (Hd3 & _ & _ & Hok). simpl in Hd3.
  destruct (settled_file _ _ _ leg' Hok) as (s & Hfile & Hs). rewrite Hd3 in Hfile.
  assert (acc (grow g leg (offered leg op)) leg' = audio leg' (ops ++ [op])) as Ea.
  { unfold audio. rewrite bind_app, bind_singleton. simpl. rewrite Ha. simpl.
    destruct (decide (leg' = leg)) as [->|Hne]; [done|]. by rewrite Hno, app_nil_r. }
  rewrite Ea in Hfile, Hs. exists (audio leg' (ops ++ [op])), s. split; [done|]. by rewrite take_ge.
Qed.

End Cadence.

(** ** A recording that is closed *)

Module ClosedRecording.

Import KilledRecording KilledTranscript.
#[local] Existing Instances LogCodec.manifest_doc LogCodec.checkpoint_doc LogCodec.stt_line.
#[local] Existing Instances LogCodec.manifest_laws LogCodec.stt_laws.

Definition session : list LogOp := WriteSystem [f32_one; f32_one] :: said.

(** Closing inside a run, so that one evaluation decides it all. *)
Definition closing (ops : list LogOp) : LogM unit := fun lw =>
  match run_ops ops lw with
  | (Returned _, (l, w)) => match finalize l w with (Returned _, _) => (Returned tt, (l, w)) | (_, _) => (Killed, (l, w)) end
  | r => r
  end.

Lemma closing_inv ops lw lw' : closing ops lw = (Returned tt, lw') ->
  exists l w dir w3, run_ops ops lw = (Returned tt, (l, w)) /\ finalize l w = (Returned dir, w3).
Proof.
  unfold closing. destruct (run_ops ops lw) as [[[]|e|] [l w]]; [|done..].
  destruct (finalize l w) as [[dir|e|] w3] eqn:Hf; [|done..]. intros _. by exists l, w, dir, w3.
Qed.

Lemma finalized_session_is_complete_witness :
  exists l w1 l2 w2 w3 st,
    made calm = (Returned l, w1) /\ run_ops session (l, w1) = (Returned tt, (l2, w2)) /\
    finalize l2 w2 = (Returned (w_dir l), w3) /\
    session_read (w_dir l) (set_fates w3 []) = (Returned st, set_fates w3 []) /\ is_finalized st = true /\
    system_frames st = zlen (audio LSystem session) / 2 /\ stt st = appended session.
Proof.
  destruct (outcome_inv calm (closing session) (Returned tt)) as (l & w1 & l2 & w2 & Hm & Hr).
  { vm_compute; reflexivity. }
  destruct (closing_inv session (l, w1) (l2, w2) Hr) as (l' & w' & dir & w3 & Hrun & Hfin).
  destruct (finalized_session_is_complete 77 "1.0" root mono (Some mono) calm l w1 session l' w' (Returned dir) w3
    (set_fates w3 [])) as (st & H1 & _ & H2 & H3);
    [exact Hm | exact Hrun | exact Hfin | left; reflexivity | reflexivity | vm_compute; reflexivity |].
  destruct (H2 dir eq_refl) as [Edir Hfz]. destruct (H3 Hfz) as (_ & _ & _ & _ & F1 & _ & F3). rewrite Edir in Hfin.
  exists l, w1, l', w', w3, st. exact (conj Hm (conj Hrun (conj Hfin (conj H1 (conj Hfz (conj F1 F3)))))).
Defined.

(** A quiet disk on which three seconds pass between two writes. *)
Definition slow : World := mkWorld ∅ ∅ [] [1700000000000] [0; 0; 1000; 3000000000; 3000000001] 41.

Lemma unsynced_audio_is_recent_witness :
  exists l w1 l2 w2 l3 w3,
    made slow = (Returned l, w1) /\
    run_ops [WriteSystem [f32_one]] (l, w1) = (Returned tt, (l2, w2)) /\
    run_op (WriteMic [f32_one]) (l2, w2) = (Returned tt, (l3, w3)) /\
    ((hd 0 (instants w2) < last_sync l2 + SYNC_INTERVAL /\ last_sync l3 = last_sync l2) \/
     forall leg, durable (w_dir l /> leg_name leg) (audio leg ([WriteSystem [f32_one]] ++ [WriteMic [f32_one]])) (disk w3)).
Proof.
  destruct (outcome_inv slow (_ ← run_ops [WriteSystem [f32_one]]; run_op (WriteMic [f32_one])) (Returned tt))
    as (l & w1 & l3 & w3 & Hm & Hr).
  { vm_compute; reflexivity. }
  destruct (bind_inv _ _ _ _ _ Hr) as ([] & [l2 w2] & Hrun & Hop).
  exists l, w1, l2, w2, l3, w3. split; [exact Hm|]. split; [exact Hrun|]. split; [exact Hop|].
  apply (unsynced_audio_is_recent 77 "1.0" root mono (Some mono) slow l w1 [WriteSystem [f32_one]] l2 w2
    (WriteMic [f32_one]) l3 w3); [exact Hm | exact Hrun | reflexivity | exact Hop].
Defined.

End ClosedRecording.
