(* ===== verification/Observe.v ===== *)
(** * Computations that only look

    A read-only computation over an honest disk, as a relation between what the
    disk holds and what is answered.  [observes m R X]: [m] leaves the disk alone,
    its result [a] satisfies [R a] of the disk and an error [e] satisfies [X e].
    Honest means that the operating system never reports as missing an entry that
    is there; it may refuse an operation for any other reason, and the process may
    die. *)

From S2P Require Import Prelude Bytes Text FileSystem.

Local Open Scope Z_scope.

Definition honest_fate (f : Fate) : Prop :=
  match f with Stops (Refused e) _ _ => error_kind e <> NotFound | _ => True end.

Definition honest (w : World) : Prop := Forall honest_fate (fates w).

Lemma honest_calm w : fates w = [] -> honest w.
Proof. intros E. unfold honest. rewrite E. constructor. Qed.

(** Every operation keeps the disk honest. *)
Definition stays_honest {E A} (m : IO E A) : Prop := forall w, honest w -> honest (m w).2.

Lemma op_honest {A : Type} partly (whole : Disk -> result (A * Disk) IoErr) : stays_honest (op partly whole).
Proof.
  intros w Hh. unfold op, honest in *. destruct (fates w) as [|f fs] eqn:Hf.
  - destruct (whole (disk w)) as [[a d]|e]; simpl; by rewrite Hf.
  - inversion Hh; subst. destruct f as [|why n gone]; simpl; [by destruct (whole (disk w)) as [[a d]|e]|].
    by destruct why.
Qed.

#[export] Instance honest_preorder : PreOrder (fun w w' => honest w -> honest w').
Proof. split; [by intros w | by intros a b c; auto]. Qed.

Section StaysHonest.
Lemma honest_ret {E A} (a : A) : stays_honest (mret a : IO E A).
Proof. by intros w. Qed.
Lemma honest_raise {E A} (e : E) : stays_honest (raise e : IO E A).
Proof. by intros w. Qed.
Lemma honest_bind {E A B} (m : IO E A) (k : A -> IO E B) : stays_honest m -> (forall a, stays_honest (k a)) -> stays_honest (m ≫= k).
Proof. exact (within_bind (fun w w' : World => honest w -> honest w') m k). Qed.
Lemma honest_attempt {E F A} (m : IO E A) : stays_honest m -> stays_honest (attempt m : IO F _).
Proof. exact (within_attempt (fun w w' : World => honest w -> honest w') m). Qed.
Lemma honest_map_err {E F A} (f : E -> F) (m : IO E A) : stays_honest m -> stays_honest (map_err f m).
Proof. exact (within_map_err (fun w w' : World => honest w -> honest w') f m). Qed.
Lemma honest_finally {E F A} (m : IO E A) (drop : IO F unit) : stays_honest m -> stays_honest drop -> stays_honest (finally m drop).
Proof. exact (within_finally (fun w w' : World => honest w -> honest w') m drop). Qed.
Lemma honest_on_error {E F A} (m : IO E A) (drop : IO F unit) : stays_honest m -> stays_honest drop -> stays_honest (on_error m drop).
Proof. exact (within_on_error (fun w w' : World => honest w -> honest w') m drop). Qed.
Lemma honest_ok_or {E A} (o : option A) (e : E) : stays_honest (ok_or o e).
Proof. exact (within_ok_or (fun w w' : World => honest w -> honest w') o e). Qed.
Lemma honest_guard {E} b (e : E) : stays_honest (guard_io b e).
Proof. exact (within_guard (fun w w' : World => honest w -> honest w') b e). Qed.
Lemma honest_of_result {E A} (r : result A E) : stays_honest (of_result r).
Proof. exact (within_of_result (fun w w' : World => honest w -> honest w') r). Qed.
(** What leaves the fates alone. *)
Lemma honest_fates {E A} (m : IO E A) : (forall w, fates (m w).2 = fates w) -> stays_honest m.
Proof. intros Hm w Hw. unfold honest in *. by rewrite Hm. Qed.
End StaysHonest.

Lemma try_lock_fates p w : fates (try_lock p w).2 = fates w.
Proof. unfold try_lock. by destruct (decide _). Qed.
Lemma now_ms_fates {E} w : fates (now_ms (E := E) w).2 = fates w.
Proof. unfold now_ms. by destruct (wall w). Qed.
Lemma instant_now_fates {E} w : fates (instant_now (E := E) w).2 = fates w.
Proof. unfold instant_now. by destruct (instants w). Qed.

(** Walk through a computation whose steps are operations, locks and clocks. *)
Ltac honest_step :=
  match goal with
  | |- stays_honest (mbind _ _) => apply honest_bind; [|intros ?]
  | |- stays_honest (mret _) => apply honest_ret
  | |- stays_honest (raise _) => apply honest_raise
  | |- stays_honest (map_err _ _) => apply honest_map_err
  | |- stays_honest (attempt _) => apply honest_attempt
  | |- stays_honest (finally _ _) => apply honest_finally
  | |- stays_honest (on_error _ _) => apply honest_on_error
  | |- stays_honest (ok_or _ _) => apply honest_ok_or
  | |- stays_honest (guard_io _ _) => apply honest_guard
  | |- stays_honest (of_result _) => apply honest_of_result
  | |- stays_honest (try_lock _) => apply honest_fates, try_lock_fates
  | |- stays_honest (unlock _) => by apply honest_fates
  | |- stays_honest now_ms => apply honest_fates, now_ms_fates
  | |- stays_honest instant_now => apply honest_fates, instant_now_fates
  | |- stays_honest next_serial => by apply honest_fates
  | |- stays_honest (match ?x with _ => _ end) => destruct x
  | |- stays_honest _ => apply op_honest
  end.
Ltac stay_honest := repeat honest_step.

Lemma op_held {A : Type} partly (whole : Disk -> result (A * Disk) IoErr) w : held (op partly whole w).2 = held w.
Proof.
  unfold op. destruct (fates w) as [|[|why n gone] fs]; [| |by destruct why];
    by destruct (whole _) as [[a d]|e].
Qed.

Section Observes.
Context {E : Type}.

Definition observes {A} (m : IO E A) (R : A -> Disk -> Prop) (X : E -> Disk -> Prop) : Prop :=
  forall w, honest w ->
    disk (m w).2 = disk w /\ held (m w).2 = held w /\ honest (m w).2 /\
    match (m w).1 with Returned a => R a (disk w) | Raised e => X e (disk w) | Killed => True end.

Definition anything_else : E -> Disk -> Prop := fun _ _ => True.

Lemma observes_conseq {A} (m : IO E A) R R' X X' :
  observes m R X -> (forall a d, R a d -> R' a d) -> (forall e d, X e d -> X' e d) -> observes m R' X'.
Proof.
  intros Hm HR HX w Hw. destruct (Hm w Hw) as (? & ? & ? & Ho). split_and!; [done..|].
  destruct ((m w).1); auto.
Qed.

Lemma observes_ret {A} (a : A) : observes (mret a) (fun b _ => b = a) (fun _ _ => False).
Proof. intros w Hw. done. Qed.

Lemma observes_raise {A} (e : E) : observes (raise e : IO E A) (fun _ _ => False) (fun e' _ => e' = e).
Proof. intros w Hw. done. Qed.

Lemma observes_bind {A B} (m : IO E A) (k : A -> IO E B) R X S Y :
  observes m R X -> (forall a, observes (k a) (S a) Y) -> (forall e d, X e d -> Y e d) ->
  observes (m ≫= k) (fun b d => exists a, R a d /\ S a b d) Y.
Proof.
  intros Hm Hk HX w Hw. destruct (Hm w Hw) as (Hd & Hl & Hh & Ho). unfold mbind, eff_bind.
  destruct (m w) as [[a|e|] w1]; simpl in *.
  - destruct (Hk a w1 Hh) as (Hd' & Hl' & Hh' & Ho'). rewrite Hd in *. rewrite Hl in Hl'. split_and!; [done..|].
    destruct ((k a w1).1); [by exists a | done | done].
  - split_and!; [done..|]. by apply HX.
  - by split_and!.
Qed.

End Observes.

Lemma observes_attempt {E F A} (m : IO E A) R X :
  observes m R X ->
  observes (attempt m : IO F _) (fun r d => match r with Ok a => R a d | Err e => X e d end) (fun _ _ => False).
Proof.
  intros Hm w Hw. destruct (Hm w Hw) as (Hd & Hl & Hh & Ho). unfold attempt.
  by destruct (m w) as [[a|e|] w1].
Qed.

Lemma observes_map_err {E F A} (f : E -> F) (m : IO E A) R X :
  observes m R X -> observes (map_err f m) R (fun e' d => exists e, e' = f e /\ X e d).
Proof.
  intros Hm w Hw. destruct (Hm w Hw) as (Hd & Hl & Hh & Ho). unfold map_err.
  destruct (m w) as [[a|e|] w1]; simpl in *; split_and!; try done. by exists e.
Qed.

Lemma observes_guard {E} b (e : E) : observes (guard_io b e) (fun _ _ => b = true) (fun _ _ => b = false).
Proof. intros w Hw. by destruct b. Qed.

Lemma observes_ok_or {E A} (o : option A) (e : E) : observes (ok_or o e) (fun a _ => o = Some a) (fun _ _ => o = None).
Proof. intros w Hw. by destruct o. Qed.

Lemma observes_of_result {E A} (r : result A E) : observes (of_result r) (fun a _ => r = Ok a) (fun e _ => r = Err e).
Proof. intros w Hw. by destruct r. Qed.

(** ** The operations *)

Definition absent (p : path) (e : IoErr) (d : Disk) : Prop := error_kind e = NotFound -> d !! p = None.

Lemma observes_look {A : Type} (whole : Disk -> result (A * Disk) IoErr) (R : A -> Disk -> Prop) (X : IoErr -> Disk -> Prop) :
  (forall d a d', whole d = Ok (a, d') -> d' = d /\ R a d) -> (forall d e, whole d = Err e -> X e d) ->
  (forall d e, error_kind e <> NotFound -> X e d) ->
  observes (op all_or_nothing whole) R X.
Proof.
  intros HR HX Hother w Hw. unfold op, honest in *.
  destruct (fates w) as [|[|why n gone] fs] eqn:Hf.
  - destruct (whole (disk w)) as [[a d']|e] eqn:Hd; simpl; [destruct (HR _ _ _ Hd) as [-> ?]|]; rewrite Hf; split_and!; auto.
  - inversion Hw; subst. simpl.
    destruct (whole (disk w)) as [[a d']|e] eqn:Hd; simpl; [destruct (HR _ _ _ Hd) as [-> ?]|]; split_and!; auto.
  - inversion Hw; subst. destruct why; simpl; split_and!; auto.
Qed.

Ltac look :=
  apply observes_look; [intros ??? Ho | intros ?? Ho | intros ?? Ho]; repeat case_match; simplify_eq; unfold absent; naive_solver.

Definition openable (n : Node) : Prop := match n with NOther => False | _ => True end.

Lemma observes_metadata p :
  observes (metadata p) (fun md d => exists n, d !! p = Some n /\ openable n /\ md = meta_of n) (absent p).
Proof. look. Qed.

Lemma observes_symlink_metadata p :
  observes (symlink_metadata p) (fun md d => exists n, d !! p = Some n /\ md = meta_of n) (absent p).
Proof. look. Qed.

Lemma observes_read_file p : observes (read_file p) (fun c d => exists s, d !! p = Some (NFile c s)) (absent p).
Proof. look. Qed.

Lemma observes_open_existing p :
  observes (open_existing p) (fun _ d => exists c s, d !! p = Some (NFile c s)) (absent p).
Proof. look. Qed.

Lemma observes_sync_directory p :
  observes (sync_directory p) (fun _ d => d !! p = Some NDir) (fun _ _ => True).
Proof. look. Qed.

Lemma observes_try_exists p :
  observes (try_exists p) (fun b d => if b then exists n, d !! p = Some n else d !! p = None) (fun _ _ => True).
Proof.
  unfold try_exists. eapply observes_conseq.
  - apply (observes_bind _ _ _ _ (fun r b _ => match r with Ok _ => b = true | Err e => b = false /\ error_kind e = NotFound end)
      (fun _ _ => True) (observes_attempt _ _ _ (observes_metadata p))); [|by intros].
    intros [a|e]; [eapply observes_conseq; [apply observes_ret | by intros | by intros]|].
    destruct (decide (error_kind e = NotFound)).
    + eapply observes_conseq; [apply observes_ret | by intros | by intros].
    + eapply observes_conseq; [apply observes_raise | by intros | by intros].
  - intros b d ([md|e] & Hr & Hb); [destruct Hr as (n & Hn & _); subst b; by exists n|].
    destruct Hb as [-> Hk]. by apply Hr.
  - by intros.
Qed.

Create HintDb observe.
#[export] Hint Resolve observes_metadata observes_symlink_metadata observes_read_file observes_open_existing
  observes_sync_directory observes_try_exists observes_ret observes_raise observes_guard observes_ok_or
  observes_of_result : observe.

(** The facts of a read-only step, from a world it ran in. *)
Lemma observes_run {E A} (m : IO E A) R X w a w' :
  observes m R X -> honest w -> m w = (Returned a, w') ->
  R a (disk w) /\ disk w' = disk w /\ held w' = held w /\ honest w'.
Proof. intros Hm Hw Hr. destruct (Hm w Hw) as (? & ? & ? & Ho). rewrite Hr in *. done. Qed.

(** ** What a read-only computation sees, errors aside *)

Definition sees {E A} (m : IO E A) (R : A -> Disk -> Prop) : Prop := observes m R (fun _ _ => True).

Lemma observes_sees {E A} (m : IO E A) R X : observes m R X -> sees m R.
Proof. intros Hm. by eapply observes_conseq. Qed.

Lemma sees_conseq {E A} (m : IO E A) (R R' : A -> Disk -> Prop) : sees m R -> (forall a d, R a d -> R' a d) -> sees m R'.
Proof. intros Hm HR. by eapply observes_conseq. Qed.

Lemma sees_bind {E A B} (m : IO E A) (k : A -> IO E B) R S :
  sees m R -> (forall a, sees (k a) (S a)) -> sees (m ≫= k) (fun b d => exists a, R a d /\ S a b d).
Proof. intros Hm Hk. by eapply observes_bind. Qed.

Lemma sees_ret {E A} (a : A) : sees (mret a : IO E A) (fun b _ => b = a).
Proof. eapply observes_sees, observes_ret. Qed.
Lemma sees_raise {E A} (e : E) : sees (raise e : IO E A) (fun _ _ => False).
Proof. eapply observes_sees, observes_raise. Qed.
Lemma sees_guard {E} b (e : E) : sees (guard_io b e) (fun _ _ => b = true).
Proof. eapply observes_sees, observes_guard. Qed.
Lemma sees_ok_or {E A} (o : option A) (e : E) : sees (ok_or o e) (fun a _ => o = Some a).
Proof. eapply observes_sees, observes_ok_or. Qed.
Lemma sees_of_result {E A} (r : result A E) : sees (of_result r) (fun a _ => r = Ok a).
Proof. eapply observes_sees, observes_of_result. Qed.
Lemma sees_metadata p : sees (metadata p) (fun md d => exists n, d !! p = Some n /\ openable n /\ md = meta_of n).
Proof. eapply observes_sees, observes_metadata. Qed.
Lemma sees_symlink_metadata p : sees (symlink_metadata p) (fun md d => exists n, d !! p = Some n /\ md = meta_of n).
Proof. eapply observes_sees, observes_symlink_metadata. Qed.
Lemma sees_read_file p : sees (read_file p) (fun c d => exists s, d !! p = Some (NFile c s)).
Proof. eapply observes_sees, observes_read_file. Qed.
Lemma sees_open_existing p : sees (open_existing p) (fun _ d => exists c s, d !! p = Some (NFile c s)).
Proof. eapply observes_sees, observes_open_existing. Qed.
Lemma sees_sync_directory p : sees (sync_directory p) (fun _ d => d !! p = Some NDir).
Proof. eapply observes_sees, observes_sync_directory. Qed.
Lemma sees_map_err {E F A} (f : E -> F) (m : IO E A) R : sees m R -> sees (map_err f m) R.
Proof. intros Hm. eapply observes_sees, observes_map_err, Hm. Qed.

#[export] Hint Resolve sees_ret sees_raise sees_guard sees_ok_or sees_of_result sees_metadata sees_symlink_metadata
  sees_read_file sees_open_existing sees_sync_directory sees_map_err observes_try_exists : observe.

Lemma sees_let {E A B C} (p : A * B) (k : A -> B -> IO E C) R : sees (k p.1 p.2) R -> sees (let '(x, y) := p in k x y) R.
Proof. by destruct p. Qed.

(** Chains of such steps. *)
Ltac sees_step :=
  lazymatch goal with
  | |- sees (mbind _ _) _ => eapply sees_bind; [|intros ?]
  | |- sees _ _ => first [eapply sees_ret | eapply sees_guard | eapply sees_ok_or | eapply sees_of_result | eapply sees_raise
                            | solve [eauto with observe] | apply sees_let]
  end.
Ltac see := eapply sees_conseq; [repeat sees_step|].

(** The disk, the leases and the honesty of a world that was only looked at. *)
Definition unmoved (w w' : World) : Prop := disk w' = disk w /\ held w' = held w /\ honest w'.

Lemma unmoved_trans a b c : unmoved a b -> unmoved b c -> unmoved a c.
Proof. intros (H1 & H2 & _) (H3 & H4 & H5). split_and!; [by rewrite H3 | by rewrite H4 | done]. Qed.

Lemma sees_run {E A} (m : IO E A) R w a w' :
  sees m R -> honest w -> m w = (Returned a, w') -> R a (disk w) /\ unmoved w w'.
Proof. intros Hm Hw Hr. destruct (observes_run _ _ _ _ _ _ Hm Hw Hr) as (? & ? & ? & ?). done. Qed.

(** Removing a file: gone, or as it was. *)
Lemma remove_file_run p w : honest w ->
  honest (remove_file p w).2 /\
  match remove_file p w with
  | (Returned _, w') => disk w' = delete p (disk w)
  | (Raised e, w') => disk w' = disk w /\ absent p e (disk w)
  | (Killed, w') => disk w' = disk w
  end.
Proof.
  intros Hw. split; [by apply op_honest|]. unfold remove_file, op. destruct (fates w) as [|[|why n gone] fs] eqn:Hf.
  - destruct (disk w !! p) as [[]|] eqn:Hp; simpl; unfold absent; naive_solver.
  - simpl. destruct (disk w !! p) as [[]|] eqn:Hp; simpl; unfold absent; naive_solver.
  - unfold honest in Hw. rewrite Hf in Hw. inversion Hw; subst. destruct why; simpl; [|done].
    split; [done|]. by intros Hk.
Qed.
