(* ===== verification/ReplayFile.v ===== *)
(** * The canonical audio file on disk

    [fotw-pipeline/src/replay.rs] over the file system: the sidecar leases, the
    header, the boundary proofs that say how far a source is sealed, transcribed
    and projected into the library, the writer that appends to it and resumes it,
    and the guard that must be held before a session directory is retired.  The
    bytes of an append and of a read are the subject of [Replay]; here is what
    survives on disk, and who may write when.  The process-wide counter that names
    a staging file is the world's [serials]; that a name is fresh is not relied
    on, since staging files are created with [create_new]. *)

From S2P Require Import Prelude Bytes Text Json SttTypes CoverageTypes.
From S2P Require Import FileSystem WalTypes OpusArchive SessionDir Replay.

Local Open Scope Z_scope.

Definition MAGIC : bytes := bytes_of_string "FOTWRPL1".
Definition MAX_HEADER_BYTES : Z := 4096.

(** ** Names *)

Definition audio_name (s : ReplaySource) : string :=
  match s with ReplaySystem => "system.stt16" | ReplayMic => "mic.stt16" end.
Definition lock_name (s : ReplaySource) : string :=
  match s with ReplaySystem => "system.stt16.lock" | ReplayMic => "mic.stt16.lock" end.
Definition coverage_name (s : ReplaySource) : string :=
  match s with ReplaySystem => "system.stt-coverage.jsonl" | ReplayMic => "mic.stt-coverage.jsonl" end.
Definition coverage_lock_name (s : ReplaySource) : string :=
  match s with ReplaySystem => "system.stt-coverage.jsonl.lock" | ReplayMic => "mic.stt-coverage.jsonl.lock" end.
Definition sealed_name (s : ReplaySource) : string :=
  match s with ReplaySystem => "system.stt-sealed.json" | ReplayMic => "mic.stt-sealed.json" end.
Definition completion_name (s : ReplaySource) : string :=
  match s with ReplaySystem => "system.stt-complete.json" | ReplayMic => "mic.stt-complete.json" end.
Definition projected_name (s : ReplaySource) : string :=
  match s with ReplaySystem => "system.stt-projected.json" | ReplayMic => "mic.stt-projected.json" end.
Definition prefix_projected_name (s : ReplaySource) : string :=
  match s with ReplaySystem => "system.stt-prefix-projected.json" | ReplayMic => "mic.stt-prefix-projected.json" end.

(** [with_extension]: the part of a name before its last dot. *)
Fixpoint stem (s : string) : option string :=
  match s with
  | EmptyString => None
  | String a s =>
      match stem s with
      | Some t => Some (String a t)
      | None => if byte_val a =? 46 then Some EmptyString else None
      end
  end.

Definition with_extension (name ext : string) : string :=
  match stem name with
  | Some (String _ _ as t) => t +:+ ("." +:+ ext)
  | _ => name +:+ ("." +:+ ext)
  end.

(** ** Leases *)

Definition OwnerLock := path.

Definition lock_at (p : path) : IO IoErr OwnerLock :=
  _ ← open_or_create p;
  _ ← try_lock p;
  mret p.

Definition source_lock (s : ReplaySource) (dir : path) : IO IoErr OwnerLock := lock_at (dir /> lock_name s).
Definition lock_coverage (s : ReplaySource) (dir : path) : IO IoErr OwnerLock := lock_at (dir /> coverage_lock_name s).

(** ** Proofs *)

Record Completion := mkCompletion {
  b_schema : Z;
  b_session_id : string;
  b_source : ReplaySource;
  b_first_sample : Z;
  through_sample : Z;
}.

Record ProjectionProof := mkProjection { boundary : Completion; journal_bytes : Z }.

Record PrefixProjection := mkPrefix { scope : string; px_boundary : Completion; px_journal_bytes : Z }.

Definition PREFIX_SCOPE : string := "saved-prefix-projection".

Definition valid_processing_id (ident : string) : bool :=
  (Z.of_nat (String.length ident) =? 64)
  && all_bytes (fun a => let b := byte_val a in ((48 <=? b) && (b <=? 57)) || ((97 <=? b) && (b <=? 102))) ident.

Section Files.
Context (pid : Z).

(** Staged under a fresh name, synced, renamed, the directory synced; a failed
    stage is removed. *)
Definition write_marker {A} `{JsonDoc A} (dir : path) (name : string) (marker : A) : IO IoErr unit :=
  n ← next_serial;
  let temporary := dir /> with_extension name ("part-" +:+ (pretty pid +:+ ("-" +:+ pretty n))) in
  on_error
    (_ ← open_new temporary;
     _ ← write_file temporary (doc_put marker);
     _ ← sync_file temporary;
     _ ← rename_file temporary (dir /> name);
     sync_directory dir)
    (remove_file temporary).

Definition read_marker {A} `{JsonDoc A} (p : path) : IO IoErr (option A) :=
  r ← attempt (read_file p);
  match r with
  | Err e => if decide (error_kind e = NotFound) then mret None else raise e
  | Ok all =>
      let text := take (Z.to_nat (MAX_HEADER_BYTES + 1)) all in
      _ ← guard_io (zlen text <=? MAX_HEADER_BYTES) (bad_data "replay boundary proof exceeds size limit");
      m ← ok_or (doc_get text) (bad_data "replay boundary proof does not parse");
      mret (Some m)
  end.

(** ** The reader *)

Context `{JsonDoc ReplayHeader, JsonDoc Completion, JsonDoc ProjectionProof, JsonDoc PrefixProjection}.

Record FileReader := mkFileReader { fr_dir : path; fr_header : ReplayHeader; fr_offset : Z }.

Definition fr_source (r : FileReader) : ReplaySource := rp_source (fr_header r).
Definition fr_path (r : FileReader) : path := fr_dir r /> audio_name (fr_source r).
Definition fr_first (r : FileReader) : Z := rp_first_sample (fr_header r).

(** The header at the front of a file, and where its audio starts. *)
Definition parse_header (file : bytes) (session_id : string) (source : ReplaySource)
  : result (ReplayHeader * Z) IoErr :=
  if zlen file <? 8 then Err (mkIo OtherKind "failed to fill whole buffer")
  else if negb (bool_decide (take 8 file = MAGIC)) then Err (bad_data "unsupported replay format")
  else if zlen file <? 12 then Err (mkIo OtherKind "failed to fill whole buffer")
  else
    let length := u32_from_le_bytes (take 4 (drop 8 file)) in
    if (length =? 0) || (MAX_HEADER_BYTES <? length) then Err (bad_data "invalid replay header length")
    else if zlen file <? 12 + length then Err (mkIo OtherKind "failed to fill whole buffer")
    else match doc_get (take (Z.to_nat length) (drop 12 file)) with
    | None => Err (bad_data "replay header does not parse")
    | Some h =>
        if negb (bool_decide (rp_session_id h = session_id)) || negb (bool_decide (rp_source h = source))
           || negb (sample_rate h =? SAMPLE_RATE)
           || is_some_and (processing_id h) (fun i => negb (valid_processing_id i))
        then Err (bad_data "replay identity or sample rate mismatch")
        else Ok (h, 12 + length)
    end.

Definition open_reader (dir : path) (session_id : string) (source : ReplaySource) : IO IoErr FileReader :=
  let p := dir /> audio_name source in
  _ ← open_existing p;
  md ← metadata p;
  _ ← guard_io (is_file md) (bad_data "replay is not a regular file");
  file ← read_file p;
  '(h, offset) ← of_result (parse_header file session_id source);
  mret (mkFileReader dir h offset).

(** [metadata()?.len().checked_sub(self.audio_offset)]. *)
Definition audio_length (r : FileReader) : IO IoErr Z :=
  md ← metadata (fr_path r);
  ok_or (checked_sub (len md) (fr_offset r)) (bad_data "replay header truncated").

Definition is_aligned (r : FileReader) : IO IoErr bool :=
  n ← audio_length r;
  mret (n mod 2 =? 0).

Definition available (r : FileReader) : IO IoErr Z :=
  n ← audio_length r;
  ok_or (checked_add64 (fr_first r) (n / 2)) (bad_data "replay sample clock overflow").

Definition matches_boundary (r : FileReader) (b : Completion) : IO IoErr bool :=
  a ← is_aligned r;
  if a && bool_decide (b_session_id b = rp_session_id (fr_header r)) && bool_decide (b_source b = fr_source r)
     && (b_first_sample b =? fr_first r)
  then e ← available r; mret (through_sample b =? e)
  else mret false.

Definition read_boundary (p : path) : IO IoErr (option Completion) :=
  m ← read_marker (A := Completion) p;
  match m with
  | None => mret None
  | Some b => _ ← guard_io (b_schema b =? 1) (bad_data "unsupported replay boundary proof"); mret (Some b)
  end.

(** The persisted frozen end, refusing altered input. *)
Definition sealed_end (r : FileReader) : IO IoErr (option Z) :=
  b ← read_boundary (fr_dir r /> sealed_name (fr_source r));
  match b with
  | None => mret None
  | Some b =>
      ok ← matches_boundary r b;
      if negb ok then raise (bad_data "sealed replay input has changed or belongs to another source")
      else mret (Some (through_sample b))
  end.

(** Whether a valid proof matches the source's current end. *)
Definition is_complete (r : FileReader) : IO IoErr bool :=
  _ ← sealed_end r;
  b ← read_boundary (fr_dir r /> completion_name (fr_source r));
  match b with Some b => matches_boundary r b | None => mret false end.

(** Whether inference and the current journal were durably projected. *)
Definition is_projected (r : FileReader) : IO IoErr bool :=
  c ← is_complete r;
  if negb c then mret false
  else
    m ← read_marker (A := ProjectionProof) (fr_dir r /> projected_name (fr_source r));
    match m with
    | None => mret false
    | Some proof =>
        ok ← (if b_schema (boundary proof) =? 1 then matches_boundary r (boundary proof) else mret false);
        if negb ok then mret false
        else
          _ ← open_existing (fr_dir r /> coverage_name (fr_source r));
          md ← metadata (fr_dir r /> coverage_name (fr_source r));
          mret (is_file md && (len md =? journal_bytes proof))
    end.

(** Make a prefix durable before a checkpoint refers to it. *)
Definition sync_prefix (r : FileReader) (through : Z) : IO IoErr unit :=
  _ ← guard_io (fr_first r <=? through) (bad_data "checkpoint is outside saved replay audio");
  e ← available r;
  _ ← guard_io (through <=? e) (bad_data "checkpoint is outside saved replay audio");
  sync_file (fr_path r).

Definition boundary_of (r : FileReader) (through : Z) : Completion :=
  mkCompletion 1 (rp_session_id (fr_header r)) (fr_source r) (fr_first r) through.

Definition make_boundary (r : FileReader) (through : Z) : IO IoErr Completion :=
  a ← is_aligned r;
  ok ← (if negb a then mret false else e ← available r; mret (through =? e));
  _ ← guard_io ok (bad_data "completion must cover the entire aligned replay stream");
  _ ← sync_prefix r through;
  mret (boundary_of r through).

Definition write_boundary (r : FileReader) (through : Z) (name : string) : IO IoErr unit :=
  b ← make_boundary r through;
  write_marker (fr_dir r) name b.

(** Persist that inference accounted for every saved sample. *)
Definition mark_complete (r : FileReader) (through : Z) : IO IoErr unit :=
  _ ← sealed_end r;
  write_boundary r through (completion_name (fr_source r)).

(** Acknowledge a committed projection of the whole source and journal. *)
Definition mark_projected (r : FileReader) (through journal_len : Z) : IO IoErr unit :=
  c ← is_complete r;
  _ ← guard_io c (bad_data "inference is not complete");
  let journal := fr_dir r /> coverage_name (fr_source r) in
  _ ← open_existing journal;
  md ← metadata journal;
  _ ← guard_io (is_file md && (len md =? journal_len)) (bad_data "projection does not cover the current journal");
  _ ← sync_file journal;
  b ← make_boundary r through;
  write_marker (fr_dir r) (projected_name (fr_source r)) (mkProjection b journal_len).

(** Acknowledge a projection of a prefix, which authorizes nothing else. *)
Definition mark_prefix_projected (r : FileReader) (through journal_len : Z) : IO IoErr unit :=
  _ ← sync_prefix r through;
  let journal := fr_dir r /> coverage_name (fr_source r) in
  _ ← open_existing journal;
  md ← (if journal_len =? 0 then mret (mkMeta false false 0) else metadata journal);
  _ ← guard_io (is_file md && (journal_len <=? len md)) (bad_data "prefix projection exceeds saved journal");
  text ← read_file journal;
  _ ← guard_io (bool_decide (text !! Z.to_nat (journal_len - 1) = Some LF))
        (bad_data "prefix projection ends in an incomplete journal record");
  _ ← sync_file journal;
  write_marker (fr_dir r) (prefix_projected_name (fr_source r))
    (mkPrefix PREFIX_SCOPE (boundary_of r through) journal_len).

Definition is_prefix_projected (r : FileReader) (through journal_len : Z) : IO IoErr bool :=
  m ← read_marker (A := PrefixProjection) (fr_dir r /> prefix_projected_name (fr_source r));
  match m with
  | None => mret false
  | Some proof =>
      let b := px_boundary proof in
      md ← metadata (fr_dir r /> coverage_name (fr_source r));
      if bool_decide (scope proof = PREFIX_SCOPE) && is_file md && (journal_len <=? len md) && (b_schema b =? 1)
         && bool_decide (b_session_id b = rp_session_id (fr_header r)) && bool_decide (b_source b = fr_source r)
         && (b_first_sample b =? fr_first r) && (through_sample b =? through) && (fr_first r <=? through)
      then e ← available r; mret ((through <=? e) && (px_journal_bytes proof =? journal_len))
      else mret false
  end.

(** ** The writer *)

Record FileWriter := mkFileWriter {
  fw_owner : OwnerLock;
  fw_dir : path;
  fw_source : ReplaySource;
  fw_session : string;
  fw_end : Z;
  fw_failed : bool;
  fw_sealed : bool;
  fw_prefix_only : bool;
}.

Definition fw_path (f : FileWriter) : path := fw_dir f /> audio_name (fw_source f).

Definition poison (f : FileWriter) : FileWriter :=
  mkFileWriter (fw_owner f) (fw_dir f) (fw_source f) (fw_session f) (fw_end f) true (fw_sealed f) (fw_prefix_only f).
Definition advance (f : FileWriter) (e : Z) : FileWriter :=
  mkFileWriter (fw_owner f) (fw_dir f) (fw_source f) (fw_session f) e (fw_failed f) (fw_sealed f) (fw_prefix_only f).
Definition set_sealed (f : FileWriter) : FileWriter :=
  mkFileWriter (fw_owner f) (fw_dir f) (fw_source f) (fw_session f) (fw_end f) (fw_failed f) true (fw_prefix_only f).

Definition create_inner (dir : path) (session_id : string) (source : ReplaySource) (first : Z)
    (processing : option string) : IO IoErr FileWriter :=
  _ ← guard_io (negb (str_is_empty session_id) && (Z.of_nat (String.length session_id) <=? 512))
        (bad_data "invalid replay session identity");
  let header := doc_put (mkReplayHeader session_id source SAMPLE_RATE first processing) in
  _ ← guard_io (zlen header <=? MAX_HEADER_BYTES) (bad_data "replay header too large");
  let p := dir /> audio_name source in
  owner ← source_lock source dir;
  on_error
    (_ ← open_new p;
     _ ← on_error
           (_ ← write_file p MAGIC;
            _ ← write_file p (u32_to_le_bytes (zlen header));
            _ ← write_file p header;
            _ ← sync_file p;
            sync_directory dir)
           (remove_file p);
     mret (mkFileWriter owner dir source session_id first false false false))
    (unlock owner).

Definition replay_create (dir : path) (session_id : string) (source : ReplaySource) (first : Z) : IO IoErr FileWriter :=
  create_inner dir session_id source first None.

Definition create_with_processing (dir : path) (session_id : string) (source : ReplaySource) (first : Z)
    (processing : string) : IO IoErr FileWriter :=
  _ ← guard_io (valid_processing_id processing) (bad_data "invalid processing fingerprint");
  create_inner dir session_id source first (Some processing).

(** Resume after a crash: validate, then drop a trailing half-sample. *)
Definition resume_validated (dir : path) (session_id : string) (source : ReplaySource)
    (validate : FileReader -> IO IoErr unit) : IO IoErr FileWriter :=
  owner ← source_lock source dir;
  on_error
    (r ← open_reader dir session_id source;
     _ ← validate r;
     s ← sealed_end r;
     md ← metadata (fr_path r);
     n ← ok_or (checked_sub (len md) (fr_offset r)) (bad_data "replay header truncated");
     e ← ok_or (checked_add64 (fr_first r) (n / 2)) (bad_data "replay sample clock overflow");
     _ ← (if n mod 2 =? 0 then mret tt
          else _ ← set_len (fr_path r) (len md - 1); sync_file (fr_path r));
     mret (mkFileWriter owner dir source session_id e false (is_some s) false))
    (unlock owner).

Definition replay_resume (dir : path) (session_id : string) (source : ReplaySource) : IO IoErr FileWriter :=
  resume_validated dir session_id source (fun _ => mret tt).

(** Own a prefix without repairing it, and without leave to append or seal. *)
Definition resume_prefix_validated (dir : path) (session_id : string) (source : ReplaySource)
    (validate : FileReader -> IO IoErr unit) : IO IoErr FileWriter :=
  owner ← source_lock source dir;
  on_error
    (r ← open_reader dir session_id source;
     _ ← validate r;
     s ← sealed_end r;
     e ← available r;
     _ ← sync_file (fr_path r);
     mret (mkFileWriter owner dir source session_id e false (is_some s) true))
    (unlock owner).

Definition resume_prefix (dir : path) (session_id : string) (source : ReplaySource) : IO IoErr FileWriter :=
  resume_prefix_validated dir session_id source (fun _ => mret tt).

Abbreviation WriterM := (Eff (FileWriter * World) IoErr).

(** A step whose failure poisons the writer. *)
Definition poisoning {A} (m : IO IoErr A) : WriterM A := fun '(f, w) =>
  match m w with
  | (Raised e, w') => (Raised e, (poison f, w'))
  | (o, w') => (o, (f, w'))
  end.

Definition healthy : WriterM unit :=
  f ← get_self;
  guard_io (negb (fw_failed f)) (bad_data "replay writer failed; recovery required").

(** A stale proof must not outlive the audio it was about. *)
Definition drop_proof (p dir : path) : WriterM unit :=
  r ← attempt (lift (remove_file p));
  match r with
  | Ok _ => poisoning (sync_directory dir)
  | Err e => if decide (error_kind e = NotFound) then mret tt else poisoning (raise e)
  end.

Fixpoint append_chunks (rounds : nat) (p : path) (pcm : list Z) : WriterM unit :=
  match rounds, pcm with
  | S rounds, _ :: _ =>
      _ ← poisoning (write_file p (bytes_of_samples (take 1024 pcm)));
      append_chunks rounds p (drop 1024 pcm)
  | _, _ => mret tt
  end.

Definition append (pcm : list Z) : WriterM unit :=
  _ ← healthy;
  f ← get_self;
  _ ← guard_io (negb (fw_sealed f || fw_prefix_only f)) (bad_data "replay input is permanently sealed");
  if bool_decide (pcm = []) then mret tt
  else
    next ← ok_or (checked_add64 (fw_end f) (zlen pcm)) (bad_data "replay sample clock overflow");
    _ ← drop_proof (fw_dir f /> completion_name (fw_source f)) (fw_dir f);
    _ ← drop_proof (fw_dir f /> projected_name (fw_source f)) (fw_dir f);
    _ ← append_chunks (length pcm) (fw_path f) pcm;
    f ← get_self;
    set_self (advance f next).

(** Flush before persisting a checkpoint that refers to the audio. *)
Definition sync : WriterM Z :=
  _ ← healthy;
  f ← get_self;
  _ ← poisoning (sync_file (fw_path f));
  mret (fw_end f).

(** Freeze the complete aligned input, for this owner and any other. *)
Definition seal : WriterM Z :=
  _ ← healthy;
  f ← get_self;
  _ ← guard_io (negb (fw_prefix_only f)) (bad_data "prefix ownership cannot seal original input");
  r ← lift (open_reader (fw_dir f) (fw_session f) (fw_source f));
  _ ← lift (sealed_end r);
  _ ← lift (write_boundary r (fw_end f) (sealed_name (fw_source f)));
  f ← get_self;
  _ ← set_self (set_sealed f);
  mret (fw_end f).

(** ** Retirement *)

(** Whether one source is settled: [None] while it is not, its two leases held
    when it is. *)
Definition guard_source (dir : path) (session_id : string) (source : ReplaySource)
  : IO IoErr (option (list OwnerLock)) :=
  present ← try_exists (dir /> audio_name source);
  if negb present then
    c ← try_exists (dir /> completion_name source);
    s ← (if negb c then try_exists (dir /> sealed_name source) else mret true);
    _ ← guard_io (negb s) (bad_data "completion proof has no replay audio");
    mret (Some [])
  else
    r ← attempt (source_lock source dir);
    match r with
    | Err e => if decide (error_kind e = WouldBlock) then mret None else raise e
    | Ok owner =>
        on_error
          (r ← attempt (lock_coverage source dir);
           match r with
           | Err e => if decide (error_kind e = WouldBlock) then _ ← unlock owner; mret None else raise e
           | Ok journal_owner =>
               on_error
                 (r ← open_reader dir session_id source;
                  c ← is_complete r;
                  p ← (if negb c then mret false else is_projected r);
                  if negb p then _ ← unlock journal_owner; _ ← unlock owner; mret None
                  else mret (Some [owner; journal_owner]))
                 (unlock journal_owner)
           end)
          (unlock owner)
    end.

Fixpoint release (owners : list OwnerLock) : IO IoErr unit :=
  match owners with [] => mret tt | o :: owners => _ ← unlock o; release owners end.

Fixpoint guard_sources (dir : path) (session_id : string) (sources : list ReplaySource) (owners : list OwnerLock)
  : IO IoErr (option (list OwnerLock)) :=
  match sources with
  | [] => mret (Some owners)
  | s :: sources =>
      g ← on_error (guard_source dir session_id s) (release owners);
      match g with
      | None => _ ← release owners; mret None
      | Some more => guard_sources dir session_id sources (owners ++ more)
      end
  end.

(** The leases to hold across the retirement of a session directory; [None] while
    a source is open, or not transcribed and projected to its end. *)
Definition retirement_guard (dir : path) (session_id : string) : IO IoErr (option (list OwnerLock)) :=
  guard_sources dir session_id [ReplaySystem; ReplayMic] [].

End Files.

(** ** The reference documents of a source *)

Module ReplayCodec.

#[local] Existing Instances codec_pair codec_option.
#[local] Instance c_Z : Json.Codec Z := codec_leaf.
#[local] Instance c_bool : Json.Codec bool := codec_leaf.
#[local] Instance c_string : Json.Codec string := codec_leaf.

#[local] Instance c_source : Json.Codec ReplaySource.
Proof.
  refine (codec_iso (fun s => bool_decide (s = ReplaySystem)) (fun b : bool => if b then ReplaySystem else ReplayMic) _).
  by intros [].
Defined.

#[local] Instance c_header : Json.Codec ReplayHeader.
Proof.
  refine (codec_iso (fun h => (rp_session_id h, rp_source h, sample_rate h, rp_first_sample h, processing_id h))
    (fun '(a, b, c, d, e) => mkReplayHeader a b c d e) _). by intros [].
Defined.

#[local] Instance c_completion : Json.Codec Completion.
Proof.
  refine (codec_iso (fun b => (b_schema b, b_session_id b, b_source b, b_first_sample b, through_sample b))
    (fun '(a, b, c, d, e) => mkCompletion a b c d e) _). by intros [].
Defined.

#[local] Instance c_projection : Json.Codec ProjectionProof.
Proof. refine (codec_iso (fun p => (boundary p, journal_bytes p)) (fun '(a, b) => mkProjection a b) _). by intros []. Defined.

#[local] Instance c_prefix : Json.Codec PrefixProjection.
Proof.
  refine (codec_iso (fun p => (scope p, px_boundary p, px_journal_bytes p)) (fun '(a, b, c) => mkPrefix a b c) _).
  by intros [].
Defined.

Definition header_doc : JsonDoc ReplayHeader := doc_of_codec.
Definition completion_doc : JsonDoc Completion := doc_of_codec.
Definition projection_doc : JsonDoc ProjectionProof := doc_of_codec.
Definition prefix_doc : JsonDoc PrefixProjection := doc_of_codec.

End ReplayCodec.
