(* ===== verification/ReplayProofs.v ===== *)
(** * Sealed, complete, projected: what the proofs of a source promise

    What the boundary proofs of a canonical source say about the disk, that an
    append never leaves a stale one, that a seal is final, and that the retirement
    guard is only given for sources transcribed and projected to their last
    sample, with every writer shut out. *)

From S2P Require Import Prelude Bytes Text Json SttTypes CoverageTypes.
From S2P Require Import FileSystem WalTypes OpusArchive SessionDir Replay Observe ReplayFile.

Local Open Scope Z_scope.

Section Proofs.
Context (pid : Z).
Context `{JsonDoc ReplayHeader, JsonDoc Completion, JsonDoc ProjectionProof, JsonDoc PrefixProjection}.

(** The source's audio is [n] bytes behind header [h]. *)
Definition audio_on (d : Disk) (dir : path) (ident : string) (s : ReplaySource) (h : ReplayHeader) (off n : Z) : Prop :=
  exists c k, d !! (dir /> audio_name s) = Some (NFile c k) /\ parse_header c ident s = Ok (h, off) /\
              off <= zlen c /\ n = zlen c - off.

Definition proof_on {A} `{JsonDoc A} (d : Disk) (p : path) (m : A) : Prop :=
  exists c k, d !! p = Some (NFile c k) /\ zlen c <= MAX_HEADER_BYTES /\ doc_get c = Some m.

(** A boundary at the end of that audio. *)
Definition covers (h : ReplayHeader) (n : Z) (b : Completion) : Prop :=
  b_schema b = 1 /\ b_session_id b = rp_session_id h /\ b_source b = rp_source h /\
  b_first_sample b = rp_first_sample h /\ n mod 2 = 0 /\ through_sample b = rp_first_sample h + n / 2 /\
  through_sample b <= u64_max.

(** Transcribed and projected to the last sample and the last journal byte. *)
Definition settled (d : Disk) (dir : path) (ident : string) (s : ReplaySource) : Prop :=
  exists h off n c p journal k,
    audio_on d dir ident s h off n /\
    proof_on d (dir /> completion_name s) c /\ covers h n c /\
    proof_on d (dir /> projected_name s) p /\ covers h n (boundary p) /\
    d !! (dir /> coverage_name s) = Some (NFile journal k) /\ journal_bytes p = zlen journal.

Lemma parse_header_source c ident s h off : parse_header c ident s = Ok (h, off) -> rp_source h = s /\ rp_session_id h = ident.
Proof.
  unfold parse_header. intros Hp. repeat (case_match; try done). simplify_eq.
  repeat match goal with Hb : _ || _ = false |- _ => apply orb_false_iff in Hb as [? ?] end.
  by repeat match goal with Hb : negb _ = false |- _ => apply negb_false_iff, bool_decide_eq_true in Hb end.
Qed.

Lemma sees_open_reader dir ident s :
  sees (open_reader dir ident s) (fun r d => exists c k, d !! (dir /> audio_name s) = Some (NFile c k) /\
    parse_header c ident s = Ok (fr_header r, fr_offset r) /\ fr_dir r = dir /\ fr_source r = s).
Proof.
  unfold open_reader. see. simpl.
  intros r d (_ & _ & md & _ & _ & _ & c & (k & Hc) & [h off] & Hp & ->). simpl. exists c, k.
  split; [done|]. split; [done|]. split; [done|]. apply (parse_header_source _ _ _ _ _ Hp).
Qed.

(** The bytes of audio behind a reader's header. *)
Definition length_on (d : Disk) (r : FileReader) (n : Z) : Prop :=
  exists nd, d !! fr_path r = Some nd /\ checked_sub (len (meta_of nd)) (fr_offset r) = Some n.

Lemma length_on_fun d r n n' : length_on d r n -> length_on d r n' -> n = n'.
Proof. intros (nd & E1 & E2) (nd' & E3 & E4). congruence. Qed.

Lemma sees_audio_length r : sees (audio_length r) (fun n d => length_on d r n).
Proof. unfold audio_length. see. simpl. intros n d (md & (nd & Hn & _ & ->) & Hs). by exists nd. Qed.

#[local] Hint Resolve sees_audio_length : observe.

Lemma sees_is_aligned r : sees (is_aligned r) (fun a d => exists n, length_on d r n /\ a = (n mod 2 =? 0)).
Proof. unfold is_aligned. see. simpl. by intros a d (n & Hn & ->); exists n. Qed.

Lemma sees_available r :
  sees (available r) (fun e d => exists n, length_on d r n /\ checked_add64 (fr_first r) (n / 2) = Some e).
Proof. unfold available. see. simpl. done. Qed.

#[local] Hint Resolve sees_is_aligned sees_available : observe.

Definition ends_at (d : Disk) (r : FileReader) (b : Completion) : Prop :=
  exists n, length_on d r n /\ n mod 2 = 0 /\ b_session_id b = rp_session_id (fr_header r) /\ b_source b = fr_source r /\
            b_first_sample b = fr_first r /\ checked_add64 (fr_first r) (n / 2) = Some (through_sample b).

Lemma sees_matches_boundary r b : sees (matches_boundary r b) (fun ok d => ok = true -> ends_at d r b).
Proof.
  unfold matches_boundary. eapply sees_conseq.
  - eapply (sees_bind _ _ _ (fun a ok d => ok = true -> a = true /\ (b_session_id b = rp_session_id (fr_header r) /\
      b_source b = fr_source r /\ b_first_sample b = fr_first r) /\
      exists n, length_on d r n /\ checked_add64 (fr_first r) (n / 2) = Some (through_sample b))); [apply sees_is_aligned|].
    intros a. destruct (_ && _) eqn:Hb; [|see; by intros ? ? ->].
    repeat (apply andb_true_iff in Hb as [Hb ?]). see. simpl.
    intros ok d (e & (n & Hn & He) & ->) Hok. apply Z.eqb_eq in Hok. subst e.
    rewrite bool_decide_eq_true in *. split; [done|]. split; [split_and!; try done; lia | by exists n].
  - intros ok d (a & (n & Hn & ->) & Hrest) Hok. destruct (Hrest Hok) as (Ha & (? & ? & ?) & n' & Hn' & He).
    rewrite <-(length_on_fun _ _ _ _ Hn Hn') in He. exists n. split_and!; [done | lia | done..].
Qed.

(** A marker that was read. *)
Lemma sees_read_marker {A} `{JsonDoc A} p :
  sees (read_marker (A := A) p) (fun m d => match m with Some a => proof_on d p a | None => d !! p = None end).
Proof.
  unfold read_marker. eapply observes_conseq; [| |done].
  - eapply (observes_bind _ _ _ _ (fun r m d => match r with
      | Ok all => exists a, m = Some a /\ zlen all <= MAX_HEADER_BYTES /\ doc_get all = Some a
      | Err e => m = None /\ error_kind e = NotFound end) (fun _ _ => True));
      [apply observes_attempt, observes_read_file | | done].
    intros [all|e].
    + change (sees (_ ← guard_io (zlen (take (Z.to_nat (MAX_HEADER_BYTES + 1)) all) <=? MAX_HEADER_BYTES)
          (bad_data "replay boundary proof exceeds size limit");
        m ← ok_or (doc_get (take (Z.to_nat (MAX_HEADER_BYTES + 1)) all)) (bad_data "replay boundary proof does not parse");
        mret (Some m)) (fun m d => exists a, m = Some a /\ zlen all <= MAX_HEADER_BYTES /\ doc_get all = Some a)).
      see. simpl. intros m d (_ & Hl & a & Ha & ->). exists a. split; [done|]. apply Z.leb_le in Hl.
      unfold zlen in *. rewrite length_take in Hl. unfold MAX_HEADER_BYTES in *.
      rewrite take_ge in Ha by lia. split; [lia | done].
    + destruct (decide (error_kind e = NotFound)).
      * eapply observes_conseq; [apply observes_ret | by intros ? ? -> | done].
      * eapply observes_conseq; [apply observes_raise | done | done].
  - intros m d ([all|e] & Hr & Hm).
    + destruct Hr as (k & Hp). destruct Hm as (a & -> & Hl & Ha). by exists all, k.
    + destruct Hm as [-> Hk]. by apply Hr.
Qed.

Lemma sees_read_boundary p :
  sees (read_boundary p)
    (fun m d => match m with Some b => proof_on d p b /\ b_schema b = 1 | None => d !! p = None end).
Proof.
  unfold read_boundary. eapply sees_conseq.
  - apply (sees_bind _ _ _ (fun r m d => match r with Some b => m = Some b /\ b_schema b = 1 | None => m = None end)
      (sees_read_marker p)).
    intros [b|]; see; simpl; [|done]. intros m d (_ & Hs & ->). split; [done | lia].
  - intros m d ([b|] & Hr & Hm); [by destruct Hm as [-> ?] | by subst].
Qed.

Lemma sees_sealed_end r : sees (sealed_end r) (fun e d => match e with
  | Some t => exists b, proof_on d (fr_dir r /> sealed_name (fr_source r)) b /\ ends_at d r b /\ through_sample b = t
  | None => d !! (fr_dir r /> sealed_name (fr_source r)) = None end).
Proof.
  unfold sealed_end. eapply sees_conseq.
  - apply (sees_bind _ _ _ (fun m e d => match m with Some b => e = Some (through_sample b) /\ ends_at d r b | None => e = None end)
      (sees_read_boundary _)).
    intros [b|]; [|see; by intros]. eapply sees_conseq; [apply (sees_bind _ _ _ (fun ok e _ => ok = true /\ e = Some (through_sample b))
      (sees_matches_boundary r b))|].
    + intros [|]; see; by intros.
    + intros e d (ok & Hok & -> & ->). split; [done | by apply Hok].
  - intros e d ([b|] & Hr & Hm); [|by subst]. destruct Hm as [-> Hm]. destruct Hr as [Hr _]. by exists b.
Qed.

Lemma sees_is_complete r : sees (is_complete r) (fun c d => c = true ->
  exists b, proof_on d (fr_dir r /> completion_name (fr_source r)) b /\ b_schema b = 1 /\ ends_at d r b).
Proof.
  unfold is_complete. eapply sees_conseq.
  - eapply sees_bind; [apply sees_sealed_end|]. intros e.
    apply (sees_bind _ _ _ (fun m c d => c = true -> exists b, m = Some b /\ ends_at d r b) (sees_read_boundary _)).
    intros [b|]; [|see; by intros ? ? ->]. eapply sees_conseq; [apply sees_matches_boundary|].
    intros c d Hc Ht. exists b. split; [done | by apply Hc].
  - intros c d (_ & _ & m & Hm & Hc) Ht. destruct (Hc Ht) as (b & -> & He). destruct Hm as [Hp Hs]. by exists b.
Qed.

Lemma sees_is_projected r : sees (is_projected r) (fun p d => p = true ->
  (exists b, proof_on d (fr_dir r /> completion_name (fr_source r)) b /\ b_schema b = 1 /\ ends_at d r b) /\
  exists proof journal k, proof_on d (fr_dir r /> projected_name (fr_source r)) proof /\ b_schema (boundary proof) = 1 /\
    ends_at d r (boundary proof) /\ d !! (fr_dir r /> coverage_name (fr_source r)) = Some (NFile journal k) /\
    journal_bytes proof = zlen journal).
Proof.
  unfold is_projected. eapply sees_conseq.
  - apply (sees_bind _ _ _ (fun c p d => p = true -> c = true /\ exists proof journal k,
      proof_on d (fr_dir r /> projected_name (fr_source r)) proof /\ b_schema (boundary proof) = 1 /\
      ends_at d r (boundary proof) /\ d !! (fr_dir r /> coverage_name (fr_source r)) = Some (NFile journal k) /\
      journal_bytes proof = zlen journal) (sees_is_complete r)).
    intros [|]; [|see; by intros ? ? ->]. simpl.
    eapply sees_conseq; [apply (sees_bind _ _ _ (fun m p d => p = true -> exists proof, m = Some proof /\
      b_schema (boundary proof) = 1 /\ ends_at d r (boundary proof) /\ exists journal k,
      d !! (fr_dir r /> coverage_name (fr_source r)) = Some (NFile journal k) /\ journal_bytes proof = zlen journal)
      (sees_read_marker _))|].
    + intros [proof|]; [|see; by intros ? ? ->].
      eapply sees_conseq; [apply (sees_bind _ _ (fun ok d => ok = true -> b_schema (boundary proof) = 1 /\ ends_at d r (boundary proof))
        (fun ok p d => p = true -> ok = true /\ exists journal k,
          d !! (fr_dir r /> coverage_name (fr_source r)) = Some (NFile journal k) /\ journal_bytes proof = zlen journal))|].
      * destruct (Z.eqb_spec (b_schema (boundary proof)) 1); [|see; by intros ? ? ->].
        eapply sees_conseq; [apply sees_matches_boundary|]. by intros ok d Hok Ht; split; [|apply Hok].
      * intros [|]; [|see; by intros ? ? ->]. simpl. see. simpl.
        intros p d (_ & _ & md & (nd & Hn & _ & ->) & ->) Hp. apply andb_true_iff in Hp as [Hf Hl]. split; [done|].
        destruct nd as [journal k| |]; [|done..]. exists journal, k. simpl in Hl. split; [done | lia].
      * intros p d (ok & Hok & Hp) Ht. destruct (Hp Ht) as [-> Hj]. destruct (Hok eq_refl). by exists proof.
    + intros p d (m & Hm & Hp) Ht. destruct (Hp Ht) as (proof & -> & Hs & He & journal & k & Hj & Hl). split; [done|].
      by exists proof, journal, k.
  - intros p d (c & Hc & Hp) Ht. destruct (Hp Ht) as [-> Hrest]. split; [by apply Hc | done].
Qed.

(** ** The guard *)

Lemma lock_at_touches p : touches [p] (lock_at p).
Proof. unfold lock_at. touch. Qed.

Lemma lock_at_run p w o w' : honest w -> lock_at p w = (Returned o, w') ->
  o = p /\ (p ∉ held w) /\ same_except [p] (disk w) (disk w') /\ held w' = {[p]} ∪ held w /\ honest w'.
Proof.
  intros Hw Hr. pose proof (lock_at_touches p w) as Ht. rewrite Hr in Ht. unfold lock_at in Hr.
  destruct (bind_inv _ _ _ _ _ Hr) as ([] & w1 & Ho & Hr1). destruct (bind_inv _ _ _ _ _ Hr1) as ([] & w2 & Hl & Hr2).
  pose proof (op_honest _ _ w Hw : honest (open_or_create p w).2) as Hw1. rewrite Ho in Hw1. simpl in Hw1.
  pose proof (op_held _ _ w : held (open_or_create p w).2 = held w) as Hh1. rewrite Ho in Hh1. simpl in Hh1.
  unfold try_lock in Hl. destruct (decide (p ∈ held w1)) as [|Hn]; [done|]. unfold mret, eff_ret in Hr2. simplify_eq/=.
  rewrite Hh1 in *. done.
Qed.

(** A held lease cannot be taken again. *)
Lemma lock_at_held p w o w' : p ∈ held w -> lock_at p w <> (Returned o, w').
Proof.
  intros Hp Hr. unfold lock_at in Hr. destruct (bind_inv _ _ _ _ _ Hr) as ([] & w1 & Ho & Hr1).
  destruct (bind_inv _ _ _ _ _ Hr1) as ([] & w2 & Hl & _).
  pose proof (op_held _ _ w : held (open_or_create p w).2 = held w) as Hh1. rewrite Ho in Hh1. simpl in Hh1.
  unfold try_lock in Hl. by rewrite decide_True in Hl by (by rewrite Hh1).
Qed.

Definition lease_paths (dir : path) (s : ReplaySource) : list path := [dir /> lock_name s; dir /> coverage_lock_name s].
Definition all_leases (dir : path) : list path := lease_paths dir ReplaySystem ++ lease_paths dir ReplayMic.

Definition no_source (d : Disk) (dir : path) (s : ReplaySource) : Prop :=
  d !! (dir /> audio_name s) = None /\ d !! (dir /> completion_name s) = None /\ d !! (dir /> sealed_name s) = None.

Lemma settled_apart dir ident s : apart (all_leases dir) (fun d => settled d dir ident s).
Proof.
  intros d d' Hs (h & off & n & c & p & j & k & (c0 & k0 & E0 & ?) & (c1 & k1 & E1 & ?) & ? & (c2 & k2 & E2 & ?) & ? & E3 & ?).
  exists h, off, n, c, p, j, k. split; [|split; [|split; [done|split; [|split; [done|split; [|done]]]]]].
  - exists c0, k0. rewrite Hs; [done|]. destruct s; unfold all_leases, lease_paths; simpl; not_in_paths.
  - exists c1, k1. rewrite Hs; [done|]. destruct s; unfold all_leases, lease_paths; simpl; not_in_paths.
  - exists c2, k2. rewrite Hs; [done|]. destruct s; unfold all_leases, lease_paths; simpl; not_in_paths.
  - rewrite Hs; [done|]. destruct s; unfold all_leases, lease_paths; simpl; not_in_paths.
Qed.

Lemma no_source_apart dir s : apart (all_leases dir) (fun d => no_source d dir s).
Proof.
  intros d d' Hs. unfold no_source. rewrite !Hs; [done|..]; destruct s; unfold all_leases, lease_paths; simpl; not_in_paths.
Qed.

(** The proofs a reader accepted, in terms of the disk. *)
Lemma ends_at_covers d r c k ident s b :
  d !! (fr_dir r /> audio_name s) = Some (NFile c k) -> parse_header c ident s = Ok (fr_header r, fr_offset r) ->
  fr_source r = s -> b_schema b = 1 -> ends_at d r b ->
  fr_offset r <= zlen c /\ covers (fr_header r) (zlen c - fr_offset r) b.
Proof.
  intros Hc Hp Hs Hb (n & (nd & Hn & Hsub) & Hm & E1 & E2 & E3 & E4). subst s.
  assert (Some nd = Some (NFile c k)) as E by (etrans; [symmetry; exact Hn | exact Hc]). injection E as ->. simpl in Hsub. apply checked_sub_inv in Hsub as [Hle ->]. split; [done|]. unfold covers, fr_first, fr_source in *.
  unfold checked_add64 in E4. destruct (Z.leb_spec (rp_first_sample (fr_header r) + (zlen c - fr_offset r) / 2) u64_max) as [Hx|]; [|done].
  apply Some_inj in E4. rewrite <-E4. done.
Qed.

Lemma guard_source_run dir ident s w ls w' :
  honest w -> guard_source dir ident s w = (Returned (Some ls), w') ->
  honest w' /\ same_except (lease_paths dir s) (disk w) (disk w') /\ held w ⊆ held w' /\
  (no_source (disk w') dir s \/
   settled (disk w') dir ident s /\ ls = lease_paths dir s /\ (forall p, p ∈ lease_paths dir s -> p ∈ held w')).
Proof.
  intros Hw Hr. unfold guard_source in Hr. destruct (bind_inv _ _ _ _ _ Hr) as ([|] & w1 & Hex & Hr1); simpl in Hr1.
  - destruct (sees_run _ _ _ _ _ (observes_try_exists _) Hw Hex) as [_ (Hd1 & Hh1 & Hw1)].
    destruct (bind_inv _ _ _ _ _ Hr1) as ([o|e] & w2 & Hl & Hr2); last first.
    { destruct (decide (error_kind e = WouldBlock)); by unfold mret, eff_ret, raise in Hr2. }
    apply attempt_ok_inv, (lock_at_run _ _ _ _ Hw1) in Hl as (-> & _ & Hs2 & Hh2 & Hw2).
    apply on_error_inv in Hr2. destruct (bind_inv _ _ _ _ _ Hr2) as ([o|e] & w3 & Hl & Hr3); last first.
    { destruct (decide (error_kind e = WouldBlock)); [|by unfold raise in Hr3].
      destruct (bind_inv _ _ _ _ _ Hr3) as (? & ? & _ & Hx). by unfold mret, eff_ret in Hx. }
    apply attempt_ok_inv, (lock_at_run _ _ _ _ Hw2) in Hl as (-> & _ & Hs3 & Hh3 & Hw3).
    apply on_error_inv in Hr3. destruct (bind_inv _ _ _ _ _ Hr3) as (r & w4 & Ho & Hr4).
    destruct (sees_run _ _ _ _ _ (sees_open_reader dir ident s) Hw3 Ho) as [(c & k & Hc & Hp & Edir & Esrc) (Hd4 & Hh4 & Hw4)].
    destruct (bind_inv _ _ _ _ _ Hr4) as (cm & w5 & Hcm & Hr5).
    destruct (sees_run _ _ _ _ _ (sees_is_complete r) Hw4 Hcm) as [_ (Hd5 & Hh5 & Hw5)].
    destruct (bind_inv _ _ _ _ _ Hr5) as (pj & w6 & Hpj & Hr6).
    destruct cm; simpl in Hpj; [|unfold mret, eff_ret in Hpj; simplify_eq/=; by destruct (bind_inv _ _ _ _ _ Hr6) as (? & ? & _ & Hx)].
    destruct (sees_run _ _ _ _ _ (sees_is_projected r) Hw5 Hpj) as [Hset (Hd6 & Hh6 & Hw6)].
    destruct pj; simpl in Hr6; [|by destruct (bind_inv _ _ _ _ _ Hr6) as (? & ? & _ & Hx)].
    unfold mret, eff_ret in Hr6. injection Hr6 as <- ->.
    assert (disk w' = disk w3) as Ed by congruence. assert (held w' = held w3) as Eh by congruence.
    split; [done|]. split; [|split].
    { rewrite Ed. etrans; [eapply same_except_mono; [|rewrite <-Hd1; exact Hs2]; set_solver|].
      eapply same_except_mono; [|exact Hs3]. set_solver. }
    { rewrite Eh, Hh3, Hh2, Hh1. set_solver. }
    right. split; [|split; [done|]].
    + destruct (Hset eq_refl) as [(b & Hb & Hb1 & Hbe) (proof & j & kj & Hpr & Hp1 & Hpe & Hj & Hjl)].
      rewrite Esrc, Edir in *. rewrite <-Ed in Hc. rewrite Hd5, Hd4, <-Ed in Hb, Hbe, Hpr, Hpe, Hj.
      rewrite <-Edir in Hc. destruct (ends_at_covers _ _ _ _ _ _ _ Hc Hp Esrc Hb1 Hbe) as [Hle Hcb].
      destruct (ends_at_covers _ _ _ _ _ _ _ Hc Hp Esrc Hp1 Hpe) as [_ Hcp]. rewrite Edir in Hc.
      exists (fr_header r), (fr_offset r), (zlen c - fr_offset r), b, proof, j, kj. split; [by exists c, k|]. done.
    + rewrite Eh, Hh3, Hh2. unfold lease_paths. set_solver.
  - destruct (sees_run _ _ _ _ _ (observes_try_exists _) Hw Hex) as [Hno (Hd1 & Hh1 & Hw1)]. simpl in Hno.
    destruct (bind_inv _ _ _ _ _ Hr1) as (c & w2 & Hc & Hr2).
    destruct (sees_run _ _ _ _ _ (observes_try_exists _) Hw1 Hc) as [Hnc (Hd2 & Hh2 & Hw2)].
    destruct (bind_inv _ _ _ _ _ Hr2) as (b & w3 & Hb & Hr3).
    destruct (bind_inv _ _ _ _ _ Hr3) as ([] & w4 & Hg & Hr4). apply guard_inv in Hg as [Hg ->]. apply negb_true_iff in Hg.
    subst b. unfold mret, eff_ret in Hr4. injection Hr4 as <- ->. destruct c; simpl in Hb; [by unfold mret, eff_ret in Hb|].
    destruct (sees_run _ _ _ _ _ (observes_try_exists _) Hw2 Hb) as [Hns (Hd3 & Hh3 & Hw3)].
    assert (disk w' = disk w) as Ed by congruence. rewrite Ed.
    split; [done|]. split; [done|]. split; [by rewrite Hh3, Hh2, Hh1|]. left. split; [done|].
    rewrite <-Hd1 at 1. split; [done|]. by rewrite <-Hd1, <-Hd2.
Qed.

Lemma retirement_guard_run dir ident w owners w' :
  honest w -> retirement_guard dir ident w = (Returned (Some owners), w') ->
  honest w' /\ forall s, no_source (disk w') dir s \/
    settled (disk w') dir ident s /\ (forall p, p ∈ lease_paths dir s -> p ∈ owners /\ p ∈ held w') /\
    (forall w2 f w3, held w' ⊆ held w2 -> replay_resume dir ident s w2 <> (Returned f, w3)).
Proof.
  intros Hw Hr. unfold retirement_guard in Hr. simpl in Hr.
  destruct (bind_inv _ _ _ _ _ Hr) as ([ls1|] & w1 & H1r & Hr1);
    [|by destruct (bind_inv _ _ _ _ _ Hr1) as (? & ? & _ & Hx)].
  apply on_error_inv, (guard_source_run _ _ _ _ _ _ Hw) in H1r as (Hw1 & Hs1 & Hh1 & Hc1).
  destruct (bind_inv _ _ _ _ _ Hr1) as ([ls2|] & w2 & H2r & Hr2);
    [|by destruct (bind_inv _ _ _ _ _ Hr2) as (? & ? & _ & Hx)].
  apply on_error_inv, (guard_source_run _ _ _ _ _ _ Hw1) in H2r as (Hw2 & Hs2 & Hh2 & Hc2).
  unfold mret, eff_ret in Hr2. injection Hr2 as <- <-.
  assert (Hsub : same_except (all_leases dir) (disk w1) (disk w2)).
  { eapply same_except_mono; [|exact Hs2]. unfold all_leases. set_solver. }
  assert (Hshut : forall s, (forall p, p ∈ lease_paths dir s -> p ∈ held w2) ->
            forall w3 f w4, held w2 ⊆ held w3 -> replay_resume dir ident s w3 <> (Returned f, w4)).
  { intros s Hheld w3 f w4 Hsup Hres. unfold replay_resume, resume_validated in Hres.
    destruct (bind_inv _ _ _ _ _ Hres) as (o & w5 & Hl & _). eapply lock_at_held; [|exact Hl].
    apply Hsup, Hheld. unfold lease_paths. set_solver. }
  split; [done|]. intros [|].
  - destruct Hc1 as [Hn|(Hset & -> & Hheld)]; [left; by eapply no_source_apart|]. right.
    split; [by eapply settled_apart|]. split; [set_solver|]. apply Hshut. set_solver.
  - destruct Hc2 as [Hn|(Hset & -> & Hheld)]; [by left|]. right. split; [done|]. split; [set_solver|]. by apply Hshut.
Qed.

(** C7: Retirement needs settled sources.  The guard a session directory is
    retired under is given only if each capture leg either has no canonical audio,
    nor a proof that there was any, or is transcribed and projected to its end: a
    completion and a projection proof on disk, of this session and this leg, name
    exactly the last whole sample of the file, no half-sample follows it, and the
    journal has exactly the bytes that were projected.  Both leases of such a leg
    are then held, so that no writer can be resumed there and no second guard
    given. *)
Theorem retirement_needs_settled_sources dir ident w owners w' :
  honest w -> retirement_guard dir ident w = (Returned (Some owners), w') ->
  forall s, no_source (disk w') dir s \/
    settled (disk w') dir ident s /\ (forall p, p ∈ lease_paths dir s -> p ∈ owners /\ p ∈ held w') /\
    (forall w2 f w3, held w' ⊆ held w2 -> replay_resume dir ident s w2 <> (Returned f, w3)).
Proof. intros Hw Hr. by eapply retirement_guard_run. Qed.

(** ** Appending *)

(** How a step of the writer ends: poisoned exactly when it failed. *)
Definition ended {A} (f : FileWriter) (o : Outcome IoErr A) (f' : FileWriter) : Prop :=
  match o with Raised _ => f' = poison f | _ => f' = f end.

Lemma poisoning_run {A} (m : IO IoErr A) f w :
  match m w, poisoning m (f, w) with (o, w1), (o', (f', w2)) => o' = o /\ w2 = w1 /\ ended f o f' end.
Proof. unfold poisoning. by destruct (m w) as [[a|e|] w1]. Qed.

Lemma drop_proof_run p dir f w : honest w ->
  match drop_proof p dir (f, w) with
  | (o, (f', w')) => honest w' /\ same_except [p] (disk w) (disk w') /\ ended f o f' /\
                     (o = Returned tt -> disk w' !! p = None)
  end.
Proof.
  intros Hw. destruct (remove_file_run p w Hw) as [Hh Hr]. unfold drop_proof, mbind, eff_bind, attempt, lift.
  destruct (remove_file p w) as [[[]|e|] w1]; simpl in Hh.
  - pose proof (poisoning_run (sync_directory dir) f w1) as Hp.
    destruct (observes_sync_directory dir w1 Hh) as (Hd & _ & Hh' & _).
    destruct (sync_directory dir w1) as [o w2]. destruct (poisoning (sync_directory dir) (f, w1)) as [o' [f' w3]].
    destruct Hp as (-> & -> & He). simpl in *. rewrite Hd, Hr. split; [done|]. split; [apply same_except_delete|].
    split; [done|]. intros _. by rewrite lookup_delete_eq.
  - destruct Hr as [Hd Ha]. destruct (decide (error_kind e = NotFound)) as [Hk|Hk]; simpl; rewrite Hd; [|done].
    split; [done|]. split; [done|]. split; [done|]. intros _. by apply Ha.
  - by rewrite Hr.
Qed.

(** The bytes that reached the file, and how it ended. *)
Lemma write_file_run p bs w c k : honest w -> disk w !! p = Some (NFile c k) ->
  match write_file p bs w with
  | (o, w') => honest w' /\ same_except [p] (disk w) (disk w') /\
               exists n, disk w' !! p = Some (NFile (c ++ take n bs) k) /\ (o = Returned tt -> (length bs <= n)%nat)
  end.
Proof.
  intros Hw Hp. pose proof (op_honest _ _ w Hw : honest (write_file p bs w).2) as Hh.
  pose proof (write_file_touches p bs w) as Ht.
  pose proof (write_file_triple (fun _ => True) p bs c k ltac:(done) w (conj Hp I)) as Htr.
  destruct (write_file p bs w) as [[[]|e|] w']; simpl in *; (split; [done|]); (split; [done|]).
  - exists (length bs). rewrite take_ge by done. destruct Htr. done.
  - destruct Htr as (n & ? & _). exists n. done.
  - destruct Htr as (n & ? & _). exists n. done.
Qed.

Lemma take_min_length n (l : bytes) : take (min n (length l)) l = take n l.
Proof. destruct (decide (n <= length l)%nat); [by rewrite Nat.min_l by lia | rewrite Nat.min_r, !take_ge by lia; done]. Qed.

Lemma append_chunks_run rounds p pcm f w c k : (length pcm <= rounds)%nat -> honest w -> disk w !! p = Some (NFile c k) ->
  match append_chunks rounds p pcm (f, w) with
  | (o, (f', w')) => honest w' /\ same_except [p] (disk w) (disk w') /\ ended f o f' /\
      exists n, disk w' !! p = Some (NFile (c ++ take n (bytes_of_samples pcm)) k) /\
                (o = Returned tt -> (length (bytes_of_samples pcm) <= n)%nat)
  end.
Proof.
  revert pcm w c. induction rounds as [|rounds IH]; intros pcm w c Hl Hw Hp.
  { destruct pcm; [|simpl in Hl; lia]. simpl. split; [done|]. split; [done|]. split; [done|]. exists 0%nat. by rewrite app_nil_r. }
  destruct pcm as [|x pcm']; [simpl; split; [done|]; split; [done|]; split; [done|]; exists 0%nat; by rewrite app_nil_r|].
  set (pcm := x :: pcm') in *. cbn [append_chunks]. change (match pcm with [] => _ | _ :: _ => ?a end) with a.
  assert (Hsplit : bytes_of_samples pcm = bytes_of_samples (take 1024 pcm) ++ bytes_of_samples (drop 1024 pcm)).
  { rewrite <-bytes_of_samples_app. by rewrite take_drop. }
  unfold mbind, eff_bind. pose proof (write_file_run p (bytes_of_samples (take 1024 pcm)) w c k Hw Hp) as Hwr.
  pose proof (poisoning_run (write_file p (bytes_of_samples (take 1024 pcm))) f w) as Hpo.
  destruct (write_file p (bytes_of_samples (take 1024 pcm)) w) as [o w1].
  destruct (poisoning _ (f, w)) as [o' [f1 w1']]. destruct Hpo as (-> & -> & He).
  destruct Hwr as (Hh1 & Hs1 & n & Hf1 & Hn).
  destruct o as [[]|e|]; simpl in He.
  - subst f1. rewrite take_ge in Hf1 by (by apply Hn).
    specialize (IH (drop 1024 pcm) w1 (c ++ bytes_of_samples (take 1024 pcm))).
    assert (length (drop 1024 pcm) <= rounds)%nat by (rewrite length_drop; unfold pcm in *; simpl in *; lia).
    specialize (IH ltac:(done) Hh1 Hf1). destruct (append_chunks rounds p (drop 1024 pcm) (f, w1)) as [o2 [f2 w2]].
    destruct IH as (Hh2 & Hs2 & He2 & m & Hf2 & Hm). split; [done|]. split; [by etrans|]. split; [done|].
    exists (length (bytes_of_samples (take 1024 pcm)) + m)%nat. rewrite Hsplit, take_app_add, app_assoc. split; [done|].
    intros Ho. specialize (Hm Ho). rewrite length_app. lia.
  - split; [done|]. split; [done|]. split; [done|]. exists (min n (length (bytes_of_samples (take 1024 pcm)))).
    rewrite Hsplit, take_app_le, take_min_length by lia. done.
  - split; [done|]. split; [done|]. split; [done|]. exists (min n (length (bytes_of_samples (take 1024 pcm)))).
    rewrite Hsplit, take_app_le, take_min_length by lia. done.
Qed.

(** The guards of an append, and what is left of it. *)
Definition may_append (f : FileWriter) : bool := negb (fw_failed f || fw_sealed f || fw_prefix_only f).

Definition append_tail (f : FileWriter) (next : Z) (pcm : list Z) : Eff (FileWriter * World) IoErr unit :=
  _ ← drop_proof (fw_dir f /> completion_name (fw_source f)) (fw_dir f);
  _ ← drop_proof (fw_dir f /> projected_name (fw_source f)) (fw_dir f);
  _ ← append_chunks (length pcm) (fw_path f) pcm;
  f ← get_self;
  set_self (advance f next).

Lemma append_run_cases pcm f w :
  (exists e, append pcm (f, w) = (Raised e, (f, w)) /\ (may_append f = false \/ u64_max < fw_end f + zlen pcm)) \/
  (may_append f = true /\ pcm = [] /\ append pcm (f, w) = (Returned tt, (f, w))) \/
  (may_append f = true /\ pcm <> [] /\ append pcm (f, w) = append_tail f (fw_end f + zlen pcm) pcm (f, w)).
Proof.
  unfold append, healthy, may_append. destruct (fw_failed f) eqn:Hf.
  { left. eexists. unfold mbind, eff_bind, get_self. simpl. rewrite Hf. simpl. by auto. }
  erewrite bind_returned; [|by rewrite bind_get_self, Hf]. rewrite bind_get_self.
  change (false || fw_sealed f) with (fw_sealed f). destruct (fw_sealed f || fw_prefix_only f) eqn:Hs; simpl.
  { left. eexists. split; [reflexivity | by left]. }
  destruct (decide (pcm = [])) as [->|Hne]; [by right; left|].
  erewrite bind_returned; [|reflexivity]. rewrite bool_decide_eq_false_2 by done.
  unfold checked_add64. destruct (Z.leb_spec (fw_end f + zlen pcm) u64_max); simpl.
  - right. right. split; [done|]. split; [done|]. reflexivity.
  - left. eexists. split; [reflexivity | by right].
Qed.

(** C28: An append never leaves a stale proof.  However an append ends, the file
    holds what it held and a prefix of the new samples; if any byte of them is
    there, the completion and projection proofs are gone.  A returned append has
    written them all and advanced the clock; a failed one either changed nothing or
    poisoned its writer; and a sealed, poisoned or prefix-only writer is refused
    without a change. *)
Theorem append_never_leaves_a_stale_proof pcm f w o f' w' c k :
  honest w -> disk w !! fw_path f = Some (NFile c k) -> append pcm (f, w) = (o, (f', w')) ->
  (exists n,
    disk w' !! fw_path f = Some (NFile (c ++ take n (bytes_of_samples pcm)) k) /\
    (n = 0%nat \/ disk w' !! (fw_dir f /> completion_name (fw_source f)) = None /\
                disk w' !! (fw_dir f /> projected_name (fw_source f)) = None) /\
    (o = Returned tt -> (length (bytes_of_samples pcm) <= n)%nat /\ fw_end f' = fw_end f + zlen pcm)) /\
  (forall e, o = Raised e -> f' = poison f \/ f' = f /\ w' = w) /\
  (may_append f = false -> exists e, o = Raised e /\ f' = f /\ w' = w).
Proof.
  intros Hw Hp Hr.
  destruct (append_run_cases pcm f w) as [(e & E & _)|[(Hm & -> & E)|(Hm & Hne & E)]]; rewrite E in Hr.
  - injection Hr as <- <- <-. split; [|split; [by right | by eauto]].
    exists 0%nat. rewrite app_nil_r. split; [done|]. split; [by left | done].
  - injection Hr as <- <- <-. rewrite Hm. split; [|done].
    exists 0%nat. rewrite app_nil_r. split; [done|]. split; [by left|]. intros _. simpl. split; [done | unfold zlen; simpl; lia].
  - rewrite Hm. unfold append_tail, mbind, eff_bind in Hr.
    pose proof (drop_proof_run (fw_dir f /> completion_name (fw_source f)) (fw_dir f) f w Hw) as H1d.
    destruct (drop_proof (fw_dir f /> completion_name (fw_source f)) (fw_dir f) (f, w)) as [o1 [f1 w1]].
    destruct H1d as (Hw1 & Hs1 & He1 & Hn1).
    assert (Hne1 : fw_path f ∉ [fw_dir f /> completion_name (fw_source f)]) by (unfold fw_path; destruct (fw_source f); not_in_paths).
    assert (Hne2 : fw_path f ∉ [fw_dir f /> projected_name (fw_source f)]) by (unfold fw_path; destruct (fw_source f); not_in_paths).
    assert (Hquiet : forall w2, disk w2 !! fw_path f = Some (NFile c k) -> exists n,
      disk w2 !! fw_path f = Some (NFile (c ++ take n (bytes_of_samples pcm)) k) /\ n = 0%nat).
    { intros w2 Hx. exists 0%nat. by rewrite app_nil_r. }
    assert (Hp1 : disk w1 !! fw_path f = Some (NFile c k)) by (by rewrite Hs1).
    destruct o1 as [[]|e1|]; simpl in He1;
      [|simplify_eq; destruct (Hquiet _ Hp1) as (n & ? & ->); split; [exists 0%nat; split; [done | split; [by left | done]] | split; [by intros; left | done]]..].
    subst f1. specialize (Hn1 eq_refl).
    pose proof (drop_proof_run (fw_dir f /> projected_name (fw_source f)) (fw_dir f) f w1 Hw1) as H2d.
    destruct (drop_proof (fw_dir f /> projected_name (fw_source f)) (fw_dir f) (f, w1)) as [o2 [f2 w2]].
    destruct H2d as (Hw2 & Hs2 & He2 & Hn2).
    assert (Hp2 : disk w2 !! fw_path f = Some (NFile c k)) by (by rewrite Hs2).
    destruct o2 as [[]|e2|]; simpl in He2;
      [|simplify_eq; destruct (Hquiet _ Hp2) as (n & ? & ->); split; [exists 0%nat; split; [done | split; [by left | done]] | split; [by intros; left | done]]..].
    subst f2. specialize (Hn2 eq_refl).
    pose proof (append_chunks_run (length pcm) (fw_path f) pcm f w2 c k ltac:(done) Hw2 Hp2) as H3.
    destruct (append_chunks (length pcm) (fw_path f) pcm (f, w2)) as [o3 [f3 w3]].
    destruct H3 as (Hw3 & Hs3 & He3 & n & Hf3 & Hn3).
    assert (Hgone : disk w3 !! (fw_dir f /> completion_name (fw_source f)) = None /\
                    disk w3 !! (fw_dir f /> projected_name (fw_source f)) = None).
    { rewrite !Hs3 by (unfold fw_path; destruct (fw_source f); not_in_paths). split; [|done].
      rewrite Hs2 by (destruct (fw_source f); not_in_paths). done. }
    destruct o3 as [[]|e3|]; simpl in He3, Hr; subst f3; injection Hr as <- <- <-.
    + split; [|done]. exists n. split; [done|]. split; [by right|]. intros _. split; [by apply Hn3 | done].
    + split; [|split; [by intros; left | done]]. exists n. split; [done|]. split; [by right | done].
    + split; [|done]. exists n. split; [done|]. split; [by right | done].
Qed.

(** ** Sealing *)

(** A marker that was written is there, whole and synced. *)
Lemma write_marker_run {A} `{JsonDoc A} dir name (m : A) w w' :
  (forall ext, dir /> with_extension name ("part-" +:+ ext) <> dir /> name) ->
  write_marker pid dir name m w = (Returned tt, w') -> disk w' !! (dir /> name) = Some (whole_file (doc_put m)).
Proof.
  intros Hne Hr. unfold write_marker in Hr. destruct (bind_inv _ _ _ _ _ Hr) as (n & w1 & _ & Hr1). apply on_error_inv in Hr1.
  destruct (bind_inv _ _ _ _ _ Hr1) as ([] & w2 & Ho & Hr2). set (tmp := dir /> with_extension name _) in *.
  pose proof (open_new_triple (fun _ => True) tmp ltac:(done) w1 I) as Hop. rewrite Ho in Hop. destruct Hop as [Hop _].
  pose proof (put_in_place_triple (fun _ => True) tmp (dir /> name) dir (doc_put m) (disk w2 !! (dir /> name)) (Hne _)
    ltac:(done) w2 (conj Hop (conj eq_refl I))) as Hp.
  change (put_in_place tmp (dir /> name) dir (doc_put m) w2 = (Returned tt, w')) in Hr2. rewrite Hr2 in Hp. apply Hp.
Qed.

Lemma sealed_stage dir s ext : dir /> with_extension (sealed_name s) ("part-" +:+ ext) <> dir /> sealed_name s.
Proof. intros Heq. apply child_inj in Heq. destruct s; discriminate Heq. Qed.

Lemma open_reader_dir dir ident s w r w' : open_reader dir ident s w = (Returned r, w') -> fr_dir r = dir.
Proof.
  unfold open_reader. intros Hr. destruct (bind_inv _ _ _ _ _ Hr) as (? & ? & _ & Hr1).
  destruct (bind_inv _ _ _ _ _ Hr1) as (? & ? & _ & Hr2). destruct (bind_inv _ _ _ _ _ Hr2) as (? & ? & _ & Hr3).
  destruct (bind_inv _ _ _ _ _ Hr3) as (? & ? & _ & Hr4). destruct (bind_inv _ _ _ _ _ Hr4) as ([h off] & ? & _ & Hr5).
  unfold mret, eff_ret in Hr5. by injection Hr5 as <- _.
Qed.

Lemma seal_run f w e f' w' : seal pid (f, w) = (Returned e, (f', w')) ->
  exists n, disk w' !! (fw_dir f /> sealed_name (fw_source f)) = Some (whole_file n).
Proof.
  intros Hr. unfold seal in Hr.
  destruct (bind_inv _ _ _ _ _ Hr) as ([] & [f0 w0] & Hh & Hr0). unfold healthy in Hh. rewrite bind_get_self in Hh.
  apply guard_inv in Hh as [_ Hh]. injection Hh as -> ->.
  rewrite bind_get_self in Hr0. destruct (bind_inv _ _ _ _ _ Hr0) as ([] & [f1 w1] & Hg & Hr1).
  apply guard_inv in Hg as [_ Hg]. injection Hg as -> ->.
  destruct (bind_inv _ _ _ _ _ Hr1) as (r & [f2 w2] & Ho & Hr2).
  destruct (bind_inv _ _ _ _ _ Hr2) as (t & [f3 w3] & _ & Hr3).
  destruct (bind_inv _ _ _ _ _ Hr3) as ([] & [f4 w4] & Hb & Hr4). rewrite bind_get_self, bind_set_self in Hr4.
  unfold mret, eff_ret in Hr4. injection Hr4 as _ _ <-.
  unfold lift in Hb. destruct (write_boundary pid r (fw_end f) (sealed_name (fw_source f)) w3) as [[[]|e'|] w5] eqn:Hwb; [|done..].
  injection Hb as _ <-. unfold write_boundary in Hwb. destruct (bind_inv _ _ _ _ _ Hwb) as (b & w6 & _ & Hm).
  assert (fr_dir r = fw_dir f) as Ed.
  { unfold lift in Ho. destruct (open_reader (fw_dir f) (fw_session f) (fw_source f) w) as [[r'|?|] w7] eqn:Hop; [|done..].
    injection Ho as -> _ _. by eapply open_reader_dir. }
  rewrite Ed in Hm. exists (doc_put b). eapply write_marker_run; [|exact Hm]. intros ext. apply sealed_stage.
Qed.

Lemma present_after_restart w w' p n : restarted w w' -> disk w !! p = Some n -> is_Some (disk w' !! p).
Proof.
  intros [Hd|Hc] Hp; [by rewrite Hd, Hp|]. specialize (Hc p). rewrite Hp in Hc. inversion Hc. by eexists.
Qed.

(** A seal is final.  Once [seal] has returned, any later owner of the source,
    after a crash and a power cut too, is one that cannot append: it comes up
    sealed, or does not come up at all because the input no longer matches. *)
Theorem seal_is_final f w e f' w' w2 ident f2 w3 :
  seal pid (f, w) = (Returned e, (f', w')) -> restarted w' w2 -> honest w2 ->
  replay_resume (fw_dir f) ident (fw_source f) w2 = (Returned f2, w3) ->
  fw_sealed f2 = true /\ may_append f2 = false /\
  forall pcm, exists err, append pcm (f2, w3) = (Raised err, (f2, w3)).
Proof.
  intros Hs Hre Hw2 Hr. destruct (seal_run _ _ _ _ _ Hs) as [m Hm].
  assert (Hthere : is_Some (disk w2 !! (fw_dir f /> sealed_name (fw_source f)))) by (by eapply present_after_restart).
  assert (Hseal : fw_sealed f2 = true).
  { unfold replay_resume, resume_validated in Hr. destruct (bind_inv _ _ _ _ _ Hr) as (o & w4 & Hl & Hr1).
    apply (lock_at_run _ _ _ _ Hw2) in Hl as (_ & _ & Hsl & _ & Hw4). apply on_error_inv in Hr1.
    destruct (bind_inv _ _ _ _ _ Hr1) as (r & w5 & Ho & Hr2).
    destruct (sees_run _ _ _ _ _ (sees_open_reader _ _ _) Hw4 Ho) as [(_ & _ & _ & _ & Edir & Esrc) (Hd5 & _ & Hw5)].
    destruct (bind_inv _ _ _ _ _ Hr2) as ([] & w6 & Hv & Hr3). unfold mret, eff_ret in Hv. injection Hv as <-.
    destruct (bind_inv _ _ _ _ _ Hr3) as (t & w7 & Hse & Hr4).
    destruct (sees_run _ _ _ _ _ (sees_sealed_end r) Hw5 Hse) as [Hend _].
    destruct t as [t|].
    - repeat match type of Hr4 with (mbind _ _) _ = _ => destruct (bind_inv _ _ _ _ _ Hr4) as (? & ? & _ & Hr5); clear Hr4; rename Hr5 into Hr4 end.
      unfold mret, eff_ret in Hr4. by injection Hr4 as <- _.
    - rewrite Edir, Esrc, Hd5, Hsl in Hend by (destruct (fw_source f); not_in_paths). destruct Hthere as [x Hx].
      assert (Some x = None) as Ex by (etrans; [symmetry; exact Hx | exact Hend]). discriminate Ex. }
  split; [done|]. assert (Hno : may_append f2 = false) by (unfold may_append; rewrite Hseal; by destruct (fw_failed f2)).
  split; [done|]. intros pcm. destruct (append_run_cases pcm f2 w3) as [(err & E & _)|[(Hm' & _)|(Hm' & _)]]; [by exists err|congruence..].
Qed.

End Proofs.

(** ** A source that is written, sealed, transcribed and retired *)

Module SettledSource.

#[local] Existing Instances ReplayCodec.header_doc ReplayCodec.completion_doc ReplayCodec.projection_doc ReplayCodec.prefix_doc.

Definition dir : path := ["sessions"; "s1"].
Definition fresh : World :=
  mkWorld {[ ["sessions"] := NDir; dir := NDir; (dir /> "system.stt-coverage.jsonl") := NFile [123; 125; 10] 3 ]} ∅ [] [] [] 0.

(** A writer's method in a plain computation. *)
Definition with_writer {A} (f : FileWriter) (m : Eff (FileWriter * World) IoErr A) : IO IoErr (A * FileWriter) := fun w =>
  match m (f, w) with
  | (Returned a, (f', w')) => (Returned (a, f'), w')
  | (Raised e, (_, w')) => (Raised e, w')
  | (Killed, (_, w')) => (Killed, w')
  end.

Definition record : IO IoErr FileWriter :=
  f ← replay_create dir "s1" ReplaySystem 0;
  '(_, f) ← with_writer f (append [5; -5; 7]);
  mret f.

Definition transcribe (f : FileWriter) : IO IoErr unit :=
  '(_, f) ← with_writer f (seal 9);
  _ ← unlock (fw_owner f);
  r ← open_reader dir "s1" ReplaySystem;
  _ ← mark_complete 9 r 3;
  mark_projected 9 r 3 3.

(** The world a computation that returned leaves. *)
Definition returned {E A} (r : Outcome E A * World) : option (A * World) :=
  match r with (Returned a, w) => Some (a, w) | _ => None end.

Lemma returned_inv {E A} (m : IO E A) w (P : A -> World -> bool) :
  match returned (m w) with Some (a, w') => P a w' | None => false end = true ->
  exists a w', m w = (Returned a, w') /\ P a w' = true.
Proof. destruct (m w) as [[a|e|] w']; [|done..]. by exists a, w'. Qed.

Definition is_calm (w : World) : bool := match fates w with [] => true | _ => false end.
Lemma is_calm_honest w : is_calm w = true -> honest w.
Proof. unfold is_calm. destruct (fates w) eqn:Hf; [|done]. intros _. by apply honest_calm. Qed.

Lemma retirement_needs_settled_sources_witness :
  exists w owners w', retirement_guard dir "s1" w = (Returned (Some owners), w') /\
    (no_source (disk w') dir ReplaySystem \/ settled (disk w') dir "s1" ReplaySystem).
Proof.
  destruct (returned_inv (_ ← record ≫= transcribe; w ← (fun w => (Returned w, w)); g ← retirement_guard dir "s1"; mret (w, g)) fresh
    (fun '(w, g) _ => is_calm w && is_some g)) as ([w g] & w' & Hr & Hok).
  { vm_compute; reflexivity. }
  destruct (bind_inv _ _ _ _ _ Hr) as (? & w1 & _ & Hr1). destruct (bind_inv _ _ _ _ _ Hr1) as (w2 & w3 & Hw & Hr2).
  destruct (bind_inv _ _ _ _ _ Hr2) as (g' & w4 & Hg & Hr3). unfold mret, eff_ret in Hr3. injection Hr3 as <- <- <-.
  injection Hw as <- <-. apply andb_true_iff in Hok as [Hc Hs]. destruct g' as [owners|]; [|discriminate Hs].
  exists w1, owners, w4. split; [exact Hg|].
  destruct (retirement_needs_settled_sources dir "s1" w1 owners w4 (is_calm_honest w1 Hc) Hg ReplaySystem) as [Hn|[Hset _]];
    [left; exact Hn | right; exact Hset].
Defined.

Lemma append_never_leaves_a_stale_proof_witness :
  exists f w o f' w' c k, append [8; 9] (f, w) = (o, (f', w')) /\ disk w !! fw_path f = Some (NFile c k) /\
    exists n, disk w' !! fw_path f = Some (NFile (c ++ take n (bytes_of_samples [8; 9])) k).
Proof.
  destruct (returned_inv record fresh
    (fun f w => is_calm w && match disk w !! fw_path f with Some (NFile _ _) => true | _ => false end)) as (f & w & Hr & Hok).
  { vm_compute; reflexivity. }
  apply andb_true_iff in Hok as [Hc Hf]. destruct (disk w !! fw_path f) as [[c k| |]|] eqn:Hp; [|discriminate Hf..].
  destruct (append [8; 9] (f, w)) as [o [f' w']] eqn:Ha.
  destruct (append_never_leaves_a_stale_proof [8; 9] f w o f' w' c k (is_calm_honest w Hc) Hp Ha) as [(n & Hn & _) _].
  exists f, w, o, f', w', c, k. exact (conj Ha (conj Hp (ex_intro _ n Hn))).
Defined.

Lemma with_writer_inv {A} f (m : Eff (FileWriter * World) IoErr A) w a f' w' :
  with_writer f m w = (Returned (a, f'), w') -> m (f, w) = (Returned a, (f', w')).
Proof. unfold with_writer. destruct (m (f, w)) as [[b|e|] [f1 w1]]; [|done..]. by intros [= -> -> ->]. Qed.

Lemma seal_is_final_witness :
  exists f w e f' w' w2 f2 w3, seal 9 (f, w) = (Returned e, (f', w')) /\ disk w2 = disk w' /\
    replay_resume (fw_dir f) "s1" (fw_source f) w2 = (Returned f2, w3) /\ fw_sealed f2 = true.
Proof.
  destruct (returned_inv (f ← record; '(_, g) ← with_writer f (seal 9); _ ← unlock (fw_owner f);
      w ← (fun w => (Returned w, w)); _ ← replay_resume (fw_dir f) "s1" (fw_source f); mret w) fresh
    (fun w _ => is_calm w)) as (wc & w3 & Hr & Hok).
  { vm_compute; reflexivity. }
  destruct (bind_inv _ _ _ _ _ Hr) as (f & w & _ & Hr1). destruct (bind_inv _ _ _ _ _ Hr1) as ([e f'] & w' & Hs & Hr2).
  destruct (bind_inv _ _ _ _ _ Hr2) as ([] & w2 & Hu & Hr3). destruct (bind_inv _ _ _ _ _ Hr3) as (w2' & w2'' & Hg & Hr4).
  injection Hg as <- <-. destruct (bind_inv _ _ _ _ _ Hr4) as (f2 & w4 & Hres & Hr5).
  unfold mret, eff_ret in Hr5. injection Hr5 as <- <-. apply with_writer_inv in Hs.
  assert (Hd : disk w2 = disk w') by (unfold unlock in Hu; by injection Hu as <-).
  exists f, w, e, f', w', w2, f2, w4. split; [exact Hs|]. split; [exact Hd|]. split; [exact Hres|].
  apply (seal_is_final 9 f w e f' w' w2 "s1" f2 w4 Hs (or_introl Hd) (is_calm_honest w2 Hok) Hres).
Defined.

End SettledSource.
