(* ===== verification/Dsp.v ===== *)
(** * Rate conversion

    [fotw-dsp/src/archive.rs] and [resample.rs]: the converter that turns captured
    audio into a track's archive format, the policy that wraps it on the capture
    side, the 16 kHz resampler and the downmixer.  The FFT filter is the [rubato]
    crate, the class [Rubato]; what is relied on of it is [RubatoLaws].  The loops
    that drain a filter are bounded by fuel, and answer [None] when it runs out. *)

From S2P Require Import Prelude Bytes Float32 Float64.

Local Open Scope Z_scope.

(** ** Floats *)

Definition f32_add : f32 -> f32 -> f32 := SpecFloat.SFadd f32_prec f32_emax.
Definition f32_div : f32 -> f32 -> f32 := SpecFloat.SFdiv f32_prec f32_emax.
Definition f32_neg_zero : f32 := SpecFloat.S754_zero true.

(** [f64::from(x)], exact, and [x as f32], to nearest even. *)
Definition f64_of_f32 (x : f32) : f64 :=
  match x with
  | SpecFloat.S754_finite s m e =>
      SpecFloat.binary_normalize f64_prec f64_emax (if s then Zneg m else Zpos m) e s
  | x => x
  end.
Definition f64_as_f32 (x : f64) : f32 :=
  match x with
  | SpecFloat.S754_finite s m e =>
      SpecFloat.binary_normalize f32_prec f32_emax (if s then Zneg m else Zpos m) e s
  | x => x
  end.

(** [iter().sum()] starts from negative zero. *)
Definition f32_sum (xs : list f32) : f32 := foldl f32_add f32_neg_zero xs.
Definition f64_sum (xs : list f64) : f64 := foldl f64_add (SpecFloat.S754_zero true) xs.

(** [chunks_exact(n)]. *)
Fixpoint chunks_go {A} (rounds : nat) (n : nat) (xs : list A) : list (list A) :=
  match rounds with
  | O => []
  | S rounds => if (length xs <? n)%nat then [] else take n xs :: chunks_go rounds n (drop n xs)
  end.
Definition chunks_exact {A} (n : nat) (xs : list A) : list (list A) :=
  match n with O => [] | S _ => chunks_go (length xs) n xs end.

(** ** The filter *)

Inductive ResampleError := BadRate (rate : Z) | BadChannels (n : Z) | Backend (message : string).

Class Rubato := {
  Fft : Type;
  fft_new : Z -> Z -> Z -> Z -> result Fft string;    (* rates, output chunk, channels; [FixedSync::Output] *)
  output_delay : Fft -> Z;
  fft_size_in : Fft -> Z;
  fft_size_out : Fft -> Z;
  input_frames_next : Fft -> Z;
  fft_process : Fft -> list f32 -> result (list f32) string * Fft;
}.

(** What the converters rely on.  A filter between two rates, asked for the frames
    it wants, answers with exactly one output chunk; one that wants none is emptying
    a buffer; and it is never ahead of its input. *)
Class RubatoLaws `{Rubato} := {
  fft_state : Fft -> Z * Z -> Z -> Z -> Z -> Z -> Prop;   (* rates, chunk, channels, frames fed, frames made *)
  fft_buffered : Fft -> nat;
  fft_new_state i o chunk ch f : fft_new i o chunk ch = Ok f -> fft_state f (i, o) chunk ch 0 0 /\ 0 <= output_delay f;
  fft_needs f rs chunk ch fed made : fft_state f rs chunk ch fed made -> 0 <= input_frames_next f;
  fft_causal f i o chunk ch fed made : fft_state f (i, o) chunk ch fed made -> made * i <= fed * o;
  fft_chunk f rs chunk ch fed made block :
    fft_state f rs chunk ch fed made -> Z.of_nat (length block) = input_frames_next f * ch ->
    exists out f', fft_process f block = (Ok out, f') /\ Z.of_nat (length out) = chunk * ch /\
      fft_state f' rs chunk ch (fed + input_frames_next f) (made + chunk) /\
      (input_frames_next f = 0 -> (fft_buffered f' < fft_buffered f)%nat);
}.

Section Converter.
Context `{Rubato}.

(** ** [ArchiveConverter] *)

Record ArchiveConverter := mkConverter {
  input_rate : Z;
  input_channels : Z;
  output_rate : Z;
  output_channels : Z;
  filter : option Fft;
  pending : list f32;
  trim_frames : Z;
  input_samples : Z;
  output_frames : Z;
  finished : bool;
}.

Definition set_flow (c : ArchiveConverter) (fl : option Fft) (p : list f32) (trim out : Z) : ArchiveConverter :=
  mkConverter (input_rate c) (input_channels c) (output_rate c) (output_channels c) fl p trim
    (input_samples c) out (finished c).
Definition set_input (c : ArchiveConverter) (p : list f32) (n : Z) : ArchiveConverter :=
  mkConverter (input_rate c) (input_channels c) (output_rate c) (output_channels c) (filter c) p (trim_frames c)
    n (output_frames c) (finished c).
Definition set_finished (c : ArchiveConverter) : ArchiveConverter :=
  mkConverter (input_rate c) (input_channels c) (output_rate c) (output_channels c) (filter c) [] (trim_frames c)
    (input_samples c) (output_frames c) true.

(** Native-frame coordinate of output frame zero. *)
Record ConversionOrigin := mkOrigin { input_frame_numerator : Z; denominator : Z }.

Definition output_origin (c : ArchiveConverter) : ConversionOrigin :=
  match filter c with
  | None => mkOrigin 0 1
  | Some f =>
      let input := fft_size_in f in
      let output := fft_size_out f in
      let numerator := output_delay f * input - Z.quot input 2 * output in
      let a := Z.gcd numerator output in
      mkOrigin (Z.quot numerator a) (Z.quot output a)
  end.

Definition rate_ok (r : Z) : bool := (4000 <=? r) && (r <=? 768000).
Definition channels_ok (n : Z) : bool := (1 <=? n) && (n <=? 32).

Definition converter_new (in_rate in_ch out_rate out_ch : Z) : result ArchiveConverter ResampleError :=
  if negb (rate_ok in_rate) then Err (BadRate in_rate)
  else if negb (rate_ok out_rate) then Err (BadRate out_rate)
  else if negb (channels_ok in_ch) then Err (BadChannels in_ch)
  else if negb (channels_ok out_ch) then Err (BadChannels out_ch)
  else
    let? fl := if in_rate =? out_rate then Ok None
               else match fft_new in_rate out_rate (out_rate / 100) in_ch with
                    | Ok f => Ok (Some f)
                    | Err e => Err (Backend e)
                    end in
    Ok (mkConverter in_rate in_ch out_rate out_ch fl [] (match fl with Some f => output_delay f | None => 0 end)
          0 0 false).

(** The frames the input so far comes to at the output rate. *)
Definition target_frames (c : ArchiveConverter) : Z :=
  (input_samples c / input_channels c * output_rate c / input_rate c) mod 2 ^ 64.

Definition frames_in (c : ArchiveConverter) (samples : list f32) : Z :=
  Z.of_nat (length samples) / input_channels c.

(** [append]: the channels folded to their mean, or duplicated. *)
Definition fold_frame (c : ArchiveConverter) (frame : list f32) : list f32 :=
  let mean := f64_div (f64_sum (f64_of_f32 <$> frame)) (f64_of_Z (input_channels c)) in
  replicate (Z.to_nat (output_channels c)) (f64_as_f32 mean).

Definition rendered (c : ArchiveConverter) (frames : list f32) : list f32 :=
  if input_channels c =? output_channels c then frames
  else chunks_exact (Z.to_nat (input_channels c)) frames ≫= fold_frame c.

Definition counted (c : ArchiveConverter) (frames : list f32) : Z := wadd (output_frames c) (frames_in c frames).

(** [self.pending.resize(n, 0.0)], which only ever lengthens here. *)
Definition resize_zero (n : nat) (p : list f32) : list f32 := take n p ++ replicate (n - length p) f32_zero.

(** One block through the filter. *)
Definition filter_block (c : ArchiveConverter) (f : Fft) (finishing : bool) : result (ArchiveConverter * list f32) ResampleError :=
  let need := Z.to_nat (input_frames_next f * input_channels c) in
  let p := if (length (pending c) <? need)%nat then resize_zero need (pending c) else pending c in
  match fft_process f (take need p) with
  | (Err e, f') => Err (Backend e)
  | (Ok out, f') =>
      let trim := Z.min (trim_frames c) (frames_in c out) in
      let available := drop (Z.to_nat (trim * input_channels c)) out in
      let n := if finishing
               then Z.to_nat (Z.min (sat_sub (target_frames c) (output_frames c)) (frames_in c available) * input_channels c)
               else length available in
      let frames := take n available in
      Ok (set_flow c (Some f') (drop need p) (trim_frames c - trim) (counted c frames), rendered c frames)
  end.

(** Drain the filter: whole blocks only, or up to the target when finishing. *)
Fixpoint drain (fuel : nat) (c : ArchiveConverter) (finishing : bool)
  : option (result (ArchiveConverter * list f32) ResampleError) :=
  match fuel with
  | O => None
  | S fuel =>
      match filter c with
      | None =>
          let n := (Z.to_nat (frames_in c (pending c)) * Z.to_nat (input_channels c))%nat in
          let frames := take n (pending c) in
          Some (Ok (set_flow c None (drop n (pending c)) (trim_frames c) (counted c frames), rendered c frames))
      | Some f =>
          if finishing && (target_frames c <=? output_frames c) then Some (Ok (c, []))
          else if negb finishing && (Z.of_nat (length (pending c)) <? input_frames_next f * input_channels c)
               then Some (Ok (c, []))
          else match filter_block c f finishing with
          | Err e => Some (Err e)
          | Ok (c', out) =>
              r ← drain fuel c' finishing;
              Some (let? (c2, out2) := r in Ok (c2, out ++ out2))
          end
      end
  end.

Definition converter_process (fuel : nat) (c : ArchiveConverter) (pcm : list f32)
  : option (result (ArchiveConverter * list f32) ResampleError) :=
  if finished c then Some (Err (Backend "archive converter already finished"))
  else if negb (forallb f32_is_finite pcm) then Some (Err (Backend "non-finite capture samples"))
  else match checked_add64 (input_samples c) (Z.of_nat (length pcm)) with
  | None => Some (Err (Backend "archive sample count overflow"))
  | Some n => drain fuel (set_input c (pending c ++ pcm) n) false
  end.

Definition converter_finish (fuel : nat) (c : ArchiveConverter)
  : option (result (ArchiveConverter * list f32) ResampleError) :=
  if finished c then Some (Ok (c, []))
  else if negb (input_samples c mod input_channels c =? 0) then Some (Err (Backend "incomplete final capture frame"))
  else
    r ← drain fuel c true;
    Some (let? (c', out) := r in Ok (set_finished c', out)).

(** A whole recording: its blocks, then the tail. *)
Fixpoint convert_all (fuel : nat) (c : ArchiveConverter) (blocks : list (list f32))
  : option (result (ArchiveConverter * list f32) ResampleError) :=
  match blocks with
  | [] => converter_finish fuel c
  | b :: blocks =>
      r ← converter_process fuel c b;
      match r with
      | Err e => Some (Err e)
      | Ok (c', out) =>
          r2 ← convert_all fuel c' blocks;
          Some (let? (c2, out2) := r2 in Ok (c2, out ++ out2))
      end
  end.

(** ** [CaptureArchive] *)

Record CaptureArchive := mkCapture {
  converter : ArchiveConverter;
  replaced_samples : Z;
  incomplete_samples : Z;
  failure : option string;
}.

Definition capture_new (in_rate in_ch out_rate out_ch : Z) : result CaptureArchive ResampleError :=
  let? c := converter_new in_rate in_ch out_rate out_ch in
  Ok (mkCapture c 0 0 None).

Definition input_format (a : CaptureArchive) : Z * Z := (input_rate (converter a), input_channels (converter a)).

Definition resample_error_text (e : ResampleError) : string :=
  match e with
  | BadRate r => "implausible input sample rate: " +:+ (pretty r +:+ " Hz")
  | BadChannels n => "implausible channel count: " +:+ pretty n
  | Backend m => "resampler failed: " +:+ m
  end.

(** Samples that are not finite, replaced by silence in place. *)
Definition silenced (pcm : list f32) : list f32 := (fun x => if f32_is_finite x then x else f32_zero) <$> pcm.
Definition not_finite (pcm : list f32) : Z := Z.of_nat (length (base.filter (fun x => f32_is_finite x = false) pcm)).

(** The caller's buffer as it is left, and what was converted.  A converter that
    failed is never used again, so how far it had come is left out: after a failure
    the field holds it as it was before the block. *)
Definition capture_process (fuel : nat) (a : CaptureArchive) (pcm : list f32)
  : option (CaptureArchive * list f32 * list f32) :=
  let pcm' := silenced pcm in
  let a := mkCapture (converter a) (sat_add64 (replaced_samples a) (not_finite pcm)) (incomplete_samples a) (failure a) in
  match failure a with
  | Some _ => Some (a, pcm', [])
  | None =>
      r ← converter_process fuel (converter a) pcm';
      Some match r with
           | Ok (c, out) => (mkCapture c (replaced_samples a) (incomplete_samples a) None, pcm', out)
           | Err e => (mkCapture (converter a) (replaced_samples a) (incomplete_samples a) (Some (resample_error_text e)), pcm', [])
           end
  end.

Definition capture_finish (fuel : nat) (a : CaptureArchive) : option (CaptureArchive * list f32) :=
  match failure a with
  | Some _ => Some (a, [])
  | None =>
      let c := converter a in
      let partial := input_samples c mod input_channels c in
      let '(c, inc) :=
        if 0 <? partial
        then (set_input c (take (length (pending c) - Z.to_nat partial) (pending c)) (input_samples c - partial),
              wadd (incomplete_samples a) partial)
        else (c, incomplete_samples a) in
      r ← converter_finish fuel c;
      Some match r with
           | Ok (c', out) => (mkCapture c' (replaced_samples a) inc None, out)
           | Err e => (mkCapture c (replaced_samples a) inc (Some (resample_error_text e)), [])
           end
  end.

Definition capture_warnings (a : CaptureArchive) : list string :=
  (if 0 <? replaced_samples a
   then [pretty (replaced_samples a) +:+ " non-finite capture samples replaced with silence"] else [])
  ++ (if 0 <? incomplete_samples a
      then [pretty (incomplete_samples a) +:+ " samples discarded from an incomplete final capture frame"] else [])
  ++ match failure a with
     | Some e => ["archive conversion stopped for this capture generation: " +:+ (e +:+ "; some audio is missing")]
     | None => []
     end.

(** ** [Resampler16k] and [Downmixer] *)

Definition DSP_TARGET_RATE : Z := 16000.
Definition CHUNK_FRAMES : Z := 160.

Record Resampler16k := mkResampler { rs_inner : Fft; rs_input_rate : Z; rs_channels : Z; rs_pending : list f32 }.

Definition resampler_new (rate chans : Z) : result Resampler16k ResampleError :=
  if negb (rate_ok rate) then Err (BadRate rate)
  else if chans =? 0 then Err (BadChannels chans)
  else match fft_new rate DSP_TARGET_RATE CHUNK_FRAMES chans with
  | Ok f => Ok (mkResampler f rate chans [])
  | Err e => Err (Backend e)
  end.

Definition resampler_output_rate (r : Resampler16k) : Z := DSP_TARGET_RATE.

Fixpoint resample_loop (fuel : nat) (r : Resampler16k) : option (result (Resampler16k * list f32) ResampleError) :=
  match fuel with
  | O => None
  | S fuel =>
      let need := input_frames_next (rs_inner r) * rs_channels r in
      if Z.of_nat (length (rs_pending r)) <? need then Some (Ok (r, []))
      else match fft_process (rs_inner r) (take (Z.to_nat need) (rs_pending r)) with
      | (Err e, _) => Some (Err (Backend e))
      | (Ok out, f') =>
          rest ← resample_loop fuel (mkResampler f' (rs_input_rate r) (rs_channels r) (drop (Z.to_nat need) (rs_pending r)));
          Some (let? (r', out') := rest in Ok (r', out ++ out'))
      end
  end.

Definition process_all (fuel : nat) (r : Resampler16k) (interleaved : list f32)
  : option (result (Resampler16k * list f32) ResampleError) :=
  resample_loop fuel (mkResampler (rs_inner r) (rs_input_rate r) (rs_channels r) (rs_pending r ++ interleaved)).

End Converter.

Definition to_mono (interleaved : list f32) (chans : Z) : list f32 :=
  let ch := Z.max chans 1 in
  if ch =? 1 then interleaved
  else (fun frame => f32_div (f32_sum frame) (f32_of_Z ch)) <$> chunks_exact (Z.to_nat ch) interleaved.

Definition to_i16 (pcm : list f32) : list Z :=
  (fun s => f32_as_i16 (f32_mul (f32_clamp s (f32_of_Z (-1)) f32_one) (f32_of_Z 32767))) <$> pcm.

Definition to_le_bytes (pcm : list f32) : bytes := bytes_of_samples (to_i16 pcm).

(** ** Exact duration *)

Section Duration.
Context `{RubatoLaws}.

Lemma drain_mono fuel c b r fuel' : drain fuel c b = Some r -> (fuel <= fuel')%nat -> drain fuel' c b = Some r.
Proof.
  revert c r fuel'. induction fuel as [|fuel IH]; intros c r fuel' Hd Hle; [done|]. destruct fuel' as [|fuel']; [lia|].
  simpl in *. destruct (filter c) as [f|]; [|done]. destruct (b && _); [done|]. destruct (negb b && _); [done|].
  destruct (filter_block c f b) as [[c' out]|e]; [|done].
  destruct (drain fuel c' b) as [r'|] eqn:Hr; [|done]. by rewrite (IH _ _ fuel' Hr) by lia.
Qed.

Lemma length_chunks {A} n (xs : list A) k : (0 < n)%nat -> length xs = (k * n)%nat ->
  length (chunks_exact n xs) = k /\ Forall (fun x => length x = n) (chunks_exact n xs).
Proof.
  intros Hn Hl. unfold chunks_exact. destruct n as [|n']; [lia|]. set (n := S n') in *.
  assert (Hgo : forall rounds xs k, (k <= rounds)%nat -> length xs = (k * n)%nat ->
            length (chunks_go rounds n xs) = k /\ Forall (fun x : list A => length x = n) (chunks_go rounds n xs)).
  { clear xs k Hl. induction rounds as [|rounds IH]; intros xs k Hk Hl; simpl.
    - assert (k = 0)%nat as -> by lia. done.
    - destruct (Nat.ltb_spec (length xs) n) as [Hlt|Hge].
      + destruct k as [|k]; [done | simpl in Hl; lia].
      + destruct k as [|k]; [simpl in Hl; lia|]. destruct (IH (drop n xs) k) as [IH1 IH2]; [lia|rewrite length_drop; simpl in Hl; lia|].
        simpl. split; [by rewrite IH1|]. constructor; [rewrite length_take; lia | done]. }
  apply Hgo; [|done]. rewrite Hl. nia.
Qed.

Lemma rendered_length c frames k : 0 < input_channels c -> 0 <= output_channels c ->
  Z.of_nat (length frames) = k * input_channels c -> Z.of_nat (length (rendered c frames)) = k * output_channels c.
Proof.
  intros Hi Ho Hl. unfold rendered. destruct (Z.eqb_spec (input_channels c) (output_channels c)) as [E|]; [by rewrite <-E|].
  assert (length frames = Z.to_nat k * Z.to_nat (input_channels c))%nat as Hl' by nia.
  destruct (length_chunks (Z.to_nat (input_channels c)) frames (Z.to_nat k)) as [Hc _]; [lia|done|].
  assert (forall l : list (list f32), length (l ≫= fold_frame c) = (length l * Z.to_nat (output_channels c))%nat) as Hb.
  { induction l as [|x l IH]; [done|]. rewrite bind_cons, length_app, IH. unfold fold_frame. rewrite length_replicate. simpl. lia. }
  rewrite Hb, Hc. nia.
Qed.

(** What never changes during a conversion. *)
Definition same_shape (c c' : ArchiveConverter) : Prop :=
  input_rate c' = input_rate c /\ input_channels c' = input_channels c /\ output_rate c' = output_rate c /\
  output_channels c' = output_channels c.

Definition shaped (c : ArchiveConverter) : Prop :=
  4000 <= input_rate c <= 768000 /\ 4000 <= output_rate c <= 768000 /\ 1 <= input_channels c <= 32 /\
  1 <= output_channels c <= 32 /\ 0 <= input_samples c /\ input_samples c * output_rate c < 2 ^ 64 /\
  0 <= trim_frames c /\ 0 <= output_frames c.

(** A filter at work, of which [fed] frames were given and [made] frames got. *)
Definition at_work (c : ArchiveConverter) (f : Fft) (fed made : Z) : Prop :=
  filter c = Some f /\ fft_state f (input_rate c, output_rate c) (output_rate c / 100) (input_channels c) fed made.

(** The samples of [out] are the frames delivered between [c] and [c']. *)
Definition delivered (c c' : ArchiveConverter) (out : list f32) : Prop :=
  same_shape c c' /\ input_samples c' = input_samples c /\ finished c' = finished c /\ output_frames c <= output_frames c' /\
  Z.of_nat (length out) = (output_frames c' - output_frames c) * output_channels c.

Lemma delivered_trans a b c x y : delivered a b x -> delivered b c y -> delivered a c (x ++ y).
Proof.
  intros ((A1 & A2 & A3 & A4) & A5 & A6 & A7 & A8) ((B1 & B2 & B3 & B4) & B5 & B6 & B7 & B8).
  unfold delivered, same_shape. rewrite length_app. split_and!; try congruence; try lia.
Qed.

Lemma target_exact c : shaped c -> target_frames c = input_samples c / input_channels c * output_rate c / input_rate c.
Proof.
  intros (Hi & Ho & Hc & _ & H0' & Hb & _). unfold target_frames. apply Z.mod_small.
  assert (0 <= input_samples c / input_channels c <= input_samples c) by (split; [apply Z.div_pos | apply Z.div_le_upper_bound]; nia).
  split; [apply Z.div_pos; nia|]. eapply Z.le_lt_trans; [apply Z.div_le_upper_bound with (q := input_samples c * output_rate c)|done]; nia.
Qed.

Lemma target_small c : shaped c -> 0 <= target_frames c < 2 ^ 53.
Proof.
  intros Hsh. rewrite target_exact by done. destruct Hsh as (Hi & Ho & Hc & _ & H0' & Hb & _).
  assert (0 <= input_samples c / input_channels c <= input_samples c) by (split; [apply Z.div_pos | apply Z.div_le_upper_bound]; nia).
  split; [apply Z.div_pos; nia|]. apply Z.div_lt_upper_bound; nia.
Qed.

(** One block: a chunk of output, less what is trimmed and what is not wanted. *)
Lemma filter_block_step c f fed made finishing :
  shaped c -> at_work c f fed made -> output_frames c <= target_frames c ->
  (finishing = false -> input_frames_next f * input_channels c <= Z.of_nat (length (pending c))) ->
  exists c' out f', filter_block c f finishing = Ok (c', out) /\ shaped c' /\
    at_work c' f' (fed + input_frames_next f) (made + output_rate c / 100) /\ delivered c c' out /\
    trim_frames c' = trim_frames c - Z.min (trim_frames c) (output_rate c / 100) /\
    output_frames c' = output_frames c +
      (if finishing then Z.min (target_frames c - output_frames c) (output_rate c / 100 - Z.min (trim_frames c) (output_rate c / 100))
       else output_rate c / 100 - Z.min (trim_frames c) (output_rate c / 100)) /\
    (finishing = false -> Z.of_nat (length (pending c')) = Z.of_nat (length (pending c)) - input_frames_next f * input_channels c) /\
    (input_frames_next f = 0 -> (fft_buffered f' < fft_buffered f)%nat).
Proof.
  intros Hsh [Hf Hst] Htgt Hpend. pose proof Hsh as (Hi & Ho & Hc & Hoc & Hs0 & Hb & Ht & Hout).
  pose proof (fft_needs _ _ _ _ _ _ Hst) as Hneed. set (chunk := output_rate c / 100) in *.
  assert (Hchunk : 40 <= chunk) by (unfold chunk; Z.to_euclidean_division_equations; lia).
  unfold filter_block. set (need := Z.to_nat (input_frames_next f * input_channels c)).
  set (p := if (length (pending c) <? need)%nat then resize_zero need (pending c) else pending c).
  assert (Hp : (need <= length p)%nat).
  { unfold p. destruct (Nat.ltb_spec (length (pending c)) need); [|done]. unfold resize_zero.
    rewrite length_app, length_take, length_replicate. lia. }
  destruct (fft_chunk f _ chunk (input_channels c) fed made (take need p) Hst) as (out & f' & Epr & Hol & Hst' & Hbuf).
  { rewrite length_take, Nat.min_l by done. unfold need. nia. }
  rewrite Epr. assert (Hfo : frames_in c out = chunk) by (unfold frames_in; rewrite Hol; apply Z.div_mul; lia).
  rewrite Hfo. set (trim := Z.min (trim_frames c) chunk). set (avail := drop (Z.to_nat (trim * input_channels c)) out).
  assert (Htr : 0 <= trim <= chunk) by (unfold trim; lia).
  assert (Hal : Z.of_nat (length avail) = (chunk - trim) * input_channels c) by (unfold avail; rewrite length_drop; nia).
  assert (Hfa : frames_in c avail = chunk - trim) by (unfold frames_in; rewrite Hal; apply Z.div_mul; lia).
  rewrite Hfa. assert (sat_sub (target_frames c) (output_frames c) = target_frames c - output_frames c) as -> by (unfold sat_sub; lia).
  set (k := if finishing then Z.min (target_frames c - output_frames c) (chunk - trim) else chunk - trim).
  assert (Hk : 0 <= k <= chunk - trim) by (unfold k; destruct finishing; lia).
  set (n := if finishing then _ else _).
  assert (Hn : Z.of_nat n = k * input_channels c) by (unfold n, k; destruct finishing; [nia | lia]).
  assert (Hfr : Z.of_nat (length (take n avail)) = k * input_channels c) by (rewrite length_take; nia).
  assert (Hcount : counted c (take n avail) = output_frames c + k).
  { unfold counted, frames_in. rewrite Hfr, Z.div_mul by lia. apply wadd_small; [lia|lia|].
    pose proof (target_small c Hsh). unfold u64_max. assert (chunk <= 7680) by (unfold chunk; Z.to_euclidean_division_equations; lia). lia. }
  eexists _, _, f'. split; [reflexivity|]. rewrite Hcount. split; [|split; [|split; [|split; [|split; [|split]]]]].
  - split_and!; simpl; lia.
  - split; [done|]. exact Hst'.
  - unfold delivered, same_shape. simpl. split_and!; try done; try lia.
    rewrite (rendered_length _ _ k); [lia|lia|lia|done].
  - done.
  - done.
  - intros ->. specialize (Hpend eq_refl). simpl. unfold p.
    destruct (Nat.ltb_spec (length (pending c)) need) as [Hlt|_]; [unfold need in Hlt; lia|]. rewrite length_drop.
    unfold need. nia.
  - done.
Qed.

Lemma target_same c c' out : delivered c c' out -> target_frames c' = target_frames c.
Proof. intros ((E1 & E2 & E3 & _) & E4 & _). unfold target_frames. by rewrite E1, E2, E3, E4. Qed.

(** All the input is in the filter or waiting for it. *)
Definition accounted (c : ArchiveConverter) (fed made : Z) : Prop :=
  0 <= fed /\ fed * input_channels c + Z.of_nat (length (pending c)) = input_samples c /\ output_frames c <= made.

(** A filter is never ahead of the recording. *)
Lemma never_ahead c f fed made : shaped c -> at_work c f fed made -> accounted c fed made -> output_frames c <= target_frames c.
Proof.
  intros Hsh [_ Hst] (H0' & Hacc & Hle). pose proof (fft_causal _ _ _ _ _ _ _ Hst) as Hca. rewrite target_exact by done.
  destruct Hsh as (Hi & Ho & Hc & _). apply Z.div_le_lower_bound; [lia|].
  assert (fed <= input_samples c / input_channels c) by (apply Z.div_le_lower_bound; lia). nia.
Qed.

Lemma drain_process_step c f fed made :
  shaped c -> at_work c f fed made -> accounted c fed made ->
  exists fuel c' out f' fed' made', drain fuel c false = Some (Ok (c', out)) /\ shaped c' /\ delivered c c' out /\
    at_work c' f' fed' made' /\ accounted c' fed' made'.
Proof.
  remember (length (pending c)) as n eqn:Hn. revert c f fed made Hn. induction (lt_wf n) as [n _ IHn]. intros c f.
  remember (fft_buffered f) as m eqn:Hm. revert c f Hm. induction (lt_wf m) as [m _ IHm]. intros c f Hm fed made Hn Hsh Hat Hacc.
  destruct (Z.ltb_spec (Z.of_nat (length (pending c))) (input_frames_next f * input_channels c)) as [Hlt|Hge].
  - exists 1%nat, c, [], f, fed, made. simpl. rewrite (proj1 Hat). simpl. rewrite (proj2 (Z.ltb_lt _ _) Hlt).
    split; [done|]. split; [done|]. split; [|done]. unfold delivered, same_shape. simpl. split_and!; try done; lia.
  - destruct (filter_block_step c f fed made false Hsh Hat (never_ahead _ _ _ _ Hsh Hat Hacc) ltac:(intros; lia))
      as (c1 & out1 & f1 & Eb & Hsh1 & Hat1 & Hdel & Htrim & Hout & Hpend & Hbuf).
    specialize (Hpend eq_refl). cbn iota in Hout. destruct Hacc as (H0' & Hac & Hle). pose proof Hsh as (_ & Ho & Hc & _ & _ & _ & Ht & _).
    pose proof (fft_needs _ _ _ _ _ _ (proj2 Hat)) as Hneed. destruct Hdel as (Hshape & Hin & Hdel').
    pose proof Hshape as (_ & Ech & _).
    assert (Hacc1 : accounted c1 (fed + input_frames_next f) (made + output_rate c / 100)).
    { assert (40 <= output_rate c / 100) by (Z.to_euclidean_division_equations; lia).
      split; [lia|]. split; [rewrite Ech, Hpend, Hin; lia | lia]. }
    assert (exists fuel c' out f' fed' made', drain fuel c1 false = Some (Ok (c', out)) /\ shaped c' /\ delivered c1 c' out /\
              at_work c' f' fed' made' /\ accounted c' fed' made') as (fuel & c' & out & f' & fed' & made' & Ed & Hsh' & Hdel2 & Hat' & Hacc').
    { destruct (decide (input_frames_next f = 0)) as [Ez|Hnz].
      - eapply (IHm (fft_buffered f1)); [rewrite Hm; by apply Hbuf | reflexivity | | done | done | done].
        rewrite Ez in Hpend. lia.
      - eapply (IHn (length (pending c1))); [|reflexivity|done|done|done]. nia. }
    exists (S fuel), c', (out1 ++ out), f', fed', made'. simpl. rewrite (proj1 Hat). simpl.
    rewrite (proj2 (Z.ltb_ge _ _) Hge), Eb, Ed. simpl. split; [done|]. split; [done|]. split; [by eapply delivered_trans | done].
Qed.

Lemma drain_finish_step c f fed made :
  shaped c -> at_work c f fed made -> output_frames c <= target_frames c ->
  exists fuel c' out, drain fuel c true = Some (Ok (c', out)) /\ delivered c c' out /\ output_frames c' = target_frames c.
Proof.
  remember (Z.to_nat (target_frames c - output_frames c + trim_frames c)) as n eqn:Hn. revert c f fed made Hn.
  induction (lt_wf n) as [n _ IH]. intros c f fed made Hn Hsh Hat Hle.
  destruct (Z.leb_spec (target_frames c) (output_frames c)) as [Hdone|Hmore].
  - exists 1%nat, c, []. simpl. rewrite (proj1 Hat). simpl. rewrite (proj2 (Z.leb_le _ _) Hdone). split; [done|]. split; [|lia].
    unfold delivered, same_shape. simpl. split_and!; try done; lia.
  - destruct (filter_block_step c f fed made true Hsh Hat Hle ltac:(done))
      as (c1 & out1 & f1 & Eb & Hsh1 & Hat1 & Hdel & Htrim & Hout & _). pose proof (target_same _ _ _ Hdel) as Et.
    pose proof Hsh as (_ & Ho & _ & _ & _ & _ & Ht & _).
    assert (40 <= output_rate c / 100) by (Z.to_euclidean_division_equations; lia).
    destruct (IH (Z.to_nat (target_frames c1 - output_frames c1 + trim_frames c1)) ltac:(lia) c1 f1 _ _ eq_refl Hsh1 Hat1 ltac:(lia))
      as (fuel & c' & out & Ed & Hdel2 & Hfin).
    exists (S fuel), c', (out1 ++ out). simpl. rewrite (proj1 Hat). simpl. rewrite (proj2 (Z.leb_gt _ _) Hmore), Eb, Ed. simpl.
    split; [done|]. split; [by eapply delivered_trans | lia].
Qed.

(** Between two blocks of a recording. *)
Definition in_flight (c : ArchiveConverter) : Prop :=
  shaped c /\ finished c = false /\
  match filter c with
  | Some f => exists fed made, at_work c f fed made /\ accounted c fed made
  | None => input_rate c = output_rate c /\ Z.of_nat (length (pending c)) < input_channels c /\
            output_frames c * input_channels c + Z.of_nat (length (pending c)) = input_samples c
  end.

(** What [out] is of a recording that went from [c] to [c'] with [n] more samples. *)
Definition produced (c c' : ArchiveConverter) (n : Z) (out : list f32) : Prop :=
  same_shape c c' /\ input_samples c' = input_samples c + n /\
  Z.of_nat (length out) = (output_frames c' - output_frames c) * output_channels c.

Lemma process_step c pcm :
  in_flight c -> forallb f32_is_finite pcm = true -> (input_samples c + Z.of_nat (length pcm)) * output_rate c < 2 ^ 64 ->
  exists fuel c' out, (forall k, (fuel <= k)%nat -> converter_process k c pcm = Some (Ok (c', out))) /\ in_flight c' /\
    produced c c' (Z.of_nat (length pcm)) out.
Proof.
  intros (Hsh & Hfin & Hfl) Hfinite Hb. pose proof Hsh as (Hi & Ho & Hc & Hoc & Hs0 & _ & Ht & Hof).
  set (n := Z.of_nat (length pcm)) in *. set (c0 := set_input c (pending c ++ pcm) (input_samples c + n)).
  assert (Hsh0 : shaped c0) by (split_and!; simpl; lia).
  assert (Hproc : forall k, converter_process k c pcm = drain k c0 false).
  { intros k. unfold converter_process. rewrite Hfin, Hfinite. simpl. fold n. unfold checked_add64.
    by rewrite (proj2 (Z.leb_le _ _)) by (unfold u64_max; nia). }
  destruct (filter c) as [f|] eqn:Hf.
  - destruct Hfl as (fed & made & [_ Hst] & (H0' & Hac & Hle)).
    assert (Hat0 : at_work c0 f fed made) by (split; [exact Hf | exact Hst]).
    assert (Hacc0 : accounted c0 fed made).
    { split; [lia|]. simpl. rewrite length_app, Nat2Z.inj_add. fold n. lia. }
    destruct (drain_process_step c0 f fed made Hsh0 Hat0 Hacc0) as (fuel & c' & out & f' & fed' & made' & Ed & Hsh' & Hdel & Hat' & Hacc').
    exists fuel, c', out. split; [intros k Hk; rewrite Hproc; by eapply drain_mono|].
    destruct Hdel as (Hshape & Hin & Hfi & _ & Hlen). split.
    + split; [done|]. split; [by rewrite Hfi|]. rewrite (proj1 Hat'). by exists fed', made'.
    + split; [exact Hshape|]. split; [exact Hin | exact Hlen].
  - destruct Hfl as (Er & Hp & Hac).
    assert (Hlp : Z.of_nat (length (pending c0)) = Z.of_nat (length (pending c)) + n) by (simpl; rewrite length_app; lia).
    set (k := frames_in c0 (pending c0)).
    assert (Hk : k * input_channels c <= Z.of_nat (length (pending c0)) < k * input_channels c + input_channels c).
    { unfold k, frames_in. simpl input_channels. pose proof (Z.div_mod (Z.of_nat (length (pending c0))) (input_channels c)).
      pose proof (Z.mod_pos_bound (Z.of_nat (length (pending c0))) (input_channels c)). lia. }
    assert (0 <= k) by (unfold k, frames_in; apply Z.div_pos; [lia | simpl; lia]).
    assert (Hm : Z.of_nat (Z.to_nat k * Z.to_nat (input_channels c))%nat = k * input_channels c) by nia.
    set (m := (Z.to_nat k * Z.to_nat (input_channels c))%nat) in *.
    assert (Htake : Z.of_nat (length (take m (pending c0))) = k * input_channels c) by (rewrite length_take; lia).
    assert (Hcount : counted c0 (take m (pending c0)) = output_frames c + k).
    { unfold counted, frames_in. rewrite Htake. simpl input_channels. rewrite Z.div_mul by lia. apply wadd_small; [done|done|].
      unfold u64_max. simpl. nia. }
    exists 1%nat, (set_flow c0 None (drop m (pending c0)) (trim_frames c0) (counted c0 (take m (pending c0)))),
      (rendered c0 (take m (pending c0))). split; [|split].
    + intros j Hj. rewrite Hproc. destruct j as [|j]; [lia|]. cbn [drain]. change (filter c0) with (filter c). by rewrite Hf.
    + rewrite Hcount. split; [split_and!; simpl; try done; lia|]. split; [done|]. simpl. split; [done|]. rewrite length_drop.
      change (pending c ++ pcm) with (pending c0). split; [lia|]. nia.
    + rewrite Hcount. split; [done|]. split; [done|]. simpl. rewrite (rendered_length c0 _ k); [simpl; lia | simpl; lia | simpl; lia | exact Htake].
Qed.

Lemma finish_step c : in_flight c -> input_samples c mod input_channels c = 0 ->
  exists fuel c' out, (forall k, (fuel <= k)%nat -> converter_finish k c = Some (Ok (c', out))) /\
    produced c c' 0 out /\ output_frames c' = input_samples c / input_channels c * output_rate c / input_rate c /\ finished c' = true.
Proof.
  intros (Hsh & Hfin & Hfl) Hm. rewrite <-target_exact by done. pose proof Hsh as (Hi & Ho & Hc & Hoc & Hs0 & Hb & Ht & Hof).
  assert (Hf : forall k, converter_finish k c = r ← drain k c true; Some (let? (c', out) := r in Ok (set_finished c', out))).
  { intros k. unfold converter_finish. by rewrite Hfin, Hm. }
  destruct (filter c) as [f|] eqn:Hflt.
  - destruct Hfl as (fed & made & Hat & Hacc).
    destruct (drain_finish_step c f fed made Hsh Hat (never_ahead _ _ _ _ Hsh Hat Hacc)) as (fuel & c' & out & Ed & Hdel & Hfi).
    exists fuel, (set_finished c'), out. split; [intros k Hk; rewrite Hf; by rewrite (drain_mono _ _ _ _ _ Ed Hk)|].
    destruct Hdel as (Hshape & Hin & _ & _ & Hlen). split; [|done]. split; [exact Hshape|]. split; [simpl; lia | exact Hlen].
  - destruct Hfl as (Er & Hp & Hac).
    assert (Hz : Z.of_nat (length (pending c)) = 0).
    { rewrite <-Hac, Z.add_comm, Z_mod_plus_full, Z.mod_small in Hm by lia. done. }
    assert (pending c = []) as Ep by (apply nil_length_inv; lia).
    exists 1%nat, (set_finished (set_flow c None [] (trim_frames c) (output_frames c))), []. split; [|split; [|split]].
    + intros k Hk. rewrite Hf. destruct k as [|k]; [lia|]. cbn [drain]. rewrite Hflt, Ep. simpl.
      assert (counted c [] = output_frames c) as ->.
      { unfold counted, frames_in. simpl. rewrite Z.div_0_l by lia. assert (output_frames c <= input_samples c) by nia.
        rewrite wadd_small; [lia|done|done|]. unfold u64_max. nia. }
      assert (rendered c [] = []) as ->; [|done]. unfold rendered, chunks_exact. case_match; [done|]. by destruct (Z.to_nat (input_channels c)).
    + split; [done|]. split; [simpl; lia|]. simpl. lia.
    + simpl. rewrite target_exact by done. rewrite Er. rewrite Z.div_mul by lia. rewrite <-Hac, Hz, Z.add_0_r, Z.div_mul by lia. done.
    + done.
Qed.

Lemma produced_app a b c n m x y : produced a b n x -> produced b c m y -> produced a c (n + m) (x ++ y).
Proof.
  intros ((A1 & A2 & A3 & A4) & A5 & A6) ((B1 & B2 & B3 & B4) & B5 & B6).
  unfold produced, same_shape. rewrite length_app, Nat2Z.inj_add. rewrite B6, A6, A4. split_and!; try congruence; lia.
Qed.

Lemma convert_all_step c blocks :
  in_flight c -> forallb f32_is_finite (concat blocks) = true ->
  (input_samples c + Z.of_nat (length (concat blocks))) * output_rate c < 2 ^ 64 ->
  (input_samples c + Z.of_nat (length (concat blocks))) mod input_channels c = 0 ->
  exists fuel c' out, (forall k, (fuel <= k)%nat -> convert_all k c blocks = Some (Ok (c', out))) /\
    produced c c' (Z.of_nat (length (concat blocks))) out /\
    output_frames c' = (input_samples c + Z.of_nat (length (concat blocks))) / input_channels c * output_rate c / input_rate c.
Proof.
  revert c. induction blocks as [|b blocks IH]; intros c Hfl Hfi Hb Hm.
  - simpl in *. rewrite Z.add_0_r in *. destruct (finish_step c Hfl Hm) as (fuel & c' & out & Hr & Hp & Ho & _). by exists fuel, c', out.
  - simpl in Hfi. rewrite forallb_app in Hfi. apply andb_true_iff in Hfi as [Hfb Hfr].
    simpl in Hb, Hm. rewrite length_app, Nat2Z.inj_add in Hb, Hm.
    destruct (process_step c b Hfl Hfb) as (fuel1 & c1 & out1 & Hr1 & Hfl1 & Hp1).
    { destruct Hfl as ((_ & Ho & _) & _). nia. }
    pose proof Hp1 as ((E1 & E2 & E3 & E4) & E5 & _).
    destruct (IH c1 Hfl1 Hfr) as (fuel2 & c2 & out2 & Hr2 & Hp2 & Ho2).
    { rewrite E5, E3. lia. }
    { rewrite E5, E2. by rewrite <-Z.add_assoc. }
    exists (max fuel1 fuel2), c2, (out1 ++ out2). split; [|split].
    + intros k Hk. simpl. rewrite Hr1 by lia. simpl. by rewrite Hr2 by lia.
    + simpl. rewrite length_app, Nat2Z.inj_add. by eapply produced_app.
    + simpl. rewrite length_app, Nat2Z.inj_add, Ho2, E1, E2, E3, E5. by rewrite <-Z.add_assoc.
Qed.

(** C30: Conversion keeps the duration exactly.  A converter between any two
    accepted formats, fed a recording of [n] whole frames in blocks of any sizes
    and then finished, returns without error: it hands out
    [floor (n * output_rate / input_rate)] frames of the output's channel count,
    whatever the filter's latency and however the blocks fell, with fuel enough for
    the number of blocks it runs. *)
Theorem conversion_keeps_duration in_rate in_ch out_rate out_ch c blocks n :
  converter_new in_rate in_ch out_rate out_ch = Ok c ->
  forallb f32_is_finite (concat blocks) = true ->
  Z.of_nat (length (concat blocks)) = n * in_ch -> n * in_ch * out_rate < 2 ^ 64 ->
  exists fuel, forall k, (fuel <= k)%nat -> exists c' out,
    convert_all k c blocks = Some (Ok (c', out)) /\ Z.of_nat (length out) = n * out_rate / in_rate * out_ch.
Proof.
  intros Hnew Hfi Hlen Hb. unfold converter_new, rate_ok, channels_ok in Hnew.
  destruct ((4000 <=? in_rate) && (in_rate <=? 768000)) eqn:Ei; [|done]. destruct ((4000 <=? out_rate) && (out_rate <=? 768000)) eqn:Eo; [|done].
  destruct ((1 <=? in_ch) && (in_ch <=? 32)) eqn:Ec; [|done]. destruct ((1 <=? out_ch) && (out_ch <=? 32)) eqn:Ed; [|done].
  apply andb_true_iff in Ei as [? ?]. apply andb_true_iff in Eo as [? ?]. apply andb_true_iff in Ec as [? ?]. apply andb_true_iff in Ed as [? ?].
  simpl in Hnew.
  assert (Hfl : in_flight c /\ input_rate c = in_rate /\ input_channels c = in_ch /\ output_rate c = out_rate /\
                output_channels c = out_ch /\ input_samples c = 0 /\ output_frames c = 0).
  { destruct (Z.eqb_spec in_rate out_rate) as [->|Hne].
    - simpl in Hnew. injection Hnew as <-. split; [|done]. split; [split_and!; simpl; lia|]. split; [done|]. simpl. split_and!; lia.
    - destruct (fft_new in_rate out_rate (out_rate / 100) in_ch) as [f|e] eqn:Ef; [|done]. simpl in Hnew. injection Hnew as <-.
      destruct (fft_new_state _ _ _ _ _ Ef) as [Hst Hdel]. split; [|done]. split; [split_and!; simpl; lia|]. split; [done|].
      exists 0, 0. split; [done|]. split_and!; simpl; lia. }
  destruct Hfl as (Hfl & E1 & E2 & E3 & E4 & E5 & E6).
  destruct (convert_all_step c blocks Hfl Hfi) as (fuel & c' & out & Hr & (_ & _ & Hl) & Ho).
  { rewrite E5, E3. lia. }
  { rewrite E5, E2, Hlen. simpl. apply Z.mod_mul. lia. }
  exists fuel. intros k Hk. exists c', out. split; [by apply Hr|].
  rewrite Hl, Ho, E1, E2, E3, E4, E5, E6, Hlen, Z.add_0_l, Z.sub_0_r, Z.div_mul by lia. done.
Qed.

End Duration.

(** ** Block boundaries *)

Section Blocks.
Context `{Rubato}.

(** More input behind what is pending. *)
Definition feed (c : ArchiveConverter) (b : list f32) (n : Z) : ArchiveConverter := set_input c (pending c ++ b) n.

Lemma chunks_go_app {A} n (x y : list A) r k : (0 < n)%nat -> length x = (k * n)%nat ->
  (k + length y <= r)%nat -> chunks_go r n (x ++ y) = chunks_go k n x ++ chunks_go (r - k) n y.
Proof.
  intros Hn. revert x r. induction k as [|k IH]; intros x r Hx Hr.
  - destruct x; [|done]. simpl. by rewrite Nat.sub_0_r.
  - destruct r as [|r]; [lia|]. simpl chunks_go. rewrite length_app.
    destruct (Nat.ltb_spec (length x + length y) n) as [|_]; [simpl in Hx; lia|].
    destruct (Nat.ltb_spec (length x) n) as [|_]; [simpl in Hx; lia|].
    rewrite take_app_le, drop_app_le by (simpl in Hx; lia). simpl. f_equal. apply IH; [rewrite length_drop; simpl in Hx; lia | lia].
Qed.

Lemma chunks_go_enough {A} n (x : list A) r r' : (0 < n)%nat -> (length x < (r + 1) * n)%nat -> (length x < (r' + 1) * n)%nat ->
  chunks_go r n x = chunks_go r' n x.
Proof.
  intros Hn. assert (Hshort : forall r (x : list A), (length x < n)%nat -> chunks_go r n x = []).
  { intros [|k] y Hy; [done|]. simpl. by rewrite (proj2 (Nat.ltb_lt _ _) Hy). }
  revert x r'. induction r as [|r IH]; intros x r' H1 H2.
  - rewrite !Hshort by lia. done.
  - destruct r' as [|r']; [rewrite !Hshort by lia; done|]. simpl. destruct (Nat.ltb_spec (length x) n); [done|].
    f_equal. apply IH; rewrite length_drop; lia.
Qed.

Lemma chunks_exact_app {A} n (x y : list A) k : length x = (k * n)%nat ->
  chunks_exact n (x ++ y) = chunks_exact n x ++ chunks_exact n y.
Proof.
  intros Hx. unfold chunks_exact. destruct n as [|n']; [done|]. set (n := S n') in *. rewrite length_app.
  assert (k <= length x)%nat by (rewrite Hx; unfold n; nia).
  rewrite (chunks_go_app n x y _ k); [|lia|done|lia]. f_equal; apply chunks_go_enough; unfold n in *; nia.
Qed.

Lemma rendered_app c x y k : 0 < input_channels c -> Z.of_nat (length x) = k * input_channels c ->
  rendered c (x ++ y) = rendered c x ++ rendered c y.
Proof.
  intros Hc Hx. unfold rendered. case_match; [done|]. rewrite (chunks_exact_app _ x y (Z.to_nat k)) by nia. apply bind_app.
Qed.

(** A block that is full does not see what follows it. *)
Lemma filter_block_feed c f b n c' out :
  input_frames_next f * input_channels c <= Z.of_nat (length (pending c)) ->
  filter_block c f false = Ok (c', out) -> filter_block (feed c b n) f false = Ok (feed c' b n, out).
Proof.
  intros Hn. unfold filter_block, feed. simpl. set (need := Z.to_nat (input_frames_next f * input_channels c)).
  destruct (Nat.ltb_spec (length (pending c)) need) as [|Hge]; [lia|].
  destruct (Nat.ltb_spec (length (pending c ++ b)) need) as [Hx|_]; [rewrite length_app in Hx; lia|].
  rewrite take_app_le, drop_app_le by lia. destruct (fft_process f (take need (pending c))) as [[o|e] f']; [|done].
  intros Hr. injection Hr as <- <-. done.
Qed.

(** The whole frames at the front of a buffer. *)
Definition whole_len (c : ArchiveConverter) (p : list f32) : nat :=
  (Z.to_nat (frames_in c p) * Z.to_nat (input_channels c))%nat.

Lemma whole_len_spec c p : 0 < input_channels c ->
  Z.of_nat (whole_len c p) = frames_in c p * input_channels c /\ (whole_len c p <= length p)%nat /\ 0 <= frames_in c p.
Proof.
  intros Hc. unfold whole_len, frames_in. set (L := Z.of_nat (length p)).
  pose proof (Z.div_mod L (input_channels c) ltac:(lia)). pose proof (Z.mod_pos_bound L (input_channels c) Hc).
  assert (0 <= L / input_channels c) by (apply Z.div_pos; lia). nia.
Qed.

Lemma whole_frames_length c p : 0 < input_channels c ->
  Z.of_nat (length (take (whole_len c p) p)) = frames_in c p * input_channels c.
Proof. intros Hc. destruct (whole_len_spec c p Hc) as (E & Hle & _). rewrite length_take, Nat.min_l by done. done. Qed.

Lemma whole_frames_app c p b : 0 < input_channels c ->
  let rest := drop (whole_len c p) p ++ b in
  take (whole_len c (p ++ b)) (p ++ b) = take (whole_len c p) p ++ take (whole_len c rest) rest /\
  drop (whole_len c (p ++ b)) (p ++ b) = drop (whole_len c rest) rest /\
  frames_in c (take (whole_len c p) p ++ take (whole_len c rest) rest) =
    frames_in c (take (whole_len c p) p) + frames_in c (take (whole_len c rest) rest).
Proof.
  intros Hc rest. destruct (whole_len_spec c p Hc) as (E1 & L1 & P1). destruct (whole_len_spec c rest Hc) as (E2 & L2 & P2).
  assert (Hk : frames_in c (p ++ b) = frames_in c p + frames_in c rest).
  { assert (Hr : Z.of_nat (length rest) = Z.of_nat (length p) - frames_in c p * input_channels c + Z.of_nat (length b)).
    { unfold rest. rewrite length_app, length_drop. lia. }
    unfold frames_in at 1 3. rewrite length_app, Hr.
    replace (Z.of_nat (length p + length b)) with
      ((Z.of_nat (length p) - frames_in c p * input_channels c + Z.of_nat (length b)) + frames_in c p * input_channels c) by lia.
    rewrite Z.div_add by lia. lia. }
  assert (Hw : whole_len c (p ++ b) = (whole_len c p + whole_len c rest)%nat) by (unfold whole_len; rewrite Hk; nia).
  assert (Hp : p ++ b = take (whole_len c p) p ++ rest) by (unfold rest; by rewrite app_assoc, take_drop).
  split; [|split].
  - rewrite Hw, Hp at 1. rewrite take_app_add' by (rewrite length_take; lia). done.
  - rewrite Hw, Hp at 1. rewrite <-drop_drop, drop_app_length' by (rewrite length_take; lia). done.
  - unfold frames_in at 1. rewrite length_app, Nat2Z.inj_add, !whole_frames_length by done.
    unfold frames_in at 3 4. rewrite !whole_frames_length by done. rewrite <-Z.mul_add_distr_r, !Z.div_mul by lia. done.
Qed.

(** Draining twice is draining once. *)
Lemma drain_feed k c b n c1 o1 k2 r :
  0 < input_channels c -> drain k c false = Some (Ok (c1, o1)) -> drain k2 (feed c1 b n) false = Some r ->
  exists k3, drain k3 (feed c b n) false = Some (let? (c2, o2) := r in Ok (c2, o1 ++ o2)).
Proof.
  revert c c1 o1. induction k as [|k IH]; intros c c1 o1 Hc Hd1 Hd2; [done|]. simpl in Hd1.
  destruct (filter c) as [f|] eqn:Hf.
  - simpl in Hd1. destruct (Z.ltb_spec (Z.of_nat (length (pending c))) (input_frames_next f * input_channels c)) as [Hlt|Hge].
    { injection Hd1 as <- <-. exists k2. rewrite Hd2. by destruct r as [[c2 o2]|e]. }
    destruct (filter_block c f false) as [[c' out]|e] eqn:Eb; [|done].
    destruct (drain k c' false) as [[[c1' o1']|e]|] eqn:Ed; [|done..]. simpl in Hd1. injection Hd1 as -> <-.
    assert (input_channels c' = input_channels c) as Ec.
    { unfold filter_block in Eb. destruct (fft_process _ _) as [[o|e] f']; [|done]. by injection Eb as <- _. }
    destruct (IH c' c1 o1' ltac:(lia) Ed Hd2) as (k3 & E3). exists (S k3). simpl. rewrite Hf. simpl.
    rewrite (proj2 (Z.ltb_ge _ _)) by (rewrite length_app; lia).
    rewrite (filter_block_feed _ _ _ _ _ _ Hge Eb), E3. simpl. destruct r as [[c2 o2]|e]; simpl; [by rewrite app_assoc | done].
  - injection Hd1 as <- <-. destruct k2 as [|k2]; [done|]. simpl in Hd2. injection Hd2 as <-. exists 1%nat. simpl. rewrite Hf.
    destruct (whole_frames_app c (pending c) b Hc) as (Et & Ed & Ek). unfold whole_len in Et, Ed, Ek. cbn zeta in Et, Ed, Ek.
    change (frames_in (feed c b n)) with (frames_in c). change (rendered (feed c b n)) with (rendered c). unfold feed. simpl.
    rewrite Et, Ed. f_equal. f_equal. f_equal.
    + f_equal. unfold counted. simpl. change (frames_in (set_input c (pending c ++ b) n)) with (frames_in c).
      change (frames_in (set_input _ _ _)) with (frames_in c). rewrite Ek. unfold wadd. rewrite Zplus_mod_idemp_l. f_equal. lia.
    + etrans; [apply (rendered_app c _ _ (frames_in c (pending c)) Hc (whole_frames_length c (pending c) Hc))|reflexivity].
Qed.

Lemma drain_shape k c b c' out : drain k c b = Some (Ok (c', out)) ->
  input_channels c' = input_channels c /\ input_samples c' = input_samples c /\ finished c' = finished c.
Proof.
  revert c out. induction k as [|k IH]; intros c out Hd; [done|]. simpl in Hd. destruct (filter c) as [f|].
  - destruct (b && _); [by injection Hd as <- _|]. destruct (negb b && _); [by injection Hd as <- _|].
    destruct (filter_block c f b) as [[c1 o1]|e] eqn:Eb; [|done]. destruct (drain k c1 b) as [[[c2 o2]|e]|] eqn:Ed; [|done..].
    simpl in Hd. injection Hd as -> <-. destruct (IH _ _ Ed) as (E1 & E2 & E3). rewrite E1, E2, E3.
    unfold filter_block in Eb. destruct (fft_process _ _) as [[o|e] f']; [|done]. by injection Eb as <- _.
  - by injection Hd as <- _.
Qed.

(** Two blocks in a row are one block. *)
Lemma process_twice k c a b c1 o1 c2 o2 :
  0 < input_channels c -> converter_process k c a = Some (Ok (c1, o1)) -> converter_process k c1 b = Some (Ok (c2, o2)) ->
  exists k', converter_process k' c (a ++ b) = Some (Ok (c2, o1 ++ o2)).
Proof.
  unfold converter_process. intros Hc Ha Hb. destruct (finished c) eqn:Hf; [done|].
  rewrite forallb_app. destruct (forallb f32_is_finite a) eqn:Hfa; [|done]. simpl in *. unfold checked_add64 in *.
  destruct (Z.leb_spec (input_samples c + Z.of_nat (length a)) u64_max); [|done].
  destruct (drain_shape _ _ _ _ _ Ha) as (E1 & E2 & E3). simpl in E1, E2, E3. rewrite E3, Hf, E2 in Hb.
  destruct (forallb f32_is_finite b) eqn:Hfb; [|done]. simpl in *.
  destruct (Z.leb_spec (input_samples c + Z.of_nat (length a) + Z.of_nat (length b)) u64_max); [|done].
  rewrite length_app. rewrite (proj2 (Z.leb_le _ _)) by lia.
  destruct (drain_feed k (set_input c (pending c ++ a) (input_samples c + Z.of_nat (length a))) b
    (input_samples c + Z.of_nat (length a) + Z.of_nat (length b)) c1 o1 k _ Hc Ha Hb) as (k' & E). exists k'.
  unfold feed in E. simpl in E. rewrite <-E. f_equal. unfold set_input. simpl. f_equal; [by rewrite app_assoc | lia].
Qed.

Lemma converter_process_mono k c a r k' : converter_process k c a = Some r -> (k <= k')%nat -> converter_process k' c a = Some r.
Proof.
  unfold converter_process. repeat (case_match; try done). intros Hd Hle. by eapply drain_mono.
Qed.

Lemma converter_finish_mono k c r k' : converter_finish k c = Some r -> (k <= k')%nat -> converter_finish k' c = Some r.
Proof.
  unfold converter_finish. repeat (case_match; try done). destruct (drain k c true) as [r'|] eqn:Hd; [|done]. intros Hr Hle.
  by rewrite (drain_mono _ _ _ _ _ Hd Hle).
Qed.

Lemma convert_all_mono k c blocks r k' : convert_all k c blocks = Some r -> (k <= k')%nat -> convert_all k' c blocks = Some r.
Proof.
  revert c r. induction blocks as [|b blocks IH]; intros c r Hr Hle; simpl in *; [by eapply converter_finish_mono|].
  destruct (converter_process k c b) as [r1|] eqn:Hp; [|done]. rewrite (converter_process_mono _ _ _ _ _ Hp Hle). simpl in *.
  destruct r1 as [[c' out]|e]; [|done]. destruct (convert_all k c' blocks) as [r2|] eqn:Hc; [|done].
  by rewrite (IH _ _ Hc Hle).
Qed.

(** Block boundaries do not matter.  Whatever blocks the driver delivered, the
    converted recording is the one of their concatenation delivered at once: the
    same samples, and the same converter at the end. *)
Theorem block_boundaries_do_not_matter k c b blocks c' out :
  1 <= input_channels c -> convert_all k c (b :: blocks) = Some (Ok (c', out)) ->
  exists k', convert_all k' c [concat (b :: blocks)] = Some (Ok (c', out)).
Proof.
  revert k c b c' out. induction blocks as [|b2 blocks IH]; intros k c b c' out Hc Hr.
  - exists k. simpl in *. by rewrite app_nil_r.
  - simpl in Hr. destruct (converter_process k c b) as [[[c1 o1]|e]|] eqn:Hp; [|done..]. simpl in Hr.
    destruct (converter_process k c1 b2) as [[[c2 o2]|e]|] eqn:Hp2; [|done..]. simpl in Hr.
    destruct (convert_all k c2 blocks) as [[[c3 o3]|e]|] eqn:Hrest; [|done..]. simpl in Hr. injection Hr as <- <-.
    destruct (process_twice k c b b2 c1 o1 c2 o2 ltac:(lia) Hp Hp2) as (k1 & Htw).
    destruct (IH (max k k1) c (b ++ b2) c3 (o1 ++ o2 ++ o3) Hc) as (k' & E).
    { simpl. rewrite (converter_process_mono _ _ _ _ (max k k1) Htw) by lia. simpl.
      rewrite (convert_all_mono _ _ _ _ (max k k1) Hrest) by lia. simpl. by rewrite app_assoc. }
    exists k'. rewrite <-E. simpl. by rewrite app_assoc.
Qed.

End Blocks.

(** ** A filter that halves the rate *)

Module Halving.

(** Keeps the first half of every block; a quarter of a chunk of delay. *)
#[local] Instance halving : Rubato := {|
  Fft := Z;
  fft_new i o chunk ch := if (i =? 2 * o) && (1 <=? chunk) then Ok chunk else Err "unsupported";
  output_delay f := f / 4;
  fft_size_in f := 2 * f;
  fft_size_out f := f;
  input_frames_next f := 2 * f;
  fft_process f block := (Ok (take (length block / 2) block), f);
|}.

#[local] Program Instance halving_laws : RubatoLaws := {|
  fft_state f rs chunk ch fed made := f = chunk /\ 1 <= chunk /\ rs.1 = 2 * rs.2 /\ fed = 2 * made;
  fft_buffered f := Z.to_nat f;
|}.
Next Obligation.
  intros i o chunk ch f Hn. simpl in *. destruct (Z.eqb_spec i (2 * o)); [|done]. destruct (Z.leb_spec 1 chunk); [|done].
  simpl in Hn. injection Hn as <-. simpl. split_and!; try lia. apply Z.div_pos; lia.
Qed.
Next Obligation. simpl. intros. lia. Qed.
Next Obligation. simpl. intros f i o chunk ch fed made (? & ? & ? & ?). subst. nia. Qed.
Next Obligation.
  simpl. intros f [i o] chunk ch fed made block (-> & Hc & Hr & ->) Hl. eexists _, chunk. split; [reflexivity|].
  split_and!; try done; try lia. rewrite length_take.
  assert (Z.of_nat (length block / 2) = chunk * ch).
  { rewrite Nat2Z.inj_div, Hl. replace (2 * chunk * ch) with (chunk * ch * 2) by lia. by rewrite Z.div_mul by lia. }
  change (Nat.divmod (length block) 1 0 1).1 with (length block / 2)%nat. nia.
Qed.

(** Two blocks, 24 ms of 32 kHz mono, the first ending inside a chunk. *)
Definition made : ArchiveConverter :=
  match converter_new 32000 1 16000 1 with Ok c => c | Err _ => mkConverter 1 1 1 1 None [] 0 0 0 false end.
Definition blocks : list (list f32) := [replicate 500 f32_zero; replicate 268 f32_one].

Lemma conversion_keeps_duration_witness :
  converter_new 32000 1 16000 1 = Ok made /\ forallb f32_is_finite (concat blocks) = true /\
  exists fuel, forall k, (fuel <= k)%nat -> exists c' out,
    convert_all k made blocks = Some (Ok (c', out)) /\ Z.of_nat (length out) = 384.
Proof.
  split; [reflexivity|]. split; [reflexivity|].
  exact (conversion_keeps_duration 32000 1 16000 1 made blocks 768 eq_refl eq_refl eq_refl eq_refl).
Defined.

Definition whole : ArchiveConverter * list f32 :=
  match convert_all 8 made blocks with Some (Ok r) => r | _ => (made, []) end.

Lemma whole_run : convert_all 8 made blocks = Some (Ok (whole.1, whole.2)).
Proof. vm_compute. reflexivity. Qed.

Lemma block_boundaries_do_not_matter_witness :
  convert_all 8 made blocks = Some (Ok (whole.1, whole.2)) /\
  exists k', convert_all k' made [concat blocks] = Some (Ok (whole.1, whole.2)).
Proof.
  split; [exact whole_run|].
  apply (block_boundaries_do_not_matter 8 made (replicate 500 f32_zero) [replicate 268 f32_one] whole.1 whole.2);
    [vm_compute; discriminate | exact whole_run].
Defined.

End Halving.
