(* ===== verification/OpusWriter.v ===== *)
(** * The archive writer

    [fotw-pipeline/src/opus.rs]: [OpusOggWriter], which cuts the samples it is
    pushed into 20 ms frames, encodes each and muxes the packets into an Ogg file
    with a page forced out and flushed every second.  libopus is the class
    [LibOpus] and the [ogg] crate's packet writer the class [OggMuxer]; both are
    used through their state and their answers only.  The sink is the buffered file
    of [Wal]: what it holds is lost when the process is killed. *)

From S2P Require Import Prelude Bytes Text Float32.
From S2P Require Import FileSystem WalTypes OpusArchive SessionDir Wal.

Local Open Scope Z_scope.

(** ** The libraries *)

Definition BITRATE_BPS : Z := 24000.
Definition OPUS_OK : Z := 0.
Definition OPUS_ALLOC_FAIL : Z := -7.

Inductive EncoderRequest :=
| SET_BITRATE (bps : Z) | SET_VBR (on : Z) | SET_VBR_CONSTRAINT (on : Z) | SET_SIGNAL_VOICE | SET_DTX (on : Z)
| SET_EXPERT_FRAME_DURATION_20_MS.

Class LibOpus := {
  Encoder : Type;
  encoder_create : Z -> Z * option Encoder;                     (* mono, VOIP: the error code and the pointer *)
  encoder_ctl : Encoder -> EncoderRequest -> Z * Encoder;
  get_lookahead : Encoder -> Z * Z;                             (* the error code and the value *)
  opus_encode : Encoder -> list Z -> Z -> result bytes Z * Encoder;   (* the packet, or a negative code *)
}.

Inductive PacketWriteEndInfo := NormalPacket | EndPage | EndStream.

#[export] Instance PacketWriteEndInfo_eq_dec : EqDecision PacketWriteEndInfo.
Proof. solve_decision. Defined.

(** What taking one packet writes to the sink, in the order of its writes. *)
Class OggMuxer := {
  Muxer : Type;
  muxer_new : Muxer;
  write_packet : Muxer -> bytes -> Z -> PacketWriteEndInfo -> Z -> list bytes * Muxer;
}.

Definition wmul (a b : Z) : Z := (a * b) mod 2 ^ 64.

Record OpusStats := mkStats {
  st_packets : Z;
  st_payload_bytes : Z;
  st_input_samples : Z;
  st_pages : Z;
  st_rate : Z;
}.

Definition stats_duration_ms (s : OpusStats) : Z :=
  if st_rate s =? 0 then 0 else wmul (st_input_samples s) 1000 / st_rate s.

(** [u16::to_le_bytes]. *)
Definition u16_to_le_bytes (n : Z) : bytes := [Z.land n 255; Z.land (Z.shiftr n 8) 255].

Definition opus_head (chans pre_skip rate : Z) : bytes :=
  bytes_of_string "OpusHead" ++ [1; chans] ++ u16_to_le_bytes pre_skip ++ u32_to_le_bytes rate
  ++ i16_to_le_bytes 0 ++ [0].

Definition opus_tags (version : string) : bytes :=
  let vendor := "fotw-pipeline " +:+ version in
  bytes_of_string "OpusTags" ++ u32_to_le_bytes (slen vendor) ++ bytes_of_string vendor ++ u32_to_le_bytes 0.

(** A per-stream serial, from the nanoseconds of the wall clock and a counter. *)
Definition stream_serial (nanos counter : Z) : Z :=
  ((nanos mod 2 ^ 32) * 2654435761 + (counter mod 2 ^ 32) * 0x9E3779B9) mod 2 ^ 32.

Section Writer.
Context `{LibOpus, OggMuxer}.

Record OpusOggWriter := mkWriter {
  enc : Encoder;
  ogg : Muxer;
  sink : BufWriter;
  o_serial : Z;
  o_rate : Z;
  frame_samples : nat;
  granule_per_sample : Z;
  pre_skip : Z;
  o_pending : list Z;
  o_input_samples : Z;
  frames_per_page : Z;
  frames_in_page : Z;
  o_packets : Z;
  payload_bytes : Z;
  pages : Z;
}.

Definition set_pending (o : OpusOggWriter) (p : list Z) (n : Z) : OpusOggWriter :=
  mkWriter (enc o) (ogg o) (sink o) (o_serial o) (o_rate o) (frame_samples o) (granule_per_sample o) (pre_skip o) p n
    (frames_per_page o) (frames_in_page o) (o_packets o) (payload_bytes o) (pages o).
Definition set_sink (o : OpusOggWriter) (b : BufWriter) : OpusOggWriter :=
  mkWriter (enc o) (ogg o) b (o_serial o) (o_rate o) (frame_samples o) (granule_per_sample o) (pre_skip o) (o_pending o)
    (o_input_samples o) (frames_per_page o) (frames_in_page o) (o_packets o) (payload_bytes o) (pages o).
Definition set_mux (o : OpusOggWriter) (m : Muxer) : OpusOggWriter :=
  mkWriter (enc o) m (sink o) (o_serial o) (o_rate o) (frame_samples o) (granule_per_sample o) (pre_skip o) (o_pending o)
    (o_input_samples o) (frames_per_page o) (frames_in_page o) (o_packets o) (payload_bytes o) (pages o).
Definition set_encoder (o : OpusOggWriter) (e : Encoder) : OpusOggWriter :=
  mkWriter e (ogg o) (sink o) (o_serial o) (o_rate o) (frame_samples o) (granule_per_sample o) (pre_skip o) (o_pending o)
    (o_input_samples o) (frames_per_page o) (frames_in_page o) (o_packets o) (payload_bytes o) (pages o).
Definition set_counts (o : OpusOggWriter) (packets payload : Z) : OpusOggWriter :=
  mkWriter (enc o) (ogg o) (sink o) (o_serial o) (o_rate o) (frame_samples o) (granule_per_sample o) (pre_skip o)
    (o_pending o) (o_input_samples o) (frames_per_page o) (frames_in_page o) packets payload (pages o).
Definition set_page (o : OpusOggWriter) (in_page n : Z) : OpusOggWriter :=
  mkWriter (enc o) (ogg o) (sink o) (o_serial o) (o_rate o) (frame_samples o) (granule_per_sample o) (pre_skip o)
    (o_pending o) (o_input_samples o) (frames_per_page o) in_page (o_packets o) (payload_bytes o) n.

Definition stats (o : OpusOggWriter) : OpusStats :=
  mkStats (o_packets o) (payload_bytes o) (o_input_samples o) (pages o) (o_rate o).

Abbreviation WriterM := (Eff (OpusOggWriter * World) OpusError).

Definition opus_io (e : IoErr) : OpusError := OpusIo (error_text e).

(** A method of the sink. *)
Definition on_sink {A} (m : Eff (BufWriter * World) IoErr A) : WriterM A := fun '(o, w) =>
  match m (sink o, w) with
  | (Returned a, (b, w')) => (Returned a, (set_sink o b, w'))
  | (Raised e, (b, w')) => (Raised (opus_io e), (set_sink o b, w'))
  | (Killed, (b, w')) => (Killed, (set_sink o b, w'))
  end.

Definition opus_flush : WriterM unit := on_sink flush_buf.

Definition opus_sync : WriterM unit := on_sink bw_sync.

(** [self.ogg.write_packet(..)?]. *)
Definition mux (packet : bytes) (end_ : PacketWriteEndInfo) (granule : Z) : WriterM unit :=
  o ← get_self;
  let '(out, m) := write_packet (ogg o) packet (o_serial o) end_ granule in
  _ ← set_self (set_mux o m);
  on_sink (write_chunks_to out).

Definition encode_frame (frame : list Z) (end_ : PacketWriteEndInfo) (granule : Z) : WriterM unit :=
  o ← get_self;
  match opus_encode (enc o) frame MAX_PACKET_BYTES with
  | (Err code, e) => _ ← set_self (set_encoder o e); raise (Codec "opus_encode" code)
  | (Ok packet, e) =>
      _ ← set_self (set_counts (set_encoder o e) (wadd (o_packets o) 1) (wadd (payload_bytes o) (zlen packet)));
      _ ← mux packet end_ granule;
      o ← get_self;
      if decide (end_ = NormalPacket) then set_self (set_page o ((frames_in_page o + 1) mod 2 ^ 32) (pages o))
      else _ ← set_self (set_page o 0 (wadd (pages o) 1)); opus_flush
  end.

(** Whether the frame about to be written fills its page. *)
Definition page_end (o : OpusOggWriter) : PacketWriteEndInfo :=
  if frames_per_page o <=? (frames_in_page o + 1) mod 2 ^ 32 then EndPage else NormalPacket.

(** The samples handed to the encoder so far, those of the current frame included. *)
Definition consumed_samples (o : OpusOggWriter) : Z := wsub (o_input_samples o) (zlen (o_pending o)).

(** A round per frame; [drain_full_frames] gives it as many as there are samples,
    and a frame is never empty. *)
Fixpoint drain_rounds (rounds : nat) : WriterM unit :=
  match rounds with
  | O => mret tt
  | S rounds =>
      o ← get_self;
      if (length (o_pending o) <? frame_samples o)%nat then mret tt
      else
        let buf := take (frame_samples o) (o_pending o) in
        let o := set_pending o (drop (frame_samples o) (o_pending o)) (o_input_samples o) in
        _ ← set_self o;
        _ ← encode_frame buf (page_end o) (wmul (consumed_samples o) (granule_per_sample o));
        drain_rounds rounds
  end.

Definition drain_full_frames : WriterM unit :=
  o ← get_self;
  drain_rounds (length (o_pending o)).

Definition push_i16 (pcm : list Z) : WriterM unit :=
  o ← get_self;
  _ ← set_self (set_pending o (o_pending o ++ pcm) (wadd (o_input_samples o) (zlen pcm)));
  drain_full_frames.

Definition push_f32 (pcm : list f32) : WriterM unit := push_i16 (pcm_sample <$> pcm).

(** [tail.resize(n, 0)]. *)
Definition resize_i16 (n : nat) (p : list Z) : list Z := take n p ++ replicate (n - length p) 0.

(** [a.div_ceil(b)]. *)
Definition div_ceil (a b : Z) : Z := a / b + (if a mod b =? 0 then 0 else 1).

(** The frames of the tail: the samples still waiting and the encoder's lookahead,
    and at least the one that ends the stream. *)
Definition tail_frames (o : OpusOggWriter) : Z :=
  let lookahead := pre_skip o / granule_per_sample o in
  Z.max (div_ceil (zlen (o_pending o) + lookahead) (Z.of_nat (frame_samples o))) 1.

Fixpoint finish_frames (final_granule : Z) (frames : list (list Z)) : WriterM unit :=
  match frames with
  | [] => mret tt
  | frame :: rest =>
      o ← get_self;
      let final_packet := match rest with [] => true | _ => false end in
      let end_ := if final_packet then EndStream else page_end o in
      let granule := if final_packet then final_granule
                     else wmul (wmul (wadd (o_packets o) 1) (Z.of_nat (frame_samples o))) (granule_per_sample o) in
      _ ← encode_frame frame end_ granule;
      finish_frames final_granule rest
  end.

(** [tail.chunks_exact(frame_samples)] of a tail of [k] frames. *)
Definition frames_of (k n : nat) (p : list Z) : list (list Z) := (fun i => take n (drop (i * n) p)) <$> seq 0 k.

Definition finish : WriterM OpusStats :=
  o ← get_self;
  let k := Z.to_nat (tail_frames o) in
  let tail := resize_i16 (k * frame_samples o) (o_pending o) in
  let final_granule := wadd (pre_skip o) (wmul (o_input_samples o) (granule_per_sample o)) in
  _ ← set_self (set_pending o [] (o_input_samples o));
  _ ← finish_frames final_granule (frames_of k (frame_samples o) tail);
  _ ← opus_flush;
  o ← get_self;
  mret (stats o).

(** [OpusHead] alone on the first page, [OpusTags] on the second. *)
Definition write_headers (version : string) : WriterM unit :=
  o ← get_self;
  _ ← mux (opus_head 1 (pre_skip o mod 2 ^ 16) (o_rate o)) EndPage 0;
  _ ← mux (opus_tags version) EndPage 0;
  o ← get_self;
  _ ← set_self (set_page o (frames_in_page o) (wadd (pages o) 2));
  opus_flush.

(** Dropping the writer: the buffer is written out if it can be. *)
Definition writer_drop : WriterM unit := _ ← attempt (E := OpusError) opus_flush; mret tt.

Definition opus_check (what : string) (code : Z) : result unit OpusError :=
  if code =? OPUS_OK then Ok tt else Err (Codec what code).

(** The settings, in order; the first that is refused ends it. *)
Fixpoint configure (e : Encoder) (rs : list (string * EncoderRequest)) : result Encoder OpusError :=
  match rs with
  | [] => Ok e
  | (what, r) :: rs =>
      let '(code, e) := encoder_ctl e r in
      let? _ := opus_check what code in configure e rs
  end.

Definition SETTINGS : list (string * EncoderRequest) :=
  [("OPUS_SET_BITRATE", SET_BITRATE BITRATE_BPS); ("OPUS_SET_VBR", SET_VBR 1);
   ("OPUS_SET_VBR_CONSTRAINT", SET_VBR_CONSTRAINT 0); ("OPUS_SET_SIGNAL", SET_SIGNAL_VOICE);
   ("OPUS_SET_DTX", SET_DTX 0); ("OPUS_SET_EXPERT_FRAME_DURATION", SET_EXPERT_FRAME_DURATION_20_MS)].

(** A mono 24 kbps VOIP encoder and its lookahead. *)
Definition open_encoder (rate : Z) : result (Encoder * Z) OpusError :=
  let '(err, raw) := encoder_create rate in
  let? _ := opus_check "opus_encoder_create" err in
  match raw with
  | None => Err (Codec "opus_encoder_create" OPUS_ALLOC_FAIL)
  | Some e =>
      let? e := configure e SETTINGS in
      let '(err, lookahead) := get_lookahead e in
      let? _ := opus_check "OPUS_GET_LOOKAHEAD" err in
      Ok (e, lookahead)
  end.

(** The writer before its headers. *)
Definition blank_writer (e : Encoder) (lookahead : Z) (b : BufWriter) (serial rate page_interval_ms : Z) : OpusOggWriter :=
  let gps := GRANULE_RATE / rate in
  mkWriter e muxer_new b serial rate (Z.to_nat (rate * FRAME_MS / 1000)) gps (Z.max lookahead 0 * gps) [] 0
    (Z.max (page_interval_ms / FRAME_MS) 1) 0 0 0 0.

(** A method run on a writer the caller gets only if it succeeds. *)
Definition make_writer {A} (m : WriterM A) (o : OpusOggWriter) : IO OpusError OpusOggWriter := fun w =>
  match m (o, w) with
  | (Returned _, (o', w')) => (Returned o', w')
  | (Killed, (_, w')) => (Killed, w')
  | (Raised e, (o', w')) =>
      match writer_drop (o', w') with
      | (Killed, (_, w2)) => (Killed, w2)
      | (_, (_, w2)) => (Raised e, w2)
      end
  end.

(** [serial] is what [stream_serial] drew. *)
Definition with_page_interval (version : string) (serial : Z) (b : BufWriter) (rate page_interval_ms : Z)
  : IO OpusError OpusOggWriter :=
  _ ← guard_io (supported rate) (UnsupportedRate rate);
  '(e, lookahead) ← of_result (open_encoder rate);
  make_writer (write_headers version) (blank_writer e lookahead b serial rate page_interval_ms).

Definition writer_new (version : string) (serial : Z) (b : BufWriter) (rate : Z) : IO OpusError OpusOggWriter :=
  with_page_interval version serial b rate PAGE_INTERVAL_MS.

(** [create(true).truncate(true)] with [O_NOFOLLOW], which refuses a link. *)
Definition writer_create (version : string) (serial : Z) (p : path) (rate : Z) : IO OpusError OpusOggWriter :=
  _ ← map_err opus_io (open_truncate p);
  writer_new version serial (mkBuf p []) rate.

(** ** The stream a recording becomes *)

Fixpoint push_all (blocks : list (list Z)) : WriterM unit :=
  match blocks with
  | [] => mret tt
  | b :: blocks => _ ← push_i16 b; push_all blocks
  end.

(** The frames of a recording of [n] samples: its whole frames, then its tail. *)
Definition stream_frames (o : OpusOggWriter) (n : nat) : nat :=
  n / frame_samples o + Z.to_nat (tail_frames (set_pending o (replicate (n mod frame_samples o) 0) 0)).

(** Frame [i] of [N], cut out of the padded samples: pages end every
    [frames_per_page] frames and with the stream; a granule counts the samples up to
    its frame's end, the last one those of the recording past the lookahead. *)
Definition entry (o : OpusOggWriter) (n : nat) (padded : list Z) (N i : nat) : list Z * PacketWriteEndInfo * Z :=
  let fs := frame_samples o in
  (take fs (drop (i * fs) padded),
   if decide (S i = N) then EndStream
   else if Z.of_nat (S i) mod frames_per_page o =? 0 then EndPage else NormalPacket,
   if decide (S i = N) then pre_skip o + Z.of_nat n * granule_per_sample o
   else Z.of_nat (S i) * Z.of_nat fs * granule_per_sample o).

Definition script (o : OpusOggWriter) (xs : list Z) : list (list Z * PacketWriteEndInfo * Z) :=
  let N := stream_frames o (length xs) in
  entry o (length xs) (resize_i16 (N * frame_samples o) xs) N <$> seq 0 N.

Fixpoint run_script (s : list (list Z * PacketWriteEndInfo * Z)) : WriterM unit :=
  match s with
  | [] => mret tt
  | (frame, end_, granule) :: s => _ ← encode_frame frame end_ granule; run_script s
  end.

(** The whole recording at once. *)
Definition write_recording (xs : list Z) : WriterM OpusStats :=
  o ← get_self;
  _ ← run_script (script o xs);
  _ ← opus_flush;
  o ← get_self;
  mret (mkStats (o_packets o) (payload_bytes o) (zlen xs) (pages o) (o_rate o)).

(** *** Encoding does not look at what is pending *)

Definition with_pending {A} (p : list Z) (n : Z) (r : Outcome OpusError A * (OpusOggWriter * World)) :
  Outcome OpusError A * (OpusOggWriter * World) := (r.1, (set_pending r.2.1 p n, r.2.2)).

Lemma bind_eq {W E A B} (m : Eff W E A) (k : A -> Eff W E B) w :
  (m ≫= k) w = match m w with (Returned a, w') => k a w' | (Raised e, w') => (Raised e, w') | (Killed, w') => (Killed, w') end.
Proof. done. Qed.

Lemma on_sink_pending {A} (m : Eff (BufWriter * World) IoErr A) o p n w :
  on_sink m (set_pending o p n, w) = with_pending p n (on_sink m (o, w)).
Proof. unfold on_sink. simpl. by destruct (m (sink o, w)) as [[a|e|] [b w']]. Qed.

Lemma mux_pending packet end_ granule o p n w :
  mux packet end_ granule (set_pending o p n, w) = with_pending p n (mux packet end_ granule (o, w)).
Proof.
  unfold mux. rewrite !bind_get_self. simpl. destruct (write_packet (ogg o) packet (o_serial o) end_ granule) as [out m].
  rewrite !bind_set_self. exact (on_sink_pending _ (set_mux o m) p n w).
Qed.

Lemma encode_frame_pending frame end_ granule o p n w :
  encode_frame frame end_ granule (set_pending o p n, w) = with_pending p n (encode_frame frame end_ granule (o, w)).
Proof.
  unfold encode_frame. rewrite !bind_get_self. simpl. destruct (opus_encode (enc o) frame MAX_PACKET_BYTES) as [[packet|code] e].
  - rewrite !bind_set_self. set (o1 := set_counts (set_encoder o e) (wadd (o_packets o) 1) (wadd (payload_bytes o) (zlen packet))).
    change (set_counts (set_encoder (set_pending o p n) e) _ _) with (set_pending o1 p n).
    rewrite !bind_eq, mux_pending. unfold with_pending at 1.
    destruct (mux packet end_ granule (o1, w)) as [[[]|x|] [o2 w2]]; simpl; [|done|done].
    rewrite !bind_get_self. destruct (decide (end_ = NormalPacket)); [done|]. rewrite !bind_set_self.
    exact (on_sink_pending flush_buf (set_page o2 0 (wadd (pages o2) 1)) p n w2).
  - by rewrite !bind_set_self.
Qed.

(** What a frame that went well leaves of the writer. *)
Definition same_stream (o o' : OpusOggWriter) : Prop :=
  frame_samples o' = frame_samples o /\ granule_per_sample o' = granule_per_sample o /\ pre_skip o' = pre_skip o /\
  frames_per_page o' = frames_per_page o /\ o_rate o' = o_rate o.

Lemma on_sink_shape {A} (m : Eff (BufWriter * World) IoErr A) o w : exists b, (on_sink m (o, w)).2.1 = set_sink o b.
Proof. unfold on_sink. destruct (m (sink o, w)) as [[a|e|] [b w']]; by exists b. Qed.

Lemma encode_frame_shape frame end_ granule o w o' w' :
  encode_frame frame end_ granule (o, w) = (Returned tt, (o', w')) ->
  same_stream o o' /\ o_packets o' = wadd (o_packets o) 1 /\
  frames_in_page o' = (if decide (end_ = NormalPacket) then (frames_in_page o + 1) mod 2 ^ 32 else 0).
Proof.
  unfold encode_frame. rewrite bind_get_self. destruct (opus_encode (enc o) frame MAX_PACKET_BYTES) as [[packet|code] e].
  - rewrite bind_set_self. intros Hr. apply bind_inv in Hr as ([] & [o1 w1] & Hm & Hr). unfold mux in Hm. rewrite bind_get_self in Hm.
    simpl in Hm. destruct (write_packet (ogg o) packet (o_serial o) end_ granule) as [out m]. rewrite bind_set_self in Hm.
    destruct (on_sink_shape (write_chunks_to out)
      (set_mux (set_counts (set_encoder o e) (wadd (o_packets o) 1) (wadd (payload_bytes o) (zlen packet))) m) w) as [b Hb].
    rewrite Hm in Hb. simpl in Hb. subst o1. rewrite bind_get_self in Hr. destruct (decide (end_ = NormalPacket)).
    + by injection Hr as <- <-.
    + rewrite bind_set_self in Hr. unfold opus_flush in Hr.
      match type of Hr with on_sink flush_buf (?o2, _) = _ => destruct (on_sink_shape flush_buf o2 w1) as [b2 Hb2] end.
      rewrite Hr in Hb2. simpl in Hb2. by subst o'.
  - by rewrite bind_set_self.
Qed.

(** *** Following the script *)

(** A run that goes as the reference does: the same outcome and the same world, and
    when it returns the same writer but for what waits. *)
Definition follows (r r2 : Outcome OpusError unit * (OpusOggWriter * World)) (p : list Z) (n : Z) : Prop :=
  r.1 = r2.1 /\ r.2.2 = r2.2.2 /\ (r.1 = Returned tt -> r.2.1 = set_pending r2.2.1 p n).

Lemma follows_bind (m m2 : WriterM unit) (k k2 : unit -> WriterM unit) o1 o w p n p' n' :
  follows (m (o1, w)) (m2 (o, w)) p n ->
  (forall o' w', m2 (o, w) = (Returned tt, (o', w')) ->
     follows (k tt (set_pending o' p n, w')) (k2 tt (o', w')) p' n') ->
  follows ((m ≫= k) (o1, w)) ((m2 ≫= k2) (o, w)) p' n'.
Proof.
  intros (E1 & E2 & E3) Hk. rewrite !bind_eq. destruct (m (o1, w)) as [r [oa wa]], (m2 (o, w)) as [r2 [ob wb]]. simpl in *.
  subst r2 wb. destruct r as [[]|e|]; [rewrite (E3 eq_refl); by apply Hk | done | done].
Qed.

Lemma run_script_app s1 s2 st : run_script (s1 ++ s2) st = (_ ← run_script s1; run_script s2) st.
Proof.
  revert st. induction s1 as [|[[f e] g] s1 IH]; intros st; [done|]. simpl. rewrite bind_eq. rewrite (bind_eq (_ ≫= _)), (bind_eq (encode_frame f e g)).
  destruct (encode_frame f e g st) as [[[]|x|] st']; [|done|done]. rewrite IH. by rewrite bind_eq.
Qed.

(** [i] frames of the stream are written. *)
Definition at_frame (s o : OpusOggWriter) (i : nat) : Prop :=
  same_stream s o /\ o_packets o = Z.of_nat i /\ frames_in_page o = Z.of_nat i mod frames_per_page s.

Definition sound_writer (s : OpusOggWriter) : Prop :=
  (0 < frame_samples s)%nat /\ 0 < granule_per_sample s /\ 1 <= frames_per_page s < 2 ^ 32 /\
  exists lookahead, 0 <= lookahead /\ pre_skip s = lookahead * granule_per_sample s.

Lemma page_end_at s o i : sound_writer s -> at_frame s o i ->
  page_end o = if Z.of_nat (S i) mod frames_per_page s =? 0 then EndPage else NormalPacket.
Proof.
  intros (_ & _ & Hp & _) ((_ & _ & _ & Ef & _) & _ & Ei). unfold page_end. rewrite Ef, Ei. set (k := frames_per_page s) in *.
  pose proof (Z.mod_pos_bound (Z.of_nat i) k ltac:(lia)). rewrite (Z.mod_small (_ + 1)) by lia.
  replace (Z.of_nat (S i)) with (Z.of_nat i + 1) by lia. destruct (Z.leb_spec k (Z.of_nat i mod k + 1)).
  - assert (Z.of_nat i mod k + 1 = k) by lia. rewrite <-Zplus_mod_idemp_l. replace (Z.of_nat i mod k + 1) with k by lia.
    by rewrite Z.mod_same by lia.
  - rewrite <-Zplus_mod_idemp_l, Z.mod_small by lia. by rewrite (proj2 (Z.eqb_neq _ _)) by lia.
Qed.

Lemma at_frame_step s o i frame end_ granule w o' w' :
  sound_writer s -> at_frame s o i -> Z.of_nat (S i) < 2 ^ 64 -> end_ = page_end o ->
  encode_frame frame end_ granule (o, w) = (Returned tt, (o', w')) -> at_frame s o' (S i).
Proof.
  intros Hs Hat Hi -> Hr. pose proof (page_end_at s o i Hs Hat) as Hpe. destruct Hs as (_ & _ & Hp & _). pose proof Hat as (Hss & Ep & Ei).
  destruct (encode_frame_shape _ _ _ _ _ _ _ Hr) as (Hss' & Ep' & Ei').
  split; [|split].
  - destruct Hss as (? & ? & ? & ? & ?), Hss' as (? & ? & ? & ? & ?). split_and!; congruence.
  - rewrite Ep', Ep. rewrite wadd_small; unfold u64_max; lia.
  - rewrite Ei', Hpe. set (k := frames_per_page s) in *. pose proof (Z.mod_pos_bound (Z.of_nat i) k ltac:(lia)).
    replace (Z.of_nat (S i)) with (Z.of_nat i + 1) by lia.
    destruct (Z.eqb_spec ((Z.of_nat i + 1) mod k) 0) as [->|Hne]; [done|]. simpl. rewrite Ei.
    rewrite (Z.mod_small (_ + 1) (2 ^ 32)) by lia. rewrite <-Zplus_mod_idemp_l. symmetry. apply Z.mod_small.
    assert (Z.of_nat i mod k + 1 <> k); [|lia]. intros Heq. apply Hne. rewrite <-Zplus_mod_idemp_l, Heq. by apply Z.mod_same; lia.
Qed.

Section Stream.
Context (s : OpusOggWriter) (n N : nat) (padded : list Z).
Context (Hs : sound_writer s) (Hbound : Z.of_nat (N * frame_samples s) * granule_per_sample s < 2 ^ 64).

Abbreviation fs := (frame_samples s).
Abbreviation entries_from i k := (entry s n padded N <$> seq i k).

Lemma frames_bound i : (i <= N)%nat -> Z.of_nat i < 2 ^ 64 /\ Z.of_nat i * Z.of_nat fs < 2 ^ 64 /\
  Z.of_nat i * Z.of_nat fs * granule_per_sample s < 2 ^ 64.
Proof.
  intros Hi. destruct Hs as (Hf & Hg & _). rewrite Nat2Z.inj_mul in Hbound.
  assert (Z.of_nat i * Z.of_nat fs <= Z.of_nat N * Z.of_nat fs) by nia.
  assert (Z.of_nat i * Z.of_nat fs * granule_per_sample s <= Z.of_nat N * Z.of_nat fs * granule_per_sample s)
    by (apply Z.mul_le_mono_nonneg_r; lia).
  assert (0 <= Z.of_nat i * Z.of_nat fs) by nia. assert (Z.of_nat i <= Z.of_nat i * Z.of_nat fs) by nia.
  assert (Z.of_nat i * Z.of_nat fs <= Z.of_nat i * Z.of_nat fs * granule_per_sample s) by nia. lia.
Qed.

Lemma entry_running o i : at_frame s o i -> S i <> N ->
  entry s n padded N i = (take fs (drop (i * fs) padded), page_end o, Z.of_nat (S i) * Z.of_nat fs * granule_per_sample s).
Proof. intros Hat Hi. unfold entry. rewrite !decide_False by done. by rewrite (page_end_at s o i Hs Hat). Qed.

Lemma run_entries_at k i o w o' w' :
  at_frame s o i -> (i + k < N)%nat -> run_script (entries_from i k) (o, w) = (Returned tt, (o', w')) -> at_frame s o' (i + k).
Proof.
  revert i o w. induction k as [|k IH]; intros i o w Hat Hk Hr.
  - injection Hr as <- <-. by rewrite Nat.add_0_r.
  - cbn [seq fmap list_fmap] in Hr. rewrite (entry_running o i Hat ltac:(lia)) in Hr. cbn [run_script] in Hr.
    apply bind_inv in Hr as ([] & [o1 w1] & He & Hr). replace (i + S k)%nat with (S i + k)%nat by lia.
    apply (IH _ o1 w1); [|lia|done]. eapply at_frame_step; [done | done | apply frames_bound; lia | reflexivity | done].
Qed.

Lemma div_step (a b : nat) : (0 < b <= a)%nat -> (a / b = S ((a - b) / b))%nat.
Proof. intros Hb. replace a with (a - b + 1 * b)%nat at 1 by lia. rewrite Nat.div_add by lia. lia. Qed.

Lemma drain_follows rounds o w p future i cnt :
  at_frame s o i -> p ++ future = drop (i * fs) padded -> cnt = Z.of_nat (i * fs + length p) ->
  (length p <= rounds)%nat -> (i + length p / fs < N)%nat -> cnt < 2 ^ 64 ->
  follows (drain_rounds rounds (set_pending o p cnt, w)) (run_script (entries_from i (length p / fs)) (o, w))
    (drop (length p / fs * fs) p) cnt.
Proof.
  revert o w p i. induction rounds as [|rounds IH]; intros o w p i Hat Hp Hc Hr Hi Hcb; destruct Hs as (Hf & Hg & _).
  - assert (length p = 0)%nat as -> by lia. rewrite Nat.Div0.div_0_l. done.
  - cbn [drain_rounds]. rewrite bind_get_self. simpl. pose proof Hat as ((Ef & Eg & _) & _ & _). rewrite Ef.
    destruct (Nat.ltb_spec (length p) fs) as [Hlt|Hge]; [by rewrite Nat.div_small by lia|]. rewrite bind_set_self.
    rewrite (div_step (length p) fs) by lia. rewrite (div_step (length p) fs) in Hi by lia.
    cbn [seq fmap list_fmap]. rewrite (entry_running o i Hat ltac:(lia)). cbn [run_script].
    change (set_pending (set_pending o p cnt) (drop fs p) cnt) with (set_pending o (drop fs p) cnt).
    change (page_end (set_pending o (drop fs p) cnt)) with (page_end o).
    assert (take fs (drop (i * fs) padded) = take fs p) as -> by (rewrite <-Hp; apply take_app_le; lia).
    assert (wmul (consumed_samples (set_pending o (drop fs p) cnt)) (granule_per_sample o) =
              Z.of_nat (S i) * Z.of_nat fs * granule_per_sample s) as Hgr.
    { assert (consumed_samples (set_pending o (drop fs p) cnt) = Z.of_nat (S i) * Z.of_nat fs) as ->.
      { unfold consumed_samples. cbn [o_input_samples o_pending set_pending]. pose proof (length_drop p fs) as Hl. unfold zlen.
        rewrite wsub_small; unfold u64_max; nia. }
      unfold wmul. rewrite Eg. pose proof (frames_bound (S i) ltac:(lia)). rewrite Z.mod_small; nia. }
    simpl granule_per_sample. rewrite Hgr.
    eapply (follows_bind (encode_frame _ _ _) (encode_frame _ _ _) (fun _ => drain_rounds rounds) (fun _ => run_script _)
              _ _ _ (drop fs p) cnt).
    + rewrite encode_frame_pending. unfold with_pending, follows. simpl. done.
    + intros o' w' He. assert (Hat' : at_frame s o' (S i)).
      { eapply at_frame_step; [done | done | apply frames_bound; lia | reflexivity | done]. }
      replace (drop (S ((length p - fs) / fs) * fs) p) with (drop (length (drop fs p) / fs * fs) (drop fs p))
        by (rewrite drop_drop, length_drop; f_equal; lia).
      rewrite <-(length_drop p fs) in Hi |- *. apply IH; try done; [|rewrite length_drop; lia|rewrite length_drop; lia|lia].
      rewrite <-(drop_app_le p future fs) by lia. rewrite Hp, drop_drop. f_equal. lia.
Qed.

(** The blocks pushed one after the other. *)
Lemma push_all_follows blocks o w p future i cnt :
  at_frame s o i -> (p ++ concat blocks) ++ future = drop (i * fs) padded -> cnt = Z.of_nat (i * fs + length p) ->
  (length p < fs)%nat -> (i + length (p ++ concat blocks) / fs < N)%nat -> cnt + zlen (concat blocks) < 2 ^ 64 ->
  let k := (length (p ++ concat blocks) / fs)%nat in
  follows (push_all blocks (set_pending o p cnt, w)) (run_script (entries_from i k) (o, w))
    (drop (k * fs) (p ++ concat blocks)) (cnt + zlen (concat blocks)).
Proof.
  revert o w p i cnt. induction blocks as [|b blocks IH]; intros o w p i cnt Hat Hp Hc Hl Hi Hb k.
  - simpl in k. unfold k. rewrite app_nil_r, Nat.div_small by done. simpl. unfold zlen. simpl. by rewrite Z.add_0_r, app_nil_r.
  - cbn [push_all]. unfold push_i16. cbn [concat] in *. unfold zlen in *. rewrite length_app in Hb.
    set (k1 := (length (p ++ b) / fs)%nat). set (p1 := drop (k1 * fs) (p ++ b)).
    assert (Hf : (0 < fs)%nat) by apply Hs.
    pose proof (Nat.div_mod (length (p ++ b)) fs ltac:(lia)) as Hdm. pose proof (Nat.mod_upper_bound (length (p ++ b)) fs ltac:(lia)) as Hub.
    fold k1 in Hdm. assert (Hp1 : length p1 = (length (p ++ b) - k1 * fs)%nat) by (unfold p1; by rewrite length_drop).
    assert (Hk : k = (k1 + length (p1 ++ concat blocks) / fs)%nat).
    { unfold k. rewrite app_assoc, length_app, (length_app p1), Hp1.
      replace (length (p ++ b) + length (concat blocks))%nat with (length (p ++ b) - k1 * fs + length (concat blocks) + k1 * fs)%nat by lia.
      rewrite Nat.div_add by lia. lia. }
    assert (Ec : wadd cnt (Z.of_nat (length b)) = Z.of_nat (i * fs + length (p ++ b))).
    { rewrite length_app. rewrite wadd_small; unfold u64_max; lia. }
    change (i + k < N)%nat in Hi. rewrite Hk in Hi |- *. rewrite seq_app, fmap_app.
    assert (E : forall st, run_script (entries_from i k1 ++ entries_from (i + k1) (length (p1 ++ concat blocks) / fs)) st =
                  (_ ← run_script (entries_from i k1); run_script (entries_from (i + k1) (length (p1 ++ concat blocks) / fs))) st)
      by (intros; apply run_script_app). rewrite E.
    replace (drop ((k1 + length (p1 ++ concat blocks) / fs) * fs) (p ++ b ++ concat blocks))
      with (drop (length (p1 ++ concat blocks) / fs * fs) (p1 ++ concat blocks)).
    2: { unfold p1. rewrite app_assoc. rewrite <-(drop_app_le (p ++ b)) by lia. rewrite drop_drop. f_equal. lia. }
    replace (cnt + Z.of_nat (length (b ++ concat blocks))) with (Z.of_nat (i * fs + length (p ++ b)) + Z.of_nat (length (concat blocks)))
      by (rewrite !length_app; lia).
    eapply (follows_bind _ _ (fun _ => push_all blocks) (fun _ => run_script _) _ _ _ p1 (Z.of_nat (i * fs + length (p ++ b)))).
    + rewrite bind_get_self, bind_set_self. cbn [o_pending o_input_samples set_pending]. unfold zlen. rewrite Ec.
      change (set_pending (set_pending o p cnt) (p ++ b) (Z.of_nat (i * fs + length (p ++ b))))
        with (set_pending o (p ++ b) (Z.of_nat (i * fs + length (p ++ b)))).
      unfold drain_full_frames. rewrite bind_get_self. cbn [o_pending set_pending].
      apply (drain_follows _ o w (p ++ b) (concat blocks ++ future) i); [done| |done|done| |rewrite length_app; lia].
      * by rewrite <-Hp, <-!app_assoc.
      * fold k1. lia.
    + intros o' w' Hr. apply IH.
      * eapply run_entries_at; [done| |done]. lia.
      * rewrite Nat.mul_add_distr_r, <-drop_drop, <-Hp. unfold p1.
        replace ((p ++ b ++ concat blocks) ++ future) with ((p ++ b) ++ concat blocks ++ future) by (by rewrite <-!app_assoc).
        rewrite (drop_app_le (p ++ b)) by lia. by rewrite app_assoc.
      * rewrite Hp1. lia.
      * rewrite Hp1. lia.
      * lia.
      * unfold zlen. rewrite length_app. lia.
Qed.

(** The frames of the tail. *)
Lemma finish_frames_follows k o w i cnt final :
  at_frame s o i -> (i + k = N)%nat -> final = pre_skip s + Z.of_nat n * granule_per_sample s ->
  follows (finish_frames final ((fun j => take fs (drop (j * fs) padded)) <$> seq i k) (set_pending o [] cnt, w))
    (run_script (entries_from i k) (o, w)) [] cnt.
Proof.
  intros Hat Hk Hfin. revert o w i Hat Hk. induction k as [|k IH]; intros o w i Hat Hk; [done|].
  cbn [seq fmap list_fmap]. cbn [finish_frames]. rewrite bind_get_self.
  assert (He : entry s n padded N i = (take fs (drop (i * fs) padded),
      (if match (fun j => take fs (drop (j * fs) padded)) <$> seq (S i) k with [] => true | _ => false end then EndStream else page_end o),
      (if match (fun j => take fs (drop (j * fs) padded)) <$> seq (S i) k with [] => true | _ => false end then final
       else wmul (wmul (wadd (o_packets o) 1) (Z.of_nat (frame_samples o))) (granule_per_sample o)))).
  { destruct k as [|k].
    - simpl. unfold entry. rewrite !decide_True by lia. by rewrite Hfin.
    - simpl. rewrite (entry_running o i Hat) by lia. f_equal. pose proof Hat as ((Ef & Eg & _) & Ep & _). rewrite Ef, Eg, Ep.
      pose proof (frames_bound (S i) ltac:(lia)) as (B1 & B2 & B3). destruct Hs as (Hf & Hg & _).
      rewrite wadd_small by (unfold u64_max; lia). unfold wmul.
      replace (Z.of_nat i + 1) with (Z.of_nat (S i)) by lia. assert (0 <= Z.of_nat (S i) * Z.of_nat fs) by nia.
      rewrite (Z.mod_small (_ * Z.of_nat fs)) by lia. rewrite Z.mod_small; [done|]. nia. }
  rewrite He. cbn [run_script]. change (page_end (set_pending o [] cnt)) with (page_end o).
  eapply (follows_bind (encode_frame _ _ _) (encode_frame _ _ _) (fun _ => finish_frames _ _) (fun _ => run_script _) _ _ _ [] cnt).
  - rewrite encode_frame_pending. unfold with_pending, follows. simpl. done.
  - intros o' w' Hr. destruct k as [|k]; [done|]. apply IH; [|lia].
    eapply at_frame_step; [done | done | apply frames_bound; lia | | exact Hr]. done.
Qed.

End Stream.

Lemma div_ceil_spec a b : 0 < b -> a <= div_ceil a b * b < a + b.
Proof.
  intros Hb. unfold div_ceil. pose proof (Z.div_mod a b ltac:(lia)). pose proof (Z.mod_pos_bound a b Hb).
  destruct (Z.eqb_spec (a mod b) 0); nia.
Qed.

(** The frames hold the samples and the lookahead, and the last one is needed. *)
Lemma stream_frames_spec o n lookahead :
  (0 < frame_samples o)%nat -> 0 < granule_per_sample o -> 0 <= lookahead -> pre_skip o = lookahead * granule_per_sample o ->
  (n / frame_samples o < stream_frames o n)%nat /\
  Z.of_nat n + lookahead <= Z.of_nat (stream_frames o n * frame_samples o) /\
  Z.of_nat ((stream_frames o n - 1) * frame_samples o) <= Z.of_nat n + lookahead.
Proof.
  intros Hf Hg Hl Hp. unfold stream_frames, tail_frames. cbn [pre_skip granule_per_sample o_pending frame_samples set_pending].
  unfold zlen. rewrite length_replicate, Hp, Z.div_mul by lia. set (fs := frame_samples o) in *.
  pose proof (Nat.div_mod n fs ltac:(lia)). pose proof (Nat.mod_upper_bound n fs ltac:(lia)).
  pose proof (div_ceil_spec (Z.of_nat (n mod fs) + lookahead) (Z.of_nat fs) ltac:(lia)).
  set (c := div_ceil _ _) in *. set (q := (n / fs)%nat) in *. set (r := (n mod fs)%nat) in *. split; [lia|]. split.
  - nia.
  - destruct (Z.max_spec c 1) as [[? ->]|[? ->]].
    + replace (q + Z.to_nat 1 - 1)%nat with q by lia. nia.
    + nia.
Qed.

(** A writer that has written its headers and no audio. *)
Definition fresh_writer (o : OpusOggWriter) : Prop :=
  sound_writer o /\ o_packets o = 0 /\ frames_in_page o = 0 /\ o_pending o = [] /\ o_input_samples o = 0.

Lemma fresh_at_frame o : fresh_writer o -> at_frame o o 0 /\ o = set_pending o [] 0.
Proof.
  intros ((_ & _ & Hf & _) & Hp & Hi & Hq & Hn). split.
  - split; [done|]. split; [done|]. rewrite Hi. simpl. by rewrite Z.mod_0_l by lia.
  - destruct o. simpl in *. by subst.
Qed.

(** The samples padded to whole frames, past the ones drained. *)
Lemma padded_tail (fs k q : nat) (xs : list Z) :
  (length xs <= (q + k) * fs)%nat -> (q * fs <= length xs)%nat ->
  drop (q * fs) (resize_i16 ((q + k) * fs) xs) = resize_i16 (k * fs) (drop (q * fs) xs).
Proof.
  intros Hl Hq. unfold resize_i16. rewrite !take_ge by (rewrite ?length_drop; lia). rewrite drop_app_le by lia.
  f_equal. rewrite length_drop. f_equal. lia.
Qed.

Lemma tail_frames_pending o p p' n n' : length p = length p' -> tail_frames (set_pending o p n) = tail_frames (set_pending o p' n').
Proof. intros Hl. unfold tail_frames, zlen. simpl. by rewrite Hl. Qed.

(** Closing a stream whose whole frames are written. *)
Lemma finish_agrees s o w xs i :
  sound_writer s -> at_frame s o i -> i = (length xs / frame_samples s)%nat ->
  Z.of_nat (stream_frames s (length xs) * frame_samples s) * granule_per_sample s < 2 ^ 64 ->
  let N := stream_frames s (length xs) in
  let r := finish (set_pending o (drop (i * frame_samples s) xs) (zlen xs), w) in
  let r2 := (_ ← run_script (entry s (length xs) (resize_i16 (N * frame_samples s) xs) N <$> seq i (N - i));
             _ ← opus_flush; o ← get_self;
             mret (mkStats (o_packets o) (payload_bytes o) (zlen xs) (pages o) (o_rate o))) (o, w) in
  r.1 = r2.1 /\ r.2.2 = r2.2.2.
Proof.
  intros Hs Hat Hi Hb N r r2. pose proof Hs as (Hf & Hg & _ & la & Hla & Hps). set (fs := frame_samples s) in *.
  destruct (stream_frames_spec s (length xs) la Hf Hg Hla Hps) as (Hlt & Hge & _). fold N fs in Hlt, Hge, Hb.
  pose proof (Nat.div_mod (length xs) fs ltac:(lia)) as Hdm. rewrite <-Hi in Hlt, Hdm.
  set (p := drop (i * fs) xs). assert (Hlp : length p = (length xs mod fs)%nat) by (unfold p; rewrite length_drop; lia).
  pose proof Hat as ((Ef & Eg & Eps & _) & _ & _).
  assert (Hk : Z.to_nat (tail_frames (set_pending o p (zlen xs))) = (N - i)%nat).
  { unfold N, stream_frames. fold fs. rewrite <-Hi. unfold tail_frames, zlen. simpl. rewrite Ef, Eg, Eps, Hlp, length_replicate. fold fs. lia. }
  unfold r, finish. fold fs p. rewrite bind_get_self. cbn zeta. rewrite Hk. cbn [frame_samples pre_skip o_input_samples granule_per_sample o_pending set_pending].
  rewrite Ef, Eg, Eps. fold fs. rewrite bind_set_self.
  change (set_pending (set_pending o p (zlen xs)) [] (zlen xs)) with (set_pending o [] (zlen xs)).
  assert (Hfin : wadd (pre_skip s) (wmul (zlen xs) (granule_per_sample s)) = pre_skip s + Z.of_nat (length xs) * granule_per_sample s).
  { unfold zlen, wmul. assert ((la + Z.of_nat (length xs)) * granule_per_sample s <= Z.of_nat (N * fs) * granule_per_sample s)
      by (apply Z.mul_le_mono_nonneg_r; lia).
    assert (0 <= Z.of_nat (length xs) * granule_per_sample s) by nia. assert (0 <= pre_skip s) by nia.
    rewrite Z.mod_small by lia. rewrite wadd_small; unfold u64_max; lia. }
  rewrite Hfin. set (padded := resize_i16 (N * fs) xs) in *.
  assert (Hfr : frames_of (N - i) fs (resize_i16 ((N - i) * fs) p) = (fun j => take fs (drop (j * fs) padded)) <$> seq i (N - i)).
  { unfold frames_of. assert (seq i (N - i) = Nat.add i <$> seq 0 (N - i)) as -> by (rewrite fmap_add_seq; f_equal; lia).
    rewrite <-list_fmap_compose. apply list_fmap_ext. intros ? j _. simpl.
    unfold padded. rewrite Nat.mul_add_distr_r, <-drop_drop. replace N with (i + (N - i))%nat at 2 by lia.
    rewrite padded_tail; [done| |]; [replace (i + (N - i))%nat with N by lia; lia | lia]. }
  rewrite Hfr.
  destruct (finish_frames_follows s (length xs) N padded Hs Hb (N - i) o w i (zlen xs) _ Hat ltac:(lia) eq_refl) as (E1 & E2 & E3).
  unfold r2. rewrite !bind_eq. destruct (finish_frames _ _ _) as [[[]|e|] [oa wa]], (run_script _ _) as [r' [ob wb]]; simpl in *; subst r' wb; [|done|done].
  rewrite (E3 eq_refl). rewrite !bind_eq. unfold opus_flush. rewrite on_sink_pending. unfold with_pending.
  destruct (on_sink flush_buf (ob, wa)) as [[[]|e|] [oc wc]]; simpl; done.
Qed.

(** Pushing in blocks and finishing runs the script of the concatenated samples. *)
Lemma writer_follows_script o blocks w :
  fresh_writer o ->
  Z.of_nat (stream_frames o (length (concat blocks)) * frame_samples o) * granule_per_sample o < 2 ^ 64 ->
  let r := (_ ← push_all blocks; finish) (o, w) in
  let reference := write_recording (concat blocks) (o, w) in
  r.1 = reference.1 /\ r.2.2 = reference.2.2.
Proof.
  intros Hfresh Hb r reference. destruct (fresh_at_frame o Hfresh) as [Hat Ho]. pose proof Hfresh as (Hs & _).
  pose proof Hs as (Hf & Hg & _ & la & Hla & Hps). set (xs := concat blocks) in *. set (fs := frame_samples o) in Hf, Hb. set (N := stream_frames o (length xs)) in *.
  destruct (stream_frames_spec o (length xs) la Hf Hg Hla Hps) as (Hlt & Hge & _). fold N fs in Hlt, Hge.
  set (i := (length xs / fs)%nat) in *. set (padded := resize_i16 (N * fs) xs).
  assert (Hxs : xs ++ replicate (N * fs - length xs) 0 = padded) by (unfold padded, resize_i16; rewrite take_ge by lia; done).
  assert (Hz : zlen xs < 2 ^ 64) by (unfold zlen; destruct (frames_bound o N Hs Hb N (le_n _)) as (_ & Hn & _); fold fs in Hn; lia).
  destruct (push_all_follows o (length xs) N padded Hs Hb blocks o w [] (replicate (N * fs - length xs) 0) 0 0 Hat) as (E1 & E2 & E3);
    [exact Hxs | done | exact Hf | exact Hlt | exact Hz |]. cbn [app] in E1, E2, E3. fold xs fs i in E1, E2, E3.
  assert (Hr : r = (_ ← push_all blocks; finish) (set_pending o [] 0, w)) by (unfold r; by rewrite <-Ho).
  assert (Href : reference = (_ ← run_script (entry o (length xs) padded N <$> seq 0 i);
    _ ← run_script (entry o (length xs) padded N <$> seq i (N - i)); _ ← opus_flush; o ← get_self;
    mret (mkStats (o_packets o) (payload_bytes o) (zlen xs) (pages o) (o_rate o))) (o, w)).
  { unfold reference, write_recording. rewrite bind_get_self. unfold script. fold xs N fs padded.
    replace (seq 0 N) with (seq 0 i ++ seq i (N - i)) by (rewrite <-seq_app; f_equal; lia).
    rewrite fmap_app, bind_eq, run_script_app, !bind_eq. by destruct (run_script _ (o, w)) as [[[]|e|] [o' w']]. }
  rewrite Hr, Href. rewrite (bind_eq (push_all blocks)), (bind_eq (run_script _)).
  destruct (push_all blocks _) as [[[]|e|] [oa wa]], (run_script (entry o (length xs) padded N <$> seq 0 i) (o, w)) as [r' [ob wb]] eqn:Hrun;
    simpl in E1, E2, E3; subst r' wb; [|done|done].
  rewrite (E3 eq_refl). apply (finish_agrees o ob wa xs i Hs); [|done|done].
  apply (run_entries_at o (length xs) N padded Hs Hb i 0 o w ob wa Hat); [lia | done].
Qed.

(** C19: The archive follows the samples alone.  Whatever blocks a recording is
    pushed in, and wherever encoding, muxing, the disk or the process fails, the
    writer does what the closed-form script says of the concatenated samples: the
    same frames through the encoder, with the same granule positions and page ends,
    the same writes to disk in the same order, and the same outcome. *)
Theorem archive_follows_the_samples o blocks w :
  fresh_writer o ->
  Z.of_nat (stream_frames o (length (concat blocks)) * frame_samples o) * granule_per_sample o < 2 ^ 64 ->
  let r := (_ ← push_all blocks; finish) (o, w) in
  let reference := write_recording (concat blocks) (o, w) in
  r.1 = reference.1 /\ r.2.2 = reference.2.2.
Proof. apply writer_follows_script. Qed.

(** The clock of the script. *)
Lemma script_clock o xs rate track :
  sound_writer o -> supported rate = true -> granule_per_sample o = GRANULE_RATE / rate ->
  track_rate_hz track = rate -> pcm_bytes track = 2 * zlen xs -> zlen xs * granule_per_sample o < 2 ^ 64 ->
  let s := script o xs in
  (exists silence, concat ((fun e => e.1.1) <$> s) = xs ++ replicate silence 0) /\
  Forall (fun e => length e.1.1 = frame_samples o) s /\
  (forall i j a b, (i <= j)%nat -> s !! i = Some a -> s !! j = Some b -> a.2 <= b.2) /\
  exists final, last ((fun e => e.2) <$> s) = Some final /\
    expected_ticks track (Some (mkFormat rate 1)) = Ok (final - pre_skip o) /\
    Z.of_nat ((length s - 1) * frame_samples o) * granule_per_sample o <= final /\
    final <= Z.of_nat (length s * frame_samples o) * granule_per_sample o.
Proof.
  intros Hs Hr Hgps Et Ep Hb s. pose proof Hs as (Hf & Hg & _ & la & Hla & Hps).
  destruct (stream_frames_spec o (length xs) la Hf Hg Hla Hps) as (Hlt & Hge & Hle). set (N := stream_frames o (length xs)) in *.
  set (fs := frame_samples o) in *. set (padded := resize_i16 (N * fs) xs).
  assert (Hpl : length padded = (N * fs)%nat) by (unfold padded, resize_i16; rewrite length_app, length_take, length_replicate; lia).
  assert (Hlen : length s = N) by (unfold s, script; by rewrite length_fmap, length_seq).
  assert (Hat : forall i a, s !! i = Some a -> (i < N)%nat /\ a = entry o (length xs) padded N i).
  { intros i a Ha. unfold s, script in Ha. fold N fs padded in Ha. rewrite list_lookup_fmap in Ha. apply fmap_Some in Ha as (j & Hj & ->).
    apply lookup_seq in Hj as [-> Hj]. done. }
  assert (Hfr : forall k i, (i + k <= N)%nat -> concat ((fun e => e.1.1) <$> (entry o (length xs) padded N <$> seq i k)) = take (k * fs) (drop (i * fs) padded)).
  { induction k as [|k IH]; intros i Hi; [done|]. cbn [seq fmap list_fmap concat]. rewrite IH by lia. simpl.
    fold fs. rewrite <-(take_take_drop (drop (i * fs) padded) fs (k * fs)), drop_drop.
    do 3 f_equal. lia. }
  split; [|split; [|split]].
  - exists (N * fs - length xs)%nat. unfold s, script. fold N fs padded. rewrite Hfr by lia. rewrite Nat.mul_0_l, drop_0, take_ge by lia.
    unfold padded, resize_i16. by rewrite take_ge by lia.
  - apply Forall_lookup. intros i a Ha. apply Hat in Ha as [Hi ->]. simpl. fold fs. rewrite length_take, length_drop, Hpl. nia.
  - intros i j a b Hij Ha Hb'. apply Hat in Ha as [Hi ->], Hb' as [Hj ->]. simpl. fold fs.
    destruct (decide (S j = N)), (decide (S i = N)); [lia | | lia | apply Z.mul_le_mono_nonneg_r; nia].
    assert (Z.of_nat (S i) * Z.of_nat fs <= Z.of_nat (length xs) + la) by nia. rewrite Hps. nia.
  - exists (pre_skip o + zlen xs * granule_per_sample o). split; [|split; [|split]].
    + unfold s, script. fold N fs padded. rewrite <-list_fmap_compose, fmap_last. rewrite last_lookup, length_seq, lookup_seq_lt by lia.
      simpl. rewrite decide_True by lia. done.
    + unfold expected_ticks. simpl. rewrite Et, Ep, Hr. unfold supported in Hr. apply bool_decide_eq_true in Hr.
      assert (Hrate : 0 < rate) by (unfold SUPPORTED_RATES in Hr; set_solver by lia).
      rewrite (proj2 (Z.eqb_neq rate 0)) by lia. simpl. replace (2 * zlen xs) with (zlen xs * 2) by lia. rewrite Z.mod_mul by lia. simpl.
      rewrite Z.eqb_refl. simpl. rewrite !Z.div_mul by lia. rewrite Z.div_1_r.
      change 48000 with GRANULE_RATE. rewrite <-Hgps, (proj2 (Z.leb_le _ _)) by (unfold u64_max; lia). f_equal. lia.
    + rewrite Hlen, Hps. unfold zlen. fold fs. nia.
    + rewrite Hlen, Hps. unfold zlen. fold fs. nia.
Qed.

(** C20: The stream's clock is exact.  Push a recording in any blocks and finish: the
    writer encodes, in order, a list of frames with their granules, flushes and
    reports, with the very outcome and writes of doing just that.  Put end to end the
    frames are the samples and a padding of silence, each frame whole; granules never
    go back; the last one is the pre-skip and the samples, no more than the frames
    decode to, and the frames before it decode to no more than that: so the decoded
    length, pre-skip and padding trimmed, is what the verifier expects of the raw
    audio. *)
Theorem stream_clock_is_exact o blocks w rate track :
  let xs := concat blocks in
  fresh_writer o -> supported rate = true -> granule_per_sample o = GRANULE_RATE / rate ->
  track_rate_hz track = rate -> pcm_bytes track = 2 * zlen xs ->
  Z.of_nat (stream_frames o (length xs) * frame_samples o) * granule_per_sample o < 2 ^ 64 ->
  let r := (_ ← push_all blocks; finish) (o, w) in
  exists s final,
    (let run := (_ ← run_script s; _ ← opus_flush; o' ← get_self;
                 mret (mkStats (o_packets o') (payload_bytes o') (zlen xs) (pages o') (o_rate o'))) (o, w) in
     r.1 = run.1 /\ r.2.2 = run.2.2) /\
    (exists silence, concat ((fun e => e.1.1) <$> s) = xs ++ replicate silence 0) /\
    Forall (fun e => length e.1.1 = frame_samples o) s /\
    (forall i j a b, (i <= j)%nat -> s !! i = Some a -> s !! j = Some b -> a.2 <= b.2) /\
    last ((fun e => e.2) <$> s) = Some final /\
    expected_ticks track (Some (mkFormat rate 1)) = Ok (final - pre_skip o) /\
    Z.of_nat ((length s - 1) * frame_samples o) * granule_per_sample o <= final /\
    final <= Z.of_nat (length s * frame_samples o) * granule_per_sample o.
Proof.
  intros xs Hfresh Hr Hgps Et Ep Hb r. pose proof Hfresh as (Hs & _). pose proof Hs as (Hf & Hg & _ & la & Hla & Hps).
  destruct (stream_frames_spec o (length xs) la Hf Hg Hla Hps) as (_ & Hge & _).
  destruct (script_clock o xs rate track Hs Hr Hgps Et Ep ltac:(unfold zlen; nia)) as (H1 & H2 & H3 & final & H4).
  exists (script o xs), final. split; [exact (writer_follows_script o blocks w Hfresh Hb)|].
  exact (conj H1 (conj H2 (conj H3 H4))).
Qed.

End Writer.

(** ** Toy libraries *)

Module Echo.

(** One byte per frame, and a muxer that writes packets through. *)
#[local] Instance echo_opus : LibOpus := {|
  Encoder := Z;
  encoder_create rate := (OPUS_OK, Some 0);
  encoder_ctl e _ := (OPUS_OK, e);
  get_lookahead _ := (OPUS_OK, 104);
  opus_encode e frame _ := (Ok [Z.of_nat (length frame) mod 256], e + 1);
|}.

#[local] Instance through : OggMuxer := {|
  Muxer := Z;
  muxer_new := 0;
  write_packet m packet _ _ _ := ([packet], m + 1);
|}.

Definition file_path : path := ["system.opus"].
Definition calm : World := mkWorld {[file_path := NFile [] 0]} ∅ [] [] [] 0.

Definition writer : OpusOggWriter := blank_writer 0 104 (mkBuf file_path []) 7 16000 PAGE_INTERVAL_MS.
Definition blocks : list (list Z) := [replicate 500 1; replicate 200 2].

Lemma writer_sound : sound_writer writer.
Proof. split_and!; [vm_compute; lia | vm_compute; done | vm_compute; done | vm_compute; done |]. exists 104. vm_compute. split; [discriminate | done]. Qed.

Lemma archive_follows_the_samples_witness :
  fresh_writer writer /\
  let r := (_ ← push_all blocks; finish) (writer, calm) in
  r.1 = (write_recording (concat blocks) (writer, calm)).1 /\ r.2.2 = (write_recording (concat blocks) (writer, calm)).2.2.
Proof.
  split; [split; [exact writer_sound | done]|].
  apply (archive_follows_the_samples writer blocks calm); [split; [exact writer_sound | done] | vm_compute; done].
Defined.

(** The outcome of that run: three frames of 700 samples. *)
Lemma sample_stats : (write_recording (concat blocks) (writer, calm)).1 = Returned (mkStats 3 3 700 1 16000).
Proof. vm_compute. reflexivity. Qed.

Lemma stream_clock_is_exact_witness :
  exists s final,
    ((_ ← push_all blocks; finish) (writer, calm)).1 =
      ((_ ← run_script s; _ ← opus_flush; o' ← get_self;
        mret (mkStats (o_packets o') (payload_bytes o') 700 (pages o') (o_rate o'))) (writer, calm)).1 /\
    last ((fun e => e.2) <$> s) = Some final /\
    expected_ticks (mkTrack SYSTEM_OPUS 1400 3 43 16000) (Some (mkFormat 16000 1)) = Ok (final - pre_skip writer).
Proof.
  assert (Hfresh : fresh_writer writer) by (split; [exact writer_sound | done]).
  pose proof (stream_clock_is_exact writer blocks calm 16000 (mkTrack SYSTEM_OPUS 1400 3 43 16000)) as H.
  destruct H as (s & final & [Hrun _] & _ & _ & _ & H1 & H2 & _);
    [exact Hfresh | vm_compute; reflexivity.. |].
  exists s, final. split; [exact Hrun|]. split; [exact H1 | exact H2].
Defined.

End Echo.
