(* ===== verification/Encode.v ===== *)
(** * From raw audio to archives

    [fotw-pipeline/src/wal.rs], the end of a session: [encode_track] and
    [encode_session] transcode the two PCM legs into Opus archives and record them
    in the manifest, [discard_pcm] unlinks the raw audio once both archives verify,
    [finalize_and_encode] does all of it.  Composes the rate converter, the archive
    writer, the verifier and the session directory; the libraries below them stay
    the classes [Rubato], [LibOpus], [OggMuxer] and [OpusDecoder]. *)

From S2P Require Import Prelude Bytes Text Float32 Float64 Json.
From S2P Require Import FileSystem WalTypes OpusArchive SessionDir Wal Dsp OpusWriter.

Local Open Scope Z_scope.

Definition TRANSCODE_CHUNK_SAMPLES : Z := 65536.

(** [BufReader::read] into a buffer of [cap] bytes at an offset: a regular file gives
    what is left, up to the buffer. *)
Definition read_chunk (p : path) (offset cap : nat) : IO IoErr bytes :=
  op all_or_nothing (fun d => match d !! p with
    | Some (NFile c _) => Ok (take cap (drop offset c), d)
    | Some _ => Err not_ordinary
    | None => Err not_found
    end).

(** [std::fs::metadata(p).map(|m| m.len()).unwrap_or(0)]. *)
Definition size_or_zero {E} (p : path) : IO E Z :=
  r ← attempt (metadata p);
  mret match r with Ok md => len md | Err _ => 0 end.

(** [Path::exists]. *)
Definition path_exists {E} (p : path) : IO E bool :=
  r ← attempt (metadata p);
  mret match r with Ok _ => true | Err _ => false end.

Section Encode.
Context `{Rubato, LibOpus, OggMuxer}.

Abbreviation WriterM := (Eff (OpusOggWriter * World) OpusError).

(** ** One leg *)

(** The transcode in progress: where the next read starts, the bytes of a frame not
    whole yet, the converter, the last sync. *)
Record Transcode := mkTranscode {
  t_offset : nat;
  t_carry : bytes;
  t_converter : option ArchiveConverter;
  t_last_sync : Z;
}.

(** [f32::from(i16) / 32_768.0]. *)
Definition sample_f32 (x : Z) : f32 := f32_div (f32_of_Z x) (f32_of_Z 32768).

Definition container {A} (r : result A ResampleError) : result A OpusError :=
  match r with Ok a => Ok a | Err e => Err (Container (resample_error_text e)) end.

(** A filter's answer; [None] only when the fuel was too small. *)
Definition settled_filter {A} (r : option (result A ResampleError)) : WriterM A :=
  match r with
  | Some r => of_result (container r)
  | None => raise (Container "unreachable: the filter settles")
  end.

(** Mono audio, converted when its rate is not one libopus takes, into the writer. *)
Definition push_converted (fuel : nat) (c : option ArchiveConverter) (mono : list f32) : WriterM (option ArchiveConverter) :=
  match c with
  | Some c =>
      '(c', out) ← settled_filter (converter_process fuel c mono);
      _ ← push_f32 out;
      mret (Some c')
  | None => _ ← push_f32 mono; mret None
  end.

(** One read that gave bytes. *)
Definition transcode_chunk (fuel : nat) (chans : Z) (t : Transcode) (bs : bytes) : WriterM Transcode :=
  let frame_bytes := Z.to_nat (BYTES_PER_SAMPLE * chans) in
  let carry := t_carry t ++ bs in
  let offset := (t_offset t + length bs)%nat in
  let usable := (length carry / frame_bytes * frame_bytes)%nat in
  if (usable =? 0)%nat then mret (mkTranscode offset carry (t_converter t) (t_last_sync t))
  else
    let interleaved := sample_f32 <$> samples_of_bytes (take usable carry) in
    c ← push_converted fuel (t_converter t) (to_mono interleaved chans);
    now ← lift instant_now;
    last ← (if SYNC_INTERVAL <=? dur_saturating_sub now (t_last_sync t)
            then _ ← opus_sync; lift instant_now else mret (t_last_sync t));
    mret (mkTranscode offset (drop usable carry) c last).

(** The read loop; every read but the last one fills the buffer, so [rounds] is
    enough when it exceeds the number of buffers the file takes. *)
Fixpoint transcode_loop (rounds fuel : nat) (p : path) (chans : Z) (t : Transcode) : WriterM Transcode :=
  match rounds with
  | O => mret t
  | S rounds =>
      bs ← lift (map_err opus_io (read_chunk p (t_offset t) (Z.to_nat (TRANSCODE_CHUNK_SAMPLES * BYTES_PER_SAMPLE))));
      match bs with
      | [] => mret t
      | _ => t ← transcode_chunk fuel chans t bs; transcode_loop rounds fuel p chans t
      end
  end.

Definition transcode_rounds (n : Z) : nat := Z.to_nat (n / (TRANSCODE_CHUNK_SAMPLES * BYTES_PER_SAMPLE) + 2).

(** Everything that is done to an open writer. *)
Definition transcode (fuel : nat) (n : Z) (p : path) (chans : Z) (c : option ArchiveConverter) : WriterM OpusStats :=
  c ← (if 0 <? n then
         _ ← lift (map_err opus_io (open_existing p));
         now ← lift instant_now;
         t ← transcode_loop (transcode_rounds n) fuel p chans (mkTranscode 0 [] c now);
         mret (t_converter t)
       else mret c);
  _ ← match c with
      | Some c => '(_, tail) ← settled_filter (converter_finish fuel c); push_f32 tail
      | None => mret tt
      end;
  finish.

(** A computation that consumes the writer. *)
Definition consume_writer {A} (m : WriterM A) (o : OpusOggWriter) : IO OpusError A := fun w =>
  match m (o, w) with
  | (Killed, (_, w')) => (Killed, w')
  | (r, (o', w')) =>
      match writer_drop (o', w') with
      | (Killed, (_, w2)) => (Killed, w2)
      | (_, (_, w2)) => (r, w2)
      end
  end.

(** The rate to encode at, and the converter to it if one is needed. *)
Definition plan_rate (rate : Z) : result (Z * option ArchiveConverter) OpusError :=
  if supported rate then Ok (rate, None)
  else match converter_new rate 1 TARGET_RATE 1 with
  | Ok c => Ok (TARGET_RATE, Some c)
  | Err e => Err (Container ("cannot resample " +:+ (pretty rate +:+ (" Hz: " +:+ resample_error_text e))))
  end.

Definition encode_track (fuel : nat) (version : string) (serial : Z) (dir output : path) (pcm_name opus_name : string)
    (format : TrackFormat) : IO OpusError EncodedTrack :=
  let pcm_path := dir /> pcm_name in
  let opus_path := output /> opus_name in
  n ← size_or_zero pcm_path;
  let f := sane format in
  '(encode_rate, c) ← of_result (plan_rate (sample_rate_hz f));
  o ← writer_create version serial opus_path encode_rate;
  stats ← consume_writer (transcode fuel n pcm_path (channels f) c) o;
  _ ← map_err opus_io (open_existing opus_path);
  _ ← map_err opus_io (sync_file opus_path);
  m ← size_or_zero opus_path;
  mret (mkTrack opus_name n m (stats_duration_ms stats) encode_rate).

(** ** The session *)

Context `{JsonDoc Manifest}.

(** Both inputs before either output: an existing archive is an ordinary file, and
    the raw audio is there, no shorter than the retained recording. *)
Definition preflight_leg (m : Manifest) (dir : path) (pcm opus : string) (minimum : Z) (is_mic : bool) : IO IoErr unit :=
  r ← attempt (symlink_metadata (dir /> opus));
  _ ← unless_missing r (fun md => guard_io (is_file md) (bad_data "archive destination is not an ordinary file"));
  r ← attempt (symlink_metadata (dir /> pcm));
  match r with
  | Ok md => guard_io (is_file md && (minimum <=? len md))
               (bad_data "raw archive source is unavailable or shorter than the retained recording")
  | Err e =>
      if decide (error_kind e = NotFound) then
        if is_mic && (minimum =? 0) && negb (is_some (mic_format m)) then
          r ← attempt (symlink_metadata (dir /> opus));
          match r with
          | Err e2 => if decide (error_kind e2 = NotFound) then mret tt else raise e
          | Ok _ => raise e
          end
        else raise e
      else raise e
  end.

Definition preflight (m : Manifest) (dir : path) : IO IoErr unit :=
  _ ← preflight_leg m dir SYSTEM_PCM SYSTEM_OPUS (match encoded m with Some e => pcm_bytes (e_system e) | None => 0 end) false;
  preflight_leg m dir MIC_PCM MIC_OPUS (match encoded m with Some e => pcm_bytes (e_mic e) | None => 0 end) true.

(** A generation that is not kept: its two tracks and its directory are removed. *)
Definition generation_drop (g : option path) : IO IoErr unit :=
  match g with
  | None => mret tt
  | Some p =>
      _ ← attempt (E := IoErr) (remove_file (p /> SYSTEM_OPUS));
      _ ← attempt (E := IoErr) (remove_file (p /> MIC_OPUS));
      _ ← attempt (E := IoErr) (remove_dir p);
      mret tt
  end.

(** An existing playable artifact is never overwritten: a retry writes a generation
    of its own. *)
Definition reserve_generation (pid : Z) (m : Manifest) (dir : path) : IO IoErr (option (string * path)) :=
  replacement ← (if is_some (encoded m) then mret true
                 else e ← path_exists (dir /> SYSTEM_OPUS);
                      if negb e then path_exists (dir /> MIC_OPUS) else mret true);
  if negb replacement then mret None
  else
    g ← reserve_session_dir dir (ident ← new_session_id pid; mret (ARCHIVE_PREFIX +:+ ident));
    mret (Some g).

Definition in_generation (g : option (string * path)) (name : string) (t : EncodedTrack) : EncodedTrack :=
  match g with
  | None => t
  | Some (prefix, _) =>
      mkTrack (prefix +:+ ("/" +:+ name)) (pcm_bytes t) (opus_bytes t) (track_duration_ms t) (track_rate_hz t)
  end.

(** Both tracks, into the generation or the directory itself. *)
Definition encode_tracks (fuel : nat) (version : string) (serials : Z * Z) (dir : path) (formats : SessionFormats)
    (g : option (string * path)) : IO OpusError EncodedSession :=
  let output := match g with Some (_, p) => p | None => dir end in
  s ← encode_track fuel version serials.1 dir output SYSTEM_PCM SYSTEM_OPUS (f_system formats);
  c ← encode_track fuel version serials.2 dir output MIC_PCM MIC_OPUS (f_mic formats);
  _ ← match g with Some (_, p) => map_err opus_io (sync_directory p) | None => mret tt end;
  mret (mkEncoded (in_generation g SYSTEM_OPUS s) (in_generation g MIC_OPUS c)).

(** Transcode a session's raw legs; the manifest selects both tracks atomically. *)
Definition encode_session (fuel : nat) (version : string) (pid : Z) (serials : Z * Z) (dir : path) : IO OpusError EncodedSession :=
  owning opus_io dir
    (m ← map_err opus_io (read_manifest dir);
     _ ← map_err opus_io (preflight m dir);
     formats ← map_err opus_io (track_formats m dir);
     g ← map_err opus_io (reserve_generation pid m dir);
     enc ← on_error (encode_tracks fuel version serials dir formats g) (generation_drop (snd <$> g));
     _ ← map_err opus_io (write_manifest_at dir (with_encoded m (Some enc)));
     mret enc).

(** ** Retiring the raw audio *)

Context `{OpusDecoder}.

(** [remove_file] of a leg, answering the bytes it frees. *)
Definition discard_leg (dir : path) (pcm : string) : IO IoErr Z :=
  size ← size_or_zero (dir /> pcm);
  r ← attempt (remove_file (dir /> pcm));
  match r with
  | Ok _ => mret size
  | Err e => if decide (error_kind e = NotFound) then mret 0 else raise e
  end.

(** Unlink a session's raw audio: both archives and both counts are checked before
    either leg goes. *)
Definition discard_pcm (dir : path) : IO IoErr Z :=
  owning (fun e => e) dir
    (m ← read_manifest dir;
     enc ← ok_or (encoded m) (mkIo InvalidInput "refusing to unlink PCM: the manifest records no Opus encode");
     formats ← track_formats m dir;
     _ ← verify_encoded_track dir SYSTEM_OPUS (e_system enc) (Some (f_system formats));
     _ ← verify_encoded_track dir MIC_OPUS (e_mic enc) (Some (f_mic formats));
     _ ← verify_retained_pcm dir enc;
     s ← discard_leg dir SYSTEM_PCM;
     c ← discard_leg dir MIC_PCM;
     mret (wadd s c)).

Context `{JsonDoc CaptureCheckpoint}.

(** Close, encode, and only then unlink. *)
Definition finalize_and_encode (fuel : nat) (version : string) (pid : Z) (serials : Z * Z) (l : SessionWal)
  : IO OpusError (path * EncodedSession) :=
  dir ← map_err opus_io (finalize l);
  enc ← encode_session fuel version pid serials dir;
  _ ← map_err opus_io (discard_pcm dir);
  mret (dir, enc).

End Encode.
