(* ===== verification/EncodeProofs.v ===== *)
(** * What encoding and discarding leave on disk

    Proofs about [Encode]: an encode touches nothing that was there but the
    manifest, and the manifest selects a pair of tracks only once both are durable;
    the raw audio goes only when both archives on disk verify. *)

From S2P Require Import Prelude Bytes Text Float32 Float64 Json.
From S2P Require Import FileSystem WalTypes OpusArchive SessionDir Wal Dsp OpusWriter Encode WalProofs Observe.

Local Open Scope Z_scope.

(** ** Operations that went well *)

Lemma op_run {A : Type} partly (whole : Disk -> result (A * Disk) IoErr) w a w' :
  op partly whole w = (Returned a, w') -> whole (disk w) = Ok (a, disk w').
Proof.
  unfold op. destruct (fates w) as [|[|why n gone] fs]; [| |by destruct why];
    (cbn [disk set_fates]; destruct (whole (disk w)) as [[b d]|e]; [|done]; by intros [= -> <-]).
Qed.

Lemma sync_file_run q w u w' : sync_file q w = (Returned u, w') -> disk w' = alter sync_node q (disk w).
Proof. intros Hr. apply op_run in Hr. by simplify_eq. Qed.

Lemma open_existing_run q w u w' : open_existing q w = (Returned u, w') -> exists c k, disk w' = disk w /\ disk w !! q = Some (NFile c k).
Proof. intros Hr. apply op_run in Hr. repeat case_match; simplify_eq. eauto. Qed.

Lemma read_file_run q w c w' : read_file q w = (Returned c, w') -> disk w' = disk w /\ exists k, disk w !! q = Some (NFile c k).
Proof. intros Hr. apply op_run in Hr. repeat case_match; simplify_eq. eauto. Qed.

Lemma create_dir_run p w u w' : create_dir p w = (Returned u, w') -> disk w !! p = None /\ disk w' = <[p := NDir]> (disk w).
Proof. intros Hr. apply op_run in Hr. repeat case_match; simplify_eq. eauto. Qed.

(** ** The writer touches its own file *)

(** From one state, whatever happens. *)
Definition goes {W E A} (T : W -> W -> Prop) (m : Eff W E A) (st : W) : Prop := T st (m st).2.

Lemma goes_bind {W E A B} (T : W -> W -> Prop) `{!PreOrder T} (m : Eff W E A) (k : A -> Eff W E B) st :
  goes T m st -> (forall a st', m st = (Returned a, st') -> goes T (k a) st') -> goes T (m ≫= k) st.
Proof.
  unfold goes. intros Hm Hk. rewrite bind_eq. destruct (m st) as [[a|e|] st'] eqn:Hr; [|done|done].
  etrans; [exact Hm|]. by apply Hk.
Qed.

Lemma goes_within {W E A} (T : W -> W -> Prop) (m : Eff W E A) st : within T m -> goes T m st.
Proof. by intros Hm; apply Hm. Qed.

(** A buffered file keeps its path, only that path changes, and an honest disk
    stays one. *)
Definition file_only (s s' : BufWriter * World) : Prop :=
  bw_path s'.1 = bw_path s.1 /\ same_except [bw_path s.1] (disk s.2) (disk s'.2) /\ (honest s.2 -> honest s'.2).

#[export] Instance file_only_preorder : PreOrder file_only.
Proof.
  split; [by intros [b w]|]. intros [b1 w1] [b2 w2] [b3 w3] (E1 & D1 & H1) (E2 & D2 & H2). simpl in *.
  split_and!; simpl; [congruence | rewrite E1 in D2; by etrans | auto].
Qed.

Lemma flush_buf_file : within file_only flush_buf.
Proof.
  intros [b w]. unfold flush_buf. destruct (bw_buf b) as [|x bs]; [by split|].
  pose proof (write_file_touches (bw_path b) (x :: bs) w) as Ht. pose proof (op_honest _ _ w : honest w -> honest (write_file (bw_path b) (x :: bs) w).2) as Hh.
  destruct (write_file _ _ w) as [[[]|e|] w']; by split_and!.
Qed.

Lemma bw_write_all_file bs : within file_only (bw_write_all bs).
Proof.
  intros st. unfold bw_write_all. destruct st as [b w]. rewrite bind_get_self. case_match; [by split|].
  apply (goes_bind file_only); [case_match; [apply (goes_within _ _ _ flush_buf_file) | by split]|].
  intros [] [b' w'] Hr. destruct (BUF_CAPACITY <=? length bs)%nat; [|by split].
  assert (Hp : bw_path b' = bw_path b).
  { destruct (BUF_CAPACITY - length (bw_buf b) <? length bs)%nat; [|by injection Hr as <- <-]. pose proof (flush_buf_file (b, w)) as [Hp _]. by rewrite Hr in Hp. }
  pose proof (write_file_touches (bw_path b) bs w') as Ht. pose proof (op_honest _ _ w' : honest w' -> honest (write_file (bw_path b) bs w').2) as Hh.
  unfold goes, lift, file_only. simpl. destruct (write_file (bw_path b) bs w') as [[[]|e|] w2]; simpl in *; rewrite Hp; by split_and!.
Qed.

Lemma write_chunks_file cs : within file_only (write_chunks_to cs).
Proof.
  induction cs as [|c cs IH]; [by intros [b w]|]. intros st. simpl. apply (goes_bind file_only); [apply bw_write_all_file|].
  intros _ st' _. apply IH.
Qed.

Lemma bw_sync_file : within file_only bw_sync.
Proof.
  intros [b w]. unfold bw_sync. rewrite bind_get_self. apply (goes_bind file_only); [apply flush_buf_file|].
  intros [] [b' w'] Hr. pose proof (flush_buf_file (b, w)) as [Hp _]. rewrite Hr in Hp. simpl in Hp.
  pose proof (sync_file_touches (bw_path b) w') as Ht. pose proof (op_honest _ _ w' : honest w' -> honest (sync_file (bw_path b) w').2) as Hh.
  unfold goes, lift, file_only. simpl. destruct (sync_file (bw_path b) w') as [[[]|e|] w2]; simpl in *; rewrite Hp; by split_and!.
Qed.

Section Writer.
Context `{Rubato, LibOpus, OggMuxer}.

Abbreviation WriterM := (Eff (OpusOggWriter * World) OpusError).

Definition sink_only (s s' : OpusOggWriter * World) : Prop := file_only (sink s.1, s.2) (sink s'.1, s'.2).

#[export] Instance sink_only_preorder : PreOrder sink_only.
Proof. split; [intros [o w]; unfold sink_only; reflexivity|]. intros [a b] [c d] [e f] H1' H2'. unfold sink_only in *. by etrans. Qed.

Lemma on_sink_file {A} (m : Eff (BufWriter * World) IoErr A) : within file_only m -> within sink_only (on_sink m).
Proof. intros Hm [o w]. specialize (Hm (sink o, w)). unfold on_sink, sink_only. by destruct (m (sink o, w)) as [[a|e|] [b w']]. Qed.

Lemma set_self_sink o o' w : sink o' = sink o -> goes sink_only (set_self (E := OpusError) o') (o, w).
Proof. intros E. unfold goes, sink_only, set_self. simpl. by rewrite E. Qed.

Lemma mux_sink packet end_ granule : within sink_only (mux packet end_ granule).
Proof.
  intros [o w]. unfold mux. rewrite bind_get_self. destruct (write_packet _ _ _ _ _) as [out m].
  apply (goes_bind sink_only); [by apply set_self_sink|]. intros [] st [= <-]. apply on_sink_file, write_chunks_file.
Qed.

Lemma opus_flush_sink : within sink_only opus_flush.
Proof. apply on_sink_file, flush_buf_file. Qed.

Lemma encode_frame_sink frame end_ granule : within sink_only (encode_frame frame end_ granule).
Proof.
  intros [o w]. unfold encode_frame. rewrite bind_get_self. destruct (opus_encode _ _ _) as [[packet|code] e].
  - apply (goes_bind sink_only); [by apply set_self_sink|]. intros [] st [= <-].
    apply (goes_bind sink_only); [apply mux_sink|]. intros [] [o' w'] _. unfold goes. rewrite bind_get_self.
    case_decide; [by apply set_self_sink|]. apply (goes_bind sink_only); [by apply set_self_sink|].
    intros [] st [= <-]. apply opus_flush_sink.
  - apply (goes_bind sink_only); [by apply set_self_sink|]. intros [] st [= <-]. unfold goes. reflexivity.
Qed.

Lemma drain_rounds_sink rounds : within sink_only (drain_rounds rounds).
Proof.
  induction rounds as [|rounds IH]; intros [o w]; [reflexivity|]. cbn [drain_rounds]. rewrite bind_get_self. case_match; [reflexivity|].
  apply (goes_bind sink_only); [by apply set_self_sink|]. intros [] st [= <-].
  apply (goes_bind sink_only); [apply encode_frame_sink|]. intros [] st _. apply IH.
Qed.

Lemma push_sink pcm : within sink_only (push_i16 pcm).
Proof.
  intros [o w]. unfold push_i16. rewrite bind_get_self. apply (goes_bind sink_only); [by apply set_self_sink|].
  intros [] [o' w'] _. unfold drain_full_frames, goes. rewrite bind_get_self. apply drain_rounds_sink.
Qed.

Lemma finish_frames_sink final frames : within sink_only (finish_frames final frames).
Proof.
  induction frames as [|f frames IH]; intros [o w]; [reflexivity|]. cbn [finish_frames]. rewrite bind_get_self.
  apply (goes_bind sink_only); [apply encode_frame_sink|]. intros [] st _. apply IH.
Qed.

Lemma finish_sink : within sink_only finish.
Proof.
  intros [o w]. unfold finish. rewrite bind_get_self. apply (goes_bind sink_only); [by apply set_self_sink|].
  intros [] st _. apply (goes_bind sink_only); [apply finish_frames_sink|]. intros [] st' _.
  apply (goes_bind sink_only); [apply opus_flush_sink|]. intros [] [o' w'] _. unfold goes. reflexivity.
Qed.

Lemma write_headers_sink version : within sink_only (write_headers version).
Proof.
  intros [o w]. unfold write_headers. rewrite bind_get_self. apply (goes_bind sink_only); [apply mux_sink|]. intros [] st _.
  apply (goes_bind sink_only); [apply mux_sink|]. intros [] [o' w'] _. unfold goes. rewrite bind_get_self.
  apply (goes_bind sink_only); [by apply set_self_sink|]. intros [] st' _. apply opus_flush_sink.
Qed.

Lemma writer_drop_sink : within sink_only writer_drop.
Proof.
  intros st. unfold writer_drop. apply (goes_bind sink_only).
  - pose proof (opus_flush_sink st) as Hf. unfold goes, attempt. by destruct (opus_flush st) as [[a|e|] st'].
  - intros a st' _. unfold goes. reflexivity.
Qed.

Lemma lift_sink {A} (m : IO OpusError A) : touches [] m -> stays_honest m -> within sink_only (lift (S := OpusOggWriter) m).
Proof.
  intros Hm Hh [o w]. specialize (Hm w). specialize (Hh w). unfold lift, sink_only, file_only. destruct (m w) as [r w']. simpl in *.
  split; [done|]. split; [|done]. eapply same_except_mono; [|exact Hm]. set_solver.
Qed.

Lemma read_chunk_touches q offset cap : touches [] (read_chunk q offset cap).
Proof. touch_op. Qed.

Lemma settled_filter_sink {A} (r : option (result A ResampleError)) : within sink_only (settled_filter r).
Proof. intros st. by destruct r as [[a|e]|]. Qed.

Lemma push_converted_sink fuel c mono : within sink_only (push_converted fuel c mono).
Proof.
  intros st. unfold push_converted. destruct c as [c|].
  - apply (goes_bind sink_only); [apply settled_filter_sink|]. intros [c' out] st' _.
    apply (goes_bind sink_only); [apply push_sink|]. intros [] st2 _. unfold goes. reflexivity.
  - apply (goes_bind sink_only); [apply push_sink|]. intros [] st2 _. unfold goes. reflexivity.
Qed.

Lemma transcode_chunk_sink fuel chans t bs : within sink_only (transcode_chunk fuel chans t bs).
Proof.
  intros st. unfold transcode_chunk. destruct (_ =? _)%nat; [reflexivity|].
  apply (goes_bind sink_only); [apply push_converted_sink|]. intros c st' _.
  apply (goes_bind sink_only); [apply lift_sink; [apply instant_now_touches | stay_honest]|]. intros now st2 _.
  apply (goes_bind sink_only).
  - destruct (_ <=? _); [|unfold goes; reflexivity]. apply (goes_bind sink_only); [apply on_sink_file, bw_sync_file|].
    intros [] st3 _. apply lift_sink; [apply instant_now_touches | stay_honest].
  - intros last st3 _. unfold goes. reflexivity.
Qed.

Lemma transcode_loop_sink rounds fuel q chans t : within sink_only (transcode_loop rounds fuel q chans t).
Proof.
  revert t. induction rounds as [|rounds IH]; intros t st; [reflexivity|]. cbn [transcode_loop].
  apply (goes_bind sink_only); [apply lift_sink; [apply touches_map_err, read_chunk_touches | stay_honest]|]. intros [|b bs] st' _; [unfold goes; reflexivity|].
  apply (goes_bind sink_only); [apply transcode_chunk_sink|]. intros t' st2 _. apply IH.
Qed.

Lemma transcode_sink fuel n q chans c : within sink_only (transcode fuel n q chans c).
Proof.
  intros st. unfold transcode. apply (goes_bind sink_only).
  - destruct (0 <? n); [|unfold goes; reflexivity].
    apply (goes_bind sink_only); [apply lift_sink; [apply touches_map_err, open_existing_touches | stay_honest]|]. intros [] st' _.
    apply (goes_bind sink_only); [apply lift_sink; [apply instant_now_touches | stay_honest]|]. intros now st2 _.
    apply (goes_bind sink_only); [apply transcode_loop_sink|]. intros t st3 _. unfold goes. reflexivity.
  - intros c' st' _. apply (goes_bind sink_only); [|intros [] st2 _; apply finish_sink].
    destruct c' as [c'|]; [|unfold goes; reflexivity]. apply (goes_bind sink_only); [apply settled_filter_sink|].
    intros [c2 tail] st2 _. apply push_sink.
Qed.

(** *** One leg *)

Definition world_only (q : path) (w w' : World) : Prop := same_except [q] (disk w) (disk w') /\ (honest w -> honest w').

#[export] Instance world_only_preorder q : PreOrder (world_only q).
Proof. split; [by intros w; unfold world_only|]. intros a b c [E1 J1] [E2 J2]. split; [by etrans | auto]. Qed.

Lemma goes_touches {E A} q ps (m : IO E A) w : touches ps m -> ps ⊆ [q] -> stays_honest m -> goes (world_only q) m w.
Proof. intros Hm Hs Hh. split; [eapply same_except_mono; [exact Hs | apply Hm] | apply Hh]. Qed.

Lemma consume_writer_only {A} (m : WriterM A) o w q :
  within sink_only m -> bw_path (sink o) = q -> goes (world_only q) (consume_writer m o) w.
Proof.
  intros Hm <-. unfold goes, consume_writer. specialize (Hm (o, w)).
  destruct (m (o, w)) as [r [o' w']] eqn:Er. pose proof (writer_drop_sink (o', w')) as Hd. destruct Hm as [E1 D1]. simpl in *.
  destruct (writer_drop (o', w')) as [r2 [o2 w2]]. destruct Hd as [E2 D2]. simpl in *. rewrite E1 in D2.
  assert (D3 : world_only (bw_path (sink o)) w w2) by (etrans; [exact D1 | exact D2]).
  destruct r as [a|e|]; [| |exact D1]; by destruct r2.
Qed.

Lemma make_writer_only {A} (m : WriterM A) o w q :
  within sink_only m -> bw_path (sink o) = q ->
  goes (world_only q) (make_writer m o) w /\ forall o' w', make_writer m o w = (Returned o', w') -> bw_path (sink o') = q.
Proof.
  intros Hm <-. unfold goes, make_writer. specialize (Hm (o, w)).
  destruct (m (o, w)) as [r [o' w']] eqn:Er. pose proof (writer_drop_sink (o', w')) as Hd. destruct Hm as [E1 D1]. simpl in *.
  destruct (writer_drop (o', w')) as [r2 [o2 w2]]. destruct Hd as [E2 D2]. simpl in *. rewrite E1 in D2.
  destruct r as [a|e|]; [split; [exact D1 | by intros ? ? [= <- <-]] | | by split].
  assert (D3 : world_only (bw_path (sink o)) w w2) by (etrans; [exact D1 | exact D2]). by destruct r2.
Qed.

Lemma writer_create_only version serial q rate w :
  goes (world_only q) (writer_create version serial q rate) w /\
  forall o w', writer_create version serial q rate w = (Returned o, w') -> bw_path (sink o) = q.
Proof.
  unfold writer_create, writer_new, with_page_interval. split.
  - apply (goes_bind (world_only q)); [by eapply goes_touches; [apply touches_map_err, open_truncate_touches | | stay_honest]|]. intros [] w1 _.
    apply (goes_bind (world_only q)); [apply (goes_touches _ []); [apply touches_guard | set_solver | stay_honest]|]. intros [] w2 _.
    apply (goes_bind (world_only q)); [apply (goes_touches _ []); [apply touches_of_result | set_solver | stay_honest]|]. intros [e la] w3 _.
    by apply make_writer_only; [apply write_headers_sink|].
  - intros o w' Hr. apply bind_inv in Hr as ([] & w1 & _ & Hr). apply bind_inv in Hr as ([] & w2 & _ & Hr).
    apply bind_inv in Hr as ([e la] & w3 & _ & Hr).
    by apply (make_writer_only (write_headers version) (blank_writer e la (mkBuf q []) serial rate PAGE_INTERVAL_MS) w3 q (write_headers_sink version) eq_refl) in Hr.
Qed.

Lemma size_or_zero_touches {E} q : touches [] (size_or_zero (E := E) q).
Proof. unfold size_or_zero. touch. Qed.

Lemma path_exists_touches {E} q : touches [] (path_exists (E := E) q).
Proof. unfold path_exists. touch. Qed.

Lemma encode_track_only fuel version serial dir output pcm opus format w :
  goes (world_only (output /> opus)) (encode_track fuel version serial dir output pcm opus format) w.
Proof.
  unfold encode_track. set (q := output /> opus).
  apply (goes_bind (world_only q)); [apply (goes_touches _ []); [apply size_or_zero_touches | set_solver | unfold size_or_zero; stay_honest]|]. intros n w1 _.
  apply (goes_bind (world_only q)); [apply (goes_touches _ []); [apply touches_of_result | set_solver | stay_honest]|]. intros [rate c] w2 _.
  apply (goes_bind (world_only q)); [apply writer_create_only|]. intros o w3 Ho.
  apply (goes_bind (world_only q)); [apply consume_writer_only; [apply transcode_sink | by eapply writer_create_only]|]. intros stats w4 _.
  apply (goes_touches _ [q]); [|done|unfold size_or_zero; stay_honest].
  apply touches_bind; [apply touches_map_err; eapply touches_mono; [|apply open_existing_touches]; set_solver | intros _].
  apply touches_bind; [apply touches_map_err, sync_file_touches | intros _].
  apply touches_bind; [eapply touches_mono; [|apply size_or_zero_touches]; set_solver | intros m; apply touches_ret].
Qed.

(** A file that is on disk in full. *)
Definition durable_file (q : path) (d : Disk) : Prop := exists c, d !! q = Some (whole_file c).

Lemma encode_track_durable fuel version serial dir output pcm opus format w t w' :
  encode_track fuel version serial dir output pcm opus format w = (Returned t, w') ->
  durable_file (output /> opus) (disk w') /\ file t = opus.
Proof.
  unfold encode_track. intros Hr. apply bind_inv in Hr as (n & w1 & _ & Hr). apply bind_inv in Hr as ([rate c] & w2 & _ & Hr).
  apply bind_inv in Hr as (o & w3 & _ & Hr). apply bind_inv in Hr as (stats & w4 & _ & Hr).
  apply bind_inv in Hr as ([] & w5 & Ho & Hr). apply bind_inv in Hr as ([] & w6 & Hs & Hr). apply bind_inv in Hr as (m & w7 & Hm & Hr).
  injection Hr as <- <-. split; [|done]. apply map_err_inv, open_existing_run in Ho as (text & k & E5 & Hq).
  apply map_err_inv, sync_file_run in Hs. pose proof (size_or_zero_touches (E := OpusError) (output /> opus) w6) as Ht. rewrite Hm in Ht.
  assert (Hlook : disk w7 !! (output /> opus) = disk w6 !! (output /> opus)) by (apply Ht; set_solver).
  exists text. etrans; [exact Hlook|]. rewrite Hs, E5, lookup_alter_eq.
  change (Some (whole_file text)) with (sync_node <$> Some (NFile text k)). f_equal. exact Hq.
Qed.

End Writer.

(** ** What was there stays *)

(** Everything [d0] had, the exceptions aside, is in [d] as it was. *)
Definition spares (X : path -> Prop) (d0 d : Disk) : Prop := forall p n, d0 !! p = Some n -> ~ X p -> d !! p = Some n.

Lemma spares_same X ps d0 d d' :
  spares X d0 d -> same_except ps d d' -> (forall p, p ∈ ps -> ~ X p -> d0 !! p = None) -> spares X d0 d'.
Proof.
  intros Hs Hd Hps p n Hp HX. rewrite Hd; [by apply Hs|]. intros Hin. by rewrite (Hps p Hin HX) in Hp.
Qed.

Lemma spares_insert X d0 d p n : spares X d0 d -> d !! p = None -> spares X d0 (<[p := n]> d).
Proof.
  intros Hs Hp q m Hq HX. rewrite lookup_insert_ne; [by apply Hs|]. intros ->. by rewrite (Hs q m Hq HX) in Hp.
Qed.

Lemma triple_spares {E A} X d0 ps (m : IO E A) :
  touches ps m -> (forall p, p ∈ ps -> ~ X p -> d0 !! p = None) ->
  triple (fun w => spares X d0 (disk w)) m (fun _ w => spares X d0 (disk w)) (fun w => spares X d0 (disk w)).
Proof. intros Ht Hps. apply (triple_touches ps m (spares X d0) Ht). intros d d' Hd Hs. by eapply spares_same. Qed.

Lemma op_spares {A : Type} X d0 partly (whole : Disk -> result (A * Disk) IoErr) w :
  (forall d n gone, spares X d0 d -> spares X d0 (partly n gone d)) ->
  (forall d a d', spares X d0 d -> whole d = Ok (a, d') -> spares X d0 d') ->
  spares X d0 (disk w) -> spares X d0 (disk (op partly whole w).2).
Proof.
  intros Hp Hw Hs. unfold op. destruct (fates w) as [|[|why n gone] fs]; cbn [disk set_fates].
  - destruct (whole (disk w)) as [[a d']|e] eqn:Hd; [by eapply Hw | done].
  - destruct (whole (disk w)) as [[a d']|e] eqn:Hd; [by eapply Hw | done].
  - destruct why; simpl; by apply Hp.
Qed.

Lemma make_missing_spares X d0 d ps : spares X d0 d -> spares X d0 (make_missing d ps).
Proof.
  unfold make_missing. revert d. induction ps as [|q ps IH]; intros d Hs; simpl; [done|]. apply IH.
  destruct (d !! q) eqn:Hq; [done | by apply spares_insert].
Qed.

Lemma create_dir_all_spares X d0 p w : spares X d0 (disk w) -> spares X d0 (disk (create_dir_all p w).2).
Proof.
  apply op_spares.
  - intros d n gone Hs. case_decide; [by apply make_missing_spares | done].
  - intros d a d' Hs Hd. case_decide; simplify_eq. by apply make_missing_spares.
Qed.

Lemma create_dir_spares X d0 p w : spares X d0 (disk w) -> spares X d0 (disk (create_dir p w).2).
Proof.
  apply op_spares; [done|]. intros d a d' Hs Hd. destruct (d !! p) eqn:Hp; [done|]. case_match; simplify_eq. by apply spares_insert.
Qed.

(** A directory under a fresh name: nothing that was there is touched, and the name
    was free. *)
Lemma reserve_spares X d0 root next_id (P : string -> Prop) :
  touches [] next_id -> (forall w a w', next_id w = (Returned a, w') -> P a) ->
  triple (fun w => spares X d0 (disk w)) (reserve_session_dir root next_id)
    (fun r w => spares X d0 (disk w) /\ P r.1 /\ r.2 = root /> r.1 /\ (~ X r.2 -> d0 !! r.2 = None))
    (fun w => spares X d0 (disk w)).
Proof.
  intros Ht HP. unfold reserve_session_dir.
  eapply (triple_bind _ _ _ (fun _ w => spares X d0 (disk w))).
  { intros w Hs. pose proof (create_dir_all_spares X d0 root w Hs) as Hc. by destruct (create_dir_all root w) as [[[]|e|] w']. }
  intros []. generalize 128%nat. intros tries. induction tries as [|n IH]; simpl; [by intros w Hw|].
  eapply (triple_bind _ _ _ (fun name w => spares X d0 (disk w) /\ P name)).
  { intros w Hs. pose proof (triple_spares X d0 [] next_id Ht ltac:(set_solver) w Hs) as Hn.
    destruct (next_id w) as [[a|e|] w'] eqn:Hr; [|done|done]. split; [done | by eapply HP]. }
  intros name w [Hs Hname]. rewrite bind_eq. unfold attempt at 1.
  pose proof (create_dir_spares X d0 (root /> name) w Hs) as Hc. pose proof (create_dir_run (root /> name) w) as Hcr.
  destruct (create_dir (root /> name) w) as [[[]|e|] w'] eqn:Hr; simpl in Hc |- *; [|destruct (decide _); [by apply IH | done]|done].
  split_and!; try done. intros HX. simpl. destruct (Hcr tt w' eq_refl) as [Hnone _].
  destruct (d0 !! (root /> name)) as [k|] eqn:Hk; [|done]. exfalso. specialize (Hs _ _ Hk HX).
  assert (Some k = None); [|done]. etrans; [symmetry; exact Hs | exact Hnone].
Qed.

(** Every entry lies in a directory. *)
Definition tree (d : Disk) : Prop := forall p name n, p <> [] -> d !! (p /> name) = Some n -> d !! p = Some NDir.

(** A read-only prefix of a computation. *)
Lemma triple_look {E A} (P : Disk -> Prop) (m : IO E A) :
  touches [] m -> triple (fun w => P (disk w)) m (fun _ w => P (disk w)) (fun w => P (disk w)).
Proof.
  intros Ht w Hw. specialize (Ht w).
  assert (Hd : disk (m w).2 = disk w) by (apply map_eq; intros q; apply Ht; set_solver).
  destruct (m w) as [[a|e|] w']; simpl in *; by rewrite Hd.
Qed.

Lemma archive_owner_touches dir : touches [] (archive_owner dir).
Proof. unfold archive_owner, owner_recover, ordinary. touch. Qed.

Lemma owning_triple {E A} (of_io : IoErr -> E) dir (body : IO E A) (P R : Disk -> Prop) (Q : A -> Disk -> Prop) :
  (forall d, P d -> R d) ->
  triple (fun w => P (disk w)) body (fun a w => Q a (disk w)) (fun w => R (disk w)) ->
  triple (fun w => P (disk w)) (owning of_io dir body) (fun a w => Q a (disk w)) (fun w => R (disk w)).
Proof.
  intros HPR Hb. unfold owning. eapply triple_then; [apply triple_map_err, (triple_look P), archive_owner_touches | auto |].
  intros o w Hw. specialize (Hb w Hw). unfold finally.
  assert (Hdrop : forall w1, exists w2, archive_owner_drop o w1 = (Returned tt, w2) /\ disk w2 = disk w1).
  { intros w1. destruct o as [[q]|]; [by eexists | by exists w1]. }
  destruct (body w) as [[a|e|] w1]; [| |done]; destruct (Hdrop w1) as (w2 & -> & Hd); by rewrite Hd.
Qed.

Section Session.
Context `{Rubato, LibOpus, OggMuxer, JsonDoc Manifest}.

(** The manifest a directory's file parses to. *)
Definition manifest_read (d : Disk) (dir : path) (m : Manifest) : Prop :=
  exists text k, d !! (dir /> MANIFEST) = Some (NFile text k) /\ doc_get text = Some m.

(** A directory whose archives were selected once already. *)
Definition retry (d : Disk) (dir : path) : Prop := exists m e, manifest_read d dir m /\ encoded m = Some e.

(** Where the file a manifest names for a leg is. *)
Definition archive_at (dir : path) (name f : string) (p : path) : Prop :=
  f = name /\ p = dir /> name \/ exists g, f = g +:+ ("/" +:+ name) /\ p = dir /> g /> name.

(** The manifest selects a pair of tracks that are both on disk in full. *)
Definition selects (d : Disk) (dir : path) (m : Manifest) (enc : EncodedSession) : Prop :=
  manifest_on dir (with_encoded m (Some enc)) d /\
  (exists p, archive_at dir SYSTEM_OPUS (file (e_system enc)) p /\ durable_file p d) /\
  (exists p, archive_at dir MIC_OPUS (file (e_mic enc)) p /\ durable_file p d).

Definition opus_paths (dir : path) : list path := [dir /> SYSTEM_OPUS; dir /> MIC_OPUS].

(** What an encode may change of what was there before it selects its tracks: the
    archives of an encode that never finished. *)
Definition encode_changes (d0 : Disk) (dir p : path) : Prop := p ∈ opus_paths dir /\ ~ retry d0 dir.

Lemma preflight_touches m dir : touches [] (preflight m dir).
Proof. unfold preflight, preflight_leg, unless_missing. touch. Qed.

Lemma track_formats_touches m dir : touches [] (track_formats m dir).
Proof. unfold track_formats, leg_bytes. touch. Qed.

Lemma read_manifest_run dir w m w' : read_manifest dir w = (Returned m, w') -> disk w' = disk w /\ manifest_read (disk w) dir m.
Proof.
  unfold read_manifest. intros Hr. apply bind_inv in Hr as (text & w1 & Hf & Hr). apply ok_or_inv in Hr as [Hg ->].
  apply read_file_run in Hf as [Hd (k & Hp)]. split; [done|]. by exists text, k.
Qed.

Lemma generation_name pid w a w' :
  (ident ← new_session_id pid; mret (ARCHIVE_PREFIX +:+ ident)) w = (Returned a, w') -> exists ident, a = ARCHIVE_PREFIX +:+ ident.
Proof. intros Hr. apply bind_inv in Hr as (ident & w1 & _ & Hr). injection Hr as <- _. by exists ident. Qed.

Lemma new_session_id_touches pid : touches [] (new_session_id pid).
Proof. unfold new_session_id. touch. Qed.

(** A new generation is a directory that was not there. *)
Definition fresh_generation (d0 : Disk) (dir : path) (g : option (string * path)) : Prop :=
  match g with
  | None => ~ retry d0 dir
  | Some (name, p) => p = dir /> name /\ d0 !! p = None
  end.

Lemma generation_not_changed d0 dir ident : ~ encode_changes d0 dir (dir /> (ARCHIVE_PREFIX +:+ ident)).
Proof.
  intros [Hin _]. unfold opus_paths in Hin. rewrite !elem_of_cons in Hin.
  destruct Hin as [Heq|[Heq|Hin]]; [apply child_inj in Heq; discriminate Heq.. | by apply elem_of_nil in Hin].
Qed.

Lemma reserve_generation_triple pid m d0 dir :
  manifest_read d0 dir m ->
  triple (fun w => spares (encode_changes d0 dir) d0 (disk w)) (reserve_generation pid m dir)
    (fun g w => spares (encode_changes d0 dir) d0 (disk w) /\ fresh_generation d0 dir g)
    (fun w => spares (encode_changes d0 dir) d0 (disk w)).
Proof.
  intros Hm. unfold reserve_generation.
  eapply (triple_bind _ _ _ (fun b w => spares (encode_changes d0 dir) d0 (disk w) /\ (b = false -> encoded m = None))).
  { destruct (encoded m) as [e|] eqn:He; simpl; [by intros w Hs|]. eapply triple_conseq.
    - apply (triple_look (spares (encode_changes d0 dir) d0)). apply touches_bind; [apply path_exists_touches|]. intros b.
      destruct b; simpl; [apply touches_ret | apply path_exists_touches].
    - done.
    - by intros b w Hs.
    - done. }
  intros [|]; simpl.
  - eapply (triple_pre (fun w => spares (encode_changes d0 dir) d0 (disk w))); [|by intros w [? _]].
    eapply triple_bind; [apply (reserve_spares (encode_changes d0 dir) d0 dir _ (fun a => exists ident, a = ARCHIVE_PREFIX +:+ ident))|].
    { apply touches_bind; [apply new_session_id_touches | intros ?; apply touches_ret]. }
    { apply generation_name. }
    intros [name p] w (Hs & (ident & Hn) & Hp & Hfree). simpl in *. split; [done|]. split; [done|].
    apply Hfree. subst. apply generation_not_changed.
  - intros w [Hs Hnone]. split; [done|]. simpl. intros (m' & e & (text & k & Hp & Hg) & He). destruct Hm as (text' & k' & Hp' & Hg').
    rewrite Hp in Hp'. simplify_eq. by rewrite Hnone in He.
Qed.

(** Both tracks of an encode, on disk in full where the manifest will say. *)
Definition located (d : Disk) (dir : path) (enc : EncodedSession) : Prop :=
  (exists p, archive_at dir SYSTEM_OPUS (file (e_system enc)) p /\ durable_file p d) /\
  (exists p, archive_at dir MIC_OPUS (file (e_mic enc)) p /\ durable_file p d).

Definition output_of (dir : path) (g : option (string * path)) : path := match g with Some (_, p) => p | None => dir end.

Lemma output_free d0 dir g name :
  tree d0 -> fresh_generation d0 dir g -> name = SYSTEM_OPUS \/ name = MIC_OPUS ->
  ~ encode_changes d0 dir (output_of dir g /> name) -> d0 !! (output_of dir g /> name) = None.
Proof.
  intros Htree Hg Hname HX. destruct g as [[gname p]|]; simpl in *.
  - destruct Hg as [-> Hnone]. destruct (d0 !! (dir /> gname /> name)) as [n|] eqn:Hn; [|done].
    apply Htree in Hn; [|by destruct dir]. assert (Some NDir = None); [|done]. etrans; [symmetry; exact Hn | exact Hnone].
  - exfalso. apply HX. split; [|done]. unfold opus_paths. destruct Hname as [->| ->]; set_solver.
Qed.

Lemma generation_located dir g name t q d :
  match g with Some (gname, p) => p = dir /> gname | None => True end -> file t = name -> q = output_of dir g /> name -> durable_file q d ->
  exists p, archive_at dir name (file (in_generation g name t)) p /\ durable_file p d.
Proof.
  intros Hg Hf -> Hd. exists (output_of dir g /> name). split; [|done]. destruct g as [[gname p]|]; simpl in *.
  - right. exists gname. by subst.
  - by left.
Qed.

Lemma durable_apart q r : q <> r -> apart [q] (durable_file r).
Proof. intros Hne d d' Hd (c & Hc). exists c. rewrite Hd; [done | set_solver]. Qed.

Lemma encode_tracks_triple fuel version serials d0 dir formats g :
  tree d0 -> fresh_generation d0 dir g ->
  triple (fun w => spares (encode_changes d0 dir) d0 (disk w)) (encode_tracks fuel version serials dir formats g)
    (fun enc w => spares (encode_changes d0 dir) d0 (disk w) /\ located (disk w) dir enc)
    (fun w => spares (encode_changes d0 dir) d0 (disk w)).
Proof.
  intros Htree Hg. unfold encode_tracks. change (match g with Some (_, p) => p | None => dir end) with (output_of dir g).
  set (X := encode_changes d0 dir). set (q1 := output_of dir g /> SYSTEM_OPUS). set (q2 := output_of dir g /> MIC_OPUS).
  assert (Hne : q2 <> q1) by (unfold q1, q2; intros Heq; apply child_inj in Heq; discriminate Heq).
  assert (Hgp : match g with Some (gname, p) => p = dir /> gname | None => True end) by (destruct g as [[? ?]|]; [apply Hg | done]).
  eapply (triple_bind _ _ _ (fun t w => spares X d0 (disk w) /\ durable_file q1 (disk w) /\ file t = SYSTEM_OPUS)).
  { intros w Hs. pose proof (encode_track_only fuel version serials.1 dir (output_of dir g) SYSTEM_PCM SYSTEM_OPUS (f_system formats) w) as Ho.
    assert (Hs' : spares X d0 (disk (encode_track fuel version serials.1 dir (output_of dir g) SYSTEM_PCM SYSTEM_OPUS (f_system formats) w).2)).
    { eapply spares_same; [exact Hs | exact (proj1 Ho)|]. intros p Hp%list_elem_of_singleton HX. subst p. apply output_free; auto. }
    destruct (encode_track _ _ _ _ _ _ _ _ w) as [[t|e|] w'] eqn:Hr; [|done|done].
    apply encode_track_durable in Hr as [? ?]. done. }
  intros s. eapply (triple_bind _ _ _ (fun t w => spares X d0 (disk w) /\ durable_file q1 (disk w) /\ file s = SYSTEM_OPUS /\
                       durable_file q2 (disk w) /\ file t = MIC_OPUS)).
  { intros w (Hs & Hd1 & Hf1). pose proof (encode_track_only fuel version serials.2 dir (output_of dir g) MIC_PCM MIC_OPUS (f_mic formats) w) as Ho.
    fold q2 in Ho. unfold goes in Ho. destruct Ho as [Ho _].
    assert (Hs' : spares X d0 (disk (encode_track fuel version serials.2 dir (output_of dir g) MIC_PCM MIC_OPUS (f_mic formats) w).2)).
    { eapply spares_same; [exact Hs | exact Ho|]. intros p Hp%list_elem_of_singleton HX. subst p. apply output_free; auto. }
    destruct (encode_track _ _ _ _ _ _ _ _ w) as [[t|e|] w'] eqn:Hr; [|done|done].
    apply encode_track_durable in Hr as [? ?]. split_and!; try done. by eapply (durable_apart q2 q1 Hne). }
  intros c. eapply (triple_bind _ _ _ (fun _ w => spares X d0 (disk w) /\ durable_file q1 (disk w) /\ file s = SYSTEM_OPUS /\
                       durable_file q2 (disk w) /\ file c = MIC_OPUS)).
  { eapply triple_conseq.
    - apply (triple_look (fun d => spares X d0 d /\ durable_file q1 d /\ file s = SYSTEM_OPUS /\ durable_file q2 d /\ file c = MIC_OPUS)).
      destruct g as [[? p]|]; [apply touches_map_err, sync_directory_touches | apply touches_ret].
    - done.
    - done.
    - by intros w (? & _). }
  intros _ w (Hs & Hd1 & Hf1 & Hd2 & Hf2). split; [done|]. split; by eapply generation_located.
Qed.

Lemma generation_drop_triple d0 dir g :
  tree d0 -> fresh_generation d0 dir g ->
  triple (fun w => spares (encode_changes d0 dir) d0 (disk w)) (generation_drop (snd <$> g))
    (fun _ w => spares (encode_changes d0 dir) d0 (disk w)) (fun w => spares (encode_changes d0 dir) d0 (disk w)).
Proof.
  intros Htree Hg. destruct g as [[name p]|]; simpl; [|by intros w Hw].
  apply (triple_spares _ _ [p; p /> SYSTEM_OPUS; p /> MIC_OPUS]).
  - touch.
  - intros q Hq HX. rewrite !elem_of_cons in Hq. destruct Hq as [->|[->|[->|Hq]]]; [by apply Hg | | | by apply elem_of_nil in Hq].
    + apply (output_free d0 dir (Some (name, p)) SYSTEM_OPUS Htree Hg); auto.
    + apply (output_free d0 dir (Some (name, p)) MIC_OPUS Htree Hg); auto.
Qed.

Lemma triple_undone {E F A} (P R : World -> Prop) (Q : A -> World -> Prop) (m : IO E A) (drop : IO F unit) :
  triple P m Q R -> triple R drop (fun _ => R) R -> triple P (on_error m drop) Q R.
Proof.
  intros Hm Hd w Hw. specialize (Hm w Hw). unfold on_error. destruct (m w) as [[a|e|] w']; [done| |done].
  specialize (Hd w' Hm). by destruct (drop w') as [[?|?|] w2].
Qed.

(** What an encode leaves, however it ends: of what was there only the manifest has
    changed, and archives no manifest had selected; the manifest is the old one, or
    selects two tracks that are durable. *)
Definition encode_leaves (d0 : Disk) (dir : path) (d : Disk) : Prop :=
  (forall p n, d0 !! p = Some n -> p ∉ manifest_paths dir -> retry d0 dir \/ p ∉ opus_paths dir -> d !! p = Some n) /\
  (d !! (dir /> MANIFEST) = d0 !! (dir /> MANIFEST) \/ exists m enc, manifest_read d0 dir m /\ selects d dir m enc).

Lemma encode_untouched d0 dir : encode_leaves d0 dir d0.
Proof. split; [done | by left]. Qed.

Lemma manifest_not_opus dir : (dir /> MANIFEST) ∉ opus_paths dir.
Proof. unfold opus_paths. not_in_paths. Qed.

Lemma read_manifest_touches dir : touches [] (read_manifest dir).
Proof. unfold read_manifest. touch. Qed.

(** Before the manifest is written. *)
Lemma encode_unselected m d0 dir d : manifest_read d0 dir m -> spares (encode_changes d0 dir) d0 d -> encode_leaves d0 dir d.
Proof.
  intros (text & k & Hp & _) Hs. split.
  - intros p n Hn _ Hok. apply (Hs p n Hn). intros [Hin Hnot]. tauto.
  - left. etrans; [|symmetry; exact Hp]. apply (Hs _ _ Hp). intros [Hin _]. by apply manifest_not_opus in Hin.
Qed.

Lemma located_apart dir enc : apart (manifest_paths dir) (fun d => located d dir enc).
Proof.
  assert (Hout : forall name f p, name = SYSTEM_OPUS \/ name = MIC_OPUS -> archive_at dir name f p -> p ∉ manifest_paths dir).
  { intros name f p Hname [[-> ->]|(g & -> & ->)]; unfold manifest_paths.
    - destruct Hname as [->| ->]; not_in_paths.
    - rewrite !not_elem_of_cons. split_and!; [| |apply not_elem_of_nil];
        intros Heq; apply app_inj_2 in Heq as [Heq _]; try done; by apply child_ne in Heq. }
  intros d d' Hd [(p & Hp & c & Hc) (q & Hq & c' & Hc')]. split.
  - exists p. split; [done|]. exists c. by rewrite Hd; [|eapply Hout; [by left|]].
  - exists q. split; [done|]. exists c'. by rewrite Hd; [|eapply Hout; [by right|]].
Qed.

(** Writing the manifest is what selects the tracks. *)
Lemma select_tracks_triple m d0 dir enc :
  manifest_read d0 dir m ->
  triple (fun w => spares (encode_changes d0 dir) d0 (disk w) /\ located (disk w) dir enc)
    (write_manifest_at dir (with_encoded m (Some enc)))
    (fun _ w => encode_leaves d0 dir (disk w) /\ selects (disk w) dir m enc) (fun w => encode_leaves d0 dir (disk w)).
Proof.
  intros Hm. set (F := fun d => (forall p n, d0 !! p = Some n -> p ∉ manifest_paths dir -> retry d0 dir \/ p ∉ opus_paths dir -> d !! p = Some n) /\ located d dir enc).
  assert (HF : apart (manifest_paths dir) F).
  { apply apart_and; [|apply located_apart]. intros d d' Hd Hs p n Hn Hp Hok. rewrite Hd; [by apply Hs | done]. }
  eapply triple_conseq; [apply (write_manifest_at_triple F dir _ (d0 !! (dir /> MANIFEST)) HF)|..].
  - intros w [Hs Hl]. pose proof (encode_unselected m d0 dir (disk w) Hm Hs) as [Hk [Hsame|(m' & enc' & _ & Hsel)]]; [by split|].
    split; [|by split]. destruct Hm as (text & k & Hp & _). etrans; [|symmetry; exact Hp]. apply (Hs _ _ Hp).
    intros [Hin _]. by apply manifest_not_opus in Hin.
  - intros [] w [Hon [Hk Hl]]. split; [split; [done|]; right; exists m, enc|]; (split; [done|]); [split|]; done.
  - intros w [[Hsame|Hon] [Hk Hl]]; (split; [done|]); [by left|]. right. exists m, enc. split; [done|]. by split.
Qed.

Lemma encode_session_triple fuel version pid serials d0 dir :
  tree d0 ->
  triple (fun w => disk w = d0) (encode_session fuel version pid serials dir)
    (fun enc w => encode_leaves d0 dir (disk w) /\ exists m, manifest_read d0 dir m /\ selects (disk w) dir m enc)
    (fun w => encode_leaves d0 dir (disk w)).
Proof.
  intros Htree. unfold encode_session.
  apply (owning_triple _ _ _ (fun d => d = d0) (encode_leaves d0 dir)
           (fun enc d => encode_leaves d0 dir d /\ exists m, manifest_read d0 dir m /\ selects d dir m enc)).
  { intros d ->. apply encode_untouched. }
  eapply (triple_then _ _ _ (fun m w => disk w = d0 /\ manifest_read d0 dir m) _ (fun w => disk w = d0)).
  { apply triple_map_err. intros w Hw. pose proof (triple_look (fun d => d = d0) (read_manifest dir) (read_manifest_touches dir) w Hw) as Hl.
    destruct (read_manifest dir w) as [[m|e|] w'] eqn:Hr; [|done|done]. split; [done|]. apply read_manifest_run in Hr as [_ Hr]. by rewrite <-Hw. }
  { intros w ->. apply encode_untouched. }
  intros m. set (same := fun d => d = d0 /\ manifest_read d0 dir m).
  assert (Hsame : forall w : World, same (disk w) -> encode_leaves d0 dir (disk w)) by (intros w [-> _]; apply encode_untouched).
  eapply triple_then; [apply triple_map_err, (triple_look same), preflight_touches | exact Hsame | intros []].
  eapply triple_then; [apply triple_map_err, (triple_look same), track_formats_touches | exact Hsame | intros formats].
  apply triple_at. intros w0 [Hw0 Hm]. eapply triple_pre with (P := fun w => spares (encode_changes d0 dir) d0 (disk w)); [|by intros w <- p n Hn _; rewrite Hw0].
  eapply triple_then; [apply triple_map_err, (reserve_generation_triple pid m d0 dir Hm) | intros w; by apply (encode_unselected m) |].
  intros g. apply triple_at. intros w1 [Hs1 Hg]. eapply triple_pre with (P := fun w => spares (encode_changes d0 dir) d0 (disk w)); [|by intros w <-].
  eapply triple_then; [apply triple_undone; [by apply encode_tracks_triple | by apply generation_drop_triple] | intros w; by apply (encode_unselected m) |].
  intros enc. eapply triple_bind; [apply triple_map_err, (select_tracks_triple m d0 dir enc Hm)|].
  intros [] w [Hl Hsel]. split; [done|]. by exists m.
Qed.

Lemma archive_owner_honest dir : stays_honest (archive_owner dir).
Proof. unfold archive_owner, owner_recover, ordinary. stay_honest. Qed.

Lemma read_manifest_honest dir : stays_honest (read_manifest dir).
Proof. unfold read_manifest. stay_honest. Qed.

Lemma write_manifest_at_honest dir m : stays_honest (write_manifest_at dir m).
Proof. unfold write_manifest_at, unless_missing, put_in_place. stay_honest. Qed.

Lemma reserve_honest root next_id : stays_honest next_id -> stays_honest (reserve_session_dir root next_id).
Proof.
  intros Hn. unfold reserve_session_dir. apply honest_bind; [apply op_honest | intros _].
  generalize 128%nat. intros tries. induction tries as [|n IH]; simpl; [apply honest_raise|].
  apply honest_bind; [done | intros name]. apply honest_bind; [stay_honest | intros [|e]; [stay_honest|]]. destruct (decide _); [done | stay_honest].
Qed.

Lemma encode_track_honest fuel version serial dir output pcm opus format :
  stays_honest (encode_track fuel version serial dir output pcm opus format).
Proof. intros w. apply encode_track_only. Qed.

(** An encode leaves a disk that tells the truth telling it. *)
Lemma encode_session_honest fuel version pid serials dir : stays_honest (encode_session fuel version pid serials dir).
Proof.
  unfold encode_session, owning. apply honest_bind; [apply honest_map_err, archive_owner_honest | intros o].
  apply honest_finally; [|unfold archive_owner_drop, owner_drop; stay_honest].
  apply honest_bind; [apply honest_map_err, read_manifest_honest | intros m].
  apply honest_bind; [unfold preflight, preflight_leg, unless_missing; stay_honest | intros _].
  apply honest_bind; [unfold track_formats, leg_bytes; stay_honest | intros formats].
  apply honest_bind.
  { unfold reserve_generation, path_exists. apply honest_map_err, honest_bind; [stay_honest | intros b]. destruct (negb b); [stay_honest|].
    apply honest_bind; [apply reserve_honest; unfold new_session_id; stay_honest | intros g; apply honest_ret]. }
  intros g. apply honest_bind; [|intros enc; apply honest_bind; [apply honest_map_err, write_manifest_at_honest | intros _; apply honest_ret]].
  apply honest_on_error; [|unfold generation_drop; stay_honest]. unfold encode_tracks.
  apply honest_bind; [apply encode_track_honest | intros s]. apply honest_bind; [apply encode_track_honest | intros c]. stay_honest.
Qed.

(** C17: Encoding spares the recording.  However [encode_session] ends (it returns,
    it fails at any call, or the process is killed inside one), every file and
    directory that was there is as it was, byte for byte and sync for sync; only
    the manifest may be another, and, where no earlier encode was ever selected, the
    two archive names.  A manifest that is another is the one read, with a pair of
    tracks that are both on disk in full where it says; when the encode returned, it
    is the pair returned. *)
Theorem encoding_spares_the_recording fuel version pid serials dir w :
  tree (disk w) ->
  let '(o, w') := encode_session fuel version pid serials dir w in
  (forall p n, disk w !! p = Some n -> p ∉ manifest_paths dir -> retry (disk w) dir \/ p ∉ opus_paths dir ->
     disk w' !! p = Some n) /\
  (disk w' !! (dir /> MANIFEST) = disk w !! (dir /> MANIFEST) \/
   exists m enc, manifest_read (disk w) dir m /\ selects (disk w') dir m enc) /\
  (forall enc, o = Returned enc -> exists m, manifest_read (disk w) dir m /\ selects (disk w') dir m enc).
Proof.
  intros Htree. pose proof (encode_session_triple fuel version pid serials (disk w) dir Htree w eq_refl) as Ht.
  destruct (encode_session fuel version pid serials dir w) as [[enc|e|] w'].
  - destruct Ht as [[Hk Hm] Hs]. split_and!; [done..|]. by intros enc' [= <-].
  - destruct Ht as [Hk Hm]. by split_and!.
  - destruct Ht as [Hk Hm]. by split_and!.
Qed.

End Session.

(** A disk can be checked to be a tree. *)
Definition tree_check (d : Disk) : bool :=
  forallb (fun e : path * Node => match rev e.1 with
    | _ :: ((_ :: _) as r) => match d !! (rev r : path) with Some NDir => true | _ => false end
    | _ => true
    end) (map_to_list d).

Lemma tree_check_sound d : tree_check d = true -> tree d.
Proof.
  intros Hc p name n Hp Hn. unfold tree_check in Hc. rewrite forallb_forall in Hc.
  specialize (Hc (p /> name, n)). rewrite <-list_elem_of_In, elem_of_map_to_list in Hc. specialize (Hc Hn).
  change (fst (p /> name, n)) with (p ++ [name]) in Hc. rewrite rev_unit in Hc.
  destruct (rev p) as [|x r] eqn:Hr; [by apply (f_equal (@rev _)) in Hr; rewrite rev_involutive in Hr|].
  rewrite <-Hr, rev_involutive in Hc.
  assert (Hdir : forall o : option Node, match o with Some NDir => true | _ => false end = true -> o = Some NDir) by (by intros [[]|]).
  exact (Hdir _ Hc).
Qed.

Module EncodedRecording.

#[local] Existing Instances LogCodec.manifest_doc LogCodec.checkpoint_doc.
#[local] Existing Instances Echo.echo_opus Echo.through Halving.halving.

Definition dir : path := ["wal"; "s1"].
Definition format : TrackFormat := mkFormat 16000 1.
Definition manifest : Manifest := mkManifest "s1" 16000 1 1000 0 "1.0" 2 (Some format) (Some format) (Some 2000) [] None None None.

(** A finalized session: 30 ms on the system leg, 10 ms on the microphone's. *)
Definition recorded : World := mkWorld
  (list_to_map [ (["wal"] : path, NDir); (dir, NDir); (dir /> MANIFEST, whole_file (doc_put manifest));
                 (dir /> SYSTEM_PCM, whole_file (replicate 960 1)); (dir /> MIC_PCM, whole_file (replicate 320 2)) ])
  ∅ [] [] [] 0.

Definition ran := encode_session 8 "1.0" 7 (1, 2) dir recorded.

Definition both_tracks : EncodedSession := mkEncoded (mkTrack SYSTEM_OPUS 960 54 30 16000) (mkTrack MIC_OPUS 320 53 10 16000).

Lemma encoding_spares_the_recording_witness :
  tree (disk recorded) /\ ran.1 = Returned both_tracks /\
  let '(o, w') := encode_session 8 "1.0" 7 (1, 2) dir recorded in
  (forall p n, disk recorded !! p = Some n -> p ∉ manifest_paths dir -> retry (disk recorded) dir \/ p ∉ opus_paths dir ->
     disk w' !! p = Some n) /\
  (disk w' !! (dir /> MANIFEST) = disk recorded !! (dir /> MANIFEST) \/
   exists m enc, manifest_read (disk recorded) dir m /\ selects (disk w') dir m enc) /\
  (forall enc, o = Returned enc -> exists m, manifest_read (disk recorded) dir m /\ selects (disk w') dir m enc).
Proof.
  assert (Htree : tree (disk recorded)) by (apply tree_check_sound; vm_compute; reflexivity).
  split; [exact Htree|]. split; [vm_compute; reflexivity|].
  pose proof (encoding_spares_the_recording 8 "1.0" 7 (1, 2) dir recorded Htree) as Hleft. exact Hleft.
Defined.

(** An archive no manifest has selected is spared only if looking for it does not
    fail: [Path::exists] answers [false] on any error, and the archive is truncated. *)
Definition interrupted (n : nat) : World :=
  mkWorld (<[dir /> SYSTEM_OPUS := whole_file [9; 9; 9]]> (disk recorded)) ∅
    (replicate n Proceeds ++ [Stops (Refused (mkIo OtherKind "stale handle")) 0 []]) [] [] 0.

Definition archive_kept (w : World) : bool := bool_decide (disk w !! (dir /> SYSTEM_OPUS) = Some (whole_file [9; 9; 9])).

Lemma failed_stat_overwrites_an_archive :
  match encode_session 8 "1.0" 7 (1, 2) dir (interrupted 6) with (Returned _, w') => archive_kept w' | _ => true end = false /\
  match encode_session 8 "1.0" 7 (1, 2) dir (set_fates (interrupted 6) []) with (Returned _, w') => archive_kept w' | _ => false end = true.
Proof. split; vm_compute; reflexivity. Qed.

End EncodedRecording.
