(* ===== verification/DiscardProofs.v ===== *)
(** * The raw audio goes last

    Proofs about [discard_pcm] of [Encode]: the raw legs of a session are unlinked
    only once both archives have been read back, inspected page by page and synced,
    and only if each leg holds exactly the bytes its archive was made from. *)

From S2P Require Import Prelude Bytes Text Float32 Float64 Json.
From S2P Require Import FileSystem WalTypes OpusArchive SessionDir Wal Dsp OpusWriter Encode WalProofs Observe EncodeProofs.

Local Open Scope Z_scope.

(** ** Reading under an honest disk *)

Definition seen (D : Disk -> Prop) (w : World) : Prop := honest w /\ D (disk w).

Lemma seen_bind {E A B} D (m : IO E A) (k : A -> IO E B) (R : A -> Disk -> Prop) Q (X : Disk -> Prop) :
  sees m R -> (forall d, D d -> X d) -> (forall a, triple (seen (fun d => D d /\ R a d)) (k a) Q (fun w => X (disk w))) ->
  triple (seen D) (m ≫= k) Q (fun w => X (disk w)).
Proof.
  intros Hm HX Hk w [Hw HD]. specialize (Hm w Hw) as (Hd & _ & Hh & Ho). rewrite bind_eq.
  destruct (m w) as [[a|e|] w']; simpl in *; [|rewrite Hd; by apply HX..].
  apply Hk. split; [done|]. by rewrite Hd.
Qed.

(** What was seen, and by which run. *)
Lemma sees_runs {E A} (m : IO E A) R :
  sees m R -> sees m (fun a d => R a d /\ exists w1 w2, disk w1 = d /\ m w1 = (Returned a, w2)).
Proof.
  intros Hm w Hw. destruct (Hm w Hw) as (Hd & Hh & Hh' & Ho). split_and!; [done..|].
  destruct (m w) as [[a|e|] w'] eqn:Hr; simpl in *; [|done..]. split; [done|]. by exists w, w'.
Qed.

Lemma owning_seen {E A} (of_io : IoErr -> E) dir (body : IO E A) (P X : Disk -> Prop) (Q : A -> Disk -> Prop) :
  (forall d, P d -> X d) ->
  triple (seen P) body (fun a w => Q a (disk w)) (fun w => X (disk w)) ->
  triple (seen P) (owning of_io dir body) (fun a w => Q a (disk w)) (fun w => X (disk w)).
Proof.
  intros HPR Hb w [Hw HP]. unfold owning. rewrite bind_eq. unfold map_err.
  pose proof (archive_owner_honest dir w Hw) as Hh. pose proof (archive_owner_touches dir w) as Ht.
  assert (Hd : disk (archive_owner dir w).2 = disk w) by (apply map_eq; intros q; apply Ht; set_solver).
  destruct (archive_owner dir w) as [[o|e|] w1]; simpl in *; [|rewrite Hd; by apply HPR..].
  rewrite <-Hd in HP. specialize (Hb w1 (conj Hh HP)). unfold finally.
  assert (Hdrop : forall w2, exists w3, archive_owner_drop o w2 = (Returned tt, w3) /\ disk w3 = disk w2).
  { intros w2. destruct o as [[q]|]; [by eexists | by exists w2]. }
  destruct (body w1) as [[a|e|] w2]; [| |done]; destruct (Hdrop w2) as (w3 & -> & Hd3); by rewrite Hd3.
Qed.

(** ** A verified archive *)

(** Bytes as they were, perhaps synced since. *)
Definition synced (d0 d : Disk) (p : path) : Prop := d !! p = d0 !! p \/ d !! p = sync_node <$> (d0 !! p).

Lemma sync_node_twice n : sync_node (sync_node n) = sync_node n.
Proof. by destruct n. Qed.

Lemma sync_node_whole c : sync_node (whole_file c) = whole_file c.
Proof. done. Qed.

Lemma synced_alter d0 d p q : synced d0 d p -> synced d0 (alter sync_node q d) p.
Proof.
  intros Hs. unfold synced in *. destruct (decide (p = q)) as [->|Hne]; [|by rewrite lookup_alter_ne].
  right. rewrite lookup_alter_eq. destruct Hs as [Hs|Hs]; (etrans; [apply (f_equal (fmap sync_node)), Hs|]); [done|].
  destruct (d0 !! q) as [n|]; [|done]. simpl. by rewrite sync_node_twice.
Qed.

Section Verified.
Context `{OpusDecoder}.

(** The archive a track names is on disk in full, is one complete stream, and holds
    exactly the ticks of the raw audio it was made from. *)
Definition archived (d : Disk) (dir : path) (name : string) (t : EncodedTrack) (f : option TrackFormat) : Prop :=
  exists p ticks c a, archive_at dir name (file t) p /\ p = join_path dir (file t) /\ expected_ticks t f = Ok ticks /\
    d !! p = Some (whole_file c) /\ zlen c = opus_bytes t /\
    inspect_complete_archive c = Some (Ok a) /\ pcm_samples_48k a = ticks /\ input_rate_hz a = track_rate_hz t.

Lemma archived_mono d d' dir name t f :
  (forall p c, archive_at dir name (file t) p -> d !! p = Some (whole_file c) -> d' !! p = Some (whole_file c)) ->
  archived d dir name t f -> archived d' dir name t f.
Proof. intros Hm (p & ticks & c & a & Hp & Hj & Ht & Hc & Hrest). exists p, ticks, c, a. split_and!; try done; [by apply Hm | apply Hrest..]. Qed.

Lemma archived_synced d dir name t f q : archived d dir name t f -> archived (alter sync_node q d) dir name t f.
Proof.
  apply archived_mono. intros p c _ Hc. destruct (decide (p = q)) as [->|Hne]; [|by rewrite lookup_alter_ne].
  rewrite lookup_alter_eq. etrans; [apply (f_equal (fmap sync_node)), Hc | done].
Qed.

Lemma byte_val_slash a : byte_val a = 47 -> a = "/"%char.
Proof. intros Ha. rewrite <-(ascii_N_embedding a). by replace (N_of_ascii a) with 47%N by (unfold byte_val in Ha; lia). Qed.

Lemma split_once_slash_spec s l r : split_once_slash s = Some (l, r) -> s = l +:+ ("/" +:+ r).
Proof.
  revert l. induction s as [|a s IH]; intros l Hs; [done|]. simpl in Hs. destruct (Z.eqb_spec (byte_val a) 47) as [Ha|_].
  - injection Hs as <- <-. apply byte_val_slash in Ha as ->. done.
  - destruct (split_once_slash s) as [[l' r']|] eqn:Hr; [|done]. simpl in Hs. injection Hs as <- <-.
    change (String a s = String a (l' +:+ ("/" +:+ r'))). f_equal. by apply IH.
Qed.

(** A component of plain ASCII, free of slashes. *)
Definition is_plain (a : ascii) : bool := let b := byte_val a in (b <? 128) && negb (b =? 47).

Fixpoint byte_vals (s : string) : list Z := match s with EmptyString => [] | String a s => byte_val a :: byte_vals s end.

Lemma chars_plain s r : all_bytes is_plain s = true -> chars (s +:+ r) = byte_vals s ++ chars r.
Proof.
  induction s as [|a s IH]; intros Hs; [done|]. cbn [all_bytes] in Hs. apply andb_prop in Hs as [Ha Hs].
  change (chars (String a (s +:+ r)) = byte_val a :: byte_vals s ++ chars r). unfold is_plain in Ha. cbn [chars].
  destruct (Z.ltb_spec (byte_val a) 128); [|done]. by rewrite IH.
Qed.

Lemma utf8_plain s : all_bytes is_plain s = true -> utf8 (byte_vals s) = s.
Proof.
  induction s as [|a s IH]; intros Hs; [done|]. cbn [all_bytes] in Hs. apply andb_prop in Hs as [Ha Hs].
  cbn [byte_vals utf8]. rewrite IH by done. unfold is_plain in Ha. unfold utf8_char.
  destruct (Z.ltb_spec (byte_val a) 128); [|done]. by rewrite val_byte_val.
Qed.

Lemma split_plain s acc r : all_bytes is_plain s = true ->
  split_chars (fun c => c =? 47) acc (byte_vals s ++ r) = split_chars (fun c => c =? 47) (acc ++ byte_vals s) r.
Proof.
  revert acc. induction s as [|a s IH]; intros acc Hs; [by rewrite app_nil_r|]. cbn [all_bytes] in Hs. apply andb_prop in Hs as [Ha Hs].
  cbn [byte_vals app split_chars]. unfold is_plain in Ha. destruct (Z.eqb_spec (byte_val a) 47); [lia|].
  rewrite IH by done. f_equal. by rewrite <-app_assoc.
Qed.

Lemma pieces_plain s : all_bytes is_plain s = true -> pieces s = [s].
Proof.
  intros Hs. unfold pieces, split. rewrite <-(str_app_nil s) at 1. rewrite chars_plain by done.
  rewrite split_plain by done. simpl. by rewrite utf8_plain.
Qed.

Lemma pieces_child g name : all_bytes is_plain g = true -> all_bytes is_plain name = true -> pieces (g +:+ ("/" +:+ name)) = [g; name].
Proof.
  intros Hg Hn. unfold pieces, split. rewrite chars_plain by done. rewrite split_plain by done.
  change (chars ("/" +:+ name)) with (47 :: chars name). cbn [split_chars]. change (47 =? 47) with true. cbv iota. cbn [fmap list_fmap].
  rewrite app_nil_l, utf8_plain by done. f_equal. by apply pieces_plain.
Qed.

Lemma join_name dir name : all_bytes is_plain name = true -> name <> "" -> name <> "." -> name <> ".." -> join_path dir name = dir /> name.
Proof.
  intros Hn H1 H2 H3. unfold join_path. rewrite pieces_plain by done. assert (E : push_piece dir name = dir /> name).
  { unfold push_piece. by rewrite !decide_False by tauto. }
  destruct name; [done | exact E].
Qed.

Lemma join_child dir g name :
  all_bytes is_plain g = true -> g <> "" -> g <> "." -> g <> ".." ->
  all_bytes is_plain name = true -> name <> "" -> name <> "." -> name <> ".." -> join_path dir (g +:+ ("/" +:+ name)) = dir /> g /> name.
Proof.
  intros Hg G1 G2 G3 Hn N1 N2 N3. unfold join_path. rewrite pieces_child by done.
  assert (E : foldl push_piece dir [g; name] = dir /> g /> name).
  { simpl. unfold push_piece. by rewrite !decide_False by tauto. }
  destruct g; [done | exact E].
Qed.

Lemma strip_prefix_app pre s r : strip_prefix pre s = Some r -> s = pre +:+ r.
Proof.
  revert s. induction pre as [|a pre IH]; intros [|b s] Hs; simpl in Hs; [by injection Hs as <- | by injection Hs as <- | done|].
  destruct (decide (a = b)) as [->|]; [|done]. change (String b s = String b (pre +:+ r)). f_equal. by apply IH.
Qed.

Lemma hex_plain s : all_bytes is_hexdigit_or_dash s = true -> all_bytes is_plain s = true.
Proof.
  induction s as [|a s IH]; intros Hs; [done|]. cbn [all_bytes] in *. apply andb_prop in Hs as [Ha Hs]. rewrite IH by done.
  rewrite andb_true_r. unfold is_hexdigit_or_dash, is_plain in *. lia.
Qed.

Lemma sees_archive_path dir name f :
  name = SYSTEM_OPUS \/ name = MIC_OPUS ->
  sees (archive_path dir name f) (fun p _ => archive_at dir name f p /\ p = join_path dir f).
Proof.
  intros Hname. assert (Hp : all_bytes is_plain name = true /\ name <> "" /\ name <> "." /\ name <> "..") by (by destruct Hname as [->| ->]).
  destruct Hp as (Hp & N1 & N2 & N3).
  unfold archive_path. destruct (decide (f = name)) as [->|_].
  { eapply sees_conseq; [apply sees_ret|]. intros p d ->. split; [by left|]. by rewrite join_name. }
  destruct (split_once_slash f) as [[g n]|] eqn:Hs; [|eapply sees_conseq; [apply sees_raise|]; done].
  destruct (strip_prefix ARCHIVE_PREFIX g) as [ident|] eqn:Hpre; [|eapply sees_conseq; [apply sees_raise|]; done].
  destruct (bool_decide (n = name)) eqn:Hn; simpl; [|eapply sees_conseq; [apply sees_raise|]; done].
  destruct (all_bytes is_hexdigit_or_dash ident) eqn:Hhex; [|rewrite orb_true_r; eapply sees_conseq; [apply sees_raise|]; done].
  destruct (str_is_empty ident) eqn:Hemp; [eapply sees_conseq; [apply sees_raise|]; done|]. simpl. see.
  intros p d (md & _ & [] & _ & ->). apply bool_decide_eq_true in Hn as ->. apply split_once_slash_spec in Hs.
  apply strip_prefix_app in Hpre. split; [right; exists g; by split|]. subst f.
  rewrite join_child; try done; rewrite Hpre; [|done..]. cbn [all_bytes ARCHIVE_PREFIX]. apply hex_plain in Hhex. exact Hhex.
Qed.

Lemma sync_file_seen (D : Disk -> Prop) p :
  triple (seen D) (sync_file p) (fun _ => seen (fun d => exists d1, D d1 /\ d = alter sync_node p d1)) (fun w => D (disk w)).
Proof.
  intros w [Hw HD]. pose proof (op_honest _ _ w Hw : honest (sync_file p w).2) as Hh. unfold sync_file, op in *.
  destruct (fates w) as [|[|why n gone] fs]; simpl in *; [split; eauto..|]. by destruct why.
Qed.

Lemma verify_triple (D : Disk -> Prop) dir name t f :
  name = SYSTEM_OPUS \/ name = MIC_OPUS ->
  (forall q d, D d -> D (alter sync_node q d)) ->
  triple (seen D) (verify_encoded_track dir name t f) (fun _ => seen (fun d => D d /\ archived d dir name t f)) (fun w => D (disk w)).
Proof.
  intros Hname HD. unfold verify_encoded_track.
  eapply seen_bind; [apply sees_guard | done | intros []]. eapply seen_bind; [by apply sees_archive_path | tauto | intros p].
  eapply seen_bind; [apply sees_of_result | tauto | intros ticks]. eapply seen_bind; [apply sees_symlink_metadata | tauto | intros md].
  eapply seen_bind; [apply sees_guard | tauto | intros []]. eapply seen_bind; [apply sees_read_file | tauto | intros c].
  eapply seen_bind; [apply sees_guard | tauto | intros []]. eapply seen_bind; [apply sees_guard | tauto | intros []].
  eapply (seen_bind _ _ _ (fun a _ => inspect_complete_archive (take (Z.to_nat (opus_bytes t + 1)) c) = Some (Ok a))); [|tauto|intros a].
  { destruct (inspect_complete_archive _) as [[a|e]|]; [eapply sees_conseq; [apply sees_ret|]; by intros a' d -> | |];
      (eapply sees_conseq; [apply sees_raise|]; done). }
  eapply seen_bind; [apply sees_guard | tauto | intros []].
  eapply triple_conseq; [apply (sync_file_seen (fun d => D d /\ exists k, d !! p = Some (NFile c k) /\ (archive_at dir name (file t) p /\ p = join_path dir (file t)) /\
    expected_ticks t f = Ok ticks /\ zlen c = opus_bytes t /\ inspect_complete_archive c = Some (Ok a) /\
    pcm_samples_48k a = ticks /\ input_rate_hz a = track_rate_hz t)) | | |].
  - intros w [Hw (((((((((( HDw & _) & [Hat Hj]) & Ht) & _) & _) & k & Hc) & Hz) & _) & Ha) & Hg)]. split; [done|]. split; [done|]. exists k.
    repeat apply andb_prop in Hg as [Hg ?]. apply Z.eqb_eq in Hz.
    assert (Hwhole : take (Z.to_nat (opus_bytes t + 1)) c = c) by (apply take_ge; rewrite <-Hz; unfold zlen; lia).
    rewrite Hwhole in Ha. repeat match goal with Hx : (_ =? _) = true |- _ => apply Z.eqb_eq in Hx end. by split_and!.
  - intros [] w [Hw (d1 & (HD1 & k & Hc & [Hat Hj] & Ht & Hz & Ha & Hp & Hr) & Ed)]. split; [done|]. rewrite Ed. split; [by apply HD|].
    exists p, ticks, c, a. split_and!; try done. rewrite lookup_alter_eq. etrans; [apply (f_equal (fmap sync_node)), Hc | done].
  - by intros w [? _].
Qed.

End Verified.

(** ** The legs *)

Definition pcm_paths (dir : path) : list path := [dir /> SYSTEM_PCM; dir /> MIC_PCM].

(** A raw leg that is gone already, or has exactly the bytes that were encoded. *)
Definition retained (d : Disk) (dir : path) (pcm : string) (t : EncodedTrack) : Prop :=
  d !! (dir /> pcm) = None \/ exists c k, d !! (dir /> pcm) = Some (NFile c k) /\ zlen c = pcm_bytes t.

Lemma retained_before d0 d dir pcm t : synced d0 d (dir /> pcm) -> retained d dir pcm t -> retained d0 dir pcm t.
Proof.
  intros [Hs|Hs] [Hn|(c & k & Hc & Hz)].
  - left. etrans; [symmetry; exact Hs | exact Hn].
  - right. exists c, k. split; [|done]. etrans; [symmetry; exact Hs | exact Hc].
  - left. assert (E : sync_node <$> d0 !! (dir /> pcm) = None) by (etrans; [symmetry; exact Hs | exact Hn]). by apply fmap_None in E.
  - right. assert (E : sync_node <$> d0 !! (dir /> pcm) = Some (NFile c k)) by (etrans; [symmetry; exact Hs | exact Hc]).
    apply fmap_Some in E as ([c' k'| |] & Hd & Hn); simplify_eq/=. by exists c', k'.
Qed.

Lemma sees_retained_leg dir pcm t : sees (verify_retained_leg dir pcm t) (fun _ d => retained d dir pcm t).
Proof.
  unfold verify_retained_leg, unless_missing. eapply sees_conseq.
  - apply (sees_bind _ _ _ (fun r _ _ => match r with Ok md => is_file md && (len md =? pcm_bytes t) = true | Err e => error_kind e = NotFound end)
      (observes_sees _ _ _ (observes_attempt _ _ _ (observes_symlink_metadata _)))).
    intros [md|e]; [eapply sees_conseq; [apply sees_guard | done]|].
    destruct (decide (error_kind e = NotFound)); eapply sees_conseq; [apply sees_ret | done | apply sees_raise | done].
  - intros [] d ([md|e] & Hr & Hb); simpl in *.
    + destruct Hr as (n & Hn & ->). apply andb_prop in Hb as [Hf Hz]. destruct n as [c k| |]; try done. right. exists c, k.
      split; [done|]. by apply Z.eqb_eq.
    + left. by apply Hr.
Qed.

Lemma sees_retained_pcm dir enc :
  sees (verify_retained_pcm dir enc) (fun _ d => retained d dir SYSTEM_PCM (e_system enc) /\ retained d dir MIC_PCM (e_mic enc)).
Proof.
  unfold verify_retained_pcm. eapply sees_conseq.
  - apply (sees_bind _ _ _ (fun _ _ d => retained d dir MIC_PCM (e_mic enc)) (sees_retained_leg _ _ _)). intros []. apply sees_retained_leg.
  - by intros [] d (? & ? & ?).
Qed.

Lemma sees_size_or_zero {E} p : sees (size_or_zero (E := E) p) (fun _ _ => True).
Proof.
  unfold size_or_zero. eapply sees_conseq; [|by intros a d Ha; exact I].
  eapply sees_bind; [eapply observes_sees, observes_attempt, observes_metadata | intros r; apply sees_ret].
Qed.

(** Discarding one leg removes it or leaves it. *)
Lemma discard_leg_triple (F : Disk -> Prop) dir pcm :
  (forall d, F d -> F (delete (dir /> pcm) d)) ->
  triple (seen F) (discard_leg dir pcm) (fun _ => seen (fun d => F d /\ d !! (dir /> pcm) = None)) (fun w => F (disk w)).
Proof.
  intros HF. unfold discard_leg. eapply seen_bind; [apply sees_size_or_zero | done | intros size].
  intros w [Hw [HD _]]. rewrite bind_eq. unfold attempt. destruct (remove_file_run (dir /> pcm) w Hw) as [Hh Hr].
  destruct (remove_file (dir /> pcm) w) as [[[]|e|] w']; simpl in Hh.
  - split; [done|]. rewrite Hr. split; [by apply HF | by rewrite lookup_delete_eq].
  - destruct Hr as [Ed Ha]. destruct (decide (error_kind e = NotFound)) as [Hk|Hk]; simpl; [|by rewrite Ed].
    split; [done|]. rewrite Ed. split; [done | by apply Ha].
  - by rewrite Hr.
Qed.

Section Discard.
Context `{JsonDoc Manifest, OpusDecoder}.

(** What allows a leg to go. *)
Definition replaced (d0 : Disk) (dir : path) (d : Disk) : Prop :=
  exists m enc formats, manifest_read d0 dir m /\ encoded m = Some enc /\
    (exists w1 w2, disk w1 = d0 /\ track_formats m dir w1 = (Returned formats, w2)) /\
    archived d dir SYSTEM_OPUS (e_system enc) (Some (f_system formats)) /\
    archived d dir MIC_OPUS (e_mic enc) (Some (f_mic formats)) /\
    retained d0 dir SYSTEM_PCM (e_system enc) /\ retained d0 dir MIC_PCM (e_mic enc).

(** The disk of a discard: every byte as it was, or the legs going after their
    archives were verified. *)
Definition discarding (d0 : Disk) (dir : path) (d : Disk) : Prop :=
  (forall p, synced d0 d p) \/
  (forall p, synced d0 d p \/ p ∈ pcm_paths dir /\ d !! p = None) /\ replaced d0 dir d.

Lemma archive_not_pcm dir name f p : name = SYSTEM_OPUS \/ name = MIC_OPUS -> archive_at dir name f p -> p ∉ pcm_paths dir.
Proof.
  intros Hname [[-> ->]|(g & -> & ->)]; unfold pcm_paths.
  - destruct Hname as [->| ->]; not_in_paths.
  - rewrite !not_elem_of_cons. split_and!; [| |apply not_elem_of_nil];
      intros Heq; apply app_inj_2 in Heq as [Heq _]; try done; by apply child_ne in Heq.
Qed.

Lemma archived_delete dir name t f d q :
  name = SYSTEM_OPUS \/ name = MIC_OPUS -> q ∈ pcm_paths dir -> archived d dir name t f -> archived (delete q d) dir name t f.
Proof.
  intros Hname Hq. apply archived_mono. intros p c Hp Hc. rewrite lookup_delete_ne; [done|]. intros ->.
  by apply (archive_not_pcm dir name (file t) p Hname Hp).
Qed.

Lemma replaced_delete d0 dir d q : q ∈ pcm_paths dir -> replaced d0 dir d -> replaced d0 dir (delete q d).
Proof.
  intros Hq (m & enc & formats & Hm & He & Hf & Hs & Hc & Hrest). exists m, enc, formats.
  split_and!; try done; [by apply archived_delete; auto.. | apply Hrest | apply Hrest].
Qed.

Lemma going_delete d0 dir d q :
  q ∈ pcm_paths dir ->
  (forall p, synced d0 d p \/ p ∈ pcm_paths dir /\ d !! p = None) /\ replaced d0 dir d ->
  (forall p, synced d0 (delete q d) p \/ p ∈ pcm_paths dir /\ delete q d !! p = None) /\ replaced d0 dir (delete q d).
Proof.
  intros Hq [Hs Hr]. split; [|by apply replaced_delete]. intros p. destruct (decide (p = q)) as [->|Hne].
  - right. split; [done|]. by rewrite lookup_delete_eq.
  - unfold synced. rewrite lookup_delete_ne by done. apply Hs.
Qed.

Lemma sees_read_manifest dir : sees (read_manifest dir) (fun m d => manifest_read d dir m).
Proof.
  unfold read_manifest. see. intros m d (text & (k & Hp) & Hg). by exists text, k.
Qed.

Lemma sees_track_formats m dir : sees (track_formats m dir) (fun _ _ => True).
Proof.
  assert (Hleg : forall name, sees (leg_bytes m dir name) (fun _ _ => True)).
  { intros name. unfold leg_bytes. eapply sees_conseq; [|by intros a d Ha; exact I].
    eapply sees_bind; [eapply observes_sees, observes_attempt, observes_metadata | intros r; apply sees_ret]. }
  unfold track_formats. case_match; [by eapply sees_conseq; [apply sees_ret|]|].
  case_match; [by eapply sees_conseq; [apply sees_ret|]|].
  eapply sees_conseq; [|by intros a d Ha; exact I].
  eapply sees_bind; [apply Hleg | intros s]. eapply sees_bind; [apply Hleg | intros c; apply sees_ret].
Qed.

(** Both legs, once everything is checked. *)
Lemma discard_legs_triple d0 dir :
  triple (seen (fun d => (forall p, synced d0 d p) /\ replaced d0 dir d))
    (s ← discard_leg dir SYSTEM_PCM; c ← discard_leg dir MIC_PCM; mret (wadd s c))
    (fun _ w => discarding d0 dir (disk w) /\ replaced d0 dir (disk w) /\
                disk w !! (dir /> SYSTEM_PCM) = None /\ disk w !! (dir /> MIC_PCM) = None)
    (fun w => discarding d0 dir (disk w)).
Proof.
  set (G := fun d => (forall p, synced d0 d p \/ p ∈ pcm_paths dir /\ d !! p = None) /\ replaced d0 dir d).
  assert (HG : forall d, G d -> discarding d0 dir d) by (intros d Hd; by right).
  eapply (triple_pre (seen G)); [|by intros w (Hw & Hs & Hr); split; [done|]; split; [by left; apply Hs|]].
  eapply triple_then; [apply (discard_leg_triple G); intros d; apply going_delete; unfold pcm_paths; set_solver | intros w; apply HG | intros s].
  eapply triple_then; [apply (discard_leg_triple (fun d => G d /\ d !! (dir /> SYSTEM_PCM) = None))| |].
  - intros d [Hd Hn]. split; [apply going_delete; [unfold pcm_paths; set_solver | done]|]. rewrite lookup_delete_ne; [done | path_ne].
  - by intros w [? _]; apply HG.
  - intros c w (_ & [Hd Hs] & Hm). split_and!; try done; [by apply HG | apply Hd].
Qed.

Lemma discard_pcm_triple d0 dir :
  triple (seen (fun d => d = d0)) (discard_pcm dir)
    (fun _ w => discarding d0 dir (disk w) /\ replaced d0 dir (disk w) /\
                disk w !! (dir /> SYSTEM_PCM) = None /\ disk w !! (dir /> MIC_PCM) = None)
    (fun w => discarding d0 dir (disk w)).
Proof.
  unfold discard_pcm.
  apply (owning_seen _ _ _ _ (discarding d0 dir) (fun _ d => discarding d0 dir d /\ replaced d0 dir d /\
           d !! (dir /> SYSTEM_PCM) = None /\ d !! (dir /> MIC_PCM) = None)).
  { intros d ->. left. intros p. by left. }
  eapply seen_bind; [apply sees_read_manifest | intros d ->; left; intros p; by left | intros m].
  eapply seen_bind; [apply sees_ok_or | intros d [-> _]; left; intros p; by left | intros enc].
  eapply seen_bind; [apply (sees_runs _ _ (sees_track_formats m dir)) | intros d [[-> _] _]; left; intros p; by left | intros formats].
  apply triple_at. intros w0 [Hw0 (((Hd0 & Hm) & He) & _ & Hf)]. rewrite Hd0 in Hm, Hf.
  set (D := fun d => forall p, synced d0 d p).
  assert (HD : forall q d, D d -> D (alter sync_node q d)) by (intros q d Hd p; by apply synced_alter).
  eapply (triple_pre (seen D)); [|intros w <-; split; [done|]; rewrite Hd0; intros p; by left].
  eapply triple_then; [apply (verify_triple D _ _ _ _ (or_introl eq_refl) HD) | by left | intros []].
  set (D1 := fun d => D d /\ archived d dir SYSTEM_OPUS (e_system enc) (Some (f_system formats))).
  assert (HD1 : forall q d, D1 d -> D1 (alter sync_node q d)) by (intros q d [Hd Ha]; split; [by apply HD | by apply archived_synced]).
  eapply triple_then; [apply (verify_triple D1 _ _ _ _ (or_intror eq_refl) HD1) | by intros w [Hd _]; left | intros []].
  eapply seen_bind; [apply sees_retained_pcm | by intros d [[Hd _] _]; left | intros []].
  eapply triple_pre; [apply discard_legs_triple|]. intros w (Hw & [[[Hd Hs] Hc] [Hrs Hrm]]). split; [done|]. split; [done|].
  exists m, enc, formats. split_and!; try done; by eapply retained_before; [apply Hd|].
Qed.


End Discard.

Module RetiredRecording.

#[local] Existing Instances LogCodec.manifest_doc twenty_ms.

Definition dir : path := ["wal"; "s1"].
Definition format : TrackFormat := mkFormat 16000 1.
Definition track (name : string) : EncodedTrack := mkTrack name 960 157 30 16000.
Definition both : EncodedSession := mkEncoded (track SYSTEM_OPUS) (track MIC_OPUS).
Definition manifest : Manifest := mkManifest "s1" 16000 1 1000 0 "1.0" 2 (Some format) (Some format) (Some 2000) [] (Some both) None None.

(** An encoded session: 30 ms on each leg, and their archives. *)
Definition encoded_session : World := mkWorld
  (list_to_map [ (["wal"] : path, NDir); (dir, NDir); (dir /> MANIFEST, whole_file (doc_put manifest));
                 (dir /> SYSTEM_PCM, whole_file (replicate 960 1)); (dir /> MIC_PCM, whole_file (replicate 960 2));
                 (dir /> SYSTEM_OPUS, whole_file sample_archive); (dir /> MIC_OPUS, NFile sample_archive 0) ])
  ∅ [] [] [] 0.


End RetiredRecording.
