(* ===== verification/Promote.v ===== *)
(** * Promotion: a finished session becomes durable media

    [fotw-pipeline/src/promote.rs]: a session is claimed by a meeting, encoded,
    published into the media tree, stamped, and retired; [promote] runs what is left
    of that sequence and [resume] does so for every session found at startup.  The
    calendar arithmetic that files a meeting under its month is here too, and
    [retention::dir_bytes], which measures a directory. *)

From S2P Require Import Prelude Bytes Text Float32 Float64 Json SttTypes CoverageTypes.
From S2P Require Import FileSystem WalTypes OpusArchive SessionDir Wal Dsp OpusWriter Encode Replay ReplayFile.

Local Open Scope Z_scope.

(** ** The calendar *)

(** [x as u32]. *)
Definition as_u32 (x : Z) : Z := x mod 2 ^ 32.

Definition civil_from_days (days : Z) : Z * Z * Z :=
  let z := days + 719468 in
  let era := Z.quot (if 0 <=? z then z else z - 146096) 146097 in
  let doe := z - era * 146097 in
  let yoe := Z.quot (doe - Z.quot doe 1460 + Z.quot doe 36524 - Z.quot doe 146096) 365 in
  let y := yoe + era * 400 in
  let doy := doe - (365 * yoe + Z.quot yoe 4 - Z.quot yoe 100) in
  let mp := Z.quot (5 * doy + 2) 153 in
  let d := as_u32 (doy - Z.quot (153 * mp + 2) 5 + 1) in
  let m := as_u32 (if mp <? 10 then mp + 3 else mp - 9) in
  (if m <=? 2 then y + 1 else y, m, d).

Definition civil_from_ms (ms : Z) : Z * Z * Z := civil_from_days (ms / 86400000).

(** [Path::join] on the text of a relative path that has no trailing slash. *)
Definition join_text (p s : string) : string :=
  match s with String "/" _ => s | _ => p +:+ ("/" +:+ s) end.

Definition MEDIA_DIR : string := "media".
Definition PART_SUFFIX : string := ".part".
Definition RETIRED_SUFFIX : string := ".retired".

Definition media_rel_dir (started_at_ms : Z) (meeting_id : string) : string :=
  let '(y, m, _) := civil_from_ms started_at_ms in
  join_text (join_text (join_text MEDIA_DIR (zero_padded 4 y)) (zero_padded 2 m)) meeting_id.

(** ** Errors *)

Inductive PromoteError :=
| PendingTranscription (dir : path) (reason : string)
| NoSession (dir : path)
| Unclaimed (dir : path)
| Unfinalized (dir : path)
| NotEncoded (dir : path)
| NotPublished (dir : path)
| Unverified (p : path) (want : Z) (got : option Z)
| EncodeFailed (dir : path) (source : OpusError)
| IoFailed (what : string) (p : path) (source : IoErr).

(** ** Measuring a directory *)

(** The entries of one directory: the files' bytes, and the directories to visit. *)
Fixpoint measure_entries (dir : path) (names : list string) (total : Z) (stack : list path) : IO IoErr (Z * list path) :=
  match names with
  | [] => mret (total, stack)
  | n :: names =>
      ft ← symlink_metadata (dir /> n);
      if is_dir ft then measure_entries dir names total (dir /> n :: stack)
      else if is_file ft then
        md ← symlink_metadata (dir /> n);
        measure_entries dir names (wadd total (len md)) stack
      else measure_entries dir names total stack
  end.

(** The stack is popped at its head; [fuel] bounds the directories visited. *)
Fixpoint dir_bytes_loop (fuel : nat) (stack : list path) (total : Z) : IO IoErr Z :=
  match fuel, stack with
  | _, [] => mret total
  | O, _ => raise (bad_data "unreachable: a tree has no more directories than entries")
  | S fuel, dir :: stack =>
      r ← attempt (read_dir dir);
      match r with
      | Ok names =>
          '(total, stack) ← measure_entries dir names total stack;
          dir_bytes_loop fuel stack total
      | Err e => if decide (error_kind e = NotFound) then dir_bytes_loop fuel stack total else raise e
      end
  end.

Definition dir_bytes (p : path) : IO IoErr Z := fun w => dir_bytes_loop (S (size (disk w))) [p] 0 w.

(** [dir_bytes(dir).unwrap_or(0)]. *)
Definition dir_bytes_or_zero {E} (p : path) : IO E Z :=
  r ← attempt (dir_bytes p);
  mret match r with Ok n => n | Err _ => 0 end.

(** ** Names *)

Definition sibling (dir : path) (suffix : string) : path :=
  match last dir with
  | Some name => parent dir /> (name +:+ suffix)
  | None => ["session" +:+ suffix]
  end.

Definition ends_with (s suffix : string) : bool :=
  (String.length suffix <=? String.length s)%nat
  && String.eqb (String.substring (String.length s - String.length suffix) (String.length suffix) s) suffix.

Definition is_retired (p : path) : bool :=
  match last p with Some n => ends_with n RETIRED_SUFFIX | None => false end.

(** [Path::is_dir]. *)
Definition path_is_dir {E} (p : path) : IO E bool :=
  r ← attempt (metadata p);
  mret match r with Ok md => is_dir md | Err _ => false end.

Definition sync_dir {E} (dir : path) : IO E unit :=
  _ ← attempt (E := IoErr) (sync_directory dir);
  mret tt.

(** [Path::components], and whether every one is [Component::Normal]: no root, no
    leading [.], no [..]. *)
Definition components (rel : string) : list string := base.filter (fun c => c <> "" /\ c <> ".") (pieces rel).

Definition all_normal (rel : string) : bool :=
  match pieces rel with
  | "" :: _ :: _ => false
  | "." :: _ => false
  | ps => forallb (fun c => negb (bool_decide (c = ".."))) ps
  end.

(** ** The steps *)

Section Promote.
Context `{Rubato, LibOpus, OggMuxer, JsonDoc Manifest, OpusDecoder}.
Context `{JsonDoc ReplayHeader, JsonDoc Completion, JsonDoc ProjectionProof}.

Definition manifest_of (dir : path) : IO PromoteError Manifest := map_err (fun _ => NoSession dir) (read_manifest dir).

(** A step that never raises, whatever error type it is given. *)
Definition infallible {A} (dir : path) (m : IO IoErr A) : IO PromoteError A := map_err (IoFailed "unreachable" dir) m.

(** The claim, once the session is in a state where promotion is allowed. *)
Definition ready_claim (dir : path) (m : Manifest) : result Claim PromoteError :=
  match ended_at_ms m with
  | None => Err (Unfinalized dir)
  | Some _ => match claim m with Some c => Ok c | None => Err (Unclaimed dir) end
  end.

Definition claim_session (dir : path) (meeting_id : string) (started_at_ms : Z) : IO PromoteError Claim :=
  m ← manifest_of dir;
  let c := mkClaim meeting_id (media_rel_dir started_at_ms meeting_id) in
  _ ← map_err (IoFailed "rewriting the manifest in" dir) (write_manifest_at dir (with_claim m (Some c)));
  mret c.

Definition encode_step (fuel : nat) (version : string) (pid : Z) (serials : Z * Z) (dir : path) : IO PromoteError unit :=
  m ← manifest_of dir;
  if is_some (encoded m) then mret tt
  else
    _ ← map_err (EncodeFailed dir) (encode_session fuel version pid serials dir);
    mret tt.

(** Copy [src] to [dst] and sync it, answering the bytes written.  [io::copy] has
    emptied the writer's buffer when it returns. *)
Definition copy_durably (src dst : path) : IO PromoteError Z :=
  _ ← map_err (IoFailed "opening the encoded track" src) (open_existing src);
  _ ← map_err (IoFailed "creating the media file" dst) (open_truncate dst);
  c ← map_err (IoFailed "writing the media file" dst) (read_file src);
  _ ← map_err (IoFailed "writing the media file" dst) (write_file dst c);
  _ ← map_err (IoFailed "syncing the media file" dst) (sync_file dst);
  mret (zlen c).

Definition publish_one (dir dest : path) (rel_dir chan : string) (track : EncodedTrack) : IO PromoteError PromotedTrack :=
  let src := join_path dir (file track) in
  let final_name := chan +:+ ".opus" in
  let part := dest /> (final_name +:+ PART_SUFFIX) in
  let final_path := dest /> final_name in
  n ← copy_durably src part;
  _ ← map_err (IoFailed "publishing the track to" final_path) (rename_file part final_path);
  mret (mkPromoted chan (rel_dir +:+ ("/" +:+ final_name)) n (track_duration_ms track) (track_rate_hz track)).

Definition publish_session (dir root : path) : IO PromoteError Promotion :=
  owning (IoFailed "acquiring archive ownership" dir) dir
    (m ← manifest_of dir;
     c ← of_result (ready_claim dir m);
     enc ← ok_or (encoded m) (NotEncoded dir);
     formats ← infallible dir (track_formats m dir);
     _ ← map_err (IoFailed "verifying source archive" dir)
           (verify_encoded_track dir SYSTEM_OPUS (e_system enc) (Some (f_system formats)));
     _ ← map_err (IoFailed "verifying source archive" dir)
           (verify_encoded_track dir MIC_OPUS (e_mic enc) (Some (f_mic formats)));
     let dest := join_path root (c_rel_dir c) in
     _ ← map_err (IoFailed "creating the media directory" dest) (create_dir_all dest);
     s ← publish_one dir dest (c_rel_dir c) "system" (e_system enc);
     t ← publish_one dir dest (c_rel_dir c) "mic" (e_mic enc);
     _ ← sync_dir dest;
     mret (mkPromotion (c_meeting_id c) (c_rel_dir c) [s; t])).

Definition stamp (dir : path) (p : Promotion) : IO PromoteError unit :=
  m ← manifest_of dir;
  map_err (IoFailed "rewriting the manifest in" dir) (write_manifest_at dir (with_promoted m (Some p))).

(** ** Verifying what was published *)

(** Every directory on the way is one, and not a link to one. *)
Fixpoint descend (error : PromoteError) (p : path) (cs : list string) : IO PromoteError path :=
  match cs with
  | [] => mret p
  | c :: cs =>
      r ← attempt (symlink_metadata (p /> c));
      _ ← guard_io (match r with Ok md => is_dir md | Err _ => false end) error;
      descend error (p /> c) cs
  end.

Definition verify_one (root parent dir : path) (error : PromoteError) (pr : Promotion) (chan name : string)
    (track : EncodedTrack) (format : TrackFormat) : IO PromoteError unit :=
  t ← ok_or (list_find (fun t => channel t = chan) (tracks pr)) error;
  let t := t.2 in
  _ ← guard_io (bool_decide (rel_path t = p_rel_dir pr +:+ ("/" +:+ name)) && (p_bytes t =? opus_bytes track)
                && (p_duration_ms t =? track_duration_ms track) && (p_rate_hz t =? track_rate_hz track)) error;
  let p := join_path root (rel_path t) in
  r ← attempt (metadata p);
  let got := match r with Ok md => Some (len md) | Err _ => None end in
  _ ← guard_io (bool_decide (got = Some (p_bytes t))) (Unverified p (p_bytes t) got);
  _ ← map_err (IoFailed "verifying source archive identity" dir) (archive_path dir name (file track));
  map_err (IoFailed "verifying published archive audio" p)
    (verify_encoded_track parent name
       (mkTrack name (pcm_bytes track) (opus_bytes track) (track_duration_ms track) (track_rate_hz track)) (Some format)).

Definition verify_published (root : path) (pr : Promotion) (dir : path) (m : Manifest) : IO PromoteError unit :=
  enc ← ok_or (encoded m) (NotEncoded dir);
  let invalid := IoFailed "verifying published archive identity" dir
                   (bad_data "published archives do not match the original sources") in
  _ ← guard_io ((length (tracks pr) =? 2)%nat && negb (str_is_empty (p_rel_dir pr)) && all_normal (p_rel_dir pr)) invalid;
  parent ← descend invalid root (components (p_rel_dir pr));
  formats ← infallible dir (track_formats m dir);
  _ ← verify_one root parent dir invalid pr "system" SYSTEM_OPUS (e_system enc) (f_system formats);
  verify_one root parent dir invalid pr "mic" MIC_OPUS (e_mic enc) (f_mic formats).

(** ** Retiring *)

Definition owner_error (dir : path) (e : IoErr) : PromoteError :=
  if decide (error_kind e = WouldBlock) then PendingTranscription dir (error_text e)
  else IoFailed "acquiring archive ownership" dir e.

(** Verify, take the leases, and move the directory aside; both owners are released
    when this ends, before anything is unlinked. *)
Definition set_aside (dir root : path) : IO PromoteError (path * Z) :=
  owning (owner_error dir) dir
    (m ← manifest_of dir;
     pr ← ok_or (promoted m) (NotPublished dir);
     _ ← verify_published root pr dir m;
     enc ← ok_or (encoded m) (NotEncoded dir);
     _ ← map_err (IoFailed "verifying retained raw audio" dir) (verify_retained_pcm dir enc);
     g ← map_err (fun e => PendingTranscription dir (error_text e)) (retirement_guard dir (id m));
     owners ← ok_or g (PendingTranscription dir "transcription is pending or a source is still open");
     finally
       (freed ← dir_bytes_or_zero dir;
        let retired := sibling dir RETIRED_SUFFIX in
        _ ← map_err (IoFailed "retiring the session directory" dir) (rename_dir dir retired);
        mret (retired, freed))
       (release owners)).

Definition retire (dir root : path) : IO PromoteError Z :=
  '(retired, freed) ← set_aside dir root;
  _ ← map_err (IoFailed "removing the retired session" retired) (remove_dir_all retired);
  mret freed.

Definition retire_finished_replay (dir root : path) : IO PromoteError unit :=
  r ← attempt (retire dir root);
  match r with
  | Ok _ | Err (PendingTranscription _ _) => mret tt
  | Err e => raise e
  end.

(** ** The whole sequence *)

Definition promote (fuel : nat) (version : string) (pid : Z) (serials : Z * Z) (dir root : path) : IO PromoteError Promotion :=
  m ← manifest_of dir;
  _ ← of_result (ready_claim dir m);
  intact ← match promoted m with
           | Some pr => r ← attempt (verify_published root pr dir m);
                        mret match r with Ok _ => Some pr | Err _ => None end
           | None => mret None
           end;
  match intact with
  | Some pr => _ ← retire_finished_replay dir root; mret pr
  | None =>
      _ ← encode_step fuel version pid serials dir;
      pr ← publish_session dir root;
      _ ← stamp dir pr;
      _ ← retire_finished_replay dir root;
      mret pr
  end.

Fixpoint pending_entries (root : path) (names : list string) : IO IoErr (list path) :=
  match names with
  | [] => mret []
  | n :: names =>
      let p := root /> n in
      here ← path_is_dir p;
      if negb here || is_retired p then pending_entries root names
      else
        r ← attempt (read_manifest p);
        rest ← pending_entries root names;
        mret match r with
             | Ok m => if is_some (ended_at_ms m) && is_some (claim m) then p :: rest else rest
             | Err _ => rest
             end
  end.

Definition pending (root : path) : IO IoErr (list path) :=
  r ← attempt (read_dir root);
  match r with
  | Ok names => pending_entries root names
  | Err e => if decide (error_kind e = NotFound) then mret [] else raise e
  end.

Fixpoint sweep_entries (root : path) (names : list string) : IO IoErr unit :=
  match names with
  | [] => mret tt
  | n :: names =>
      let p := root /> n in
      here ← path_is_dir p;
      _ ← (if here && is_retired p then _ ← attempt (E := IoErr) (remove_dir_all p); mret tt else mret tt);
      sweep_entries root names
  end.

Definition sweep_retired (root : path) : IO IoErr unit :=
  r ← attempt (E := IoErr) (read_dir root);
  match r with Ok names => sweep_entries root names | Err _ => mret tt end.

(** One result per session; the serials of the streams are drawn for each. *)
Fixpoint promote_all (fuel : nat) (version : string) (pid : Z) (serials : Z * Z) (dirs : list path) (root : path)
  : IO IoErr (list (result Promotion PromoteError)) :=
  match dirs with
  | [] => mret []
  | dir :: dirs =>
      r ← attempt (promote fuel version pid serials dir root);
      rs ← promote_all fuel version pid serials dirs root;
      mret (r :: rs)
  end.

Definition resume_promotions (fuel : nat) (version : string) (pid : Z) (serials : Z * Z) (sessions_root root : path)
  : IO IoErr (list (result Promotion PromoteError)) :=
  _ ← sweep_retired sessions_root;
  r ← attempt (E := IoErr) (pending sessions_root);
  promote_all fuel version pid serials (match r with Ok ds => ds | Err _ => [] end) root.

End Promote.
