(* ===== verification/Calendar.v ===== *)
(** * The calendar arithmetic is the calendar

    Proofs about [civil_from_days] of [Promote] ([promote.rs]): the closed form that
    files a meeting under its month names, for every millisecond a [u64] can count,
    the day that counting from 1 January 1970 with the Gregorian rules reaches. *)

From S2P Require Import Prelude Promote.

Local Open Scope Z_scope.

Ltac divisions := Z.to_euclidean_division_equations; lia.

(** ** The Gregorian calendar, a day at a time *)

Definition is_leap (y : Z) : bool := (y mod 4 =? 0) && (negb (y mod 100 =? 0) || (y mod 400 =? 0)).

Definition month_days (y m : Z) : Z :=
  if m =? 2 then if is_leap y then 29 else 28
  else if bool_decide (m ∈ [4; 6; 9; 11]) then 30 else 31.

Definition next_day (ymd : Z * Z * Z) : Z * Z * Z :=
  let '(y, m, d) := ymd in
  if d <? month_days y m then (y, m, d + 1) else if m <? 12 then (y, m + 1, 1) else (y + 1, 1, 1).

(** ** Years that start in March *)

(** The first day of a year of an era, and the day after its last. *)
Definition year_start (Y : Z) : Z := 365 * Y + Y / 4 - Y / 100.
Definition year_end (Y : Z) : Z := if Y =? 399 then 146097 else year_start (Y + 1).

(** The month and the day of the month, from the day of such a year. *)
Definition month_day (doy : Z) : Z * Z :=
  let mp := Z.quot (5 * doy + 2) 153 in
  (as_u32 (if mp <? 10 then mp + 3 else mp - 9), as_u32 (doy - Z.quot (153 * mp + 2) 5 + 1)).

Definition of_doy (y doy : Z) : Z * Z * Z :=
  let '(m, d) := month_day doy in (if m <=? 2 then y + 1 else y, m, d).

Definition year_of_era (doe : Z) : Z := Z.quot (doe - Z.quot doe 1460 + Z.quot doe 36524 - Z.quot doe 146096) 365.

(** A fact about each of the first [n] integers, checked one by one. *)
Lemma each_below (n : nat) (P : Z -> bool) z :
  forallb P (Z.of_nat <$> seq 0 n) = true -> 0 <= z < Z.of_nat n -> P z = true.
Proof.
  intros Hc Hz. rewrite forallb_forall in Hc. apply Hc, list_elem_of_In, list_elem_of_fmap. exists (Z.to_nat z).
  split; [lia|]. apply elem_of_seq. lia.
Qed.

Definition days_before (doe : Z) : Z := doe - Z.quot doe 1460 + Z.quot doe 36524 - Z.quot doe 146096.

Lemma days_before_mono a b : 0 <= a <= b -> b <= 146096 -> days_before a <= days_before b.
Proof.
  intros Hab Hb. assert (Hstep : forall x, 0 <= x < 146096 -> days_before x <= days_before (x + 1)).
  { intros x Hx. unfold days_before. divisions. }
  replace b with (a + Z.of_nat (Z.to_nat (b - a))) in * by lia. revert Hb. generalize (Z.to_nat (b - a)). intros n Hn.
  induction n as [|n IH]; [replace (a + Z.of_nat 0) with a by lia; lia|].
  etrans; [apply IH; lia|]. replace (a + Z.of_nat (S n)) with (a + Z.of_nat n + 1) by lia. apply Hstep. lia.
Qed.

(** The year a day of an era lies in is the one the closed form gives. *)
Lemma year_of_era_spec Y doe : 0 <= Y < 400 -> year_start Y <= doe < year_end Y -> year_of_era doe = Y.
Proof.
  intros HY Hd.
  assert (Hb : (0 <=? year_start Y) && (year_end Y <=? 146097) && (365 * Y <=? days_before (year_start Y))
               && (days_before (year_end Y - 1) <? 365 * (Y + 1)) = true).
  { apply (each_below 400 (fun Y => (0 <=? year_start Y) && (year_end Y <=? 146097) && (365 * Y <=? days_before (year_start Y))
               && (days_before (year_end Y - 1) <? 365 * (Y + 1)))); [vm_compute; reflexivity | lia]. }
  apply andb_prop in Hb as [Hb H4]. apply andb_prop in Hb as [Hb H3]. apply andb_prop in Hb as [H1 H2].
  pose proof (days_before_mono (year_start Y) doe ltac:(lia) ltac:(lia)).
  pose proof (days_before_mono doe (year_end Y - 1) ltac:(lia) ltac:(lia)).
  change (Z.quot (days_before doe) 365 = Y). divisions.
Qed.

Lemma year_length Y : 0 <= Y < 400 -> year_end Y = year_start Y + 365 + Z.b2z (is_leap (Y + 1)).
Proof.
  intros HY. apply Z.eqb_eq.
  apply (each_below 400 (fun Y => year_end Y =? year_start Y + 365 + Z.b2z (is_leap (Y + 1)))); [vm_compute; reflexivity | lia].
Qed.

Lemma b2z_nonneg b : 0 <= Z.b2z b.
Proof. destruct b; simpl; lia. Qed.

Lemma is_leap_era y era : is_leap (y + era * 400) = is_leap y.
Proof.
  unfold is_leap. assert (H4 : (y + era * 400) mod 4 = y mod 4) by divisions.
  assert (H100 : (y + era * 400) mod 100 = y mod 100) by divisions.
  assert (H400 : (y + era * 400) mod 400 = y mod 400) by divisions. by rewrite H4, H100, H400.
Qed.

(** ** One day on *)

(** Away from the end of February a day on is the next in any year. *)
Definition plain_step (doy : Z) : bool :=
  let '(m, d) := month_day doy in
  let '(m', d') := month_day (doy + 1) in
  if m =? 2 then (d <? 28) && (m' =? 2) && (d' =? d + 1)
  else if d <? month_days 0 m then (m' =? m) && (d' =? d + 1)
  else if m <? 12 then (m' =? m + 1) && (d' =? 1) && negb (m' =? 3)
  else (m' =? 1) && (d' =? 1).

Lemma of_doy_step y doy : 0 <= doy < 364 -> next_day (of_doy y doy) = of_doy y (doy + 1).
Proof.
  intros Hd. pose proof (each_below 364 plain_step doy ltac:(vm_compute; reflexivity) ltac:(lia)) as Hs.
  unfold plain_step in Hs. unfold of_doy. destruct (month_day doy) as [m d], (month_day (doy + 1)) as [m' d']. unfold next_day.
  assert (Hm : m <> 2 -> forall y', month_days y' m = month_days 0 m).
  { intros Hne y'. unfold month_days. by destruct (Z.eqb_spec m 2). }
  destruct (Z.eqb_spec m 2) as [->|Hne].
  - assert (d < 28 /\ m' = 2 /\ d' = d + 1) as (? & -> & ->) by lia. simpl.
    replace (d <? month_days (y + 1) 2) with true; [done|]. unfold month_days. simpl. destruct (is_leap _); lia.
  - rewrite Hm by done. destruct (d <? month_days 0 m).
    + assert (m' = m /\ d' = d + 1) as [-> ->] by lia. done.
    + destruct (Z.ltb_spec m 12).
      * assert (m' = m + 1 /\ d' = 1 /\ m' <> 3) as (-> & -> & ?) by lia. do 2 f_equal.
        destruct (Z.leb_spec m 2), (Z.leb_spec (m + 1) 2); lia.
      * assert (m' = 1 /\ d' = 1) as (-> & ->) by lia. simpl. destruct (Z.leb_spec m 2); [lia | done].
Qed.

(** Through the end of February. *)
Lemma of_doy_february y : next_day (of_doy y 364) = if is_leap (y + 1) then of_doy y 365 else of_doy (y + 1) 0.
Proof.
  change (of_doy y 364) with (y + 1, 2, 28). change (of_doy y 365) with (y + 1, 2, 29). change (of_doy (y + 1) 0) with (y + 1, 3, 1).
  unfold next_day, month_days. simpl. by destruct (is_leap (y + 1)).
Qed.

Lemma of_doy_leap_day y : next_day (of_doy y 365) = of_doy (y + 1) 0.
Proof.
  change (of_doy y 365) with (y + 1, 2, 29). change (of_doy (y + 1) 0) with (y + 1, 3, 1).
  unfold next_day, month_days. simpl. by destruct (is_leap (y + 1)).
Qed.

(** ** Every day *)

Lemma year_of_day doe : 0 <= doe < 146097 -> exists Y, 0 <= Y < 400 /\ year_start Y <= doe < year_end Y.
Proof.
  intros Hd. replace doe with (Z.of_nat (Z.to_nat doe)) in * by lia. revert Hd. generalize (Z.to_nat doe). intros n.
  induction n as [|n IH]; intros Hn; [exists 0; vm_compute; intuition congruence|].
  destruct IH as (Y & HY & Hs & He); [lia|]. destruct (Z.ltb_spec (Z.of_nat (S n)) (year_end Y)) as [Hlt|Hge]; [exists Y; lia|].
  assert (Hne : Y <> 399). { intros ->. unfold year_end in Hge. simpl in Hge. lia. }
  assert (Heq : year_end Y = year_start (Y + 1)) by (unfold year_end; by destruct (Z.eqb_spec Y 399)).
  exists (Y + 1). split; [lia|]. pose proof (year_length (Y + 1) ltac:(lia)). destruct (is_leap _); simpl in *; lia.
Qed.

(** A day as the era, the year and the day of the year. *)
Lemma civil_of_day era Y doy :
  0 <= Y < 400 -> 0 <= doy -> year_start Y + doy < year_end Y ->
  civil_from_days (era * 146097 + year_start Y + doy - 719468) = of_doy (Y + era * 400) doy.
Proof.
  intros HY Hd He. assert (Hs : 0 <= year_start Y) by (unfold year_start; divisions).
  assert (Hb : year_end Y <= 146097).
  { pose proof (year_length Y HY). unfold year_start in *. destruct (is_leap (Y + 1)) eqn:Hl; simpl in *; [|divisions].
    assert (Y = 399 \/ Y < 399) as [->|Hlt] by lia; [vm_compute; congruence | divisions]. }
  unfold civil_from_days. replace (era * 146097 + year_start Y + doy - 719468 + 719468) with (era * 146097 + (year_start Y + doy)) by lia.
  set (doe := year_start Y + doy) in *.
  assert (Hera : Z.quot (if 0 <=? era * 146097 + doe then era * 146097 + doe else era * 146097 + doe - 146096) 146097 = era).
  { destruct (Z.leb_spec 0 (era * 146097 + doe)); divisions. }
  rewrite Hera. replace (era * 146097 + doe - era * 146097) with doe by lia.
  change (Z.quot (doe - Z.quot doe 1460 + Z.quot doe 36524 - Z.quot doe 146096) 365) with (year_of_era doe).
  rewrite (year_of_era_spec Y doe HY) by lia.
  replace (doe - (365 * Y + Z.quot Y 4 - Z.quot Y 100)) with doy by (unfold doe, year_start; rewrite !Z.quot_div_nonneg by lia; lia).
  done.
Qed.

Lemma civil_step days : civil_from_days (days + 1) = next_day (civil_from_days days).
Proof.
  set (era := (days + 719468) / 146097). set (doe := (days + 719468) mod 146097).
  assert (Hdoe : 0 <= doe < 146097) by (unfold doe; divisions).
  assert (Hz : days + 719468 = era * 146097 + doe) by (unfold era, doe; divisions).
  destruct (year_of_day doe Hdoe) as (Y & HY & Hs & He). set (doy := doe - year_start Y).
  replace days with (era * 146097 + year_start Y + doy - 719468) by (unfold doy; lia).
  rewrite (civil_of_day era Y doy) by (unfold doy; lia).
  pose proof (year_length Y HY) as Hlen. rewrite <-(is_leap_era (Y + 1) era) in Hlen.
  replace (Y + 1 + era * 400) with (Y + era * 400 + 1) in Hlen by lia.
  assert (Hnext : doy + 1 = year_end Y - year_start Y -> civil_from_days (era * 146097 + year_start Y + doy - 719468 + 1) = of_doy (Y + era * 400 + 1) 0).
  { intros Hlast. destruct (decide (Y = 399)) as [->|Hne].
    - replace (era * 146097 + year_start 399 + doy - 719468 + 1) with ((era + 1) * 146097 + year_start 0 + 0 - 719468).
      + rewrite civil_of_day by (vm_compute; intuition congruence). f_equal. lia.
      + change (year_end 399) with 146097 in Hlast. change (year_start 0) with 0. lia.
    - assert (Heq : year_end Y = year_start (Y + 1)) by (unfold year_end; by destruct (Z.eqb_spec Y 399)).
      pose proof (year_length (Y + 1) ltac:(lia)) as Hl.
      replace (era * 146097 + year_start Y + doy - 719468 + 1) with (era * 146097 + year_start (Y + 1) + 0 - 719468) by lia.
      pose proof (b2z_nonneg (is_leap (Y + 1 + 1))).
      rewrite civil_of_day by lia. f_equal. lia. }
  assert (Hstay : doy + 1 < year_end Y - year_start Y -> civil_from_days (era * 146097 + year_start Y + doy - 719468 + 1) = of_doy (Y + era * 400) (doy + 1)).
  { intros Hin. rewrite <-civil_of_day by (unfold doy in *; lia). f_equal. lia. }
  pose proof (b2z_nonneg (is_leap (Y + era * 400 + 1))).
  assert (0 <= doy) by (unfold doy; lia). assert (doy < year_end Y - year_start Y) by (unfold doy; lia).
  destruct (decide (doy < 364)) as [Hlt|Hge]; [by rewrite Hstay, of_doy_step by lia|].
  destruct (is_leap (Y + era * 400 + 1)) eqn:Hleap; simpl in Hlen.
  - assert (doy = 364 \/ doy = 365) as [Ed|Ed] by lia.
    + rewrite Hstay by lia. rewrite Ed, of_doy_february, Hleap. done.
    + rewrite Hnext by lia. by rewrite Ed, of_doy_leap_day.
  - assert (doy = 364) as Ed by lia. rewrite Hnext by lia. rewrite Ed, of_doy_february, Hleap. done.
Qed.

(** C37: The calendar arithmetic is the calendar.  For every time a [u64] of
    milliseconds since the epoch can name, [civil_from_ms] gives the date reached by
    counting that many whole days from 1 January 1970, month by month and with a
    leap day in every fourth year but three centuries of four; the month the media
    tree files a meeting under is the calendar's. *)
Theorem civil_is_the_calendar ms :
  in_u64 ms -> civil_from_ms ms = Nat.iter (Z.to_nat (ms / 86400000)) next_day (1970, 1, 1).
Proof.
  intros [Hlo _]. unfold civil_from_ms. assert (0 <= ms / 86400000) by divisions.
  replace (ms / 86400000) with (Z.of_nat (Z.to_nat (ms / 86400000))) at 1 by lia.
  generalize (Z.to_nat (ms / 86400000)). intros n. induction n as [|n IH]; [reflexivity|].
  rewrite Nat2Z.inj_succ, <-Z.add_1_r, civil_step, IH. done.
Qed.

(** 29 February 2000, the example of the source's own test. *)
Lemma civil_is_the_calendar_witness :
  civil_from_ms 951782400000 = Nat.iter (Z.to_nat (951782400000 / 86400000)) next_day (1970, 1, 1) /\
  civil_from_ms 951782400000 = (2000, 2, 29).
Proof.
  split; [|reflexivity]. apply (civil_is_the_calendar 951782400000). vm_compute. split; discriminate.
Defined.
