(* ===== verification/PromoteProofs.v ===== *)
(** * What promotion may remove and what it may publish

    Proofs about [Promote]: the session directory is moved aside only when both
    published archives verify, the raw audio is the one they were made from and the
    transcription of both legs is settled; and a published name is never worn by a
    file that is not whole and synced. *)

From S2P Require Import Prelude Bytes Text Float32 Float64 Json SttTypes CoverageTypes.
From S2P Require Import FileSystem WalTypes OpusArchive SessionDir Wal Dsp OpusWriter Encode Replay ReplayFile.
From S2P Require Import WalProofs Observe ReplayProofs EncodeProofs DiscardProofs Promote.

Local Open Scope Z_scope.

Create HintDb keeps.

(** ** Steps that keep what is known of the disk *)

(** Whatever happens, an honest disk stays one, and keeps [D]. *)
Definition keeps {E A} (D : Disk -> Prop) (m : IO E A) : Prop := within (fun w w' => seen D w -> seen D w') m.

#[export] Instance keeps_preorder D : PreOrder (fun w w' => seen D w -> seen D w').
Proof. split; [by intros w | by intros a b c; auto]. Qed.

Lemma keeps_sees {E A} D (m : IO E A) R : sees m R -> keeps D m.
Proof. intros Hm w [Hw HD]. destruct (Hm w Hw) as (Hd & _ & Hh & _). split; [done|]. by rewrite Hd. Qed.

Lemma keeps_op {A : Type} D ps partly (whole : Disk -> result (A * Disk) IoErr) :
  touches ps (op partly whole) -> apart ps D -> keeps D (op partly whole).
Proof. intros Ht HD w [Hw Hd]. split; [by apply op_honest|]. eapply HD; [apply Ht | done]. Qed.

Lemma keeps_held D {E A} (m : IO E A) :
  (forall w, disk (m w).2 = disk w /\ fates (m w).2 = fates w) -> keeps D m.
Proof. intros Hm w [Hw Hd]. destruct (Hm w) as [Ed Ef]. unfold seen, honest in *. by rewrite Ed, Ef. Qed.

Lemma keeps_triple {E A} D (m : IO E A) : keeps D m -> triple (seen D) m (fun _ => seen D) (fun w => D (disk w)).
Proof. intros Hm w Hw. specialize (Hm w Hw). destruct (m w) as [[a|e|] w']; simpl in *; [done|..]; apply Hm. Qed.

Section Keeps.
Context (D : Disk -> Prop).

Lemma keeps_ret {E A} (a : A) : keeps D (mret a : IO E A).
Proof. by intros w. Qed.
Lemma keeps_raise {E A} (e : E) : keeps D (raise e : IO E A).
Proof. by intros w. Qed.
Lemma keeps_bind {E A B} (m : IO E A) (k : A -> IO E B) : keeps D m -> (forall a, keeps D (k a)) -> keeps D (m ≫= k).
Proof. apply (within_bind _). Qed.
Lemma keeps_attempt {E F A} (m : IO E A) : keeps D m -> keeps D (attempt m : IO F _).
Proof. apply (within_attempt _). Qed.
Lemma keeps_map_err {E F A} (f : E -> F) (m : IO E A) : keeps D m -> keeps D (map_err f m).
Proof. apply (within_map_err _). Qed.
Lemma keeps_on_error {E F A} (m : IO E A) (drop : IO F unit) : keeps D m -> keeps D drop -> keeps D (on_error m drop).
Proof. apply (within_on_error _). Qed.
Lemma keeps_guard {E} b (e : E) : keeps D (guard_io b e).
Proof. apply (within_guard _). Qed.

End Keeps.

#[export] Hint Resolve keeps_ret keeps_raise keeps_attempt keeps_map_err keeps_on_error keeps_guard : keeps.

Lemma try_lock_keeps D p : keeps D (try_lock p).
Proof. apply keeps_held. intros w. unfold try_lock. by destruct (decide _). Qed.

Lemma unlock_keeps D p : keeps D (unlock p).
Proof. by apply keeps_held. Qed.

Lemma lock_at_keeps D p : apart [p] D -> keeps D (lock_at p).
Proof.
  intros HD. unfold lock_at. apply keeps_bind; [apply (keeps_op D [p]); [apply open_or_create_touches | done] | intros _].
  apply keeps_bind; [apply try_lock_keeps | intros _; apply keeps_ret].
Qed.

Lemma release_keeps D owners : keeps D (release owners).
Proof. induction owners as [|o owners IH]; [apply keeps_ret|]. apply keeps_bind; [apply unlock_keeps | by intros _]. Qed.

Section Guard.
Context `{JsonDoc ReplayHeader, JsonDoc Completion, JsonDoc ProjectionProof}.

Lemma guard_source_keeps D dir ident s : apart (lease_paths dir s) D -> keeps D (guard_source dir ident s).
Proof.
  intros HD. unfold guard_source, source_lock, lock_coverage.
  assert (H1' : apart [dir /> lock_name s] D) by (eapply apart_mono; [|exact HD]; unfold lease_paths; set_solver).
  assert (H2' : apart [dir /> coverage_lock_name s] D) by (eapply apart_mono; [|exact HD]; unfold lease_paths; set_solver).
  apply keeps_bind; [eapply keeps_sees, observes_sees, observes_try_exists|]. intros present. destruct (negb present).
  - apply keeps_bind; [eapply keeps_sees, observes_sees, observes_try_exists|]. intros c.
    apply keeps_bind; [destruct (negb c); [eapply keeps_sees, observes_sees, observes_try_exists | apply keeps_ret]|]. intros b.
    apply keeps_bind; [apply keeps_guard | intros _; apply keeps_ret].
  - apply keeps_bind; [apply keeps_attempt, lock_at_keeps; done|]. intros [owner|e]; [|by destruct (decide _); [apply keeps_ret | apply keeps_raise]].
    apply keeps_on_error; [|apply unlock_keeps].
    apply keeps_bind; [apply keeps_attempt, lock_at_keeps; done|]. intros [journal|e].
    + apply keeps_on_error; [|apply unlock_keeps].
      apply keeps_bind; [eapply keeps_sees, sees_open_reader|]. intros r.
      apply keeps_bind; [eapply keeps_sees, sees_is_complete|]. intros c.
      apply keeps_bind; [destruct (negb c); [apply keeps_ret | eapply keeps_sees, sees_is_projected]|]. intros p.
      destruct (negb p); [|apply keeps_ret]. apply keeps_bind; [apply unlock_keeps | intros _].
      apply keeps_bind; [apply unlock_keeps | intros _; apply keeps_ret].
    + destruct (decide _); [|apply keeps_raise]. apply keeps_bind; [apply unlock_keeps | intros _; apply keeps_ret].
Qed.

Lemma retirement_guard_keeps D dir ident : apart (all_leases dir) D -> keeps D (retirement_guard dir ident).
Proof.
  intros HD. unfold retirement_guard.
  assert (Hs : forall s, apart (lease_paths dir s) D) by (intros s; eapply apart_mono; [|exact HD]; unfold all_leases; destruct s; set_solver).
  assert (Hall : forall sources owners, keeps D (guard_sources dir ident sources owners)).
  { induction sources as [|s sources IH]; intros owners; simpl; [apply keeps_ret|].
    apply keeps_bind; [apply keeps_on_error; [by apply guard_source_keeps | apply release_keeps]|].
    intros [more|]; [apply IH|]. apply keeps_bind; [apply release_keeps | intros _; apply keeps_ret]. }
  apply Hall.
Qed.

End Guard.

Lemma apart_nothing (D : Disk -> Prop) : apart [] D.
Proof. intros d d' Hs Hd. assert (d' = d) as -> by (apply map_eq; intros q; apply Hs; set_solver). done. Qed.

Lemma symlink_metadata_keeps D p : keeps D (symlink_metadata p).
Proof. apply (keeps_op D []); [apply symlink_metadata_touches | apply apart_nothing]. Qed.
Lemma read_dir_keeps D p : keeps D (read_dir p).
Proof. apply (keeps_op D []); [apply read_dir_touches | apply apart_nothing]. Qed.

#[export] Hint Resolve symlink_metadata_keeps read_dir_keeps : keeps.

Lemma measure_entries_keeps D dir names total stack : keeps D (measure_entries dir names total stack).
Proof.
  revert total stack. induction names as [|n names IH]; intros total stack; simpl; [auto with keeps|].
  apply keeps_bind; [auto with keeps | intros ft]. destruct (is_dir ft); [apply IH|]. destruct (is_file ft); [|apply IH].
  apply keeps_bind; [auto with keeps | intros md; apply IH].
Qed.

Lemma dir_bytes_keeps D {E} p : keeps D (dir_bytes_or_zero (E := E) p).
Proof.
  unfold dir_bytes_or_zero. apply keeps_bind; [|auto with keeps]. apply keeps_attempt.
  assert (Hloop : forall fuel stack total, keeps D (dir_bytes_loop fuel stack total)).
  { induction fuel as [|fuel IH]; intros [|q stack] total; simpl; auto with keeps.
    apply keeps_bind; [auto with keeps|]. intros [names|e]; [|destruct (decide _); auto with keeps].
    apply keeps_bind; [apply measure_entries_keeps | intros [total' stack']; apply IH]. }
  intros w. apply Hloop.
Qed.

(** ** Moving a tree aside *)

Lemma move_tree_elsewhere dir dst d p : ~ under dir p -> ~ under dst p -> move_tree dir dst d !! p = d !! p.
Proof.
  intros Hdir Hdst. unfold move_tree.
  assert (Hin : forall n, (p, n) ∈ ((fun '(q, x) => (if decide (under dir q) then dst ++ drop (length dir) q else q, x)) <$> map_to_list d)
                          <-> d !! p = Some n).
  { intros n. rewrite list_elem_of_fmap. split.
    - intros ([q x] & Heq & Hq). apply elem_of_map_to_list in Hq. simpl in Heq. destruct (decide (under dir q)).
      + exfalso. injection Heq as -> _. apply Hdst. unfold under. by eexists.
      + by injection Heq as -> ->.
    - intros Hn. exists (p, n). rewrite decide_False by done. split; [done|]. by apply elem_of_map_to_list. }
  destruct (d !! p) as [n|] eqn:Hp.
  - apply elem_of_list_to_map_1'; [|by apply Hin]. intros y Hy. apply Hin in Hy. congruence.
  - apply not_elem_of_list_to_map_1. intros Hk. apply list_elem_of_fmap in Hk as ([q n] & -> & Hk). apply Hin in Hk. by simplify_eq/=.
Qed.

Lemma under_child dir p name : under dir p -> under dir (p /> name).
Proof. intros [r ->]. exists (r ++ [name]). by rewrite app_assoc. Qed.

Lemma parent_under (dir : path) : under (parent dir) dir.
Proof. unfold parent, under. exists (drop (pred (length dir)) dir). symmetry. apply take_drop. Qed.

Lemma sibling_under dir suffix : under (parent dir) (sibling dir suffix).
Proof.
  unfold sibling. destruct (last dir) as [n|] eqn:Hl; [by eexists|]. apply last_None in Hl as ->. by eexists.
Qed.

Lemma under_trans (a b c : path) : under a b -> under b c -> under a c.
Proof. unfold under. by etrans. Qed.

(** ** What was published verifies *)

Definition as_published (name : string) (t : EncodedTrack) : EncodedTrack :=
  mkTrack name (pcm_bytes t) (opus_bytes t) (track_duration_ms t) (track_rate_hz t).

Lemma sees_descend error p cs : sees (descend error p cs) (fun q _ => q = p ++ cs).
Proof.
  revert p. induction cs as [|c cs IH]; intros p; simpl.
  - eapply sees_conseq; [apply sees_ret|]. intros q d ->. by rewrite app_nil_r.
  - eapply sees_conseq.
    + apply (sees_bind _ _ _ (fun _ q _ => q = p /> c ++ cs) (observes_sees _ _ _ (observes_attempt _ _ _ (observes_symlink_metadata _)))).
      intros r. eapply sees_conseq; [apply (sees_bind _ _ _ (fun _ q _ => q = p /> c ++ cs) (sees_guard _ _))|]; [|by intros q d (? & _ & ?)].
      intros []. apply IH.
    + intros q d (r & _ & ->). by rewrite <-app_assoc.
Qed.

Section Verify.
Context `{OpusDecoder}.

Lemma verify_one_triple (D : Disk -> Prop) root parent dir error pr chan name t f :
  name = SYSTEM_OPUS \/ name = MIC_OPUS ->
  (forall q d, D d -> D (alter sync_node q d)) ->
  triple (seen D) (verify_one root parent dir error pr chan name t f)
    (fun _ => seen (fun d => D d /\ archived d parent name (as_published name t) (Some f))) (fun w => D (disk w)).
Proof.
  intros Hname HD. unfold verify_one. eapply seen_bind; [apply sees_ok_or | done | intros x].
  eapply seen_bind; [apply sees_guard | tauto | intros []].
  eapply seen_bind; [eapply observes_sees, observes_attempt, observes_metadata | tauto | intros r].
  eapply seen_bind; [apply sees_guard | tauto | intros []].
  eapply seen_bind; [by apply sees_map_err, sees_archive_path | tauto | intros q].
  eapply (triple_pre (seen D)); [|by intros w [Hw Hd]; split; [done|]; tauto].
  by apply triple_map_err, verify_triple.
Qed.

(** Both archives are in the media tree, whole and as long as the raw audio. *)
Definition published (d : Disk) (root : path) (pr : Promotion) (enc : EncodedSession) (f : SessionFormats) : Prop :=
  archived d (root ++ components (p_rel_dir pr)) SYSTEM_OPUS (as_published SYSTEM_OPUS (e_system enc)) (Some (f_system f)) /\
  archived d (root ++ components (p_rel_dir pr)) MIC_OPUS (as_published MIC_OPUS (e_mic enc)) (Some (f_mic f)).

Context `{JsonDoc Manifest}.

(** The formats a directory's legs are read with. *)
Definition formats_of (d : Disk) (dir : path) (m : Manifest) (f : SessionFormats) : Prop :=
  exists w1 w2, disk w1 = d /\ track_formats m dir w1 = (Returned f, w2).

Lemma verify_published_triple d0 root pr dir m :
  triple (seen (fun d => d = d0)) (verify_published root pr dir m)
    (fun _ => seen (fun d => (forall p, synced d0 d p) /\
       exists enc f, encoded m = Some enc /\ formats_of d0 dir m f /\ published d root pr enc f))
    (fun w => forall p, synced d0 (disk w) p).
Proof.
  unfold verify_published, infallible. set (D := fun d => forall p, synced d0 d p).
  assert (HD : forall q d, D d -> D (alter sync_node q d)) by (intros q d Hd p; by apply synced_alter).
  assert (H0' : D d0) by (intros p; by left).
  eapply (seen_bind _ _ _ _ _ D); [apply sees_ok_or | by intros d -> | intros enc].
  eapply (seen_bind _ _ _ _ _ D); [apply sees_guard | by intros d [-> _] | intros []].
  eapply (seen_bind _ _ _ _ _ D); [apply sees_descend | by intros d [[-> _] _] | intros parent].
  eapply (seen_bind _ _ _ _ _ D); [apply sees_map_err, (sees_runs _ _ (sees_track_formats m dir)) | by intros d [[[-> _] _] _] | intros f].
  apply triple_at. intros w0 [Hw0 ((((Hd0 & He) & _) & ->) & _ & Hf)]. rewrite Hd0 in Hf.
  eapply (triple_pre (seen D)); [|by intros w <-; split; [done|]; rewrite Hd0].
  eapply triple_then; [apply (verify_one_triple D); [by left | exact HD] | done | intros []].
  eapply triple_conseq; [apply (verify_one_triple (fun d => D d /\ archived d (root ++ components (p_rel_dir pr)) SYSTEM_OPUS
    (as_published SYSTEM_OPUS (e_system enc)) (Some (f_system f)))); [by right|] | done | | by intros w [Hd _]].
  - intros q d [Hd Ha]. split; [by apply HD | by apply archived_synced].
  - intros [] w [Hw [[Hd Hs] Hm]]. split; [done|]. split; [done|]. exists enc, f. by split_and!.
Qed.

End Verify.

(** ** Retiring *)

Lemma triple_finally_look {E F A} (P : World -> Prop) (m : IO E A) (drop : IO F unit) (Q : A -> Disk -> Prop) (X : Disk -> Prop) :
  triple P m (fun a w => Q a (disk w)) (fun w => X (disk w)) -> (forall w, disk (drop w).2 = disk w) ->
  (forall a d, Q a d -> X d) -> triple P (finally m drop) (fun a w => Q a (disk w)) (fun w => X (disk w)).
Proof.
  intros Hm Hd HX w Hw. specialize (Hm w Hw). unfold finally. destruct (m w) as [[a|e|] w1]; [| |done];
    specialize (Hd w1); destruct (drop w1) as [[?|?|] w2]; simpl in *; rewrite Hd; auto; by eapply HX.
Qed.

Lemma release_disk owners w : disk (release owners w).2 = disk w.
Proof. revert w. induction owners as [|o owners IH]; intros w; [done|]. simpl. rewrite bind_eq. simpl. by rewrite IH. Qed.

Lemma string_length_app a b : String.length (a +:+ b) = (String.length a + String.length b)%nat.
Proof. induction a as [|x a IH]; [done|]. change (S (String.length (a +:+ b)) = S (String.length a + String.length b)). by rewrite IH. Qed.

Lemma as_published_at p name t q : archive_at p name (file (as_published name t)) q -> q = p /> name.
Proof.
  intros [[_ ->]|(g & Heq & _)]; [done|]. exfalso. simpl in Heq.
  apply (f_equal String.length) in Heq. rewrite !string_length_app in Heq. simpl in Heq. lia.
Qed.

Lemma archived_published_mono `{OpusDecoder} d d' p name t f :
  d' !! (p /> name) = d !! (p /> name) -> archived d p name (as_published name t) f -> archived d' p name (as_published name t) f.
Proof.
  intros Hd. apply archived_mono. intros q c Hq Hc. apply as_published_at in Hq as ->. etrans; [exact Hd | exact Hc].
Qed.

Section Retire.
Context `{JsonDoc Manifest, OpusDecoder}.
Context `{JsonDoc ReplayHeader, JsonDoc Completion, JsonDoc ProjectionProof}.

(** Nothing is gone: apart from the lease files, every byte is as it was. *)
Definition kept (d0 : Disk) (dir : path) (d : Disk) : Prop := forall p, p ∉ all_leases dir -> synced d0 d p.

(** What allows a session directory to go. *)
Definition superseded (d0 : Disk) (dir root : path) (d : Disk) : Prop :=
  exists m pr enc f d1, manifest_read d0 dir m /\ promoted m = Some pr /\ encoded m = Some enc /\ formats_of d0 dir m f /\
    published d root pr enc f /\ retained d0 dir SYSTEM_PCM (e_system enc) /\ retained d0 dir MIC_PCM (e_mic enc) /\
    kept d0 dir d1 /\ forall s, no_source d1 dir s \/ settled d1 dir (id m) s.

Definition retiring (d0 : Disk) (dir root : path) (d : Disk) : Prop :=
  (forall p, ~ under (parent dir) p -> synced d0 d p) /\ (kept d0 dir d \/ superseded d0 dir root d).

Lemma lease_under dir p : p ∈ all_leases dir -> under (parent dir) p.
Proof.
  intros Hp. unfold all_leases, lease_paths in Hp. simpl in Hp. rewrite !elem_of_cons in Hp.
  destruct Hp as [->|[->|[->|[->|Hp]]]]; [apply under_child, parent_under.. | by apply elem_of_nil in Hp].
Qed.

Lemma kept_retiring d0 dir root d : kept d0 dir d -> retiring d0 dir root d.
Proof. intros Hk. split; [|by left]. intros p Hp. apply Hk. intros Hin. by apply Hp, lease_under. Qed.

(** What is published lies outside the sessions. *)
Definition media_apart (d0 : Disk) (dir root : path) : Prop :=
  forall m pr name, manifest_read d0 dir m -> promoted m = Some pr -> ~ under (parent dir) ((root ++ components (p_rel_dir pr)) /> name).

Lemma published_elsewhere d0 dir root m pr enc f d d' :
  media_apart d0 dir root -> manifest_read d0 dir m -> promoted m = Some pr ->
  (forall p, ~ under (parent dir) p -> d' !! p = d !! p) -> published d root pr enc f -> published d' root pr enc f.
Proof.
  intros Hap Hm Hp Hd [Hs Hc]. split; [eapply archived_published_mono; [|exact Hs] | eapply archived_published_mono; [|exact Hc]]; by apply Hd, (Hap m).
Qed.

(** Everything that may change once the directory is superseded. *)
Lemma superseded_elsewhere d0 dir root d d' :
  media_apart d0 dir root -> (forall p, ~ under (parent dir) p -> d' !! p = d !! p) -> superseded d0 dir root d -> superseded d0 dir root d'.
Proof.
  intros Hap Hd (m & pr & enc & f & d1 & Hm & Hp & He & Hf & Hpub & Hrest). exists m, pr, enc, f, d1.
  split_and!; try done; [by eapply published_elsewhere | apply Hrest..].
Qed.

Lemma rename_dir_aside dir d w :
  disk w = d ->
  match rename_dir dir (sibling dir RETIRED_SUFFIX) w with
  | (Returned _, w') => forall p, ~ under (parent dir) p -> disk w' !! p = d !! p
  | (_, w') => disk w' = d
  end.
Proof.
  intros <-. set (dst := sibling dir RETIRED_SUFFIX).
  assert (Hmove : forall d1 p, ~ under (parent dir) p -> move_tree dir dst d1 !! p = d1 !! p).
  { intros d1 p Hp. apply move_tree_elsewhere; intros Hu; apply Hp; (eapply under_trans; [|exact Hu]); [apply parent_under | apply sibling_under]. }
  assert (Hdel : forall (d1 : Disk) p, ~ under (parent dir) p -> delete dst d1 !! p = d1 !! p).
  { intros d1 p Hp. apply lookup_delete_ne. intros <-. apply Hp, sibling_under. }
  unfold rename_dir, op. destruct (fates w) as [|[|why n gone] fs]; [| |by destruct why]; cbn [disk set_fates];
    (destruct (decide _); [|done]; destruct (under_dec _ _); [done|]; destruct (disk w !! dst) as [[]|]; try done;
     [destruct (decide _); [|done]; cbn [disk set_disk]; intros p Hp; by rewrite Hmove, Hdel
     |destruct (parent_ok _ _); [|done]; cbn [disk set_disk]; intros p Hp; by apply Hmove]).
Qed.

Lemma set_aside_triple d0 dir root :
  media_apart d0 dir root ->
  triple (seen (fun d => d = d0)) (set_aside dir root)
    (fun r w => r.1 = sibling dir RETIRED_SUFFIX /\ (forall p, ~ under (parent dir) p -> synced d0 (disk w) p) /\ superseded d0 dir root (disk w))
    (fun w => retiring d0 dir root (disk w)).
Proof.
  intros Hap. unfold set_aside.
  apply (owning_seen _ _ _ _ (retiring d0 dir root) (fun r d => r.1 = sibling dir RETIRED_SUFFIX /\ (forall p, ~ under (parent dir) p -> synced d0 d p) /\ superseded d0 dir root d)).
  { intros d ->. apply kept_retiring. intros p _. by left. }
  assert (H0' : retiring d0 dir root d0) by (apply kept_retiring; intros p _; by left).
  eapply (seen_bind _ _ _ _ _ (retiring d0 dir root)); [apply sees_map_err, sees_read_manifest | by intros d -> | intros m].
  eapply (seen_bind _ _ _ _ _ (retiring d0 dir root)); [apply sees_ok_or | by intros d [-> _] | intros pr].
  apply triple_at. intros w0 [Hw0 [[Hd0 Hm] Hpr]]. rewrite Hd0 in Hm.
  eapply (triple_pre (seen (fun d => d = d0))); [|by intros w <-].
  assert (Hall : forall d, (forall p, synced d0 d p) -> retiring d0 dir root d) by (intros d Hd; apply kept_retiring; by intros p _).
  eapply triple_then; [apply verify_published_triple | by intros w; apply Hall | intros []].
  eapply (seen_bind _ _ _ _ _ (retiring d0 dir root)); [apply sees_ok_or | by intros d [Hd _]; apply Hall | intros enc].
  eapply (seen_bind _ _ _ _ _ (retiring d0 dir root)); [apply sees_map_err, sees_retained_pcm | by intros d [[Hd _] _]; apply Hall | intros []].
  apply triple_at. intros w1 [Hw1 [[[Hd1 (enc' & f & He' & Hf & Hpub)] He] [Hrs Hrm]]]. rewrite He in He'. injection He' as <-.
  apply retained_before with (d0 := d0) in Hrs; [|apply Hd1]. apply retained_before with (d0 := d0) in Hrm; [|apply Hd1].
  set (K := fun d => kept d0 dir d /\ published d root pr enc f).
  assert (HK : apart (all_leases dir) K).
  { apply apart_and.
    - intros d d' Hd Hk p Hp. unfold synced. rewrite (Hd p Hp). by apply Hk.
    - intros d d' Hd. apply (published_elsewhere d0 dir root m); try done. intros p Hp. apply Hd. intros Hin. by apply Hp, lease_under. }
  assert (HKr : forall d, K d -> retiring d0 dir root d) by (intros d [Hk _]; by apply kept_retiring).
  eapply (triple_pre (seen K)); [|by intros w <-; split; [done|]; split; [intros p _; apply Hd1|]].
  assert (Hguard : triple (seen K) (map_err (fun e => PendingTranscription dir (error_text e)) (retirement_guard dir (id m)))
            (fun g w => K (disk w) /\ forall owners, g = Some owners -> honest w /\ forall s, no_source (disk w) dir s \/ settled (disk w) dir (id m) s)
            (fun w => K (disk w))).
  { apply triple_map_err. intros w Hw. pose proof (retirement_guard_keeps K dir (id m) HK w Hw) as [_ Hk].
    destruct (retirement_guard dir (id m) w) as [[g|e|] w'] eqn:Hr; [|done|done]. split; [done|]. intros owners ->.
    apply (retirement_guard_run dir (id m)) in Hr as [Hh Hs]; [|by destruct Hw]. split; [done|]. intros s. destruct (Hs s) as [?|[? _]]; auto. }
  eapply triple_then; [apply Hguard | by intros w; apply HKr | intros g]. clear Hguard.
  apply triple_ok_or; [by intros w [Hk _]; apply HKr|]. intros owners ->.
  eapply (triple_pre (seen (fun d => K d /\ forall s, no_source d dir s \/ settled d dir (id m) s))).
  2: { intros w [Hk Ho]. destruct (Ho owners eq_refl) as [Hh Hs]. by split. }
  apply (triple_finally_look _ _ _ (fun r d => r.1 = sibling dir RETIRED_SUFFIX /\ (forall p, ~ under (parent dir) p -> synced d0 d p) /\ superseded d0 dir root d) (retiring d0 dir root)).
  - eapply triple_then; [apply keeps_triple, dir_bytes_keeps | by intros w [Hk _]; apply HKr | intros freed].
    intros w [Hw [[Hk Hp] Hs]]. rewrite bind_eq. unfold map_err. pose proof (rename_dir_aside dir (disk w) w eq_refl) as Hr.
    destruct (rename_dir dir _ w) as [[[]|e|] w']; [|rewrite Hr; by apply HKr..]. simpl. split; [done|]. split.
    + intros p Hp'. unfold synced. rewrite (Hr p Hp'). apply Hk. intros Hin. by apply Hp', lease_under.
    + apply (superseded_elsewhere d0 dir root (disk w)); [done|done|]. exists m, pr, enc, f, (disk w). by split_and!.
  - intros w. apply release_disk.
  - intros r d (_ & Ho & Hs). split; [done | by right].
Qed.

(** Unlinking what was set aside. *)
Lemma remove_dir_all_triple (F : Disk -> Prop) q :
  (forall d d', (forall p, ~ under q p -> d' !! p = d !! p) -> F d -> F d') ->
  triple (fun w => F (disk w)) (remove_dir_all q) (fun _ w => F (disk w) /\ forall p, under q p -> disk w !! p = None) (fun w => F (disk w)).
Proof.
  intros HF. apply (triple_op _ _ F F (fun _ d => F d /\ forall p, under q p -> d !! p = None)).
  - intros d [] d' Hd Hw. destruct (decide _); [|done]. injection Hw as <-. split.
    + eapply HF; [|exact Hd]. intros p Hp. rewrite map_lookup_filter. destruct (d !! p); simpl; [by rewrite option_guard_True|done].
    + intros p Hp. rewrite map_lookup_filter. destruct (d !! p); simpl; [|done]. by rewrite option_guard_False; [|intros Hn; apply Hn].
  - intros d e Hd. by destruct (decide _).
  - intros d n gone Hd. eapply HF; [|exact Hd]. intros p Hp. rewrite map_lookup_filter. destruct (d !! p); simpl; [|done].
    by rewrite option_guard_True; [|intros [? _]].
Qed.

Lemma retire_triple d0 dir root :
  media_apart d0 dir root ->
  triple (seen (fun d => d = d0)) (retire dir root)
    (fun _ w => retiring d0 dir root (disk w) /\ superseded d0 dir root (disk w))
    (fun w => retiring d0 dir root (disk w)).
Proof.
  intros Hap. unfold retire. eapply triple_bind; [by apply set_aside_triple|]. intros [retired freed].
  set (F := fun d => (forall p, ~ under (parent dir) p -> synced d0 d p) /\ superseded d0 dir root d).
  apply triple_at. intros w0 [Hret HF0]. simpl in Hret. subst retired.
  eapply (triple_pre (fun w => F (disk w))); [|by intros w <-].
  assert (Hb : forall d, F d -> retiring d0 dir root d) by (intros d [Ho Hs]; split; [done | by right]).
  eapply triple_then; [apply triple_map_err, (remove_dir_all_triple F) | by intros w; apply Hb | intros [] w [HF _]].
  - intros d d' Hd [Ho Hs].
    assert (Hout : forall p, ~ under (parent dir) p -> d' !! p = d !! p).
    { intros p Hp. apply Hd. intros Hu. apply Hp. eapply under_trans; [apply sibling_under | exact Hu]. }
    split; [|by eapply superseded_elsewhere]. intros p Hp. unfold synced. rewrite (Hout p Hp). by apply Ho.
  - split; [by apply Hb | apply HF].
Qed.


End Retire.

(** ** Publishing *)

Definition final_paths (dest : path) : list path := [dest /> SYSTEM_OPUS; dest /> MIC_OPUS].
Definition part_paths (dest : path) : list path := [dest /> (SYSTEM_OPUS +:+ PART_SUFFIX); dest /> (MIC_OPUS +:+ PART_SUFFIX)].

(** One of the files an encode made, as it was. *)
Definition from_source (d0 : Disk) (srcs : list path) (c : bytes) : Prop := exists src k, src ∈ srcs /\ d0 !! src = Some (NFile c k).

(** Every name but the staging ones: as it was, a directory that was missing, or a
    published track, whole and synced, with the bytes of one of the sources. *)
Definition whole_names (d0 : Disk) (dest : path) (srcs : list path) (d : Disk) : Prop :=
  forall p, p ∉ part_paths dest ->
    synced d0 d p \/ (d0 !! p = None /\ d !! p = Some NDir) \/
    (p ∈ final_paths dest /\ exists c, from_source d0 srcs c /\ d !! p = Some (whole_file c)).

Lemma whole_names_apart d0 dest srcs q : q ∈ part_paths dest -> apart [q] (whole_names d0 dest srcs).
Proof.
  intros Hq d d' Hs Hw p Hp. assert (Hne : p ∉ [q]) by (intros ->%list_elem_of_singleton; done).
  unfold synced. rewrite !(Hs p Hne). by apply Hw.
Qed.

Lemma make_missing_whole d0 dest srcs d ps : whole_names d0 dest srcs d -> (forall q, q ∈ ps -> d0 !! q = None \/ d !! q <> None) ->
  whole_names d0 dest srcs (make_missing d ps).
Proof.
  unfold make_missing. revert d. induction ps as [|q ps IH]; intros d Hw Hps; simpl; [done|].
  destruct (d !! q) eqn:Hq; [apply IH; [done|]; intros r Hr; apply Hps; set_solver|].
  apply IH.
  - intros p Hp. destruct (decide (p = q)) as [->|Hne].
    + right. left. rewrite lookup_insert_eq. split; [|done]. destruct (Hps q ltac:(set_solver)) as [?|Hn]; [done|]. congruence.
    + unfold synced. rewrite lookup_insert_ne by done. by apply Hw.
  - intros r Hr. destruct (decide (r = q)) as [->|Hne]; [right; by rewrite lookup_insert_eq|].
    rewrite lookup_insert_ne by done. apply Hps. set_solver.
Qed.

Lemma synced_present (d0 d : Disk) p : synced d0 d p -> d0 !! p = None \/ d !! p <> None.
Proof.
  intros [Hs|Hs]; destruct (d0 !! p) eqn:Hp; auto; right; intros Hn.
  - assert (Some n = None); [|done]. etrans; [symmetry; exact Hs | exact Hn].
  - assert (sync_node <$> Some n = None); [|done]. etrans; [symmetry; exact Hs | exact Hn].
Qed.

Lemma create_dir_all_whole d0 dest srcs :
  triple (fun w => forall p, synced d0 (disk w) p) (create_dir_all dest)
    (fun _ w => whole_names d0 dest srcs (disk w)) (fun w => whole_names d0 dest srcs (disk w)).
Proof.
  assert (Hall : forall d, (forall p, synced d0 d p) -> whole_names d0 dest srcs d) by (intros d Hd p _; left; apply Hd).
  apply (triple_op _ _ (fun d => forall p, synced d0 d p) (whole_names d0 dest srcs) (fun _ => whole_names d0 dest srcs)).
  - intros d [] d' Hd Hr. destruct (decide _); [|done]. injection Hr as <-. apply make_missing_whole; [by apply Hall|].
    intros q _. by apply synced_present.
  - intros d e Hd _. by apply Hall.
  - intros d n gone Hd. destruct (decide _); [|by apply Hall]. apply make_missing_whole; [by apply Hall|]. intros q _. by apply synced_present.
Qed.

(** What is read from a source while publishing is what a source had. *)
Lemma source_bytes d0 dest srcs d src c k :
  src ∈ srcs -> src ∉ part_paths dest -> whole_names d0 dest srcs d -> d !! src = Some (NFile c k) -> from_source d0 srcs c.
Proof.
  intros Hin Hp Hw Hc. destruct (Hw src Hp) as [[Hs|Hs]|[[_ Hs]|(_ & c' & Hf & Hs)]].
  - exists src, k. split; [done|]. etrans; [symmetry; exact Hs | exact Hc].
  - assert (E : sync_node <$> d0 !! src = Some (NFile c k)) by (etrans; [symmetry; exact Hs | exact Hc]).
    apply fmap_Some in E as ([c' k'| |] & Hd & Hn); simplify_eq/=. by exists src, k'.
  - exfalso. assert (Some NDir = Some (NFile c k)); [|done]. etrans; [symmetry; exact Hs | exact Hc].
  - assert (E : Some (whole_file c') = Some (NFile c k)) by (etrans; [symmetry; exact Hs | exact Hc]). by injection E as <- _.
Qed.

Lemma publish_one_triple (F : Disk -> Prop) d0 dir dest rel chan t srcs :
  let part := dest /> ((chan +:+ ".opus") +:+ PART_SUFFIX) in
  let final := dest /> (chan +:+ ".opus") in
  part ∈ part_paths dest -> final ∈ final_paths dest -> join_path dir (file t) ∈ srcs -> join_path dir (file t) ∉ part_paths dest ->
  apart [part; final] F ->
  triple (fun w => whole_names d0 dest srcs (disk w) /\ F (disk w)) (publish_one dir dest rel chan t)
    (fun pt w => (whole_names d0 dest srcs (disk w) /\ F (disk w)) /\ channel pt = chan /\
       exists c, disk w !! final = Some (whole_file c) /\ zlen c = p_bytes pt)
    (fun w => whole_names d0 dest srcs (disk w)).
Proof.
  intros part final Hpart Hfinal Hsrc Hout HF. unfold publish_one, copy_durably. fold part final. set (src := join_path dir (file t)) in *.
  set (G := fun d => whole_names d0 dest srcs d /\ F d).
  assert (Hne : part <> final).
  { unfold part, final. intros Heq. apply child_inj in Heq. apply (f_equal String.length) in Heq. rewrite !string_length_app in Heq. simpl in Heq. lia. }
  assert (HG : apart [part] G) by (apply apart_and; [by apply whole_names_apart | eapply apart_mono; [|exact HF]; set_solver]).
  assert (HGw : forall w : World, G (disk w) -> whole_names d0 dest srcs (disk w)) by (by intros w [? _]).
  change (triple (fun w => G (disk w)) ((_ ← map_err (IoFailed "opening the encoded track" src) (open_existing src);
    _ ← map_err (IoFailed "creating the media file" part) (open_truncate part);
    c ← map_err (IoFailed "writing the media file" part) (read_file src);
    _ ← map_err (IoFailed "writing the media file" part) (write_file part c);
    _ ← map_err (IoFailed "syncing the media file" part) (sync_file part);
    mret (zlen c)) ≫= (fun n => _ ← map_err (IoFailed "publishing the track to" final) (rename_file part final);
      mret (mkPromoted chan (rel +:+ ("/" +:+ (chan +:+ ".opus"))) n (track_duration_ms t) (track_rate_hz t))))
    (fun pt w => G (disk w) /\ channel pt = chan /\ exists c, disk w !! final = Some (whole_file c) /\ zlen c = p_bytes pt)
    (fun w => whole_names d0 dest srcs (disk w))).
  eapply (triple_bind _ _ _ (fun n w => exists c, n = zlen c /\ from_source d0 srcs c /\ disk w !! part = Some (whole_file c) /\ G (disk w))).
  - eapply triple_then; [apply triple_map_err, (triple_look G), open_existing_touches | exact HGw | intros []].
    eapply triple_then; [apply triple_map_err, (open_truncate_triple G _ HG) | exact HGw | intros []].
    apply (triple_then _ _ _ (fun c w => from_source d0 srcs c /\ disk w !! part = Some (NFile [] 0) /\ G (disk w)) _ (fun w => G (disk w)));
      [|exact HGw|intros c].
    { apply triple_map_err. intros w [Hp Hg]. pose proof (read_file_touches src w) as Ht.
      assert (Hd : disk (read_file src w).2 = disk w) by (apply map_eq; intros q; apply Ht; set_solver).
      destruct (read_file src w) as [[c|e|] w'] eqn:Hr; simpl in Hd; rewrite Hd; [|done|done].
      apply read_file_run in Hr as [_ (k & Hk)]. split; [|done]. eapply source_bytes; [exact Hsrc | exact Hout | apply Hg | exact Hk]. }
    apply triple_at. intros w0 (Hfrom & Hrest). eapply (triple_pre (fun w => disk w !! part = Some (NFile [] 0) /\ G (disk w))); [|by intros w <-].
    eapply triple_then; [apply triple_map_err, (write_file_triple G part c [] 0 HG) | by intros w (n & _ & [? _]) | intros []].
    eapply triple_then; [apply triple_map_err, (sync_file_triple G part c 0 HG) | by intros w [_ [? _]] | intros []].
    intros w [Hp Hg]. exists c. by split_and!.
  - intros n w (c & -> & Hfrom & Hp & Hg). rewrite bind_eq. unfold map_err. pose proof (rename_file_touches part final w) as Ht.
    pose proof (rename_file_triple (fun d => d = d) part final (whole_file c) (disk w !! final) Hne ltac:(done) w (conj Hp (conj eq_refl eq_refl))) as Hr.
    assert (Hsame : disk w !! part = Some (whole_file c) -> forall w', disk w' !! final = disk w !! final -> same_except [part; final] (disk w) (disk w') -> whole_names d0 dest srcs (disk w')).
    { intros _ w' Hf Hs. assert (Hlook : forall p : path, p <> part -> disk w' !! p = disk w !! p).
      { intros p Hpn. destruct (decide (p = final)) as [->|Hpf]; [exact Hf|]. apply Hs. set_solver. }
      intros p Hpp. unfold synced. rewrite !(Hlook p) by (intros ->; done). by apply Hg. }
    destruct (rename_file part final w) as [[[]|e|] w'] eqn:Er; change (same_except [part; final] (disk w) (disk w')) in Ht.
    + destruct Hr as (_ & Hf & _). split; [split|split; [done|]; by exists c].
      * intros p Hpp. destruct (decide (p = final)) as [->|Hpn]; [right; right; split; [done|]; by exists c|].
        assert (Hlook : disk w' !! p = disk w !! p) by (apply Ht; rewrite !not_elem_of_cons; split_and!; [intros ->; done | done | apply not_elem_of_nil]).
        unfold synced. rewrite !Hlook. by apply Hg.
      * eapply HF; [exact Ht | apply Hg].
    + destruct Hr as (_ & Hf & _). by apply Hsame.
    + destruct Hr as (_ & Hf & _). by apply Hsame.
Qed.

Section Publish.
Context `{JsonDoc Manifest, OpusDecoder}.

Definition sources_of (dir : path) (enc : EncodedSession) : list path := [join_path dir (file (e_system enc)); join_path dir (file (e_mic enc))].

(** What publishing leaves, however it ends. *)
Definition publishing (d0 : Disk) (dir root : path) (d : Disk) : Prop :=
  (forall p, synced d0 d p) \/
  exists m c enc, manifest_read d0 dir m /\ claim m = Some c /\ ended_at_ms m <> None /\ encoded m = Some enc /\
    whole_names d0 (join_path root (c_rel_dir c)) (sources_of dir enc) d.

(** A track of the promotion is under its final name, as long as it says. *)
Definition track_published (dest : path) (d : Disk) (t : PromotedTrack) : Prop :=
  exists c, d !! (dest /> (channel t +:+ ".opus")) = Some (whole_file c) /\ zlen c = p_bytes t.

Lemma archived_source d dir name t f dest :
  name = SYSTEM_OPUS \/ name = MIC_OPUS -> archived d dir name t f -> join_path dir (file t) ∉ part_paths dest.
Proof.
  intros Hname (p & _ & _ & _ & Hat & <- & _).
  assert (Hend : exists q, p = q /> name) by (destruct Hat as [[_ ->]|(g & _ & ->)]; eauto). destruct Hend as [q ->].
  unfold part_paths. rewrite !not_elem_of_cons. split_and!; [| |apply not_elem_of_nil];
    intros Heq; apply app_inj_2 in Heq as [_ Heq]; try done; destruct Hname as [->| ->]; discriminate Heq.
Qed.

Lemma publish_session_triple d0 dir root :
  triple (seen (fun d => d = d0)) (publish_session dir root)
    (fun pr w => publishing d0 dir root (disk w) /\ exists m c, manifest_read d0 dir m /\ claim m = Some c /\
       p_rel_dir pr = c_rel_dir c /\ channel <$> tracks pr = ["system"; "mic"] /\
       Forall (track_published (join_path root (c_rel_dir c)) (disk w)) (tracks pr))
    (fun w => publishing d0 dir root (disk w)).
Proof.
  unfold publish_session, infallible.
  apply (owning_seen _ _ _ _ (publishing d0 dir root) (fun pr d => publishing d0 dir root d /\ exists m c, manifest_read d0 dir m /\ claim m = Some c /\
       p_rel_dir pr = c_rel_dir c /\ channel <$> tracks pr = ["system"; "mic"] /\
       Forall (track_published (join_path root (c_rel_dir c)) d) (tracks pr))).
  { intros d ->. left. intros p. by left. }
  assert (H0' : publishing d0 dir root d0) by (left; intros p; by left).
  eapply (seen_bind _ _ _ _ _ (publishing d0 dir root)); [apply sees_map_err, sees_read_manifest | by intros d -> | intros m].
  eapply (seen_bind _ _ _ _ _ (publishing d0 dir root)); [apply sees_of_result | by intros d [-> _] | intros c].
  eapply (seen_bind _ _ _ _ _ (publishing d0 dir root)); [apply sees_ok_or | by intros d [[-> _] _] | intros enc].
  eapply (seen_bind _ _ _ _ _ (publishing d0 dir root)); [apply sees_map_err, sees_track_formats | by intros d [[[-> _] _] _] | intros formats].
  apply triple_at. intros w0 [Hw0 ((((Hd0 & Hm) & Hc) & He) & _)]. rewrite Hd0 in Hm.
  assert (Hready : claim m = Some c /\ ended_at_ms m <> None).
  { unfold ready_claim in Hc. destruct (ended_at_ms m); [|done]. destruct (claim m); [|done]. by injection Hc as ->. }
  destruct Hready as [Hclaim Hended]. set (dest := join_path root (c_rel_dir c)). set (srcs := sources_of dir enc).
  set (D := fun d => forall p, synced d0 d p).
  assert (HD : forall q d, D d -> D (alter sync_node q d)) by (intros q d Hd p; by apply synced_alter).
  eapply (triple_pre (seen D)); [|intros w <-; split; [done|]; rewrite Hd0; intros p; by left].
  eapply triple_then; [apply triple_map_err, (verify_triple D _ _ _ _ (or_introl eq_refl) HD) | by left | intros []].
  set (D1 := fun d => D d /\ archived d dir SYSTEM_OPUS (e_system enc) (Some (f_system formats))).
  assert (HD1 : forall q d, D1 d -> D1 (alter sync_node q d)) by (intros q d [Hd Ha]; split; [by apply HD | by apply archived_synced]).
  eapply triple_then; [apply triple_map_err, (verify_triple D1 _ _ _ _ (or_intror eq_refl) HD1) | by intros w [Hd _]; left | intros []].
  apply triple_at. intros w1 [Hw1 [[Hd1 Has] Ham]].
  apply (archived_source _ _ _ _ _ dest (or_introl eq_refl)) in Has. apply (archived_source _ _ _ _ _ dest (or_intror eq_refl)) in Ham.
  eapply (triple_pre (fun w => D (disk w))); [|by intros w <-].
  assert (Hpub : forall d, whole_names d0 dest srcs d -> publishing d0 dir root d) by (intros d Hd; right; by exists m, c, enc).
  eapply triple_then; [apply triple_map_err, (create_dir_all_whole d0 dest srcs) | intros w; apply Hpub | intros []].
  eapply (triple_pre (fun w => whole_names d0 dest srcs (disk w) /\ True)); [|by intros w ?].
  eapply triple_then; [apply (publish_one_triple (fun _ => True)); try done; unfold part_paths, final_paths, srcs, sources_of; set_solver | intros w; apply Hpub | intros s].
  apply triple_at. intros w2 ((Hwn & _) & Hcs & c1 & Hf1 & Hz1).
  eapply (triple_pre (fun w => whole_names d0 dest srcs (disk w) /\ disk w !! (dest /> SYSTEM_OPUS) = Some (whole_file c1))); [|by intros w <-].
  eapply triple_then; [apply (publish_one_triple (fun d => d !! (dest /> SYSTEM_OPUS) = Some (whole_file c1))); try done | intros w; apply Hpub | intros t].
  1-3: unfold part_paths, final_paths, srcs, sources_of; set_solver.
  { apply (apart_lookup _ _ (fun n => n = Some (whole_file c1))). not_in_paths. }
  apply triple_at. intros w3 ((Hwn3 & Hf3) & Hct & c2 & Hf2 & Hz2).
  apply (triple_pre (fun w => disk w = disk w3)); [|by intros w <-].
  eapply (triple_then _ _ _ (fun _ w => disk w = disk w3) _ (fun w => disk w = disk w3)).
  { unfold sync_dir. apply (triple_look (fun d => d = disk w3)). touch. }
  { intros w ->. by apply Hpub. }
  intros [] w Hw. split; [rewrite Hw; by apply Hpub|]. exists m, c. rewrite Hw. split_and!; try done.
  - simpl. by rewrite Hcs, Hct.
  - constructor; [|constructor; [|constructor]].
    + exists c1. rewrite Hcs. done.
    + exists c2. rewrite Hct. done.
Qed.

(** C18: A finished name is whole.  However [publish] ends (refused, failed half way
    through a copy, or killed), the disk is byte for byte as it was, or the session
    was finalized, claimed and encoded, and every name but the two staging ones is
    as it was, is a directory that was missing, or is a published track with all the
    bytes of an archive of the session, synced.  When it returns, it returns the
    claimed directory and one track per channel, each under its final name and as
    long as the promotion says. *)
Theorem finished_names_are_whole dir root w :
  honest w ->
  let '(o, w') := publish_session dir root w in
  publishing (disk w) dir root (disk w') /\
  (forall pr, o = Returned pr -> exists m c, manifest_read (disk w) dir m /\ claim m = Some c /\
     p_rel_dir pr = c_rel_dir c /\ channel <$> tracks pr = ["system"; "mic"] /\
     Forall (track_published (join_path root (c_rel_dir c)) (disk w')) (tracks pr)).
Proof.
  intros Hw. pose proof (publish_session_triple (disk w) dir root w (conj Hw eq_refl)) as Ht.
  destruct (publish_session dir root w) as [[pr|e|] w'].
  - destruct Ht as [Hp Hr]. split; [done|]. by intros pr' [= <-].
  - by split.
  - by split.
Qed.

End Publish.

Module RetiredSession.

#[local] Existing Instances LogCodec.manifest_doc twenty_ms.
#[local] Existing Instances ReplayCodec.header_doc ReplayCodec.completion_doc ReplayCodec.projection_doc.

Definition root : path := ["data"].
Definition dir : path := ["data"; "sessions"; "s1"].
Definition media : path := ["data"; "media"; "2026"; "01"; "m1"].
Definition promotion : Promotion := mkPromotion "m1" "media/2026/01/m1"
  [mkPromoted "system" "media/2026/01/m1/system.opus" 157 30 16000; mkPromoted "mic" "media/2026/01/m1/mic.opus" 157 30 16000].
Definition manifest : Manifest :=
  mkManifest "s1" 16000 1 1000 0 "1.0" 2 (Some RetiredRecording.format) (Some RetiredRecording.format) (Some 2000) []
    (Some RetiredRecording.both) (Some (mkClaim "m1" "media/2026/01/m1")) (Some promotion).

Definition published_session : World := mkWorld
  (list_to_map [ (["data"] : path, NDir); (["data"; "sessions"], NDir); (dir, NDir); (["data"; "media"], NDir);
                 (["data"; "media"; "2026"], NDir); (["data"; "media"; "2026"; "01"], NDir); (media, NDir);
                 (dir /> MANIFEST, whole_file (doc_put manifest));
                 (dir /> SYSTEM_PCM, whole_file (replicate 960 1)); (dir /> MIC_PCM, whole_file (replicate 960 2));
                 (dir /> SYSTEM_OPUS, whole_file sample_archive); (dir /> MIC_OPUS, whole_file sample_archive);
                 (media /> SYSTEM_OPUS, whole_file sample_archive); (media /> MIC_OPUS, NFile sample_archive 0) ])
  ∅ [] [] [] 0.

Lemma session_media_apart : media_apart (disk published_session) dir root.
Proof.
  intros m pr name (text & k & Hp & Hg) Hpr.
  assert (Hm : m = manifest).
  { assert (Hf : disk published_session !! (dir /> MANIFEST) = Some (whole_file (doc_put manifest))) by (vm_compute; reflexivity).
    assert (text = doc_put manifest) as ->; [|by rewrite (doc_roundtrip (JsonDocLaws := LogCodec.manifest_laws) manifest) in Hg; injection Hg].
    assert (Some (NFile text k) = Some (whole_file (doc_put manifest))) as He by (etrans; [symmetry; exact Hp | exact Hf]).
    by injection He as -> _. }
  subst m. injection Hpr as <-. change (components (p_rel_dir promotion)) with ["media"; "2026"; "01"; "m1"].
  intros [r Hr]. discriminate Hr.
Qed.

Definition gone (w : World) : bool := match disk w !! dir with None => true | Some _ => false end.


(** The same session before it was published. *)
Definition encoded_session : World := mkWorld
  (list_to_map [ (["data"] : path, NDir); (["data"; "sessions"], NDir); (dir, NDir);
                 (dir /> MANIFEST, whole_file (doc_put (with_promoted manifest None)));
                 (dir /> SYSTEM_PCM, whole_file (replicate 960 1)); (dir /> MIC_PCM, whole_file (replicate 960 2));
                 (dir /> SYSTEM_OPUS, whole_file sample_archive); (dir /> MIC_OPUS, NFile sample_archive 0) ])
  ∅ [] [] [] 0.

Lemma finished_names_are_whole_witness :
  (publish_session dir root encoded_session).1 = Returned promotion /\
  let '(o, w') := publish_session dir root encoded_session in
  publishing (disk encoded_session) dir root (disk w') /\
  (forall pr, o = Returned pr -> exists m c, manifest_read (disk encoded_session) dir m /\ claim m = Some c /\
     p_rel_dir pr = c_rel_dir c /\ channel <$> tracks pr = ["system"; "mic"] /\
     Forall (track_published (join_path root (c_rel_dir c)) (disk w')) (tracks pr)).
Proof.
  split; [vm_compute; reflexivity|].
  pose proof (finished_names_are_whole dir root encoded_session (honest_calm encoded_session eq_refl)) as Hleft. exact Hleft.
Defined.

(** An error of [retire] does not mean the session directory is still there: when
    unlinking what was moved aside is refused, the error is returned and the
    directory is gone from its name. *)
Definition refuse_at (n : nat) : World :=
  set_fates published_session (replicate n Proceeds ++ [Stops (Refused (mkIo OtherKind "busy")) 0 []]).

Lemma failed_unlink_leaves_no_session :
  match retire dir root (refuse_at 34) with
  | (Raised (IoFailed what _ _), w') => String.eqb what "removing the retired session" && gone w'
  | _ => false
  end = true.
Proof. vm_compute. reflexivity. Qed.

End RetiredSession.
