(* ===== verification/PromoteChain.v ===== *)
(** * Promotion, end to end

    Composes the theorems about encoding, publishing and retiring into one about
    [promote] of [Promote]: whatever happens on the way, the recording is in its
    session directory as it was, or verified media and a settled transcription have
    taken its place. *)

From S2P Require Import Prelude Bytes Text Float32 Float64 Json SttTypes CoverageTypes.
From S2P Require Import FileSystem WalTypes OpusArchive SessionDir Wal Dsp OpusWriter Encode Replay ReplayFile.
From S2P Require Import WalProofs Observe ReplayProofs EncodeProofs DiscardProofs Promote PromoteProofs.

Local Open Scope Z_scope.

Lemma synced_trans (a b c : Disk) p : synced a b p -> synced b c p -> synced a c p.
Proof.
  intros Hab [Hbc|Hbc]; unfold synced in *; [by rewrite Hbc|]. right. rewrite Hbc.
  destruct Hab as [Hab|Hab]; rewrite Hab; [done|]. destruct (a !! p); [|done]. simpl. by rewrite sync_node_twice.
Qed.

Lemma synced_some (a b : Disk) p n : a !! p = Some n -> synced a b p -> exists n', b !! p = Some n'.
Proof. intros Hn [Hs|Hs]; rewrite Hs, Hn; simpl; eauto. Qed.

Lemma tree_synced d0 d : tree d0 -> (forall p, synced d0 d p) -> tree d.
Proof.
  intros Ht Hs p name n Hp Hn. pose proof (Hs (p /> name)) as Hc. pose proof (Hs p) as Hq.
  destruct (d0 !! (p /> name)) as [n0|] eqn:Hn0.
  - apply Ht in Hn0; [|done]. assert (E : forall o : option Node, o = d0 !! (p : path) \/ o = sync_node <$> (d0 !! (p : path)) -> o = Some NDir).
    { intros o [->|Ho]; [exact Hn0|]. rewrite Ho. etrans; [apply (f_equal (fmap sync_node)), Hn0 | done]. }
    apply E. exact Hq.
  - exfalso. destruct Hc as [Hc|Hc]; (assert (Hnone : d !! (p /> name : path) = None); [|by assert (Some n = None) by (etrans; [symmetry; exact Hn | exact Hnone])]);
      etrans; [exact Hc | exact Hn0 | exact Hc |]. etrans; [apply (f_equal (fmap sync_node)), Hn0 | done].
Qed.

Section Chain.
Context `{Rubato, LibOpus, OggMuxer, JsonDoc Manifest, !JsonDocLaws Manifest, OpusDecoder}.
Context `{JsonDoc ReplayHeader, JsonDoc Completion, JsonDoc ProjectionProof}.
Context (d0 : Disk) (dir root : path).

(** The files of a session directory that promotion rewrites or creates. *)
Definition working_paths (dir : path) : list path := manifest_paths dir ++ opus_paths dir ++ all_leases dir.

(** The rest of the session directory is as it was. *)
Definition recording_in (d : Disk) : Prop :=
  forall p n, d0 !! p = Some n -> under dir p -> p ∉ working_paths dir -> synced d0 d p.

(** The media directories the session's manifest names. *)
Definition media_named (rel : string) : Prop :=
  exists m, manifest_read d0 dir m /\
    ((exists c, claim m = Some c /\ rel = c_rel_dir c) \/ (exists pr, promoted m = Some pr /\ rel = p_rel_dir pr)).

(** Media is kept outside the sessions. *)
Definition media_separate : Prop :=
  forall rel name, media_named rel ->
    ~ under (parent dir) ((root ++ components rel) /> name) /\ ~ under (parent dir) (join_path root rel /> name).

(** A manifest names no other media directory than the first one did. *)
Definition names_media (m : Manifest) : Prop :=
  (forall c, claim m = Some c -> media_named (c_rel_dir c)) /\ (forall pr, promoted m = Some pr -> media_named (p_rel_dir pr)).

Definition manifest_tame (d : Disk) : Prop := forall m, manifest_read d dir m -> names_media m.

Definition promotable (d : Disk) : Prop := manifest_tame d /\ recording_in d.

Lemma promotable_start : promotable d0.
Proof.
  split; [|by intros p n _ _ _; left]. intros m Hm. split.
  - intros c Hc. exists m. split; [done|]. left. by exists c.
  - intros pr Hpr. exists m. split; [done|]. right. by exists pr.
Qed.

Lemma tame_same d d' : d' !! (dir /> MANIFEST) = d !! (dir /> MANIFEST) -> manifest_tame d -> manifest_tame d'.
Proof. intros Heq Ht m (text & k & Hp & Hg). apply Ht. exists text, k. split; [|done]. etrans; [symmetry; exact Heq | exact Hp]. Qed.

Lemma tame_synced d d' : synced d d' (dir /> MANIFEST) -> manifest_tame d -> manifest_tame d'.
Proof.
  intros [Hs|Hs] Ht; [by eapply tame_same|]. intros m (text & k & Hp & Hg). apply Ht.
  assert (E : sync_node <$> d !! (dir /> MANIFEST) = Some (NFile text k)) by (etrans; [symmetry; exact Hs | exact Hp]).
  apply fmap_Some in E as ([c k'| |] & Hd & Hn); simplify_eq/=. by exists c, k'.
Qed.

Lemma tame_on d m : manifest_on dir m d -> names_media m -> manifest_tame d.
Proof.
  intros Hon Hm m' (text & k & Hp & Hg). assert (E : Some (NFile text k) = Some (whole_file (doc_put m))) by (etrans; [symmetry; exact Hp | exact Hon]).
  injection E as -> _. rewrite doc_roundtrip in Hg. by injection Hg as <-.
Qed.

Lemma recording_synced d d' : (forall p, under dir p -> p ∉ working_paths dir -> forall n, d !! p = Some n -> synced d d' p) ->
  recording_in d -> recording_in d'.
Proof.
  intros Hs Hr p n Hn Hu Hp. pose proof (Hr p n Hn Hu Hp) as Hd. destruct (synced_some _ _ _ _ Hn Hd) as [n' Hn'].
  eapply synced_trans; [exact Hd | by eapply Hs].
Qed.

(** ** Encoding *)

Lemma encode_promotable d d' : promotable d -> encode_leaves d dir d' -> promotable d'.
Proof.
  intros [Ht Hr] [Hk Hm]. split.
  - destruct Hm as [Hm|(m & enc & Hread & Hon & _)]; [by eapply tame_same|]. eapply tame_on; [exact Hon|].
    destruct (Ht m Hread). by split.
  - eapply recording_synced; [|exact Hr]. intros p Hu Hp n Hn. left. etrans; [|symmetry; exact Hn].
    unfold working_paths in Hp. rewrite !not_elem_of_app in Hp. destruct Hp as (Hp1 & Hp2 & _). apply Hk; [done..|by right].
Qed.

Lemma encode_step_triple fuel version pid serials :
  triple (seen (fun d => promotable d /\ tree d)) (encode_step fuel version pid serials dir)
    (fun _ => seen promotable) (fun w => recording_in (disk w)).
Proof.
  unfold encode_step. eapply seen_bind; [apply sees_map_err, sees_read_manifest | by intros d [[_ ?] _] | intros m].
  destruct (is_some (encoded m)); [by intros w [Hw [[? _] _]]|].
  intros w [Hw [[Hp Htree] _]]. rewrite bind_eq. unfold map_err.
  pose proof (encode_session_triple fuel version pid serials (disk w) dir Htree w eq_refl) as Ht.
  pose proof (encode_session_honest fuel version pid serials dir w Hw) as Hh.
  destruct (encode_session fuel version pid serials dir w) as [[enc|e|] w']; simpl in *.
  - split; [done|]. by apply (encode_promotable (disk w)), Ht.
  - by apply (encode_promotable (disk w)) in Ht as [_ ?].
  - by apply (encode_promotable (disk w)) in Ht as [_ ?].
Qed.

(** ** Publishing *)

Lemma publish_promotable d d' : media_separate -> promotable d -> publishing d dir root d' -> promotable d'.
Proof.
  intros Hsep [Ht Hr] [Hall|(m & c & enc & Hm & Hc & _ & _ & Hw)].
  { split; [eapply tame_synced; [apply Hall | done]|]. eapply recording_synced; [|exact Hr]. intros p _ _ n _. apply Hall. }
  destruct (Ht m Hm) as [Hrel _]. specialize (Hrel c Hc). set (dest := join_path root (c_rel_dir c)) in *.
  assert (Hin : forall p n, under dir p -> d !! p = Some n -> synced d d' p).
  { intros p n Hu Hn. assert (Hpu : under (parent dir) p) by (eapply under_trans; [apply parent_under | exact Hu]).
    assert (Hout : forall name, p <> dest /> name).
    { intros name ->. by apply (proj2 (Hsep _ name Hrel)). }
    destruct (Hw p) as [?|[[Hnone _]|[Hfin _]]]; [|done|congruence|].
    - unfold part_paths. rewrite !not_elem_of_cons. split_and!; [apply Hout | apply Hout | apply not_elem_of_nil].
    - exfalso. unfold final_paths in Hfin. rewrite !elem_of_cons in Hfin. destruct Hfin as [Hf|[Hf|Hf]]; [by eapply Hout.. | by apply elem_of_nil in Hf]. }
  split.
  - destruct Hm as (text & k & Hp & _). eapply tame_synced; [|exact Ht]. eapply Hin; [apply under_child; by exists [] ; rewrite app_nil_r | exact Hp].
  - eapply recording_synced; [|exact Hr]. intros p Hu _ n Hn. by eapply Hin.
Qed.

Lemma publish_honest : stays_honest (publish_session dir root).
Proof.
  unfold publish_session, owning, infallible, manifest_of. apply honest_bind; [apply honest_map_err, archive_owner_honest | intros o].
  apply honest_finally; [|unfold archive_owner_drop, owner_drop; stay_honest].
  apply honest_bind; [apply honest_map_err, read_manifest_honest | intros m].
  unfold track_formats, leg_bytes, verify_encoded_track, archive_path, publish_one, copy_durably, sync_dir. stay_honest.
Qed.

Lemma publish_triple_chain :
  media_separate ->
  triple (seen promotable) (publish_session dir root) (fun pr => seen (fun d => promotable d /\ media_named (p_rel_dir pr))) (fun w => recording_in (disk w)).
Proof.
  intros Hsep w [Hw Hp]. pose proof (publish_session_triple (disk w) dir root w (conj Hw eq_refl)) as Ht. pose proof (publish_honest w Hw) as Hh.
  destruct (publish_session dir root w) as [[pr|e|] w']; simpl in *.
  - destruct Ht as [Hpub (m & c & Hm & Hc & Hrel & _)]. split; [done|]. split; [by apply (publish_promotable (disk w))|].
    rewrite Hrel. destruct Hp as [Ht _]. by apply (Ht m Hm).
  - by apply (publish_promotable (disk w)) in Ht as [_ ?].
  - by apply (publish_promotable (disk w)) in Ht as [_ ?].
Qed.

(** ** Stamping *)

Lemma stamp_triple pr :
  triple (seen (fun d => promotable d /\ media_named (p_rel_dir pr))) (stamp dir pr) (fun _ => seen promotable) (fun w => recording_in (disk w)).
Proof.
  unfold stamp. eapply seen_bind; [apply sees_map_err, sees_read_manifest | by intros d [[_ ?] _] | intros m].
  intros w [Hw [[[Ht Hr] Hrel] Hm]]. unfold map_err.
  assert (HF : apart (manifest_paths dir) recording_in).
  { intros d d' Hs. apply recording_synced. intros p _ Hp n _. left. apply Hs. unfold working_paths in Hp. rewrite !not_elem_of_app in Hp. tauto. }
  pose proof (write_manifest_at_triple recording_in dir (with_promoted m (Some pr)) _ HF w (conj eq_refl Hr)) as Hwr.
  pose proof (write_manifest_at_honest dir (with_promoted m (Some pr)) w Hw) as Hh.
  destruct (write_manifest_at dir (with_promoted m (Some pr)) w) as [[[]|e|] w']; simpl in *; [|apply Hwr..].
  destruct Hwr as [Hon Hrec]. split; [done|]. split; [|done]. eapply tame_on; [exact Hon|]. destruct (Ht m Hm) as [Hcl _].
  split; [done|]. simpl. by intros pr' [= <-].
Qed.

(** ** Retiring *)

(** The recording is where it was, or has been superseded. *)
Definition never_lost (d : Disk) : Prop := recording_in d \/ exists d1, recording_in d1 /\ superseded d1 dir root d.

Lemma retire_chain :
  media_separate ->
  triple (seen promotable) (retire_finished_replay dir root) (fun _ w => never_lost (disk w)) (fun w => never_lost (disk w)).
Proof.
  intros Hsep w [Hw [Ht Hr]].
  assert (Hap : media_apart (disk w) dir root).
  { intros m pr name Hm Hpr. apply (Hsep (p_rel_dir pr) name). by apply (Ht m Hm). }
  assert (Hend : forall d, retiring (disk w) dir root d -> never_lost d).
  { intros d [_ [Hk|Hs]]; [left|right; by exists (disk w)]. eapply recording_synced; [|exact Hr]. intros p _ Hp n _. apply Hk.
    unfold working_paths in Hp. rewrite !not_elem_of_app in Hp. tauto. }
  pose proof (retire_triple (disk w) dir root Hap w (conj Hw eq_refl)) as Hret.
  unfold retire_finished_replay. rewrite bind_eq. unfold attempt.
  destruct (retire dir root w) as [[n|e|] w']; simpl in *; [by apply Hend, Hret | by destruct e; apply Hend | by apply Hend].
Qed.

(** ** The whole sequence *)

Lemma promote_triple fuel version pid serials :
  media_separate -> tree d0 ->
  triple (seen (fun d => d = d0)) (promote fuel version pid serials dir root) (fun _ w => never_lost (disk w)) (fun w => never_lost (disk w)).
Proof.
  intros Hsep Htree. unfold promote.
  assert (H0' : never_lost d0) by (left; apply promotable_start).
  eapply (seen_bind _ _ _ _ _ never_lost); [apply sees_map_err, sees_read_manifest | by intros d -> | intros m].
  eapply (seen_bind _ _ _ _ _ never_lost); [apply sees_of_result | by intros d [-> _] | intros c].
  eapply (triple_pre (seen (fun d => d = d0))); [|by intros w (Hw & (Hd & _) & _)].
  assert (Hstart : forall d, (forall p, synced d0 d p) -> promotable d /\ tree d).
  { intros d Hd. destruct promotable_start as [Ht Hr]. split; [split|]; [eapply tame_synced; [apply Hd | done] | | by eapply tree_synced].
    eapply recording_synced; [|exact Hr]. intros p _ _ n _. apply Hd. }
  eapply (triple_bind _ _ _ (fun _ => seen (fun d => promotable d /\ tree d))).
  { destruct (promoted m) as [pr|]; [|intros w [Hw Hd]; split; [done|]; apply Hstart; intros p; left; simpl; by rewrite Hd].
    intros w Hw. pose proof (verify_published_triple d0 root pr dir m w Hw) as Hv.
    assert (Hh : honest (verify_published root pr dir m w).2).
    { assert (Hs : stays_honest (verify_published root pr dir m)); [|by apply Hs; destruct Hw].
      unfold verify_published, infallible, track_formats, leg_bytes, verify_one, verify_encoded_track, archive_path.
      apply honest_bind; [stay_honest | intros enc]. apply honest_bind; [stay_honest | intros _]. apply honest_bind; [|intros par; stay_honest].
      generalize (components (p_rel_dir pr)). intros cs. generalize root. induction cs as [|x cs IH]; intros q; simpl; [apply honest_ret|].
      apply honest_bind; [stay_honest | intros r]. apply honest_bind; [stay_honest | intros _; apply IH]. }
    rewrite bind_eq. unfold attempt. destruct (verify_published root pr dir m w) as [[[]|e|] w']; simpl in *.
    - split; [done|]. apply Hstart. by destruct Hv as [_ [? _]].
    - split; [done|]. by apply Hstart.
    - left. by apply Hstart. }
  intros [pr|].
  - eapply (triple_pre (seen promotable)); [|by intros w [Hw [? _]]].
    eapply triple_bind; [by apply retire_chain | by intros [] w Hw].
  - eapply triple_then; [apply encode_step_triple | by left | intros []].
    eapply triple_then; [by apply publish_triple_chain | by left | intros pr].
    eapply triple_then; [apply stamp_triple | by left | intros []].
    eapply triple_bind; [by apply retire_chain | by intros [] w Hw].
Qed.

End Chain.

Section Promoted.
Context `{Rubato, LibOpus, OggMuxer, JsonDoc Manifest, !JsonDocLaws Manifest, OpusDecoder}.
Context `{JsonDoc ReplayHeader, JsonDoc Completion, JsonDoc ProjectionProof}.


End Promoted.

Module PromotedSession.

#[local] Existing Instances LogCodec.manifest_doc LogCodec.manifest_laws twenty_ms.
#[local] Existing Instances ReplayCodec.header_doc ReplayCodec.completion_doc ReplayCodec.projection_doc.
#[local] Existing Instances Echo.echo_opus Echo.through Halving.halving.
Import RetiredSession.

Lemma session_media_separate : media_separate (disk encoded_session) dir root.
Proof.
  intros rel name (m & (text & k & Hp & Hg) & Hrel).
  assert (Hm : m = with_promoted manifest None).
  { assert (Hf : disk encoded_session !! (dir /> MANIFEST) = Some (whole_file (doc_put (with_promoted manifest None)))) by (vm_compute; reflexivity).
    assert (Some (NFile text k) = Some (whole_file (doc_put (with_promoted manifest None)))) as He by (etrans; [symmetry; exact Hp | exact Hf]).
    assert (text = doc_put (with_promoted manifest None)) as Htext by (by injection He as -> _).
    rewrite Htext in Hg. rewrite (doc_roundtrip (JsonDocLaws := LogCodec.manifest_laws) (with_promoted manifest None)) in Hg. by injection Hg. }
  subst m. destruct Hrel as [(c & Hc & ->)|(pr & Hpr & _)]; [|discriminate Hpr]. injection Hc as <-. simpl c_rel_dir.
  change (components "media/2026/01/m1") with ["media"; "2026"; "01"; "m1"].
  change (join_path root "media/2026/01/m1") with (root ++ ["media"; "2026"; "01"; "m1"]).
  split; intros [r Hr]; discriminate Hr.
Qed.


End PromotedSession.
