(* ===== verification/Budget.v ===== *)
(** * fotw-summarize: token budgets

    Models [crates/fotw-summarize/src/tokens.rs] and the provider descriptor of
    [crates/fotw-summarize/src/capabilities.rs].  The estimates and the fractions
    are the double-precision arithmetic of the source; a token count is a [usize]. *)

From S2P Require Import Prelude Float32 Float64 Text.

Local Open Scope Z_scope.

(** ** tokens.rs *)

Definition TOKENS_PER_WORD : f64 := f64_mul (f64_dec 133 100) (f64_dec 130 100).
Definition PER_BLOCK_OVERHEAD_TOKENS : Z := 8.

Definition word_count (text : string) : nat := length (split_whitespace text).

(** The cost of a run of words. *)
Definition word_tokens (words : nat) : Z :=
  if (words =? 0)%nat then 0
  else f64_as_u64 (f64_max (f64_ceil (f64_mul (f64_of_Z (Z.of_nat words)) TOKENS_PER_WORD)) f64_one).

Definition estimate_tokens (text : string) : Z := word_tokens (word_count text).

Definition estimate_block_tokens (text : string) : Z :=
  wadd (estimate_tokens text) PER_BLOCK_OVERHEAD_TOKENS.

(** [iter.sum::<usize>()]. *)
Definition wsum (l : list Z) : Z := fold_left wadd l 0.

(** ** capabilities.rs *)

Inductive PromptCache := NoCache | CacheFiveMinutes | CacheOneHour.
Inductive CacheTtl := NoTtl | FiveMinutes | OneHour.
Inductive Effort := Low | Medium | High.

Definition ttl_wire_value (self : CacheTtl) : option string :=
  match self with NoTtl => None | FiveMinutes => Some "5m" | OneHour => Some "1h" end.

Definition effort_wire_value (self : Effort) : string :=
  match self with Low => "low" | Medium => "medium" | High => "high" end.

Record Capabilities := mkCaps {
  native_citations : bool;
  strict_json_schema : bool;
  prompt_cache : PromptCache;
  usable_context_tokens : Z;
  max_output_tokens : Z;
  supports_effort : bool;
  supports_thinking : bool;
}.

Definition SINGLE_SHOT_FRACTION : f64 := f64_dec 6 10.
Definition CHUNK_FRACTION : f64 := f64_dec 35 100.

Definition fraction_of (value : Z) (fraction : f64) : Z :=
  f64_as_u64 (f64_mul (f64_of_Z value) fraction).

Definition single_shot_budget_tokens (self : Capabilities) : Z :=
  fraction_of (usable_context_tokens self) SINGLE_SHOT_FRACTION.
Definition chunk_budget_tokens (self : Capabilities) : Z :=
  fraction_of (usable_context_tokens self) CHUNK_FRACTION.
Definition fits_single_shot (self : Capabilities) (tokens : Z) : bool :=
  tokens <? single_shot_budget_tokens self.

Definition clamp_ttl (self : Capabilities) (requested : CacheTtl) : CacheTtl :=
  match prompt_cache self, requested with
  | NoCache, _ | _, NoTtl => NoTtl
  | CacheFiveMinutes, _ => FiveMinutes
  | CacheOneHour, ttl => ttl
  end.

Definition anthropic_frontier : Capabilities := mkCaps true true CacheOneHour 1000000 128000 true true.
Definition local_default : Capabilities := mkCaps false false NoCache 32768 4096 false false.

Inductive Preset := Quality | Balanced | Cheap | Local_.

Definition MODEL_OPUS_5 : string := "claude-opus-5".
Definition MODEL_SONNET_5 : string := "claude-sonnet-5".
Definition MODEL_HAIKU_4_5 : string := "claude-haiku-4-5".

Definition prose_model (self : Preset) : option string :=
  match self with Quality | Balanced => Some MODEL_OPUS_5 | Cheap => Some MODEL_SONNET_5 | Local_ => None end.
Definition extraction_model (self : Preset) : option string :=
  match self with Quality | Balanced => Some MODEL_OPUS_5 | Cheap => Some MODEL_HAIKU_4_5 | Local_ => None end.
Definition preset_effort (self : Preset) : option Effort :=
  match self with Quality => Some High | Balanced => Some Medium | Cheap => Some Low | Local_ => None end.
Definition preset_capabilities (self : Preset) : Capabilities :=
  match self with Quality | Balanced | Cheap => anthropic_frontier | Local_ => local_default end.

(** ** Lemmas *)

Lemma fold_wadd_exact l acc :
  0 <= acc -> Forall (fun x => 0 <= x) l -> acc + zsum l <= u64_max -> fold_left wadd l acc = acc + zsum l.
Proof.
  unfold zsum. intros Ha Hl. revert acc Ha.
  induction Hl as [|x l Hx Hl IH]; intros acc Ha Hb; simpl in *; [lia|].
  assert (0 <= foldr Z.add 0 l) by (clear -Hl; induction Hl; simpl; lia).
  assert (wadd acc x = acc + x) as -> by (unfold wadd, u64_max in *; rewrite Z.mod_small; lia).
  rewrite IH; lia.
Qed.

Lemma wsum_exact l : Forall (fun x => 0 <= x) l -> zsum l <= u64_max -> wsum l = zsum l.
Proof. intros. unfold wsum. by rewrite fold_wadd_exact. Qed.

Lemma estimate_block_tokens_nonneg s : 0 <= estimate_block_tokens s.
Proof. unfold estimate_block_tokens, wadd. by apply Z.mod_pos_bound. Qed.

#[export] Hint Resolve estimate_block_tokens_nonneg : fotw.

Example an_hour_of_speech : Z.of_nat 900 * estimate_block_tokens "this is a ten word utterance for the estimator test" = 23400.
Proof. reflexivity. Qed.

Example budgets_of_a_hundred_thousand :
  let caps := mkCaps true true CacheOneHour 100000 128000 true true in
  (single_shot_budget_tokens caps, chunk_budget_tokens caps) = (60000, 35000).
Proof. reflexivity. Qed.
