(* ===== verification/Document.v ===== *)
(** * fotw-summarize: the transcript as a numbered document

    Models [crates/fotw-summarize/src/document.rs].  A block's position is the
    evidence id a model cites, so the theorems are about the numbering: it is the
    newest text of every utterance in the order of the recording, and it does not
    depend on the order in which the revisions were read. *)

From S2P Require Import Prelude Float32 Float64 Text SttTypes Budget.

Local Open Scope Z_scope.

Record DocumentSegment := mkDocumentSegment {
  index : nat;
  segment_id : string;
  d_speaker : option string;
  d_source : Source;
  d_start_ms : Z;
  d_end_ms : Z;
  d_text : string;
  d_confidence : option f64;
}.

Definition speaker_label (self : DocumentSegment) : string :=
  match d_speaker self, d_source self with
  | Some label, _ => label
  | None, Mic => "me"
  | None, System => "unknown"
  end.

Definition format_timestamp (ms : Z) : string :=
  let total_seconds := ms / 1000 in
  let hours := total_seconds / 3600 in
  let minutes := total_seconds mod 3600 / 60 in
  let seconds := total_seconds mod 60 in
  if 0 <? hours then pretty hours +:+ ":" +:+ zero_padded 2 minutes +:+ ":" +:+ zero_padded 2 seconds
  else zero_padded 2 minutes +:+ ":" +:+ zero_padded 2 seconds.

Definition block_text (self : DocumentSegment) : string :=
  "[#" +:+ pretty (index self) +:+ "] " +:+ speaker_label self +:+ " @ " +:+
  format_timestamp (d_start_ms self) +:+ " — " +:+ d_text self.

Record TranscriptDocument := mkDocument { segments : list DocumentSegment }.

(** ** Building it *)

(** One turn of the loop over the raw segments: the [BTreeMap] entry of the
    segment's id is replaced unless it holds a newer revision. *)
Definition keep_newest (newest : gmap string TranscriptSegment) (segment : TranscriptSegment)
    : gmap string TranscriptSegment :=
  match newest !! id segment with
  | Some existing =>
      if seg_revision existing <=? seg_revision segment then <[id segment := segment]> newest else newest
  | None => <[id segment := segment]> newest
  end.

Definition newest_of (raw : list TranscriptSegment) : gmap string TranscriptSegment :=
  fold_left keep_newest raw ∅.

(** [BTreeMap::into_values]: in the order of the keys. *)
Definition key_le (a b : string * TranscriptSegment) : Prop := String.le a.1 b.1.
#[export] Instance key_le_dec : RelDecision key_le := fun a b => String.le_dec a.1 b.1.
Definition into_values (m : gmap string TranscriptSegment) : list TranscriptSegment :=
  (merge_sort key_le (map_to_list m)).*2.

Definition spoken (segment : TranscriptSegment) : Prop := trim (text segment) <> EmptyString.
#[export] Instance spoken_dec s : Decision (spoken s).
Proof. unfold spoken. apply _. Defined.

(** [a.start_ms.cmp(&b.start_ms).then_with(|| a.id.cmp(&b.id))] *)
Definition block_leb (a b : TranscriptSegment) : bool :=
  match start_ms a ?= start_ms b with
  | Lt => true
  | Gt => false
  | Eq => String.leb (id a) (id b)
  end.
Definition block_le (a b : TranscriptSegment) : Prop := block_leb a b = true.
#[export] Instance block_le_dec : RelDecision block_le := fun a b => bool_eq_dec (block_leb a b) true.

Definition to_block (i : nat) (segment : TranscriptSegment) : DocumentSegment :=
  mkDocumentSegment i (id segment) (speaker segment) (seg_source segment) (start_ms segment)
    (end_ms segment) (trim (text segment)) (confidence segment).

Definition kept_segments (raw : list TranscriptSegment) : list TranscriptSegment :=
  merge_sort block_le (filter spoken (into_values (newest_of raw))).

Definition from_segments (raw : list TranscriptSegment) : TranscriptDocument :=
  mkDocument (imap to_block (kept_segments raw)).

(** ** Reading it *)

Definition segment (self : TranscriptDocument) (i : nat) : option DocumentSegment := segments self !! i.
Definition doc_len (self : TranscriptDocument) : nat := length (segments self).
Definition doc_is_empty (self : TranscriptDocument) : bool := (doc_len self =? 0)%nat.
Definition all_indices (self : TranscriptDocument) : list nat := seq 0 (doc_len self).

(** [labels.sort(); labels.dedup()] *)
Fixpoint dedup {A} `{EqDecision A} (l : list A) : list A :=
  match l with
  | x :: ((y :: _) as rest) => if bool_decide (x = y) then dedup rest else x :: dedup rest
  | _ => l
  end.
Definition speaker_labels (self : TranscriptDocument) : list string :=
  dedup (merge_sort String.le (speaker_label <$> segments self)).

Definition concatenated_text (self : TranscriptDocument) (indices : list nat) : option string :=
  parts ← mapM (fun i => d_text <$> segment self i) indices; Some (join " " parts).

Definition estimated_tokens (self : TranscriptDocument) : Z :=
  wsum ((fun s => estimate_block_tokens (block_text s)) <$> segments self).

(** The texts of the content blocks sent for a subset of the segments. *)
Definition blocks_for (self : TranscriptDocument) (indices : list nat) : list string :=
  block_text <$> omap (segment self) indices.
Definition content_blocks (self : TranscriptDocument) : list string := blocks_for self (all_indices self).

(** ** The numbering *)

Definition all_of_id (raw : list TranscriptSegment) (k : string) (s : TranscriptSegment) : Prop :=
  s ∈ raw /\ id s = k /\ forall t, t ∈ raw -> id t = k -> seg_revision t <= seg_revision s.

Lemma newest_of_step raw s : newest_of (raw ++ [s]) = keep_newest (newest_of raw) s.
Proof. unfold newest_of. by rewrite fold_left_app. Qed.

Lemma elem_of_snoc {A} (l : list A) x y : y ∈ l ++ [x] <-> y ∈ l \/ y = x.
Proof. by rewrite elem_of_app, list_elem_of_singleton. Qed.

Lemma keep_newest_ne m s k : k <> id s -> keep_newest m s !! k = m !! k.
Proof. intros. unfold keep_newest. repeat case_match; try done; by rewrite lookup_insert_ne. Qed.

Lemma keep_newest_eq m s :
  exists r, keep_newest m s !! id s = Some r /\ seg_revision s <= seg_revision r /\
    match m !! id s with Some e => (r = s \/ r = e) /\ seg_revision e <= seg_revision r | None => r = s end.
Proof.
  unfold keep_newest. destruct (m !! id s) as [e|] eqn:E; [destruct (Z.leb_spec (seg_revision e) (seg_revision s))|].
  - exists s. rewrite lookup_insert_eq. auto with lia.
  - exists e. rewrite E. auto with lia.
  - exists s. rewrite lookup_insert_eq. auto with lia.
Qed.

(** An id's entry is one of its revisions of the highest number. *)
Lemma newest_of_spec raw k :
  match newest_of raw !! k with
  | Some s => all_of_id raw k s
  | None => forall t, t ∈ raw -> id t <> k
  end.
Proof.
  induction raw as [|s raw IH] using rev_ind.
  { unfold newest_of. simpl. rewrite lookup_empty. by intros t ?%elem_of_nil. }
  rewrite newest_of_step. unfold all_of_id in *. destruct (decide (k = id s)) as [->|Hne].
  - destruct (keep_newest_eq (newest_of raw) s) as (r & -> & Hr & Hm).
    destruct (newest_of raw !! id s) as [e|].
    + destruct IH as (He & Hk & Hmax), Hm as [Hre Her]. split_and!.
      * apply elem_of_snoc. destruct Hre as [-> | ->]; auto.
      * by destruct Hre as [-> | ->].
      * intros t [Ht| ->]%elem_of_snoc Htk; [specialize (Hmax t Ht Htk); lia|done].
    + subst r. split_and!; [by apply elem_of_snoc; right|done|].
      intros t [Ht| ->]%elem_of_snoc Htk; [by destruct (IH t Ht)|done].
  - rewrite keep_newest_ne by done. destruct (newest_of raw !! k) as [e|].
    + destruct IH as (? & ? & Hmax). split_and!; [by apply elem_of_snoc; left|done|].
      intros t [Ht| ->]%elem_of_snoc Htk; [by apply Hmax|by destruct Hne].
    + intros t [Ht| ->]%elem_of_snoc; [by apply IH|done].
Qed.

(** The provider numbers the revisions of an utterance: the same number is the
    same revision. *)
Definition revisions_numbered (raw : list TranscriptSegment) : Prop :=
  forall a b, a ∈ raw -> b ∈ raw -> id a = id b -> seg_revision a = seg_revision b -> a = b.

Lemma newest_of_perm raw raw' :
  raw ≡ₚ raw' -> revisions_numbered raw -> newest_of raw = newest_of raw'.
Proof.
  intros Hp Hn. apply map_eq. intros k.
  pose proof (newest_of_spec raw k) as H1. pose proof (newest_of_spec raw' k) as H2.
  destruct (newest_of raw !! k) as [a|], (newest_of raw' !! k) as [b|]; try done.
  - destruct H1 as (Ha & Hka & Hma), H2 as (Hb & Hkb & Hmb). f_equal.
    rewrite <-Hp in Hb. apply Hn; [done..|congruence|].
    assert (a ∈ raw') by by rewrite <-Hp.
    pose proof (Hma b Hb Hkb). assert (seg_revision a <= seg_revision b) by by apply Hmb. lia.
  - destruct H1 as (Ha & Hka & _). rewrite Hp in Ha. by destruct (H2 a Ha).
  - destruct H2 as (Hb & Hkb & _). rewrite <-Hp in Hb. by destruct (H1 b Hb).
Qed.

Lemma into_values_perm m : into_values m ≡ₚ (map_to_list m).*2.
Proof. unfold into_values. by rewrite merge_sort_Permutation. Qed.

Lemma elem_of_kept raw s :
  s ∈ kept_segments raw <-> newest_of raw !! id s = Some s /\ spoken s.
Proof.
  unfold kept_segments. rewrite merge_sort_Permutation, list_elem_of_filter, into_values_perm.
  rewrite list_elem_of_fmap. split.
  - intros [Hs ([k t] & -> & Hk%elem_of_map_to_list)]. split; [|done]. simpl in *.
    pose proof (newest_of_spec raw k) as H. rewrite Hk in H. destruct H as (_ & -> & _). done.
  - intros [Hk Hs]. split; [done|]. exists (id s, s). by rewrite elem_of_map_to_list.
Qed.

Lemma block_le_spec a b :
  block_le a b <-> start_ms a < start_ms b \/ (start_ms a = start_ms b /\ String.le (id a) (id b)).
Proof.
  unfold block_le, block_leb, String.le.
  destruct (Z.compare_spec (start_ms a) (start_ms b)) as [->|H|H]; rewrite ?Is_true_true; naive_solver lia.
Qed.

#[export] Instance block_le_trans : Transitive block_le.
Proof.
  intros a b c. rewrite !block_le_spec. intros [?|[? H1]] [?|[? H2]]; try (left; lia).
  right. split; [lia|]. by trans (id b).
Qed.

#[export] Instance block_le_total : Total block_le.
Proof.
  intros a b. rewrite !block_le_spec.
  destruct (total String.le (id a) (id b)); destruct (Z.lt_total (start_ms a) (start_ms b)) as [?|[?|?]];
    auto with lia.
Qed.

Lemma kept_sorted raw : StronglySorted block_le (kept_segments raw).
Proof. apply StronglySorted_merge_sort; apply _. Qed.

(** No utterance is numbered twice. *)
Lemma kept_ids_nodup raw : NoDup (id <$> kept_segments raw).
Proof.
  unfold kept_segments. rewrite merge_sort_Permutation, into_values_perm.
  assert (Forall (fun kt => id kt.2 = kt.1) (map_to_list (newest_of raw))) as Hk.
  { apply Forall_forall. intros [k t] Hin%elem_of_map_to_list.
    pose proof (newest_of_spec raw k) as H. rewrite Hin in H. by destruct H as (_ & ? & _). }
  pose proof (NoDup_fst_map_to_list (newest_of raw)) as Hn.
  induction Hk as [|[k t] l E Hk IH]; [constructor|]. csimpl in *. apply NoDup_cons in Hn as [Hni Hn].
  rewrite filter_cons. case_decide; [|by apply IH]. csimpl. apply NoDup_cons. split; [|by apply IH].
  rewrite E. intros (u & Hu & Hin)%list_elem_of_fmap. apply Hni.
  apply list_elem_of_filter in Hin as [_ ([k' u'] & -> & Hin)%list_elem_of_fmap].
  rewrite Forall_forall in Hk. specialize (Hk _ Hin). simpl in *. subst.
  apply list_elem_of_fmap. by exists (id u', u').
Qed.

Lemma block_at raw i d :
  segment (from_segments raw) i = Some d <-> exists s, kept_segments raw !! i = Some s /\ d = to_block i s.
Proof.
  unfold segment, from_segments. simpl. rewrite list_lookup_imap.
  destruct (kept_segments raw !! i); naive_solver.
Qed.

Lemma block_index raw i d : segment (from_segments raw) i = Some d -> index d = i.
Proof. by intros (s & _ & ->)%block_at. Qed.

Lemma block_indices raw : index <$> segments (from_segments raw) = all_indices (from_segments raw).
Proof.
  unfold all_indices, doc_len. simpl. rewrite length_imap.
  apply list_eq. intros i. rewrite list_lookup_fmap, list_lookup_imap.
  destruct (kept_segments raw !! i) eqn:E; simpl.
  - symmetry. apply lookup_seq. split; [done|]. by apply lookup_lt_Some in E.
  - symmetry. apply lookup_ge_None. rewrite length_seq. by apply lookup_ge_None.
Qed.

Lemma sorted_imap l n :
  StronglySorted block_le l ->
  StronglySorted (fun a b => d_start_ms a <= d_start_ms b) (imap (fun i => to_block (n + i)) l).
Proof.
  intros H. revert n. induction H as [|s l Hl IH Hs]; intros n; [constructor|]. simpl. constructor.
  - eapply eq_ind; [apply (IH (S n))|]. apply imap_ext. intros. unfold to_block. simpl. f_equal. lia.
  - apply Forall_forall. intros b (i & t & -> & Ht)%elem_of_lookup_imap. simpl.
    rewrite Forall_forall in Hs. apply list_elem_of_lookup_2, Hs, block_le_spec in Ht. lia.
Qed.

Lemma sorted_blocks raw :
  StronglySorted (fun a b => d_start_ms a <= d_start_ms b) (segments (from_segments raw)).
Proof. apply (sorted_imap (kept_segments raw) 0), kept_sorted. Qed.

(** ** Properties *)

(** Evidence ids are stable: reading the same revisions in another order gives
    the same document, block for block, provided an utterance's revision numbers
    tell its revisions apart. *)
Theorem evidence_ids_are_stable raw raw' :
  raw ≡ₚ raw' -> revisions_numbered raw -> from_segments raw = from_segments raw'.
Proof. intros Hp Hn. unfold from_segments, kept_segments. by rewrite (newest_of_perm raw raw'). Qed.

(** Block [i] carries the id [i]; the blocks are in the order of the recording;
    an utterance that is not blank in its newest revision has exactly one block,
    with that revision's text, and nothing else has one. *)
Theorem document_is_the_newest_transcript raw :
  let d := from_segments raw in
  (forall i b, segment d i = Some b -> index b = i) /\
  StronglySorted (fun a b => d_start_ms a <= d_start_ms b) (segments d) /\
  NoDup (segment_id <$> segments d) /\
  (forall b, b ∈ segments d -> exists s, all_of_id raw (segment_id b) s /\ spoken s /\ b = to_block (index b) s) /\
  (forall s, s ∈ raw -> (forall t, all_of_id raw (id s) t -> spoken t) ->
     exists b, b ∈ segments d /\ segment_id b = id s).
Proof.
  intros d.
  assert (forall b, b ∈ segments d <-> exists i s, kept_segments raw !! i = Some s /\ b = to_block i s) as Hin.
  { intros b. rewrite list_elem_of_lookup. split.
    - intros [i (s & ? & ?)%block_at]. eauto.
    - intros (i & s & ? & ->). exists i. apply block_at. eauto. }
  split_and!.
  - intros i b. apply block_index.
  - apply sorted_blocks. 
  - unfold d, from_segments. simpl. rewrite fmap_imap. 
    assert (imap (fun i => segment_id ∘ to_block i) (kept_segments raw) = id <$> kept_segments raw) as ->.
    { apply list_eq. intros i. rewrite list_lookup_imap, list_lookup_fmap. done. }
    apply kept_ids_nodup.
  - intros b (i & s & Hs & ->)%Hin. exists s. apply list_elem_of_lookup_2, elem_of_kept in Hs as [Hs Hsp].
    split_and!; [|done|done]. pose proof (newest_of_spec raw (id s)) as H. by rewrite Hs in H.
  - intros s Hs Hall. pose proof (newest_of_spec raw (id s)) as H.
    destruct (newest_of raw !! id s) as [r|] eqn:E; [|by destruct (H s Hs)].
    assert (id r = id s) by apply H.
    assert (r ∈ kept_segments raw) as [i Hi]%list_elem_of_lookup.
    { apply elem_of_kept. split; [congruence|by apply Hall]. }
    exists (to_block i r). split; [apply Hin; eauto|done].
Qed.

(** A partial and the final that supersedes it, a blank segment, and speech at the
    same instant on the other stream. *)
Definition said (id_ : string) (source : Source) (start : Z) (revision : Z) (txt : string) : TranscriptSegment :=
  mkSegment id_ "session" source None txt start (start + 900) [] None None false revision "p" "m" Estimated.

Definition revised_transcript : list TranscriptSegment :=
  [said "u1" Mic 1000 0 "we should ship"; said "u0" System 1000 0 "agreed"; said "u2" System 3000 0 "  ";
   said "u1" Mic 1000 1 "we should ship it friday"].

Lemma evidence_ids_are_stable_witness :
  from_segments revised_transcript = from_segments (rev revised_transcript) /\
  block_text <$> segments (from_segments revised_transcript) =
    ["[#0] unknown @ 00:01 — agreed"; "[#1] me @ 00:01 — we should ship it friday"].
Proof.
  split; [|vm_compute; reflexivity].
  apply evidence_ids_are_stable; [apply Permutation_rev|].
  unfold revised_transcript. intros a b. rewrite !elem_of_cons, !elem_of_nil. naive_solver.
Defined.
