(* ===== verification/Chunk.v ===== *)
(** * fotw-summarize: cutting a long meeting into chunks

    Models [crates/fotw-summarize/src/chunk.rs]: grouping segments into speaker
    turns, packing turns into overlapping chunks within a token budget, and the
    decision between one call and a map-reduce.  Token counts are [usize] and wrap
    as [+] does in a release build; slicing out of range is a panic, [None]. *)

From S2P Require Import Prelude Float32 Float64 Text SttTypes Budget Document.

Local Open Scope Z_scope.

Definition OVERLAP_TURNS : nat := 2.
Definition CONTEXT_SO_FAR_BUDGET_TOKENS : Z := 800.

Record SpeakerTurn := mkTurn { t_segments : list nat; t_speaker : string; t_tokens : Z }.

Record Chunk := mkChunk { c_segments : list nat; overlap_segments : nat; c_tokens : Z }.

Definition to_global (self : Chunk) (local_block_index : nat) : option nat :=
  c_segments self !! local_block_index.

Inductive Plan := SingleShot | MapReduce (chunks : list Chunk).

Definition is_map_reduce (self : Plan) : bool :=
  match self with MapReduce _ => true | SingleShot => false end.

Definition plan_chunks (self : Plan) (document : TranscriptDocument) : list Chunk :=
  match self with
  | SingleShot => [mkChunk (all_indices document) 0 (estimated_tokens document)]
  | MapReduce chunks => chunks
  end.

(** ** Speaker turns *)

(** [match turns.last_mut()] *)
Definition add_to_turns (turns : list SpeakerTurn) (s : DocumentSegment) : list SpeakerTurn :=
  let speaker := speaker_label s in
  let tokens := estimate_block_tokens (block_text s) in
  match last turns with
  | Some turn =>
      if bool_decide (t_speaker turn = speaker) then
        take (length turns - 1) turns ++
        [mkTurn (t_segments turn ++ [index s]) (t_speaker turn) (wadd (t_tokens turn) tokens)]
      else turns ++ [mkTurn [index s] speaker tokens]
  | None => turns ++ [mkTurn [index s] speaker tokens]
  end.

Definition speaker_turns (document : TranscriptDocument) : list SpeakerTurn :=
  fold_left add_to_turns (segments document) [].

(** ** Packing *)

(** [&turns[a..b]] *)
Definition slice {A} (l : list A) (a b : nat) : option (list A) :=
  if ((a <=? b) && (b <=? length l))%nat then Some (take (b - a) (drop a l)) else None.

(** The inner loop, on the turns from [start] on: how many it takes, and their tokens. *)
Fixpoint fill (rest : list SpeakerTurn) (budget : Z) (taken : nat) (tokens : Z) : nat * Z :=
  match rest with
  | [] => (taken, tokens)
  | turn :: rest =>
      if (0 <? taken)%nat && (budget <? wadd tokens (t_tokens turn)) then (taken, tokens)
      else fill rest budget (S taken) (wadd tokens (t_tokens turn))
  end.

Definition segments_of (turns : list SpeakerTurn) : list nat := turns ≫= t_segments.

(** How many leading segments the previous chunk already holds. *)
Definition repeated_segments (turns : list SpeakerTurn) (start previous_end stop : nat) (chunks : list Chunk)
    : option nat :=
  match chunks with
  | [] => Some O
  | _ => (fun repeated => sum_list ((fun t => length (t_segments t)) <$> repeated)) <$>
           slice turns start (Nat.min previous_end stop)
  end.

(** The outer loop; [None] is a panic or the end of the fuel. *)
Fixpoint pack_loop (fuel : nat) (turns : list SpeakerTurn) (budget : Z)
    (start previous_end : nat) (chunks : list Chunk) : option (list Chunk) :=
  match fuel with
  | O => None
  | S fuel =>
      if (length turns <=? start)%nat then Some chunks
      else
        let '(taken, tokens) := fill (drop start turns) budget 0 0 in
        let stop := (start + taken)%nat in
        run ← slice turns start stop;
        overlap ← repeated_segments turns start previous_end stop chunks;
        let chunks := chunks ++ [mkChunk (segments_of run) overlap tokens] in
        if (length turns <=? stop)%nat then Some chunks
        else pack_loop fuel turns budget (Nat.max (stop - OVERLAP_TURNS) (start + 1)) stop chunks
  end.

(** The start of every chunk is past the one before, so there are no more rounds
    than turns, and one to leave. *)
Definition pack (turns : list SpeakerTurn) (budget : Z) : option (list Chunk) :=
  pack_loop (S (length turns)) turns budget 0 0 [].

Definition plan (document : TranscriptDocument) (capabilities : Capabilities) : option Plan :=
  if fits_single_shot capabilities (estimated_tokens document) then Some SingleShot
  else chunks ← pack (speaker_turns document) (chunk_budget_tokens capabilities); Some (MapReduce chunks).

(** ** The running context *)

(** The loop over the words from the last: [kept] holds the latest first pushed. *)
Fixpoint keep_words (budget_tokens : Z) (words kept : list string) : list string :=
  match words with
  | [] => kept
  | word :: words =>
      if budget_tokens <? estimate_tokens (join " " (kept ++ [word])) then kept
      else keep_words budget_tokens words (kept ++ [word])
  end.

Definition truncate_context (context : string) (budget_tokens : Z) : string :=
  if estimate_tokens context <=? budget_tokens then context
  else join " " (rev (keep_words budget_tokens (rev (split_whitespace context)) [])).

(** ** Turns: lemmas *)

Lemma segments_of_app a b : segments_of (a ++ b) = segments_of a ++ segments_of b.
Proof. apply bind_app. Qed.

Lemma last_snoc_take {A} (l : list A) x : last l = Some x -> l = take (length l - 1) l ++ [x].
Proof.
  destruct l as [|y l _] using rev_ind; [done|]. rewrite last_snoc. intros [= ->].
  rewrite length_app, Nat.add_sub. by rewrite take_app_length.
Qed.

Lemma turns_of_segments turns ss :
  segments_of (fold_left add_to_turns ss turns) = segments_of turns ++ (index <$> ss).
Proof.
  revert turns. induction ss as [|s ss IH]; intros turns; simpl; [by rewrite app_nil_r|].
  rewrite IH, (cons_middle (index s)), app_assoc. f_equal. unfold add_to_turns.
  destruct (last turns) as [turn|] eqn:El; [case_bool_decide|]; [|by rewrite segments_of_app..].
  rewrite (f_equal segments_of (last_snoc_take _ _ El)), !segments_of_app, <-app_assoc. f_equal.
  simpl. by rewrite !app_nil_r.
Qed.

(** The turns are the document's segments, in order. *)
Lemma speaker_turns_cover raw :
  segments_of (speaker_turns (from_segments raw)) = all_indices (from_segments raw).
Proof. unfold speaker_turns. by rewrite turns_of_segments, block_indices. Qed.

(** ** Packing: lemmas *)

Definition tokens_of (turns : list SpeakerTurn) : Z := zsum (t_tokens <$> turns).

Lemma tokens_of_app a b : tokens_of (a ++ b) = tokens_of a + tokens_of b.
Proof. unfold tokens_of. by rewrite fmap_app, zsum_app. Qed.

Lemma tokens_of_nonneg turns : Forall (fun t => 0 <= t_tokens t) turns -> 0 <= tokens_of turns.
Proof. intros H. apply zsum_nonneg, Forall_fmap. by eapply Forall_impl. Qed.

(** What the inner loop takes: all it can within the budget, and one turn anyway. *)
Lemma fill_spec rest budget taken tokens n out :
  Forall (fun t => 0 <= t_tokens t) rest -> 0 <= tokens -> tokens + tokens_of rest <= u64_max ->
  fill rest budget taken tokens = (n, out) ->
  exists k, n = (taken + k)%nat /\ (k <= length rest)%nat /\ out = tokens + tokens_of (take k rest) /\
    (taken = O -> rest <> [] -> (1 <= k)%nat) /\
    ((2 <= n)%nat -> (1 <= k)%nat -> out <= budget) /\
    (forall j, (j <= length rest)%nat -> tokens + tokens_of (take j rest) <= budget -> (j <= k)%nat).
Proof.
  intros Hr. revert taken tokens. induction Hr as [|t rest Ht Hr IH]; intros taken tokens Hp Hb; simpl.
  { intros [= <- <-]. exists O. split_and!; [lia|done|unfold tokens_of; simpl; lia|done|lia|lia]. }
  pose proof (tokens_of_nonneg _ Hr).
  assert (tokens_of (t :: rest) = t_tokens t + tokens_of rest) as Ec by done.
  assert (wadd tokens (t_tokens t) = tokens + t_tokens t) as Ew
    by (unfold wadd, u64_max in *; rewrite Z.mod_small; lia).
  rewrite Ew. destruct ((0 <? taken)%nat && (budget <? tokens + t_tokens t)) eqn:E.
  - intros [= <- <-]. apply andb_true_iff in E as [E1%Nat.ltb_lt E2%Z.ltb_lt]. exists O.
    split_and!; try (unfold tokens_of; simpl; lia).
    intros [|j] Hj Hle; [lia|]. simpl in Hle.
    assert (0 <= tokens_of (take j rest)) by by apply tokens_of_nonneg, Forall_take.
    change (tokens_of (t :: take j rest)) with (t_tokens t + tokens_of (take j rest)) in Hle. lia.
  - intros (k & -> & Hk & -> & Hone & Htwo & Hmax)%IH; [|lia..]. exists (S k).
    change (tokens_of (take (S k) (t :: rest))) with (t_tokens t + tokens_of (take k rest)).
    split_and!; try lia.
    + intros H2 _. destruct k as [|k]; [|apply Htwo; lia].
      apply andb_false_iff in E as [E%Nat.ltb_ge|E%Z.ltb_ge]; [lia|].
      unfold tokens_of at 1. simpl. lia.
    + intros [|j] Hj Hle; [lia|]. simpl in Hle.
      change (tokens_of (t :: take j rest)) with (t_tokens t + tokens_of (take j rest)) in Hle.
      assert (j <= k)%nat; [|lia]. apply Hmax; lia.
Qed.

(** The segments a chunk adds to those before it. *)
Definition fresh (c : Chunk) : list nat := drop (overlap_segments c) (c_segments c).

Definition turn_run (turns : list SpeakerTurn) (a b : nat) : list SpeakerTurn := take (b - a) (drop a turns).

(** Whole turns from [a] to [b], those before [p] repeated; in budget, or one turn. *)
Definition chunk_ok (turns : list SpeakerTurn) (budget : Z) (c : Chunk) : Prop :=
  exists a p b, (a <= p <= b)%nat /\ (a < b <= length turns)%nat /\ (p - a <= OVERLAP_TURNS)%nat /\
    c_segments c = segments_of (turn_run turns a b) /\
    overlap_segments c = length (segments_of (turn_run turns a p)) /\
    c_tokens c = tokens_of (turn_run turns a b) /\
    (c_tokens c <= budget \/ b = S a).

Lemma length_segments_of turns :
  sum_list ((fun t => length (t_segments t)) <$> turns) = length (segments_of turns).
Proof.
  unfold segments_of. induction turns as [|t turns IH]; [done|]. csimpl. by rewrite length_app, IH.
Qed.

Lemma run_split turns a m b : (a <= m <= b)%nat -> turn_run turns a b = turn_run turns a m ++ turn_run turns m b.
Proof.
  intros H. unfold turn_run. replace (b - a)%nat with ((m - a) + (b - m))%nat by lia.
  rewrite <-take_take_drop. f_equal. rewrite drop_drop. do 2 f_equal. lia.
Qed.

Lemma run_tail turns b : (b <= length turns)%nat -> turn_run turns b (length turns) = drop b turns.
Proof. intros. unfold turn_run. apply take_ge. rewrite length_drop. lia. Qed.

Lemma slice_run {A} (l : list A) a b : (a <= b <= length l)%nat -> slice l a b = Some (take (b - a) (drop a l)).
Proof.
  intros. unfold slice. by rewrite (proj2 (Nat.leb_le a b)), (proj2 (Nat.leb_le b (length l))) by lia.
Qed.

Section Packing.
Context (turns : list SpeakerTurn) (budget : Z).
Context (Hpos : Forall (fun t => 0 <= t_tokens t) turns) (Hsum : tokens_of turns <= u64_max).

Lemma tokens_of_part a b : 0 <= tokens_of (turn_run turns a b) <= tokens_of turns.
Proof.
  assert (forall l, Forall (fun t => 0 <= t_tokens t) l -> forall n, tokens_of (take n l) <= tokens_of l) as Ht.
  { intros l Hl n. rewrite <-(take_drop n l) at 2. rewrite tokens_of_app.
    pose proof (tokens_of_nonneg (drop n l) (Forall_drop _ _ _ Hl)). lia. }
  assert (Forall (fun t => 0 <= t_tokens t) (drop a turns)) as Hd by by apply Forall_drop.
  unfold turn_run. split; [by apply tokens_of_nonneg, Forall_take|].
  etrans; [by apply Ht|]. rewrite <-(take_drop a turns) at 2. rewrite tokens_of_app.
  pose proof (tokens_of_nonneg (take a turns) (Forall_take _ _ _ Hpos)). lia.
Qed.

(** The inner loop from [start] on. *)
Lemma fill_run start prev :
  (start < length turns)%nat -> (start <= prev <= length turns)%nat ->
  (prev <= S start)%nat \/ tokens_of (turn_run turns start prev) <= budget ->
  exists stop, fill (drop start turns) budget 0 0 = ((stop - start)%nat, tokens_of (turn_run turns start stop)) /\
    (start < stop <= length turns)%nat /\ (prev <= stop)%nat /\
    (stop = S start \/ tokens_of (turn_run turns start stop) <= budget).
Proof.
  intros Hs Hprev Hfit. destruct (fill (drop start turns) budget 0 0) as [n out] eqn:E.
  apply fill_spec in E as (k & -> & Hk & -> & Hone & Htwo & Hmax); [|by apply Forall_drop|done|].
  2: { pose proof (tokens_of_part start (length turns)). rewrite run_tail in * by lia. lia. }
  rewrite length_drop in *. simpl in Htwo.
  assert (1 <= k)%nat. { apply Hone; [done|]. intros Hn%(f_equal length). rewrite length_drop in Hn. simpl in Hn. lia. }
  exists (start + k)%nat. replace (start + k - start)%nat with k by lia. simpl.
  unfold turn_run in *. replace (start + k - start)%nat with k by lia.
  split_and!; [done|lia|lia| |destruct (decide (k = 1%nat)); [left; lia|right; apply Htwo; lia]].
  destruct Hfit as [?|Hfit]; [lia|]. specialize (Hmax (prev - start)%nat). lia.
Qed.

(** The next start repeats turns that fit together. *)
Lemma next_start start stop :
  (start < stop)%nat -> stop = S start \/ tokens_of (turn_run turns start stop) <= budget ->
  let next := Nat.max (stop - OVERLAP_TURNS) (start + 1) in
  (start < next <= stop)%nat /\ (stop - next <= OVERLAP_TURNS)%nat /\
  ((stop <= S next)%nat \/ tokens_of (turn_run turns next stop) <= budget).
Proof.
  intros Hlt Hfit next. subst next. unfold OVERLAP_TURNS. split; [lia|split; [lia|]].
  destruct Hfit as [->|Hfit]; [left; lia|right].
  rewrite (run_split turns start (Nat.max (stop - 2) (start + 1)) stop), tokens_of_app in Hfit by lia.
  pose proof (tokens_of_part start (Nat.max (stop - 2) (start + 1))). lia.
Qed.

Lemma pack_loop_spec fuel start prev chunks :
  (length turns - start < fuel)%nat -> (start <= prev <= length turns)%nat ->
  (prev - start <= OVERLAP_TURNS)%nat -> (chunks = [] -> prev = start) ->
  (prev <= S start)%nat \/ tokens_of (turn_run turns start prev) <= budget ->
  exists more, pack_loop fuel turns budget start prev chunks = Some (chunks ++ more) /\
    Forall (chunk_ok turns budget) more /\ more ≫= fresh = segments_of (drop prev turns) /\
    (length more <= length turns - start)%nat.
Proof.
  revert start prev chunks. induction fuel as [|fuel IH]; intros start prev chunks Hf Hp Ho Hc Hfit; [lia|].
  simpl. destruct (Nat.leb_spec (length turns) start) as [Hge|Hlt].
  { exists []. rewrite app_nil_r. split_and!; [done|constructor| |simpl; lia].
    rewrite drop_ge by lia. done. }
  destruct (fill_run start prev) as (stop & -> & Hstop & Hps & Hin); [done..|].
  replace (start + (stop - start))%nat with stop by lia.
  rewrite slice_run by lia. cbn [mbind option_bind].
  assert (repeated_segments turns start prev stop chunks =
      Some (length (segments_of (turn_run turns start prev)))) as ->.
  { unfold repeated_segments. rewrite Nat.min_l, slice_run by lia. simpl. rewrite length_segments_of.
    destruct chunks; [|done]. rewrite Hc by done. unfold turn_run. by rewrite Nat.sub_diag. }
  cbn [mbind option_bind].
  set (c := mkChunk _ _ _).
  assert (chunk_ok turns budget c) as Hok.
  { exists start, prev, stop. split_and!; try done; try lia. destruct Hin; auto. }
  assert (fresh c = segments_of (turn_run turns prev stop)) as Hfresh.
  { unfold fresh, c. simpl. fold (turn_run turns start stop). rewrite (run_split turns start prev stop) by lia.
    by rewrite segments_of_app, drop_app_length. }
  destruct (Nat.leb_spec (length turns) stop) as [Hend|Hgo].
  - exists [c]. split_and!; [done|by constructor| |simpl; lia].
    simpl. rewrite app_nil_r, Hfresh. replace stop with (length turns) by lia. by rewrite run_tail by lia.
  - destruct (next_start start stop) as (Hn1 & Hn2 & Hn3); [lia|done|].
    destruct (IH (Nat.max (stop - OVERLAP_TURNS) (start + 1)) stop (chunks ++ [c])) as (more & -> & Hall & Hcat & Hlen);
      [lia|lia|done|by destruct chunks|done|].
    exists (c :: more). split_and!; [by rewrite <-app_assoc|by constructor| |simpl; lia].
    csimpl. rewrite Hcat, Hfresh, <-segments_of_app. f_equal.
    rewrite <-(run_tail turns prev), <-(run_tail turns stop) by lia. symmetry. apply run_split. lia.
Qed.

Lemma pack_spec :
  exists chunks, pack turns budget = Some chunks /\ Forall (chunk_ok turns budget) chunks /\
    chunks ≫= fresh = segments_of turns /\ (length chunks <= length turns)%nat.
Proof.
  destruct (pack_loop_spec (S (length turns)) 0 0 []) as (more & E & H1 & H2 & H3); [lia..|done|by left; lia|].
  exists more. split_and!; [done|done|done|lia].
Qed.

End Packing.

(** ** The tokens and the voices of turns *)

Definition block_tokens (s : DocumentSegment) : Z := estimate_block_tokens (block_text s).

Lemma add_to_turns_tokens turns s :
  Forall (fun t => 0 <= t_tokens t) turns -> tokens_of turns + block_tokens s <= u64_max ->
  Forall (fun t => 0 <= t_tokens t) (add_to_turns turns s) /\
  tokens_of (add_to_turns turns s) = tokens_of turns + block_tokens s.
Proof.
  intros Hp Hb. pose proof (estimate_block_tokens_nonneg (block_text s)) as Hs.
  unfold add_to_turns, block_tokens in *.
  destruct (last turns) as [t|] eqn:El; [case_bool_decide|].
  2-3: split; [apply Forall_app; split; [done|by repeat constructor]|rewrite tokens_of_app; unfold tokens_of; simpl; lia].
  pose proof (f_equal tokens_of (last_snoc_take _ _ El)) as Et. rewrite tokens_of_app in Et.
  assert (tokens_of [t] = t_tokens t) as E1 by (unfold tokens_of; simpl; lia).
  assert (0 <= t_tokens t) by (rewrite Forall_forall in Hp; apply Hp; by apply last_Some_elem_of).
  pose proof (tokens_of_nonneg _ (Forall_take _ (length turns - 1) _ Hp)).
  assert (wadd (t_tokens t) (estimate_block_tokens (block_text s)) = t_tokens t + estimate_block_tokens (block_text s)) as Ew.
  { unfold wadd, u64_max in *. rewrite Z.mod_small; lia. }
  rewrite Ew. split.
  - apply Forall_app. split; [by apply Forall_take|]. constructor; [simpl; lia|constructor].
  - rewrite tokens_of_app. unfold tokens_of at 2. simpl. lia.
Qed.

Lemma fold_turns_tokens ss turns :
  Forall (fun t => 0 <= t_tokens t) turns -> tokens_of turns + zsum (block_tokens <$> ss) <= u64_max ->
  Forall (fun t => 0 <= t_tokens t) (fold_left add_to_turns ss turns) /\
  tokens_of (fold_left add_to_turns ss turns) = tokens_of turns + zsum (block_tokens <$> ss).
Proof.
  revert turns. induction ss as [|s ss IH]; intros turns Hp Hb; [csimpl; unfold zsum; simpl; split; [done|lia]|].
  rewrite fmap_cons, zsum_cons in *.
  assert (0 <= zsum (block_tokens <$> ss)) by (apply zsum_map_nonneg; intros; apply estimate_block_tokens_nonneg).
  destruct (add_to_turns_tokens turns s) as [Hp' Ht]; [done|lia|].
  csimpl. destruct (IH (add_to_turns turns s)) as [? ->]; [done|lia|]. split; [done|lia].
Qed.

(** A turn is one or more segments of one speaker. *)
Definition one_voice (ss : list DocumentSegment) (t : SpeakerTurn) : Prop :=
  t_segments t <> [] /\ forall i, i ∈ t_segments t -> exists s, s ∈ ss /\ index s = i /\ speaker_label s = t_speaker t.

Lemma turns_one_voice all ss turns :
  (forall s, s ∈ ss -> s ∈ all) -> Forall (one_voice all) turns ->
  Forall (one_voice all) (fold_left add_to_turns ss turns).
Proof.
  revert turns. induction ss as [|s ss IH]; intros turns Hin Ht; [done|]. csimpl.
  apply IH; [set_solver|]. assert (s ∈ all) by set_solver.
  assert (one_voice all (mkTurn [index s] (speaker_label s) (estimate_block_tokens (block_text s)))) as Hnew.
  { split; [done|]. intros i Hi%list_elem_of_singleton. eauto. }
  unfold add_to_turns. destruct (last turns) as [t|] eqn:El; [case_bool_decide as Hv|].
  2-3: apply Forall_app; split; [done|]; constructor; [done|constructor].
  apply Forall_app. split; [by apply Forall_take|]. constructor; [|constructor].
  rewrite Forall_forall in Ht. destruct (Ht t) as [Hne Hall]; [by apply last_Some_elem_of|].
  split; simpl; [by destruct (t_segments t)|]. intros i [Hi| ->]%elem_of_snoc; [by apply Hall|]. eauto.
Qed.

(** ** The running context: lemmas *)

Lemma keep_words_spec budget ws kept :
  estimate_tokens (join " " kept) <= budget ->
  exists k, keep_words budget ws kept = kept ++ take k ws /\
    estimate_tokens (join " " (kept ++ take k ws)) <= budget.
Proof.
  revert kept. induction ws as [|w ws IH]; intros kept Hk; simpl.
  { exists O. by rewrite app_nil_r. }
  destruct (Z.ltb_spec budget (estimate_tokens (join " " (kept ++ [w])))).
  - exists O. by rewrite app_nil_r.
  - destruct (IH (kept ++ [w])) as (k & -> & Hle); [done|]. exists (S k). simpl. by rewrite <-app_assoc in *.
Qed.

Lemma fmap_rev {A B} (f : A -> B) l : f <$> rev l = rev (f <$> l).
Proof. induction l as [|x l IH]; [done|]. simpl. by rewrite fmap_app, IH. Qed.

(** The order of the words does not change the estimate. *)
Lemma estimate_rev us :
  Forall is_unit us -> estimate_tokens (join " " (utf8 <$> rev us)) = estimate_tokens (join " " (utf8 <$> us)).
Proof.
  intros Hu. unfold estimate_tokens, word_count. rewrite !split_whitespace_join; [|done|].
  - by rewrite !length_fmap, length_rev.
  - rewrite <-(rev_involutive us) in Hu. by rewrite <-Permutation_rev in Hu.
Qed.

Lemma truncate_context_fits context budget :
  is_str context -> 0 <= budget ->
  estimate_tokens (truncate_context context budget) <= budget /\
  exists k, split_whitespace (truncate_context context budget) = drop k (split_whitespace context).
Proof.
  intros Hs Hb. unfold truncate_context. destruct (Z.leb_spec (estimate_tokens context) budget).
  { split; [done|]. by exists O. }
  destruct (split_whitespace_units context Hs) as (us & Hus & ->).
  assert (estimate_tokens (join " " []) <= budget) as H0 by exact Hb.
  destruct (keep_words_spec budget (rev (utf8 <$> us)) [] H0) as (k & -> & Hk). simpl in *.
  rewrite <-fmap_rev, <-fmap_take in *.
  assert (Forall is_unit (take k (rev us))) as Ht by (apply Forall_take; by rewrite <-Permutation_rev).
  rewrite <-fmap_rev. split; [by rewrite estimate_rev|].
  exists (length us - k)%nat. rewrite split_whitespace_join by (by rewrite <-Permutation_rev).
  rewrite <-fmap_drop. f_equal. rewrite firstn_rev. by rewrite rev_involutive.
Qed.

(** ** Properties *)

(** C16: planning always answers, and the chunks partition the meeting: what each
    adds to the ones before it, end to end, is every segment once and in order.
    Under a map-reduce a chunk is a run of whole turns, each of one speaker, within
    the budget unless it is a single turn, repeating at most two turns; and there
    are no more chunks than turns. *)
Theorem chunks_partition_the_meeting raw capabilities :
  let d := from_segments raw in
  zsum (block_tokens <$> segments d) <= u64_max ->
  exists p, plan d capabilities = Some p /\
    plan_chunks p d ≫= fresh = all_indices d /\
    Forall (one_voice (segments d)) (speaker_turns d) /\
    match p with
    | SingleShot => estimated_tokens d < single_shot_budget_tokens capabilities
    | MapReduce chunks =>
        Forall (chunk_ok (speaker_turns d) (chunk_budget_tokens capabilities)) chunks /\
        (length chunks <= length (speaker_turns d))%nat
    end.
Proof.
  intros d Hsum. unfold plan.
  destruct (fold_turns_tokens (segments d) []) as [Hpos Htok]; [constructor|done|].
  assert (Forall (one_voice (segments d)) (speaker_turns d)) as Hv by (apply turns_one_voice; [done|constructor]).
  destruct (fits_single_shot capabilities (estimated_tokens d)) eqn:E.
  - exists SingleShot. unfold fits_single_shot in E. split_and!; [done| |done|lia].
    simpl. unfold fresh. simpl. by rewrite app_nil_r.
  - destruct (pack_spec (speaker_turns d) (chunk_budget_tokens capabilities)) as (chunks & -> & Hok & Hcat & Hlen);
      [done|unfold speaker_turns; rewrite Htok; done|].
    exists (MapReduce chunks). split_and!; [done| |done|done|done].
    simpl. rewrite Hcat. apply speaker_turns_cover.
Qed.

(** Five turns that do not fit one chunk, and a provider that takes few tokens. *)
Definition short_exchange : list TranscriptSegment :=
  [said "a" Mic 0 0 "one"; said "b" System 1000 0 "two"; said "c" System 2000 0 "and two more";
   said "d" Mic 3000 0 "three"; said "e" System 4000 0 "four"; said "f" Mic 5000 0 "five"].
Definition small_model : Capabilities := mkCaps false false NoCache 190 100 false false.

Lemma chunks_partition_the_meeting_witness :
  exists chunks, plan (from_segments short_exchange) small_model = Some (MapReduce chunks) /\
    chunks ≫= fresh = seq 0 6.
Proof.
  destruct (chunks_partition_the_meeting short_exchange small_model) as (p & Hp & Hcat & _).
  { apply Z.leb_le. vm_compute. reflexivity. }
  assert (exists chunks, plan (from_segments short_exchange) small_model = Some (MapReduce chunks)) as [chunks E]
    by (vm_compute; eauto).
  rewrite E in Hp. injection Hp as <-. exists chunks. split; [exact E|].
  etrans; [exact Hcat|]. vm_compute. reflexivity.
Defined.

(** A chunk may consist of repeated turns alone, when the next turn does not fit
    beside them. *)
Example a_chunk_of_repeats :
  (fun c => (c_segments c, overlap_segments c)) <$>
    default [] (pack [mkTurn [0%nat] "a" 10; mkTurn [1%nat] "b" 10; mkTurn [2%nat] "a" 10; mkTurn [3%nat] "b" 25] 30) =
  [([0; 1; 2], 0); ([1; 2], 2); ([2], 1); ([3], 0)]%nat.
Proof. reflexivity. Qed.
