(* ===== verification/Evidence.v ===== *)
(** * fotw-summarize: the evidence validator

    Models the extraction types of [crates/fotw-summarize/src/schema.rs] and
    [crates/fotw-summarize/src/validate.rs]: every item a model extracts is kept,
    with unverifiable fields cleared, or dropped and reported.  The lower case of
    a string and the character classes are the standard library's tables, the
    classes of [Text]. *)

From Stdlib Require Import SpecFloat.
From S2P Require Import Prelude Float32 Float64 Text SttTypes Budget Document.

Local Open Scope Z_scope.

(** ** schema.rs *)

Inductive Confidence := Explicit | Implied.

Record ActionItem := mkActionItem {
  ai_text : string;
  owner : option string;
  due : option string;
  due_raw : option string;
  ai_confidence : Confidence;
  ai_segment_ids : list nat;
  ai_quote : string;
}.

Record DecisionItem := mkDecisionItem {
  de_text : string;
  alternatives_considered : list string;
  de_confidence : Confidence;
  de_segment_ids : list nat;
  de_quote : string;
}.

Record OpenQuestion := mkOpenQuestion {
  oq_text : string;
  raised_by : option string;
  oq_confidence : Confidence;
  oq_segment_ids : list nat;
  oq_quote : string;
}.

Record FollowUp := mkFollowUp {
  fu_text : string;
  blocked_on : option string;
  fu_confidence : Confidence;
  fu_segment_ids : list nat;
  fu_quote : string;
}.

Record Topic := mkTopic { label : string; start_segment_id : nat }.

Record Extraction := mkExtraction {
  action_items : list ActionItem;
  decisions : list DecisionItem;
  open_questions : list OpenQuestion;
  follow_ups : list FollowUp;
  topics : list Topic;
}.

Definition extraction_default : Extraction := mkExtraction [] [] [] [] [].

Definition item_count (self : Extraction) : nat :=
  (length (action_items self) + length (decisions self) + length (open_questions self) +
   length (follow_ups self))%nat.

Inductive ItemKind := ActionItemKind | DecisionKind | OpenQuestionKind | FollowUpKind | TopicKind.

(** ** validate.rs: data *)

Definition DEFAULT_MIN_SPEAKER_CONFIDENCE : f64 := f64_dec 6 10.

Record ValidatorConfig := mkValidatorConfig { min_speaker_confidence : f64 }.
Definition validator_default : ValidatorConfig := mkValidatorConfig DEFAULT_MIN_SPEAKER_CONFIDENCE.

Inductive DropReason := NoEvidence | UnknownSegmentId (i : nat) | QuoteNotInCitedSegments.
Inductive Adjustment := OwnerUnverifiable | OwnerLowConfidence | DueUnverifiable.

Record DroppedItem := mkDropped { dr_kind : ItemKind; dr_text : string; reason : DropReason }.
Record AdjustedItem := mkAdjusted { ad_kind : ItemKind; ad_text : string; adjustment : Adjustment }.

Record ValidationReport := mkReport {
  extraction : Extraction;
  dropped : list DroppedItem;
  adjusted : list AdjustedItem;
}.

Definition drop_count (self : ValidationReport) : nat := length (dropped self).

Definition drop_notice (self : ValidationReport) : option string :=
  let count := drop_count self in
  if (count =? 0)%nat then None
  else
    let plural := if (count =? 1)%nat then "item" else "items" in
    Some (pretty count +:+ " candidate " +:+ plural +:+
      " had no verifiable evidence and were hidden — show anyway?").

Record CitedSegments := mkCited { cited_text : string; cited_normalized : string; min_confidence : f64 }.

(** ** validate.rs: the rules *)

Section Validate.
Context `{Lowercase, Uppercase, UnicodeTables}.

Definition normalize (text : string) : string := join " " (str_to_lowercase <$> split_whitespace text).

(** [token.ends_with(['.', '!', '?'])] *)
Definition ends_sentence (token : string) : bool :=
  is_some_and (last (chars token)) (fun c => (c =? 46) || (c =? 33) || (c =? 63)).

Definition proper_noun_step (st : gset string * bool) (token : string) : gset string * bool :=
  let '(nouns, at_sentence_start) := st in
  let trimmed := trim_matches (fun c => negb (is_alphanumeric c)) token in
  if str_is_empty trimmed then (nouns, at_sentence_start || ends_sentence token)
  else
    let starts_upper := is_some_and (head (chars trimmed)) is_uppercase in
    (if starts_upper && negb at_sentence_start then {[str_to_lowercase trimmed]} ∪ nouns else nouns,
     ends_sentence token).

Definition proper_nouns (text : string) : gset string :=
  (fold_left proper_noun_step (split_whitespace text) (∅, true)).1.

Definition unverifiable_owner (owner : string) (cited : CitedSegments) (speakers : list string)
    (config : ValidatorConfig) : option Adjustment :=
  if SFltb (min_confidence cited) (min_speaker_confidence config) then Some OwnerLowConfidence
  else
    let owner_normalized := normalize owner in
    if str_is_empty owner_normalized then Some OwnerUnverifiable
    else if existsb (fun label => bool_decide (normalize label = owner_normalized)) speakers then None
    else
      let nouns := proper_nouns (cited_text cited) in
      if forallb (fun word => bool_decide (word ∈ nouns)) (split_whitespace owner_normalized) then None
      else Some OwnerUnverifiable.

Definition due_is_verifiable (due_raw : option string) (cited : CitedSegments) : bool :=
  match due_raw with
  | None => false
  | Some raw =>
      let normalized := normalize raw in
      negb (str_is_empty normalized) && contains (cited_normalized cited) normalized
  end.

Definition record_adjustment (self : ValidationReport) (kind : ItemKind) (text : string) (a : Adjustment)
    : ValidationReport :=
  mkReport (extraction self) (dropped self) (adjusted self ++ [mkAdjusted kind text a]).

(** The closure [drop] of [check_evidence]. *)
Definition drop_item (self : ValidationReport) (kind : ItemKind) (text : string) (why : DropReason)
    : ValidationReport :=
  mkReport (extraction self) (dropped self ++ [mkDropped kind text why]) (adjusted self).

Definition confidence_floor (document : TranscriptDocument) (ids : list nat) : f64 :=
  fold_left f64_min (omap (fun i => segment document i ≫= d_confidence) ids) (S754_infinity false).

Definition check_evidence (self : ValidationReport) (kind : ItemKind) (text : string) (ids : list nat)
    (quote : string) (document : TranscriptDocument) : ValidationReport * option CitedSegments :=
  match ids with
  | [] => (drop_item self kind text NoEvidence, None)
  | _ =>
      match list_find (fun i => segment document i = None) ids with
      | Some (_, i) => (drop_item self kind text (UnknownSegmentId i), None)
      | None =>
          match concatenated_text document ids with
          | None => (drop_item self kind text NoEvidence, None)
          | Some concatenated =>
              let normalized := normalize concatenated in
              if contains normalized (normalize quote) then
                (self, Some (mkCited concatenated normalized (confidence_floor document ids)))
              else (drop_item self kind text QuoteNotInCitedSegments, None)
          end
      end
  end.

(** ** validate.rs: the pass *)

Definition keep (self : ValidationReport) (f : Extraction -> Extraction) : ValidationReport :=
  mkReport (f (extraction self)) (dropped self) (adjusted self).

Context (document : TranscriptDocument) (config : ValidatorConfig) (speakers : list string).

(** Rule 3 on an owner-shaped field: the field and the confidence after it. *)
Definition check_owner (report : ValidationReport) (kind : ItemKind) (text : string) (field : option string)
    (confidence : Confidence) (cited : CitedSegments) : ValidationReport * option string * Confidence :=
  match field with
  | Some name =>
      match unverifiable_owner name cited speakers config with
      | Some adjustment => (record_adjustment report kind text adjustment, None, Implied)
      | None => (report, field, confidence)
      end
  | None => (report, field, confidence)
  end.

Definition validate_action (report : ValidationReport) (item : ActionItem) : ValidationReport :=
  let '(report, cited) :=
    check_evidence report ActionItemKind (ai_text item) (ai_segment_ids item) (ai_quote item) document in
  match cited with
  | None => report
  | Some cited =>
      let '(report, owner, confidence) :=
        check_owner report ActionItemKind (ai_text item) (owner item) (ai_confidence item) cited in
      let '(report, due, due_raw, confidence) :=
        if is_some (due item) && negb (due_is_verifiable (due_raw item) cited) then
          (record_adjustment report ActionItemKind (ai_text item) DueUnverifiable, None, None, Implied)
        else (report, due item, due_raw item, confidence) in
      let item := mkActionItem (ai_text item) owner due due_raw confidence (ai_segment_ids item) (ai_quote item) in
      keep report (fun e => mkExtraction (action_items e ++ [item]) (decisions e) (open_questions e)
                              (follow_ups e) (topics e))
  end.

Definition validate_decision (report : ValidationReport) (item : DecisionItem) : ValidationReport :=
  let '(report, cited) :=
    check_evidence report DecisionKind (de_text item) (de_segment_ids item) (de_quote item) document in
  match cited with
  | Some _ => keep report (fun e => mkExtraction (action_items e) (decisions e ++ [item]) (open_questions e)
                                      (follow_ups e) (topics e))
  | None => report
  end.

Definition validate_question (report : ValidationReport) (item : OpenQuestion) : ValidationReport :=
  let '(report, cited) :=
    check_evidence report OpenQuestionKind (oq_text item) (oq_segment_ids item) (oq_quote item) document in
  match cited with
  | None => report
  | Some cited =>
      let '(report, raised_by, confidence) :=
        check_owner report OpenQuestionKind (oq_text item) (raised_by item) (oq_confidence item) cited in
      let item := mkOpenQuestion (oq_text item) raised_by confidence (oq_segment_ids item) (oq_quote item) in
      keep report (fun e => mkExtraction (action_items e) (decisions e) (open_questions e ++ [item])
                              (follow_ups e) (topics e))
  end.

Definition validate_follow_up (report : ValidationReport) (item : FollowUp) : ValidationReport :=
  let '(report, cited) :=
    check_evidence report FollowUpKind (fu_text item) (fu_segment_ids item) (fu_quote item) document in
  match cited with
  | Some _ => keep report (fun e => mkExtraction (action_items e) (decisions e) (open_questions e)
                                      (follow_ups e ++ [item]) (topics e))
  | None => report
  end.

Definition validate_topic (report : ValidationReport) (topic : Topic) : ValidationReport :=
  match segment document (start_segment_id topic) with
  | Some _ => keep report (fun e => mkExtraction (action_items e) (decisions e) (open_questions e)
                                      (follow_ups e) (topics e ++ [topic]))
  | None => drop_item report TopicKind (label topic) (UnknownSegmentId (start_segment_id topic))
  end.

End Validate.

Definition validate `{Lowercase, Uppercase, UnicodeTables} (e : Extraction) (document : TranscriptDocument)
    (config : ValidatorConfig) : ValidationReport :=
  let speakers := speaker_labels document in
  let report := mkReport extraction_default [] [] in
  let report := fold_left (validate_action document config speakers) (action_items e) report in
  let report := fold_left (validate_decision document) (decisions e) report in
  let report := fold_left (validate_question document config speakers) (open_questions e) report in
  let report := fold_left (validate_follow_up document) (follow_ups e) report in
  fold_left (validate_topic document) (topics e) report.

(** ** Substrings and labels *)

Definition substring (p s : string) : Prop := exists a b, s = a +:+ (p +:+ b).

Lemma starts_with_spec p s : starts_with p s = true <-> exists b, s = p +:+ b.
Proof.
  revert s. induction p as [|c p IH]; intros s; simpl; [by split; eauto|].
  destruct s as [|c' s]; [split; [done|by intros [b ?]]|].
  rewrite andb_true_iff, bool_decide_eq_true, IH. split.
  - intros [-> [b ->]]. by exists b.
  - intros [b [= -> ->]]. eauto.
Qed.

Lemma contains_spec s p : contains s p = true <-> substring p s.
Proof.
  unfold substring. induction s as [|c s IH]; cbn [contains]; rewrite orb_true_iff, starts_with_spec.
  - split; [intros [[b ->]|?]; [by exists EmptyString, b|done]|].
    intros (a & b & Hab). left. exists b. by destruct a.
  - rewrite IH. split.
    + intros [[b ->]|(a & b & ->)]; [by exists EmptyString, b|by exists (String c a), b].
    + intros ([|c' a] & b & Hab); [left; by exists b|]. right. injection Hab as -> ->. by exists a, b.
Qed.

Lemma elem_of_dedup {A} `{EqDecision A} (x : A) l : x ∈ dedup l <-> x ∈ l.
Proof.
  induction l as [|y l IH]; [done|]. destruct l as [|z l]; [done|]. cbn [dedup].
  case_bool_decide as E.
  - subst y. rewrite IH. set_solver.
  - rewrite elem_of_cons, IH. set_solver.
Qed.

Lemma elem_of_speaker_labels d x : x ∈ speaker_labels d <-> exists s, s ∈ segments d /\ speaker_label s = x.
Proof.
  unfold speaker_labels. rewrite elem_of_dedup, merge_sort_Permutation, list_elem_of_fmap. naive_solver.
Qed.

Lemma str_is_empty_spec s : str_is_empty s = false <-> s <> EmptyString.
Proof. by destruct s. Qed.

(** ** What a verified item is *)

Section Verified.
Context `{Lowercase, Uppercase, UnicodeTables} (document : TranscriptDocument) (config : ValidatorConfig).

(** Rules 1 and 2: the cited segments exist and say [txt], and [txt] contains the quote. *)
Definition grounded (ids : list nat) (quote txt : string) : Prop :=
  ids <> [] /\ concatenated_text document ids = Some txt /\ substring (normalize quote) (normalize txt).

(** Rule 3: no cited segment is too uncertain, and the name is a speaker's label or
    made of proper nouns the cited segments contain. *)
Definition attributed (ids : list nat) (txt name : string) : Prop :=
  SFltb (confidence_floor document ids) (min_speaker_confidence config) = false /\
  normalize name <> EmptyString /\
  ((exists s, s ∈ segments document /\ normalize (speaker_label s) = normalize name) \/
   (forall word, word ∈ split_whitespace (normalize name) -> word ∈ proper_nouns txt)).

(** Rule 4: the phrase for the date is in the cited segments. *)
Definition dated (txt : string) (due_raw : option string) : Prop :=
  exists raw, due_raw = Some raw /\ normalize raw <> EmptyString /\ substring (normalize raw) (normalize txt).

Definition action_ok (item : ActionItem) : Prop :=
  exists txt, grounded (ai_segment_ids item) (ai_quote item) txt /\
    (forall name, owner item = Some name -> attributed (ai_segment_ids item) txt name) /\
    (due item <> None -> dated txt (due_raw item)).
Definition decision_ok (item : DecisionItem) : Prop := exists txt, grounded (de_segment_ids item) (de_quote item) txt.
Definition question_ok (item : OpenQuestion) : Prop :=
  exists txt, grounded (oq_segment_ids item) (oq_quote item) txt /\
    (forall name, raised_by item = Some name -> attributed (oq_segment_ids item) txt name).
Definition follow_up_ok (item : FollowUp) : Prop := exists txt, grounded (fu_segment_ids item) (fu_quote item) txt.
Definition topic_ok (topic : Topic) : Prop := segment document (start_segment_id topic) <> None.

Definition extraction_ok (e : Extraction) : Prop :=
  Forall action_ok (action_items e) /\ Forall decision_ok (decisions e) /\
  Forall question_ok (open_questions e) /\ Forall follow_up_ok (follow_ups e) /\ Forall topic_ok (topics e).

(** ** The rules decide it *)

Definition cited_of (ids : list nat) (txt : string) : CitedSegments :=
  mkCited txt (normalize txt) (confidence_floor document ids).

Lemma concatenated_known ids txt :
  concatenated_text document ids = Some txt -> Forall (fun i => segment document i <> None) ids.
Proof.
  unfold concatenated_text. intros Hc. destruct (mapM _ ids) as [parts|] eqn:E; [|done].
  apply mapM_Some in E. clear Hc. induction E as [|i p ids ps Hi _ IH]; constructor; [|done].
  by destruct (segment document i).
Qed.

Lemma check_evidence_grounded r kind text ids quote txt :
  grounded ids quote txt ->
  check_evidence r kind text ids quote document = (r, Some (cited_of ids txt)).
Proof.
  intros (Hne & Hc & Hq%contains_spec). unfold check_evidence.
  destruct (list_find (fun i => segment document i = None) ids) as [[j i]|] eqn:E.
  { apply list_find_Some in E as (Hj & Hi & _). pose proof (concatenated_known _ _ Hc) as Hk.
    rewrite Forall_forall in Hk. by destruct (Hk i (list_elem_of_lookup_2 _ _ _ Hj)). }
  rewrite Hc, Hq. by destruct ids.
Qed.

(** Why the evidence of an item fails, in the order the rules are tried: it cites
    nothing, its first unknown segment, or segments that do not contain its quote. *)
Definition ungrounded (ids : list nat) (quote : string) (why : DropReason) : Prop :=
  match why with
  | NoEvidence => ids = []
  | UnknownSegmentId i =>
      exists before after, ids = before ++ i :: after /\ segment document i = None /\
        Forall (fun j => segment document j <> None) before
  | QuoteNotInCitedSegments =>
      ids <> [] /\ exists txt, concatenated_text document ids = Some txt /\
        ~ substring (normalize quote) (normalize txt)
  end.

Lemma known_concatenated ids :
  Forall (fun i => segment document i <> None) ids -> concatenated_text document ids <> None.
Proof.
  intros Hk. unfold concatenated_text.
  assert (is_Some (mapM (fun i => d_text <$> segment document i) ids)) as [parts ->]; [|done].
  apply mapM_is_Some. eapply Forall_impl; [exact Hk|]. intros i Hi. simpl in *.
  destruct (segment document i) as [x|]; [by eexists | done].
Qed.

Lemma check_evidence_cases r kind text ids quote :
  (exists txt, grounded ids quote txt) \/
  (exists why, ungrounded ids quote why /\
     check_evidence r kind text ids quote document = (drop_item r kind text why, None)).
Proof.
  unfold check_evidence. destruct ids as [|i ids]; [right; by exists NoEvidence|].
  destruct (list_find _ (i :: ids)) as [[n j]|] eqn:Ef.
  { right. exists (UnknownSegmentId j). split; [|done]. apply list_find_Some in Ef as (Hj & Hn & Hb).
    exists (take n (i :: ids)), (drop (S n) (i :: ids)). split_and!; [by rewrite take_drop_middle|done|].
    apply Forall_forall. intros k (m & Hm)%list_elem_of_lookup_1. apply lookup_take_Some in Hm as [Hm Hlt]. by eapply Hb. }
  destruct (concatenated_text document (i :: ids)) as [txt|] eqn:E; cycle 1.
  { exfalso. revert E. apply known_concatenated. apply Forall_forall. intros j Hj.
    apply list_find_None in Ef. by eapply Forall_forall in Ef. }
  destruct (contains (normalize txt) (normalize quote)) eqn:Q.
  - left. exists txt. split_and!; [done|done|by apply contains_spec].
  - right. exists QuoteNotInCitedSegments. split; [|done]. split; [done|]. exists txt. split; [done|].
    rewrite <-contains_spec. congruence.
Qed.

Lemma owner_spec ids txt name :
  unverifiable_owner name (cited_of ids txt) (speaker_labels document) config = None <-> attributed ids txt name.
Proof.
  unfold unverifiable_owner, attributed. simpl. destruct (SFltb _ _); [naive_solver|].
  destruct (str_is_empty (normalize name)) eqn:E.
  { assert (normalize name = EmptyString) by by destruct (normalize name). naive_solver. }
  apply str_is_empty_spec in E. destruct (existsb _ _) eqn:Ex.
  - apply existsb_exists in Ex as (l & Hl & Hn%bool_decide_eq_true). apply list_elem_of_In, elem_of_speaker_labels in Hl.
    split; [|done]. intros _. split_and!; [done|done|]. left. naive_solver.
  - destruct (forallb _ _) eqn:Ef.
    + rewrite forallb_forall in Ef. split; [|done]. intros _. split_and!; [done|done|]. right.
      intros w Hw%list_elem_of_In. by apply Ef, bool_decide_eq_true in Hw.
    + split; [done|]. intros (_ & _ & [(s & Hs & Hn)|Hall]).
      * assert (existsb (fun label => bool_decide (normalize label = normalize name)) (speaker_labels document) = true) as Hx;
          [|congruence].
        apply existsb_exists. exists (speaker_label s). rewrite bool_decide_eq_true. split; [|done].
        apply list_elem_of_In, elem_of_speaker_labels. eauto.
      * apply not_true_iff_false in Ef. destruct Ef. apply forallb_forall. intros w Hw%list_elem_of_In.
        by apply bool_decide_eq_true, Hall.
Qed.

Lemma due_spec ids txt raw : due_is_verifiable raw (cited_of ids txt) = true <-> dated txt raw.
Proof.
  unfold due_is_verifiable, dated. destruct raw as [raw|]; [|naive_solver]. simpl.
  rewrite andb_true_iff, negb_true_iff, str_is_empty_spec, contains_spec. naive_solver.
Qed.

(** ** A turn of each loop *)

Definition add_action (e : Extraction) (x : list ActionItem) : Extraction :=
  mkExtraction (action_items e ++ x) (decisions e) (open_questions e) (follow_ups e) (topics e).
Definition add_decision (e : Extraction) (x : list DecisionItem) : Extraction :=
  mkExtraction (action_items e) (decisions e ++ x) (open_questions e) (follow_ups e) (topics e).
Definition add_question (e : Extraction) (x : list OpenQuestion) : Extraction :=
  mkExtraction (action_items e) (decisions e) (open_questions e ++ x) (follow_ups e) (topics e).
Definition add_follow_up (e : Extraction) (x : list FollowUp) : Extraction :=
  mkExtraction (action_items e) (decisions e) (open_questions e) (follow_ups e ++ x) (topics e).
Definition add_topic (e : Extraction) (x : list Topic) : Extraction :=
  mkExtraction (action_items e) (decisions e) (open_questions e) (follow_ups e) (topics e ++ x).

(** What becomes of an item: it is kept, perhaps with fields cleared and that noted,
    or it is gone for a reason. *)
Inductive Fate (X : Type) :=
| Kept (y : X) (notes : list AdjustedItem)
| Gone (why : DropReason).
Arguments Kept {X}.
Arguments Gone {X}.

Definition kept {X} (f : Fate X) : list X := match f with Kept y _ => [y] | Gone _ => [] end.
Definition noted {X} (f : Fate X) : list AdjustedItem := match f with Kept _ notes => notes | Gone _ => [] end.
Definition gone {X} (kind : ItemKind) (txt : X -> string) (x : X) (f : Fate X) : list DroppedItem :=
  match f with Gone why => [mkDropped kind (txt x) why] | Kept _ _ => [] end.

(** Rule 3 at work: a name stands if it is attributed; otherwise it is cleared and
    noted, low confidence first. *)
Definition name_fate (kind : ItemKind) (text : string) (ids : list nat) (txt : string)
    (before after : option string) (notes : list AdjustedItem) : Prop :=
  (after = before /\ notes = [] /\ forall name, before = Some name -> attributed ids txt name) \/
  (exists name, before = Some name /\ ~ attributed ids txt name /\ after = None /\
     notes = [mkAdjusted kind text (if SFltb (confidence_floor document ids) (min_speaker_confidence config)
                                    then OwnerLowConfidence else OwnerUnverifiable)]).

(** Rule 4 at work: a date stands with its phrase or both are cleared. *)
Definition date_fate (x y : ActionItem) (txt : string) (notes : list AdjustedItem) : Prop :=
  (due y = due x /\ due_raw y = due_raw x /\ notes = [] /\ (due x <> None -> dated txt (due_raw x))) \/
  (due x <> None /\ ~ dated txt (due_raw x) /\ due y = None /\ due_raw y = None /\
     notes = [mkAdjusted ActionItemKind (ai_text x) DueUnverifiable]).

(** An item whose field was cleared is implied. *)
Definition confidence_after (c : Confidence) (notes : list AdjustedItem) : Confidence :=
  match notes with [] => c | _ => Implied end.

Definition action_fate (x : ActionItem) (f : Fate ActionItem) : Prop :=
  match f with
  | Gone why => ungrounded (ai_segment_ids x) (ai_quote x) why
  | Kept y notes =>
      ai_text y = ai_text x /\ ai_segment_ids y = ai_segment_ids x /\ ai_quote y = ai_quote x /\
      ai_confidence y = confidence_after (ai_confidence x) notes /\
      exists txt names dates, grounded (ai_segment_ids x) (ai_quote x) txt /\ notes = names ++ dates /\
        name_fate ActionItemKind (ai_text x) (ai_segment_ids x) txt (owner x) (owner y) names /\
        date_fate x y txt dates
  end.

Definition question_fate (x : OpenQuestion) (f : Fate OpenQuestion) : Prop :=
  match f with
  | Gone why => ungrounded (oq_segment_ids x) (oq_quote x) why
  | Kept y notes =>
      oq_text y = oq_text x /\ oq_segment_ids y = oq_segment_ids x /\ oq_quote y = oq_quote x /\
      oq_confidence y = confidence_after (oq_confidence x) notes /\
      exists txt, grounded (oq_segment_ids x) (oq_quote x) txt /\
        name_fate OpenQuestionKind (oq_text x) (oq_segment_ids x) txt (raised_by x) (raised_by y) notes
  end.

(** An item with no field to clear stands as it is or goes. *)
Definition plain_fate {X} (ids : X -> list nat) (quote : X -> string) (x : X) (f : Fate X) : Prop :=
  match f with
  | Gone why => ungrounded (ids x) (quote x) why
  | Kept y notes => y = x /\ notes = [] /\ exists txt, grounded (ids x) (quote x) txt
  end.

Definition topic_fate (x : Topic) (f : Fate Topic) : Prop :=
  match f with
  | Gone why => why = UnknownSegmentId (start_segment_id x) /\ segment document (start_segment_id x) = None
  | Kept y notes => y = x /\ notes = [] /\ segment document (start_segment_id x) <> None
  end.

(** A turn of a loop leaves what the fate of its item says. *)
Definition one_step {X} (r r' : ValidationReport) (add : Extraction -> list X -> Extraction)
    (kind : ItemKind) (txt : X -> string) (x : X) (f : Fate X) : Prop :=
  r' = mkReport (add (extraction r) (kept f)) (dropped r ++ gone kind txt x f) (adjusted r ++ noted f).

Lemma gone_step {X} r (add : Extraction -> list X -> Extraction) kind (txt : X -> string) x why :
  (forall e, add e [] = e) -> one_step r (drop_item r kind (txt x) why) add kind txt x (Gone why).
Proof. intros Hnil. unfold one_step, drop_item. simpl. by rewrite Hnil, app_nil_r. Qed.

Lemma add_action_nil e : add_action e [] = e.
Proof. destruct e. unfold add_action. simpl. by rewrite app_nil_r. Qed.
Lemma add_decision_nil e : add_decision e [] = e.
Proof. destruct e. unfold add_decision. simpl. by rewrite app_nil_r. Qed.
Lemma add_question_nil e : add_question e [] = e.
Proof. destruct e. unfold add_question. simpl. by rewrite app_nil_r. Qed.
Lemma add_follow_up_nil e : add_follow_up e [] = e.
Proof. destruct e. unfold add_follow_up. simpl. by rewrite app_nil_r. Qed.
Lemma add_topic_nil e : add_topic e [] = e.
Proof. destruct e. unfold add_topic. simpl. by rewrite app_nil_r. Qed.

Lemma cleared_owner ids txt name a :
  unverifiable_owner name (cited_of ids txt) (speaker_labels document) config = Some a ->
  ~ attributed ids txt name /\
  a = if SFltb (confidence_floor document ids) (min_speaker_confidence config)
      then OwnerLowConfidence else OwnerUnverifiable.
Proof.
  intros E. split; [rewrite <-owner_spec, E; done|]. revert E. unfold unverifiable_owner. simpl.
  repeat case_match; naive_solver.
Qed.

Lemma check_owner_spec r kind text field confidence ids txt :
  exists notes field',
    check_owner config (speaker_labels document) r kind text field confidence (cited_of ids txt) =
      (mkReport (extraction r) (dropped r) (adjusted r ++ notes), field', confidence_after confidence notes) /\
    name_fate kind text ids txt field field' notes.
Proof.
  destruct r as [e dr ad]. unfold check_owner. destruct field as [name|].
  2: { exists [], None. rewrite app_nil_r. split; [done|]. by left. }
  destruct (unverifiable_owner name _ _ _) as [a|] eqn:E.
  - apply cleared_owner in E as [Hn ->]. eexists [_], None. split; [done|]. right. by exists name.
  - exists [], (Some name). rewrite app_nil_r. split; [done|]. left. split_and!; [done|done|].
    intros n [= <-]. by apply owner_spec.
Qed.

Lemma check_owner_ok r kind text field confidence ids txt :
  (forall name, field = Some name -> attributed ids txt name) ->
  check_owner config (speaker_labels document) r kind text field confidence (cited_of ids txt) =
    (r, field, confidence).
Proof.
  intros Hf. unfold check_owner. destruct field as [name|]; [|done].
  by rewrite (proj2 (owner_spec ids txt name)) by by apply Hf.
Qed.

Lemma action_step r x :
  exists f, action_fate x f /\
    one_step r (validate_action document config (speaker_labels document) r x) add_action ActionItemKind ai_text x f.
Proof.
  unfold validate_action.
  destruct (check_evidence_cases r ActionItemKind (ai_text x) (ai_segment_ids x) (ai_quote x))
    as [[txt Hg]|(why & Hu & ->)]; [|exists (Gone why); split; [done | apply gone_step, add_action_nil]].
  rewrite (check_evidence_grounded _ _ _ _ _ txt) by done.
  destruct (check_owner_spec r ActionItemKind (ai_text x) (owner x) (ai_confidence x) (ai_segment_ids x) txt)
    as (names & o & -> & Ho).
  destruct (is_some (due x) && _) eqn:E.
  - apply andb_true_iff in E as [E1 E2%negb_true_iff].
    eexists (Kept _ (names ++ [_])). split; [|unfold one_step, keep, record_adjustment; simpl; by rewrite app_nil_r, <-app_assoc].
    simpl. split_and!; try done; [by destruct names|]. eexists txt, names, _. split_and!; [apply Hg..|done|done|].
    right. split_and!; try done; [by destruct (due x)|]. rewrite <-(due_spec (ai_segment_ids x)), E2. done.
  - eexists (Kept _ names). split; [|unfold one_step, keep; simpl; by rewrite app_nil_r].
    simpl. split_and!; try done. exists txt, names, []. rewrite app_nil_r. split_and!; [apply Hg..|done|done|].
    left. split_and!; try done. intros Hd. apply (due_spec (ai_segment_ids x)).
    destruct (due x); [|done]. simpl in E. by apply negb_false_iff in E.
Qed.

Lemma action_kept r x :
  action_ok x ->
  validate_action document config (speaker_labels document) r x = mkReport (add_action (extraction r) [x]) (dropped r) (adjusted r).
Proof.
  intros (txt & Hg & Ho & Hd). unfold validate_action.
  rewrite (check_evidence_grounded _ _ _ _ _ txt), check_owner_ok by done.
  destruct (is_some (due x) && _) eqn:E; [|by destruct x].
  apply andb_true_iff in E as [E1 E2%negb_true_iff]. destruct (due x) eqn:Ed; [|done].
  rewrite (proj2 (due_spec (ai_segment_ids x) txt (due_raw x))) in E2; [done|].
  by apply Hd.
Qed.

Lemma question_step r x :
  exists f, question_fate x f /\
    one_step r (validate_question document config (speaker_labels document) r x) add_question OpenQuestionKind oq_text x f.
Proof.
  unfold validate_question.
  destruct (check_evidence_cases r OpenQuestionKind (oq_text x) (oq_segment_ids x) (oq_quote x))
    as [[txt Hg]|(why & Hu & ->)]; [|exists (Gone why); split; [done | apply gone_step, add_question_nil]].
  rewrite (check_evidence_grounded _ _ _ _ _ txt) by done.
  destruct (check_owner_spec r OpenQuestionKind (oq_text x) (raised_by x) (oq_confidence x) (oq_segment_ids x) txt)
    as (notes & o & -> & Ho).
  eexists (Kept _ notes). split; [|unfold one_step, keep; simpl; by rewrite app_nil_r].
  simpl. split_and!; try done. exists txt. split; [apply Hg | done].
Qed.

Lemma question_kept r x :
  question_ok x ->
  validate_question document config (speaker_labels document) r x =
    mkReport (add_question (extraction r) [x]) (dropped r) (adjusted r).
Proof.
  intros (txt & Hg & Ho). unfold validate_question.
  rewrite (check_evidence_grounded _ _ _ _ _ txt), check_owner_ok by done. by destruct x.
Qed.

Lemma decision_kept r x :
  decision_ok x ->
  validate_decision document r x = mkReport (add_decision (extraction r) [x]) (dropped r) (adjusted r).
Proof.
  intros [txt Hg]. unfold validate_decision. by rewrite (check_evidence_grounded _ _ _ _ _ txt).
Qed.

Lemma follow_up_kept r x :
  follow_up_ok x ->
  validate_follow_up document r x = mkReport (add_follow_up (extraction r) [x]) (dropped r) (adjusted r).
Proof.
  intros [txt Hg]. unfold validate_follow_up. by rewrite (check_evidence_grounded _ _ _ _ _ txt).
Qed.

Lemma topic_kept r x :
  topic_ok x ->
  validate_topic document r x = mkReport (add_topic (extraction r) [x]) (dropped r) (adjusted r).
Proof. unfold topic_ok, validate_topic. by destruct (segment document (start_segment_id x)). Qed.

(** Steps that keep an item as it is. *)
Lemma kept_step {X} r (add : Extraction -> list X -> Extraction) kind (txt : X -> string) x :
  one_step r (mkReport (add (extraction r) [x]) (dropped r) (adjusted r)) add kind txt x (Kept x []).
Proof. unfold one_step. simpl. by rewrite !app_nil_r. Qed.

Lemma decision_step r x :
  exists f, plain_fate de_segment_ids de_quote x f /\
    one_step r (validate_decision document r x) add_decision DecisionKind de_text x f.
Proof.
  destruct (check_evidence_cases r DecisionKind (de_text x) (de_segment_ids x) (de_quote x))
    as [Hg|(why & Hu & E)].
  - exists (Kept x []). split; [done|]. rewrite decision_kept by done. apply kept_step.
  - exists (Gone why). split; [done|]. unfold validate_decision. rewrite E. apply gone_step, add_decision_nil.
Qed.

Lemma follow_up_step r x :
  exists f, plain_fate fu_segment_ids fu_quote x f /\
    one_step r (validate_follow_up document r x) add_follow_up FollowUpKind fu_text x f.
Proof.
  destruct (check_evidence_cases r FollowUpKind (fu_text x) (fu_segment_ids x) (fu_quote x))
    as [Hg|(why & Hu & E)].
  - exists (Kept x []). split; [done|]. rewrite follow_up_kept by done. apply kept_step.
  - exists (Gone why). split; [done|]. unfold validate_follow_up. rewrite E. apply gone_step, add_follow_up_nil.
Qed.

Lemma topic_step r x :
  exists f, topic_fate x f /\ one_step r (validate_topic document r x) add_topic TopicKind label x f.
Proof.
  destruct (decide (topic_ok x)) as [Ho|Ho].
  - exists (Kept x []). split; [done|]. rewrite topic_kept by done. apply kept_step.
  - unfold topic_ok, validate_topic in *. destruct (segment _ _) eqn:E; [by destruct Ho|].
    exists (Gone (UnknownSegmentId (start_segment_id x))). split; [done | apply gone_step, add_topic_nil].
Qed.

(** ** The whole pass *)

Definition all_gone {X} (kind : ItemKind) (txt : X -> string) (xs : list X) (fs : list (Fate X)) : list DroppedItem :=
  concat (zip_with (gone kind txt) xs fs).

(** A loop whose every turn leaves what a fate says. *)
Lemma loop_fates {X} (f : ValidationReport -> X -> ValidationReport) (add : Extraction -> list X -> Extraction)
    kind (txt : X -> string) (fate : X -> Fate X -> Prop) l e dr ad :
  (forall e, add e [] = e) -> (forall e k k', add (add e k) k' = add e (k ++ k')) ->
  (forall r x, exists f', fate x f' /\ one_step r (f r x) add kind txt x f') ->
  exists fs, Forall2 fate l fs /\
    fold_left f l (mkReport e dr ad) =
      mkReport (add e (fs ≫= kept)) (dr ++ all_gone kind txt l fs) (ad ++ (fs ≫= noted)).
Proof.
  intros Hnil Happ Hstep. revert e dr ad. induction l as [|x l IH]; intros e dr ad.
  { exists []. split; [done|]. unfold all_gone. simpl. by rewrite Hnil, !app_nil_r. }
  destruct (Hstep (mkReport e dr ad) x) as (f' & Hf & Hs). simpl. rewrite Hs. simpl.
  destruct (IH (add e (kept f')) (dr ++ gone kind txt x f') (ad ++ noted f')) as (fs & Hfs & ->).
  exists (f' :: fs). split; [by constructor|]. unfold all_gone. csimpl. by rewrite Happ, <-!app_assoc.
Qed.

Ltac add_more := intros; unfold add_action, add_decision, add_question, add_follow_up, add_topic; simpl;
  by rewrite <-app_assoc.

(** What a pass that gave each item its fate reports. *)
Definition report_of (e : Extraction) (fa : list (Fate ActionItem)) (fd : list (Fate DecisionItem))
    (fq : list (Fate OpenQuestion)) (ff : list (Fate FollowUp)) (ft : list (Fate Topic)) : ValidationReport :=
  mkReport (mkExtraction (fa ≫= kept) (fd ≫= kept) (fq ≫= kept) (ff ≫= kept) (ft ≫= kept))
    (all_gone ActionItemKind ai_text (action_items e) fa ++ all_gone DecisionKind de_text (decisions e) fd ++
     all_gone OpenQuestionKind oq_text (open_questions e) fq ++ all_gone FollowUpKind fu_text (follow_ups e) ff ++
     all_gone TopicKind label (topics e) ft)
    ((fa ≫= noted) ++ (fd ≫= noted) ++ (fq ≫= noted) ++ (ff ≫= noted) ++ (ft ≫= noted)).

Lemma validate_fates e : exists fa fd fq ff ft,
  Forall2 action_fate (action_items e) fa /\ Forall2 (plain_fate de_segment_ids de_quote) (decisions e) fd /\
  Forall2 question_fate (open_questions e) fq /\ Forall2 (plain_fate fu_segment_ids fu_quote) (follow_ups e) ff /\
  Forall2 topic_fate (topics e) ft /\ validate e document config = report_of e fa fd fq ff ft.
Proof.
  unfold validate, report_of.
  destruct (loop_fates (validate_action document config (speaker_labels document)) add_action ActionItemKind ai_text
    action_fate (action_items e) extraction_default [] []) as (fa & Ha & ->);
    [apply add_action_nil | add_more | apply action_step|].
  edestruct (loop_fates (validate_decision document) add_decision DecisionKind de_text) as (fd & Hd & ->);
    [apply add_decision_nil | add_more | apply decision_step|].
  edestruct (loop_fates (validate_question document config (speaker_labels document)) add_question OpenQuestionKind oq_text)
    as (fq & Hq & ->); [apply add_question_nil | add_more | apply question_step|].
  edestruct (loop_fates (validate_follow_up document) add_follow_up FollowUpKind fu_text) as (ff & Hf & ->);
    [apply add_follow_up_nil | add_more | apply follow_up_step|].
  edestruct (loop_fates (validate_topic document) add_topic TopicKind label) as (ft & Ht & ->);
    [apply add_topic_nil | add_more | apply topic_step|].
  exists fa, fd, fq, ff, ft. split_and!; [done..|]. simpl. by rewrite <-!app_assoc.
Qed.

(** Whatever is kept is verified. *)
Lemma kept_ok {X} (fate : X -> Fate X -> Prop) (ok : X -> Prop) xs fs :
  (forall x y notes, fate x (Kept y notes) -> ok y) -> Forall2 fate xs fs -> Forall ok (fs ≫= kept).
Proof.
  intros Hok Hfs. induction Hfs as [|x f xs fs Hf _ IH]; [constructor|]. rewrite bind_cons. apply Forall_app. split; [|done].
  destruct f as [y notes|]; simpl; [|constructor]. constructor; [by eapply Hok | constructor].
Qed.

Lemma validate_ok e : extraction_ok (extraction (validate e document config)).
Proof.
  destruct (validate_fates e) as (fa & fd & fq & ff & ft & Ha & Hd & Hq & Hf & Ht & ->). simpl.
  split_and!; simpl; (eapply kept_ok; [|done]); intros x y notes; simpl.
  - intros (_ & Ei & Eq & _ & txt & ns & ds & Hg & _ & Hn & Hdt). exists txt. rewrite Ei, Eq. split; [done|]. split.
    + intros name E. destruct Hn as [(E' & _ & Hat)|(? & _ & _ & E' & _)]; [|congruence]. apply Hat. congruence.
    + intros E. destruct Hdt as [(E' & -> & _ & Hdd)|(_ & _ & E' & _)]; [apply Hdd; congruence | congruence].
  - intros (-> & _ & Hg). exact Hg.
  - intros (_ & Ei & Eq & _ & txt & Hg & Hn). exists txt. rewrite Ei, Eq. split; [done|].
    intros name E. destruct Hn as [(E' & _ & Hat)|(? & _ & _ & E' & _)]; [|congruence]. apply Hat. congruence.
  - intros (-> & _ & Hg). exact Hg.
  - by intros (-> & _ & Hg).
Qed.

(** A loop over verified items keeps them as they are. *)
Lemma loop_keeps {X} (f : ValidationReport -> X -> ValidationReport) (add : Extraction -> list X -> Extraction)
    (ok : X -> Prop) l e dr ad :
  (forall e, add e [] = e) -> (forall e k x, add (add e k) [x] = add e (k ++ [x])) ->
  (forall r x, ok x -> f r x = mkReport (add (extraction r) [x]) (dropped r) (adjusted r)) ->
  Forall ok l -> fold_left f l (mkReport e dr ad) = mkReport (add e l) dr ad.
Proof.
  intros Hnil Happ Hkeep Hl. induction l as [|x l IH] using rev_ind; [by rewrite Hnil|].
  apply Forall_app in Hl as [Hl Hx]. apply Forall_cons in Hx as [Hx _].
  rewrite fold_left_app, IH by done. simpl. by rewrite Hkeep, <-Happ.
Qed.

Lemma validate_keeps e : extraction_ok e -> validate e document config = mkReport e [] [].
Proof.
  intros (Ha & Hd & Hq & Hf & Ht). unfold validate.
  rewrite (loop_keeps _ add_action action_ok); [|apply add_action_nil|add_more|apply action_kept|done].
  rewrite (loop_keeps _ add_decision decision_ok); [|apply add_decision_nil|add_more|apply decision_kept|done].
  rewrite (loop_keeps _ add_question question_ok); [|apply add_question_nil|add_more|apply question_kept|done].
  rewrite (loop_keeps _ add_follow_up follow_up_ok); [|apply add_follow_up_nil|add_more|apply follow_up_kept|done].
  rewrite (loop_keeps _ add_topic topic_ok); [|apply add_topic_nil|add_more|apply topic_kept|done].
  by destruct e.
Qed.

End Verified.

(** ** Properties *)

(** C14: whatever a model returns, the validator gives each item its fate and reports
    exactly that.  An item goes only for lack of evidence - it cites nothing, a
    segment that does not exist, or segments that do not contain its quote up to case
    and white space - and is on the list of dropped items under its own kind, text
    and reason.  Every other item is kept, in order, with its text, citations and
    quote; a name on it stands if it is a speaker's or made of proper nouns of those
    segments and they are not too uncertain, a date if its phrase is there, and
    otherwise is cleared, the item marked implied and that noted.  So whatever
    survives is verified, and an extraction verified already is returned unchanged. *)
Theorem surviving_items_are_grounded `{Lowercase, Uppercase, UnicodeTables} e document config :
  (exists fa fd fq ff ft,
     Forall2 (action_fate document config) (action_items e) fa /\
     Forall2 (plain_fate document de_segment_ids de_quote) (decisions e) fd /\
     Forall2 (question_fate document config) (open_questions e) fq /\
     Forall2 (plain_fate document fu_segment_ids fu_quote) (follow_ups e) ff /\
     Forall2 (topic_fate document) (topics e) ft /\
     validate e document config = report_of e fa fd fq ff ft) /\
  extraction_ok document config (extraction (validate e document config)) /\
  (extraction_ok document config e -> validate e document config = mkReport e [] []).
Proof. split; [apply validate_fates|]. split; [apply validate_ok | apply validate_keeps]. Qed.

(** ** Examples *)

Module Meeting.

Definition transcript : TranscriptDocument :=
  from_segments [said "a" System 0 0 "Somebody needs to own the migration.";
                 said "b" Mic 2000 0 "I spoke to Priya and she will write it by Friday.";
                 said "c" System 4000 0 "Then we ship."].

Definition action (txt : string) (who when raw : option string) (ids : list nat) (quote : string) : ActionItem :=
  mkActionItem txt who when raw Explicit ids quote.

Definition answer : Extraction :=
  mkExtraction
    [action "Write the migration" (Some "Priya") (Some "2026-11-20") (Some "by  friday") [1]%nat "she will WRITE it";
     action "Own the migration" (Some "Somebody") (Some "2026-11-20") (Some "next week") [0]%nat "own the migration";
     action "Hire a consultant" None None None [1]%nat "hire a consultant";
     action "Ship" None None None [9]%nat "we ship"]
    [] [] [] [mkTopic "Migration" 0; mkTopic "Launch" 7].

(** A name at the start of a sentence does not count, an invented date is cleared,
    an invented quote and an invented segment are dropped. *)
Example the_rules_at_work :
  let r := validate answer transcript validator_default in
  action_items (extraction r) =
    [action "Write the migration" (Some "Priya") (Some "2026-11-20") (Some "by  friday") [1]%nat "she will WRITE it";
     mkActionItem "Own the migration" None None None Implied [0]%nat "own the migration"] /\
  reason <$> dropped r = [QuoteNotInCitedSegments; UnknownSegmentId 9; UnknownSegmentId 7] /\
  adjustment <$> adjusted r = [OwnerUnverifiable; DueUnverifiable].
Proof. vm_compute. done. Qed.

(** An item with a blank quote is kept whatever its text says: the empty string is
    a substring of every segment. *)
Lemma blank_quote_survives :
  let item := action "Sarah will rewrite the backend" None None None [2]%nat "  " in
  action_items (extraction (validate (mkExtraction [item] [] [] [] []) transcript validator_default)) = [item].
Proof. vm_compute. reflexivity. Qed.

(** A quote that no one segment contains is kept when the cited segments contain it
    end to end, in the order of the citation. *)
Lemma quote_may_span_segments :
  let item := action "Ship" None None None [2; 0]%nat "we ship. Somebody needs" in
  action_items (extraction (validate (mkExtraction [item] [] [] [] []) transcript validator_default)) = [item].
Proof. vm_compute. reflexivity. Qed.

End Meeting.
