(* ===== verification/Adapter.v ===== *)
(** * fotw-summarize: requests, answers and their provenance

    Models [crates/fotw-summarize/src/adapter.rs], the errors of
    [crates/fotw-summarize/src/error.rs], and the parts of
    [crates/fotw-summarize/src/pipeline.rs] that read an answer: citations moved
    from a chunk to the document, [[seg:N]] markers written and read back, and the
    JSON object found inside a wrapped answer.  The parser of [serde_json] is the
    class [ExtractionParser]. *)

From S2P Require Import Prelude Float32 Float64 Text SttTypes Budget Document Chunk Evidence.

Local Open Scope Z_scope.

Inductive SummarizeError :=
| CitationsWithStructuredOutput
| UnsupportedCapability (capability : string)
| ContextOverflow (needed usable : Z)
| Transport (detail : string)
| Http (status : Z) (body : string)
| Decode (detail : string)
| SchemaViolation (detail : string)
| Truncated (detail : string).

Definition summarize_is_retryable (self : SummarizeError) : bool :=
  match self with
  | Transport _ | SchemaViolation _ => true
  | Http status _ => (status =? 429) || (500 <=? status)
  | CitationsWithStructuredOutput | UnsupportedCapability _ | ContextOverflow _ _ | Decode _ | Truncated _ => false
  end.

Record DocumentPayload := mkPayload {
  pl_document : TranscriptDocument;
  pl_indices : list nat;
  pl_cache_ttl : CacheTtl;
  pl_title : string;
}.

(** The only schema a request carries is [EXTRACTION_SCHEMA]. *)
Record LlmRequest := mkRequest {
  rq_model : string;
  rq_system : string;
  rq_document : option DocumentPayload;
  rq_user_notes : option string;
  rq_instruction : string;
  rq_citations : bool;
  rq_output_format : bool;
  rq_effort : option Effort;
  rq_max_output_tokens : Z;
}.

Definition request_validate (self : LlmRequest) (capabilities : Capabilities) : result unit SummarizeError :=
  if rq_citations self && rq_output_format self then Err CitationsWithStructuredOutput
  else if rq_citations self && negb (native_citations capabilities) then Err (UnsupportedCapability "native_citations")
  else if rq_output_format self && negb (strict_json_schema capabilities) then
    Err (UnsupportedCapability "strict_json_schema")
  else if is_some (rq_effort self) && negb (supports_effort capabilities) then
    Err (UnsupportedCapability "supports_effort")
  else Ok tt.

Record Citation := mkCitation {
  start_block_index : nat;
  end_block_index : nat;
  ct_text : string;
  document_index : nat;
}.

(** [(start..end.max(start + 1))] *)
Definition segment_indices (self : Citation) : list nat :=
  let stop := Nat.max (end_block_index self) (start_block_index self + 1) in
  seq (start_block_index self) (stop - start_block_index self).

Record AnnotatedBlock := mkBlock { bl_text : string; citations : list Citation }.

Record Usage := mkUsage {
  input_tokens : Z;
  output_tokens : Z;
  cache_creation_input_tokens : Z;
  cache_read_input_tokens : Z;
}.
Definition usage_default : Usage := mkUsage 0 0 0 0.
Definition usage_add (a b : Usage) : Usage :=
  mkUsage (wadd (input_tokens a) (input_tokens b)) (wadd (output_tokens a) (output_tokens b))
    (wadd (cache_creation_input_tokens a) (cache_creation_input_tokens b))
    (wadd (cache_read_input_tokens a) (cache_read_input_tokens b)).

Record LlmResponse := mkResponse {
  blocks : list AnnotatedBlock;
  stop_reason : option string;
  usage : Usage;
}.

Definition response_text (self : LlmResponse) : string := join "" (bl_text <$> blocks self).

Definition ensure_complete (self : LlmResponse) : result unit SummarizeError :=
  if decide (stop_reason self = Some "max_tokens") then
    Err (Truncated "hit max_tokens; the document is incomplete")
  else if decide (stop_reason self = Some "refusal") then Err (Truncated "the model declined to answer")
  else Ok tt.

(** ** Citations of a chunk *)

Definition remap_citation (chunk : Chunk) (citation : Citation) : option Citation :=
  start ← to_global chunk (start_block_index citation);
  let stop := match to_global chunk (end_block_index citation) with
              | Some stop => stop
              | None => match last (c_segments chunk) with Some l => (l + 1)%nat | None => (start + 1)%nat end
              end in
  Some (mkCitation start (Nat.max stop (start + 1)) (ct_text citation) (document_index citation)).

Definition remap_citations (bs : list AnnotatedBlock) (chunk : Chunk) : list AnnotatedBlock :=
  (fun block => mkBlock (bl_text block) (omap (remap_citation chunk) (citations block))) <$> bs.

(** ** Markers *)

Definition cited_ids (block : AnnotatedBlock) : list nat :=
  dedup (merge_sort le (citations block ≫= segment_indices)).

Definition with_marker (block : AnnotatedBlock) : string :=
  match citations block with
  | [] => bl_text block
  | _ => trim_end (bl_text block) +:+ " [[seg:" +:+ join "," (pretty <$> cited_ids block) +:+ "]]"
  end.

Definition NEWLINE : string := String (val_byte 10) EmptyString.

Definition with_markers (bs : list AnnotatedBlock) : string := join NEWLINE (with_marker <$> bs).

Definition point_citation (i : nat) : Citation := mkCitation i (i + 1) EmptyString 0.

(** [after[..close].split(',')], each trimmed and parsed. *)
Definition marker_ids (list_ : string) : list Citation :=
  omap (fun part => point_citation ∘ Z.to_nat <$> parse_u64 (trim part)) (split (fun c => c =? 44) list_).

(** The loop over one line; each round passes an opening, so the line's length is
    rounds enough. *)
Fixpoint parse_line_loop (fuel : nat) (clean rest : string) (cs : list Citation) : string * list Citation :=
  match fuel with
  | O => (clean +:+ rest, cs)
  | S fuel =>
      match split_at "[[seg:" rest with
      | None => (clean +:+ rest, cs)
      | Some (before, after) =>
          match split_at "]]" after with
          | Some (ids, rest) => parse_line_loop fuel (clean +:+ before) rest (cs ++ marker_ids ids)
          | None => (clean +:+ before +:+ ("[[seg:" +:+ after), cs)
          end
      end
  end.

Definition parse_marker_line (line : string) : AnnotatedBlock :=
  let '(clean, cs) := parse_line_loop (S (String.length line)) EmptyString line [] in
  mkBlock (trim_end clean) cs.

Definition parse_markers (text : string) : list AnnotatedBlock := parse_marker_line <$> str_lines text.

(** ** The answer of an extraction call *)

(** [serde_json::from_str::<Extraction>]: the value, or the error's text. *)
Class ExtractionParser := { from_str : string -> Extraction + string }.

Record Scan := mkScan { depth : nat; in_string : bool; escaped : bool }.

(** One byte of [balanced_end]; [None] when the depth goes below zero or the object
    is closed, which the flag tells apart. *)
Inductive ScanStep := Continue (s : Scan) | Underflow | Closes.

Definition scan_byte (s : Scan) (b : ascii) : ScanStep :=
  let v := byte_val b in
  if in_string s then
    if escaped s then Continue (mkScan (depth s) true false)
    else if v =? 92 then Continue (mkScan (depth s) true true)
    else if v =? 34 then Continue (mkScan (depth s) false false)
    else Continue s
  else if v =? 34 then Continue (mkScan (depth s) true (escaped s))
  else if v =? 123 then Continue (mkScan (S (depth s)) (in_string s) (escaped s))
  else if v =? 125 then
    match depth s with
    | O => Underflow
    | S O => Closes
    | S d => Continue (mkScan d (in_string s) (escaped s))
    end
  else Continue s.

(** The object that opens at the start of the string. *)
Fixpoint scan_object (s : Scan) (str : string) : option string :=
  match str with
  | EmptyString => None
  | String b str =>
      match scan_byte s b with
      | Continue s => String b <$> scan_object s str
      | Underflow => None
      | Closes => Some (String b EmptyString)
      end
  end.
Definition balanced_object (str : string) : option string := scan_object (mkScan 0 false false) str.

(** Every opening brace is a candidate, the first that parses wins. *)
Fixpoint embedded_object `{ExtractionParser} (text : string) : option Extraction :=
  match text with
  | EmptyString => None
  | String b rest =>
      let candidate :=
        if byte_val b =? 123 then
          match balanced_object text with
          | Some slice => match from_str slice with inl e => Some e | inr _ => None end
          | None => None
          end
        else None in
      match candidate with Some e => Some e | None => embedded_object rest end
  end.

Definition parse_extraction `{ExtractionParser} (response : LlmResponse) : result Extraction SummarizeError :=
  let trimmed := trim (response_text response) in
  if str_is_empty trimmed then Ok extraction_default
  else
    match from_str trimmed with
    | inl e => Ok e
    | inr strict =>
        match embedded_object trimmed with Some e => Ok e | None => Err (SchemaViolation strict) end
    end.

Definition merge_extraction (into from : Extraction) : Extraction :=
  mkExtraction (action_items into ++ action_items from) (decisions into ++ decisions from)
    (open_questions into ++ open_questions from) (follow_ups into ++ follow_ups from) (topics into ++ topics from).
