(* ===== verification/AdapterProofs.v ===== *)
(** * fotw-summarize: provenance survives the map-reduce

    Proofs about [Adapter]: a citation moved from a chunk to the document names the
    blocks the model was shown, markers written are read back, and an extraction is
    found inside the prose around it. *)

From S2P Require Import Prelude Float32 Float64 Text SttTypes Budget Document Chunk Evidence Adapter.

Local Open Scope Z_scope.

(** ** Chunks are contiguous *)

Lemma seq_middle (l1 l2 l3 : list nat) n :
  l1 ++ l2 ++ l3 = seq 0 n -> l2 = seq (length l1) (length l2) /\ (length l1 + length l2 <= n)%nat.
Proof.
  intros E. assert (length l1 + (length l2 + length l3) = n)%nat as Hn.
  { pose proof (f_equal length E) as El. rewrite !length_app, length_seq in El. lia. }
  split; [|lia]. rewrite <-Hn, !seq_app in E.
  apply app_inj_1 in E as [_ E]; [|by rewrite length_seq].
  apply app_inj_1 in E as [E _]; [done|by rewrite length_seq].
Qed.

Lemma chunk_contiguous raw p c capabilities :
  let d := from_segments raw in
  zsum (block_tokens <$> segments d) <= u64_max ->
  plan d capabilities = Some p -> c ∈ plan_chunks p d ->
  exists a, c_segments c = seq a (length (c_segments c)) /\ (a + length (c_segments c) <= doc_len d)%nat.
Proof.
  intros d Hsum Hp Hc. unfold plan in Hp. destruct (fits_single_shot _ _).
  - injection Hp as <-. apply list_elem_of_singleton in Hc as ->. exists O. simpl.
    unfold all_indices. rewrite length_seq. by split.
  - destruct (fold_turns_tokens (segments d) []) as [Hpos Htok]; [constructor|done|].
    destruct (pack_spec (speaker_turns d) (chunk_budget_tokens capabilities)) as (chunks & E & Hok & _ & _);
      [done|unfold speaker_turns; rewrite Htok; done|].
    rewrite E in Hp. injection Hp as <-. simpl in Hc. rewrite Forall_forall in Hok.
    destruct (Hok c Hc) as (a & q & b & Hq & Hb & _ & Es & _).
    exists (length (segments_of (turn_run (speaker_turns d) 0 a))). rewrite Es.
    apply (seq_middle _ _ (segments_of (turn_run (speaker_turns d) b (length (speaker_turns d))))).
    rewrite <-!segments_of_app, <-(run_split _ a b), <-(run_split _ 0 a) by lia.
    rewrite run_tail by lia. apply speaker_turns_cover.
Qed.

(** ** Citations *)

Lemma omap_seq_lookup (a n i k : nat) :
  omap (fun j => seq a n !! j) (seq i k) = seq (a + i) (Nat.min k (n - i)).
Proof.
  revert i. induction k as [|k IH]; intros i; [done|]. cbn [seq]. csimpl.
  destruct (decide (i < n)%nat) as [Hlt|Hge].
  - rewrite lookup_seq_lt by done. rewrite IH. transitivity (seq (a + i) (S (Nat.min k (n - S i)))).
    + simpl. by rewrite Nat.add_succ_r.
    + f_equal. destruct (n - i)%nat eqn:?; lia.
  - rewrite lookup_seq_ge by lia. rewrite IH. replace (n - i)%nat with O by lia.
    by replace (Nat.min k (n - S i)) with O by lia.
Qed.

Lemma remap_spec c citation a n :
  c_segments c = seq a n ->
  match remap_citation c citation with
  | Some citation' => segment_indices citation' = omap (to_global c) (segment_indices citation)
  | None => (n <= start_block_index citation)%nat
  end.
Proof.
  intros E. unfold remap_citation, to_global, segment_indices. rewrite E. destruct citation as [s t x di]. simpl.
  destruct (decide (s < n)%nat) as [Hs|Hs].
  - rewrite (lookup_seq_lt a n s) by done. simpl. rewrite omap_seq_lookup. f_equal.
    destruct (decide (t < n)%nat) as [Ht|Ht].
    + rewrite (lookup_seq_lt a n t) by done. lia.
    + rewrite (lookup_seq_ge a n t) by lia. destruct n as [|n]; [lia|].
      rewrite seq_S, last_snoc. lia.
  - rewrite (lookup_seq_ge a n s) by lia. simpl. lia.
Qed.

(** The blocks of known segments are in place. *)
Lemma blocks_for_lookup d ids i :
  Forall (fun j => (j < doc_len d)%nat) ids ->
  blocks_for d ids !! i = (j ← ids !! i; block_text <$> segment d j).
Proof.
  intros H. revert i. unfold blocks_for. induction H as [|j ids Hj _ IH]; intros i; [done|]. csimpl.
  destruct (lookup_lt_is_Some_2 (segments d) j Hj) as [b Hb]. unfold segment at 1. rewrite Hb.
  destruct i; csimpl; [unfold segment; by rewrite Hb|apply IH].
Qed.

Lemma omap_lookup_blocks d ids l :
  Forall (fun j => (j < doc_len d)%nat) ids ->
  omap (fun i => blocks_for d ids !! i) l = blocks_for d (omap (fun i => ids !! i) l).
Proof.
  intros H. induction l as [|i l IH]; [done|]. csimpl. rewrite blocks_for_lookup, IH by done.
  destruct (ids !! i) as [j|] eqn:E; csimpl; [|done].
  rewrite Forall_lookup in H. destruct (lookup_lt_is_Some_2 (segments d) j (H _ _ E)) as [b Hb].
  unfold segment at 1. rewrite Hb. unfold blocks_for. csimpl. unfold segment at 2. by rewrite Hb.
Qed.

(** C31: a citation moved from a chunk to the whole document names exactly the text
    the model was shown at the positions it cited; a citation of a position the
    chunk does not have is left out. *)
Theorem citations_name_what_was_shown raw capabilities p c citation :
  let d := from_segments raw in
  zsum (block_tokens <$> segments d) <= u64_max ->
  plan d capabilities = Some p -> c ∈ plan_chunks p d ->
  match remap_citation c citation with
  | Some citation' =>
      blocks_for d (segment_indices citation') =
        omap (fun i => blocks_for d (c_segments c) !! i) (segment_indices citation)
  | None => blocks_for d (c_segments c) !! start_block_index citation = None
  end.
Proof.
  intros d Hsum Hp Hc. destruct (chunk_contiguous raw p c capabilities Hsum Hp Hc) as (a & Es & Ha).
  assert (Forall (fun j => (j < doc_len d)%nat) (c_segments c)) as Hk.
  { rewrite Es. apply Forall_forall. intros j Hj%elem_of_seq. fold d in Ha. lia. }
  pose proof (remap_spec c citation a _ Es) as Hr. destruct (remap_citation c citation).
  - rewrite omap_lookup_blocks by done. by rewrite Hr.
  - rewrite blocks_for_lookup by done. by rewrite (lookup_ge_None_2 (c_segments c)).
Qed.

Definition second_chunk : Chunk :=
  default (mkChunk [] 0 0) (p ← plan (from_segments short_exchange) small_model;
                            plan_chunks p (from_segments short_exchange) !! 1%nat).

Lemma citations_name_what_was_shown_witness :
  let d := from_segments short_exchange in
  exists citation', remap_citation second_chunk (mkCitation 0 2 "and two more three" 0) = Some citation' /\
    segment_indices citation' <> [0; 1]%nat /\
    blocks_for d (segment_indices citation') =
      omap (fun i => blocks_for d (c_segments second_chunk) !! i) [0; 1]%nat.
Proof.
  intros d.
  assert (exists p, plan d small_model = Some p /\ second_chunk ∈ plan_chunks p d) as (p & Hp & Hc).
  { eexists. split; [vm_compute; reflexivity|]. apply (list_elem_of_lookup_2 _ 1). vm_compute. reflexivity. }
  pose proof (citations_name_what_was_shown short_exchange small_model p second_chunk
                (mkCitation 0 2 "and two more three" 0)) as Hr.
  assert (exists c', remap_citation second_chunk (mkCitation 0 2 "and two more three" 0) = Some c' /\
            segment_indices c' <> [0; 1]%nat) as (c' & Ec & Hne).
  { eexists. split; [vm_compute; reflexivity|]. vm_compute. congruence. }
  rewrite Ec in Hr. exists c'. split; [exact Ec|]. split; [exact Hne|].
  apply Hr; [apply Z.leb_le; vm_compute; reflexivity|exact Hp|exact Hc].
Defined.

(** ** Reading a number that was written *)

Definition is_digit (a : ascii) : Prop := 48 <= byte_val a <= 57.

Fixpoint digits (s : string) : Prop :=
  match s with EmptyString => True | String a s => is_digit a /\ digits s end.

Lemma pretty_N_char_digit n : (n < 10)%N -> byte_val (pretty_N_char n) = 48 + Z.of_N n.
Proof.
  destruct n as [|p]; [done|]. do 4 (destruct p as [p|p|]; try done; try lia).
Qed.

Lemma digit_of_N n : (n < 10)%N -> is_digit (pretty_N_char n).
Proof. intros H. unfold is_digit. rewrite pretty_N_char_digit by done. lia. Qed.

Lemma pretty_go_digits (n : N) s : digits s -> digits (pretty_N_go n s).
Proof.
  revert s. induction n as [n IH] using (well_founded_induction N.lt_wf_0). intros s Hs.
  destruct (decide (n = 0%N)) as [->|Hn]; [by rewrite pretty_N_go_0|].
  rewrite pretty_N_go_step by lia. apply IH; [apply N.div_lt; lia|].
  split; [|done]. apply digit_of_N, N.mod_lt. done.
Qed.

Lemma pretty_go_parse (n : N) s :
  Z.of_N n <= u64_max -> digits s -> parse_digits 0 (pretty_N_go n s) = parse_digits (Z.of_N n) s.
Proof.
  revert s. induction n as [n IH] using (well_founded_induction N.lt_wf_0). intros s Hb Hs.
  destruct (decide (n = 0%N)) as [->|Hn]; [by rewrite pretty_N_go_0|].
  rewrite pretty_N_go_step by lia. pose proof (N.mod_lt n 10 ltac:(done)) as Hm. pose proof (N.div_mod n 10 ltac:(done)) as Hd.
  assert (n `div` 10 < n)%N by (apply N.div_lt; lia).
  remember (n `div` 10)%N as q. remember (n `mod` 10)%N as r. clear Heqq Heqr.
  rewrite IH; [|lia|lia|].
  2: { split; [|done]. by apply digit_of_N. }
  cbn [parse_digits]. rewrite pretty_N_char_digit by lia.
  replace (48 + Z.of_N r - 48) with (Z.of_N r) by lia.
  rewrite (proj2 (Z.leb_le 0 _)), (proj2 (Z.leb_le _ 9)) by lia. cbn [andb].
  replace (Z.of_N q * 10 + Z.of_N r) with (Z.of_N n) by lia.
  by rewrite (proj2 (Z.leb_le _ u64_max)).
Qed.

Lemma pretty_nat_digits (n : nat) : digits (pretty n) /\ pretty n <> EmptyString.
Proof.
  change (pretty n) with (pretty (N.of_nat n)). unfold pretty, pretty_N. case_decide.
  - done.
  - split; [by apply pretty_go_digits|].
    rewrite pretty_N_go_step by lia. intros Hz.
    assert (forall (m : N) s, (String.length s <= String.length (pretty_N_go m s))%nat) as Hl.
    { induction m as [m IH] using (well_founded_induction N.lt_wf_0). intros s.
      destruct (decide (m = 0%N)) as [->|]; [by rewrite pretty_N_go_0|].
      rewrite pretty_N_go_step by lia. etrans; [|apply IH, N.div_lt; lia]. simpl. lia. }
    specialize (Hl (N.of_nat n `div` 10)%N (String (pretty_N_char (N.of_nat n `mod` 10)) "")).
    rewrite Hz in Hl. simpl in Hl. lia.
Qed.

Lemma digits_parse s z : digits s -> s <> EmptyString -> parse_digits 0 s = Some z -> parse_u64 s = Some z.
Proof.
  destruct s as [|a s]; [done|]. intros [Ha _] _ Hp. unfold parse_u64. unfold is_digit in Ha.
  destruct (Z.eqb_spec (byte_val a) 43); [lia|done].
Qed.

Lemma parse_pretty (n : nat) : Z.of_nat n <= u64_max -> parse_u64 (pretty n) = Some (Z.of_nat n).
Proof.
  intros Hb. destruct (pretty_nat_digits n) as [Hd Hne]. apply digits_parse; [done..|].
  change (pretty n) with (pretty (N.of_nat n)). unfold pretty, pretty_N. case_decide as E.
  - assert (n = O) as -> by lia. done.
  - rewrite pretty_go_parse by (done || lia). simpl. by rewrite nat_N_Z.
Qed.

(** ** Strings *)

Lemma is_str_app a b : is_str a -> is_str b -> is_str (a +:+ b).
Proof.
  intros (ca & Ha & ->) (cb & Hb & ->). exists (ca ++ cb). rewrite utf8_app. split; [by apply Forall_app|done].
Qed.

Lemma chars_app a b : is_str a -> chars (a +:+ b) = chars a ++ chars b.
Proof. intros (ca & Ha & ->). by rewrite chars_utf8_app, chars_utf8. Qed.

Lemma digits_chars s :
  digits s -> is_str s /\ Forall (fun c => 48 <= c <= 57) (chars s).
Proof.
  induction s as [|a s IH]; intros Hd; [split; [by exists []|constructor]|].
  destruct Hd as [Ha Hs]. destruct (IH Hs) as [(cs & Hcs & E) Hf]. unfold is_digit in Ha.
  cbn [chars]. rewrite (proj2 (Z.ltb_lt _ 128)) by lia. split; [|by constructor].
  exists (byte_val a :: cs). split; [constructor; [unfold is_char; lia|done]|].
  simpl. unfold utf8_char. rewrite (proj2 (Z.ltb_lt _ 128)) by lia. rewrite val_byte_val, E. done.
Qed.

Lemma trim_start_none p cs : Forall (fun c => p c = false) cs -> trim_start_chars p cs = cs.
Proof. destruct 1 as [|c cs Hc _]; [done|]. simpl. by rewrite Hc. Qed.

Lemma digits_trim s : digits s -> trim s = s.
Proof.
  intros [Hs Hd]%digits_chars. apply is_str_chars in Hs as [_ Hu]. unfold trim, trim_chars.
  assert (Forall (fun c => is_whitespace c = false) (chars s)) as Hw.
  { eapply Forall_impl; [exact Hd|]. intros c Hc. cbv beta in Hc. unfold is_whitespace.
    apply not_true_iff_false. repeat rewrite ?orb_true_iff, ?andb_true_iff, ?Z.leb_le, ?Z.eqb_eq. lia. }
  rewrite (trim_start_none _ (chars s)) by done.
  rewrite trim_start_none by (by rewrite <-Permutation_rev). by rewrite rev_involutive.
Qed.

(** The text before trailing white space. *)
Lemma trim_end_space s : is_str s -> trim_end (s +:+ " ") = trim_end s.
Proof.
  intros Hs. unfold trim_end. rewrite chars_app by done. rewrite rev_app_distr. done.
Qed.

Lemma last_rev_head {A} (l : list A) : last (rev l) = head l.
Proof. destruct l as [|x l]; [done|]. simpl. by rewrite last_snoc. Qed.

Lemma trim_end_last s c : is_str s -> trim_end s = s -> last (chars s) = Some c -> is_whitespace c = false.
Proof.
  intros Hs Ht Hl. apply is_str_chars in Hs as [Hc Hu]. unfold trim_end in Ht.
  assert (Forall is_char (rev (trim_start_chars is_whitespace (rev (chars s))))) as Hc'.
  { rewrite <-Permutation_rev. assert (Forall is_char (rev (chars s))) as Hr by by rewrite <-Permutation_rev.
    clear Ht Hl. induction Hr as [|x l Hx Hl' IH]; [constructor|]. simpl. case_match; [done|by constructor]. }
  apply (f_equal chars) in Ht. rewrite chars_utf8 in Ht by done.
  rewrite <-Ht in Hl. clear Ht Hc Hc' Hu. rewrite last_rev_head in Hl.
  induction (rev (chars s)) as [|x l IH]; [done|]. simpl in Hl. destruct (is_whitespace x) eqn:E; [auto|].
  simpl in Hl. congruence.
Qed.

(** ** Finding a pattern *)

Lemma strip_prefix_self p r : strip_prefix p (p +:+ r) = Some r.
Proof. induction p as [|c p IH]; [done|]. simpl. by rewrite decide_True. Qed.

Lemma strip_prefix_spec p s r : strip_prefix p s = Some r <-> s = p +:+ r.
Proof.
  revert s. induction p as [|c p IH]; intros s; simpl; [by split; intros [= ->]|].
  destruct s as [|c' s]; [done|]. case_decide as E; [subst c'|].
  - rewrite IH. split; [by intros ->|by intros [= ->]].
  - split; [done|]. by intros [= <- _].
Qed.

Lemma split_at_eq p s :
  split_at p s =
    match strip_prefix p s with
    | Some after => Some (EmptyString, after)
    | None => match s with
              | EmptyString => None
              | String a s => '(before, after) ← split_at p s; Some (String a before, after)
              end
    end.
Proof. by destruct s. Qed.

(** The first occurrence is where it is written, if it starts nowhere before. *)
Lemma split_at_first p t r :
  (forall a b, t = a +:+ b -> b <> EmptyString -> strip_prefix p (b +:+ (p +:+ r)) = None) ->
  split_at p (t +:+ (p +:+ r)) = Some (t, r).
Proof.
  intros H. induction t as [|c t IH]; rewrite split_at_eq.
  - change (EmptyString +:+ (p +:+ r)) with (p +:+ r). by rewrite strip_prefix_self.
  - rewrite (H EmptyString (String c t)) by done.
    change (String c t +:+ (p +:+ r)) with (String c (t +:+ (p +:+ r))).
    cbv beta iota. rewrite IH; [done|]. intros a b -> Hb. by apply (H (String c a)).
Qed.

Lemma split_at_none p s : ~ substring p s -> split_at p s = None.
Proof.
  induction s as [|c s IH]; intros H; rewrite split_at_eq.
  - destruct (strip_prefix p EmptyString) as [r|] eqn:E; [|done].
    apply strip_prefix_spec in E. destruct H. exists EmptyString, r. exact E.
  - destruct (strip_prefix p (String c s)) as [r|] eqn:E.
    + apply strip_prefix_spec in E. destruct H. by exists EmptyString, r.
    + rewrite IH; [done|]. intros (a & b & ->). apply H. by exists (String c a), b.
Qed.

Fixpoint lacks (x : ascii) (s : string) : Prop :=
  match s with EmptyString => True | String c s => c <> x /\ lacks x s end.

Lemma lacks_app x a b : lacks x (a +:+ b) <-> lacks x a /\ lacks x b.
Proof.
  induction a as [|c a IH]; [by split; [|intros [_ ?]]|].
  change (String c a +:+ b) with (String c (a +:+ b)). simpl. rewrite IH. tauto.
Qed.

(** A pattern that lacks a byte and reaches past one ends before it. *)
Lemma strip_prefix_short p b x r z :
  lacks x p -> strip_prefix p (b +:+ String x r) = Some z -> exists y, b = p +:+ y.
Proof.
  revert b. induction p as [|c p IH]; intros b Hl Hs; [by exists b|]. destruct Hl as [Hc Hl].
  destruct b as [|c' b].
  - change (EmptyString +:+ String x r) with (String x r) in Hs. simpl in Hs. by rewrite decide_False in Hs.
  - change (String c' b +:+ String x r) with (String c' (b +:+ String x r)) in Hs. simpl in Hs.
    case_decide as E; [subst c'|done]. apply IH in Hs as [y ->]; [|done]. by exists y.
Qed.

Lemma string_app_split (a1 a2 b1 : string) x :
  a1 +:+ a2 = b1 +:+ String x EmptyString -> a2 <> EmptyString ->
  exists m, a2 = m +:+ String x EmptyString /\ b1 = a1 +:+ m.
Proof.
  revert b1. induction a1 as [|c a1 IH]; intros b1 E Hne; [by exists b1|].
  destruct b1 as [|c' b1].
  - change (String c a1 +:+ a2 = String x EmptyString) in E. injection E as _ E. by destruct a1, a2.
  - change (String c (a1 +:+ a2) = String c' (b1 +:+ String x EmptyString)) in E. injection E as -> E.
    destruct (IH b1 E Hne) as (m & -> & ->). by exists m.
Qed.

(** The marker is found at its place in a text that has none. *)
Lemma marker_found t r :
  ~ substring "[[seg:" t ->
  split_at "[[seg:" ((t +:+ " ") +:+ ("[[seg:" +:+ r)) = Some (t +:+ " ", r).
Proof.
  intros Hn. apply split_at_first. intros a b E Hb.
  destruct (string_app_split a b t " ") as (m & -> & ->); [done..|].
  destruct (strip_prefix _ _) as [z|] eqn:Es; [|done].
  rewrite str_app_assoc in Es. apply strip_prefix_short in Es as [y ->]; [|by simpl].
  destruct Hn. by exists a, y.
Qed.

Lemma close_found ids r : lacks "]" ids -> split_at "]]" (ids +:+ ("]]" +:+ r)) = Some (ids, r).
Proof.
  intros Hl. apply split_at_first. intros a b -> Hb. apply lacks_app in Hl as [_ Hl].
  destruct b as [|c b]; [done|]. destruct Hl as [Hc _].
  change (String c b +:+ ("]]" +:+ r)) with (String c (b +:+ ("]]" +:+ r))). simpl. by rewrite decide_False.
Qed.

(** ** Markers round trip *)

Lemma digits_lack x s : digits s -> ~ is_digit x -> lacks x s.
Proof. induction s as [|c s IH]; [done|]. intros [Hc Hs] Hx. split; [by intros ->|by apply IH]. Qed.

Lemma ids_text_facts (ids : list nat) (s := join "," (pretty <$> ids)) : is_str s /\ lacks "]" s /\ Forall (fun c => c <> 10) (chars s).
Proof.
  subst s. induction ids as [|i ids IH]; [split_and!; [by exists []|done|constructor]|].
  destruct (pretty_nat_digits i) as [Hd _]. pose proof (digits_chars _ Hd) as [Hs Hc].
  assert (Forall (fun c => c <> 10) (chars (pretty i))) as Hn by (eapply Forall_impl; [exact Hc|]; intros c ?; cbv beta in *; lia).
  assert (lacks "]" (pretty i)) as Hl by (apply digits_lack; [done|]; unfold is_digit; vm_compute; intuition).
  destruct ids as [|j ids]; [done|]. rewrite !fmap_cons in *. cbn [join]. destruct IH as (H1 & H2 & H3).
  assert (is_str ("," +:+ join "," (pretty j :: (pretty <$> ids)))) as Hc2 by (apply is_str_app; [by apply is_str_check_sound|done]).
  split_and!.
  - by apply is_str_app.
  - apply lacks_app. split; [done|]. apply lacks_app. split; [|done]. by simpl.
  - rewrite chars_app by done. apply Forall_app. split; [done|].
    change (chars ("," +:+ ?s)) with (44 :: chars s). by constructor.
Qed.

Lemma split_ids (ids : list nat) :
  ids <> [] -> split_chars (fun c => c =? 44) [] (chars (join "," (pretty <$> ids))) = (fun i : nat => chars (pretty i)) <$> ids.
Proof.
  intros Hne. induction ids as [|i ids IH]; [done|]. clear Hne.
  destruct (pretty_nat_digits i) as [Hd _]. pose proof (digits_chars _ Hd) as [Hs Hc].
  assert (Forall (fun c => (c =? 44) = false) (chars (pretty i))) as Hn.
  { eapply Forall_impl; [exact Hc|]. intros c ?. cbv beta in *. apply Z.eqb_neq. lia. }
  destruct ids as [|j ids].
  - csimpl. rewrite <-(app_nil_r (chars (pretty i))) at 1. by rewrite split_chars_app.
  - rewrite !fmap_cons in *. cbn [join]. rewrite chars_app, split_chars_app by done.
    change (chars ("," +:+ ?s)) with (44 :: chars s). cbn [split_chars].
    change (44 =? 44) with true. cbv iota. rewrite app_nil_l. f_equal. by apply IH.
Qed.

Lemma marker_ids_read (ids : list nat) :
  ids <> [] -> Forall (fun i => Z.of_nat i <= u64_max) ids ->
  marker_ids (join "," (pretty <$> ids)) = point_citation <$> ids.
Proof.
  intros Hne Hb. unfold marker_ids, split. rewrite split_ids by done. clear Hne.
  induction Hb as [|i ids Hi _ IH]; [done|]. rewrite !fmap_cons. cbn [omap list_omap].
  destruct (pretty_nat_digits i) as [Hd _]. pose proof (digits_chars _ Hd) as [[_ Hu]%is_str_chars _].
  rewrite Hu, digits_trim, parse_pretty by done. csimpl. rewrite Nat2Z.id. f_equal. exact IH.
Qed.

(** A block whose text is one line without trailing space and without a marker. *)
Record plain_block (b : AnnotatedBlock) : Prop := {
  pb_str : is_str (bl_text b);
  pb_nonempty : bl_text b <> EmptyString;
  pb_line : Forall (fun c => c <> 10) (chars (bl_text b));
  pb_trimmed : trim_end (bl_text b) = bl_text b;
  pb_unmarked : ~ substring "[[seg:" (bl_text b);
  pb_ids : Forall (fun i => Z.of_nat i <= u64_max) (cited_ids b);
}.

Lemma elem_of_cited_ids b i : i ∈ cited_ids b <-> exists c, c ∈ citations b /\ i ∈ segment_indices c.
Proof.
  unfold cited_ids. rewrite elem_of_dedup, merge_sort_Permutation, list_elem_of_bind. naive_solver.
Qed.

Lemma cited_ids_nonempty b : citations b <> [] -> cited_ids b <> [].
Proof.
  destruct (citations b) as [|c cs] eqn:E; [done|]. intros _ Hn.
  assert (start_block_index c ∈ cited_ids b) as Hin; [|rewrite Hn in Hin; by apply elem_of_nil in Hin].
  apply elem_of_cited_ids. exists c. rewrite E. split; [by left|]. apply elem_of_seq. lia.
Qed.

(** A line read back. *)
Lemma read_line b :
  plain_block b -> parse_marker_line (with_marker b) = mkBlock (bl_text b) (point_citation <$> cited_ids b).
Proof.
  intros [Hs Hne _ Ht Hn Hb]. unfold parse_marker_line, with_marker.
  destruct (citations b) as [|c cs] eqn:E.
  - assert (cited_ids b = []) as -> by (unfold cited_ids; by rewrite E).
    cbn [parse_line_loop]. rewrite split_at_none by done.
    change (EmptyString +:+ ?s) with s. by rewrite Ht.
  - assert (cited_ids b <> []) as Hids by (apply cited_ids_nonempty; by rewrite E).
    destruct (ids_text_facts (cited_ids b)) as (_ & Hl & _).
    set (ids := join "," (pretty <$> cited_ids b)) in *. rewrite Ht.
    replace (bl_text b +:+ " [[seg:" +:+ ids +:+ "]]")
      with ((bl_text b +:+ " ") +:+ ("[[seg:" +:+ (ids +:+ ("]]" +:+ EmptyString)))) by by rewrite str_app_assoc.
    destruct (String.length _) as [|n] eqn:En.
    { destruct (bl_text b); [done|]. simpl in En. done. }
    cbn [parse_line_loop]. rewrite marker_found by done. rewrite close_found by done.
    rewrite split_at_none. 2: { intros (x & y & Hxy). by destruct x. }
    change (EmptyString +:+ ?s) with s. rewrite app_nil_l, str_app_nil, trim_end_space, Ht by done.
    subst ids. by rewrite marker_ids_read.
Qed.

(** A line of text: characters, one at least, no line feed, no final carriage return. *)
Definition is_line (cs : list Z) : Prop :=
  cs <> [] /\ Forall is_char cs /\ Forall (fun c => c <> 10) cs /\ last cs <> Some 13.

Lemma strip_return_line cs : last cs <> Some 13 -> strip_return cs = cs.
Proof.
  intros Hl. unfold strip_return. destruct cs as [|c cs _] using rev_ind; [done|].
  rewrite last_snoc in Hl. rewrite rev_app_distr. simpl. repeat (case_match; try done).
Qed.

Lemma lines_chars_app acc a b :
  Forall (fun c => c <> 10) a -> lines_chars acc (a ++ b) = lines_chars (acc ++ a) b.
Proof.
  intros H. revert acc. induction H as [|c a Hc _ IH]; intros acc; [by rewrite app_nil_r|].
  simpl. destruct (Z.eqb_spec c 10); [done|]. rewrite IH. by rewrite <-app_assoc.
Qed.

Lemma lines_of_join ls :
  Forall is_line ls -> lines_chars [] (chars (join NEWLINE (utf8 <$> ls))) = ls.
Proof.
  induction 1 as [|l ls (Hne & Hc & Hn & Hr) Hls IH]; [done|]. destruct ls as [|m ls].
  - csimpl. rewrite chars_utf8 by done. rewrite <-(app_nil_r l) at 1. rewrite lines_chars_app by done.
    simpl. by destruct l.
  - rewrite !fmap_cons in *. cbn [join]. rewrite chars_utf8_app, lines_chars_app by done. rewrite app_nil_l.
    change (chars (NEWLINE +:+ ?s)) with (10 :: chars s). cbn [lines_chars].
    change (10 =? 10) with true. cbv iota. rewrite strip_return_line by done. f_equal. exact IH.
Qed.

Lemma with_marker_line b : plain_block b -> is_line (chars (with_marker b)) /\ utf8 (chars (with_marker b)) = with_marker b.
Proof.
  intros [Hs Hne Hl Ht _ _]. pose proof (is_str_chars _ Hs) as [Hc Hu]. unfold with_marker, is_line.
  assert (chars (bl_text b) <> []) as Hnn by (intros E; rewrite E in Hu; by destruct Hne).
  destruct (citations b) as [|c cs].
  - split_and!; try done. intros E. by apply (trim_end_last _ _ Hs Ht) in E.
  - rewrite Ht. destruct (ids_text_facts (cited_ids b)) as (His & _ & Hi).
    set (ids := join "," (pretty <$> cited_ids b)) in *.
    assert (is_str (" [[seg:" +:+ ids +:+ "]]")) as Hm.
    { apply is_str_app; [by apply is_str_check_sound|]. apply is_str_app; [done|by apply is_str_check_sound]. }
    assert (is_str (bl_text b +:+ " [[seg:" +:+ ids +:+ "]]")) as [Hcs Hus]%is_str_chars by by apply is_str_app.
    assert (chars (bl_text b +:+ " [[seg:" +:+ ids +:+ "]]") =
      chars (bl_text b) ++ [32; 91; 91; 115; 101; 103; 58] ++ chars ids ++ [93; 93]) as E.
    { rewrite chars_app by done. f_equal. 
      change (chars (" [[seg:" +:+ ids +:+ "]]")) with ([32; 91; 91; 115; 101; 103; 58] ++ chars (ids +:+ "]]")).
      f_equal. by rewrite chars_app. }
    split; [|done]. split_and!; [rewrite E; by destruct (chars (bl_text b))|done| |].
    + rewrite E. repeat (apply Forall_app; split); try done; repeat (constructor; [done|]); constructor.
    + rewrite E, !app_assoc, (last_app _ [93; 93]). done.
Qed.

(** C32: the notes of a chunk survive the reduce step's text form: markers written
    after one-line blocks are read back as the same texts with one citation for
    each cited segment, in order, and only for those. *)
Theorem markers_round_trip bs :
  Forall plain_block bs ->
  parse_markers (with_markers bs) = (fun b => mkBlock (bl_text b) (point_citation <$> cited_ids b)) <$> bs /\
  (forall b i, b ∈ bs -> i ∈ cited_ids b <-> exists c, c ∈ citations b /\ i ∈ segment_indices c).
Proof.
  intros Hb. split; [|intros; apply elem_of_cited_ids].
  unfold parse_markers, with_markers, str_lines.
  assert (with_marker <$> bs = utf8 <$> ((fun b => chars (with_marker b)) <$> bs)) as E.
  { rewrite <-list_fmap_compose. apply list_fmap_ext. intros i b Hi. simpl. symmetry.
    apply with_marker_line. by rewrite Forall_lookup in Hb; apply (Hb i). }
  rewrite E, lines_of_join, <-E.
  - rewrite <-list_fmap_compose. apply list_fmap_ext. intros i b Hi. apply read_line.
    rewrite Forall_lookup in Hb. by apply (Hb i).
  - apply Forall_fmap. eapply Forall_impl; [exact Hb|]. intros b Hpb. by apply with_marker_line.
Qed.

Definition plain_check (b : AnnotatedBlock) : bool :=
  is_str_check (bl_text b) && negb (str_is_empty (bl_text b)) && forallb (fun c => negb (c =? 10)) (chars (bl_text b)) &&
  bool_decide (trim_end (bl_text b) = bl_text b) && negb (contains (bl_text b) "[[seg:") &&
  forallb (fun i => Z.of_nat i <=? u64_max) (cited_ids b).

Lemma plain_check_sound b : plain_check b = true -> plain_block b.
Proof.
  unfold plain_check. rewrite !andb_true_iff, !negb_true_iff, bool_decide_eq_true, !forallb_forall.
  intros (((((H1 & H2) & H3) & H4) & H5) & H6). constructor; [..|done| |].
  - by apply is_str_check_sound.
  - by apply str_is_empty_spec.
  - apply Forall_forall. intros c Hc%list_elem_of_In%H3. by apply negb_true_iff, Z.eqb_neq in Hc.
  - rewrite <-contains_spec. by rewrite H5.
  - apply Forall_forall. intros i Hi%list_elem_of_In%H6. lia.
Qed.

Definition cited_notes : list AnnotatedBlock :=
  [mkBlock "Priya owns the migration" [mkCitation 4 6 "" 0; mkCitation 12 13 "" 0; mkCitation 5 6 "" 0];
   mkBlock "This is the third week [sic]" []].

Lemma markers_round_trip_witness :
  with_markers cited_notes =
    "Priya owns the migration [[seg:4,5,12]]" +:+ NEWLINE +:+ "This is the third week [sic]" /\
  parse_markers (with_markers cited_notes) =
    [mkBlock "Priya owns the migration" (point_citation <$> [4; 5; 12]%nat); mkBlock "This is the third week [sic]" []].
Proof.
  split; [vm_compute; reflexivity|].
  destruct (markers_round_trip cited_notes) as [E _]; [|exact E].
  apply Forall_cons. split; [|apply Forall_singleton]; apply plain_check_sound; vm_compute; reflexivity.
Defined.

(** ** The rounds of a marker line *)

Lemma split_at_spec p s a b : split_at p s = Some (a, b) -> s = a +:+ (p +:+ b).
Proof.
  revert a b. induction s as [|c s IH]; intros a b; rewrite split_at_eq.
  - destruct (strip_prefix p EmptyString) as [r|] eqn:E; [|done]. intros [= <- <-]. by apply strip_prefix_spec in E.
  - destruct (strip_prefix p (String c s)) as [r|] eqn:E.
    + intros [= <- <-]. by apply strip_prefix_spec in E.
    + destruct (split_at p s) as [[a' b']|]; [|done]. intros [= <- <-]. by rewrite (IH a' b').
Qed.

Lemma length_str_app a b : String.length (a +:+ b) = (String.length a + String.length b)%nat.
Proof. induction a as [|c a IH]; [done|]. exact (f_equal S IH). Qed.

(** More rounds than the line has bytes change nothing. *)
Lemma parse_line_rounds f1 f2 clean rest cs :
  (String.length rest < f1)%nat -> (String.length rest < f2)%nat ->
  parse_line_loop f1 clean rest cs = parse_line_loop f2 clean rest cs.
Proof.
  revert f2 clean rest cs. induction f1 as [|f1 IH]; intros f2 clean rest cs H1 H2; [lia|].
  destruct f2 as [|f2]; [lia|]. cbn [parse_line_loop].
  destruct (split_at "[[seg:" rest) as [[a after]|] eqn:E; [|done].
  destruct (split_at "]]" after) as [[ids rest']|] eqn:E'; [|done].
  apply split_at_spec in E, E'. subst. rewrite !length_str_app in *. simpl in *. apply IH; lia.
Qed.

(** ** An extraction inside an answer *)

Lemma scan_object_prefix s str o : scan_object s str = Some o -> exists post, str = o +:+ post.
Proof.
  revert s o. induction str as [|b str IH]; intros s o; [done|]. cbn [scan_object].
  destruct (scan_byte s b) as [s'| |]; [|done|].
  - destruct (scan_object s' str) as [o'|] eqn:E; [|done]. intros [= <-].
    destruct (IH _ _ E) as [post ->]. by exists post.
  - intros [= <-]. by exists str.
Qed.

(** The grammar the scanner is meant to follow: an object is an opening brace, then
    string literals, objects and other characters, then its own closing brace; a
    literal ends at the first quote that no backslash escapes, and braces in it mean
    nothing. *)
Definition QUOTE : ascii := "034".
Definition BACKSLASH : ascii := "092".

(** The rest of a literal, its closing quote included. *)
Inductive literal : string -> Prop :=
| literal_end : literal (String QUOTE EmptyString)
| literal_escape c s : literal s -> literal (String BACKSLASH (String c s))
| literal_char c s : c <> QUOTE -> c <> BACKSLASH -> literal s -> literal (String c s).

(** The rest of an object, its closing brace included. *)
Inductive inside : string -> Prop :=
| inside_close : inside (String "}" EmptyString)
| inside_literal s t : literal s -> inside t -> inside (String QUOTE (s +:+ t))
| inside_object s t : inside s -> inside t -> inside (String "{" (s +:+ t))
| inside_plain c s : c <> QUOTE -> c <> "{"%char -> c <> "}"%char -> inside s -> inside (String c s).

Definition object (obj : string) : Prop := exists rest, obj = String "{" rest /\ inside rest.

(** An object that occurs in a text. *)
Definition candidate (text obj : string) : Prop := exists pre post, text = pre +:+ (obj +:+ post) /\ object obj.

(** One character of the scanner, in the words of the grammar. *)
Lemma byte_val_inj a b : byte_val a = byte_val b -> a = b.
Proof. intros E. by rewrite <-(val_byte_val a), <-(val_byte_val b), E. Qed.

Lemma byte_eqb b c : (byte_val b =? byte_val c) = bool_decide (b = c).
Proof.
  case_bool_decide as E; [subst; apply Z.eqb_refl|]. apply Z.eqb_neq. intros Hv. by apply E, byte_val_inj.
Qed.

Lemma scan_byte_chars d q e b :
  scan_byte (mkScan d q e) b =
    if q then
      if e then Continue (mkScan d true false)
      else if bool_decide (b = BACKSLASH) then Continue (mkScan d true true)
      else if bool_decide (b = QUOTE) then Continue (mkScan d false false)
      else Continue (mkScan d true e)
    else if bool_decide (b = QUOTE) then Continue (mkScan d true e)
    else if bool_decide (b = "{"%char) then Continue (mkScan (S d) q e)
    else if bool_decide (b = "}"%char) then
      match d with O => Underflow | S O => Closes | S d => Continue (mkScan d q e) end
    else Continue (mkScan d q e).
Proof.
  unfold scan_byte. simpl. rewrite <-!byte_eqb. change (byte_val QUOTE) with 34. change (byte_val BACKSLASH) with 92.
  change (byte_val "{") with 123. change (byte_val "}") with 125. by destruct q, e.
Qed.

Lemma str_cons_app c (a b : string) : String c a +:+ b = String c (a +:+ b).
Proof. done. Qed.

(** Step the scanner over a known character. *)
Ltac scan_char :=
  rewrite ?str_cons_app; cbn [scan_object]; rewrite scan_byte_chars;
  repeat (case_bool_decide; [try discriminate; try contradiction | try contradiction]).

Lemma scan_literal s n t : literal s ->
  scan_object (mkScan n true false) (s +:+ t) = String.append s <$> scan_object (mkScan n false false) t.
Proof.
  intros Hs. induction Hs as [|c s Hs IH|c s Hq Hb Hs IH]; scan_char.
  - change (EmptyString +:+ t) with t. by destruct (scan_object _ t).
  - scan_char. rewrite IH. by destruct (scan_object _ t).
  - rewrite IH. by destruct (scan_object _ t).
Qed.

(** The scanner goes through the rest of an object and comes out one level up. *)
Lemma scan_inside s d post : inside s ->
  scan_object (mkScan (S d) false false) (s +:+ post) =
    match d with O => Some s | S _ => String.append s <$> scan_object (mkScan d false false) post end.
Proof.
  intros Hs. revert d post. induction Hs as [|s t Hl Hi IH|s t Hs IHs Ht IHt|c s H1 H2 H3 Hs IH]; intros d post; scan_char.
  - destruct d as [|d]; [done|]. change (EmptyString +:+ post) with post. by destruct (scan_object _ post).
  - rewrite str_app_assoc, scan_literal by done. rewrite IH. destruct d as [|d]; [done|].
    destruct (scan_object _ post); [|done]. simpl. by rewrite str_cons_app, str_app_assoc.
  - rewrite str_app_assoc, IHs, IHt. destruct d as [|d]; [done|].
    destruct (scan_object _ post); [|done]. simpl. by rewrite str_cons_app, str_app_assoc.
  - rewrite IH. destruct d as [|d]; [done|]. by destruct (scan_object _ post).
Qed.

(** What closes [d] objects and the one around them. *)
Fixpoint closing (d : nat) (o : string) : Prop :=
  match d with O => inside o | S d => exists s t, o = s +:+ t /\ inside s /\ closing d t end.

(** Whatever may come before the rest of an object may come before a closing. *)
Lemma closing_before (f : string -> string) d o :
  (forall a b, f (a +:+ b) = f a +:+ b) -> (forall s, inside s -> inside (f s)) -> closing d o -> closing d (f o).
Proof.
  intros Hf Hi. destruct d as [|d]; [apply Hi|]. intros (s & t & -> & Hs & Ht). exists (f s), t. rewrite Hf. auto.
Qed.

Lemma scan_sound str :
  (forall d o, scan_object (mkScan (S d) false false) str = Some o -> closing d o) /\
  (forall d o, scan_object (mkScan (S d) true false) str = Some o ->
     exists s t, o = s +:+ t /\ literal s /\ closing d t) /\
  (forall d o, scan_object (mkScan (S d) true true) str = Some o ->
     exists c s t, o = String c (s +:+ t) /\ literal s /\ closing d t).
Proof.
  induction str as [|b str (IH1 & IH2 & IH3)]; [done|]. split_and!; intros d o; cbn [scan_object]; rewrite scan_byte_chars.
  - case_bool_decide as Eq; [subst b|case_bool_decide as Eo; [subst b|case_bool_decide as Ec; [subst b|]]].
    + intros (o' & E & ->)%fmap_Some. destruct (IH2 _ _ E) as (s & t & -> & Hl & Ht).
      apply (closing_before (fun x => String QUOTE (s +:+ x))); [|by constructor|done].
      intros x y. by rewrite str_cons_app, str_app_assoc.
    + intros (o' & E & ->)%fmap_Some. destruct (IH1 _ _ E) as (s & t & -> & Hs & Ht).
      apply (closing_before (fun x => String "{" (s +:+ x))); [|by constructor|done].
      intros x y. by rewrite str_cons_app, str_app_assoc.
    + destruct d as [|d]; [intros [= <-]; constructor|].
      intros (o' & E & ->)%fmap_Some. exists (String "}" EmptyString), o'. split; [done|]. split; [constructor | by apply IH1].
    + intros (o' & E & ->)%fmap_Some. apply (closing_before (String b)); [done | by constructor | by apply IH1].
  - case_bool_decide as Eb; [subst b|case_bool_decide as Eq; [subst b|]].
    + intros (o' & E & ->)%fmap_Some. destruct (IH3 _ _ E) as (c & s & t & -> & Hl & Ht).
      exists (String BACKSLASH (String c s)), t. split; [done|]. split; [by constructor | done].
    + intros (o' & E & ->)%fmap_Some. exists (String QUOTE EmptyString), o'. split; [done|].
      split; [constructor | by apply IH1].
    + intros (o' & E & ->)%fmap_Some. destruct (IH2 _ _ E) as (s & t & -> & Hl & Ht).
      exists (String b s), t. split; [done|]. split; [by constructor | done].
  - intros (o' & E & ->)%fmap_Some. destruct (IH2 _ _ E) as (s & t & -> & Hl & Ht). by exists b, s, t.
Qed.

(** The scanner finds the object a text starts with, if there is one. *)
Lemma balanced_object_spec str o :
  balanced_object (String "{" str) = Some o <-> object o /\ exists post, String "{" str = o +:+ post.
Proof.
  unfold balanced_object. scan_char. split.
  - intros (o' & E & ->)%fmap_Some. split; [exists o'; split; [done | by apply (proj1 (scan_sound str) 0%nat)]|].
    destruct (scan_object_prefix _ _ _ E) as [post ->]. by exists post.
  - intros [(rest & -> & Hi) [post E]]. injection E as ->. by rewrite (scan_inside rest 0 post Hi).
Qed.

Section Answers.
Context `{ExtractionParser}.

Lemma candidate_later b text obj : candidate text obj -> candidate (String b text) obj.
Proof. intros (pre & post & -> & Hobj). by exists (String b pre), post. Qed.

Lemma embedded_sound text e : embedded_object text = Some e -> exists obj, candidate text obj /\ from_str obj = inl e.
Proof.
  induction text as [|b text IH]; [done|]. cbn [embedded_object]. change 123 with (byte_val "{"). rewrite byte_eqb.
  assert (embedded_object text = Some e -> exists obj, candidate (String b text) obj /\ from_str obj = inl e) as Hlater.
  { intros (obj & Hc & He)%IH. exists obj. split; [by apply candidate_later | done]. }
  case_bool_decide as Eb; [subst b | exact Hlater].
  destruct (balanced_object (String "{" text)) as [o|] eqn:Eo; [|exact Hlater].
  destruct (from_str o) as [e'|d] eqn:Ef; [|exact Hlater]. intros [= <-].
  apply balanced_object_spec in Eo as [Hobj [post Ep]]. exists o. split; [|done]. by exists EmptyString, post.
Qed.

Lemma embedded_complete text obj e :
  candidate text obj -> from_str obj = inl e -> embedded_object text <> None.
Proof.
  intros (pre & post & -> & Hobj) He. induction pre as [|b pre IH].
  - change (EmptyString +:+ ?s) with s. pose proof Hobj as (rest & E & _).
    assert (obj +:+ post = String "{" (rest +:+ post)) as Eo by (by rewrite E). rewrite Eo. cbn [embedded_object].
    change (byte_val "{" =? 123) with true. cbv iota.
    rewrite (proj2 (balanced_object_spec (rest +:+ post) obj)), He; [done|]. split; [done|]. by exists post.
  - change (String b pre +:+ ?s) with (String b (pre +:+ s)). cbn [embedded_object].
    by case_match.
Qed.


End Answers.
