(* ===== verification/Sha256.v ===== *)
(** * fotw-summarize: the content hash of a prompt

    Models [crates/fotw-summarize/src/hash.rs], SHA-256 over a list of bytes, with
    its words as 32-bit integers and its padding loop as written.  The examples are
    the published vectors. *)

From S2P Require Import Prelude Text.

Local Open Scope Z_scope.

Definition K : list Z :=
  [0x428a_2f98; 0x7137_4491; 0xb5c0_fbcf; 0xe9b5_dba5; 0x3956_c25b; 0x59f1_11f1;
   0x923f_82a4; 0xab1c_5ed5; 0xd807_aa98; 0x1283_5b01; 0x2431_85be; 0x550c_7dc3;
   0x72be_5d74; 0x80de_b1fe; 0x9bdc_06a7; 0xc19b_f174; 0xe49b_69c1; 0xefbe_4786;
   0x0fc1_9dc6; 0x240c_a1cc; 0x2de9_2c6f; 0x4a74_84aa; 0x5cb0_a9dc; 0x76f9_88da;
   0x983e_5152; 0xa831_c66d; 0xb003_27c8; 0xbf59_7fc7; 0xc6e0_0bf3; 0xd5a7_9147;
   0x06ca_6351; 0x1429_2967; 0x27b7_0a85; 0x2e1b_2138; 0x4d2c_6dfc; 0x5338_0d13;
   0x650a_7354; 0x766a_0abb; 0x81c2_c92e; 0x9272_2c85; 0xa2bf_e8a1; 0xa81a_664b;
   0xc24b_8b70; 0xc76c_51a3; 0xd192_e819; 0xd699_0624; 0xf40e_3585; 0x106a_a070;
   0x19a4_c116; 0x1e37_6c08; 0x2748_774c; 0x34b0_bcb5; 0x391c_0cb3; 0x4ed8_aa4a;
   0x5b9c_ca4f; 0x682e_6ff3; 0x748f_82ee; 0x78a5_636f; 0x84c8_7814; 0x8cc7_0208;
   0x90be_fffa; 0xa450_6ceb; 0xbef9_a3f7; 0xc671_78f2].

Definition H0 : list Z :=
  [0x6a09_e667; 0xbb67_ae85; 0x3c6e_f372; 0xa54f_f53a; 0x510e_527f; 0x9b05_688c; 0x1f83_d9ab; 0x5be0_cd19].

(** [u32] operations. *)
Definition add32 (a b : Z) : Z := (a + b) mod 2 ^ 32.
Definition not32 (a : Z) : Z := 2 ^ 32 - 1 - a.
Definition rotate_right (a n : Z) : Z :=
  Z.lor (Z.shiftr a n) (Z.shiftl a (32 - n) mod 2 ^ 32).

Definition be_bytes32 (v : Z) : list Z :=
  [Z.shiftr v 24; Z.shiftr v 16 mod 256; Z.shiftr v 8 mod 256; v mod 256].
Definition be_bytes64 (v : Z) : list Z := be_bytes32 (Z.shiftr v 32) ++ be_bytes32 (v mod 2 ^ 32).
Definition from_be_bytes (b0 b1 b2 b3 : Z) : Z := b0 * 16777216 + b1 * 65536 + b2 * 256 + b3.

(** [while message.len() % 64 != 56 { message.push(0) }]; at most 63 rounds. *)
Fixpoint pad_zeros (fuel : nat) (message : list Z) : list Z :=
  match fuel with
  | O => message
  | S fuel => if (length message mod 64 =? 56)%nat then message else pad_zeros fuel (message ++ [0])
  end.

Definition padded (bytes : list Z) : list Z :=
  let bit_length := (Z.of_nat (length bytes) * 8) mod 2 ^ 64 in
  pad_zeros 64 (bytes ++ [128]) ++ be_bytes64 bit_length.

(** [block.chunks_exact(4)] as words. *)
Fixpoint words_of (block : list Z) : list Z :=
  match block with
  | b0 :: b1 :: b2 :: b3 :: rest => from_be_bytes b0 b1 b2 b3 :: words_of rest
  | _ => []
  end.

Definition schedule_word (w : list Z) (i : nat) : Z :=
  let at_ j := nth j w 0 in
  let s0 := Z.lxor (Z.lxor (rotate_right (at_ (i - 15)%nat) 7) (rotate_right (at_ (i - 15)%nat) 18))
              (Z.shiftr (at_ (i - 15)%nat) 3) in
  let s1 := Z.lxor (Z.lxor (rotate_right (at_ (i - 2)%nat) 17) (rotate_right (at_ (i - 2)%nat) 19))
              (Z.shiftr (at_ (i - 2)%nat) 10) in
  add32 (add32 (add32 (at_ (i - 16)%nat) s0) (at_ (i - 7)%nat)) s1.

Definition schedule (block : list Z) : list Z :=
  fold_left (fun w i => w ++ [schedule_word w i]) (seq 16 48) (words_of block).

Record Vars := mkVars { va : Z; vb : Z; vc : Z; vd : Z; ve : Z; vf : Z; vg : Z; vh : Z }.

Definition round (v : Vars) (kw : Z * Z) : Vars :=
  let '(mkVars a b c d e f g hh) := v in
  let '(k, w) := kw in
  let s1 := Z.lxor (Z.lxor (rotate_right e 6) (rotate_right e 11)) (rotate_right e 25) in
  let ch := Z.lxor (Z.land e f) (Z.land (not32 e) g) in
  let temp1 := add32 (add32 (add32 (add32 hh s1) ch) k) w in
  let s0 := Z.lxor (Z.lxor (rotate_right a 2) (rotate_right a 13)) (rotate_right a 22) in
  let maj := Z.lxor (Z.lxor (Z.land a b) (Z.land a c)) (Z.land b c) in
  let temp2 := add32 s0 maj in
  mkVars (add32 temp1 temp2) a b c (add32 d temp1) e f g.

Definition vars_of (h : list Z) : Vars :=
  mkVars (nth 0 h 0) (nth 1 h 0) (nth 2 h 0) (nth 3 h 0) (nth 4 h 0) (nth 5 h 0) (nth 6 h 0) (nth 7 h 0).
Definition of_vars (v : Vars) : list Z := [va v; vb v; vc v; vd v; ve v; vf v; vg v; vh v].

Definition compress (h block : list Z) : list Z :=
  zip_with add32 h (of_vars (fold_left round (zip K (schedule block)) (vars_of h))).

(** [message.chunks_exact(64)]: [n] whole blocks. *)
Fixpoint hash_blocks (n : nat) (h message : list Z) : list Z :=
  match n with
  | O => h
  | S n => hash_blocks n (compress h (take 64 message)) (drop 64 message)
  end.

Definition sha256 (bytes : list Z) : list Z :=
  let message := padded bytes in
  hash_blocks (length message / 64) H0 message ≫= be_bytes32.

(** [char::from_digit(d, 16)] *)
Definition hex_digit (d : Z) : ascii := val_byte (if d <? 10 then 48 + d else 87 + d).

Fixpoint hex (digest : list Z) : string :=
  match digest with
  | [] => EmptyString
  | b :: rest => String (hex_digit (Z.shiftr b 4)) (String (hex_digit (Z.land b 15)) (hex rest))
  end.

Definition sha256_hex (bytes : list Z) : string := hex (sha256 bytes).

Fixpoint bytes_of_string (s : string) : list Z :=
  match s with EmptyString => [] | String a s => byte_val a :: bytes_of_string s end.

(** ** Lemmas *)

(** The padding loop ends within its rounds, at 56 modulo 64. *)
Lemma pad_zeros_spec fuel message k :
  ((length message + k) mod 64 = 56)%nat -> (k < fuel)%nat -> (k < 64)%nat ->
  pad_zeros fuel message = message ++ replicate k 0.
Proof.
  revert message k. induction fuel as [|fuel IH]; intros message k Hk Hf Hlt; [lia|]. cbn [pad_zeros].
  destruct (Nat.eqb_spec (length message mod 64) 56) as [E|E].
  - assert (k = O) as ->; [|simpl; by rewrite app_nil_r].
    rewrite Nat.Div0.add_mod, E in Hk. rewrite (Nat.mod_small k) in Hk by lia.
    destruct (decide (56 + k < 64)%nat); [rewrite Nat.mod_small in Hk by lia; lia|].
    replace (56 + k)%nat with ((k - 8) + 1 * 64)%nat in Hk by lia.
    rewrite Nat.Div0.mod_add, Nat.mod_small in Hk by lia. lia.
  - destruct k as [|k]; [by rewrite Nat.add_0_r in Hk|].
    rewrite (IH _ k); [by rewrite <-app_assoc|rewrite length_app; simpl; rewrite <-Nat.add_assoc; exact Hk|lia|lia].
Qed.

(** The padded message is whole blocks: the bytes, a one bit, fewer than 64 zero
    bytes and the length. *)
Lemma padded_spec bytes :
  exists k, (k < 64)%nat /\ padded bytes = bytes ++ [128] ++ replicate k 0 ++
      be_bytes64 ((Z.of_nat (length bytes) * 8) mod 2 ^ 64) /\
    (length (padded bytes) mod 64 = 0)%nat.
Proof.
  set (k := ((120 - (length bytes + 1) mod 64) mod 64)%nat).
  assert (k < 64)%nat as Hk by (apply Nat.mod_upper_bound; lia).
  assert (((length bytes + 1) + k) mod 64 = 56)%nat as Hm.
  { subst k. pose proof (Nat.mod_upper_bound (length bytes + 1) 64 ltac:(lia)) as Hu.
    rewrite Nat.Div0.add_mod_idemp_r, <-Nat.Div0.add_mod_idemp_l.
    replace ((length bytes + 1) mod 64 + (120 - (length bytes + 1) mod 64))%nat with 120%nat by lia. done. }
  assert (padded bytes = bytes ++ [128] ++ replicate k 0 ++ be_bytes64 ((Z.of_nat (length bytes) * 8) mod 2 ^ 64)) as E.
  { unfold padded. rewrite (pad_zeros_spec 64 _ k); [by rewrite <-!app_assoc| |lia|lia].
    rewrite length_app. exact Hm. }
  exists k. split_and!; [done|done|]. rewrite E, !length_app, length_replicate.
  change (length [128]) with 1%nat. change (length (be_bytes64 _)) with 8%nat.
  replace (length bytes + (1 + (k + 8)))%nat with ((length bytes + 1 + k) + 8)%nat by lia.
  by rewrite <-Nat.Div0.add_mod_idemp_l, Hm.
Qed.

Lemma hash_blocks_length n h message : length h = 8%nat -> length (hash_blocks n h message) = 8%nat.
Proof.
  revert h message. induction n as [|n IH]; intros h message Hh; [done|]. apply IH.
  unfold compress. rewrite length_zip_with, Hh. done.
Qed.

(** A digest has 32 bytes. *)
Lemma sha256_length bytes : length (sha256 bytes) = 32%nat.
Proof.
  unfold sha256. assert (forall l : list Z, length (l ≫= be_bytes32) = (length l * 4)%nat) as Hl.
  { induction l as [|x l IH]; [done|]. csimpl. by rewrite IH. }
  by rewrite Hl, hash_blocks_length.
Qed.

Example sha256_of_nothing :
  sha256_hex [] = "e3b0c44298fc1c149afbf4c8996fb92427ae41e4649b934ca495991b7852b855".
Proof. vm_compute. reflexivity. Qed.

Example sha256_of_abc :
  sha256_hex (bytes_of_string "abc") = "ba7816bf8f01cfea414140de5dae2223b00361a396177a9cb410ff61f20015ad".
Proof. vm_compute. reflexivity. Qed.

Example sha256_of_two_blocks :
  sha256_hex (bytes_of_string "abcdbcdecdefdefgefghfghighijhijkijkljklmklmnlmnomnopnopq") =
    "248d6a61d20638b8e5c026930c3e6039a33ce45964ff2167f6ecedd419db06c1".
Proof. vm_compute. reflexivity. Qed.
