(* ===== verification/Summary.v ===== *)
(** * fotw-summarize: the two-call pipeline

    Models [crates/fotw-summarize/src/pipeline.rs]: planning within the context of
    the provider, one prose call a chunk and a reduce call when there are several,
    one extraction call a chunk, and the outcome.  The providers are the parameter
    [ad_complete], which may change any world and answer anything; every call is
    logged with its answer. *)

From Stdlib Require Import SpecFloat.
From S2P Require Import Prelude Float32 Float64 Text SttTypes Budget Document Chunk Evidence Adapter AdapterProofs Prompt Grounding.

Local Open Scope Z_scope.

Definition DEFAULT_MAX_OUTPUT_TOKENS : Z := 8192.
Definition DOCUMENT_TITLE : string := "Meeting transcript".

Definition cache_ttl_for (chat_session_open : bool) : CacheTtl :=
  if chat_session_open then OneHour else FiveMinutes.

Inductive Warning :=
| LowGrounding (coverage : f64)
| ItemsDropped (count : nat)
| CachePrefixMissed
| MapReduced (chunks : nat)
| ExtractionFailed (detail : string).

Record PipelineConfig := mkPipelineConfig {
  preset : Preset;
  template_body : string;
  meeting_date : string;
  chat_session_open : bool;
  cfg_max_output_tokens : Z;
  speech_context : option SpeechContext;
  cfg_coverage : CoverageConfig;
  cfg_validator : ValidatorConfig;
}.

Definition pipeline_default : PipelineConfig :=
  mkPipelineConfig Balanced EmptyString EmptyString false DEFAULT_MAX_OUTPUT_TOKENS None coverage_default validator_default.

Definition config_cache_ttl (self : PipelineConfig) : CacheTtl := cache_ttl_for (chat_session_open self).

Record SummaryOutcome := mkOutcome {
  out_blocks : list AnnotatedBlock;
  out_coverage : CoverageReport;
  out_validation : ValidationReport;
  out_warnings : list Warning;
  out_prompt_hash : string;
  out_prompt_version : string;
  usage_a : Usage;
  usage_b : Usage;
  map_reduced : bool;
}.

Definition outcome_markdown (self : SummaryOutcome) : string := join "" (bl_text <$> out_blocks self).

Section Pipeline.
Context `{PromptFiles, ContextJson, ExtractionParser, Lowercase, Uppercase, UnicodeTables} {World : Type}.

Record LlmAdapter := mkAdapter {
  ad_capabilities : Capabilities;
  ad_model_id : string;
  ad_complete : World -> LlmRequest -> World * result LlmResponse SummarizeError;
}.

Inductive Role := Prose | Extract.
Record Sent := mkSent { role : Role; request : LlmRequest; answer : result LlmResponse SummarizeError }.

(** Calls in sequence: the world, the log of calls, and the first error. *)
Definition Calls (A : Type) := World -> World * list Sent * result A SummarizeError.
Definition ret {A} (a : A) : Calls A := fun w => (w, [], Ok a).
Definition fail {A} (r : result A SummarizeError) : Calls A := fun w => (w, [], r).
Definition bind {A B} (m : Calls A) (k : A -> Calls B) : Calls B := fun w =>
  match m w with
  | (w, log, Ok a) => let '(w, more, r) := k a w in (w, log ++ more, r)
  | (w, log, Err e) => (w, log, Err e)
  end.
Notation "'let*' x ':=' m 'in' k" := (bind m (fun x => k)) (at level 10, x pattern, m at level 100, k at level 200).

Context (prose extraction : LlmAdapter) (config : PipelineConfig).

Definition adapter (r : Role) : LlmAdapter := match r with Prose => prose | Extract => extraction end.

Definition complete (r : Role) (req : LlmRequest) : Calls LlmResponse := fun w =>
  let '(w, a) := ad_complete (adapter r) w req in (w, [mkSent r req a], a).

Definition expects_cache_hit : bool :=
  bool_decide (ad_model_id prose = ad_model_id extraction) && negb (native_citations (ad_capabilities prose)) &&
  match prompt_cache (ad_capabilities prose) with NoCache => false | _ => true end &&
  match config_cache_ttl config with NoTtl => false | _ => true end.

Definition instruction_with_speech (instruction : string) : string :=
  match speech_context config with
  | Some context => render_speech context +:+ LF +:+ LF +:+ instruction
  | None => instruction
  end.

(** [preset.effort().filter(|_| capabilities.supports_effort)] *)
Definition effort_for (capabilities : Capabilities) : option Effort :=
  if supports_effort capabilities then preset_effort (preset config) else None.

(** ** Planning *)

Definition metadata_bytes : Z := match speech_context config with Some c => slen (render_speech c) | None => 0 end.

Definition planning_capabilities : Capabilities :=
  let c := ad_capabilities prose in
  if 0 <? metadata_bytes then
    mkCaps (native_citations c) (strict_json_schema c) (prompt_cache c)
      (Z.min (usable_context_tokens c) (usable_context_tokens (ad_capabilities extraction)))
      (max_output_tokens c) (supports_effort c) (supports_thinking c)
  else c.

Section Planning.
Context (document : TranscriptDocument) (user_notes : string) (anchors : list Anchor) (duration_ms : Z).
Context (usable overhead : Z).

(** What the prose call of a chunk needs. *)
Definition needed_for (c : Chunk) : Z :=
  sat_add64 (sat_add64 overhead (c_tokens c))
    (match render_notes document (c_segments c) user_notes anchors duration_ms with Some n => slen n | None => 0 end).

Definition first_overflow (chunks : list Chunk) : option Z :=
  head (omap (fun c => if usable <? needed_for c then Some (needed_for c) else None) chunks).

(** The loop that halves the budget until every chunk fits; [None] is a panic or the
    end of the fuel. *)
Fixpoint fit_loop (fuel : nat) (turns : list SpeakerTurn) (budget : Z) (p : Plan) (chunks : list Chunk)
    : option (result (Plan * list Chunk) SummarizeError) :=
  match fuel with
  | O => None
  | S fuel =>
      match first_overflow chunks with
      | None => Some (Ok (p, chunks))
      | Some needed =>
          if budget =? 1 then Some (Err (ContextOverflow needed usable))
          else
            let budget := Z.max (budget / 2) 1 in
            chunks ← pack turns budget;
            fit_loop fuel turns budget (MapReduce chunks) chunks
      end
  end.
End Planning.

Definition chunk_budget (chunks : list Chunk) : Z := Z.max (foldr Z.max 1 (c_tokens <$> chunks)) 1.

Definition planning_overhead (system : string) : Z :=
  sat_add64 (sat_add64 (sat_add64 (estimate_tokens system) (cfg_max_output_tokens config)) 1024) metadata_bytes.

Definition has_context (user_notes : string) (anchors : list Anchor) : bool :=
  match anchors with [] => false | _ => true end || negb (str_is_empty (trim user_notes)) || (0 <? metadata_bytes).

Definition prepare (document : TranscriptDocument) (user_notes : string) (anchors : list Anchor) (duration_ms : Z)
    (system : string) : option (result (Plan * list Chunk) SummarizeError) :=
  let capabilities := planning_capabilities in
  p ← plan document capabilities;
  let chunks := plan_chunks p document in
  if has_context user_notes anchors then
    let usable := usable_context_tokens capabilities in
    let overhead := planning_overhead system in
    let minimum := sat_add64 overhead (slen user_notes) in
    if usable <? minimum then Some (Err (ContextOverflow minimum usable))
    else
      let budget := chunk_budget chunks in
      fit_loop document user_notes anchors duration_ms usable overhead (S (Z.to_nat (Z.log2 budget)))
        (speaker_turns document) budget p chunks
  else Some (Ok (p, chunks)).

(** ** Call A *)

Definition payload (document : TranscriptDocument) (c : Chunk) (capabilities : Capabilities) : DocumentPayload :=
  mkPayload document (c_segments c) (clamp_ttl capabilities (config_cache_ttl config)) DOCUMENT_TITLE.

Definition prose_request (system : string) (document : TranscriptDocument) (user_notes : string) (anchors : list Anchor)
    (duration_ms : Z) (c : Chunk) : LlmRequest :=
  let capabilities := ad_capabilities prose in
  let notes := render_notes document (c_segments c) user_notes anchors duration_ms in
  mkRequest (ad_model_id prose) system (Some (payload document c capabilities)) notes
    (instruction_with_speech (augment_instruction (meeting_date config) (is_some notes)))
    (native_citations capabilities) false (effort_for capabilities) (cfg_max_output_tokens config).

Definition part_notes (i : nat) (bs : list AnnotatedBlock) : string :=
  "## Notes from part " +:+ pretty (i + 1)%nat +:+ LF +:+ LF +:+ with_markers bs.

Definition REDUCE_TEXT : string :=
  "Below are notes written from consecutive parts of one meeting. Merge them into a single document following the template, removing the duplication produced by the overlap between parts."
  +:+ LF +:+ LF +:+
  "Every `[[seg:N]]` marker is a transcript segment id. **Carry each marker through onto whichever sentence it supports.** Do not renumber them, do not invent new ones, and do not write a sentence that carries no marker unless it is your own explicit inference across parts.".

Definition reduce_request (system : string) (mapped : list (list AnnotatedBlock)) : LlmRequest :=
  mkRequest (ad_model_id prose) system None None
    (instruction_with_speech
       ("Meeting date: " +:+ meeting_date config +:+ "." +:+ LF +:+ LF +:+ REDUCE_TEXT +:+ LF +:+ LF +:+
        join (LF +:+ LF) (imap part_notes mapped)))
    false false (effort_for (ad_capabilities prose)) (cfg_max_output_tokens config).

Definition reduce_overflow (system : string) (req : LlmRequest) : option SummarizeError :=
  match speech_context config with
  | None => None
  | Some context =>
      let usable := usable_context_tokens (ad_capabilities prose) in
      let needed := sat_add64 (sat_add64 (sat_add64 (estimate_tokens system) (estimate_tokens (rq_instruction req)))
                                 (slen (render_speech context))) (cfg_max_output_tokens config) in
      if usable <? needed then Some (ContextOverflow needed usable) else None
  end.

Definition reduce (system : string) (mapped : list (list AnnotatedBlock)) : Calls (list AnnotatedBlock * Usage) :=
  let req := reduce_request system mapped in
  match reduce_overflow system req with
  | Some e => fail (Err e)
  | None =>
      let* response := complete Prose req in
      let* _ := fail (ensure_complete response) in
      ret (parse_markers (response_text response), usage response)
  end.

Section Run.
Context (system : string) (document : TranscriptDocument) (user_notes : string) (anchors : list Anchor) (duration_ms : Z).

Fixpoint map_chunks (chunks : list Chunk) (total : Usage) (mapped : list (list AnnotatedBlock))
    : Calls (list (list AnnotatedBlock) * Usage) :=
  match chunks with
  | [] => ret (mapped, total)
  | c :: chunks =>
      let* response := complete Prose (prose_request system document user_notes anchors duration_ms c) in
      let* _ := fail (ensure_complete response) in
      map_chunks chunks (usage_add total (usage response)) (mapped ++ [remap_citations (blocks response) c])
  end.

Definition run_call_a (chunks : list Chunk) : Calls (list AnnotatedBlock * Usage) :=
  let* (mapped, total) := map_chunks chunks usage_default [] in
  if (length mapped <=? 1)%nat then ret (default [] (head mapped), total)
  else
    let* (reduced, reduce_usage) := reduce system mapped in
    ret (reduced, usage_add total reduce_usage).

(** ** Call B *)

Definition extraction_request (c : Chunk) : LlmRequest :=
  let capabilities := ad_capabilities extraction in
  mkRequest (ad_model_id extraction) system (Some (payload document c capabilities)) None
    (instruction_with_speech (extraction_instruction (meeting_date config) (strict_json_schema capabilities)))
    false (strict_json_schema capabilities) (effort_for capabilities) (cfg_max_output_tokens config).

Fixpoint run_call_b (chunks : list Chunk) (merged : Extraction) (total : Usage) (failures : list string)
    : Calls (Extraction * Usage * list string) :=
  match chunks with
  | [] => ret (merged, total, failures)
  | c :: chunks =>
      let* response := complete Extract (extraction_request c) in
      let* _ := fail (ensure_complete response) in
      let total := usage_add total (usage response) in
      match parse_extraction response with
      | Ok e => run_call_b chunks (merge_extraction merged e) total failures
      | Err (SchemaViolation detail) => run_call_b chunks merged total (failures ++ [detail])
      | Err other => fail (Err other)
      end
  end.

Definition finish (sp : SystemPrompt) (p : Plan) (chunks : list Chunk) (bs : list AnnotatedBlock) (ua : Usage)
    (e : Extraction) (ub : Usage) (failures : list string) : SummaryOutcome :=
  let coverage_ := measure bs (cfg_coverage config) in
  let validation := validate e document (cfg_validator config) in
  let warnings :=
    (if is_low_grounding coverage_ then [LowGrounding (coverage coverage_)] else []) ++
    (if (0 <? drop_count validation)%nat then [ItemsDropped (drop_count validation)] else []) ++
    (ExtractionFailed <$> failures) ++
    (if expects_cache_hit && (cache_read_input_tokens ub =? 0) then [CachePrefixMissed] else []) ++
    (if is_map_reduce p then [MapReduced (length chunks)] else []) in
  mkOutcome bs coverage_ validation warnings (sp_prompt_hash sp) (sp_version sp) ua ub (is_map_reduce p).

End Run.

(** [run_with_anchors]; [None] is a panic. *)
Definition run_with_anchors (document : TranscriptDocument) (user_notes : string) (anchors : list Anchor)
    (duration_ms : Z) (w : World) : option (World * list Sent * result SummaryOutcome SummarizeError) :=
  let sp := assemble (template_body config) in
  let system := sp_text sp in
  r ← prepare document user_notes anchors duration_ms system;
  match r with
  | Err e => Some (w, [], Err e)
  | Ok (p, chunks) =>
      Some ((let* (bs, ua) := run_call_a system document user_notes anchors duration_ms chunks in
             let* (e, ub, failures) := run_call_b system document chunks extraction_default usage_default [] in
             ret (finish document sp p chunks bs ua e ub failures)) w)
  end.

Definition run_summary (document : TranscriptDocument) (user_notes : string) (w : World) :=
  run_with_anchors document user_notes [] 0 w.

End Pipeline.
