(* ===== verification/SummaryProofs.v ===== *)
(** * fotw-summarize: what a run of the pipeline promises

    Proofs about [Summary]: planning ends, and what it plans fits and covers the
    meeting; every call is one the provider accepts; an outcome rests on complete
    answers only and holds nothing unverified. *)

From S2P Require Import Prelude Float32 Float64 Text SttTypes Budget Document Chunk Evidence Adapter AdapterProofs Prompt Grounding Summary.

Local Open Scope Z_scope.

(** ** Planning *)

Lemma head_omap_none {A B} (f : A -> option B) l : head (omap f l) = None -> Forall (fun x => f x = None) l.
Proof.
  induction l as [|x l IH]; [constructor|]. csimpl. destruct (f x) eqn:E; [done|]. intros. constructor; auto.
Qed.

Lemma head_omap_some {A B} (f : A -> option B) l y : head (omap f l) = Some y -> exists x, x ∈ l /\ f x = Some y.
Proof.
  induction l as [|x l IH]; [done|]. csimpl. destruct (f x) as [z|] eqn:E.
  - intros [= ->]. exists x. split; [by left|done].
  - intros (x' & Hx & Hf)%IH. exists x'. split; [by right|done].
Qed.

Lemma log2_half b : 2 <= b -> Z.log2 (Z.max (b / 2) 1) = Z.log2 b - 1 /\ 1 <= Z.max (b / 2) 1.
Proof.
  intros Hb. assert (1 <= b / 2) by (apply Z.div_le_lower_bound; lia). rewrite Z.max_l by lia.
  split; [|done]. change (b / 2) with (b / 2 ^ 1). rewrite <-Z.shiftr_div_pow2 by lia.
  rewrite Z.log2_shiftr by lia. pose proof (Z.log2_pos b). lia.
Qed.

Section Planning.
Context `{ContextJson} (raw : list TranscriptSegment) (user_notes : string) (anchors : list Anchor) (duration_ms : Z).
Context (usable overhead : Z).
Context (Hsum : zsum (block_tokens <$> segments (from_segments raw)) <= u64_max).
Let d := from_segments raw.

Lemma pack_covers budget : exists chunks, pack (speaker_turns d) budget = Some chunks /\ chunks ≫= fresh = all_indices d.
Proof.
  destruct (fold_turns_tokens (segments d) []) as [Hpos Htok]; [constructor|done|].
  destruct (pack_spec (speaker_turns d) budget) as (chunks & E & _ & Hcat & _);
    [done|unfold speaker_turns; rewrite Htok; done|].
  exists chunks. split; [done|]. rewrite Hcat. apply speaker_turns_cover.
Qed.

Definition fits (c : Chunk) : Prop := needed_for d user_notes anchors duration_ms overhead c <= usable.

(** Halving the budget ends, with chunks that fit or with the smallest that do not. *)
Lemma fit_loop_spec fuel budget p chunks :
  (Z.to_nat (Z.log2 budget) < fuel)%nat -> 1 <= budget -> chunks ≫= fresh = all_indices d ->
  exists r, fit_loop d user_notes anchors duration_ms usable overhead fuel (speaker_turns d) budget p chunks = Some r /\
    match r with
    | Ok (_, chunks) => chunks ≫= fresh = all_indices d /\ Forall fits chunks
    | Err e => exists needed, e = ContextOverflow needed usable /\ usable < needed
    end.
Proof.
  revert budget p chunks. induction fuel as [|fuel IH]; intros budget p chunks Hf Hb Hc; [lia|]. cbn [fit_loop].
  unfold first_overflow. destruct (head _) as [needed|] eqn:E.
  - apply head_omap_some in E as (c & _ & Hn). destruct (Z.ltb_spec usable (needed_for d user_notes anchors duration_ms overhead c)) as [Hlt|]; [|done].
    destruct (Z.eqb_spec budget 1) as [->|Hne]; [injection Hn as <-; eexists; split; [reflexivity|]; eexists; by split|].
    destruct (log2_half budget) as [Hl H1]; [lia|]. destruct (pack_covers (Z.max (budget / 2) 1)) as (chunks' & -> & Hc').
    simpl. apply IH; [|done|done]. pose proof (Z.log2_pos budget). lia.
  - eexists. split; [done|]. split; [done|]. apply head_omap_none in E.
    eapply Forall_impl; [exact E|]. intros c Hx. unfold fits. simpl in Hx.
    destruct (Z.ltb_spec usable (needed_for d user_notes anchors duration_ms overhead c)); [done|lia].
Qed.

End Planning.

(** Planning a run always ends, before any call: either the chunks cover the
    meeting, every segment fresh in exactly one, and with notes, note windows or
    recording facts to carry each chunk's call fits the context; or the run is
    refused because something does not fit, and the numbers say so. *)
Theorem planning_ends_in_chunks_that_fit `{ContextJson} {World} (prose extraction : LlmAdapter (World := World)) config
    raw user_notes anchors duration_ms system :
  let d := from_segments raw in
  let usable := usable_context_tokens (planning_capabilities prose extraction config) in
  zsum (block_tokens <$> segments d) <= u64_max ->
  exists r, prepare prose extraction config d user_notes anchors duration_ms system = Some r /\
    match r with
    | Ok (_, chunks) =>
        chunks ≫= fresh = all_indices d /\
        (has_context config user_notes anchors = true ->
         Forall (fits raw user_notes anchors duration_ms usable (planning_overhead config system)) chunks)
    | Err e => exists needed, e = ContextOverflow needed usable /\ usable < needed
    end.
Proof.
  intros d usable Hsum. unfold prepare.
  assert (exists p, plan d (planning_capabilities prose extraction config) = Some p /\
            plan_chunks p d ≫= fresh = all_indices d) as (p & -> & Hcat).
  { unfold plan. destruct (fits_single_shot _ _).
    - exists SingleShot. split; [done|]. simpl. unfold fresh. simpl. by rewrite app_nil_r.
    - destruct (pack_covers raw Hsum (chunk_budget_tokens (planning_capabilities prose extraction config))) as (cs & E & Hc).
      exists (MapReduce cs). unfold d. by rewrite E. }
  simpl. destruct (has_context config user_notes anchors).
  2: { eexists. split; [done|]. by split. }
  case_match eqn:Em; [eexists; split; [done|]; eexists; split; [done|]; lia|].
  destruct (fit_loop_spec raw user_notes anchors duration_ms usable (planning_overhead config system) Hsum
    (S (Z.to_nat (Z.log2 (chunk_budget (plan_chunks p d))))) (chunk_budget (plan_chunks p d)) p (plan_chunks p d))
    as (r & Er & Hr); [lia|unfold chunk_budget; lia|done|].
  exists r. split; [exact Er|]. destruct r as [[q cs]|e]; [|done]. destruct Hr. by split.
Qed.

(** ** Calls in sequence *)

Section Calls.
Context `{PromptFiles, ContextJson, ExtractionParser, Lowercase, Uppercase, UnicodeTables} {World : Type}.
Context (prose extraction : LlmAdapter (World := World)) (config : PipelineConfig).

(** The provider accepts the request. *)
Definition legal (s : Sent) : Prop :=
  request_validate (request s) (ad_capabilities (adapter prose extraction (role s))) = Ok tt.

(** A response that was not cut off. *)
Definition whole (r : LlmResponse) : Prop := ensure_complete r = Ok tt.

(** The calls of a role, request by request, each answered. *)
Definition asked (ro : Role) (requests : list LlmRequest) (rs : list LlmResponse) : list Sent :=
  zip_with (fun q r => mkSent ro q (Ok r)) requests rs.

Definition spent (rs : list LlmResponse) : Usage := fold_left usage_add (usage <$> rs) usage_default.

(** Whatever the providers answer, all calls are legal; and if the calls succeed,
    [post] holds of the result and the log. *)
Definition triple {A} (m : Calls (World := World) A) (post : A -> list Sent -> Prop) : Prop :=
  forall w, match m w with (_, log, r) =>
    Forall legal log /\ match r with Ok a => post a log | Err _ => True end end.

Lemma calls_ret {A} (a : A) (post : A -> list Sent -> Prop) : post a [] -> triple (ret a) post.
Proof. intros Hp w. by split. Qed.

Lemma calls_fail {A} (r : result A SummarizeError) (post : A -> list Sent -> Prop) :
  (forall a, r = Ok a -> post a []) -> triple (fail r) post.
Proof. intros Hp w. simpl. split; [constructor|]. destruct r; auto. Qed.

Lemma calls_bind {A B} (m : Calls A) (k : A -> Calls B) (mid : A -> list Sent -> Prop) (post : B -> list Sent -> Prop) :
  triple m mid -> (forall a log, mid a log -> triple (k a) (fun b more => post b (log ++ more))) ->
  triple (bind m k) post.
Proof.
  intros Hm Hk w. unfold bind. specialize (Hm w). destruct (m w) as [[w1 log] [a|e]]; [|done].
  destruct Hm as [Hl Ha]. specialize (Hk a log Ha w1). destruct (k a w1) as [[w2 more] r].
  destruct Hk as [Hl2 Hr]. split; [by apply Forall_app|done].
Qed.

(** A call and the check that its answer is whole. *)
Lemma calls_complete {B} ro req (k : LlmResponse -> Calls B) (post : B -> list Sent -> Prop) :
  request_validate req (ad_capabilities (adapter prose extraction ro)) = Ok tt ->
  (forall r, ensure_complete r = Ok tt ->
     triple (k r) (fun b more => post b (mkSent ro req (Ok r) :: more))) ->
  triple (bind (complete prose extraction ro req) (fun r => bind (fail (ensure_complete r)) (fun _ => k r))) post.
Proof.
  intros Hreq Hk.
  apply (calls_bind _ _ (fun r log => log = [mkSent ro req (Ok r)])).
  - intros w. unfold complete. destruct (ad_complete _ w req) as [w' a]. split; [by repeat constructor|].
    by destruct a.
  - intros r log ->. apply (calls_bind _ _ (fun _ log => log = [] /\ ensure_complete r = Ok tt)).
    + apply calls_fail. by intros [] ?.
    + intros _ log [-> He]. simpl. by apply Hk.
Qed.

(** ** Every request is legal *)

Lemma effort_legal caps : is_some (effort_for config caps) && negb (supports_effort caps) = false.
Proof. unfold effort_for. destruct (supports_effort caps); [apply andb_false_r|done]. Qed.

Ltac legal_request :=
  unfold request_validate; simpl; rewrite ?andb_false_r; simpl;
  rewrite ?andb_negb_r; simpl; by rewrite effort_legal.

Lemma prose_request_legal system document notes anchors duration c :
  request_validate (prose_request prose config system document notes anchors duration c)
    (ad_capabilities (adapter prose extraction Prose)) = Ok tt.
Proof. legal_request. Qed.

Lemma reduce_request_legal system mapped :
  request_validate (reduce_request prose config system mapped) (ad_capabilities (adapter prose extraction Prose)) = Ok tt.
Proof. legal_request. Qed.

Lemma extraction_request_legal system document c :
  request_validate (extraction_request extraction config system document c)
    (ad_capabilities (adapter prose extraction Extract)) = Ok tt.
Proof. legal_request. Qed.

(** ** The two calls *)

(** The notes of each chunk, their citations moved to the document. *)
Definition notes_of (rs : list LlmResponse) (chunks : list Chunk) : list (list AnnotatedBlock) :=
  zip_with (fun r c => remap_citations (blocks r) c) rs chunks.

Lemma map_chunks_triple system document notes anchors duration chunks total mapped :
  triple (map_chunks prose extraction config system document notes anchors duration chunks total mapped)
    (fun r log => exists rs, length rs = length chunks /\ Forall whole rs /\
       log = asked Prose (prose_request prose config system document notes anchors duration <$> chunks) rs /\
       r = (mapped ++ notes_of rs chunks, fold_left usage_add (usage <$> rs) total)).
Proof.
  revert total mapped. induction chunks as [|c chunks IH]; intros total mapped; cbn [map_chunks].
  { apply calls_ret. exists []. unfold notes_of. simpl. by rewrite app_nil_r. }
  apply calls_complete; [apply prose_request_legal|]. intros r Hr.
  intros w. specialize (IH (usage_add total (usage r)) (mapped ++ [remap_citations (blocks r) c]) w).
  destruct (map_chunks _ _ _ _ _ _ _ _ _ _ _ w) as [[w' log] [[m u]|e]]; [|by destruct IH].
  destruct IH as (Hl & rs & Hn & Hw & -> & E). injection E as -> ->. split; [done|].
  exists (r :: rs). unfold notes_of, asked. simpl. rewrite <-app_assoc. split_and!; [by rewrite Hn|by constructor|done|done].
Qed.

Lemma reduce_triple system mapped :
  triple (reduce prose extraction config system mapped)
    (fun out log => exists r, whole r /\ log = asked Prose [reduce_request prose config system mapped] [r] /\
       out = (parse_markers (response_text r), usage r)).
Proof.
  unfold reduce. destruct (reduce_overflow prose config system _); [by apply calls_fail|].
  apply calls_complete; [apply reduce_request_legal|]. intros r Hr. apply calls_ret. by exists r.
Qed.

(** One more call joins the notes of several chunks. *)
Definition joined (chunks : list Chunk) (rr : list LlmResponse) : Prop :=
  length rr = if (length chunks <=? 1)%nat then 0%nat else 1%nat.

Definition prose_of (mapped : list (list AnnotatedBlock)) (rr : list LlmResponse) : list AnnotatedBlock :=
  match rr with [] => default [] (head mapped) | r :: _ => parse_markers (response_text r) end.

Lemma call_a_triple system document notes anchors duration chunks :
  triple (run_call_a prose extraction config system document notes anchors duration chunks)
    (fun r log => exists ra rr, length ra = length chunks /\ joined chunks rr /\ Forall whole (ra ++ rr) /\
       log = asked Prose (prose_request prose config system document notes anchors duration <$> chunks) ra ++
             asked Prose [reduce_request prose config system (notes_of ra chunks)] rr /\
       r = (prose_of (notes_of ra chunks) rr, spent (ra ++ rr))).
Proof.
  unfold run_call_a. eapply calls_bind; [apply map_chunks_triple|]. intros [mapped total] log (ra & Hn & Hw & -> & E).
  simpl in E. injection E as -> ->.
  assert (length (notes_of ra chunks) = length chunks) as -> by (unfold notes_of; rewrite length_zip_with; lia).
  unfold joined. destruct (Nat.leb_spec (length chunks) 1).
  - apply calls_ret. exists ra, []. rewrite !app_nil_r. split_and!; try done.
  - eapply calls_bind; [apply reduce_triple|]. intros [reduced u] more (r & Hr & -> & E). injection E as -> ->.
    apply calls_ret. exists ra, [r]. rewrite app_nil_r. split_and!; try done; [by apply Forall_app; split; [|constructor]|].
    unfold spent. by rewrite fmap_app, fold_left_app.
Qed.

(** What the extractions that parse amount to, in the order of the chunks. *)
Definition merged_from (merged : Extraction) (rs : list LlmResponse) : Extraction :=
  fold_left (fun m r => match parse_extraction r with Ok e => merge_extraction m e | Err _ => m end) rs merged.

Lemma call_b_triple system document chunks merged total failures :
  triple (run_call_b prose extraction config system document chunks merged total failures)
    (fun r log => exists rb, length rb = length chunks /\ Forall whole rb /\
       log = asked Extract (extraction_request extraction config system document <$> chunks) rb /\
       r.1 = (merged_from merged rb, fold_left usage_add (usage <$> rb) total)).
Proof.
  revert merged total failures. induction chunks as [|c chunks IH]; intros merged total failures; cbn [run_call_b].
  { apply calls_ret. by exists []. }
  apply calls_complete; [apply extraction_request_legal|]. intros r Hr.
  assert (forall merged' failures', merged' = merged_from merged [r] ->
    triple (run_call_b prose extraction config system document chunks merged' (usage_add total (usage r)) failures')
      (fun b more => exists rb, length rb = S (length chunks) /\ Forall whole rb /\
         mkSent Extract (extraction_request extraction config system document c) (Ok r) :: more =
           asked Extract (extraction_request extraction config system document <$> c :: chunks) rb /\
         b.1 = (merged_from merged rb, fold_left usage_add (usage <$> rb) total))) as Hk.
  { intros merged' failures' Hm w. specialize (IH merged' (usage_add total (usage r)) failures' w).
    destruct (run_call_b _ _ _ _ _ _ _ _ _ w) as [[w' log] [[[e u] f]|e]]; [|by destruct IH].
    destruct IH as (Hl & rb & Hn & Hw & -> & E). simpl in E. injection E as -> ->. split; [done|].
    exists (r :: rb). rewrite Hm. split_and!; [simpl; by rewrite Hn|by constructor|done|done]. }
  unfold merged_from in Hk. simpl in Hk.
  destruct (parse_extraction r) as [e|[]]; try (by apply Hk); by apply calls_fail.
Qed.

(** What a summary of [chunks] is, and the calls behind it. *)
Definition rests_on (document : TranscriptDocument) (notes : string) (anchors : list Anchor) (duration : Z)
    (chunks : list Chunk) (out : SummaryOutcome) (log : list Sent) : Prop :=
  let system := sp_text (assemble (template_body config)) in
  exists ra rr rb,
    length ra = length chunks /\ joined chunks rr /\ length rb = length chunks /\ Forall whole (ra ++ rr ++ rb) /\
    log = asked Prose (prose_request prose config system document notes anchors duration <$> chunks) ra ++
          asked Prose [reduce_request prose config system (notes_of ra chunks)] rr ++
          asked Extract (extraction_request extraction config system document <$> chunks) rb /\
    out_blocks out = prose_of (notes_of ra chunks) rr /\
    out_coverage out = measure (out_blocks out) (cfg_coverage config) /\
    out_validation out = validate (merged_from extraction_default rb) document (cfg_validator config) /\
    usage_a out = spent (ra ++ rr) /\ usage_b out = spent rb.

Lemma run_triple document notes anchors duration p chunks :
  let sp := assemble (template_body config) in
  triple (bind (run_call_a prose extraction config (sp_text sp) document notes anchors duration chunks)
            (fun '(bs, ua) => bind (run_call_b prose extraction config (sp_text sp) document chunks extraction_default usage_default [])
               (fun '(e, ub, failures) => ret (finish prose extraction config document sp p chunks bs ua e ub failures))))
    (rests_on document notes anchors duration chunks).
Proof.
  intros sp. eapply calls_bind; [apply call_a_triple|]. intros [bs ua] la (ra & rr & Hna & Hj & Hwa & -> & E).
  injection E as -> ->.
  eapply calls_bind; [apply call_b_triple|]. intros [[e ub] failures] lb (rb & Hnb & Hwb & -> & E).
  simpl in E. injection E as -> ->. apply calls_ret. rewrite app_nil_r. exists ra, rr, rb.
  split_and!; try done; [rewrite app_assoc; by apply Forall_app | by rewrite <-app_assoc].
Qed.

End Calls.

(** A legal request never asks for citations and a schema at once. *)
Lemma legal_never_both {World} (prose extraction : LlmAdapter (World := World)) s :
  legal prose extraction s -> rq_citations (request s) && rq_output_format (request s) = false.
Proof. unfold legal, request_validate. by destruct (_ && _). Qed.

(** C15: a run always comes to an end, whatever the providers answer, and every call it
    makes is one its provider accepts, never citations and a schema together.  A
    summary comes out only of planned chunks that together show every segment, each
    fresh once, and only if every call was answered in full: the calls are exactly
    one prose call for each planned chunk in order, one to join their notes when
    there are several, and one extraction call for each planned chunk.  Its text is
    made of those answers, its items are what of the merged extractions the
    validator keeps, its coverage is measured on its own blocks, and all the calls
    are paid for in its totals. *)
Theorem summary_rests_on_whole_answers
    `{PromptFiles, ContextJson, ExtractionParser, Lowercase, Uppercase, UnicodeTables} {World}
    (prose extraction : LlmAdapter (World := World)) config raw user_notes anchors duration_ms w :
  let document := from_segments raw in
  zsum (block_tokens <$> segments document) <= u64_max ->
  exists w' log r,
    run_with_anchors prose extraction config document user_notes anchors duration_ms w = Some (w', log, r) /\
    Forall (fun s => legal prose extraction s /\ rq_citations (request s) && rq_output_format (request s) = false) log /\
    match r with
    | Err _ => True
    | Ok out =>
        exists p chunks,
          prepare prose extraction config document user_notes anchors duration_ms
            (sp_text (assemble (template_body config))) = Some (Ok (p, chunks)) /\
          chunks ≫= fresh = all_indices document /\
          rests_on prose extraction config document user_notes anchors duration_ms chunks out log /\
          extraction_ok document (cfg_validator config) (Evidence.extraction (out_validation out))
    end.
Proof.
  intros document Hsum. unfold run_with_anchors.
  destruct (planning_ends_in_chunks_that_fit prose extraction config raw user_notes anchors duration_ms
    (sp_text (assemble (template_body config))) Hsum) as (plan & E & Hplan).
  fold document in E, Hplan. rewrite E. simpl. destruct plan as [[p chunks]|e]; [|by eexists _, _, _].
  destruct Hplan as [Hcover _].
  pose proof (run_triple prose extraction config document user_notes anchors duration_ms p chunks w) as Ht. cbv zeta in Ht.
  destruct (bind _ _ w) as [[w' log] r]. destruct Ht as [Hl Hr]. exists w', log, r. split; [done|]. split.
  - eapply Forall_impl; [exact Hl|]. intros s Hs. split; [done|]. by apply (legal_never_both prose extraction).
  - destruct r as [out|e]; [|done]. exists p, chunks. split_and!; try done.
    destruct Hr as (ra & rr & rb & _ & _ & _ & _ & _ & _ & _ & -> & _). apply validate_ok.
Qed.

(** ** A run *)

Module ShortMeeting.

#[local] Instance files : PromptFiles := {| AUGMENT_V1 := "Contract." +:+ FOOTER_MARKER +:+ "Footer."; schema_text := "{}" |}.
#[local] Instance json : ContextJson := {| notes_json body _ _ := body; epoch_json _ := "{}" |}.

(** One item, said in segment 3, which two chunks show. *)
Definition found : Extraction :=
  mkExtraction [mkActionItem "Do the third thing" None None None Explicit [3]%nat "three"] [] [] [] [].
#[local] Instance parser : ExtractionParser :=
  {| from_str s := if decide (s = "[3]") then inl found else inr "expected an object" |}.

(** A provider that counts its calls, cites the first block it is shown, and extracts
    the item from every chunk that shows segment 3. *)
Definition reply (req : LlmRequest) : LlmResponse :=
  let shown := match rq_document req with Some p => pl_indices p | None => [] end in
  let said := if decide (3%nat ∈ shown) then "[3]" else "nothing here" in
  mkResponse [mkBlock said [mkCitation 0 1 "" 0]] (Some "end_turn") (mkUsage 10 1 0 0).
Definition model : LlmAdapter (World := nat) :=
  mkAdapter small_model "local" (fun w req => (S w, Ok (reply req))).

Definition transcript : TranscriptDocument := from_segments short_exchange.

(** Three chunks: three prose calls, one to reduce them, three extractions. *)
Lemma summary_rests_on_whole_answers_witness :
  exists w log out chunks, run_summary model model pipeline_default transcript "" 0%nat = Some (w, log, Ok out) /\
    length log = 7%nat /\ rests_on model model pipeline_default transcript "" [] 0 chunks out log.
Proof.
  destruct (summary_rests_on_whole_answers model model pipeline_default short_exchange "" [] 0 0%nat)
    as (w & log & r & E & _ & Hr); [vm_compute; discriminate|].
  assert (exists w log out, run_summary model model pipeline_default transcript "" 0%nat = Some (w, log, Ok out) /\
            length log = 7%nat) as (w1 & log1 & out & E1 & Hn).
  { eexists _, _, _. split; [vm_compute; reflexivity|vm_compute; reflexivity]. }
  change (run_summary model model pipeline_default transcript "" 0%nat = Some (w, log, r)) in E.
  rewrite E1 in E. injection E as -> -> <-. destruct Hr as (p & chunks & _ & _ & Hrest & _).
  exists w, log, out, chunks. split; [exact E1|]. split; [exact Hn|exact Hrest].
Defined.

(** An item of the overlap is extracted by both chunks that show it, and the summary
    carries it twice. *)
Lemma overlap_is_counted_twice :
  exists w log out, run_summary model model pipeline_default transcript "" 0%nat = Some (w, log, Ok out) /\
    action_items (Evidence.extraction (out_validation out)) = action_items found ++ action_items found /\
    dropped (out_validation out) = [].
Proof. eexists _, _, _. split_and!; vm_compute; reflexivity. Qed.

(** Notes that leave no room at first: the chunks are cut again until they fit. *)
Definition roomy : LlmAdapter (World := nat) :=
  mkAdapter (mkCaps false false NoCache 9300 100 false false) "local" (fun w req => (S w, Ok (reply req))).

Lemma planning_ends_in_chunks_that_fit_witness :
  exists chunks, prepare roomy roomy pipeline_default transcript "a note" [] 0 "" = Some (Ok (MapReduce chunks, chunks)) /\
    chunks ≫= fresh = seq 0 6.
Proof.
  destruct (planning_ends_in_chunks_that_fit roomy roomy pipeline_default short_exchange "a note" [] 0 "") as (r & E & Hr).
  { apply Z.leb_le. vm_compute. reflexivity. }
  assert (exists chunks, prepare roomy roomy pipeline_default transcript "a note" [] 0 "" = Some (Ok (MapReduce chunks, chunks)))
    as [chunks Ec] by (vm_compute; eauto).
  exists chunks. split; [exact Ec|]. pose proof (eq_trans (eq_sym Ec) E) as Er. injection Er as <-.
  destruct Hr as [Hc _]. etrans; [exact Hc|]. vm_compute. reflexivity.
Defined.

End ShortMeeting.
