(* ===== verification/Template.v ===== *)
(** * fotw-summarize: which template an event gets, and what a typo meant

    Models the matching functions of [crates/fotw-summarize/src/template.rs]: the
    glob of a template's [default_for] patterns, the choice among templates by the
    specificity of the pattern, and the edit distance behind a suggestion.  The
    lower case of a string is the class of [Text]. *)

From S2P Require Import Prelude Text Evidence AdapterProofs Prompt.

Local Open Scope nat_scope.

(** ** Globs *)

Definition STAR : ascii := "*"%char.

(** [pattern.split('*')] *)
Fixpoint split_star (pattern : string) : string * list string :=
  match pattern with
  | EmptyString => (EmptyString, [])
  | String c p =>
      let '(first, rest) := split_star p in
      if decide (c = STAR) then (EmptyString, first :: rest) else (String c first, rest)
  end.

Fixpoint strip_suffix (suffix s : string) : option string :=
  if decide (s = suffix) then Some EmptyString
  else match s with
       | EmptyString => None
       | String c s => String c <$> strip_suffix suffix s
       end.

(** The middle literals, each at its first place after the one before. *)
Fixpoint middle_loop (middles : list string) (rest : string) : bool :=
  match middles with
  | [] => true
  | middle :: middles =>
      if str_is_empty middle then middle_loop middles rest
      else match split_at middle rest with
           | Some (_, rest) => middle_loop middles rest
           | None => false
           end
  end.

(** [&parts[1..parts.len() - 1]] and the last part. *)
Definition glob_match (pattern text : string) : bool :=
  match split_star pattern with
  | (_, []) => bool_decide (pattern = text)
  | (first, more) =>
      match (if str_is_empty first then Some text else strip_prefix first text) with
      | None => false
      | Some rest =>
          let last_ := default EmptyString (last more) in
          match (if str_is_empty last_ then Some rest else strip_suffix last_ rest) with
          | None => false
          | Some rest => middle_loop (take (length more - 1) more) rest
          end
      end
  end.

(** ** Choosing *)

Definition matches_title `{Lowercase} (default_for : list string) (title : string) : bool :=
  existsb (fun p => glob_match (str_to_lowercase p) (str_to_lowercase title)) default_for.

(** [p.chars().filter(|c| *c != '*').count()] *)
Definition literal_chars (p : string) : nat := length (filter (fun c => c <> 42%Z) (chars p)).

Definition match_specificity `{Lowercase} (default_for : list string) (title : string) : option nat :=
  match literal_chars <$> filter (fun p => glob_match (str_to_lowercase p) (str_to_lowercase title) = true) default_for with
  | [] => None
  | x :: l => Some (foldr Nat.max x l)
  end.

(** ** Suggestions *)

(** One row of the table: [cur[j + 1]] from [prev[j]], [prev[j + 1]] and [cur[j]]. *)
Fixpoint next_row (ca : Z) (b : list Z) (diagonal : nat) (prev : list nat) (left : nat) : list nat :=
  match b, prev with
  | cb :: b, up :: prev =>
      let cost := if decide (ca = cb) then 0 else 1 in
      let here := Nat.min (Nat.min (up + 1) (left + 1)) (diagonal + cost) in
      here :: next_row ca b up prev here
  | _, _ => []
  end.

(** The rows, with [cur[0] = i + 1]. *)
Fixpoint rows (a b : list Z) (i : nat) (prev : list nat) : list nat :=
  match a with
  | [] => prev
  | ca :: a =>
      let cur := match prev with
                 | diagonal :: up => (i + 1) :: next_row ca b diagonal up (i + 1)
                 | [] => []
                 end in
      rows a b (i + 1) cur
  end.

Definition levenshtein (a b : string) : nat :=
  let a := chars a in
  let b := chars b in
  default 0 (rows a b 0 (seq 0 (length b + 1)) !! length b).

Definition suggest_budget (found : string) : nat :=
  let n := length (chars found) in
  if n <=? 4 then 1 else if n <=? 8 then 2 else 3.

(** [min_by_key] on the distance and then the length: the first of the least. *)
Definition closer (x y : nat * string) : bool :=
  (x.1 <? y.1) || ((x.1 =? y.1) && (String.length x.2 <=? String.length y.2)).

Definition suggest (found : string) (candidates : list string) : option string :=
  let near := filter (fun dc => dc.1 <= suggest_budget found) ((fun c => (levenshtein found c, c)) <$> candidates) in
  match near with
  | [] => None
  | x :: l => Some (fold_left (fun best y => if closer best y then best else y) l x).2
  end.

(** ** What a pattern means *)

(** [*] stands for any run of characters, everything else for itself. *)
Inductive glob : string -> string -> Prop :=
| glob_nil : glob EmptyString EmptyString
| glob_literal c p t : c <> STAR -> glob p t -> glob (String c p) (String c t)
| glob_star p run t : glob p t -> glob (String STAR p) (run +:+ t).

(** The literals in order, without overlap, anything between, before and after. *)
Fixpoint gaps (middles : list string) (t : string) : Prop :=
  match middles with
  | [] => True
  | m :: middles => exists a b, t = a +:+ (m +:+ b) /\ gaps middles b
  end.

(** The tail of a pattern after its first star: the literals and the last one. *)
Fixpoint tail_matches (more : list string) (t : string) : Prop :=
  match more with
  | [] => t = EmptyString
  | [l] => exists a, t = a +:+ l
  | m :: more => exists a b, t = a +:+ (m +:+ b) /\ tail_matches more b
  end.

Lemma tail_matches_cons m more t :
  more <> [] -> tail_matches (m :: more) t <-> exists a b, t = a +:+ (m +:+ b) /\ tail_matches more b.
Proof. by destruct more. Qed.

Lemma glob_parts pattern text first more :
  split_star pattern = (first, more) ->
  glob pattern text <->
    match more with [] => text = first | _ => exists rest, text = first +:+ rest /\ tail_matches more rest end.
Proof.
  revert text first more. induction pattern as [|c p IH]; intros text first more; cbn [split_star].
  { intros [= <- <-]. split; [by inversion 1|intros ->; constructor]. }
  destruct (split_star p) as [f r] eqn:Es. destruct (decide (c = STAR)) as [->|Hc]; intros [= <- <-].
  - split.
    + intros Hg. exists text. split; [done|]. inversion Hg as [|?? ? Hne|p' run t Ht]; [done|]. subst.
      apply (IH t f r) in Ht; [|done]. destruct r as [|m r].
      * subst. by exists run.
      * destruct Ht as (rest & -> & Hr). by exists run, rest.
    + intros (rest & -> & Ht). change (EmptyString +:+ rest) with rest. destruct r as [|m r].
      * destruct Ht as [a ->]. constructor. by apply (IH f f []).
      * destruct Ht as (a & b & -> & Hb). constructor. apply (IH _ f (m :: r)); [done|]. by exists b.
  - split.
    + intros Hg. inversion Hg as [|?? t Hne Ht|]; subst; [|done]. apply (IH t f r) in Ht; [|done]. destruct r as [|m r].
      * by subst.
      * destruct Ht as (rest & -> & Hr). by exists rest.
    + destruct r as [|m r].
      * intros ->. constructor; [done|]. by apply (IH f f []).
      * intros (rest & -> & Hr). constructor; [done|]. apply (IH _ f (m :: r)); [done|]. by exists rest.
Qed.

Lemma tail_matches_split more t :
  more <> [] ->
  tail_matches more t <->
    exists mid, t = mid +:+ default EmptyString (last more) /\ gaps (take (length more - 1) more) mid.
Proof.
  revert t. induction more as [|m more IH]; intros t Hne; [done|]. destruct more as [|n more].
  { simpl. split; [intros [a ->]; by exists a|intros (a & -> & _); by exists a]. }
  rewrite tail_matches_cons by done. rewrite last_cons_cons.
  replace (take (length (m :: n :: more) - 1) (m :: n :: more)) with (m :: take (length (n :: more) - 1) (n :: more))
    by (simpl; by rewrite Nat.sub_0_r). split.
  - intros (a & b & -> & (mid & -> & Hg)%IH); [|done]. exists (a +:+ (m +:+ mid)).
    split; [by rewrite !str_app_assoc|]. by exists a, mid.
  - intros (mid & -> & (a & b & -> & Hg)). exists a, (b +:+ default EmptyString (last (n :: more))).
    split; [by rewrite !str_app_assoc|]. apply IH; [done|]. by exists b.
Qed.

Lemma strip_suffix_spec x s r : strip_suffix x s = Some r <-> s = r +:+ x.
Proof.
  revert r. induction s as [|c s IH]; intros r; cbn [strip_suffix].
  - case_decide as E.
    + subst x. rewrite str_app_nil. split; [by intros [= <-]|by intros <-].
    + split; [done|]. intros Hr. destruct r; [|done]. by destruct E.
  - case_decide as E.
    + subst x. split; [by intros [= <-]|]. intros Hr. apply (f_equal String.length) in Hr as Hl.
      rewrite length_str_app in Hl. destruct r; [done|]. simpl in Hl. lia.
    + destruct r as [|d r].
      * split; [by destruct (strip_suffix x s)|]. intros Hr. by destruct E.
      * change (String d r +:+ x) with (String d (r +:+ x)). split.
        { destruct (strip_suffix x s) as [r'|] eqn:Es; [|done]. intros [= <- <-]. f_equal. by apply IH. }
        { intros [= -> Hs]. by rewrite (proj2 (IH r) Hs). }
Qed.

(** A later start of a literal is no obstacle to the rest. *)
Lemma gaps_more middles a t : gaps middles t -> gaps middles (a +:+ t).
Proof.
  destruct middles as [|m middles]; [done|]. intros (x & y & -> & Hg). exists (a +:+ x), y.
  by rewrite !str_app_assoc.
Qed.

(** The first occurrence leaves at least what any other leaves. *)
Lemma split_at_first_leaves m a b : exists a' c, split_at m (a +:+ (m +:+ b)) = Some (a', c +:+ b).
Proof.
  induction a as [|x a IH]; rewrite split_at_eq.
  - exists EmptyString, EmptyString. change (EmptyString +:+ ?s) with s. by rewrite strip_prefix_self.
  - change (String x a +:+ (m +:+ b)) with (String x (a +:+ (m +:+ b))).
    destruct (strip_prefix m (String x (a +:+ (m +:+ b)))) as [r|] eqn:E.
    + apply strip_prefix_spec in E. exists EmptyString.
      destruct (app_split_eq m r (String x a) (m +:+ b)) as [(z & Hm & Hz)|(z & Hm & ->)]; [by rewrite <-E| |].
      * (* the first occurrence reaches into the second *)
        destruct (app_split_eq z r m b) as [(y & -> & ->)|(y & -> & ->)]; [by rewrite <-Hz| |by exists y].
        exfalso. apply (f_equal String.length) in Hm. rewrite !length_str_app in Hm. simpl in Hm. lia.
      * exists (z +:+ m). by rewrite str_app_assoc.
    + cbv beta iota. destruct IH as (a' & c & ->). by exists (String x a'), c.
Qed.

Lemma middle_loop_spec middles t : middle_loop middles t = true <-> gaps middles t.
Proof.
  revert t. induction middles as [|m middles IH]; intros t; [done|]. cbn [middle_loop gaps].
  destruct (str_is_empty m) eqn:Em.
  - assert (m = EmptyString) as -> by by destruct m. rewrite IH. split.
    + intros Hg. by exists EmptyString, t.
    + intros (a & b & -> & Hg). by apply gaps_more.
  - split.
    + destruct (split_at m t) as [[a b]|] eqn:E; [|done]. apply split_at_spec in E. intros Hg%IH. by exists a, b.
    + intros (a & b & -> & Hg). destruct (split_at_first_leaves m a b) as (a' & c & ->).
      by apply IH, gaps_more.
Qed.

Lemma split_star_plain pattern first : split_star pattern = (first, []) -> first = pattern.
Proof.
  revert first. induction pattern as [|c p IH]; intros first; cbn [split_star]; [by intros [= <-]|].
  destruct (split_star p) as [f r] eqn:E. case_decide; intros [= <- ->]. by rewrite (IH f).
Qed.

(** C35: the scan that looks for each literal once and never goes back decides
    exactly what a pattern means, where a star stands for any run of characters and
    everything else for itself. *)
Theorem glob_match_is_the_pattern pattern text : glob_match pattern text = true <-> glob pattern text.
Proof.
  unfold glob_match. destruct (split_star pattern) as [first more] eqn:Es.
  rewrite (glob_parts pattern text first more Es). destruct more as [|m more].
  { assert (first = pattern) as ->; [|rewrite bool_decide_eq_true; naive_solver].
    by apply split_star_plain. }
  assert ((if str_is_empty first then Some text else strip_prefix first text) = strip_prefix first text) as ->.
  { by destruct first. }
  destruct (strip_prefix first text) as [rest|] eqn:Ep.
  2: { split; [done|]. intros (rest & -> & _). by rewrite strip_prefix_self in Ep. }
  apply strip_prefix_spec in Ep as ->.
  assert ((exists rest', first +:+ rest = first +:+ rest' /\ tail_matches (m :: more) rest') <-> tail_matches (m :: more) rest) as ->.
  { split; [|by exists rest]. intros (rest' & E & Ht). pose proof (strip_prefix_self first rest) as Hs.
    rewrite E, strip_prefix_self in Hs. by injection Hs as ->. }
  rewrite tail_matches_split by done. set (l := default EmptyString (last (m :: more))).
  assert ((if str_is_empty l then Some rest else strip_suffix l rest) = strip_suffix l rest) as ->.
  { destruct (str_is_empty l) eqn:El; [|done]. assert (l = EmptyString) as -> by by destruct l.
    symmetry. apply strip_suffix_spec. by rewrite str_app_nil. }
  destruct (strip_suffix l rest) as [mid|] eqn:El.
  - apply strip_suffix_spec in El as ->. rewrite middle_loop_spec. split; [by exists mid|].
    intros (mid' & E & Hg). assert (strip_suffix l (mid +:+ l) = Some mid') as Hs by by apply strip_suffix_spec.
    rewrite (proj2 (strip_suffix_spec l (mid +:+ l) mid)) in Hs by done. by injection Hs as ->.
  - split; [done|]. intros (mid & -> & _). by rewrite (proj2 (strip_suffix_spec l (mid +:+ l) mid)) in El.
Qed.

(** ** What the distance means *)

(** An alignment of two texts and its cost: a character deleted, inserted, or put in
    the place of another. *)
Inductive align : list Z -> list Z -> nat -> Prop :=
| align_nil : align [] [] 0
| align_delete x a b n : align a b n -> align (x :: a) b (S n)
| align_insert y a b n : align a b n -> align a (y :: b) (S n)
| align_replace x y a b n : align a b n -> align (x :: a) (y :: b) (n + (if decide (x = y) then 0 else 1)).

Fixpoint lev (a b : list Z) : nat :=
  match a with
  | [] => length b
  | x :: a' =>
      (fix go (b : list Z) : nat :=
         match b with
         | [] => length a
         | y :: b' => Nat.min (Nat.min (lev a' b + 1) (go b' + 1)) (lev a' b' + (if decide (x = y) then 0 else 1))
         end) b
  end.

Lemma lev_nil_r a : lev a [] = length a.
Proof. by destruct a. Qed.

Lemma lev_cons x a y b :
  lev (x :: a) (y :: b) =
    Nat.min (Nat.min (lev a (y :: b) + 1) (lev (x :: a) b + 1)) (lev a b + (if decide (x = y) then 0 else 1)).
Proof. done. Qed.

Lemma align_length_l a : align a [] (length a).
Proof. induction a; by constructor. Qed.
Lemma align_length_r b : align [] b (length b).
Proof. induction b; by constructor. Qed.

(** The recursion finds an alignment of its cost. *)
Lemma lev_align a b : align a b (lev a b).
Proof.
  revert b. induction a as [|x a IHa]; intros b; [apply align_length_r|].
  induction b as [|y b IHb]; [rewrite lev_nil_r; apply align_length_l|]. rewrite lev_cons.
  destruct (Nat.min_spec (Nat.min (lev a (y :: b) + 1) (lev (x :: a) b + 1)) (lev a b + (if decide (x = y) then 0 else 1)))
    as [[_ ->]|[_ ->]]; [|by constructor].
  destruct (Nat.min_spec (lev a (y :: b) + 1) (lev (x :: a) b + 1)) as [[_ ->]|[_ ->]];
    rewrite Nat.add_1_r; constructor; [apply IHa|apply IHb].
Qed.

(** And no alignment costs less. *)
Lemma lev_grows a b : (forall x, lev (x :: a) b <= lev a b + 1) /\ (forall y, lev a (y :: b) <= lev a b + 1).
Proof.
  split.
  - intros x. destruct b as [|y b]; [rewrite !lev_nil_r; simpl; lia|]. rewrite lev_cons. lia.
  - intros y. destruct a as [|x a]; [simpl; lia|]. rewrite lev_cons. lia.
Qed.

Lemma lev_least a b n : align a b n -> lev a b <= n.
Proof.
  induction 1 as [|x a b n _ IH|y a b n _ IH|x y a b n _ IH]; [done|..].
  - pose proof (proj1 (lev_grows a b) x). lia.
  - pose proof (proj2 (lev_grows a b) y). lia.
  - rewrite lev_cons. lia.
Qed.

Lemma align_snoc_delete a b n x : align a b n -> align (a ++ [x]) b (S n).
Proof.
  induction 1 as [| | |x' y a b n _ IH]; simpl; [by repeat constructor|by constructor..|].
  replace (S (n + _)) with (S n + (if decide (x' = y) then 0 else 1)) by lia. by constructor.
Qed.
Lemma align_snoc_insert a b n y : align a b n -> align a (b ++ [y]) (S n).
Proof.
  induction 1 as [| | |x y' a b n _ IH]; simpl; [by repeat constructor|by constructor..|].
  replace (S (n + _)) with (S n + (if decide (x = y') then 0 else 1)) by lia. by constructor.
Qed.
Lemma align_snoc_replace a b n x y :
  align a b n -> align (a ++ [x]) (b ++ [y]) (n + (if decide (x = y) then 0 else 1)).
Proof.
  induction 1 as [| | |x' y' a b n _ IH]; simpl; [|by constructor..|].
  - apply (align_replace x y [] [] 0), align_nil.
  - rewrite <-Nat.add_assoc, (Nat.add_comm (if decide (x' = y') then 0 else 1)), Nat.add_assoc. by constructor.
Qed.

(** An alignment read backwards. *)
Lemma align_rev a b n : align a b n -> align (rev a) (rev b) n.
Proof.
  induction 1; simpl; [constructor|by apply align_snoc_delete|by apply align_snoc_insert|by apply align_snoc_replace].
Qed.

(** ** The table computes it *)

(** The prefixes of a text, each reversed. *)
Fixpoint prefixes_rev (acc b : list Z) : list (list Z) :=
  acc :: match b with [] => [] | y :: b => prefixes_rev (y :: acc) b end.

Lemma next_row_spec ca ra acc b :
  next_row ca b (lev ra acc) (lev ra <$> tail (prefixes_rev acc b)) (lev (ca :: ra) acc) =
    lev (ca :: ra) <$> tail (prefixes_rev acc b).
Proof.
  revert acc. induction b as [|cb b IH]; intros acc; [done|].
  assert (forall acc', prefixes_rev acc' b = acc' :: tail (prefixes_rev acc' b)) as Hp by by destruct b.
  change (tail (prefixes_rev acc (cb :: b))) with (prefixes_rev (cb :: acc) b). rewrite Hp, !fmap_cons.
  cbn [next_row]. rewrite <-lev_cons. f_equal. apply IH.
Qed.

Lemma rows_spec a ra b :
  rows a b (length ra) (lev ra <$> prefixes_rev [] b) = lev (rev a ++ ra) <$> prefixes_rev [] b.
Proof.
  assert (prefixes_rev [] b = [] :: tail (prefixes_rev [] b)) as Hp by by destruct b.
  revert ra. induction a as [|ca a IH]; intros ra; [done|]. cbn [rows]. rewrite Hp at 1. rewrite fmap_cons.
  assert (length ra + 1 = lev (ca :: ra) []) as Hl by (simpl; lia). rewrite Hl, next_row_spec, <-fmap_cons, <-Hp, <-Hl.
  replace (length ra + 1) with (length (ca :: ra)) by (simpl; lia). rewrite IH. simpl. by rewrite <-app_assoc.
Qed.

Lemma first_row acc b : lev [] <$> prefixes_rev acc b = seq (length acc) (length b + 1).
Proof.
  revert acc. induction b as [|y b IH]; intros acc; [done|]. cbn [prefixes_rev]. rewrite fmap_cons, IH. done.
Qed.

Lemma prefixes_last acc b : prefixes_rev acc b !! length b = Some (rev b ++ acc).
Proof.
  revert acc. induction b as [|y b IH]; intros acc; [done|]. simpl. rewrite IH. by rewrite <-app_assoc.
Qed.

(** The two-row table gives the edit distance: an alignment of the two texts with
    that many deletions, insertions and replacements exists, and none has fewer. *)
Theorem levenshtein_is_the_edit_distance a b :
  align (chars a) (chars b) (levenshtein a b) /\
  forall n, align (chars a) (chars b) n -> levenshtein a b <= n.
Proof.
  assert (levenshtein a b = lev (rev (chars a)) (rev (chars b))) as ->.
  { unfold levenshtein. pose proof (first_row [] (chars b)) as Hf. simpl length in Hf. rewrite <-Hf.
    rewrite (rows_spec (chars a) []), app_nil_r, list_lookup_fmap, prefixes_last, app_nil_r. done. }
  split.
  - pose proof (align_rev _ _ _ (lev_align (rev (chars a)) (rev (chars b)))) as Hr. by rewrite !rev_involutive in Hr.
  - intros n Hn. by apply lev_least, align_rev.
Qed.

Example kitten : levenshtein "kitten" "sitting" = 3.
Proof. reflexivity. Qed.
Example globs :
  (glob_match "*review*" "weekly design review", glob_match "1:1*ana" "1:1 with ana", glob_match "a*ab" "ab") = (true, true, false).
Proof. reflexivity. Qed.
